(* ===== verification/_CoqProject ===== *)
-Q . S2P
Prelude.v
Sums.v
LLVMInterface.v
WidthNum.v
WidthIR.v
OptimizeBitwidths.v
MinimalValues.v
WidthArith.v
WidthForward.v
WidthCycles.v
WidthRules.v
WidthBounds.v
WidthExamples.v
Gaussian.v
FlowNamers.v
HandshakeIR.v
FlowExpr.v
IndexChannels.v
FlowExtract.v
FlowSystem.v
IOG.v
IOGThms.v
TokenFlow.v
FlowSound.v
FlowAnnotate.v
IOGTokens.v
IOGPaths.v
FlowExamples.v
StdString.v
SimplePaths.v
CircuitIR.v
CFG.v
HandshakeCFG.v
HandshakeCFGThms.v
GIID.v
GIIDThms.v
CFGExamples.v
LSQGraph.v
LSQSizing.v
LSQThms.v
LSQSizes.v
LSQFull.v
LSQExamples.v
Cycles.v
SimSignals.v
SimSupport.v
SimBuffers.v
SimHandshake.v
SimArith.v
Simulator.v
SimulatorThms.v
SimModelsThms.v
SimArithThms.v
BoolExpr.v
BoolParser.v
BoolTables.v
BoolBDD.v
BoolEspresso.v
ArithIR.v
NumericRange.v
NumericAnalysis.v
RangeSound.v
RangeExamples.v
Rewriter.v
ReduceStrength.v
ReduceStrengthThms.v
LinearPrograms.v
LpFormat.v
CFDFC.v
CFDFCModel.v
CFDFCFiles.v
BlockCycles.v
CFDFCThms.v
DisjointSets.v
CFDFCExamples.v
