(* ===== verification/Prelude.v ===== *)
(** Dynamatic: a verification development.

    Dynamatic compiles C to dynamically scheduled (elastic) circuits.  Its
    passes work on MLIR, which is not part of the repository; what the
    repository decides by itself is modelled here, part by part.

    * The handshake simulator

    [experimental/lib/Support/HandshakeSimulator.cpp] simulates a circuit of
    handshake operations cycle by cycle.  Every channel keeps a valid and a
    ready signal and data, in two copies (current and next); every operation has
    a model, an object whose [reset] and [exec] read and write the channels it is
    connected to; the simulator runs all models until no signal changes, then
    goes to the next clock cycle.

    - [SimSignals] has the data ([llvm::Any]), the states of channels, the
      updaters that hold the two copies, and the views a producer and a consumer
      have of a channel.  Pointers into the states become views that are read
      before an [exec] and written back after it.
    - [SimSupport] has the objects the models are made of: fork, join, the opaque
      (OEHB) and the transparent (TEHB) buffer.
    - [SimHandshake] and [SimArith] have the models of handshake and arithmetic
      operations, with the callbacks of the latter.
    - [Simulator] has the simulator: registration, [reset], [simulate].  The hash
      map of models is an association list in its iteration order.
    - [Cycles] says what it means for a component to behave as an abstract
      machine from cycle to cycle, whatever the evaluations within a cycle
      (records [component] and [machine], class [Refines]).  A cycle of a
      component has the signals that were last settled and those of its clock edge:
      these are the same ([steady]) unless a neighbour is an argument of the function,
      whose valid and data [simulate] changes between the two.  [SimBuffers] and
      [SimModelsThms] prove that buffers, forks, merges and muxes implement queues and
      flags, hence lose and duplicate nothing, when the signals that matter are
      steady, and have an argument whose token a buffer loses; [SimModelsThms] and
      [SimArithThms] also have the other models; [SimulatorThms] proves that
      simulations end and with what outcome, and that it does not depend on the
      order of iteration.

    Bounds: [simulate] takes a bound on cycles and one on the iterations of a
    cycle.  [SimulatorThms] shows that [max 1 cyclesLimit] cycles always suffice.  The
    inner loop ends when the combinational loops of the circuit settle, which is a
    property of the circuit: when it does not, the program does not end either, and
    the model runs out of fuel.

    * Boolean logic

    [experimental/lib/Support/BooleanLogic] parses, prints, evaluates and
    minimizes Boolean expressions and builds BDDs of them.

    - [StdString] has the strings and the ordered sets the code uses.
    - [BoolExpr] has the expression classes and their operations; a null pointer
      is the expression [nullptr].
    - [BoolParser] has the lexer and the operator-precedence parser.  Its fuel is
      a bound on shifts and reductions that is shown sufficient: the parser is total.
    - [BoolTables] has evaluation on all rows at once, truth tables, and the text
      given to Espresso.
    - [BoolBDD] has minimization, restriction and [buildBDD].  Espresso is vendored
      C code and a parameter, [run_espresso]; theorems that need it assume of a
      reply what Espresso documents ([replies]), and [BoolEspresso] has a
      function that satisfies it.

    * Range analysis

    [lib/Analysis/NumericAnalysis.cpp] computes an interval for a value from its
    definition, from the comparisons that dominate it and from the loops it is
    carried through.

    - [LLVMInterface] states what the code relies on of [APInt] and [APFloat],
      as classes with laws and an instance on [Z] that shows them consistent.
    - [ArithIR] has what the analysis reads of MLIR: values, types, operations,
      blocks and their terminators.
    - [NumericRange] has ranges; [NumericAnalysis] the recursive query.  Its
      fuel, one more than the number of values, is shown
      sufficient in [RangeSound]: a query marks the values it visits.
    - [RangeSound] proves that a value lies in its range; [RangeExamples] has the
      programs on which this fails, and why they are excluded ([analysable]).

    * Strength reduction

    [lib/Transforms/ArithReduceStrength.cpp] replaces multiplications by constants
    with trees of shifts and additions, and signed comparisons of positive values
    with unsigned ones.

    - [Rewriter] has blocks of operations, what they compute, refinement of
      blocks, and MLIR's rewriter as a class with laws, [PatternRewriter].
    - [ReduceStrength] has the operation trees and the three patterns;
      [ReduceStrengthThms] proves them correct, and has witnesses and
      programs on which a pattern goes wrong.

    * Formal properties

    [experimental/lib/Analysis/FormalPropertyAnnotation] annotates a circuit with
    properties a model checker takes as invariants.  Two of its parts rest on
    algorithms of their own: equations between the numbers of tokens on the paths
    of a circuit, and in-order graphs, parts of a circuit in which no token
    overtakes another.

    - [Gaussian] has the integer Gaussian elimination of
      [lib/Support/LinearAlgebra/Gaussian.cpp], every result of an operation
      checked to be an [int]; it keeps the consequences of the rows as long as no
      value reaches [INT_MAX], and an entry [INT_MAX] breaks it.
    - [FlowNamers] has the names of internal states, [HandshakeIR] the operations
      of a circuit and the slots and sent states they have.
    - [FlowExpr], [IndexChannels] and [FlowExtract] have flow expressions, the
      channels that carry indices, and the equations extracted from an
      operation; [FlowSystem] the matrix of these equations and
      [annotateReconvergentPathFlow].
    - [TokenFlow] is a specification, not a translation: a step relation for
      circuits in which every operation moves tokens as its hardware does; a select
      fires with the chosen operand alone and leaves an antitoken for the other one.
      [FlowSound] proves that the extracted equations hold in every reachable state of
      a circuit without selects, and [FlowAnnotate] that the annotated ones do and
      that the elimination loses none of those that can be stated.
    - [IOG] has the search for in-order graphs, their paths and exit branches, and
      the single token property.  [IOGThms] proves that the graphs found obey the
      rules, that every in-order graph contains one that is found, and that the
      search ends; [IOGPaths] says what the paths are; [IOGTokens] proves the
      single token property along [TokenFlow]'s steps for graphs with one entry, no
      store, and no select that is entered other than by its condition; [FlowExamples] has
      circuits, some of them with graphs or equations for which this fails, also with
      a select.

    Bounds: the search for in-order graphs is given [weight] as fuel, the size of
    a tree whose depth is the number of operations; the analysis of index channels
    needs as much fuel as its longest path, and has none that suffices on a cycle,
    where the program does not end.  The order in which a hash map or a hash set
    is visited is a parameter [order], any permutation.

    * Control flow of circuits

    [lib/Support/CFG.cpp] recovers the control flow graph behind a handshake
    circuit from the blocks its operations are tagged with.

    - [CircuitIR] has the operations of a circuit with their operands, results and
      blocks.
    - [CFG] has the grouping by block, the blocks near a channel and backedges.
    - [HandshakeCFG] has the arcs between blocks, the class [HandshakeCFG] with its paths
      and control values, and channels on cycles.  [SimplePaths] has paths
      without a repetition in general, for this part and the next one.
      Reading the successors of a block inserts it in their map, also while the search
      for paths iterates over a set in this map: a parameter [moves] says when that moves
      the entries, and the search then fails with [UseAfterErase].
      [HandshakeCFGThms] proves which paths are found, when a channel is on a
      cycle, and when the analysis of control values succeeds and
      what it returns.
    - [GIID] has the dependence of an operand on a value along a path of blocks.
      The search keeps a table of results; [GIIDThms] proves that it returns what
      the same search without a table returns, and that it ends when the operands of
      operations rank lower than their results except across backedges.
      [CFGExamples] has a circuit with a loop.

    Bounds: the search for paths needs as much fuel as there are blocks, the one for
    control values as there are operations, the one for cycles one more than there are
    values; [isGIID] needs the length of the path times one more than the greatest
    rank, plus that rank.

    * Load-store queue sizes

    [experimental/lib/Transforms/LSQSizing] sizes the load-store queues of a circuit: it
    builds a graph of the units of a choice-free circuit, computes from the
    latencies of its paths when the entries of loads and stores are
    allocated and deallocated, and counts the entries in use.

    - [LSQGraph] has the graph ([LSQSizingSupport.cpp]), its paths, latencies and
      start times.  The map of nodes is a [gmap] by name; the latency the
      timing database has for an operation is a parameter.
    - [LSQSizing] has the pass ([HandshakeSizeLSQs.cpp]).
    - [LSQThms] proves that the graph is closed and what the latencies of
      paths are, [LSQSizes] that the size of a queue is the
      greatest number of entries in use in a cycle of the analysis, and [LSQFull] that
      the pass fails with collisions [full] on circuits that load but do not
      store.  [LSQExamples] has a circuit, and two that differ in a name and have
      other start times.

    Bounds: the searches for paths need as much fuel as there are nodes, the longest
    path one more, and the loop over iterations one more than the cycles of
    the analysis, twice the last deallocation, as an interval is not 0.

    * Bitwidth optimization

    [lib/Transforms/HandshakeOptimizeBitwidths.cpp] narrows the channels of a circuit.
    Its patterns look for the minimal value behind the operands of an operation
    (without the extension, or the bits a constant does not need), decide on a
    width, and replace the operation by a narrow one between changes of width.

    - [WidthIR] has circuits, what their operations compute ([sem]), values that
      the operations can have at a time ([consistent]), and the expressions that
      replace values.
    - [OptimizeBitwidths] has the pass: minimal values, backtracking, useful
      widths, cycles, transfer functions, the patterns, and the folds of
      extensions and truncations.
    - [WidthNum] has numbers of a width; [MinimalValues] what minimal values denote
      and what [modBitWidth] does, and that the transfer functions bound
      their results; [WidthArith] the patterns on
      arithmetic, which [WidthRules] puts together with the folds and with divisions,
      of which the pattern is only right under conditions; [WidthForward] the
      operations that forward data and the indices of merges; [WidthCycles] the
      pattern on cycles, with the tokens that can go around in them, and that the
      search ends; [WidthBounds] the branches whose condition bounds their data.
      [WidthExamples] has a circuit with all of these, and the ones on which the
      patterns go wrong.

    Correct means: the expression that replaces a result has its value, or (going
    backwards) all users of the result are sinks and truncations that give what
    they gave.  Bounds: backtracking and the search for cycles need one more step
    than there are operations; the conditions of a branch are followed through as
    many conjunctions as there are operations.

    * Choice-free circuits

    Buffer placement optimizes the cycles of blocks that are executed most often.
    [HandshakePlaceBuffers.cpp] extracts them one after the other: a linear program
    selects the archs of a cycle and a number of executions, which are then taken
    off the transitions of these archs ([Utils/CFDFC.cpp]).

    - [LinearPrograms] has expressions, constraints and solvers
      ([lib/Support/ConstraintProgramming]) and what a solution is; the lemmas
      [eval_*] say that the operators compute what they stand for.
    - [LpFormat] has the two back-ends: the file that [CbcSolver::writeLp] writes, with
      the six digits of every coefficient, what is read of the file CBC answers with, and
      the program given to Gurobi; a file means its program when no coefficient needs
      more digits ([optimize_feasible]).
    - [CFDFC] has the program of an extraction, the circuit of a cycle, the loop
      [getCFDFCs] and the unions of circuits.
    - [CFDFCModel] says what the solutions of the program are, and with
      [BlockCycles] that the archs of a solution form one cycle, which the
      constructor finds; [CFDFCFiles] that the file of an extraction is exact when
      all numbers of transitions are below a million; [CFDFCThms] what the loop extracts:
      circuits of cycles, until no cycle of archs with transitions is left.
      [DisjointSets] proves that the unions are the classes of circuits connected by
      shared blocks.  [CFDFCExamples] has a loop and a solver for it, and a loop nest whose
      counts wrap around with CBC.

    CBC and Gurobi are parameters: theorems assume that what they call optimal
    satisfies the constraints they were given ([cbcExact], [gurobiExact]) or is optimal
    ([optimal]).  Coefficients are rationals.  Bounds: an extraction takes a transition off a backedge, so that
    one more round than these have transitions is enough; following the parents of
    a set takes at most as many steps as the square of the number of circuits.

    * Conventions

    An operation of the program that may fail returns [res]: [Ok] of a value or
    [Bad] of the reason why C++ defines no result (a failed assertion, a bad cast,
    a null pointer, an index past the end, [exit]).  Theorems that a function
    succeeds say so with [Ok].  A [w]-bit integer is a [Z] with [wrapU w] or
    [wrapS w] written out where the code wraps around.  [Prelude] has these
    definitions, the tactics and the hint databases, [Sums] sums over lists.

    * Not modelled

    The dialects, conversions and transforms whose content is the manipulation
    of MLIR operations; the problems buffer placement builds for an external
    solver, apart from the extraction of circuits; the solvers themselves; the RTL, BLIF, DOT and JSON input and output; Espresso; the command
    line tools, the fuzzer, the visualizer and the hardware generators, which are
    drivers or other languages.  In the simulator: memory interfaces (the source
    does not implement them), printing and the destructor.  Of the formal
    properties: those about consecutive tokens and token order, those that do not
    speak of the flow of tokens, and the JSON they are written as.  Of the sizing
    pass: the attributes it reads and writes and the timing models.  Of the bitwidth
    optimization: the patterns on memory addresses, the greedy driver, names and
    basic blocks.  Control
    dependence, which uses LLVM's dominator trees. *)

From stdpp Require Export base list option numbers.
From Stdlib Require Export ZArith Lia Bool.

Declare Scope dyn_scope.
Delimit Scope dyn_scope with dyn.
#[global] Open Scope Z_scope.
#[global] Open Scope dyn_scope.

(** * Outcomes: values, or the reason the C++ has no defined result *)

Inductive fault : Type :=
| BadAnyCast     (** [llvm::any_cast] to a type the [Any] does not hold *)
| BadCast        (** a [static_cast] to a class the object is not of *)
| OutOfRange     (** a vector indexed past its end, [at] past its end *)
| NullDeref      (** a null pointer or an empty [std::optional] dereferenced *)
| AssertFailed   (** a failed [assert] *)
| Unsupported    (** an operation or a type the program reports as an error *)
| Overflow       (** a conversion out of the range of its type *)
| ExitOne        (** [exit(1)] *)
| FatalError     (** [llvm::report_fatal_error] *)
| UseAfterErase  (** an operation used after the rewriter erased it, an element of a container after it moved *)
| UseBeforeDef   (** an operand without a value: its definition does not dominate its use *)
| Poison         (** an operation whose result is poison *)
| NoFuel         (** the bound on loop iterations given to the model ran out *)
| NoCycles.      (** the bound on clock cycles given to the model ran out *)

Inductive res (A : Type) : Type :=
| Ok (a : A)
| Bad (f : fault).
Arguments Ok {A} a.
Arguments Bad {A} f.

Definition bind {A B} (r : res A) (k : A → res B) : res B :=
  match r with Ok a => k a | Bad f => Bad f end.

Notation "'let*' x ':=' e 'in' k" := (bind e (fun x => k))
  (at level 10, x pattern, e at level 200, k at level 200) : dyn_scope.

(** [of_option f o] is the value of [o]; its absence is the fault [f]. *)
Definition of_option {A} (f : fault) (o : option A) : res A :=
  match o with Some a => Ok a | None => Bad f end.

(** [at_ l i] is [l[i]] of a [std::vector]. *)
Definition at_ {A} (l : list A) (i : nat) : res A := of_option OutOfRange (l !! i).

Definition assert_ (b : bool) : res unit := if b then Ok tt else Bad AssertFailed.

Fixpoint mapM {A B} (f : A → res B) (l : list A) : res (list B) :=
  match l with
  | [] => Ok []
  | x :: l => let* y := f x in let* ys := mapM f l in Ok (y :: ys)
  end.

Fixpoint foldM {A B} (f : B → A → res B) (b : B) (l : list A) : res B :=
  match l with
  | [] => Ok b
  | x :: l => let* b' := f b x in foldM f b' l
  end.

Definition is_ok {A} (r : res A) : bool :=
  match r with Ok _ => true | Bad _ => false end.

Lemma bind_ok {A B} (r : res A) (k : A → res B) b :
  bind r k = Ok b ↔ ∃ a, r = Ok a ∧ k a = Ok b.
Proof. destruct r; simpl; naive_solver. Qed.

Lemma bind_assoc {A B C} (r : res A) (f : A → res B) (g : B → res C) :
  bind (bind r f) g = bind r (λ a, bind (f a) g).
Proof. by destruct r. Qed.

Lemma of_option_ok {A} f (o : option A) a : of_option f o = Ok a ↔ o = Some a.
Proof. destruct o; simpl; naive_solver. Qed.

Lemma assert_ok b u : assert_ b = Ok u → b = true.
Proof. by destruct b. Qed.

Lemma at_ok {A} (l : list A) i a : at_ l i = Ok a ↔ l !! i = Some a.
Proof. apply of_option_ok. Qed.

Lemma mapM_ok {A B} (f : A → res B) l l' :
  mapM f l = Ok l' ↔ Forall2 (λ x y, f x = Ok y) l l'.
Proof.
  revert l'. induction l as [|x l IH]; intros l'; simpl.
  - split; [intros [= <-]; constructor | inversion 1; done].
  - setoid_rewrite bind_ok. setoid_rewrite bind_ok. setoid_rewrite IH. split.
    + intros (y & Hy & ys & Hys & [= <-]). by constructor.
    + inversion 1; subst. eauto 10.
Qed.

Lemma mapM_map {A B} (f : A → res B) (g : A → B) l :
  (∀ x, f x = Ok (g x)) → mapM f l = Ok (map g l).
Proof. intros H. induction l as [|x l IH]; simpl; [done|]. by rewrite H, IH. Qed.

Lemma mapM_total {A B} (f : A → res B) l : (∀ x, x ∈ l → ∃ y, f x = Ok y) → ∃ ys, mapM f l = Ok ys.
Proof.
  induction l as [|x l IH]; intros H; simpl; [by exists []|].
  destruct (H x) as [y ->]; [left|]. destruct IH as [ys ->]; [intros z Hz; apply H; by right|]. by exists (y :: ys).
Qed.

Lemma foldM_app {A B} (f : B → A → res B) b l1 l2 :
  foldM f b (l1 ++ l2) = let* b' := foldM f b l1 in foldM f b' l2.
Proof.
  revert b. induction l1 as [|x l1 IH]; intros b; simpl; [done|].
  rewrite bind_assoc. destruct (f b x); simpl; [apply IH | done].
Qed.

(** What every step keeps. *)
Lemma foldM_keeps {X S} (h : S → X → res S) (I : S → Prop) l :
  (∀ x s s', h s x = Ok s' → I s → I s') → ∀ s s', foldM h s l = Ok s' → I s → I s'.
Proof.
  intros Hh. induction l as [|x l IH]; intros s s' H Hi; simpl in H; [by injection H as <-|].
  apply bind_ok in H as (s1 & H1 & H). eapply IH; [exact H|]. by eapply Hh.
Qed.

Lemma foldM_keeps_in {X S} (h : S → X → res S) (I : S → Prop) l :
  (∀ x s s', x ∈ l → h s x = Ok s' → I s → I s') → ∀ s s', foldM h s l = Ok s' → I s → I s'.
Proof.
  induction l as [|x l IH]; intros Hh s s' H Hi; cbn [foldM] in H; [by injection H as <-|].
  apply bind_ok in H as (s1 & H1 & H). eapply IH; [|exact H|eapply Hh; [left|done|done]]. intros y u u' Hy. apply Hh. by right.
Qed.


(** * Contracts: a result that satisfies [Q], or a fault other than a lack of fuel *)

Definition safe {A} (m : res A) (Q : A → Prop) : Prop :=
  match m with Ok a => Q a | Bad f => f ≠ NoFuel end.

(** A computation without a bound on its iterations. *)
Definition fuelless {A} (m : res A) : Prop := m ≠ Bad NoFuel.

Lemma safe_bind {A B} (m : res A) (k : A → res B) Q :
  safe m (λ a, safe (k a) Q) → safe (bind m k) Q.
Proof. by destruct m. Qed.

Lemma safe_mono {A} (m : res A) (Q Q' : A → Prop) : safe m Q → (∀ a, Q a → Q' a) → safe m Q'.
Proof. destruct m; simpl; auto. Qed.

Lemma safe_fuelless {A} (m : res A) (Q : A → Prop) : fuelless m → (∀ a, m = Ok a → Q a) → safe m Q.
Proof. destruct m; simpl; [auto|]. intros H _ ->. by apply H. Qed.

Lemma safe_ok {A} (m : res A) Q a : safe m Q → m = Ok a → Q a.
Proof. by intros H ->. Qed.

Lemma safe_is_fuelless {A} (m : res A) Q : safe m Q → fuelless m.
Proof. by destruct m; simpl; intros H; [|intros [= ->]]. Qed.

Lemma fuelless_bind {A B} (m : res A) (k : A → res B) :
  fuelless m → (∀ a, fuelless (k a)) → fuelless (bind m k).
Proof. destruct m; simpl; [auto|]. intros H _ [= ->]. by apply H. Qed.

Lemma fuelless_of_option {A} f (o : option A) : f ≠ NoFuel → fuelless (of_option f o).
Proof. destruct o; intros Hf; [done|by intros [= ->]]. Qed.

(** * Machine integers *)

Definition wrapU (w z : Z) : Z := z `mod` 2 ^ w.

(** The signed reading of the low [w] bits. *)
Definition wrapS (w z : Z) : Z :=
  let u := wrapU w z in if 2 * u <? 2 ^ w then u else u - 2 ^ w.

Lemma wrapU_range w z : 0 ≤ w → 0 ≤ wrapU w z < 2 ^ w.
Proof. intros. apply Z.mod_pos_bound. lia. Qed.

Lemma wrapU_small w z : 0 ≤ z < 2 ^ w → wrapU w z = z.
Proof. apply Z.mod_small. Qed.

Lemma wrapS_small w z : 0 < w → - 2 ^ (w - 1) ≤ z < 2 ^ (w - 1) → wrapS w z = z.
Proof.
  intros Hw Hz. unfold wrapS, wrapU.
  assert (2 ^ w = 2 * 2 ^ (w - 1)) as Hp by (rewrite <-Z.pow_succ_r by lia; f_equal; lia).
  destruct (decide (0 ≤ z)).
  - rewrite Z.mod_small by lia. destruct (Z.ltb_spec (2 * z) (2 ^ w)); lia.
  - replace (z `mod` 2 ^ w) with (z + 2 ^ w)
      by (rewrite <-(Z.mod_add z 1), Z.mod_small; lia).
    destruct (Z.ltb_spec (2 * (z + 2 ^ w)) (2 ^ w)); lia.
Qed.

(** * Lists of booleans and indices *)

Definition or_n (l : list bool) : bool := existsb id l.
Definition and_n (l : list bool) : bool := forallb id l.

(** The conjunction of [f] over the elements of [l] whose index (from [k]) is not [i]. *)
Fixpoint forallb_except {A} (f : A → bool) (i k : nat) (l : list A) : bool :=
  match l with
  | [] => true
  | x :: l => (if (i =? k)%nat then true else f x) && forallb_except f i (S k) l
  end.

Lemma forallb_except_lt {A} (f : A → bool) i k l :
  (i < k)%nat → forallb_except f i k l = forallb f l.
Proof.
  revert k. induction l as [|x l IH]; intros k Hk; simpl; [done|].
  destruct (Nat.eqb_spec i k); [lia|]. by rewrite IH by lia.
Qed.

Lemma forallb_except_spec {A} (f : A → bool) l i k x :
  l !! i = Some x →
  f x && forallb_except f (k + i) k l = forallb f l.
Proof.
  revert i k. induction l as [|y l IH]; intros i k Hx; [done|].
  destruct i as [|i]; simpl in *.
  - injection Hx as ->. rewrite Nat.add_0_r, Nat.eqb_refl. simpl.
    by rewrite forallb_except_lt by lia.
  - destruct (Nat.eqb_spec (k + S i) k); [lia|].
    rewrite <-(IH i (S k)) by done. replace (k + S i)%nat with (S k + i)%nat by lia.
    rewrite !andb_assoc. f_equal. apply andb_comm.
Qed.

Lemma or_n_false l : or_n l = false ↔ Forall (λ b, b = false) l.
Proof.
  unfold or_n. induction l as [|[] l IH]; simpl.
  - split; [constructor|done].
  - split; [done|inversion 1; done].
  - rewrite IH. split; [by constructor|by inversion 1].
Qed.

Lemma Forall_elem {A} (P : A → Prop) l : Forall P l ↔ ∀ x, x ∈ l → P x.
Proof.
  split.
  - induction 1 as [|y l Hy _ IH]; intros x Hx; inversion Hx; subst; auto.
  - induction l as [|y l IH]; intros H; constructor; [apply H|apply IH; intros x Hx; apply H]; by constructor.
Qed.

Lemma filter_all {A} (P : A → Prop) `{∀ x, Decision (P x)} l : Forall P l → filter P l = l.
Proof. induction 1 as [|x l Hx _ IH]; [done|]. by rewrite filter_cons_True, IH. Qed.

Lemma filter_none {A} (P : A → Prop) `{∀ x, Decision (P x)} l : Forall (λ x, ¬ P x) l → filter P l = [].
Proof. induction 1 as [|x l Hx _ IH]; [done|]. by rewrite filter_cons, decide_False. Qed.

(** * Pairwise relations *)

Fixpoint pairwise {A} (R : A → A → Prop) (l : list A) : Prop :=
  match l with [] => True | x :: l => Forall (R x) l ∧ pairwise R l end.

Lemma pairwise_perm {A} (R : A → A → Prop) l l' :
  (∀ x y, R x y → R y x) → l ≡ₚ l' → pairwise R l → pairwise R l'.
Proof.
  intros Hsym. induction 1 as [|x l l' Hp IH|x y l|l l' l'' H1 IH1 H2 IH2]; simpl; auto.
  - intros [Hx Hl]. split; [by apply (Permutation_Forall Hp) | auto].
  - intros [Hy [Hx Hl]]. inversion Hy; subst. repeat constructor; auto.
Qed.

(** * Automation *)

(** Inverts the binds of every hypothesis [_ = Ok _]. *)
Ltac res_inv :=
  repeat match goal with
  | H : bind _ _ = Ok _ |- _ =>
      let a := fresh "a" in let Ha := fresh "Ha" in let Hk := fresh "Hk" in
      apply bind_ok in H as (a & Ha & Hk)
  | H : of_option _ _ = Ok _ |- _ => apply of_option_ok in H
  | H : at_ _ _ = Ok _ |- _ => apply at_ok in H
  | H : Ok _ = Ok _ |- _ => injection H as H
  | H : Bad _ = Ok _ |- _ => discriminate H
  end; subst.

(** Splits every tuple in sight. *)
Ltac products := repeat match goal with x : _ * _ |- _ => destruct x end; simpl in *.

(** Case analysis on every boolean variable in sight, closing what computes. *)
Ltac bools :=
  repeat match goal with b : bool |- _ => destruct b end; simpl in *; try done.

(** Splits a goal on the boolean test of its next [if]. *)
Ltac if_case :=
  match goal with |- context [if ?b then _ else _] => destruct b eqn:? end.

(** A computation built of fuelless ones. *)
Ltac fuelless :=
  repeat match goal with |- fuelless (bind _ _) => apply fuelless_bind; [|intros ?] end;
  try done; auto with dyn.

Create HintDb dyn discriminated.
Create Rewrite HintDb dyn_rw.
#[export] Hint Rewrite andb_true_r andb_false_r orb_true_r orb_false_r
  andb_diag orb_diag negb_involutive : dyn_rw.
#[export] Hint Extern 1 (fuelless (of_option _ _)) => apply fuelless_of_option; discriminate : dyn.
#[export] Hint Extern 1 (fuelless (at_ _ _)) => apply fuelless_of_option; discriminate : dyn.
#[export] Hint Resolve wrapU_range wrapU_small : dyn.
