(* ===== verification/Sums.v ===== *)
(** Sums of integers over lists, shared by the counting arguments. *)

From stdpp Require Import list.
From S2P Require Import Prelude.

Definition sumOver {A} (h : A → Z) (l : list A) : Z := foldr (λ a z, h a + z) 0 l.

Section Sums.
Context {A : Type}.
Implicit Types (h : A → Z) (l : list A).

Lemma sumOver_app h l l' : sumOver h (l ++ l') = sumOver h l + sumOver h l'.
Proof. induction l as [|a l IH]; simpl; [done|]. rewrite IH. ring. Qed.

Lemma sumOver_ext h h' l : (∀ a, a ∈ l → h a = h' a) → sumOver h l = sumOver h' l.
Proof.
  induction l as [|a l IH]; intros H; simpl; [done|]. rewrite (H a), IH; [done| |left]. intros b Hb. apply H. by right.
Qed.

Lemma sumOver_add h h' l : sumOver (λ a, h a + h' a) l = sumOver h l + sumOver h' l.
Proof. induction l as [|a l IH]; simpl; [done|]. rewrite IH. ring. Qed.

Lemma sumOver_sub h h' l : sumOver (λ a, h a - h' a) l = sumOver h l - sumOver h' l.
Proof. induction l as [|a l IH]; simpl; [done|]. rewrite IH. ring. Qed.

Lemma sumOver_scale (z : Z) h l : sumOver (λ a, z * h a) l = z * sumOver h l.
Proof. induction l as [|a l IH]; simpl; [lia|]. rewrite IH. ring. Qed.

Lemma sumOver_const (z : Z) l : sumOver (λ _, z) l = z * Z.of_nat (length l).
Proof. induction l as [|a l IH]; simpl length; simpl; [lia|]. rewrite IH. lia. Qed.

Lemma sumOver_perm h l l' : l ≡ₚ l' → sumOver h l = sumOver h l'.
Proof. induction 1; simpl; lia. Qed.

Lemma sumOver_map {B} (k : B → A) h (l : list B) : sumOver h (map k l) = sumOver (λ b, h (k b)) l.
Proof. induction l as [|b l IH]; simpl; [done|]. by rewrite IH. Qed.

(** The sum of a weight that is not 0 for one element only. *)
Lemma sumOver_one `{EqDecision A} (x : A) (z : Z) l : NoDup l →
  sumOver (λ a, if decide (x = a) then z else 0) l = if decide (x ∈ l) then z else 0.
Proof.
  induction l as [|a l IH]; intros Hn; simpl; [done|]. apply list.NoDup_cons in Hn as [Ha Hn]. rewrite IH by done.
  destruct (decide (x = a)) as [->|Hne].
  - rewrite decide_False, decide_True by (done || left). lia.
  - destruct (decide (x ∈ l)); [rewrite decide_True by (by right); lia|].
    rewrite decide_False; [lia|]. intros [|]%elem_of_cons; done.
Qed.

End Sums.

Lemma sumOver_swap {A B} (h : A → B → Z) l (l' : list B) :
  sumOver (λ a, sumOver (h a) l') l = sumOver (λ b, sumOver (λ a, h a b) l) l'.
Proof.
  induction l as [|a l IH]; simpl; [by rewrite sumOver_const|]. rewrite IH. by rewrite <-sumOver_add.
Qed.
