(* ===== verification/LLVMInterface.v ===== *)
(** The part of LLVM's [APInt] and [APFloat] the modelled code calls.

    LLVM is a git submodule and not part of the repository, so its integers and
    floats are parameters: [APIntLib] and [APFloatLib] list the members the
    code uses, [APIntLaws] states the documented behaviour of the integer
    ones through the unsigned number [apint_uval] a value denotes.  The last
    section gives concrete instances, on which the examples and the witnesses of
    the development are evaluated. *)

From stdpp Require Import strings.
From Stdlib Require Import SpecFloat.
From S2P Require Import Prelude.

Class APIntLib := {
  apint : Type;
  (** [APInt(numBits, val, isSigned)]; [val] is a [uint64_t]. *)
  apint_make : Z → Z → bool → apint;
  (** [APInt(numBits, str, 10)] *)
  apint_parse : Z → string → apint;
  apint_width : apint → Z;
  (** The number the bits denote, read as unsigned. *)
  apint_uval : apint → Z;
  getZExtValue : apint → Z;
  getSExtValue : apint → Z;
  getBoolValue : apint → bool;
  apint_trunc : Z → apint → apint;
  apint_add : apint → apint → apint;
  apint_sub : apint → apint → apint;
  apint_mul : apint → apint → apint;
  apint_sdiv : apint → apint → apint;
  apint_udiv : apint → apint → apint;
  apint_and : apint → apint → apint;
  apint_or : apint → apint → apint;
  apint_xor : apint → apint → apint;
  apint_not : apint → apint;
  apint_shl : apint → apint → apint;
  apint_lshr : apint → apint → apint;
  apint_ashr : apint → apint → apint;
  apint_hash : apint → Z;
  isNegative : apint → bool;
  isStrictlyPositive : apint → bool;
  isPowerOf2 : apint → bool;
  logBase2 : apint → Z;
  (** [APInt(numBits, bigVal)]; the words are [uint64_t], the lowest first. *)
  apint_of_words : Z → list Z → apint;
  getActiveBits : apint → Z;
  getSignificantBits : apint → Z;
  ceilLogBase2 : apint → Z;
  (** [uge] and [ult] of a [uint64_t] *)
  apint_uge : apint → Z → bool;
  apint_ult : apint → Z → bool
}.

(** The number of bits of a number that is not negative, none for 0. *)
Definition bits_of (z : Z) : Z := if z =? 0 then 0 else Z.log2 z + 1.

(** The number a list of words denotes. *)
Fixpoint words_val (ws : list Z) : Z :=
  match ws with [] => 0 | x :: ws => x + 2 ^ 64 * words_val ws end.

(** The signed number the bits denote. *)
Definition apint_sval `{APIntLib} (a : apint) : Z := wrapS (apint_width a) (apint_uval a).

Class APIntLaws (L : APIntLib) := {
  apint_width_nonneg a : 0 ≤ apint_width a;
  apint_uval_range a : 0 ≤ apint_uval a < 2 ^ apint_width a;
  apint_make_width w v s : 0 ≤ w → apint_width (apint_make w v s) = w;
  apint_make_unsigned w v : 0 ≤ w → 0 ≤ v < 2 ^ 64 → v < 2 ^ w →
    apint_uval (apint_make w v false) = v;
  apint_make_signed w v : 0 < w → 0 ≤ v < 2 ^ 64 →
    - 2 ^ (w - 1) ≤ wrapS 64 v < 2 ^ (w - 1) →
    apint_uval (apint_make w v true) = wrapU w (wrapS 64 v);
  getZExtValue_ok a : apint_uval a < 2 ^ 64 → getZExtValue a = apint_uval a;
  getSExtValue_ok a : 0 < apint_width a →
    - 2 ^ 63 ≤ apint_sval a < 2 ^ 63 → getSExtValue a = apint_sval a;
  getBoolValue_ok a : getBoolValue a = negb (apint_uval a =? 0);
  apint_trunc_width w a : 0 ≤ w ≤ apint_width a → apint_width (apint_trunc w a) = w;
  apint_trunc_uval w a : 0 ≤ w ≤ apint_width a →
    apint_uval (apint_trunc w a) = wrapU w (apint_uval a);
  apint_add_uval a b : apint_width a = apint_width b →
    apint_uval (apint_add a b) = wrapU (apint_width a) (apint_uval a + apint_uval b);
  apint_sub_uval a b : apint_width a = apint_width b →
    apint_uval (apint_sub a b) = wrapU (apint_width a) (apint_uval a - apint_uval b);
  apint_mul_uval a b : apint_width a = apint_width b →
    apint_uval (apint_mul a b) = wrapU (apint_width a) (apint_uval a * apint_uval b);
  apint_udiv_uval a b : apint_width a = apint_width b → apint_uval b ≠ 0 →
    apint_uval (apint_udiv a b) = apint_uval a `div` apint_uval b;
  apint_sdiv_uval a b : apint_width a = apint_width b → apint_uval b ≠ 0 →
    apint_uval (apint_sdiv a b) =
      wrapU (apint_width a) (apint_sval a `quot` apint_sval b);
  apint_and_uval a b : apint_width a = apint_width b →
    apint_uval (apint_and a b) = Z.land (apint_uval a) (apint_uval b);
  apint_or_uval a b : apint_width a = apint_width b →
    apint_uval (apint_or a b) = Z.lor (apint_uval a) (apint_uval b);
  apint_xor_uval a b : apint_width a = apint_width b →
    apint_uval (apint_xor a b) = Z.lxor (apint_uval a) (apint_uval b);
  apint_not_uval a :
    apint_uval (apint_not a) = 2 ^ apint_width a - 1 - apint_uval a;
  apint_shl_uval a b :
    apint_uval (apint_shl a b) =
      wrapU (apint_width a) (Z.shiftl (apint_uval a) (apint_uval b));
  apint_lshr_uval a b :
    apint_uval (apint_lshr a b) = Z.shiftr (apint_uval a) (apint_uval b);
  apint_ashr_uval a b :
    apint_uval (apint_ashr a b) =
      wrapU (apint_width a) (Z.shiftr (apint_sval a) (apint_uval b));
  isNegative_ok a : isNegative a = (apint_sval a <? 0);
  isStrictlyPositive_ok a : isStrictlyPositive a = (0 <? apint_sval a);
  isPowerOf2_ok a : isPowerOf2 a = true ↔ ∃ k, 0 ≤ k ∧ apint_uval a = 2 ^ k;
  logBase2_ok a : 0 < apint_uval a → logBase2 a = Z.log2 (apint_uval a);
  apint_of_words_width w ws : 0 ≤ w → apint_width (apint_of_words w ws) = w;
  apint_of_words_uval w ws : 0 ≤ w → apint_uval (apint_of_words w ws) = wrapU w (words_val ws);
  getActiveBits_ok a : getActiveBits a = bits_of (apint_uval a);
  (** The fewest bits of a signed integer that hold the value. *)
  getSignificantBits_ok a : 0 < apint_width a →
    getSignificantBits a = bits_of (if apint_sval a <? 0 then - apint_sval a - 1 else apint_sval a) + 1;
  ceilLogBase2_ok a : 0 < apint_uval a → ceilLogBase2 a = Z.log2_up (apint_uval a);
  apint_uge_ok a v : 0 ≤ v < 2 ^ 64 → apint_uge a v = (v <=? apint_uval a);
  apint_ult_ok a v : 0 ≤ v < 2 ^ 64 → apint_ult a v = (apint_uval a <? v)
}.

Class APFloatLib := {
  apfloat : Type;
  (** [APFloat(semantics)]: the zero of the format of the given size. *)
  apfloat_zero : Z → apfloat;
  (** [APFloat(semantics, str)] *)
  apfloat_parse : Z → string → apfloat;
  apfloat_bits : apfloat → Z;
  apfloat_add : apfloat → apfloat → apfloat;
  apfloat_sub : apfloat → apfloat → apfloat;
  apfloat_mul : apfloat → apfloat → apfloat;
  apfloat_div : apfloat → apfloat → apfloat;
  apfloat_neg : apfloat → apfloat;
  maxnum : apfloat → apfloat → apfloat;
  minnum : apfloat → apfloat → apfloat;
  bitwiseIsEqual : apfloat → apfloat → bool;
  apfloat_lt : apfloat → apfloat → bool;
  apfloat_le : apfloat → apfloat → bool;
  apfloat_gt : apfloat → apfloat → bool;
  apfloat_ge : apfloat → apfloat → bool;
  apfloat_hash : apfloat → Z;
  convertToDouble : apfloat → spec_float
}.

(** * Concrete instances *)

Module Bits.
(** A width and a value, of which the low [width] bits count. *)
Record t := mk { width : N; raw : Z }.

Definition w (a : t) : Z := Z.of_N (width a).
Definition u (a : t) : Z := wrapU (w a) (raw a).
Definition s (a : t) : Z := wrapS (w a) (u a).
Definition lift2 (f : Z → Z → Z) (a b : t) : t := mk (width a) (f (u a) (u b)).

Definition digit (c : Ascii.ascii) : Z := Z.of_N (Ascii.N_of_ascii c) - 48.

Fixpoint decimal (acc : Z) (str : string) : Z :=
  match str with
  | EmptyString => acc
  | String c str => decimal (10 * acc + digit c) str
  end.

#[export] Instance lib : APIntLib := {|
  apint := t;
  apint_make n v sg := mk (Z.to_N n) (if sg then wrapS 64 v else v);
  apint_parse n str := mk (Z.to_N n) (decimal 0 str);
  apint_width := w;
  apint_uval := u;
  getZExtValue := u;
  getSExtValue := s;
  getBoolValue a := negb (u a =? 0);
  apint_trunc n a := mk (Z.to_N n) (u a);
  apint_add := lift2 Z.add;
  apint_sub := lift2 Z.sub;
  apint_mul := lift2 Z.mul;
  apint_sdiv a b := mk (width a) (s a `quot` s b);
  apint_udiv := lift2 Z.div;
  apint_and := lift2 Z.land;
  apint_or := lift2 Z.lor;
  apint_xor := lift2 Z.lxor;
  apint_not a := mk (width a) (2 ^ w a - 1 - u a);
  apint_shl := lift2 Z.shiftl;
  apint_lshr := lift2 Z.shiftr;
  apint_ashr a b := mk (width a) (Z.shiftr (s a) (u b));
  apint_hash a := w a + 65 * u a;
  isNegative a := s a <? 0;
  isStrictlyPositive a := 0 <? s a;
  isPowerOf2 a := (0 <? u a) && (u a =? 2 ^ Z.log2 (u a));
  logBase2 a := Z.log2 (u a);
  apint_of_words n ws := mk (Z.to_N n) (words_val ws);
  getActiveBits a := bits_of (u a);
  getSignificantBits a := bits_of (if s a <? 0 then - s a - 1 else s a) + 1;
  ceilLogBase2 a := Z.log2_up (u a);
  apint_uge a v := v <=? u a;
  apint_ult a v := u a <? v
|}.

Lemma u_range a : 0 ≤ u a < 2 ^ w a.
Proof. apply wrapU_range. unfold w. lia. Qed.

Lemma land_range x y k : 0 ≤ x < 2 ^ k → 0 ≤ y → 0 ≤ Z.land x y < 2 ^ k.
Proof.
  intros Hx Hy. split; [apply Z.land_nonneg; lia|].
  destruct (decide (0 ≤ k)); [|rewrite Z.pow_neg_r in Hx by lia; lia].
  rewrite <-(Z.mod_small x (2 ^ k)), <-Z.land_ones by lia.
  rewrite <-Z.land_assoc, (Z.land_comm _ y), Z.land_assoc, Z.land_ones by lia.
  apply Z.mod_pos_bound. lia.
Qed.

Lemma bitop_range (f : Z → Z → Z) x y k :
  (∀ i, Z.testbit x i = false → Z.testbit y i = false → Z.testbit (f x y) i = false) →
  0 ≤ f x y → 0 ≤ k → 0 ≤ x < 2 ^ k → 0 ≤ y < 2 ^ k → 0 ≤ f x y < 2 ^ k.
Proof.
  intros Hf Hpos Hk Hx Hy. split; [done|].
  assert (∀ z, 0 ≤ z < 2 ^ k → ∀ i, k ≤ i → Z.testbit z i = false) as Hhi.
  { intros z Hz i Hi. destruct (decide (z = 0)) as [->|]; [apply Z.testbit_0_l|].
    apply Z.bits_above_log2; [lia|].
    apply Z.lt_le_trans with k; [apply Z.log2_lt_pow2; lia | done]. }
  destruct (decide (f x y = 0)) as [->|]; [lia|].
  apply Z.log2_lt_pow2; [lia|].
  destruct (decide (Z.log2 (f x y) < k)); [done|].
  assert (Z.testbit (f x y) (Z.log2 (f x y)) = true) by (apply Z.bit_log2; lia).
  rewrite Hf in H; [done|apply Hhi; lia..].
Qed.

Lemma shiftr_range x n k : 0 ≤ x < 2 ^ k → 0 ≤ n → 0 ≤ Z.shiftr x n < 2 ^ k.
Proof.
  intros Hx Hn. rewrite Z.shiftr_div_pow2 by done.
  assert (0 < 2 ^ n) by lia.
  split; [apply Z.div_pos; lia|].
  apply Z.le_lt_trans with x; [|lia].
  apply Z.div_le_upper_bound; nia.
Qed.

#[export] Instance laws : APIntLaws lib.
Proof.
  split; simpl; unfold apint_sval; simpl.
  - unfold w; lia.
  - apply u_range.
  - intros; unfold w; simpl; lia.
  - intros n v Hn Hv Hw. unfold u, w; simpl. rewrite Z2N.id by lia. auto with dyn lia.
  - intros n v Hn Hv Hw. unfold u, w; simpl. by rewrite Z2N.id by lia.
  - done.
  - done.
  - done.
  - intros; unfold w; simpl; lia.
  - intros n a Hn. unfold u at 1, w at 1; simpl. by rewrite Z2N.id by lia.
  - done.
  - done.
  - done.
  - intros a b Hw Hb. unfold u at 1, w at 1; simpl. fold (w a).
    pose proof (u_range a); pose proof (u_range b).
    apply wrapU_small. split; [apply Z.div_pos; lia|].
    apply Z.le_lt_trans with (u a); [apply Z.div_le_upper_bound; nia | lia].
  - done.
  - intros a b Hw. unfold u at 1; simpl. apply wrapU_small.
    apply land_range; [exact (u_range a) | apply (u_range b)].
  - intros a b Hw. unfold u at 1; simpl. apply wrapU_small.
    pose proof (u_range a); pose proof (u_range b).
    apply (bitop_range Z.lor); [|apply Z.lor_nonneg; lia|unfold w; simpl; lia|done|
      unfold lift2, w in *; simpl; rewrite <-?Hw in *; lia].
    intros i H1 H2. by rewrite Z.lor_spec, H1, H2.
  - intros a b Hw. unfold u at 1; simpl. apply wrapU_small.
    pose proof (u_range a); pose proof (u_range b).
    apply (bitop_range Z.lxor); [|apply Z.lxor_nonneg; lia|unfold w; simpl; lia|done|
      unfold lift2, w in *; simpl; rewrite <-?Hw in *; lia].
    intros i H1 H2. by rewrite Z.lxor_spec, H1, H2.
  - intros a. unfold u at 1; simpl. pose proof (u_range a). apply wrapU_small.
    unfold w at 3; simpl. fold (w a). lia.
  - done.
  - intros a b. unfold u at 1; simpl. apply wrapU_small.
    apply shiftr_range; [exact (u_range a) | apply (u_range b)].
  - done.
  - done.
  - done.
  - intros a. rewrite andb_true_iff, Z.ltb_lt, Z.eqb_eq. split.
    + intros [Hu ->]. exists (Z.log2 (u a)). split; [apply Z.log2_nonneg|done].
    + intros (k & Hk & ->). rewrite Z.log2_pow2 by done. split; [lia|done].
  - done.
  - intros; unfold w; simpl; lia.
  - intros n ws Hn. unfold u, w; simpl. by rewrite Z2N.id by lia.
  - done.
  - done.
  - done.
  - done.
  - done.
Qed.

(** A float library with integers for floats: enough to run the examples. *)
#[export] Instance flib : APFloatLib := {|
  apfloat := Z;
  apfloat_zero _ := 0;
  apfloat_parse _ str := decimal 0 str;
  apfloat_bits _ := 32;
  apfloat_add := Z.add;
  apfloat_sub := Z.sub;
  apfloat_mul := Z.mul;
  apfloat_div := Z.div;
  apfloat_neg := Z.opp;
  maxnum := Z.max;
  minnum := Z.min;
  bitwiseIsEqual := Z.eqb;
  apfloat_lt := Z.ltb;
  apfloat_le := Z.leb;
  apfloat_gt := Z.gtb;
  apfloat_ge := Z.geb;
  apfloat_hash x := x;
  convertToDouble x := binary_normalize 53 1024 x 0 false
|}.
End Bits.
