(* ===== verification/WidthNum.v ===== *)
(** Numbers of a width: truncation, the two extensions, and the ranges in which they
    lose nothing. *)

From S2P Require Import Prelude.

Lemma pow_half w : 0 < w → 2 ^ w = 2 * 2 ^ (w - 1).
Proof. intros. rewrite <-Z.pow_succ_r by lia. f_equal. lia. Qed.

Lemma wrapU_le k w z : 0 ≤ k ≤ w → wrapU k (wrapU w z) = wrapU k z.
Proof.
  intros. unfold wrapU. symmetry. apply Znumtheory.Zmod_div_mod; [lia|lia|].
  exists (2 ^ (w - k)). rewrite <-Z.pow_add_r by lia. f_equal. lia.
Qed.

Lemma wrapU_mult k w z q : 0 ≤ k ≤ w → wrapU k (z + q * 2 ^ w) = wrapU k z.
Proof.
  intros. unfold wrapU. replace (2 ^ w) with (2 ^ (w - k) * 2 ^ k) by (rewrite <-Z.pow_add_r by lia; f_equal; lia).
  rewrite Z.mul_assoc. apply Z.mod_add. lia.
Qed.

Lemma wrapS_mult w z : ∃ q, wrapS w z = wrapU w z + q * 2 ^ w.
Proof. unfold wrapS. destruct (_ <? _); [exists 0|exists (-1)]; lia. Qed.

Lemma wrapU_wrapS k w z : 0 ≤ k ≤ w → wrapU k (wrapS w z) = wrapU k z.
Proof. intros. destruct (wrapS_mult w z) as [q ->]. rewrite wrapU_mult by done. by apply wrapU_le. Qed.

Lemma wrapS_range w z : 0 < w → - 2 ^ (w - 1) ≤ wrapS w z < 2 ^ (w - 1).
Proof.
  intros Hw. pose proof (wrapU_range w z ltac:(lia)). pose proof (pow_half w Hw). unfold wrapS.
  destruct (Z.ltb_spec (2 * wrapU w z) (2 ^ w)); lia.
Qed.

Lemma wrapS_wrapU w z : wrapS w (wrapU w z) = wrapS w z.
Proof. unfold wrapS, wrapU. by rewrite Zmod_mod. Qed.

(** * Reading and fitting *)

(** A number of [w] bits, read without or with a sign. *)
Definition num (z : bool) (w u : Z) : Z := if z then u else wrapS w u.

(** The numbers that [w] bits hold. *)
Definition fits (z : bool) (w x : Z) : Prop := if z then 0 ≤ x < 2 ^ w else - 2 ^ (w - 1) ≤ x < 2 ^ (w - 1).

Lemma num_fits z w u : 0 < w → 0 ≤ u < 2 ^ w → fits z w (num z w u).
Proof. intros. destruct z; simpl; [done|by apply wrapS_range]. Qed.

Lemma num_wrap z w x : 0 < w → fits z w x → num z w (wrapU w x) = x.
Proof.
  intros Hw Hx. destruct z; simpl in *; [by apply wrapU_small|]. rewrite wrapS_wrapU by lia. by apply wrapS_small.
Qed.

Lemma wrapU_num z k w u : 0 ≤ k ≤ w → wrapU k (num z w u) = wrapU k u.
Proof. intros. destruct z; simpl; [done|by apply wrapU_wrapS]. Qed.

Lemma fits_mono z k w x : 0 < k ≤ w → fits z k x → fits z w x.
Proof.
  intros Hk Hx. pose proof (Z.pow_le_mono_r 2 k w). pose proof (Z.pow_le_mono_r 2 (k - 1) (w - 1)). destruct z; simpl in *; lia.
Qed.

(** A number that is not negative needs one bit more with a sign. *)
Lemma fits_signed k w x : 0 ≤ k < w → fits true k x → fits false w x.
Proof. intros Hk Hx. simpl in *. pose proof (Z.pow_le_mono_r 2 k (w - 1)). lia. Qed.

(** * Operations on truncated numbers *)

Lemma wrapU_add_l w x y : wrapU w (wrapU w x + wrapU w y) = wrapU w (x + y).
Proof. unfold wrapU. destruct (decide (2 ^ w = 0)) as [->|]; [by rewrite !Zmod_0_r|]. by rewrite <-Z.add_mod. Qed.

Lemma wrapU_sub_l w x y : wrapU w (wrapU w x - wrapU w y) = wrapU w (x - y).
Proof. unfold wrapU. by rewrite <-Zminus_mod. Qed.

Lemma wrapU_mul_l w x y : wrapU w (wrapU w x * wrapU w y) = wrapU w (x * y).
Proof. unfold wrapU. destruct (decide (2 ^ w = 0)) as [->|]; [by rewrite !Zmod_0_r|]. by rewrite <-Z.mul_mod. Qed.

Lemma wrapU_bits w z i : 0 ≤ w → 0 ≤ i → Z.testbit (wrapU w z) i = (i <? w) && Z.testbit z i.
Proof.
  intros Hw Hi. unfold wrapU. destruct (Z.ltb_spec i w); simpl; [by apply Z.mod_pow2_bits_low|by apply Z.mod_pow2_bits_high].
Qed.

Lemma wrapU_bitwise (op : Z → Z → Z) (b : bool → bool → bool) w x y :
  (∀ x y i, 0 ≤ i → Z.testbit (op x y) i = b (Z.testbit x i) (Z.testbit y i)) → b false false = false → 0 ≤ w →
  op (wrapU w x) (wrapU w y) = wrapU w (op x y).
Proof.
  intros Hop Hb Hw. apply Z.bits_inj'. intros i Hi. rewrite Hop, !wrapU_bits, Hop by done.
  destruct (i <? w); simpl; [done|exact Hb].
Qed.

Lemma wrapU_land w x y : 0 ≤ w → Z.land (wrapU w x) (wrapU w y) = wrapU w (Z.land x y).
Proof. intros. apply (wrapU_bitwise Z.land andb); [|done|done]. intros. apply Z.land_spec. Qed.
Lemma wrapU_lor w x y : 0 ≤ w → Z.lor (wrapU w x) (wrapU w y) = wrapU w (Z.lor x y).
Proof. intros. apply (wrapU_bitwise Z.lor orb); [|done|done]. intros. apply Z.lor_spec. Qed.
Lemma wrapU_lxor w x y : 0 ≤ w → Z.lxor (wrapU w x) (wrapU w y) = wrapU w (Z.lxor x y).
Proof. intros. apply (wrapU_bitwise Z.lxor xorb); [|done|done]. intros. apply Z.lxor_spec. Qed.

(** A number fits if the bits above are all equal. *)
Lemma fits_shiftr z w x : 0 < w →
  fits z w x ↔ if z then Z.shiftr x w = 0 else Z.shiftr x (w - 1) = 0 ∨ Z.shiftr x (w - 1) = -1.
Proof.
  intros Hw. assert (∀ k, 0 ≤ k → 0 < 2 ^ k ∧ x = 2 ^ k * Z.shiftr x k + x `mod` 2 ^ k ∧ 0 ≤ x `mod` 2 ^ k < 2 ^ k) as H.
  { intros k Hk. rewrite Z.shiftr_div_pow2 by done. split; [lia|]. split; [apply Z.div_mod; lia|apply Z.mod_pos_bound; lia]. }
  destruct z; simpl.
  - destruct (H w ltac:(lia)) as (H0 & H1 & H2). split; [intros; nia|intros E; rewrite E in H1; lia].
  - destruct (H (w - 1) ltac:(lia)) as (H0 & H1 & H2).
    split; [intros Hx; destruct (Z.lt_ge_cases x 0); [right|left]; nia|intros [E|E]; rewrite E in H1; lia].
Qed.

Lemma fits_land z w x y : 0 < w → fits z w x → fits z w y → fits z w (Z.land x y).
Proof.
  intros Hw. rewrite !fits_shiftr by done. destruct z; rewrite Z.shiftr_land; [by intros -> _|].
  by intros [-> | ->] [-> | ->]; [left|left|left|right].
Qed.
Lemma fits_land_unsigned w x y : 0 < w → fits true w x → fits true w (Z.land x y).
Proof. intros Hw. rewrite !fits_shiftr by done. rewrite Z.shiftr_land. by intros ->. Qed.
Lemma fits_lor z w x y : 0 < w → fits z w x → fits z w y → fits z w (Z.lor x y).
Proof.
  intros Hw. rewrite !fits_shiftr by done. destruct z; rewrite Z.shiftr_lor; [by intros -> ->|].
  by intros [-> | ->] [-> | ->]; [left|right|right|right].
Qed.
Lemma fits_lxor z w x y : 0 < w → fits z w x → fits z w y → fits z w (Z.lxor x y).
Proof.
  intros Hw. rewrite !fits_shiftr by done. destruct z; rewrite Z.shiftr_lxor; [by intros -> ->|].
  by intros [-> | ->] [-> | ->]; [left|right|right|left].
Qed.

(** * Comparisons *)

(** Truncation keeps the order of the numbers that fit with a sign, also when they
    are read without one. *)
Lemma wrapU_signed w x : 0 < w → fits false w x → wrapU w x = if x <? 0 then x + 2 ^ w else x.
Proof.
  intros Hw Hx. simpl in Hx. pose proof (pow_half w Hw). destruct (Z.ltb_spec x 0).
  - replace (wrapU w x) with (wrapU w (x + 1 * 2 ^ w)) by (apply wrapU_mult; lia). rewrite wrapU_small; lia.
  - apply wrapU_small. lia.
Qed.

Lemma wrapU_order k w x y : 0 < k ≤ w → (fits false k x ∧ fits false k y) ∨ (fits true k x ∧ fits true k y) →
  (wrapU k x ?= wrapU k y) = (wrapU w x ?= wrapU w y).
Proof.
  intros Hk [[Hx Hy]|[Hx Hy]].
  - rewrite !wrapU_signed; try lia; try done; try by eapply fits_mono. simpl in Hx, Hy.
    pose proof (pow_half k ltac:(lia)). pose proof (pow_half w ltac:(lia)). pose proof (Z.pow_le_mono_r 2 k w).
    destruct (Z.ltb_spec x 0), (Z.ltb_spec y 0).
    + rewrite !(Z.add_comm _ (2 ^ _)). by rewrite !Z.add_compare_mono_l.
    + transitivity Gt; [|symmetry]; apply Z.compare_gt_iff; lia.
    + transitivity Lt; [|symmetry]; apply Z.compare_lt_iff; lia.
    + done.
  - rewrite !wrapU_small; [done|..]; simpl in *; pose proof (Z.pow_le_mono_r 2 k w); lia.
Qed.

(** * Shifts *)

Lemma shiftr_wrapU w x s : 0 ≤ s ≤ w → Z.shiftr (wrapU w x) s = wrapU (w - s) (Z.shiftr x s).
Proof.
  intros Hs. apply Z.bits_inj'. intros i Hi. rewrite Z.shiftr_spec, !wrapU_bits, Z.shiftr_spec by lia.
  f_equal. destruct (Z.ltb_spec (i + s) w), (Z.ltb_spec i (w - s)); lia.
Qed.

(** The low bits of a shifted number are those of what is above the shift. *)
Lemma shiftr_low u s n x y : 0 ≤ u → 0 ≤ s → u + s ≤ n → wrapU n x = wrapU n y → wrapU u (Z.shiftr x s) = wrapU u (Z.shiftr y s).
Proof.
  intros Hu Hs Hn Hxy. rewrite <-(wrapU_le u (n - s) (Z.shiftr x s)), <-(wrapU_le u (n - s) (Z.shiftr y s)) by lia.
  by rewrite <-!shiftr_wrapU, Hxy by lia.
Qed.

Lemma shiftr_unsigned b s x : 0 < b ≤ s → fits true b x → Z.shiftr x s = 0.
Proof.
  intros Hs Hx. apply fits_shiftr in Hx; [|lia]. replace s with (b + (s - b)) by lia. rewrite <-Z.shiftr_shiftr, Hx by lia.
  apply Z.shiftr_0_l.
Qed.

Lemma shiftr_sign b s x : 0 < b ≤ s + 1 → fits false b x → Z.shiftr x s = Z.shiftr x (b - 1).
Proof.
  intros Hs Hx. apply fits_shiftr in Hx; [|lia]. replace s with (b - 1 + (s - (b - 1))) at 1 by lia. rewrite <-Z.shiftr_shiftr by lia.
  destruct Hx as [-> | ->]; [apply Z.shiftr_0_l|]. apply Z.bits_inj'. intros i Hi. rewrite Z.shiftr_spec, !Z.bits_m1 by lia. done.
Qed.

Lemma fits_shift z b s x : 0 ≤ s < b → fits z b x → fits z (b - s) (Z.shiftr x s).
Proof.
  intros Hs Hx. apply fits_shiftr in Hx; [|lia]. apply fits_shiftr; [lia|]. destruct z; rewrite Z.shiftr_shiftr by lia.
  - by replace (s + (b - s)) with b by lia.
  - by replace (s + (b - s - 1)) with (b - 1) by lia.
Qed.

(** The sign, as one bit. *)
Lemma fits_sign b x : 0 < b → fits false b x → fits false 1 (Z.shiftr x (b - 1)).
Proof. intros Hb Hx. replace 1 with (b - (b - 1)) at 1 by lia. apply fits_shift; [lia|done]. Qed.

Lemma fits_wrapS w x : 0 < w → fits false w x → wrapS w (wrapU w x) = x.
Proof. intros. by apply (num_wrap false). Qed.

#[global] Arguments fits : simpl never.
