(* ===== verification/WidthIR.v ===== *)
(** Handshake circuits as the bitwidth optimization sees them: values with the width
    of their channel, the operations that define and use them, what the operations
    compute, and the expressions over existing values that a pattern builds. *)

From stdpp Require Import gmap.
From S2P Require Import LLVMInterface Prelude.

Notation Value := nat.
Notation OpId := nat.

(** A channel type with an integer data type ([isInteger]), or with another one. *)
Record ChannelType := mkChannelType { isInteger : bool; isUnsignedInteger : bool; getDataBitWidth : Z }.

(** [rewriter.getIntegerType(width)] in a channel: an integer without a sign. *)
Definition integerChannel (w : Z) : ChannelType := mkChannelType true false w.

Inductive CmpIPredicate := eq | ne | slt | sle | sgt | sge | ult | ule | ugt | uge.

Section IR.
Context `{L : APIntLib}.

Inductive OpKind :=
| ConstantOp (value : apint)
| ExtSIOp | ExtUIOp | TruncIOp
| AddIOp | SubIOp | MulIOp | DivUIOp | DivSIOp | RemUIOp | AndIOp | OrIOp | XOrIOp | ShRUIOp | ShRSIOp
| CmpIOp (predicate : CmpIPredicate) | SelectOp
| BufferOp | ForkOp | LazyForkOp | BranchOp | ConditionalBranchOp | MergeOp | MuxOp | ControlMergeOp | FirstOp
| SinkOp | OtherOp.

Record Operation := mkOperation { kind : OpKind; operands : list Value; results : list Value }.

Record Circuit := mkCircuit { ops : list Operation; typeOf : Value → ChannelType }.

Definition width (c : Circuit) (v : Value) : Z := getDataBitWidth (typeOf c v).

(** [val.getDefiningOp()]; [None] for an argument. *)
Definition getDefiningOp (c : Circuit) (v : Value) : option (OpId * Operation) := list_find (λ o, v ∈ results o) (ops c).

(** The operations that use a value. *)
Definition getUsers (c : Circuit) (v : Value) : list Operation := filter (λ o, v ∈ operands o) (ops c).

(** * What operations compute *)

Definition compares (p : CmpIPredicate) (w a b : Z) : bool :=
  match p with
  | eq => a =? b
  | ne => negb (a =? b)
  | slt => wrapS w a <? wrapS w b
  | sle => wrapS w a <=? wrapS w b
  | sgt => wrapS w b <? wrapS w a
  | sge => wrapS w b <=? wrapS w a
  | ult => a <? b
  | ule => a <=? b
  | ugt => b <? a
  | uge => b <=? a
  end.

(** The result of width [w] of an operation on arguments with their widths; none when
    the result is undefined. *)
Definition sem (k : OpKind) (args : list (Z * Z)) (w : Z) : option Z :=
  match k, args with
  | ConstantOp c, _ => Some (apint_uval c)
  | ExtSIOp, [(m, a)] => Some (wrapU w (wrapS m a))
  | ExtUIOp, [(_, a)] | TruncIOp, [(_, a)] => Some (wrapU w a)
  | AddIOp, [(_, a); (_, b)] => Some (wrapU w (a + b))
  | SubIOp, [(_, a); (_, b)] => Some (wrapU w (a - b))
  | MulIOp, [(_, a); (_, b)] => Some (wrapU w (a * b))
  | DivUIOp, [(_, a); (_, b)] => if b =? 0 then None else Some (a `div` b)
  | RemUIOp, [(_, a); (_, b)] => if b =? 0 then None else Some (a `mod` b)
  | DivSIOp, [(_, a); (_, b)] =>
      let q := wrapS w a `quot` wrapS w b in
      if (b =? 0) || (q =? 2 ^ (w - 1)) then None else Some (wrapU w q)
  | AndIOp, [(_, a); (_, b)] => Some (Z.land a b)
  | OrIOp, [(_, a); (_, b)] => Some (Z.lor a b)
  | XOrIOp, [(_, a); (_, b)] => Some (Z.lxor a b)
  | ShRUIOp, [(_, a); (_, b)] => if b <? w then Some (Z.shiftr a b) else None
  | ShRSIOp, [(_, a); (_, b)] => if b <? w then Some (wrapU w (Z.shiftr (wrapS w a) b)) else None
  | CmpIOp p, [(m, a); (_, b)] => Some (Z.b2z (compares p m a b))
  | SelectOp, [(_, c); (_, t); (_, f)] => Some (if c =? 1 then t else f)
  | _, _ => None
  end.

(** Operations that compute their result, and those that pass on one of their data
    operands. *)
Definition isPure (k : OpKind) : bool :=
  match k with
  | ConstantOp _ | ExtSIOp | ExtUIOp | TruncIOp | AddIOp | SubIOp | MulIOp | DivUIOp | DivSIOp | RemUIOp | AndIOp | OrIOp
  | XOrIOp | ShRUIOp | ShRSIOp | CmpIOp _ | SelectOp => true
  | _ => false
  end.

Definition isMergeLike (k : OpKind) : bool :=
  match k with MergeOp | MuxOp | ControlMergeOp | FirstOp => true | _ => false end.

Definition isForwarder (k : OpKind) : bool :=
  match k with
  | BufferOp | ForkOp | LazyForkOp | BranchOp | ConditionalBranchOp => true
  | _ => isMergeLike k
  end.

(** The select operand of a mux and the condition of a branch come first. *)
Definition getDataOperands (o : Operation) : list Value :=
  match kind o with MuxOp | ConditionalBranchOp => tail (operands o) | _ => operands o end.

(** The second result of a control merge is the index of the operand. *)
Definition getDataResults (o : Operation) : list Value :=
  match kind o with ControlMergeOp => take 1 (results o) | _ => results o end.

(** * Values *)

Definition valuation := Value → Z.

Definition args (c : Circuit) (ρ : valuation) (vs : list Value) : list (Z * Z) := map (λ v, (width c v, ρ v)) vs.

(** Values that the operations of a circuit can have at a time; what an operation with
    several data operands passes on can be older than their values. *)
Record consistent (c : Circuit) (ρ : valuation) : Prop := {
  in_range v : 0 ≤ ρ v < 2 ^ width c v;
  pure_results o r : o ∈ ops c → isPure (kind o) = true → r ∈ results o → sem (kind o) (args c ρ (operands o)) (width c r) = Some (ρ r);
  forwarded_results o r v : o ∈ ops c → isForwarder (kind o) = true → r ∈ getDataResults o → getDataOperands o = [v] → ρ r = ρ v
}.

(** The operands and results of the operations that forward data. *)
Definition arity (o : Operation) : Prop :=
  match kind o with
  | BufferOp | ForkOp | LazyForkOp | BranchOp => length (operands o) = 1%nat
  | ConditionalBranchOp => length (operands o) = 2%nat
  | ControlMergeOp => operands o ≠ [] ∧ length (results o) = 2%nat
  | _ => getDataOperands o ≠ [] ∧ length (results o) = 1%nat
  end.

(** What the verifiers of the operations demand; widths are those of integer types. *)
Definition wellTyped (c : Circuit) (o : Operation) : Prop :=
  match kind o, operands o, results o with
  | ConstantOp k, [_], [r] => apint_width k = width c r ∧ isInteger (typeOf c r) = true
  | ExtSIOp, [v], [r] | ExtUIOp, [v], [r] => isInteger (typeOf c v) = true ∧ isInteger (typeOf c r) = true ∧ width c v ≤ width c r
  | TruncIOp, [v], [r] => isInteger (typeOf c v) = true ∧ isInteger (typeOf c r) = true ∧ width c r ≤ width c v
  | AddIOp, [a; b], [r] | SubIOp, [a; b], [r] | MulIOp, [a; b], [r] | DivUIOp, [a; b], [r] | DivSIOp, [a; b], [r] | RemUIOp, [a; b], [r]
  | AndIOp, [a; b], [r] | OrIOp, [a; b], [r] | XOrIOp, [a; b], [r] | ShRUIOp, [a; b], [r] | ShRSIOp, [a; b], [r] =>
      isInteger (typeOf c r) = true ∧ typeOf c a = typeOf c r ∧ typeOf c b = typeOf c r
  | CmpIOp _, [a; b], [r] => isInteger (typeOf c a) = true ∧ typeOf c a = typeOf c b ∧ typeOf c r = integerChannel 1
  | SelectOp, [s; a; b], [r] => typeOf c s = integerChannel 1 ∧ typeOf c a = typeOf c r ∧ typeOf c b = typeOf c r
  | (ConstantOp _ | ExtSIOp | ExtUIOp | TruncIOp | AddIOp | SubIOp | MulIOp | DivUIOp | DivSIOp | RemUIOp | AndIOp | OrIOp
     | XOrIOp | ShRUIOp | ShRSIOp | CmpIOp _ | SelectOp), _, _ => False
  | _, _, _ => isForwarder (kind o) = true → arity o ∧ ∀ v r, v ∈ getDataOperands o → r ∈ getDataResults o → typeOf c v = typeOf c r
  end.

Definition wf (c : Circuit) : Prop :=
  (∀ o, o ∈ ops c → wellTyped c o) ∧ ∀ v, 0 < width c v < 2 ^ 24.

(** * Expressions *)

(** Existing values, and the result of a new operation with its type. *)
Inductive expr := Old (v : Value) | New (k : OpKind) (es : list expr) (t : ChannelType).

Definition exprType (c : Circuit) (e : expr) : ChannelType := match e with Old v => typeOf c v | New _ _ t => t end.
Definition exprWidth (c : Circuit) (e : expr) : Z := getDataBitWidth (exprType c e).

Fixpoint eval (c : Circuit) (ρ : valuation) (e : expr) : res Z :=
  match e with
  | Old v => Ok (ρ v)
  | New k es t =>
      let* vs := mapM (λ e, let* x := eval c ρ e in Ok (exprWidth c e, x)) es in
      of_option Poison (sem k vs (getDataBitWidth t))
  end.

End IR.
