(* ===== verification/OptimizeBitwidths.v ===== *)
(** The patterns of the bitwidth optimization (HandshakeOptimizeBitwidths.cpp).  A
    pattern returns what replaces the result of the operation, or nothing when it
    does not apply. *)

From stdpp Require Import gmap.
From S2P Require Import LLVMInterface WidthIR Prelude.

Section Opt.
Context `{L : APIntLib}.

(** [bits]: [APInt] or [uint64_t] of a number. *)
Definition computeRequiredBitwidth (value : apint) : Z :=
  Z.max (if isNegative value then getSignificantBits value else getActiveBits value) 1.

(** * Minimal values *)

Inductive ExtType := NONE | ZEXT | SEXT.

#[export] Instance ExtType_eq_dec : EqDecision ExtType.
Proof. solve_decision. Defined.

(** A channel, or a constant operation with its control. *)
Inductive Repr := ChannelVal (e : expr) | ConstantRepr (i : OpId) (value : apint) (ctrl : Value).

Record MinimalValue := mkMinimal { extType : ExtType; minimalType : ChannelType; repr : Repr }.

Definition minWidth (m : MinimalValue) : Z := getDataBitWidth (minimalType m).

Context (c : Circuit).

Definition ofValue (e : expr) (x : ExtType) : MinimalValue := mkMinimal x (exprType c e) (ChannelVal e).

Definition ofConstant (i : OpId) (value : apint) (ctrl : Value) (t : ChannelType) : MinimalValue :=
  let bitWidth := computeRequiredBitwidth value in
  if apint_width value <=? bitWidth then mkMinimal NONE t (ConstantRepr i value ctrl)
  else mkMinimal (if isNegative value then SEXT else ZEXT) (integerChannel bitWidth) (ConstantRepr i value ctrl).

Definition getConstantOrNone (m : MinimalValue) : option apint :=
  match repr m with ChannelVal _ => None | ConstantRepr _ value _ => Some (apint_trunc (minWidth m) value) end.

Definition materializeValue (m : MinimalValue) : expr :=
  match repr m with
  | ChannelVal e => e
  | ConstantRepr _ value ctrl => New (ConstantOp (apint_trunc (minWidth m) value)) [Old ctrl] (integerChannel (minWidth m))
  end.

(** [operator==]; new values are not compared. *)
Definition sameMinimal (a b : MinimalValue) : bool :=
  bool_decide (extType a = extType b)
  && match minimalType a, minimalType b with
     | mkChannelType i u w, mkChannelType i' u' w' => bool_decide (i = i') && bool_decide (u = u') && (w =? w')
     end
  && match repr a, repr b with
     | ChannelVal (Old v), ChannelVal (Old v') => bool_decide (v = v')
     | ConstantRepr i _ _, ConstantRepr i' _ _ => bool_decide (i = i')
     | _, _ => false
     end.

Definition getMinimalValue (v : Value) : MinimalValue :=
  if negb (isInteger (typeOf c v)) then ofValue (Old v) NONE
  else
    match getDefiningOp c v with
    | Some (i, o) =>
        match kind o, operands o with
        | ExtSIOp, [x] => ofValue (Old x) SEXT
        | ExtUIOp, [x] => ofValue (Old x) ZEXT
        | ConstantOp value, [ctrl] => ofConstant i value ctrl (typeOf c v)
        | _, _ => ofValue (Old v) NONE
        end
    | None => ofValue (Old v) NONE
    end.

(** A loop over defining operations until one is met again; the cases on buffers and
    the like are not an alternative of those that follow, and lead to a return. *)
Fixpoint backtrackFrom (fuel : nat) (visitedOps : gset OpId) (v : Value) : res Value :=
  match getDefiningOp c v with
  | None => Ok v
  | Some (i, o) =>
      match fuel with
      | O => Bad NoFuel
      | S fuel =>
          if bool_decide (i ∈ visitedOps) then Ok v
          else
            let visitedOps := {[i]} ∪ visitedOps in
            match kind o with
            | BufferOp | ForkOp | LazyForkOp | BranchOp => at_ (operands o) 0
            | ConditionalBranchOp => let* d := at_ (operands o) 1 in backtrackFrom fuel visitedOps d
            | k =>
                if isMergeLike k then
                  match getDataOperands o with
                  | [d] => backtrackFrom fuel visitedOps d
                  | _ => backtrackFrom fuel visitedOps v
                  end
                else Ok v
            end
      end
  end.
Definition backtrack : Value → res Value := backtrackFrom (S (length (ops c))) ∅.
Definition backtrackToMinimalValue (v : Value) : res MinimalValue := let* v := backtrack v in Ok (getMinimalValue v).

(** The widest use of a value, when all users are truncations or sinks. *)
Fixpoint usefulWidth (w : Z) (users : list Operation) (maxWidth : option Z) : Z :=
  match users with
  | [] => Z.max (default 0 maxWidth) 1
  | o :: users =>
      match kind o, results o with
      | SinkOp, _ => usefulWidth w users maxWidth
      | TruncIOp, [r] => usefulWidth w users (Some (Z.max (default 0 maxWidth) (width c r)))
      | _, _ => w
      end
  end.
Definition getUsefulResultWidth (v : Value) : Z := usefulWidth (width c v) (getUsers c v) None.

Definition modBitWidth (m : MinimalValue) (targetWidth : Z) : expr :=
  let w := minWidth m in
  let val := materializeValue m in
  if w =? targetWidth then val
  else if w <? targetWidth then
    if bool_decide (extType m = ZEXT) || (bool_decide (extType m = NONE) && isUnsignedInteger (exprType c val)) then
      New ExtUIOp [val] (integerChannel targetWidth)
    else New ExtSIOp [val] (integerChannel targetWidth)
  else New TruncIOp [val] (integerChannel targetWidth).

(** An operand of a merge: in the cycle, or one of those that are not. *)
Definition mergeOperand (isOperandInCycle : Value → gset Value → res (bool * gset Value)) '(one, mergeOperands, merged) opr
    : res (bool * list Value * gset Value) :=
  let* (inCycle, merged) := isOperandInCycle opr merged in
  Ok (if inCycle : bool then (true, mergeOperands, merged) else (one, mergeOperands ++ [opr], merged)).

(** If one operand is in the cycle, the others are merged into it. *)
Definition recurseMergeLike (isOperandInCycle : Value → gset Value → res (bool * gset Value)) (dataOperands : list Value)
    (mergedValues : gset Value) : res (bool * gset Value) :=
  let* (oneOprInCycle, mergeOperands, mergedValues) := foldM (mergeOperand isOperandInCycle) (false, [], mergedValues) dataOperands in
  Ok (oneOprInCycle, if oneOprInCycle : bool then list_to_set mergeOperands ∪ mergedValues else mergedValues).

(** [isOperandInCycle], with the values merged into the cycle. *)
Fixpoint isOperandInCycle (fuel : nat) (res_ : Value) (visitedOps : gset OpId) (val : Value) (mergedValues : gset Value)
    : res (bool * gset Value) :=
  if decide (val = res_) then Ok (true, mergedValues)
  else
    match getDefiningOp c val with
    | None => Ok (false, mergedValues)
    | Some (i, o) =>
        match fuel with
        | O => Bad NoFuel
        | S fuel =>
            if bool_decide (i ∈ visitedOps) then Ok (true, mergedValues)
            else
              let visitedOps := {[i]} ∪ visitedOps in
              match kind o with
              | BufferOp | ForkOp | LazyForkOp | BranchOp =>
                  let* d := at_ (operands o) 0 in isOperandInCycle fuel res_ visitedOps d mergedValues
              | ConditionalBranchOp => let* d := at_ (operands o) 1 in isOperandInCycle fuel res_ visitedOps d mergedValues
              | SelectOp =>
                  let* t := at_ (operands o) 1 in
                  let* f := at_ (operands o) 2 in
                  recurseMergeLike (isOperandInCycle fuel res_ visitedOps) [t; f] mergedValues
              | k =>
                  if isMergeLike k then recurseMergeLike (isOperandInCycle fuel res_ visitedOps) (getDataOperands o) mergedValues
                  else Ok (false, mergedValues)
              end
        end
    end.

(** The operation at a width, and its result at the original one. *)
Definition modArithOp (o : Operation) (resType : ChannelType) (lhs rhs : MinimalValue) (optWidth : Z) (extRes : ExtType) : expr :=
  let newLhs := modBitWidth lhs optWidth in
  let newRhs := modBitWidth rhs optWidth in
  let newOp := New (kind o) [newLhs; newRhs] (exprType c newLhs) in
  modBitWidth (ofValue newOp extRes) (getDataBitWidth resType).

(** * Transfer functions *)

Record ExtWidth := mkExtWidth { ew_ext : ExtType; ew_bits : Z }.

(** The order of the enumeration. *)
Definition rank (x : ExtType) : Z := match x with NONE => 0 | ZEXT => 1 | SEXT => 2 end.

Definition canonicalizeCommutativeExtensionType (lhs rhs : ExtWidth) : ExtWidth * ExtWidth :=
  if rank (ew_ext rhs) <? rank (ew_ext lhs) then (rhs, lhs) else (lhs, rhs).

Definition addWidth (lhs rhs : ExtWidth) : ExtWidth :=
  let '(lhs, rhs) := canonicalizeCommutativeExtensionType lhs rhs in
  let m := Z.max (ew_bits lhs) (ew_bits rhs) in
  if rank (ew_ext rhs) <=? rank ZEXT then mkExtWidth ZEXT (m + 1)
  else if bool_decide (ew_ext lhs = SEXT) || (ew_bits lhs <? ew_bits rhs) then mkExtWidth SEXT (m + 1)
  else mkExtWidth SEXT (m + 2).

Definition subWidth (lhs rhs : ExtWidth) : ExtWidth :=
  if bool_decide (ew_ext lhs = ew_ext rhs) then mkExtWidth SEXT (Z.max (ew_bits lhs) (ew_bits rhs) + 1)
  else addWidth lhs rhs.

Definition mulWidth (lhs rhs : ExtWidth) : ExtWidth :=
  let '(lhs, rhs) := canonicalizeCommutativeExtensionType lhs rhs in
  mkExtWidth (ew_ext rhs) (ew_bits lhs + ew_bits rhs).

Definition divWidth (zeroExtend : bool) (lhs _ : ExtWidth) : ExtWidth :=
  mkExtWidth (if zeroExtend then ZEXT else NONE) (ew_bits lhs + 1).

Definition andWidth (lhs rhs : ExtWidth) : ExtWidth :=
  let '(lhs, rhs) := canonicalizeCommutativeExtensionType lhs rhs in
  if rank (ew_ext rhs) <=? rank ZEXT then mkExtWidth ZEXT (Z.min (ew_bits lhs) (ew_bits rhs))
  else if bool_decide (ew_ext lhs = ZEXT) then mkExtWidth ZEXT (ew_bits lhs)
  else mkExtWidth SEXT (Z.max (ew_bits lhs) (ew_bits rhs)).

Definition orWidth (lhs rhs : ExtWidth) : ExtWidth :=
  let '(lhs, rhs) := canonicalizeCommutativeExtensionType lhs rhs in
  if rank (ew_ext rhs) <=? rank ZEXT then mkExtWidth ZEXT (Z.max (ew_bits lhs) (ew_bits rhs))
  else if bool_decide (ew_ext lhs = ZEXT) && (ew_bits rhs <=? ew_bits lhs) then mkExtWidth SEXT (1 + ew_bits lhs)
  else mkExtWidth SEXT (Z.max (ew_bits lhs) (ew_bits rhs)).

(** * Forwarding operations *)

Definition maxWidth (operands : list MinimalValue) : Z := foldl (λ w m, Z.max w (minWidth m)) 0 operands.

(** The extension of the result, and the width, which may grow. *)
Definition computeDataForwardExt (operands : list MinimalValue) (optWidth : Z) : res ExtWidth :=
  match operands with
  | [] => Bad AssertFailed
  | m :: _ =>
      Ok (if forallb (λ m', bool_decide (extType m' = extType m)) operands then mkExtWidth (extType m) optWidth
          else if existsb (λ m', bool_decide (extType m' = ZEXT) && (minWidth m' =? optWidth)) operands then mkExtWidth SEXT (optWidth + 1)
          else mkExtWidth SEXT optWidth)
  end.

Definition computeDataForwardResult (operands : list MinimalValue) : res ExtWidth :=
  computeDataForwardExt operands (maxWidth operands).

(** The new data operands of an operation that forwards data, and how its results
    are extended. *)
Record Forwarded := mkForwarded { newDataOperands : list expr; resultExt : ExtType; resultWidth : Z }.

(** What replaces a result when the operand [e] is forwarded. *)
Definition newResult (fw : Forwarded) (e : expr) : expr := modBitWidth (ofValue e (resultExt fw)) (resultWidth fw).

Definition HandshakeOptData (forward : bool) (o : Operation) : res (option Forwarded) :=
  let* r := of_option AssertFailed (head (getDataResults o)) in
  if negb (isInteger (typeOf c r)) then Ok None
  else
    let minDataOperands := map getMinimalValue (getDataOperands o) in
    let* w :=
      if forward then computeDataForwardResult minDataOperands
      else Ok (mkExtWidth ZEXT (foldl (λ w r, Z.max w (getUsefulResultWidth r)) 0 (getDataResults o))) in
    if width c r <=? ew_bits w then Ok None
    else Ok (Some (mkForwarded (map (λ m, modBitWidth m (ew_bits w)) minDataOperands) (ew_ext w) (width c r))).

(** The operands in the cycle of the result, and the values merged into it. *)
Definition cycleOperand (fuel : nat) (r : Value) (merged : gset Value) (opr : Value) : res (gset Value) :=
  let* (inCycle, mergedValues) := isOperandInCycle fuel r ∅ opr ∅ in
  Ok (if inCycle : bool then mergedValues ∪ merged else {[opr]} ∪ merged).

Definition ForwardCycleOpt (o : Operation) : res (option Forwarded) :=
  if negb (isMergeLike (kind o)) then Ok None
  else
    let* r := of_option AssertFailed (head (results o)) in
    if negb (isInteger (typeOf c r)) then Ok None
    else
      let* allMergedValues := foldM (cycleOperand (S (length (ops c))) r) ∅ (getDataOperands o) in
      let* minimal := mapM backtrackToMinimalValue (elements allMergedValues) in
      let* w := computeDataForwardResult minimal in
      if width c r <=? ew_bits w then Ok None
      else Ok (Some (mkForwarded (map (λ v, modBitWidth (getMinimalValue v) (ew_bits w)) (getDataOperands o)) (ew_ext w) (width c r))).

(** The functions the pass gives to [ArithSingleType], in the forward direction. *)
Definition fTransferOf (k : OpKind) : option (ExtWidth → ExtWidth → ExtWidth) :=
  match k with
  | AddIOp => Some addWidth
  | SubIOp => Some subWidth
  | MulIOp => Some mulWidth
  | AndIOp => Some andWidth
  | OrIOp | XOrIOp => Some orWidth
  | DivUIOp | DivSIOp | RemUIOp => Some (divWidth true)
  | _ => None
  end.

(** The bits needed to tell [n] operands apart. *)
Definition indexWidth (n : nat) : Z := Z.max 1 (ceilLogBase2 (apint_make 64 (Z.of_nat n) false)).

Definition HandshakeMuxSelect (o : Operation) : option expr :=
  match operands o with
  | select :: dataOperands =>
      let optWidth := indexWidth (length dataOperands) in
      if width c select <=? optWidth then None else Some (modBitWidth (ofValue (Old select) ZEXT) optWidth)
  | [] => None
  end.

(** The width of the new index, and what replaces the index. *)
Definition HandshakeCMergeIndex (o : Operation) : option (Z * (expr → expr)) :=
  match results o with
  | [_; index] =>
      let optWidth := indexWidth (length (operands o)) in
      if width c index <=? optWidth then None else Some (optWidth, λ newIndex, modBitWidth (ofValue newIndex ZEXT) (width c index))
  | _ => None
  end.

(** * Arithmetic *)

Definition ArithSingleType (forward : bool) (fTransfer : ExtWidth → ExtWidth → ExtWidth) (o : Operation) : option expr :=
  match operands o, results o with
  | [l; r], [res_] =>
      if negb (isInteger (typeOf c res_)) then None
      else
        let minLhs := getMinimalValue l in
        let minRhs := getMinimalValue r in
        let optWidth :=
          if forward then fTransfer (mkExtWidth (extType minLhs) (minWidth minLhs)) (mkExtWidth (extType minRhs) (minWidth minRhs))
          else mkExtWidth ZEXT (getUsefulResultWidth res_) in
        if width c res_ <=? ew_bits optWidth then None
        else Some (modArithOp o (typeOf c res_) minLhs minRhs (ew_bits optWidth) (ew_ext optWidth))
  | _, _ => None
  end.

Definition ArithSelect (forward : bool) (o : Operation) : option expr :=
  match operands o, results o with
  | [cond; t; f], [res_] =>
      if negb (isInteger (typeOf c res_)) then None
      else
        let lhs := getMinimalValue t in
        let rhs := getMinimalValue f in
        let optWidth := if forward then Z.max (minWidth lhs) (minWidth rhs) else getUsefulResultWidth res_ in
        if width c res_ <=? optWidth then None
        else if (bool_decide (extType lhs = ZEXT) && bool_decide (extType rhs = SEXT))
                || (bool_decide (extType lhs = SEXT) && bool_decide (extType rhs = ZEXT)) then None
        else
          let newLhs := modBitWidth lhs optWidth in
          let newRhs := modBitWidth rhs optWidth in
          let newOp := New SelectOp [Old cond; newLhs; newRhs] (exprType c newLhs) in
          Some (modBitWidth (ofValue newOp (extType lhs)) (width c res_))
  | _, _ => None
  end.

(** The constant operation that defines a value, with its control. *)
Definition constantDef (v : Value) : option (apint * Value) :=
  match getDefiningOp c v with
  | Some (_, o) => match kind o, operands o with ConstantOp value, [ctrl] => Some (value, ctrl) | _, _ => None end
  | None => None
  end.

(** The result of a new operation on two values, of the type of the first. *)
Definition binary (k : OpKind) (l r : expr) : expr := New k [l; r] (exprType c l).

Definition newConstant (t : ChannelType) (z : Z) (ctrl : Value) : expr :=
  New (ConstantOp (apint_make (getDataBitWidth t) z false)) [Old ctrl] t.

Definition ArithShrUIFW (o : Operation) : option expr :=
  match operands o, results o with
  | [l; r], [res_] =>
      let lhs := getMinimalValue l in
      let inputBitwidth := minWidth lhs in
      let currentBitwidth := width c res_ in
      if currentBitwidth <=? inputBitwidth then None
      else
        match constantDef r with
        | None => None
        | Some (shift, ctrl) =>
            if apint_uge shift currentBitwidth then None
            else if decide (extType lhs = ZEXT) then
              if apint_uge shift inputBitwidth then Some (newConstant (typeOf c res_) 0 ctrl)
              else Some (modArithOp o (typeOf c res_) lhs (ofValue (Old r) NONE) inputBitwidth ZEXT)
            else
              let result :=
                if apint_ult shift inputBitwidth then
                  let newRhs := modBitWidth (ofValue (Old r) NONE) inputBitwidth in
                  New TruncIOp [binary ShRUIOp (materializeValue lhs) newRhs] (integerChannel (inputBitwidth - getZExtValue shift))
                else
                  let inputBWM1 := newConstant (minimalType lhs) (inputBitwidth - 1) ctrl in
                  New TruncIOp [binary ShRUIOp (materializeValue lhs) inputBWM1] (integerChannel 1) in
              let result := New ExtSIOp [result] (integerChannel (currentBitwidth - getZExtValue shift)) in
              Some (New ExtUIOp [result] (typeOf c res_))
        end
  | _, _ => None
  end.

Definition ArithShrSIFW (o : Operation) : option expr :=
  match operands o, results o with
  | [l; r], [res_] =>
      let lhs := getMinimalValue l in
      let inputBitwidth := minWidth lhs in
      let currentBitwidth := width c res_ in
      if currentBitwidth <=? inputBitwidth then None
      else
        match constantDef r with
        | None => None
        | Some (shift, ctrl) =>
            if apint_uge shift currentBitwidth then None
            else if decide (extType lhs = ZEXT) then None
            else if apint_ult shift inputBitwidth then
              Some (modArithOp o (typeOf c res_) lhs (ofValue (Old r) NONE) inputBitwidth SEXT)
            else
              let inputBWM1 := newConstant (minimalType lhs) (inputBitwidth - 1) ctrl in
              Some (New ExtSIOp [binary ShRSIOp (materializeValue lhs) inputBWM1] (typeOf c res_))
        end
  | _, _ => None
  end.

(** For right shifts, the only ones the pass uses the pattern for. *)
Definition ArithShiftBW (o : Operation) : res (option expr) :=
  match operands o, results o with
  | [l; r], [res_] =>
      let toShift := getMinimalValue l in
      let* shiftBy := backtrackToMinimalValue r in
      let resWidth := width c res_ in
      let optWidth :=
        match getConstantOrNone shiftBy with
        | Some cst => wrapU 32 (getUsefulResultWidth res_ + getZExtValue cst)
        | None => resWidth
        end in
      if resWidth <=? optWidth then Ok None
      else Ok (Some (modArithOp o (typeOf c res_) (ofValue (materializeValue toShift) (extType toShift)) shiftBy optWidth (extType toShift)))
  | _, _ => Ok None
  end.

Definition isSignedComparison (p : CmpIPredicate) : bool := match p with slt | sle | sgt | sge => true | _ => false end.

(** The width at which two extended values can be compared. *)
Definition cmpWidth (p : CmpIPredicate) (lhs rhs : ExtWidth) : Z :=
  let isZ v := bool_decide (ew_ext v = ZEXT) in
  let isS v := bool_decide (ew_ext v = SEXT) in
  let lw := ew_bits lhs in
  let rw := ew_bits rhs in
  let optWidth := Z.max lw rw in
  if isSignedComparison p then
    if (isZ lhs && (rw <=? lw)) || (isZ rhs && (lw <=? rw)) then optWidth + 1 else optWidth
  else
    if (isZ lhs && isS rhs && (rw <=? lw)) || (isZ rhs && isS lhs && (lw <=? rw)) then optWidth + 1 else optWidth.

Definition ArithCmpFW (o : Operation) : option expr :=
  match kind o, operands o, results o with
  | CmpIOp p, [l; r], [res_] =>
      let lhs := getMinimalValue l in
      let rhs := getMinimalValue r in
      let optWidth := cmpWidth p (mkExtWidth (extType lhs) (minWidth lhs)) (mkExtWidth (extType rhs) (minWidth rhs)) in
      if width c l <=? optWidth then None
      else Some (New (CmpIOp p) [modBitWidth lhs optWidth; modBitWidth rhs optWidth] (integerChannel 1))
  | _, _, _ => None
  end.

Definition ArithExtToTruncOpt (o : Operation) : option expr :=
  match operands o, results o with
  | [v], [res_] =>
      let minVal := getMinimalValue v in
      if decide (extType minVal = NONE) then None
      else if width c res_ =? minWidth minVal then None
      else Some (modBitWidth minVal (width c res_))
  | _, _ => None
  end.

(** * Bounds *)

(** [MinimalValue::getDefiningOp] *)
Definition minimalOp (m : MinimalValue) : option Operation :=
  match repr m with
  | ChannelVal (Old v) => snd <$> getDefiningOp c v
  | ChannelVal (New _ _ _) => None
  | ConstantRepr i _ _ => ops c !! i
  end.

(** The comparisons of which the condition is the conjunction, and whether it is one
    comparison. *)
Fixpoint getCmpOps (fuel : nat) (condVal : Value) : res (list Operation * bool) :=
  let* minVal := backtrackToMinimalValue condVal in
  match minimalOp minVal with
  | None => Ok ([], false)
  | Some defOp =>
      match kind defOp, operands defOp with
      | CmpIOp _, _ => Ok ([defOp], true)
      | AndIOp, [l; r] =>
          match fuel with
          | O => Bad NoFuel
          | S fuel =>
              let* (cl, _) := getCmpOps fuel l in
              let* (cr, _) := getCmpOps fuel r in
              Ok (cl ++ cr, false)
          end
      | _, _ => Ok ([], false)
      end
  end.

(** Whether a number closer to 0 than the bound needs a bit less. *)
Definition isBoundTight (maybeConstant : option apint) : bool :=
  match maybeConstant with
  | None => false
  | Some val =>
      let centVal :=
        if isNegative val then apint_make 64 (wrapU 64 (getSExtValue val + 1)) false
        else apint_make 64 (wrapU 64 (getZExtValue val - 1)) false in
      computeRequiredBitwidth val =? computeRequiredBitwidth centVal + 1
  end.

(** [getConstantOpOrNull], with its value. *)
Definition getConstantOpOrNull (m : MinimalValue) : option apint :=
  match repr m with ConstantRepr _ value _ => Some value | ChannelVal _ => None end.

(** Whether the true result may be optimized, or the false one, if any. *)
Definition getBranchToOptimize (p : CmpIPredicate) (isDataLhs : bool) : option bool :=
  match p with
  | eq => Some true
  | ne => Some false
  | ult | ule => Some isDataLhs
  | ugt | uge => Some (negb isDataLhs)
  | _ => None
  end.

Definition getRealOptWidth (p : CmpIPredicate) (optWidth : Z) (isDataLhs : bool) : Z :=
  match p with
  | ult | uge => if isDataLhs then optWidth - 1 else optWidth
  | ule | ugt => if isDataLhs then optWidth else optWidth - 1
  | _ => optWidth
  end.

(** The extension of a branch with a bound, for the predicates the pattern knows. *)
Definition branchExtension (p : CmpIPredicate) (boundExt : ExtType) : option ExtType :=
  match p with
  | eq | ne => Some boundExt
  | ult | ule | ugt | uge => if decide (boundExt = SEXT) then None else Some ZEXT
  | _ => None
  end.

(** What a comparison of data with a bound tells of a branch: which, the width, and the
    extension. *)
Definition operandBound (p : CmpIPredicate) (isDataLhs : bool) (bound : MinimalValue) : option (bool * Z * ExtType) :=
  match getBranchToOptimize p isDataLhs, branchExtension p (extType bound) with
  | Some branch, Some x =>
      Some (branch, if isBoundTight (getConstantOpOrNull bound) then getRealOptWidth p (minWidth bound) isDataLhs else minWidth bound, x)
  | _, _ => None
  end.
Definition boundOf (dataOperand : MinimalValue) (cmpOp : Operation) : res (option (bool * Z * ExtType)) :=
  match kind cmpOp, operands cmpOp with
  | CmpIOp p, [l; r] =>
      let* minLhs := backtrackToMinimalValue l in
      let* minRhs := backtrackToMinimalValue r in
      Ok (if sameMinimal dataOperand minLhs then operandBound p true minRhs
          else if sameMinimal dataOperand minRhs then operandBound p false minLhs
          else None)
  | _, _ => Ok None
  end.

(** The best bounds found so far for the two branches; the false one needs a single
    comparison. *)
Definition branches := (option (Z * ExtType) * option (Z * ExtType))%type.

Definition better (width : Z) (x : ExtType) (b : option (Z * ExtType)) : option (Z * ExtType) :=
  match b with
  | Some (w, _) => if width <? w then Some (width, x) else b
  | None => Some (width, x)
  end.

Definition addBound (dataOperand : MinimalValue) (singleComp : bool) '((t, f) : branches) (cmpOp : Operation) : res branches :=
  let* bound := boundOf dataOperand cmpOp in
  Ok (match bound with
      | Some (true, width, x) => (better width x t, f)
      | Some (false, width, x) => (t, if singleComp then better width x f else f)
      | None => (t, f)
      end).

Definition optBranchIfPossible (optBranch : Value) (bound : option (Z * ExtType)) : option expr :=
  match bound with
  | None => None
  | Some (optWidth, ext) =>
      let dataWidth := getUsefulResultWidth optBranch in
      if dataWidth <=? optWidth then None
      else Some (modBitWidth (ofValue (modBitWidth (ofValue (Old optBranch) ext) optWidth) ext) dataWidth)
  end.

(** What replaces the true result of a conditional branch, and the false one. *)
Definition ArithBoundOpt (o : Operation) : res (option expr * option expr) :=
  match operands o, results o with
  | [cond; data], [trueRes; falseRes] =>
      if negb (isInteger (typeOf c data)) then Ok (None, None)
      else
        let* dataOperand := backtrackToMinimalValue data in
        let* (cmpOps, singleComp) := getCmpOps (length (ops c)) cond in
        let* (t, f) := foldM (addBound dataOperand singleComp) (None, None) cmpOps in
        Ok (optBranchIfPossible trueRes t, optBranchIfPossible falseRes f)
  | _, _ => Bad AssertFailed
  end.

(** * Folding extensions and truncations *)

(** A fold replaces the result by a value, or the operand by another one. *)
Inductive FoldResult := NoFold | FoldTo (v : Value) | FoldInPlace (operand : Value).

Definition sameExtension (k k' : OpKind) : bool :=
  match k, k' with ExtSIOp, ExtSIOp | ExtUIOp, ExtUIOp => true | _, _ => false end.

Definition foldExtOp (o : Operation) : FoldResult :=
  match operands o, results o with
  | [x], [out] =>
      let folded := if width c x =? width c out then FoldTo x else NoFold in
      match getDefiningOp c x with
      | Some (_, d) => match operands d with [y] => if sameExtension (kind o) (kind d) then FoldInPlace y else folded | _ => folded end
      | None => folded
      end
  | _, _ => NoFold
  end.

Definition TruncIOp_fold (o : Operation) : FoldResult :=
  match operands o, results o with
  | [x], [out] =>
      let folded := if width c x =? width c out then FoldTo x else NoFold in
      match getDefiningOp c x with
      | Some (_, d) =>
          match kind d, operands d with
          | TruncIOp, [y] => FoldInPlace y
          | (ExtSIOp | ExtUIOp), [src] =>
              if width c out <? width c src then FoldInPlace src
              else if width c src =? width c out then FoldTo src
              else NoFold
          | _, _ => folded
          end
      | None => folded
      end
  | _, _ => NoFold
  end.

Definition fold (o : Operation) : FoldResult :=
  match kind o with
  | ExtSIOp | ExtUIOp => foldExtOp o
  | TruncIOp => TruncIOp_fold o
  | _ => NoFold
  end.

(** * The patterns of the pass *)

(** [addArithPatterns] with the patterns on arithmetic that [addForwardPatterns] adds. *)
Definition arithPatterns (forward : bool) (o : Operation) : res (option expr) :=
  match kind o, fTransferOf (kind o) with
  | (AddIOp | SubIOp), Some T => Ok (ArithSingleType forward T o)
  | (MulIOp | AndIOp | OrIOp | XOrIOp), Some T => Ok (ArithSingleType true T o)
  | (DivUIOp | DivSIOp | RemUIOp), Some T => Ok (if forward then ArithSingleType true T o else None)
  | SelectOp, _ => Ok (ArithSelect forward o)
  | ShRUIOp, _ => if forward then Ok (ArithShrUIFW o) else ArithShiftBW o
  | ShRSIOp, _ => if forward then Ok (ArithShrSIFW o) else ArithShiftBW o
  | TruncIOp, _ => Ok (ArithExtToTruncOpt o)
  | CmpIOp _, _ => Ok (if forward then ArithCmpFW o else None)
  | _, _ => Ok None
  end.

End Opt.
