(* ===== verification/MinimalValues.v ===== *)
(** What minimal values stand for, what changing their width does, and that the transfer
    functions of the bitwidth optimization bound the results of their operations
    (OptimizeBitwidths.v). *)

From stdpp Require Import gmap.
From S2P Require Import LLVMInterface WidthNum WidthIR OptimizeBitwidths Prelude.

Section Minimal.
Context `{AL : APIntLaws}.
Context (c : Circuit) (Hwf : wf c) (ρ : valuation) (Hρ : consistent c ρ).

(** * Constants *)

Lemma bits_of_bound z : 0 ≤ z → z < 2 ^ bits_of z.
Proof.
  intros Hz. unfold bits_of. destruct (Z.eqb_spec z 0) as [->|]; [simpl; lia|]. pose proof (Z.log2_spec z ltac:(lia)).
  rewrite Z.add_1_r. lia.
Qed.

Lemma bits_of_nonneg z : 0 ≤ bits_of z.
Proof. unfold bits_of. destruct (z =? 0); [done|]. pose proof (Z.log2_nonneg z). lia. Qed.

Lemma required_pos k : 0 < computeRequiredBitwidth k.
Proof. unfold computeRequiredBitwidth. lia. Qed.

(** The value of a constant in the bits it requires. *)
Lemma required_fits k : 0 < apint_width k → computeRequiredBitwidth k < apint_width k →
  let x := if isNegative k then apint_sval k else apint_uval k in
  fits (negb (isNegative k)) (computeRequiredBitwidth k) x ∧ apint_uval k = wrapU (apint_width k) x.
Proof.
  intros Hw Hlt. pose proof (apint_uval_range k) as Hr. simpl. unfold computeRequiredBitwidth in *. rewrite isNegative_ok in *.
  destruct (Z.ltb_spec (apint_sval k) 0) as [Hn|Hn]; simpl.
  - rewrite getSignificantBits_ok in * by done. replace (apint_sval k <? 0) with true in * by (symmetry; by apply Z.ltb_lt).
    set (t := - apint_sval k - 1) in *. pose proof (bits_of_bound t ltac:(lia)). pose proof (bits_of_nonneg t).
    rewrite Z.max_l by lia. split; [|by unfold apint_sval; rewrite wrapU_wrapS, wrapU_small by lia].
    unfold fits. replace (bits_of t + 1 - 1) with (bits_of t) by lia. lia.
  - rewrite getActiveBits_ok in *. split; [|by rewrite wrapU_small]. unfold fits.
    pose proof (bits_of_bound (apint_uval k) ltac:(lia)). pose proof (Z.pow_le_mono_r 2 (bits_of (apint_uval k)) (Z.max (bits_of (apint_uval k)) 1)). lia.
Qed.

(** * Denotation *)

(** Whether [modBitWidth] extends without a sign. *)
Definition zeroExtended (m : MinimalValue) : bool :=
  bool_decide (extType m = ZEXT) || (bool_decide (extType m = NONE) && isUnsignedInteger (exprType c (materializeValue m))).

(** A minimal value denotes a number: what its bits read as. *)
Definition denotes (m : MinimalValue) (x : Z) : Prop :=
  0 < minWidth m ∧ exprWidth c (materializeValue m) = minWidth m ∧ fits (zeroExtended m) (minWidth m) x
  ∧ eval c ρ (materializeValue m) = Ok (wrapU (minWidth m) x).

Lemma old_denotes v x : denotes (ofValue c (Old v) x) (num (zeroExtended (ofValue c (Old v) x)) (width c v) (ρ v)).
Proof.
  destruct Hwf as [_ Hpos]. pose proof (proj1 (Hpos v)). pose proof (in_range _ _ Hρ v). split; [done|]. split; [done|].
  split; [by apply num_fits|]. change (minWidth (ofValue c (Old v) x)) with (width c v). rewrite wrapU_num by lia. simpl. by rewrite wrapU_small.
Qed.

(** A new value with bits of a known number that fits. *)
Lemma new_denotes e k x X : 0 < k → exprWidth c e = k → eval c ρ e = Ok (wrapU k x) → fits (zeroExtended (ofValue c e X)) k x →
  denotes (ofValue c e X) x.
Proof. intros Hk <- He Hx. split; [done|]. split; [done|]. by split. Qed.

Lemma eval_new1 k e t u : eval c ρ e = Ok u →
  eval c ρ (New k [e] t) = of_option Poison (sem k [(exprWidth c e, u)] (getDataBitWidth t)).
Proof. intros He. simpl. by rewrite He. Qed.

Lemma eval_new2 k e1 e2 t u1 u2 : eval c ρ e1 = Ok u1 → eval c ρ e2 = Ok u2 →
  eval c ρ (New k [e1; e2] t) = of_option Poison (sem k [(exprWidth c e1, u1); (exprWidth c e2, u2)] (getDataBitWidth t)).
Proof. intros H1 H2. simpl. by rewrite H1, H2. Qed.

(** * Changing the width *)

Lemma modBitWidth_width m x k : denotes m x → exprWidth c (modBitWidth c m k) = k.
Proof.
  intros (_ & Hw & _). unfold modBitWidth. destruct (Z.eqb_spec (minWidth m) k) as [<-|]; [done|].
  destruct (_ <? _); [|done]. by destruct (_ || _).
Qed.

Lemma modBitWidth_ok m x k : denotes m x → 0 < k → eval c ρ (modBitWidth c m k) = Ok (wrapU k x).
Proof.
  intros (Hpos & Hw & Hx & He) Hk. unfold modBitWidth. destruct (Z.eqb_spec (minWidth m) k) as [<-|Hne]; [done|].
  destruct (Z.ltb_spec (minWidth m) k) as [Hlt|Hge].
  - fold (zeroExtended m). pose proof (num_wrap _ _ _ Hpos Hx) as Hn.
    destruct (zeroExtended m); rewrite (eval_new1 _ _ _ _ He); simpl in *; [by rewrite Hn|]. rewrite Hw. by rewrite Hn.
  - rewrite (eval_new1 _ _ _ _ He). simpl. by rewrite wrapU_le by lia.
Qed.

(** * Minimal values of values *)

Lemma getDefiningOp_in v i o : getDefiningOp c v = Some (i, o) → o ∈ ops c ∧ v ∈ results o.
Proof. intros (Hi & Hv & _)%list_find_Some. split; [by eapply list_elem_of_lookup_2|done]. Qed.

Lemma ofConstant_ok i k ctrl t : apint_width k = getDataBitWidth t → 0 < getDataBitWidth t →
  ∃ x, denotes (ofConstant i k ctrl t) x ∧ apint_uval k = wrapU (getDataBitWidth t) x
    ∧ minWidth (ofConstant i k ctrl t) ≤ getDataBitWidth t
    ∧ (extType (ofConstant i k ctrl t) = NONE → minWidth (ofConstant i k ctrl t) = getDataBitWidth t).
Proof.
  intros Hw Hpos. pose proof (apint_uval_range k) as Hr. unfold ofConstant. rewrite Hw.
  destruct (Z.leb_spec (getDataBitWidth t) (computeRequiredBitwidth k)) as [Hle|Hlt].
  - set (m := mkMinimal NONE t (ConstantRepr i k ctrl)). exists (num (zeroExtended m) (getDataBitWidth t) (apint_uval k)).
    assert (minWidth m = getDataBitWidth t) as Hm by done. rewrite Hw in Hr.
    split; [|split; [by rewrite wrapU_num, wrapU_small by lia|by rewrite Hm]]. split; [lia|]. split; [done|].
    rewrite Hm. split; [by apply num_fits|]. rewrite wrapU_num by lia. simpl. rewrite Hm. simpl. by rewrite apint_trunc_uval by lia.
  - rewrite <-Hw in Hlt. destruct (required_fits k ltac:(lia) Hlt) as [Hx Hu]. pose proof (required_pos k) as Hreq.
    set (x := if isNegative k then apint_sval k else apint_uval k) in *.
    set (m := mkMinimal (if isNegative k then SEXT else ZEXT) (integerChannel (computeRequiredBitwidth k)) (ConstantRepr i k ctrl)).
    assert (minWidth m = computeRequiredBitwidth k) as Hm by done. exists x.
    split; [|split; [by rewrite Hw in Hu|split; [lia|by destruct (isNegative k)]]].
    split; [lia|]. split; [done|]. split.
    + rewrite Hm. replace (zeroExtended m) with (negb (isNegative k)); [done|]. unfold zeroExtended, m. simpl. by destruct (isNegative k).
    + simpl. rewrite Hm, apint_trunc_uval by lia. by rewrite Hu, wrapU_le by lia.
Qed.

(** A value is its minimal value extended. *)
Lemma getMinimalValue_ok v : ∃ x, denotes (getMinimalValue c v) x ∧ ρ v = wrapU (width c v) x
  ∧ minWidth (getMinimalValue c v) ≤ width c v ∧ (extType (getMinimalValue c v) = NONE → minWidth (getMinimalValue c v) = width c v).
Proof.
  destruct Hwf as [Htyped Hpos]. pose proof (in_range _ _ Hρ v) as Hv. pose proof (proj1 (Hpos v)) as Hv0.
  assert (∃ x, denotes (ofValue c (Old v) NONE) x ∧ ρ v = wrapU (width c v) x
    ∧ minWidth (ofValue c (Old v) NONE) ≤ width c v ∧ (extType (ofValue c (Old v) NONE) = NONE → minWidth (ofValue c (Old v) NONE) = width c v)) as Hdefault.
  { eexists. split; [apply old_denotes|]. split; [by rewrite wrapU_num, wrapU_small by lia|]. split; [apply Z.le_refl|done]. }
  unfold getMinimalValue. destruct (isInteger (typeOf c v)); [|done]. simpl.
  destruct (getDefiningOp c v) as [[i o]|] eqn:Hd; [|done]. apply getDefiningOp_in in Hd as [Ho Hvo].
  specialize (Htyped o Ho). unfold wellTyped in Htyped. pose proof (pure_results _ _ Hρ o v Ho) as Hsem.
  destruct (kind o) eqn:Hk; try done; simpl in Hsem; specialize (Hsem eq_refl Hvo);
    destruct (operands o) as [|a [|? ?]]; try done; destruct (results o) as [|r [|? ?]]; try done; apply list_elem_of_singleton in Hvo as ->.
  - destruct Htyped as [Hw _]. destruct (ofConstant_ok i value a (typeOf c r) Hw Hv0) as (x & Hx & Hu & ? & ?).
    exists x. split; [done|]. split; [|done]. injection Hsem as <-. done.
  - exists (wrapS (width c a) (ρ a)). split; [apply old_denotes|]. simpl in Hsem. injection Hsem as <-. split; [done|]. split; [apply Htyped|done].
  - exists (ρ a). split; [apply old_denotes|]. simpl in Hsem. injection Hsem as <-. split; [done|]. split; [apply Htyped|done].
Qed.

(** * Backtracking *)

(** The second result of a control merge, which is not its data. *)
Definition isMergeIndex (r : Value) : Prop := ∃ o, o ∈ ops c ∧ kind o = ControlMergeOp ∧ r ∈ results o ∧ r ∉ getDataResults o.

(** Control merges with one operand, through which [backtrack] goes from the index. *)
Definition noSingleControlMerge : Prop := ∀ o, o ∈ ops c → kind o = ControlMergeOp → length (operands o) ≠ 1%nat.

Lemma data_result o r : noSingleControlMerge → o ∈ ops c → length (getDataOperands o) = 1%nat → r ∈ results o → r ∈ getDataResults o.
Proof.
  intros Hcm Ho H1 Hr. unfold getDataResults, getDataOperands in *. destruct (kind o) eqn:Hk; try done. by destruct (Hcm o Ho Hk).
Qed.

(** A step back keeps the value and its type. *)
Lemma step_back o r v : noSingleControlMerge → o ∈ ops c → isForwarder (kind o) = true → getDataOperands o = [v] → r ∈ results o →
  ρ r = ρ v ∧ typeOf c r = typeOf c v.
Proof.
  intros Hcm Ho Hf Hv Hr. assert (r ∈ getDataResults o) as Hd by (apply data_result; [done|done|by rewrite Hv|done]).
  split; [by apply (forwarded_results _ _ Hρ o)|]. destruct Hwf as [Htyped _]. specialize (Htyped o Ho). unfold wellTyped in Htyped.
  symmetry. destruct (kind o); try done; apply (Htyped eq_refl); try done; rewrite Hv; by apply list_elem_of_singleton.
Qed.

Lemma forwarder_arity o : o ∈ ops c → isForwarder (kind o) = true → arity o.
Proof. intros Ho Hf. destruct Hwf as [Htyped _]. specialize (Htyped o Ho). unfold wellTyped in Htyped. destruct (kind o); try done; by apply Htyped. Qed.

Lemma backtrackFrom_ok fuel visited v v' : noSingleControlMerge → backtrackFrom c fuel visited v = Ok v' → ρ v = ρ v' ∧ typeOf c v = typeOf c v'.
Proof.
  intros Hcm. revert visited v. induction fuel as [|fuel IH]; intros visited v Hb; simpl in Hb;
    (destruct (getDefiningOp c v) as [[i o]|] eqn:Hd; [|by injection Hb as ->]); [done|].
  destruct (bool_decide_reflect (i ∈ visited)) as [|_]; [by injection Hb as ->|]. apply getDefiningOp_in in Hd as [Ho Hv].
  pose proof (forwarder_arity o Ho) as Har. pose proof (λ Hf d Hd, step_back o v d Hcm Ho Hf Hd Hv) as Hstep.
  assert (∀ ds, (∀ d, ds = [d] → ρ v = ρ d ∧ typeOf c v = typeOf c d) →
    match ds with [d] => backtrackFrom c fuel ({[i]} ∪ visited) d | _ => backtrackFrom c fuel ({[i]} ∪ visited) v end = Ok v' →
    ρ v = ρ v' ∧ typeOf c v = typeOf c v') as back_merge.
  { intros ds Hds H. destruct ds as [|d [|? ?]]; try by apply IH in H. destruct (Hds d eq_refl) as [-> ->]. by apply IH in H. }
  unfold arity in Har. unfold getDataOperands in *. destruct (kind o) eqn:Hk; simpl in *; try (by injection Hb as ->); specialize (Har eq_refl); specialize (Hstep eq_refl).
  1-4: destruct (operands o) as [|d [|? ?]]; try done; injection Hb as <-; by apply Hstep.
  - destruct (operands o) as [|? [|d [|? ?]]]; try done. cbn [at_ bind of_option lookup list_lookup] in Hb.
    destruct (Hstep d eq_refl) as [-> ->]. by apply IH in Hb.
  - by apply (back_merge (operands o)) in Hb.
  - by apply (back_merge (tail (operands o))) in Hb.
  - by apply (back_merge (operands o)) in Hb.
  - by apply (back_merge (operands o)) in Hb.
Qed.

Lemma backtrack_ok v v' : noSingleControlMerge → backtrack c v = Ok v' → ρ v = ρ v' ∧ typeOf c v = typeOf c v'.
Proof. apply backtrackFrom_ok. Qed.

End Minimal.

(** * Transfer functions *)

(** A number that a value of width [W] with this extension can be. *)
Definition holds (W : Z) (e : ExtWidth) (x : Z) : Prop :=
  match ew_ext e with
  | NONE => ew_bits e = W ∧ (fits true W x ∨ fits false W x)
  | ZEXT => fits true (ew_bits e) x
  | SEXT => fits false (ew_bits e) x
  end ∧ 0 < ew_bits e ≤ W.

(** A transfer function that leaves bits out bounds what the operation computes. *)
Definition transfers (T : ExtWidth → ExtWidth → ExtWidth) (f : Z → Z → Z) : Prop :=
  ∀ W l r x y, holds W l x → holds W r y → ew_bits (T l r) < W →
    ew_ext (T l r) ≠ NONE ∧ holds W (T l r) (f x y).

(** An operation computes the same at every width. *)
Definition computes `{APIntLib} (k : OpKind) (f : Z → Z → Z) : Prop :=
  ∀ w x y, 0 < w → sem k [(w, wrapU w x); (w, wrapU w y)] w = Some (wrapU w (f x y)).

Lemma pow_max a b : 0 < a → 0 < b → 2 ^ Z.max a b = Z.max (2 ^ a) (2 ^ b).
Proof.
  intros. destruct (Z.le_ge_cases a b) as [H'|H']; pose proof (Z.pow_le_mono_r 2 _ _ eq_refl H').
  - rewrite (Z.max_r a b), Z.max_r by lia. done.
  - rewrite (Z.max_l a b), Z.max_l by lia. done.
Qed.

(** The powers of two around a width. *)
Lemma pow_around a : 0 < a → 2 ^ (a + 1) = 2 * 2 ^ a ∧ 2 ^ a = 2 * 2 ^ (a - 1) ∧ 0 < 2 ^ (a - 1).
Proof. intros. rewrite Z.pow_add_r by lia. rewrite (pow_half a) by lia. lia. Qed.

Ltac zify_bools := rewrite ?Z.ltb_lt, ?Z.ltb_ge, ?Z.leb_le, ?Z.leb_gt in *.
Ltac bounds a b :=
  pose proof (pow_around a ltac:(lia)); pose proof (pow_around b ltac:(lia));
  pose proof (pow_around (Z.max a b) ltac:(lia)); pose proof (pow_max a b ltac:(lia) ltac:(lia)).

(** All extensions of two operands, but for the cases that leave no bits out. *)
Ltac decide_ext :=
  repeat match goal with
  | |- context [bool_decide (?x = ?y :> ExtType)] =>
      let b := eval vm_compute in (bool_decide (x = y)) in change (bool_decide (x = y)) with b
  end.
Ltac by_ext T :=
  intros W [el a] [er b] x y [Hx Ha] [Hy Hb]; unfold T, canonicalizeCommutativeExtensionType; destruct el, er; cbn -[fits] in *;
  decide_ext; cbn -[fits];
  try match goal with |- context [if ?b then _ else _] => let E := fresh "E" in destruct b eqn:E; cbn -[fits]; zify_bools end;
  intros Hlt; try lia; (split; [done|]); split; cbn -[fits]; try lia.

(** A bound of a sum, by the powers of two around the widths. *)
Ltac arithmetic a b :=
  unfold fits in *; bounds a b; rewrite ?(Z.max_comm b a); replace (Z.max a b + 1 - 1) with (Z.max a b) by lia;
  replace (Z.max a b + 2 - 1) with (Z.max a b + 1) by lia;
  pose proof (Z.pow_le_mono_r 2 a (b - 1)); pose proof (Z.pow_le_mono_r 2 b (a - 1)); lia.

Lemma addWidth_transfers : transfers addWidth Z.add.
Proof. by_ext addWidth; arithmetic a b. Qed.

Lemma subWidth_transfers : transfers subWidth Z.sub.
Proof. by_ext subWidth; arithmetic a b. Qed.

Lemma mulWidth_transfers : transfers mulWidth Z.mul.
Proof.
  by_ext mulWidth; unfold fits in *; bounds a b.
  - rewrite Z.pow_add_r by lia. nia.
  - replace (a + b - 1) with (a + (b - 1)) by lia. rewrite Z.pow_add_r by lia. nia.
  - replace (b + a - 1) with ((a - 1) + b) by lia. rewrite Z.pow_add_r by lia. nia.
  - replace (a + b - 1) with (1 + (a - 1) + (b - 1)) by lia. rewrite !Z.pow_add_r by lia. change (2 ^ 1) with 2. nia.
Qed.

(** Bitwise operations on numbers that fit. *)
Ltac widen := first [eapply fits_mono; [|eassumption]; lia|eapply fits_signed; [|eassumption]; lia].
Ltac bitwise H := apply H; [lia|widen..].

Lemma fits_land_r w x y : 0 < w → fits true w y → fits true w (Z.land x y).
Proof. rewrite Z.land_comm. apply fits_land_unsigned. Qed.

Lemma andWidth_transfers : transfers andWidth Z.land.
Proof.
  by_ext andWidth.
  - rewrite Z.min_r by lia. bitwise fits_land_r.
  - rewrite Z.min_r by lia. bitwise fits_land_unsigned.
  - destruct (Z.min_spec a b) as [[_ ->]|[_ ->]]; [bitwise fits_land_unsigned|bitwise fits_land_r].
  - bitwise fits_land_unsigned.
  - bitwise fits_land_r.
  - bitwise fits_land.
Qed.

Lemma orWidth_transfers_of f :
  (∀ z w x y, 0 < w → fits z w x → fits z w y → fits z w (f x y)) → transfers orWidth f.
Proof. intros Hf. by_ext orWidth; bitwise Hf. Qed.

(** * Operations *)

Section Ops.
Context `{AL : APIntLaws}.

Lemma add_computes : computes AddIOp Z.add.
Proof. intros w x y Hw. simpl. by rewrite wrapU_add_l. Qed.
Lemma sub_computes : computes SubIOp Z.sub.
Proof. intros w x y Hw. simpl. by rewrite wrapU_sub_l. Qed.
Lemma mul_computes : computes MulIOp Z.mul.
Proof. intros w x y Hw. simpl. by rewrite wrapU_mul_l. Qed.
Lemma and_computes : computes AndIOp Z.land.
Proof. intros w x y Hw. simpl. by rewrite wrapU_land by lia. Qed.
Lemma or_computes : computes OrIOp Z.lor.
Proof. intros w x y Hw. simpl. by rewrite wrapU_lor by lia. Qed.
Lemma xor_computes : computes XOrIOp Z.lxor.
Proof. intros w x y Hw. simpl. by rewrite wrapU_lxor by lia. Qed.

(** The operations that are the same at every width. *)
Definition function (k : OpKind) : option (Z → Z → Z) :=
  match k with
  | AddIOp => Some Z.add
  | SubIOp => Some Z.sub
  | MulIOp => Some Z.mul
  | AndIOp => Some Z.land
  | OrIOp => Some Z.lor
  | XOrIOp => Some Z.lxor
  | _ => None
  end.

Lemma function_ok k f : function k = Some f → computes k f ∧ ∃ T, fTransferOf k = Some T ∧ transfers T f.
Proof.
  destruct k; intros [= <-]; (split; [|eexists; split; [done|]]).
  - apply add_computes.
  - apply addWidth_transfers.
  - apply sub_computes.
  - apply subWidth_transfers.
  - apply mul_computes.
  - apply mulWidth_transfers.
  - apply and_computes.
  - apply andWidth_transfers.
  - apply or_computes.
  - apply orWidth_transfers_of, fits_lor.
  - apply xor_computes.
  - apply orWidth_transfers_of, fits_lxor.
Qed.

End Ops.
