(* ===== verification/WidthArith.v ===== *)
(** The patterns of the bitwidth optimization on additions, subtractions, products,
    bitwise operations, selections, comparisons, truncations and right shifts: the
    narrow operation, extended, is the result, and when only low bits are used the users
    cannot tell (OptimizeBitwidths.v). *)

From stdpp Require Import gmap.
From S2P Require Import LLVMInterface WidthNum WidthIR OptimizeBitwidths MinimalValues Prelude.

(** Users of a value that compute the same when it is [u]. *)
Definition indistinguishable `{APIntLib} (c : Circuit) (ρ : valuation) (v : Value) (u : Z) : Prop :=
  ∀ o, o ∈ getUsers c v →
    kind o = SinkOp ∨ kind o = TruncIOp ∧ ∀ r, r ∈ results o → sem TruncIOp [(width c v, u)] (width c r) = Some (ρ r).

Section Arith.
Context `{AL : APIntLaws}.
Context (c : Circuit) (Hwf : wf c) (ρ : valuation) (Hρ : consistent c ρ).

Lemma width_pos v : 0 < width c v.
Proof. apply Hwf. Qed.

(** * Extensions *)

Lemma denotes_holds W m x : denotes c ρ m x → minWidth m ≤ W → (extType m = NONE → minWidth m = W) →
  holds W (mkExtWidth (extType m) (minWidth m)) x.
Proof.
  intros (Hpos & _ & Hx & _) Hle HN. unfold zeroExtended in Hx. unfold holds. simpl.
  destruct (extType m); simpl in Hx; (split; [|lia]); [|done|done]. split; [auto|]. rewrite <-HN by done.
  destruct (isUnsignedInteger _); auto.
Qed.

Lemma holds_fits W X k x : X ≠ NONE → holds W (mkExtWidth X k) x → fits (bool_decide (X = ZEXT)) k x.
Proof. intros HX [Hx _]. by destruct X. Qed.

Lemma zeroExtended_of e X : X ≠ NONE → zeroExtended c (ofValue c e X) = bool_decide (X = ZEXT).
Proof. intros HX. by destruct X. Qed.

(** Bits of a number that fits, extended. *)
Lemma extended_ok e k x X W : 0 < k → 0 < W → exprWidth c e = k → eval c ρ e = Ok (wrapU k x) → X ≠ NONE →
  fits (bool_decide (X = ZEXT)) k x → eval c ρ (modBitWidth c (ofValue c e X) W) = Ok (wrapU W x).
Proof.
  intros Hk HW He Hx HX Hfits. apply modBitWidth_ok; [|done]. apply new_denotes with k; [done..|]. by rewrite zeroExtended_of.
Qed.

(** Bits, whatever the extension; the low bits stay. *)
Lemma extended_low e k u X W : 0 < k → 0 < W → exprWidth c e = k → 0 ≤ u < 2 ^ k → eval c ρ e = Ok u →
  ∃ u', eval c ρ (modBitWidth c (ofValue c e X) W) = Ok u' ∧ ∀ n, 0 ≤ n ≤ k → n ≤ W → wrapU n u' = wrapU n u.
Proof.
  intros Hk HW He Hu Hx. exists (wrapU W (num (zeroExtended c (ofValue c e X)) k u)).
  split; [|intros n Hn ?; by rewrite wrapU_le, wrapU_num by lia]. apply modBitWidth_ok; [|done].
  apply new_denotes with k; [done|done|by rewrite wrapU_num, wrapU_small by lia|by apply num_fits].
Qed.

(** * Users of low bits *)

Lemma usefulWidth_le w users m : usefulWidth c w users m = w ∨ default 0 m ≤ usefulWidth c w users m.
Proof.
  revert m. induction users as [|o users IH]; intros m; simpl; [right; lia|].
  destruct (kind o); auto. destruct (results o) as [|r [|? ?]]; auto. destruct (IH (Some (Z.max (default 0 m) (width c r)))); simpl in *; lia.
Qed.

Lemma usefulWidth_users w users m o : usefulWidth c w users m < w → o ∈ users →
  kind o = SinkOp ∨ kind o = TruncIOp ∧ ∃ r, results o = [r] ∧ width c r ≤ usefulWidth c w users m.
Proof.
  revert m. induction users as [|o' users IH]; intros m Hlt Ho; [by apply not_elem_of_nil in Ho|].
  simpl in *. destruct (kind o') eqn:Hk; try lia.
  - destruct (results o') as [|r [|? ?]] eqn:Hr; try lia. apply elem_of_cons in Ho as [-> |Ho]; [right|eauto].
    split; [done|]. exists r. split; [done|]. destruct (usefulWidth_le w users (Some (Z.max (default 0 m) (width c r)))); simpl in *; lia.
  - apply elem_of_cons in Ho as [-> |Ho]; [by left|eauto].
Qed.

Lemma useful_pos v : 0 < getUsefulResultWidth c v.
Proof.
  unfold getUsefulResultWidth. pose proof (width_pos v) as Hv. revert Hv. generalize (width c v) (getUsers c v) (@None Z).
  intros w users. induction users as [|o users IH]; intros m Hv; simpl; [lia|].
  destruct (kind o); auto. destruct (results o) as [|? [|? ?]]; auto.
Qed.

Lemma usefulWidth_bound w users m b : w ≤ b → 1 ≤ b → default 0 m ≤ b →
  (∀ o r, o ∈ users → kind o = TruncIOp → results o = [r] → width c r ≤ b) → usefulWidth c w users m ≤ b.
Proof using c.
  clear ρ Hρ Hwf AL. intros Hw H1. revert m. induction users as [|o users IH]; intros m Hm Hu; simpl; [lia|]. destruct (kind o) eqn:Hk; try done.
  - destruct (results o) as [|r [|? ?]] eqn:Hr; try done. pose proof (Hu o r ltac:(set_solver) Hk Hr). apply IH; [simpl; lia|]. intros o' r' Ho'. apply Hu. set_solver.
  - apply IH; [done|]. intros o' r' Ho'. apply Hu. set_solver.
Qed.

Lemma useful_le v : getUsefulResultWidth c v ≤ width c v.
Proof.
  pose proof (width_pos v). apply usefulWidth_bound; [done|lia|simpl; lia|]. intros o r Ho Hk Hr. apply list_elem_of_filter in Ho as [Hv Ho].
  destruct Hwf as [Htyped _]. specialize (Htyped o Ho). unfold wellTyped in Htyped. rewrite Hk, Hr in Htyped.
  destruct (operands o) as [|a [|? ?]]; try done. apply list_elem_of_singleton in Hv as <-. apply Htyped.
Qed.

(** A value with the same useful bits. *)
Lemma useful_indistinguishable v u : getUsefulResultWidth c v < width c v →
  wrapU (getUsefulResultWidth c v) u = wrapU (getUsefulResultWidth c v) (ρ v) → indistinguishable c ρ v u.
Proof.
  intros Hlt Hu o Ho. destruct (usefulWidth_users _ _ _ _ Hlt Ho) as [?|(Hk & r & Hr & Hle)]; [by left|right].
  split; [done|]. intros r' Hr'. rewrite Hr in Hr'. apply list_elem_of_singleton in Hr' as ->.
  apply list_elem_of_filter in Ho as [Hv Ho]. destruct Hwf as [Htyped _]. specialize (Htyped o Ho). unfold wellTyped in Htyped.
  pose proof (pure_results _ _ Hρ o r Ho) as Hs. rewrite Hk, Hr in *. destruct (operands o) as [|a [|? ?]]; try done.
  apply list_elem_of_singleton in Hv as <-. specialize (Hs eq_refl ltac:(by apply list_elem_of_singleton)).
  rewrite <-Hs. simpl. f_equal. pose proof (width_pos r). fold (getUsefulResultWidth c v) in Hle.
  rewrite <-(wrapU_le (width c r) (getUsefulResultWidth c v) u), Hu, wrapU_le by lia. done.
Qed.

(** * Operations that are the same at every width *)

Lemma narrow_width k m x n es : denotes c ρ m x → exprWidth c (New k es (exprType c (modBitWidth c m n))) = n.
Proof. intros Hm. change (exprWidth c (modBitWidth c m n) = n). by eapply modBitWidth_width. Qed.

Lemma narrow_ok k f lhs rhs x y n : computes k f → denotes c ρ lhs x → denotes c ρ rhs y → 0 < n →
  let newLhs := modBitWidth c lhs n in
  eval c ρ (New k [newLhs; modBitWidth c rhs n] (exprType c newLhs)) = Ok (wrapU n (f x y)).
Proof.
  intros Hk Hl Hr Hn. cbn zeta.
  rewrite (eval_new2 c ρ _ _ _ _ (wrapU n x) (wrapU n y)) by (eapply modBitWidth_ok; done).
  rewrite (modBitWidth_width _ _ _ _ _ Hl), (modBitWidth_width _ _ _ _ _ Hr).
  change (getDataBitWidth (exprType c (modBitWidth c lhs n))) with (exprWidth c (modBitWidth c lhs n)).
  by rewrite (modBitWidth_width _ _ _ _ _ Hl), Hk.
Qed.

(** Both operands of the operation, as numbers. *)
Lemma operands_ok o l r res_ f : o ∈ ops c → operands o = [l; r] → results o = [res_] → function (kind o) = Some f →
  ∃ x y, denotes c ρ (getMinimalValue c l) x ∧ denotes c ρ (getMinimalValue c r) y
    ∧ holds (width c res_) (mkExtWidth (extType (getMinimalValue c l)) (minWidth (getMinimalValue c l))) x
    ∧ holds (width c res_) (mkExtWidth (extType (getMinimalValue c r)) (minWidth (getMinimalValue c r))) y
    ∧ ρ res_ = wrapU (width c res_) (f x y).
Proof.
  intros Ho Hop Hres Hf. destruct (getMinimalValue_ok c Hwf ρ Hρ l) as (x & Hx & Hlx & Hwl & Hnl).
  destruct (getMinimalValue_ok c Hwf ρ Hρ r) as (y & Hy & Hry & Hwr & Hnr). exists x, y.
  destruct (function_ok _ _ Hf) as [Hcomp _]. destruct Hwf as [Htyped _]. specialize (Htyped o Ho).
  assert (isPure (kind o) = true) as Hpure by (by destruct (kind o)).
  assert (typeOf c l = typeOf c res_ ∧ typeOf c r = typeOf c res_) as [Hl Hr].
  { unfold wellTyped in Htyped. rewrite Hop, Hres in Htyped. destruct (kind o); try done; tauto. }
  unfold width in Hwl, Hwr, Hlx, Hry, Hnl, Hnr. rewrite Hl, Hr in *. fold (width c res_) in *.
  split; [done|]. split; [done|]. split; [by apply denotes_holds|]. split; [by apply denotes_holds|].
  pose proof (pure_results _ _ Hρ o res_ Ho Hpure) as Hs. rewrite Hres, Hop in Hs.
  specialize (Hs ltac:(by apply list_elem_of_singleton)). unfold args in Hs. simpl in Hs. unfold width in Hs.
  rewrite Hl, Hr, Hlx, Hry in Hs. fold (width c res_) in Hs. rewrite Hcomp in Hs by apply width_pos. by injection Hs as <-.
Qed.

Lemma single_forward o f T e r : o ∈ ops c → function (kind o) = Some f → fTransferOf (kind o) = Some T → results o = [r] →
  ArithSingleType c true T o = Some e → eval c ρ e = Ok (ρ r).
Proof.
  intros Ho Hf HT Hres He. unfold ArithSingleType in He. destruct (operands o) as [|a [|b [|? ?]]] eqn:Hop; try done.
  rewrite Hres in He. destruct (isInteger (typeOf c r)); [|done]. cbn zeta in He. simpl negb in He. cbv iota in He.
  destruct (operands_ok _ _ _ _ _ Ho Hop Hres Hf) as (x & y & Hx & Hy & HxW & HyW & ->).
  destruct (Z.leb_spec (width c r) (ew_bits (T (mkExtWidth (extType (getMinimalValue c a)) (minWidth (getMinimalValue c a)))
    (mkExtWidth (extType (getMinimalValue c b)) (minWidth (getMinimalValue c b)))))) as [|Hlt]; [done|]. injection He as <-.
  destruct (function_ok _ _ Hf) as (Hcomp & T' & HT' & Htrans). rewrite HT in HT'. injection HT' as <-.
  destruct (Htrans _ _ _ _ _ HxW HyW Hlt) as [Hext Hfits]. destruct (T _ _) as [X k]. simpl in *.
  pose proof Hfits as [_ Hk]. simpl in Hk. eapply (extended_ok _ k); [lia|apply width_pos|by eapply narrow_width| |done|by eapply holds_fits].
  eapply narrow_ok; [done..|lia].
Qed.

Lemma single_backward o f T e r : o ∈ ops c → function (kind o) = Some f → results o = [r] →
  ArithSingleType c false T o = Some e → ∃ u, eval c ρ e = Ok u ∧ indistinguishable c ρ r u.
Proof.
  intros Ho Hf Hres He. unfold ArithSingleType in He. destruct (operands o) as [|a [|b [|? ?]]] eqn:Hop; try done.
  rewrite Hres in He. destruct (isInteger (typeOf c r)); [|done]. cbn -[getUsefulResultWidth getMinimalValue] in He.
  destruct (operands_ok _ _ _ _ _ Ho Hop Hres Hf) as (x & y & Hx & Hy & _ & _ & Hr).
  destruct (Z.leb_spec (width c r) (getUsefulResultWidth c r)) as [|Hlt]; [done|]. injection He as <-.
  destruct (function_ok _ _ Hf) as (Hcomp & _). pose proof (useful_pos r) as Hu. set (k := getUsefulResultWidth c r) in *.
  exists (wrapU (width c r) (wrapU k (f x y))). split.
  - unfold modArithOp. eapply (extended_ok _ k); [done|apply width_pos|by eapply narrow_width| |done|].
    + rewrite wrapU_le by lia. by eapply narrow_ok.
    + simpl. apply wrapU_range. lia.
  - apply useful_indistinguishable; [done|]. fold k. rewrite !wrapU_le, Hr, wrapU_le by lia. done.
Qed.

End Arith.

Section Patterns.
Context `{AL : APIntLaws}.
Context (c : Circuit) (Hwf : wf c) (ρ : valuation) (Hρ : consistent c ρ).

Lemma width_bound v : 0 < width c v < 2 ^ 24.
Proof. apply Hwf. Qed.

(** What the operation that defines a result computes. *)
Lemma result_sem o r : o ∈ ops c → isPure (kind o) = true → results o = [r] →
  wellTyped c o ∧ sem (kind o) (args c ρ (operands o)) (width c r) = Some (ρ r).
Proof.
  intros Ho Hp Hr. split; [by apply Hwf|]. apply (pure_results _ _ Hρ o r Ho Hp). rewrite Hr. by apply list_elem_of_singleton.
Qed.

(** A minimal value that leaves bits out has an extension. *)
Lemma minimal_ext v x : denotes c ρ (getMinimalValue c v) x →
  (extType (getMinimalValue c v) = NONE → minWidth (getMinimalValue c v) = width c v) → minWidth (getMinimalValue c v) < width c v →
  extType (getMinimalValue c v) ≠ NONE ∧ fits (bool_decide (extType (getMinimalValue c v) = ZEXT)) (minWidth (getMinimalValue c v)) x.
Proof.
  intros (_ & _ & Hx & _) HN Hlt. assert (extType (getMinimalValue c v) ≠ NONE) as HX by (intros E; specialize (HN E); lia).
  split; [done|]. unfold zeroExtended in Hx. by destruct (extType (getMinimalValue c v)).
Qed.

(** * Selections *)

Lemma select_sem n cond x y :
  sem SelectOp [cond; (n, wrapU n x); (n, wrapU n y)] n = Some (wrapU n (if snd cond =? 1 then x else y)).
Proof. destruct cond as [m s]. simpl. by destruct (s =? 1). Qed.

Lemma narrow_select_ok cond lhs rhs x y n : denotes c ρ lhs x → denotes c ρ rhs y → 0 < n →
  let newLhs := modBitWidth c lhs n in
  eval c ρ (New SelectOp [Old cond; newLhs; modBitWidth c rhs n] (exprType c newLhs)) = Ok (wrapU n (if ρ cond =? 1 then x else y)).
Proof.
  intros Hl Hr Hn. cbn zeta. cbn [eval mapM bind]. rewrite (modBitWidth_ok c ρ _ _ n Hl Hn), (modBitWidth_ok c ρ _ _ n Hr Hn).
  cbn [bind]. rewrite (modBitWidth_width _ _ _ _ _ Hl), (modBitWidth_width _ _ _ _ _ Hr).
  change (getDataBitWidth (exprType c (modBitWidth c lhs n))) with (exprWidth c (modBitWidth c lhs n)).
  rewrite (modBitWidth_width _ _ _ _ _ Hl). by rewrite (select_sem n (exprWidth c (Old cond), ρ cond)).
Qed.

Lemma select_operands o cond t f r : o ∈ ops c → kind o = SelectOp → operands o = [cond; t; f] → results o = [r] →
  typeOf c t = typeOf c r ∧ typeOf c f = typeOf c r ∧ ρ r = if ρ cond =? 1 then ρ t else ρ f.
Proof.
  intros Ho Hk Hop Hr. destruct (result_sem o r Ho ltac:(by rewrite Hk) Hr) as [Ht Hs]. unfold wellTyped in Ht.
  rewrite Hk, Hop, Hr in *. simpl in Hs. injection Hs as <-. tauto.
Qed.

Lemma select_forward o r e : o ∈ ops c → kind o = SelectOp → results o = [r] → ArithSelect c true o = Some e → eval c ρ e = Ok (ρ r).
Proof.
  intros Ho Hk Hres He. unfold ArithSelect in He. destruct (operands o) as [|s [|t [|f [|? ?]]]] eqn:Hop; try done.
  rewrite Hres in He. destruct (isInteger (typeOf c r)); [|done]. cbn -[getMinimalValue] in He.
  destruct (select_operands _ _ _ _ _ Ho Hk Hop Hres) as (Ht & Hf & ->).
  destruct (getMinimalValue_ok c Hwf ρ Hρ t) as (x & Hx & Hlx & Hwl & Hnl). destruct (getMinimalValue_ok c Hwf ρ Hρ f) as (y & Hy & Hly & Hwr & Hnr).
  destruct (Z.leb_spec (width c r) (Z.max (minWidth (getMinimalValue c t)) (minWidth (getMinimalValue c f)))) as [|Hlt]; [done|].
  unfold width in Hlx, Hly, Hwl, Hnl, Hwr, Hnr. rewrite Ht, Hf in *. fold (width c r) in *.
  destruct (minimal_ext t x Hx) as [HX Hfx]; [unfold width; by rewrite Ht|unfold width; rewrite Ht; fold (width c r); lia|].
  destruct (minimal_ext f y Hy) as [HY Hfy]; [unfold width; by rewrite Hf|unfold width; rewrite Hf; fold (width c r); lia|].
  pose proof Hx as (Hpos & _). pose proof Hy as (Hpos' & _).
  set (n := Z.max (minWidth (getMinimalValue c t)) (minWidth (getMinimalValue c f))) in *.
  assert (extType (getMinimalValue c t) = extType (getMinimalValue c f)) as HXY.
  { by destruct (extType (getMinimalValue c t)), (extType (getMinimalValue c f)). }
  destruct (_ || _); [done|]. injection He as <-. rewrite Hlx, Hly.
  replace (if ρ s =? 1 then wrapU (width c r) x else wrapU (width c r) y) with (wrapU (width c r) (if ρ s =? 1 then x else y)) by (by destruct (ρ s =? 1)).
  apply (extended_ok c ρ _ n); [lia|apply width_bound|by eapply (narrow_width c ρ)| |done|].
  - apply narrow_select_ok; [done|done|lia].
  - rewrite <-HXY in Hfy. destruct (ρ s =? 1); eapply fits_mono; try eassumption; lia.
Qed.

Lemma select_backward o r e : o ∈ ops c → kind o = SelectOp → results o = [r] → ArithSelect c false o = Some e →
  ∃ u, eval c ρ e = Ok u ∧ indistinguishable c ρ r u.
Proof.
  intros Ho Hk Hres He. unfold ArithSelect in He. destruct (operands o) as [|s [|t [|f [|? ?]]]] eqn:Hop; try done.
  rewrite Hres in He. destruct (isInteger (typeOf c r)); [|done]. cbn -[getMinimalValue getUsefulResultWidth] in He.
  destruct (select_operands _ _ _ _ _ Ho Hk Hop Hres) as (Ht & Hf & Hr).
  destruct (getMinimalValue_ok c Hwf ρ Hρ t) as (x & Hx & Hlx & _). destruct (getMinimalValue_ok c Hwf ρ Hρ f) as (y & Hy & Hly & _).
  destruct (Z.leb_spec (width c r) (getUsefulResultWidth c r)) as [|Hlt]; [done|].
  destruct (_ || _); [done|]. injection He as <-. pose proof (useful_pos c Hwf r) as Hu. set (n := getUsefulResultWidth c r) in *.
  destruct (extended_low c ρ _ n _ (extType (getMinimalValue c t)) (width c r) Hu (proj1 (width_bound r))
    (narrow_width c ρ SelectOp _ x n [Old s; modBitWidth c (getMinimalValue c t) n; modBitWidth c (getMinimalValue c f) n] Hx)
    (wrapU_range n _ ltac:(lia)) (narrow_select_ok s _ _ x y n Hx Hy Hu)) as (u & He & Hlow).
  exists u. split; [done|]. apply useful_indistinguishable; [done..|]. fold n. rewrite Hlow by lia. rewrite wrapU_le by lia.
  rewrite Hr, Hlx, Hly. unfold width. rewrite Ht, Hf. fold (width c r). destruct (ρ s =? 1); by rewrite wrapU_le by lia.
Qed.

(** * Truncations *)

Lemma trunc_ok o r e : o ∈ ops c → kind o = TruncIOp → results o = [r] → ArithExtToTruncOpt c o = Some e → eval c ρ e = Ok (ρ r).
Proof.
  intros Ho Hk Hres He. unfold ArithExtToTruncOpt in He. destruct (operands o) as [|v [|? ?]] eqn:Hop; try done. rewrite Hres in He.
  destruct (result_sem o r Ho ltac:(by rewrite Hk) Hres) as [Ht Hs]. unfold wellTyped in Ht. rewrite Hk, Hop, Hres in *.
  destruct (decide _); [done|]. destruct (_ =? _); [done|]. injection He as <-. pose proof (width_bound r).
  destruct (getMinimalValue_ok c Hwf ρ Hρ v) as (x & Hx & Hl & _). rewrite (modBitWidth_ok _ _ _ _ _ Hx) by lia.
  simpl in Hs. injection Hs as <-. by rewrite Hl, wrapU_le by (destruct Ht as (_ & _ & ?); lia).
Qed.

(** * Comparisons *)

Lemma compares_order p n w x y : 0 < n ≤ w →
  (fits false n x ∧ fits false n y) ∨ (isSignedComparison p = false ∧ fits true n x ∧ fits true n y) →
  compares p n (wrapU n x) (wrapU n y) = compares p w (wrapU w x) (wrapU w y).
Proof.
  intros Hn Hxy. assert ((wrapU n x ?= wrapU n y) = (wrapU w x ?= wrapU w y)) as Ho by (apply wrapU_order; tauto).
  assert (isSignedComparison p = true →
    wrapS n (wrapU n x) = x ∧ wrapS n (wrapU n y) = y ∧ wrapS w (wrapU w x) = x ∧ wrapS w (wrapU w y) = y) as Hs.
  { intros Hp. destruct Hxy as [[Hx Hy]|[? _]]; [|congruence].
    rewrite !fits_wrapS; try done; try lia; eapply fits_mono; try eassumption; lia. }
  destruct p; simpl in *; try (destruct (Hs eq_refl) as (-> & -> & -> & ->); done);
    unfold Z.ltb, Z.leb; rewrite ?Z.eqb_compare; rewrite ?(Z.compare_antisym (wrapU n x)), ?(Z.compare_antisym (wrapU w x)), ?Ho; done.
Qed.

Lemma cmpWidth_fits p W l r x y : holds W l x → holds W r y → cmpWidth p l r < W →
  let n := cmpWidth p l r in
  0 < n ∧ ((fits false n x ∧ fits false n y) ∨ (isSignedComparison p = false ∧ fits true n x ∧ fits true n y)).
Proof.
  destruct l as [el a], r as [er b]. intros [Hx Ha] [Hy Hb]. unfold cmpWidth. simpl ew_bits in *. simpl ew_ext in *.
  destruct el, er; cbn -[fits] in *; decide_ext; cbn -[fits]; destruct (isSignedComparison p); cbn -[fits];
    try match goal with |- context [if ?b then _ else _] => let E := fresh "E" in destruct b eqn:E; zify_bools end;
    intros Hlt; try lia; (split; [lia|]);
    solve [left; split; widen|right; split; [done|split; widen]].
Qed.

Lemma cmp_forward o r e : o ∈ ops c → results o = [r] → ArithCmpFW c o = Some e → eval c ρ e = Ok (ρ r).
Proof.
  intros Ho Hres He. unfold ArithCmpFW in He. destruct (kind o) eqn:Hk; try done.
  destruct (operands o) as [|a [|b [|? ?]]] eqn:Hop; try done. rewrite Hres in He.
  destruct (result_sem o r Ho ltac:(by rewrite Hk) Hres) as [Ht Hs]. unfold wellTyped in Ht. rewrite Hk, Hop, Hres in *.
  destruct Ht as (_ & Hab & Hr). cbn [args map sem] in Hs. injection Hs as <-.
  destruct (getMinimalValue_ok c Hwf ρ Hρ a) as (x & Hx & -> & Hwl & Hnl). destruct (getMinimalValue_ok c Hwf ρ Hρ b) as (y & Hy & -> & Hwr & Hnr).
  replace (width c b) with (width c a) in * by (unfold width; by rewrite Hab).
  pose proof (denotes_holds c ρ (width c a) _ x Hx Hwl Hnl) as Hxh. pose proof (denotes_holds c ρ (width c a) _ y Hy Hwr Hnr) as Hyh.
  cbn zeta in He. set (n := cmpWidth _ _ _) in *. destruct (Z.leb_spec (width c a) n) as [|Hlt]; [done|]. injection He as <-.
  destruct (cmpWidth_fits predicate _ _ _ _ _ Hxh Hyh Hlt) as [Hn Hfits]. fold n in Hn, Hfits.
  rewrite (eval_new2 c ρ _ _ _ _ (wrapU n x) (wrapU n y)) by (eapply modBitWidth_ok; done).
  rewrite (modBitWidth_width _ _ _ _ _ Hx). cbn [sem of_option]. by rewrite (compares_order _ n (width c a)) by (done || lia).
Qed.

End Patterns.

Section Shifts.
Context `{AL : APIntLaws}.
Context (c : Circuit) (Hwf : wf c) (ρ : valuation) (Hρ : consistent c ρ).

Lemma width_64 v : 0 < width c v < 2 ^ 64.
Proof. pose proof (width_bound c Hwf v). lia. Qed.

(** * Constants *)

Lemma constantDef_ok v k ctrl : constantDef c v = Some (k, ctrl) → ρ v = apint_uval k ∧ apint_width k = width c v.
Proof.
  unfold constantDef. destruct (getDefiningOp c v) as [[i o]|] eqn:Hd; [|done]. apply getDefiningOp_in in Hd as [Ho Hv].
  pose proof (pure_results _ _ Hρ o v Ho) as Hs. destruct Hwf as [Htyped _]. specialize (Htyped o Ho). unfold wellTyped in Htyped.
  destruct (kind o); try done. destruct (operands o) as [|a [|? ?]]; try done. intros [= -> ->].
  destruct (results o) as [|r [|? ?]]; try done. apply list_elem_of_singleton in Hv as ->.
  specialize (Hs eq_refl ltac:(by apply list_elem_of_singleton)). simpl in Hs. injection Hs as <-. split; [done|apply Htyped].
Qed.

Lemma newConstant_ok t z ctrl : 0 < getDataBitWidth t → 0 ≤ z < 2 ^ 64 → z < 2 ^ getDataBitWidth t →
  eval c ρ (newConstant t z ctrl) = Ok z.
Proof. intros Ht Hz Hlt. simpl. by rewrite apint_make_unsigned by lia. Qed.

(** A shift amount, at a width that holds it. *)
Lemma amount_ok v n : 0 < n ≤ width c v → ρ v < n → eval c ρ (modBitWidth c (ofValue c (Old v) NONE) n) = Ok (ρ v).
Proof.
  intros Hn Hs. pose proof (old_denotes c Hwf ρ Hρ v NONE) as Hv. rewrite (modBitWidth_ok c ρ _ _ n Hv) by lia. f_equal.
  pose proof (in_range _ _ Hρ v). assert (n < 2 ^ n) by (apply Z.pow_gt_lin_r; lia). rewrite wrapU_num by lia. apply wrapU_small. lia.
Qed.

(** What a shift shifts. *)
Lemma shift_sem o a b r : o ∈ ops c → kind o = ShRUIOp ∨ kind o = ShRSIOp → operands o = [a; b] → results o = [r] →
  width c a = width c r ∧ width c b = width c r
  ∧ ∃ x, denotes c ρ (getMinimalValue c a) x ∧ ρ a = wrapU (width c r) x ∧ sem (kind o) [(width c r, ρ a); (width c r, ρ b)] (width c r) = Some (ρ r)
    ∧ ρ b < width c r
    ∧ (minWidth (getMinimalValue c a) < width c r → extType (getMinimalValue c a) ≠ NONE
        ∧ fits (bool_decide (extType (getMinimalValue c a) = ZEXT)) (minWidth (getMinimalValue c a)) x).
Proof.
  intros Ho Hk Hop Hres. destruct (result_sem c Hwf ρ Hρ o r Ho ltac:(by destruct Hk as [-> | ->]) Hres) as [Ht Hs].
  assert (typeOf c a = typeOf c r ∧ typeOf c b = typeOf c r) as [Ha Hb].
  { unfold wellTyped in Ht. rewrite Hop, Hres in Ht. destruct Hk as [Hk|Hk]; rewrite Hk in Ht; tauto. }
  assert (width c a = width c r ∧ width c b = width c r) as [Hwa Hwb] by (unfold width; by rewrite Ha, Hb).
  split; [done|]. split; [done|]. destruct (getMinimalValue_ok c Hwf ρ Hρ a) as (x & Hx & Hl & Hle & HN). rewrite Hwa in *.
  exists x. rewrite Hop in Hs. cbn [args map] in Hs. rewrite Hwa, Hwb in Hs. split; [done|]. split; [done|]. split; [done|]. split.
  - destruct Hk as [Hk|Hk]; rewrite Hk in Hs; simpl in Hs; destruct (Z.ltb_spec (ρ b) (width c r)); done.
  - intros Hlt. apply (minimal_ext c ρ); rewrite ?Hwa; done.
Qed.

(** The constant a shift is by. *)
Lemma shift_constant b k ctrl : constantDef c b = Some (k, ctrl) →
  getZExtValue k = ρ b ∨ 2 ^ 64 ≤ ρ b.
Proof.
  intros Hk. destruct (constantDef_ok _ _ _ Hk) as [-> _]. pose proof (apint_uval_range k).
  destruct (Z.lt_ge_cases (apint_uval k) (2 ^ 64)); [left; by apply getZExtValue_ok|by right].
Qed.

(** A shift at the width of the minimal value of what is shifted. *)
Lemma narrow_shift_ok k m b x n s y : denotes c ρ m x → 0 < n ≤ width c b → ρ b = s → s < n →
  sem k [(n, wrapU n x); (n, s)] n = Some y →
  let newLhs := modBitWidth c m n in
  eval c ρ (New k [newLhs; modBitWidth c (ofValue c (Old b) NONE) n] (exprType c newLhs)) = Ok y.
Proof.
  intros Hm Hn Hs Hlt Hsem. cbn zeta.
  rewrite (eval_new2 c ρ _ _ _ _ (wrapU n x) s) by (try (apply modBitWidth_ok; [done|lia]); rewrite <-Hs; apply amount_ok; lia).
  rewrite (modBitWidth_width _ _ _ _ _ Hm). pose proof (old_denotes c Hwf ρ Hρ b NONE) as Hb. rewrite (modBitWidth_width _ _ _ _ _ Hb).
  change (getDataBitWidth (exprType c (modBitWidth c m n))) with (exprWidth c (modBitWidth c m n)).
  by rewrite (modBitWidth_width _ _ _ _ _ Hm), Hsem.
Qed.

(** A shift of the minimal value itself. *)
Lemma minimal_shift_ok k m x e s y : denotes c ρ m x → eval c ρ e = Ok s → exprWidth c e = minWidth m →
  sem k [(minWidth m, wrapU (minWidth m) x); (minWidth m, s)] (minWidth m) = Some y →
  eval c ρ (binary c k (materializeValue m) e) = Ok y ∧ exprWidth c (binary c k (materializeValue m) e) = minWidth m.
Proof.
  intros (_ & Hw & _ & Hm) He Hwe Hsem. unfold binary. split; [|exact Hw].
  rewrite (eval_new2 c ρ _ _ _ _ _ _ Hm He), Hw, Hwe. change (getDataBitWidth (exprType c (materializeValue m))) with (exprWidth c (materializeValue m)).
  by rewrite Hw, Hsem.
Qed.

Lemma sign_amount n : 0 < n → n < 2 ^ 64 → 0 ≤ n - 1 < 2 ^ 64 ∧ n - 1 < 2 ^ n.
Proof. intros Hn ?. pose proof (Z.pow_gt_lin_r 2 n). lia. Qed.

Lemma shrsi_forward o r e : o ∈ ops c → kind o = ShRSIOp → results o = [r] → ArithShrSIFW c o = Some e → eval c ρ e = Ok (ρ r).
Proof.
  intros Ho Hk Hres He. unfold ArithShrSIFW in He. destruct (operands o) as [|a [|b [|? ?]]] eqn:Hop; try done. rewrite Hres in He.
  destruct (shift_sem o a b r Ho (or_intror Hk) Hop Hres) as (Hwa & Hwb & x & Hx & Ha & Hs & Hb & HX). pose proof (width_64 r) as HW.
  cbn zeta in He. set (n := minWidth (getMinimalValue c a)) in *.
  destruct (Z.leb_spec (width c r) n) as [|Hlt]; [done|]. destruct (HX Hlt) as [HN Hfits].
  destruct (constantDef c b) as [[k ctrl]|] eqn:Hcst; [|done]. destruct (constantDef_ok _ _ _ Hcst) as [Hkv _]. pose proof (in_range _ _ Hρ b) as Hb0.
  destruct (apint_uge k (width c r)); [done|]. destruct (decide _) as [|HZ]; [done|]. rewrite bool_decide_eq_false_2 in Hfits by done.
  pose proof Hx as (Hn & _). fold n in Hn. rewrite Hk in Hs. simpl in Hs. destruct (Z.ltb_spec (ρ b) (width c r)); [|done]. injection Hs as <-.
  assert (wrapS (width c r) (ρ a) = x) as -> by (rewrite Ha; apply fits_wrapS; [lia|]; eapply fits_mono; [|exact Hfits]; lia).
  rewrite apint_ult_ok, <-Hkv in He by lia. destruct (Z.ltb_spec (ρ b) n) as [Hsn|Hsn]; injection He as <-.
  - unfold modArithOp. rewrite Hk. apply (extended_ok c ρ _ n); [done|lia|by eapply (narrow_width c ρ)| |done|].
    + eapply narrow_shift_ok; [exact Hx|lia|reflexivity|lia|]. simpl. replace (ρ b <? n) with true by lia. rewrite fits_wrapS; [done|lia|done].
    + eapply (fits_mono false (n - ρ b)); [lia|apply fits_shift; [lia|done]].
  - destruct (sign_amount n Hn ltac:(lia)) as (Hn1 & Hn2). pose proof (newConstant_ok (minimalType (getMinimalValue c a)) (n - 1) ctrl Hn Hn1 Hn2) as Hc.
    destruct (minimal_shift_ok ShRSIOp _ _ _ _ (wrapU n (Z.shiftr x (n - 1))) Hx Hc eq_refl) as [He Hw].
    { fold n. simpl. replace (n - 1 <? n) with true by lia. by rewrite fits_wrapS by first [done|lia]. }
    rewrite (eval_new1 c ρ _ _ _ _ He), Hw. cbn [sem of_option]. fold n. fold (width c r).
    assert (fits false n (Z.shiftr x (n - 1))) as Hf by (eapply fits_mono; [|apply (fits_sign n x Hn Hfits)]; lia).
    rewrite fits_wrapS by done. by rewrite (shiftr_sign n (ρ b) x) by first [done|lia].
Qed.

(** The low bits of a shifted value: truncated, extended with the sign, and with
    zeros. *)
Lemma extended_shift e n k w t x : eval c ρ e = Ok (wrapU k x) → 0 < k → k ≤ w → 0 < w → exprWidth c e = n → fits false k x → w ≤ getDataBitWidth t →
  eval c ρ (New ExtUIOp [New ExtSIOp [New TruncIOp [e] (integerChannel k)] (integerChannel w)] t) = Ok (wrapU w x).
Proof.
  intros He Hk Hkw Hw Hn Hx Ht. assert (eval c ρ (New TruncIOp [e] (integerChannel k)) = Ok (wrapU k x)) as He1.
  { rewrite (eval_new1 c ρ _ _ _ _ He). simpl. by rewrite wrapU_le by lia. }
  assert (eval c ρ (New ExtSIOp [New TruncIOp [e] (integerChannel k)] (integerChannel w)) = Ok (wrapU w x)) as He2.
  { rewrite (eval_new1 c ρ _ _ _ _ He1). change (exprWidth c (New TruncIOp [e] (integerChannel k))) with k. simpl. by rewrite fits_wrapS. }
  rewrite (eval_new1 c ρ _ _ _ _ He2). simpl. f_equal. apply wrapU_small. pose proof (wrapU_range w x ltac:(lia)).
  pose proof (Z.pow_le_mono_r 2 w (getDataBitWidth t)). lia.
Qed.

Lemma shrui_forward o r e : o ∈ ops c → kind o = ShRUIOp → results o = [r] → ArithShrUIFW c o = Some e → eval c ρ e = Ok (ρ r).
Proof.
  intros Ho Hk Hres He. unfold ArithShrUIFW in He. destruct (operands o) as [|a [|b [|? ?]]] eqn:Hop; try done. rewrite Hres in He.
  destruct (shift_sem o a b r Ho (or_introl Hk) Hop Hres) as (Hwa & Hwb & x & Hx & Ha & Hs & Hb & HX). pose proof (width_64 r) as HW.
  cbn zeta in He. set (n := minWidth (getMinimalValue c a)) in *.
  destruct (Z.leb_spec (width c r) n) as [|Hlt]; [done|]. destruct (HX Hlt) as [HN Hfits].
  destruct (constantDef c b) as [[k ctrl]|] eqn:Hcst; [|done]. destruct (constantDef_ok _ _ _ Hcst) as [Hkv _]. pose proof (in_range _ _ Hρ b) as Hb0.
  destruct (apint_uge k (width c r)); [done|]. pose proof Hx as (Hn & _). fold n in Hn.
  rewrite Hk in Hs. simpl in Hs. destruct (Z.ltb_spec (ρ b) (width c r)); [|done]. injection Hs as <-. rewrite Ha.
  rewrite apint_ult_ok, apint_uge_ok, <-Hkv in He by lia. assert (getZExtValue k = ρ b) as Hz by (rewrite Hkv; apply getZExtValue_ok; lia).
  rewrite Hz in He. destruct (decide _) as [HZ|HZ].
  - rewrite bool_decide_eq_true_2 in Hfits by done. assert (wrapU (width c r) x = x) as ->.
    { apply wrapU_small. apply (fits_mono true n (width c r)) in Hfits; [exact Hfits|lia]. }
    destruct (Z.leb_spec n (ρ b)) as [Hsn|Hsn]; injection He as <-.
    + rewrite (shiftr_unsigned n) by first [done|lia]. apply newConstant_ok; [unfold width in HW; lia|lia|]. apply Z.pow_pos_nonneg; unfold width in HW; lia.
    + unfold modArithOp. rewrite Hk. assert (fits true n (Z.shiftr x (ρ b))) as Hf by (eapply (fits_mono true (n - ρ b)); [lia|apply fits_shift; [lia|done]]).
      assert (wrapU (width c r) (Z.shiftr x (ρ b)) = Z.shiftr x (ρ b)) as <-.
      { apply wrapU_small. apply (fits_mono true n (width c r)) in Hf; [exact Hf|lia]. }
      apply (extended_ok c ρ _ n); [done|lia|by eapply (narrow_width c ρ)| |done|done].
      eapply narrow_shift_ok; [exact Hx|lia|reflexivity|lia|]. simpl. replace (ρ b <? n) with true by lia.
      rewrite (wrapU_small n x), (wrapU_small n) by done. done.
  - rewrite bool_decide_eq_false_2 in Hfits by done. rewrite shiftr_wrapU by lia.
    destruct (Z.ltb_spec (ρ b) n) as [Hsn|Hsn]; injection He as <-.
    + destruct (minimal_shift_ok ShRUIOp _ _ _ _ (wrapU (n - ρ b) (Z.shiftr x (ρ b))) Hx (amount_ok b n ltac:(lia) ltac:(lia))) as [He Hw].
      { fold n. apply (modBitWidth_width c ρ _ _ _ (old_denotes c Hwf ρ Hρ b NONE)). }
      { fold n. simpl. replace (ρ b <? n) with true by lia. by rewrite shiftr_wrapU by lia. }
      fold n in He, Hw. apply (extended_shift _ n (n - ρ b)); [done|lia|lia|lia|done|apply fits_shift; [lia|done]|change (width c r - ρ b ≤ width c r); lia].
    + destruct (sign_amount n Hn ltac:(lia)) as (Hn1 & Hn2). pose proof (newConstant_ok (minimalType (getMinimalValue c a)) (n - 1) ctrl Hn Hn1 Hn2) as Hc.
      destruct (minimal_shift_ok ShRUIOp _ _ _ _ (wrapU 1 (Z.shiftr x (n - 1))) Hx Hc eq_refl) as [He Hw].
      { fold n. simpl. replace (n - 1 <? n) with true by lia. rewrite shiftr_wrapU by lia. by replace (n - (n - 1)) with 1 by lia. }
      rewrite (shiftr_sign n (ρ b) x) by first [done|lia].
      fold n in He, Hw. apply (extended_shift _ n 1); [done|lia|lia|lia|done|by apply fits_sign|change (width c r - ρ b ≤ width c r); lia].
Qed.

(** * Backwards *)

Lemma materialized_denotes m x : denotes c ρ m x → denotes c ρ (ofValue c (materializeValue m) (extType m)) x.
Proof. intros (Hp & Hw & Hx & He). unfold denotes. change (minWidth (ofValue c (materializeValue m) (extType m))) with (exprWidth c (materializeValue m)). by rewrite Hw. Qed.

(** A small value is the bits of its minimal value. *)
Lemma small_minimal v y : denotes c ρ (getMinimalValue c v) y → ρ v = wrapU (width c v) y → minWidth (getMinimalValue c v) ≤ width c v →
  (extType (getMinimalValue c v) = NONE → minWidth (getMinimalValue c v) = width c v) → ρ v < width c v →
  wrapU (minWidth (getMinimalValue c v)) y = ρ v.
Proof.
  intros Hy Hv Hle HN Hlt. pose proof Hy as (Hpos & _). destruct (Z.eq_dec (minWidth (getMinimalValue c v)) (width c v)) as [->|Hne]; [done|].
  destruct (minimal_ext c ρ v y Hy HN ltac:(lia)) as [HX Hfits]. pose proof (pow_half (width c v) ltac:(lia)) as Hp.
  assert (width c v ≤ 2 ^ (width c v - 1)) by (pose proof (Z.pow_gt_lin_r 2 (width c v - 1)); lia). pose proof (fits_mono _ (minWidth (getMinimalValue c v)) (width c v) _ ltac:(lia) Hfits) as HfW.
  destruct (bool_decide _).
  - unfold fits in *. by rewrite Hv, !wrapU_small.
  - rewrite Hv. rewrite (wrapU_signed (width c v)), (wrapU_signed (minWidth _)) by first [lia|done].
    destruct (Z.ltb_spec y 0); [|done]. exfalso. rewrite Hv, wrapU_signed in Hlt by first [lia|done]. destruct (Z.ltb_spec y 0); [|lia].
    unfold fits in *. lia.
Qed.

Lemma constant_bits m y k : denotes c ρ m y → getConstantOrNone m = Some k → apint_uval k = wrapU (minWidth m) y.
Proof.
  intros (_ & _ & _ & He). unfold getConstantOrNone, materializeValue in *. destruct (repr m); intros [= <-].
  simpl in He. by injection He.
Qed.

(** The low bits of a right shift. *)
Lemma shift_low k n w s x u y y' : k = ShRUIOp ∨ k = ShRSIOp → 0 ≤ s → 0 ≤ u → u + s ≤ n → n ≤ w →
  sem k [(n, wrapU n x); (n, s)] n = Some y → sem k [(w, wrapU w x); (w, s)] w = Some y' → wrapU u y = wrapU u y'.
Proof.
  intros Hk Hs Hu Hn Hw. destruct Hk as [-> | ->]; simpl; destruct (s <? n), (s <? w); try done; intros [= <-] [= <-].
  - apply (shiftr_low u s n); [lia..|]. by rewrite !wrapU_le by lia.
  - rewrite !wrapU_le by lia. apply (shiftr_low u s n); [lia..|]. rewrite !wrapU_wrapS by lia. by rewrite !wrapU_le by lia.
Qed.

Lemma shift_range k n x s y : k = ShRUIOp ∨ k = ShRSIOp → 0 < n → 0 ≤ s → sem k [(n, wrapU n x); (n, s)] n = Some y → 0 ≤ y < 2 ^ n.
Proof.
  intros Hk Hn Hs. pose proof (wrapU_range n x ltac:(lia)) as Hr. destruct Hk as [-> | ->]; simpl; destruct (s <? n); try done; intros [= <-].
  - rewrite Z.shiftr_div_pow2 by done. split; [apply Z.div_pos; lia|]. apply Z.le_lt_trans with (wrapU n x); [|lia].
    apply Z.div_le_upper_bound; [lia|]. pose proof (Z.pow_pos_nonneg 2 s). nia.
  - apply wrapU_range. lia.
Qed.

Lemma shift_defined k n x s : k = ShRUIOp ∨ k = ShRSIOp → s < n → ∃ y, sem k [(n, wrapU n x); (n, s)] n = Some y.
Proof. intros [-> | ->] Hs; simpl; replace (s <? n) with true by lia; eauto. Qed.

Lemma useful_bound v : getUsefulResultWidth c v < 2 ^ 24.
Proof. pose proof (useful_le c Hwf v). pose proof (width_bound c Hwf v). lia. Qed.

Lemma shift_backward o r e : noSingleControlMerge c → o ∈ ops c → kind o = ShRUIOp ∨ kind o = ShRSIOp → results o = [r] →
  ArithShiftBW c o = Ok (Some e) → ∃ u, eval c ρ e = Ok u ∧ indistinguishable c ρ r u.
Proof.
  intros Hcm Ho Hk Hres He. unfold ArithShiftBW in He. destruct (operands o) as [|a [|b [|? ?]]] eqn:Hop; try done. rewrite Hres in He.
  destruct (shift_sem o a b r Ho Hk Hop Hres) as (Hwa & Hwb & x & Hx & Ha & Hs & Hb & _). pose proof (width_bound c Hwf r) as HW.
  unfold backtrackToMinimalValue in He. destruct (backtrack c b) as [b'|] eqn:Hbt; [|done]. cbn [bind] in He.
  destruct (backtrack_ok c Hwf ρ Hρ b b' Hcm Hbt) as [Hbv Hbt']. assert (width c b' = width c r) as Hwb' by (rewrite <-Hwb; unfold width; by rewrite Hbt').
  destruct (getMinimalValue_ok c Hwf ρ Hρ b') as (y & Hy & Hly & Hle & HN). rewrite Hwb' in *.
  destruct (getConstantOrNone (getMinimalValue c b')) as [cst|] eqn:Hcst; cbn zeta in He; [|destruct (Z.leb_spec (width c r) (width c r)); [done|lia]].
  pose proof (constant_bits _ _ _ Hy Hcst) as Hk0. pose proof (in_range _ _ Hρ b) as Hb0.
  rewrite (small_minimal b' y Hy) in Hk0 by (rewrite ?Hwb'; first [done|lia]). rewrite <-Hbv in *.
  rewrite getZExtValue_ok, Hk0 in He by lia. pose proof (useful_pos c Hwf r) as Hu.
  destruct (Z.leb_spec (width c r) (wrapU 32 (getUsefulResultWidth c r + ρ b))) as [|Hlt]; [done|]. injection He as <-.
  pose proof (useful_bound r) as HU. set (u := getUsefulResultWidth c r) in *. assert (wrapU 32 (u + ρ b) = u + ρ b) as Hn by (apply wrapU_small; lia). rewrite Hn in *. clear Hn.
  remember (u + ρ b) as n eqn:Hn.
  pose proof (materialized_denotes _ _ Hx) as Hx'. set (m := ofValue c _ _) in Hx' |- *.
  destruct (shift_defined (kind o) n x (ρ b) Hk ltac:(lia)) as (z & Hz). pose proof (shift_range (kind o) n x (ρ b) z Hk ltac:(lia) (proj1 Hb0) Hz) as Hzr.
  assert (eval c ρ (New (kind o) [modBitWidth c m n; modBitWidth c (getMinimalValue c b') n] (exprType c (modBitWidth c m n))) = Ok z) as Hez.
  { rewrite (eval_new2 c ρ _ _ _ _ (wrapU n x) (ρ b)); [|by apply modBitWidth_ok; [|lia]|].
    - rewrite (modBitWidth_width _ _ _ _ _ Hx'), (modBitWidth_width _ _ _ _ _ Hy).
      change (getDataBitWidth (exprType c (modBitWidth c m n))) with (exprWidth c (modBitWidth c m n)).
      by rewrite (modBitWidth_width _ _ _ _ _ Hx'), Hz.
    - rewrite (modBitWidth_ok c ρ _ _ n Hy) by lia. f_equal. rewrite <-(wrapU_le n (width c r)), <-Hly by lia.
      apply wrapU_small. pose proof (Z.pow_gt_lin_r 2 n). lia. }
  destruct (extended_low c ρ _ n z (extType (getMinimalValue c a)) (width c r) ltac:(lia) ltac:(lia)
    (narrow_width c ρ (kind o) _ x n [modBitWidth c m n; modBitWidth c (getMinimalValue c b') n] Hx') Hzr Hez) as (v & Hev & Hlow).
  exists v. split; [exact Hev|]. apply useful_indistinguishable; [done|done|fold u; lia|]. fold u. rewrite Hlow by lia.
  rewrite Ha in Hs. apply (shift_low (kind o) n (width c r) (ρ b) x u); try done; lia.
Qed.

End Shifts.
