(* ===== verification/WidthForward.v ===== *)
(** The patterns of the bitwidth optimization on operations that forward data, and on
    the indices of merges (OptimizeBitwidths.v). *)

From stdpp Require Import gmap.
From S2P Require Import LLVMInterface WidthNum WidthIR OptimizeBitwidths MinimalValues WidthArith Prelude.

Section Forward.
Context `{AL : APIntLaws}.

(** * The width of forwarded data *)

Lemma maxWidth_from ms w : w ≤ foldl (λ w m, Z.max w (minWidth m)) w ms ∧ ∀ m, m ∈ ms → minWidth m ≤ foldl (λ w m, Z.max w (minWidth m)) w ms.
Proof.
  revert w. induction ms as [|m ms IH]; intros w; simpl; [split; [lia|by intros m ?%not_elem_of_nil]|].
  destruct (IH (Z.max w (minWidth m))) as [Hw Hm]. split; [lia|]. intros m' [-> |Hm']%elem_of_cons; [lia|by apply Hm].
Qed.

Lemma maxWidth_le ms m : m ∈ ms → minWidth m ≤ maxWidth ms.
Proof. apply maxWidth_from. Qed.

(** The data fits in the width of the result, whatever the operand. *)
Lemma computeDataForwardResult_ok ms X n W m x : computeDataForwardResult ms = Ok (mkExtWidth X n) → n < W → m ∈ ms →
  (∀ m, m ∈ ms → extType m = NONE → minWidth m = W) → holds W (mkExtWidth (extType m) (minWidth m)) x →
  X ≠ NONE ∧ 0 < n ∧ fits (bool_decide (X = ZEXT)) n x.
Proof.
  intros He Hn Hm HN [Hx Hp]. simpl in Hp. pose proof (maxWidth_le ms) as Hmax. destruct ms as [|m0 ms']; [done|].
  unfold computeDataForwardResult, computeDataForwardExt in He. set (ms := m0 :: ms') in *.
  assert (maxWidth ms ≤ n) as Hle by (destruct (forallb _ ms); [|destruct (existsb _ ms)]; injection He as _ <-; lia).
  assert (∀ m, m ∈ ms → extType m ≠ NONE) as HnN by (intros m' Hm' E; specialize (HN m' Hm' E); specialize (Hmax m' Hm'); lia).
  pose proof (HnN m Hm) as HmN. pose proof (Hmax m Hm) as Hmw. destruct (forallb _ ms) eqn:Hall.
  - injection He as <- <-. rewrite forallb_forall in Hall.
    specialize (Hall m ltac:(by apply list_elem_of_In)). apply bool_decide_eq_true in Hall. split; [apply HnN; set_solver|].
    split; [lia|]. rewrite <-Hall. clear Hall. destruct (extType m); try done; (eapply fits_mono; [|exact Hx]; simpl; lia).
  - destruct (existsb _ ms) eqn:Hex; injection He as <- <-; (split; [done|]; split; [lia|]); simpl; destruct (extType m) eqn:Em; try done.
    + eapply fits_signed; [|exact Hx]. simpl. lia.
    + eapply fits_mono; [|exact Hx]. simpl. lia.
    + eapply fits_signed; [|exact Hx]. simpl. split; [lia|].
      destruct (Z.eq_dec (minWidth m) (maxWidth ms)) as [E|]; [|lia]. exfalso. apply not_true_iff_false in Hex. apply Hex.
      apply existsb_exists. exists m. split; [by apply list_elem_of_In|]. rewrite Em, E, Z.eqb_refl. by rewrite bool_decide_eq_true_2.
    + eapply fits_mono; [|exact Hx]. simpl. lia.
Qed.

Context (c : Circuit) (Hwf : wf c) (ρ : valuation) (Hρ : consistent c ρ).

(** The result that an operation forwards from a narrow operand. *)
Lemma forward_operand fw n v W :
  0 < n → (∀ x, denotes c ρ (getMinimalValue c v) x → fits (bool_decide (resultExt fw = ZEXT)) n x) → resultExt fw ≠ NONE → resultWidth fw = W →
  width c v = W → eval c ρ (newResult c fw (modBitWidth c (getMinimalValue c v) n)) = Ok (ρ v).
Proof.
  intros Hn Hfits HX HW Hv. destruct (getMinimalValue_ok c Hwf ρ Hρ v) as (x & Hx & Hl & _). rewrite Hl, Hv. unfold newResult. rewrite HW.
  apply (extended_ok c ρ _ n); [done|rewrite <-Hv; apply (width_bound c Hwf v)|by eapply modBitWidth_width|by apply modBitWidth_ok|done|by apply Hfits].
Qed.

(** Operands and results that carry data have one type. *)
Lemma data_types o v r : o ∈ ops c → isForwarder (kind o) = true → v ∈ getDataOperands o → r ∈ getDataResults o → typeOf c v = typeOf c r.
Proof.
  intros Ho Hf Hv Hr. destruct Hwf as [Htyped _]. specialize (Htyped o Ho). unfold wellTyped in Htyped.
  destruct (kind o); try done; by apply (Htyped eq_refl).
Qed.

(** C23.  When an operation that forwards data is made narrower, what replaces its result
    has the value of the operand that is forwarded, whichever that is. *)
Theorem data_forward_correct o fw i v e : o ∈ ops c → isForwarder (kind o) = true → HandshakeOptData c true o = Ok (Some fw) →
  getDataOperands o !! i = Some v → newDataOperands fw !! i = Some e → eval c ρ (newResult c fw e) = Ok (ρ v).
Proof.
  intros Ho Hf Hopt Hv He. unfold HandshakeOptData in Hopt. destruct (getDataResults o) as [|r rs] eqn:Hrs; [done|]. simpl in Hopt.
  destruct (isInteger (typeOf c r)); [|done]. simpl in Hopt. set (ms := map (getMinimalValue c) (getDataOperands o)) in *.
  destruct (computeDataForwardResult ms) as [[X n]|] eqn:Hw; [|done]. simpl in Hopt.
  destruct (Z.leb_spec (width c r) n) as [|Hlt]; [done|]. injection Hopt as <-.
  assert (∀ v, v ∈ getDataOperands o → width c v = width c r) as Hwidth.
  { intros v' Hv'. unfold width. f_equal. apply (data_types o); [done|done|done|rewrite Hrs; set_solver]. }
  assert (∀ x, denotes c ρ (getMinimalValue c v) x → X ≠ NONE ∧ 0 < n ∧ fits (bool_decide (X = ZEXT)) n x) as Hfits.
  { intros x Hx. eapply (computeDataForwardResult_ok ms X n (width c r) (getMinimalValue c v)); [done|done| | |].
    - apply list_elem_of_fmap. exists v. split; [done|by eapply list_elem_of_lookup_2].
    - intros m Hm. apply list_elem_of_fmap in Hm as (v' & -> & Hv'). destruct (getMinimalValue_ok c Hwf ρ Hρ v') as (x' & _ & _ & _ & HN).
      intros E. rewrite (HN E). by apply Hwidth.
    - destruct (getMinimalValue_ok c Hwf ρ Hρ v) as (x' & _ & _ & Hle & HN).
      assert (width c v = width c r) as <- by (apply Hwidth; by eapply list_elem_of_lookup_2). by apply (denotes_holds c ρ). }
  simpl in He. apply list_lookup_fmap_Some in He as (m & -> & Hm). unfold ms in Hm. apply list_lookup_fmap_Some in Hm as (v' & -> & Hv').
  rewrite Hv in Hv'. injection Hv' as <-. destruct (getMinimalValue_ok c Hwf ρ Hρ v) as (x & Hx & _). destruct (Hfits x Hx) as (HX & Hn & _).
  apply (forward_operand _ n v (width c r)); [done|intros x' Hx'; by apply Hfits|done|done|apply Hwidth; by eapply list_elem_of_lookup_2].
Qed.

Lemma usefulMax_le rs w r : r ∈ rs → getUsefulResultWidth c r ≤ foldl (λ w r, Z.max w (getUsefulResultWidth c r)) w rs.
Proof.
  revert w. induction rs as [|r' rs IH]; intros w Hr; [by apply not_elem_of_nil in Hr|]. simpl. apply elem_of_cons in Hr as [-> |Hr]; [|by apply IH].
  assert (∀ rs w, w ≤ foldl (λ w r, Z.max w (getUsefulResultWidth c r)) w rs) as Hge.
  { clear. intros rs. induction rs as [|r' rs IH]; intros w; simpl; [lia|]. specialize (IH (Z.max w (getUsefulResultWidth c r'))). lia. }
  specialize (Hge rs (Z.max w (getUsefulResultWidth c r'))). lia.
Qed.

(** When only low bits of the data that an operation forwards are used, the users of
    a result cannot tell the value that replaces it from the operand. *)
Theorem data_backward_correct o fw i v r e : o ∈ ops c → isForwarder (kind o) = true → HandshakeOptData c false o = Ok (Some fw) →
  getDataOperands o !! i = Some v → newDataOperands fw !! i = Some e → r ∈ getDataResults o → ρ r = ρ v →
  ∃ u, eval c ρ (newResult c fw e) = Ok u ∧ indistinguishable c ρ r u.
Proof.
  intros Ho Hf Hopt Hv He Hr Hrv. unfold HandshakeOptData in Hopt. destruct (head (getDataResults o)) as [r0|] eqn:Hr0; [|done].
  cbn [of_option bind] in Hopt. destruct (isInteger (typeOf c r0)); [|done]. cbn [negb bind ew_bits ew_ext] in Hopt.
  pose proof (usefulMax_le (getDataResults o) 0 r Hr) as Hmax. set (n := foldl _ 0 (getDataResults o)) in *.
  destruct (Z.leb_spec (width c r0) n) as [|Hlt]; [done|]. injection Hopt as <-.
  assert (v ∈ getDataOperands o) as Hvo by (by eapply list_elem_of_lookup_2).
  assert (r0 ∈ getDataResults o) as Hr0o by (destruct (getDataResults o); [done|]; injection Hr0 as ->; set_solver).
  assert (width c r0 = width c v ∧ width c r = width c v) as [Hw0 Hwr] by (split; unfold width; f_equal; symmetry; by apply (data_types o)).
  simpl in He. rewrite !list_lookup_fmap, Hv in He. injection He as <-.
  destruct (getMinimalValue_ok c Hwf ρ Hρ v) as (x & Hx & Hl & _). pose proof (useful_pos c Hwf r) as Hu. pose proof (width_bound c Hwf v).
  destruct (extended_low c ρ _ n _ ZEXT (width c r0) ltac:(lia) ltac:(lia) (modBitWidth_width c ρ _ _ n Hx) (wrapU_range n x ltac:(lia))
    (modBitWidth_ok c ρ _ _ n Hx ltac:(lia))) as (u & Hev & Hlow).
  exists u. split; [exact Hev|]. apply useful_indistinguishable; [done|done|lia|]. rewrite Hlow, Hrv, Hl, !wrapU_le by lia. done.
Qed.

(** * Indices *)

Lemma index_fits n i : (0 < n < 2 ^ 64)%Z → 0 ≤ i < n → 0 < indexWidth (Z.to_nat n) ∧ i < 2 ^ indexWidth (Z.to_nat n).
Proof.
  intros Hn Hi. unfold indexWidth. rewrite Z2Nat.id by lia. set (k := apint_make 64 n false).
  assert (apint_uval k = n) as Hk by (apply apint_make_unsigned; lia). rewrite ceilLogBase2_ok, Hk by lia. split; [lia|].
  destruct (Z.eq_dec n 1) as [->|]; [lia|]. pose proof (Z.log2_up_spec n ltac:(lia)). pose proof (Z.log2_up_nonneg n).
  pose proof (Z.pow_le_mono_r 2 (Z.log2_up n) (Z.max 1 (Z.log2_up n))). lia.
Qed.

(** The select operand of a mux keeps its value. *)
Lemma mux_select o s ds e : operands o = s :: ds → HandshakeMuxSelect c o = Some e → ds ≠ [] → Z.of_nat (length ds) < 2 ^ 64 →
  ρ s < Z.of_nat (length ds) → eval c ρ e = Ok (ρ s) ∧ exprWidth c e = indexWidth (length ds).
Proof.
  intros Hop He Hds Hlen Hs. unfold HandshakeMuxSelect in He. rewrite Hop in He. destruct (Z.leb_spec (width c s) (indexWidth (length ds))); [done|].
  injection He as <-. pose proof (old_denotes c Hwf ρ Hρ s ZEXT) as Hx. assert (0 < Z.of_nat (length ds)) by (destruct ds; [done|simpl; lia]).
  destruct (index_fits (Z.of_nat (length ds)) (ρ s)) as [Hp Hi]; [lia|pose proof (in_range _ _ Hρ s); lia|]. rewrite Nat2Z.id in *.
  split; [|by eapply modBitWidth_width]. rewrite (modBitWidth_ok c ρ _ _ _ Hx) by done. f_equal. apply wrapU_small. pose proof (in_range _ _ Hρ s).
  simpl. lia.
Qed.

(** The index result of a control merge is what the narrow control merge produces. *)
Lemma cmerge_index o d index w f newIndex i : results o = [d; index] → HandshakeCMergeIndex c o = Some (w, f) →
  operands o ≠ [] → Z.of_nat (length (operands o)) < 2 ^ 64 → exprWidth c newIndex = w →
  0 ≤ i < Z.of_nat (length (operands o)) → eval c ρ newIndex = Ok i → eval c ρ (f newIndex) = Ok i.
Proof.
  intros Hres He Hop Hlen Hw Hi Hev. unfold HandshakeCMergeIndex in He. rewrite Hres in He. destruct (Z.leb_spec (width c index) (indexWidth (length (operands o)))); [done|].
  injection He as <- <-. destruct (index_fits (Z.of_nat (length (operands o))) i) as [Hp Hlt]; [lia|lia|]. rewrite Nat2Z.id in *.
  pose proof (width_bound c Hwf index). set (n := indexWidth (length (operands o))) in *.
  rewrite (extended_ok c ρ newIndex n i ZEXT (width c index)); try done; try lia.
  - f_equal. apply wrapU_small. pose proof (Z.pow_le_mono_r 2 n (width c index)). lia.
  - rewrite Hev. f_equal. symmetry. apply wrapU_small. lia.
  - simpl. unfold fits. lia.
Qed.

End Forward.
