(* ===== verification/WidthCycles.v ===== *)
(** The pattern of the bitwidth optimization on forwarding cycles: the values merged
    into a cycle are all that goes around in it (OptimizeBitwidths.v). *)

From stdpp Require Import gmap.
From S2P Require Import LLVMInterface WidthNum WidthIR OptimizeBitwidths MinimalValues WidthArith WidthForward Prelude.

(** * Tokens *)

Section Tokens.
Context `{L : APIntLib}.
Context (c : Circuit) (src : Value → Z → Prop).

(** The operands whose tokens an operation passes on. *)
Definition passedOperands (o : Operation) : list Value :=
  match kind o with
  | SelectOp => tail (operands o)
  | k => if isForwarder k then getDataOperands o else []
  end.

Lemma passed_forwarder o : isForwarder (kind o) = true → passedOperands o = getDataOperands o.
Proof. unfold passedOperands. by destruct (kind o). Qed.

Definition passesOn (o : Operation) : Prop := isForwarder (kind o) = true ∨ kind o = SelectOp.

(** The values a channel can have over time, in so many steps from where they come
    from: the operations that do not pass on tokens, and the arguments. *)
Inductive carries : nat → Value → Z → Prop :=
| carries_src v x : (∀ o, o ∈ ops c → v ∈ getDataResults o → ¬ passesOn o) → src v x → carries 0 v x
| carries_pass n o d r x : o ∈ ops c → d ∈ passedOperands o → r ∈ getDataResults o → carries n d x → carries (S n) r x.

End Tokens.

(** Every value is the result of one operation. *)
Definition ssa `{APIntLib} (c : Circuit) : Prop :=
  ∀ i j o o' v, ops c !! i = Some o → ops c !! j = Some o' → v ∈ results o → v ∈ results o' → i = j.

Section Cycles.
Context `{AL : APIntLaws}.
Context (c : Circuit) (Hwf : wf c) (Hssa : ssa c) (src : Value → Z → Prop).
Notation carries := (carries c src).

Lemma getDefiningOp_at v i o : getDefiningOp c v = Some (i, o) → ops c !! i = Some o ∧ v ∈ results o.
Proof. by intros (Hi & Hv & _)%list_find_Some. Qed.

Lemma data_is_result o r : r ∈ getDataResults o → r ∈ results o.
Proof. unfold getDataResults. destruct (kind o); try done. destruct (results o) as [|? [|? ?]]; set_solver. Qed.

Lemma same_op i o o' v : ops c !! i = Some o → o' ∈ ops c → v ∈ results o → v ∈ results o' → o' = o.
Proof.
  intros Hi [j Hj]%list_elem_of_lookup Hv Hv'. rewrite (Hssa i j o o' v Hi Hj Hv Hv') in Hi. congruence.
Qed.

(** A token on a result of an operation that passes tokens on comes from an operand. *)
Lemma carries_inv i o r n x : ops c !! i = Some o → passesOn o → r ∈ getDataResults o → carries n r x →
  ∃ n' d, n = S n' ∧ d ∈ passedOperands o ∧ carries n' d x.
Proof.
  intros Hi Hp Hr Hc. pose proof (list_elem_of_lookup_2 _ _ _ Hi) as Ho. destruct Hc as [v x Hsrc _|n o' d r x Ho' Hd Hr' Hc].
  - by destruct (Hsrc o Ho Hr).
  - assert (o' = o) as -> by (eapply same_op; [exact Hi|done|by apply data_is_result..]). by exists n, d.
Qed.

Lemma passed_type o d r : o ∈ ops c → d ∈ passedOperands o → r ∈ getDataResults o → typeOf c d = typeOf c r.
Proof.
  intros Ho Hd Hr. pose proof (data_types c Hwf o d r Ho) as Hdata. destruct Hwf as [Htyped _]. specialize (Htyped o Ho).
  unfold wellTyped, passedOperands in *. destruct (kind o) eqn:Hk; simpl in Hd; try (by apply not_elem_of_nil in Hd); try by apply Hdata.
  unfold getDataResults in Hr. rewrite Hk in Hr. destruct (operands o) as [|? [|? [|? [|? ?]]]]; try done.
  destruct (results o) as [|? [|? ?]]; try done. simpl in Hd. apply list_elem_of_singleton in Hr as ->. destruct Htyped as (_ & H1 & H2).
  apply elem_of_cons in Hd as [-> |Hd]; [done|]. by apply list_elem_of_singleton in Hd as ->.
Qed.

(** * Merged values *)

(** What holds of the values merged so far, and of the operands. *)
Lemma mergeOperand_keeps rec ds (P : gset Value → Prop) s s' :
  (∀ d M b M', d ∈ ds → rec d M = Ok (b, M') → P M → P M') → foldM (mergeOperand rec) s ds = Ok s' → P s.2 →
  P s'.2 ∧ ∀ d, d ∈ s'.1.2 → d ∈ s.1.2 ∨ d ∈ ds.
Proof.
  revert s. induction ds as [|d ds IH]; intros [[one outs] merged] Hrec Hf HP; [injection Hf as <-; auto|].
  cbn [foldM mergeOperand] in Hf. destruct (rec d merged) as [[b M]|] eqn:Hd; [|done]. cbn [bind] in Hf.
  apply IH in Hf as [H1 H2]; [|intros; eapply Hrec; [|done..]; set_solver|destruct b; (eapply Hrec; [|exact Hd|exact HP]; set_solver)].
  split; [done|]. intros d' Hd'. destruct (H2 d' Hd') as [Hd''|]; [|set_solver]. destruct b; simpl in *; set_solver.
Qed.

Lemma recurse_keeps rec ds (P : gset Value → Prop) M b M' :
  (∀ d M b M', d ∈ ds → rec d M = Ok (b, M') → P M → P M') → (∀ d M, d ∈ ds → P M → P ({[d]} ∪ M)) →
  recurseMergeLike rec ds M = Ok (b, M') → P M → P M'.
Proof.
  intros Hrec Hadd Hr HP. unfold recurseMergeLike in Hr. destruct (foldM _ _ _) as [[[one outs] merged]|] eqn:Hf; [|done].
  apply (mergeOperand_keeps rec ds P) in Hf as [H1 H2]; [|done|done]. injection Hr as <- <-. simpl in *. destruct one; [|done].
  assert (∀ d, d ∈ outs → d ∈ ds) as Hin by (intros d Hd; destruct (H2 d Hd) as [?%not_elem_of_nil|]; done). clear H2.
  induction outs as [|d outs IH]; simpl; [by rewrite union_empty_l_L|]. rewrite <-union_assoc_L. apply Hadd; [apply Hin; set_solver|].
  apply IH. intros d' Hd'. apply Hin. set_solver.
Qed.

(** If the merge is in the cycle, every operand is, or is merged into it. *)
Lemma recurse_operands rec ds M M' :
  (∀ d M b M', d ∈ ds → rec d M = Ok (b, M') → M ⊆ M') → recurseMergeLike rec ds M = Ok (true, M') →
  ∀ d, d ∈ ds → d ∈ M' ∨ ∃ M1 M2, rec d M1 = Ok (true, M2) ∧ M2 ⊆ M'.
Proof.
  intros Hmono Hr. assert (∀ ds' s s', (∀ d, d ∈ ds' → d ∈ ds) → foldM (mergeOperand rec) s ds' = Ok s' →
    s.2 ⊆ s'.2 ∧ (∀ d, d ∈ s.1.2 → d ∈ s'.1.2) ∧ ∀ d, d ∈ ds' → d ∈ s'.1.2 ∨ ∃ M1 M2, rec d M1 = Ok (true, M2) ∧ M2 ⊆ s'.2) as Hfold.
  { induction ds' as [|d ds' IH]; intros [[one outs] merged] s' Hin Hf.
    - injection Hf as <-. split; [done|]. split; [done|]. by intros d ?%not_elem_of_nil.
    - cbn [foldM mergeOperand] in Hf. destruct (rec d merged) as [[b M1]|] eqn:Hd; [|done]. cbn [bind] in Hf.
      pose proof (Hmono d merged b M1 ltac:(apply Hin; set_solver) Hd) as Hsub.
      apply IH in Hf as (H1 & H2 & H3); [|intros; apply Hin; set_solver]. destruct b; simpl in *.
      + split; [set_solver|]. split; [done|]. intros d' [-> |Hd']%elem_of_cons; [right; eauto|auto].
      + split; [set_solver|]. split; [set_solver|]. intros d' [-> |Hd']%elem_of_cons; [left; set_solver|auto]. }
  unfold recurseMergeLike in Hr. destruct (foldM _ _ _) as [[[one outs] merged]|] eqn:Hf; [|done]. injection Hr as -> <-.
  apply Hfold in Hf as (_ & _ & H); [|done]. simpl in H. intros d Hd. destruct (H d Hd) as [|(M1 & M2 & ? & ?)]; [set_solver|right].
  exists M1, M2. split; [done|set_solver].
Qed.

(** The values around one result of a merge, whose type no index of a control merge
    has. *)
Context (res_ : Value) (Htype : ∀ v, isMergeIndex c v → typeOf c v ≠ typeOf c res_).

(** A step of the search: it ends, or goes on with one operand, or with those of a
    merge. *)
Inductive step (fuel : nat) (visited : gset OpId) (val : Value) (M : gset Value) : res (bool * gset Value) → Prop :=
| step_found : val = res_ → step fuel visited val M (Ok (true, M))
| step_visited i o : ops c !! i = Some o → val ∈ results o → i ∈ visited → step fuel visited val M (Ok (true, M))
| step_out : step fuel visited val M (Ok (false, M))
| step_fault f : step fuel visited val M (Bad f)
| step_pass fuel' i o d : fuel = S fuel' → ops c !! i = Some o → val ∈ results o → passesOn o → passedOperands o = [d] →
    step fuel visited val M (isOperandInCycle c fuel' res_ ({[i]} ∪ visited) d M)
| step_merge fuel' i o : fuel = S fuel' → ops c !! i = Some o → val ∈ results o → passesOn o →
    step fuel visited val M (recurseMergeLike (isOperandInCycle c fuel' res_ ({[i]} ∪ visited)) (passedOperands o) M).

Lemma isOperandInCycle_step fuel visited val M : step fuel visited val M (isOperandInCycle c fuel res_ visited val M).
Proof.
  destruct fuel as [|fuel]; simpl; (destruct (decide (val = res_)); [by apply step_found|]);
    (destruct (getDefiningOp c val) as [[i o]|] eqn:Hd; [|apply step_out]); [apply step_fault|].
  apply getDefiningOp_at in Hd as [Hi Hv]. destruct (bool_decide_reflect (i ∈ visited)); [by eapply step_visited|].
  pose proof (forwarder_arity c Hwf o (list_elem_of_lookup_2 _ _ _ Hi)) as Har. pose proof (proj1 Hwf o (list_elem_of_lookup_2 _ _ _ Hi)) as Ht.
  unfold arity in Har. unfold wellTyped in Ht.
  pose proof (step_pass (S fuel) visited val M fuel i o) as Hpass. pose proof (step_merge (S fuel) visited val M fuel i o eq_refl Hi Hv) as Hmerge.
  unfold passesOn, passedOperands, getDataOperands in *.
  destruct (kind o) eqn:Hk; try apply step_out; simpl in *; try (apply Hmerge; by left).
  6: (destruct (operands o) as [|? [|? [|? ?]]]; try (by specialize (Har eq_refl)); apply Hpass; try done; by left).
  2-5: (destruct (operands o) as [|? [|? ?]]; try (by specialize (Har eq_refl)); apply Hpass; try done; by left).
  destruct (operands o) as [|? [|? [|? [|? ?]]]]; try done; apply Hmerge; by right.
Qed.

(** A value of the type is not an index. *)
Lemma typed_data o v : o ∈ ops c → v ∈ results o → typeOf c v = typeOf c res_ → v ∈ getDataResults o.
Proof.
  intros Ho Hv Ht. unfold getDataResults. destruct (kind o) eqn:Hk; try done. destruct (decide (v ∈ take 1 (results o))); [done|].
  destruct (Htype v); [|done]. exists o. unfold getDataResults. by rewrite Hk.
Qed.

Lemma isOperandInCycle_keeps (P : gset Value → Prop) fuel visited val M b M' :
  (∀ d M, typeOf c d = typeOf c res_ → P M → P ({[d]} ∪ M)) → typeOf c val = typeOf c res_ →
  isOperandInCycle c fuel res_ visited val M = Ok (b, M') → P M → P M'.
Proof.
  intros Hadd. revert visited val M b M'. induction fuel as [fuel IH] using lt_wf_ind. intros visited val M b M' Hval Heq HP.
  pose proof (isOperandInCycle_step fuel visited val M) as Hs. rewrite Heq in Hs.
  assert (∀ i o d, ops c !! i = Some o → val ∈ results o → d ∈ passedOperands o → typeOf c d = typeOf c res_) as Hd.
  { intros i o d Hi Hv Hd. rewrite <-Hval. pose proof (list_elem_of_lookup_2 _ _ _ Hi). apply (passed_type o); [done|done|by apply typed_data]. }
  inversion Hs as [|? ? ? ? ?| |? E|fuel' i o d -> Hi Hv Hp Hds E|fuel' i o -> Hi Hv Hp E]; subst; try done.
  - eapply (IH fuel'); [lia| |exact E|exact HP]. eapply Hd; [exact Hi|exact Hv|rewrite Hds; by apply list_elem_of_singleton].
  - eapply (recurse_keeps _ _ P); [|intros d' M1 Hd' HP1; apply Hadd; [eapply Hd; [exact Hi|exact Hv|exact Hd']|exact HP1]|exact E|exact HP].
    intros d' M1 b1 M1' Hd' E1 HP1. eapply (IH fuel'); [lia| |exact E1|exact HP1]. eapply Hd; [exact Hi|exact Hv|exact Hd'].
Qed.

Lemma isOperandInCycle_mono fuel visited val M b M' : typeOf c val = typeOf c res_ →
  isOperandInCycle c fuel res_ visited val M = Ok (b, M') → M ⊆ M'.
Proof. intros Ht E. apply (isOperandInCycle_keeps (λ N, M ⊆ N) fuel visited val M b M'); try done. set_solver. Qed.

(** * Tokens in the cycle *)

(** A token of one of the values merged. *)
Definition merged (N : gset Value) (x : Z) : Prop := ∃ m n, m ∈ N ∧ carries n m x.

Lemma cycle_tokens N fuel : ∀ visited val M M', typeOf c val = typeOf c res_ →
  isOperandInCycle c fuel res_ visited val M = Ok (true, M') → M' ⊆ N → ∀ n x,
  (∀ i o r k, i ∈ visited → ops c !! i = Some o → r ∈ getDataResults o → (k ≤ n)%nat → carries k r x → merged N x) →
  (∀ k, (k ≤ n)%nat → carries k res_ x → merged N x) → carries n val x → merged N x.
Proof.
  induction fuel as [fuel IH] using lt_wf_ind. intros visited val M M' Hval Heq HN n x Hvis Hres Hc.
  pose proof (isOperandInCycle_step fuel visited val M) as Hs. rewrite Heq in Hs.
  assert (∀ o d, o ∈ ops c → val ∈ results o → d ∈ passedOperands o → typeOf c d = typeOf c res_) as Hd.
  { intros o d Ho Hv Hd. rewrite <-Hval. apply (passed_type o); [done|done|by apply typed_data]. }
  assert (∀ i o fuel', ops c !! i = Some o → val ∈ results o → passesOn o →
    (∀ d, d ∈ passedOperands o → d ∈ N ∨ ∃ M1 M2, isOperandInCycle c fuel' res_ ({[i]} ∪ visited) d M1 = Ok (true, M2) ∧ M2 ⊆ N) →
    (fuel' < fuel)%nat → merged N x) as Hop.
  { intros i o fuel' Hi Hv Hp Hops Hlt. pose proof (list_elem_of_lookup_2 _ _ _ Hi) as Ho.
    assert (∀ k r, (k ≤ n)%nat → r ∈ getDataResults o → carries k r x → merged N x) as H; [|by eapply H; [|by apply typed_data|exact Hc]].
    induction k as [k IHk] using lt_wf_ind. intros r Hk Hr Hcr. destruct (carries_inv i o r k x Hi Hp Hr Hcr) as (k' & d & -> & Hdo & Hcd).
    destruct (Hops d Hdo) as [HdN|(M1 & M2 & E & HM2)]; [by exists d, k'|].
    eapply (IH fuel'); [done| |exact E|done| | |exact Hcd].
    - by apply (Hd o).
    - intros j o' r' k'' [->%elem_of_singleton|Hj]%elem_of_union Hj' Hr' Hk'' Hc'.
      + rewrite Hi in Hj'. injection Hj' as <-. eapply (IHk k''); [lia|lia|exact Hr'|exact Hc'].
      + eapply Hvis; [exact Hj|exact Hj'|exact Hr'| |exact Hc']. lia.
    - intros k'' Hk''. apply Hres. lia. }
  inversion Hs as [->|i o Hi Hv Hin| |? E|fuel' i o d -> Hi Hv Hp Hds E|fuel' i o -> Hi Hv Hp E]; subst; try done.
  - by apply (Hres n).
  - pose proof (list_elem_of_lookup_2 _ _ _ Hi). eapply Hvis; [exact Hin|exact Hi|by apply typed_data| |exact Hc]. done.
  - eapply (Hop i o fuel'); [done|done|done| |lia]. intros d' Hd'. right. rewrite Hds in Hd'. apply list_elem_of_singleton in Hd' as ->. eauto.
  - eapply (Hop i o fuel'); [done|done|done| |lia]. intros d' Hd'. pose proof (list_elem_of_lookup_2 _ _ _ Hi).
    eapply recurse_operands in E; [|intros; eapply isOperandInCycle_mono; [|done]; by apply (Hd o)|exact Hd'].
    destruct E as [|(M1 & M2 & ? & ?)]; [set_solver|right]. exists M1, M2. split; [done|set_solver].
Qed.

(** * The pattern *)

Lemma cycleOperands_ok fuel ds N0 N : (∀ d, d ∈ ds → typeOf c d = typeOf c res_) → (∀ m, m ∈ N0 → typeOf c m = typeOf c res_) →
  foldM (cycleOperand c fuel res_) N0 ds = Ok N →
  N0 ⊆ N ∧ (∀ m, m ∈ N → typeOf c m = typeOf c res_)
  ∧ ∀ d, d ∈ ds → d ∈ N ∨ ∃ M, isOperandInCycle c fuel res_ ∅ d ∅ = Ok (true, M) ∧ M ⊆ N.
Proof.
  revert N0. induction ds as [|d ds IH]; intros N0 Hds HN0 Hf.
  { injection Hf as <-. split; [done|]. split; [done|]. by intros d ?%not_elem_of_nil. }
  simpl in Hf. unfold cycleOperand at 1 in Hf. destruct (isOperandInCycle c fuel res_ ∅ d ∅) as [[b M]|] eqn:Hd; [|done]. cbn [bind] in Hf.
  assert (∀ m, m ∈ M → typeOf c m = typeOf c res_) as HM.
  { apply (isOperandInCycle_keeps (λ N, ∀ m, m ∈ N → typeOf c m = typeOf c res_) fuel ∅ d ∅ b M); [set_solver|apply Hds; set_solver|done|set_solver]. }
  apply IH in Hf as (H1 & H2 & H3); [|set_solver|destruct b; set_solver]. split; [destruct b; set_solver|]. split; [done|].
  intros d' [-> |Hd']%elem_of_cons; [|by apply H3]. destruct b; [right; exists M; split; [done|set_solver]|left; set_solver].
Qed.

(** Every token of the result of a merge is one of those merged into its cycles. *)
Lemma merge_tokens o fuel N n x : o ∈ ops c → isForwarder (kind o) = true → res_ ∈ getDataResults o →
  foldM (cycleOperand c fuel res_) ∅ (getDataOperands o) = Ok N → carries n res_ x → merged N x.
Proof.
  intros Ho Hf Hr HN. pose proof (passed_forwarder o Hf) as Hpo.
  apply cycleOperands_ok in HN as (_ & HNt & HN); [|intros d Hd; by apply (data_types c Hwf o)|set_solver].
  pose proof Ho as [i Hi]%list_elem_of_lookup. induction n as [n IH] using lt_wf_ind. intros Hc.
  destruct (carries_inv i o res_ n x Hi (or_introl Hf) Hr Hc) as (n' & d & -> & Hd & Hcd). rewrite Hpo in Hd.
  destruct (HN d Hd) as [HdN|(M & HM & HMN)]; [by exists d, n'|].
  apply (cycle_tokens N fuel ∅ d ∅ M) with n'; [by apply (data_types c Hwf o)|done|done| | |done].
  - intros j o' r k Hj. set_solver.
  - intros k Hk. apply IH. lia.
Qed.

End Cycles.

(** The minimal values of the values merged. *)
Lemma backtracked `{AL : APIntLaws} c ms ms' m : mapM (backtrackToMinimalValue c) ms = Ok ms' → m ∈ ms →
  ∃ v, backtrack c m = Ok v ∧ getMinimalValue c v ∈ ms'.
Proof.
  intros Hm Hin. apply mapM_ok in Hm. apply list_elem_of_lookup in Hin as [i Hi]. destruct (Forall2_lookup_l _ _ _ _ _ Hm Hi) as (y & Hy & Hb).
  unfold backtrackToMinimalValue in Hb. destruct (backtrack c m) as [v|]; [|done]. exists v. split; [done|]. injection Hb as ->.
  by eapply list_elem_of_lookup_2.
Qed.

Lemma backtracked_inv `{AL : APIntLaws} c ms ms' m' : mapM (backtrackToMinimalValue c) ms = Ok ms' → m' ∈ ms' →
  ∃ m v, m ∈ ms ∧ backtrack c m = Ok v ∧ m' = getMinimalValue c v.
Proof.
  intros Hm Hin. apply mapM_ok in Hm. apply list_elem_of_lookup in Hin as [i Hi]. destruct (Forall2_lookup_r _ _ _ _ _ Hm Hi) as (m & Hmi & Hb).
  unfold backtrackToMinimalValue in Hb. destruct (backtrack c m) as [v|] eqn:E; [|done]. exists m, v. split; [by eapply list_elem_of_lookup_2|].
  split; [done|]. by injection Hb as <-.
Qed.

(** C9.  In a circuit where every token that a channel can carry is its value in some
    consistent valuation, when a merge in forwarding cycles is made as narrow as the values
    merged into the cycles, every token that an operand can carry gets through: what
    replaces the result has its value.  This is so if no control merge has a single data
    operand, since backtracking takes the index of such a one for its data, and if no index
    of a control merge has the type of the result of the merge; the circuit is well-typed and
    every channel has one definition. *)
Theorem cycle_forward_correct `{AL : APIntLaws} c src o r fw i v e n x ρ :
  wf c → ssa c → noSingleControlMerge c → o ∈ ops c → head (results o) = Some r → (∀ v, isMergeIndex c v → typeOf c v ≠ typeOf c r) →
  (∀ n v x, carries c src n v x → ∃ ρ, consistent c ρ ∧ ρ v = x) →
  ForwardCycleOpt c o = Ok (Some fw) → getDataOperands o !! i = Some v → newDataOperands fw !! i = Some e →
  carries c src n v x → consistent c ρ → ρ v = x → eval c ρ (newResult c fw e) = Ok x.
Proof.
  intros Hwf Hssa Hcm Ho Hr Htype Hreal Hopt Hv He Hc Hρ Hx. unfold ForwardCycleOpt in Hopt.
  destruct (isMergeLike (kind o)) eqn:Hm; [|done]. cbn [negb] in Hopt. rewrite Hr in Hopt. cbn [of_option bind] in Hopt.
  destruct (isInteger (typeOf c r)); [|done]. cbn [negb] in Hopt. assert (isForwarder (kind o) = true) as Hf by (by destruct (kind o)).
  assert (r ∈ getDataResults o) as Hro.
  { unfold getDataResults. destruct (results o) as [|? ?]; [done|]. injection Hr as ->. destruct (kind o); set_solver. }
  destruct (foldM _ _ _) as [N|] eqn:HN; [|done]. cbn [bind] in Hopt. destruct (mapM _ _) as [ms|] eqn:Hms; [|done]. cbn [bind] in Hopt.
  destruct (computeDataForwardResult ms) as [[X k]|] eqn:Hw; [|done]. cbn [bind ew_bits ew_ext] in Hopt.
  destruct (Z.leb_spec (width c r) k) as [|Hlt]; [done|]. injection Hopt as <-. simpl in He. rewrite list_lookup_fmap, Hv in He. injection He as <-.
  pose proof (list_elem_of_lookup_2 _ _ _ Hv) as Hvo. pose proof (data_types c Hwf o v r Ho Hf Hvo Hro) as Hvr.
  assert (carries c src (S n) r x) as Hcr.
  { eapply carries_pass; [exact Ho| |exact Hro|exact Hc]. by rewrite passed_forwarder. }
  destruct (merge_tokens c Hwf Hssa src r Htype o _ N (S n) x Ho Hf Hro HN Hcr) as (m & n' & HmN & Hcm').
  assert (∀ m, m ∈ N → typeOf c m = typeOf c r) as HNt.
  { apply (cycleOperands_ok c Hwf Hssa src r Htype) in HN as (_ & HNt & _); [done|intros d Hd; by apply (data_types c Hwf o)|set_solver]. }
  assert (∀ v, typeOf c v = typeOf c r → width c v = width c r) as Hwidth by (intros v' E; unfold width; by rewrite E).
  destruct (Hreal n' m x Hcm') as (ρm & Hρm & Hmx).
  destruct (backtracked c _ ms m Hms ltac:(by apply elem_of_elements)) as (v' & Hb & Hv').
  destruct (backtrack_ok c Hwf ρm Hρm m v' Hcm Hb) as [Hmv Htv]. rewrite (HNt m HmN) in Htv. rewrite Hmv in Hmx.
  destruct (getMinimalValue_ok c Hwf ρm Hρm v') as (y & Hy & Hly & Hwy & HNy). rewrite (Hwidth v') in * by done.
  destruct (computeDataForwardResult_ok ms X k (width c r) (getMinimalValue c v') y Hw Hlt Hv') as (HX & Hk & Hfits).
  { intros m' Hm'. destruct (backtracked_inv c _ ms m' Hms Hm') as (m2 & v2 & Hm2 & Hb2 & ->). apply elem_of_elements in Hm2.
    destruct (backtrack_ok c Hwf ρ Hρ m2 v2 Hcm Hb2) as [_ Ht2]. rewrite (HNt m2 Hm2) in Ht2.
    destruct (getMinimalValue_ok c Hwf ρ Hρ v2) as (_ & _ & _ & _ & HN2). by rewrite (Hwidth v2) in HN2 by done. }
  { by apply (denotes_holds c ρm). }
  destruct (getMinimalValue_ok c Hwf ρ Hρ v) as (z & Hz & Hlz & _). rewrite (Hwidth v), Hx, <-Hmx, Hly in Hlz by done.
  rewrite <-Hmx, Hly. pose proof (width_bound c Hwf r).
  apply (extended_ok c ρ _ k); [done|lia|by eapply modBitWidth_width| |done|done].
  rewrite (modBitWidth_ok c ρ _ _ k Hz) by done. f_equal. rewrite <-(wrapU_le k (width c r) z), <-Hlz, wrapU_le by lia. done.
Qed.

(** * The searches end *)

Section Ends.
Context `{L : APIntLib}.
Context (c : Circuit).

(** Operations of the circuit, not all of them. *)
Definition visits (fuel : nat) (visited : gset OpId) : Prop :=
  visited ⊆ set_seq 0 (length (ops c)) ∧ (length (ops c) < fuel + size visited)%nat.

Lemma visits_fuel visited : ¬ visits 0 visited.
Proof.
  intros [Hs Hlt]. apply subseteq_size in Hs. rewrite size_set_seq in Hs. lia.
Qed.

Lemma visits_next fuel visited i o : ops c !! i = Some o → i ∉ visited → visits (S fuel) visited → visits fuel ({[i]} ∪ visited).
Proof.
  intros Hi Hn [Hs Hlt]. apply lookup_lt_Some in Hi. split.
  - intros j [->%elem_of_singleton|Hj]%elem_of_union; [|by apply Hs]. apply elem_of_set_seq. lia.
  - rewrite size_union, size_singleton by set_solver. lia.
Qed.

Lemma visits_start : visits (S (length (ops c))) ∅.
Proof. split; [set_solver|lia]. Qed.

Lemma recurse_fuelless rec ds M : (∀ d M, fuelless (rec d M)) → fuelless (recurseMergeLike rec ds M).
Proof.
  intros Hrec. apply fuelless_bind; [|by intros [[? ?] ?]]. generalize (false, @nil Value, M). induction ds as [|d ds IH]; intros [[one outs] m]; [done|].
  simpl. apply fuelless_bind; [|intros s; apply IH]. apply fuelless_bind; [apply Hrec|by intros [? ?]].
Qed.

Lemma isOperandInCycle_fuelless fuel r visited v M : visits fuel visited → fuelless (isOperandInCycle c fuel r visited v M).
Proof.
  revert visited v M. induction fuel as [|fuel IH]; intros visited v M Hv; [by apply visits_fuel in Hv|]. simpl.
  destruct (decide (v = r)); [done|]. destruct (getDefiningOp c v) as [[i o]|] eqn:Hd; [|done]. apply getDefiningOp_at in Hd as [Hi _].
  destruct (bool_decide_reflect (i ∈ visited)) as [|Hni]; [done|]. pose proof (visits_next _ _ _ _ Hi Hni Hv) as Hv'.
  assert (∀ d M, fuelless (isOperandInCycle c fuel r ({[i]} ∪ visited) d M)) as Hrec by (intros; by apply IH).
  destruct (kind o); simpl; try done; repeat (apply fuelless_bind; [by apply fuelless_of_option|intros ?]); first [apply Hrec|by apply recurse_fuelless].
Qed.

Lemma backtrack_fuelless v : fuelless (backtrack c v).
Proof.
  unfold backtrack. generalize visits_start. generalize (S (length (ops c))) (∅ : gset OpId). intros fuel. revert v.
  induction fuel as [|fuel IH]; intros v visited Hv; [by apply visits_fuel in Hv|]. simpl.
  destruct (getDefiningOp c v) as [[i o]|] eqn:Hd; [|done]. apply getDefiningOp_at in Hd as [Hi _].
  destruct (bool_decide_reflect (i ∈ visited)) as [|Hni]; [done|]. pose proof (visits_next _ _ _ _ Hi Hni Hv) as Hv'.
  assert (∀ d, fuelless (backtrackFrom c fuel ({[i]} ∪ visited) d)) as Hrec by (intros; by apply IH).
  destruct (kind o); simpl; try done; try (by apply fuelless_of_option); try (apply fuelless_bind; [by apply fuelless_of_option|intros ?; apply Hrec]);
    destruct (getDataOperands o) as [|? [|? ?]]; apply Hrec.
Qed.

(** C26.  The search for cycles ends: an operation is visited once on every path, so that
    as many steps as the circuit has operations are enough. *)
Theorem cycle_search_ends o : fuelless (ForwardCycleOpt c o).
Proof.
  unfold ForwardCycleOpt. destruct (negb _); [done|]. apply fuelless_bind; [by destruct (head _)|]. intros r. destruct (negb _); [done|].
  apply fuelless_bind.
  { generalize (∅ : gset Value). induction (getDataOperands o) as [|d ds IH]; intros M; [done|]. simpl. apply fuelless_bind; [|intros; apply IH].
    apply fuelless_bind; [apply isOperandInCycle_fuelless, visits_start|by intros [? ?]]. }
  intros N. apply fuelless_bind.
  { induction (elements N) as [|m ms IH]; [done|]. simpl. apply fuelless_bind; [|intros; apply fuelless_bind; [apply IH|done]].
    apply fuelless_bind; [apply backtrack_fuelless|done]. }
  intros ms. apply fuelless_bind; [by destruct ms|]. intros w. by destruct (_ <=? _).
Qed.

End Ends.
