(* ===== verification/WidthRules.v ===== *)
(** The arithmetic patterns of the bitwidth optimization together, the folds of
    extensions and truncations, and divisions (OptimizeBitwidths.v). *)

From stdpp Require Import gmap.
From S2P Require Import LLVMInterface WidthNum WidthIR OptimizeBitwidths MinimalValues WidthArith Prelude.

Section Rules.
Context `{AL : APIntLaws}.
Context (c : Circuit) (Hwf : wf c) (ρ : valuation) (Hρ : consistent c ρ).

(** * All patterns but those on divisions *)

Definition isDivision (k : OpKind) : bool := match k with DivUIOp | DivSIOp | RemUIOp => true | _ => false end.

(** What an operation with one result does. *)
Lemma pure_single o : o ∈ ops c → isPure (kind o) = true → ∃ r, results o = [r].
Proof.
  intros Ho Hp. destruct Hwf as [Htyped _]. specialize (Htyped o Ho). unfold wellTyped in Htyped.
  destruct (kind o); try done; destruct (operands o) as [|? [|? [|? [|? ?]]]]; try done; destruct (results o) as [|r [|? ?]]; try done; by exists r.
Qed.

(** C5.  Forward bitwidth optimization of arithmetic: whatever values the circuit has, the expression that a
    pattern of the forward pass puts in place of the result of an addition,
    subtraction, product, bitwise operation, selection, right shift, comparison or
    truncation computes that result. *)
Theorem arith_forward_correct o r e :
  o ∈ ops c → isDivision (kind o) = false → results o = [r] → arithPatterns c true o = Ok (Some e) → eval c ρ e = Ok (ρ r).
Proof.
  intros Ho Hdiv Hr He. unfold arithPatterns in He.
  destruct (kind o) eqn:Hk; try done; injection He as He;
    first [by eapply (single_forward c Hwf ρ Hρ o); [done|by rewrite Hk|by rewrite Hk|done|exact He]
          |by eapply (select_forward c Hwf ρ Hρ o)|by eapply (shrui_forward c Hwf ρ Hρ o)|by eapply (shrsi_forward c Hwf ρ Hρ o)
          |by eapply (trunc_ok c Hwf ρ Hρ o)|by eapply (cmp_forward c Hwf ρ Hρ o)].
Qed.

(** C16.  Backward bitwidth optimization of arithmetic: in a well-typed circuit where no control merge
    has a single data operand, the expression that a pattern of the backward pass puts in
    place of a result computes the result, or something of which every use is a
    truncation that gives what it gave before, or a sink, whatever values the circuit has.
    With such a control merge, whose index is backtracked to its data, a shift by the index
    is taken for a shift by the data. *)
Theorem arith_backward_correct o r e :
  noSingleControlMerge c → o ∈ ops c → results o = [r] → arithPatterns c false o = Ok (Some e) →
  ∃ u, eval c ρ e = Ok u ∧ (u = ρ r ∨ indistinguishable c ρ r u).
Proof.
  intros Hcm Ho Hr He. assert (∀ u, eval c ρ e = Ok u ∧ indistinguishable c ρ r u → eval c ρ e = Ok u ∧ (u = ρ r ∨ indistinguishable c ρ r u)) as Hw by tauto.
  unfold arithPatterns in He. destruct (kind o) eqn:Hk; try done; try (apply (f_equal (λ r, match r with Ok x => x | Bad _ => None end)) in He; simpl in He; try done);
    first [exists (ρ r); split; [|by left];
             first [by eapply (single_forward c Hwf ρ Hρ o); [done|by rewrite Hk|by rewrite Hk|done|exact He]|by eapply (trunc_ok c Hwf ρ Hρ o)]
          |destruct (single_backward c Hwf ρ Hρ o _ _ _ r Ho ltac:(by rewrite Hk) Hr He) as [u Hu]; eauto
          |destruct (select_backward c Hwf ρ Hρ o r e Ho Hk Hr He) as [u Hu]; eauto|idtac].
  all: destruct (ArithShiftBW c o) as [[e'|]|] eqn:Hs; try done; injection He as ->;
    destruct (shift_backward c Hwf ρ Hρ o r e Hcm Ho ltac:(tauto) Hr Hs) as [u Hu]; eauto.
Qed.

(** * Divisions *)

Lemma division_operands o a b r : o ∈ ops c → isDivision (kind o) = true → operands o = [a; b] → results o = [r] →
  width c a = width c r ∧ width c b = width c r ∧ sem (kind o) [(width c r, ρ a); (width c r, ρ b)] (width c r) = Some (ρ r).
Proof.
  intros Ho Hdiv Hop Hres. destruct (result_sem c Hwf ρ Hρ o r Ho ltac:(by destruct (kind o)) Hres) as [Ht Hs].
  assert (typeOf c a = typeOf c r ∧ typeOf c b = typeOf c r) as [Ha Hb].
  { unfold wellTyped in Ht. rewrite Hop, Hres in Ht. destruct (kind o); try done; tauto. }
  assert (width c a = width c r ∧ width c b = width c r) as [Hwa Hwb] by (unfold width; by rewrite Ha, Hb).
  split; [done|]. split; [done|]. rewrite Hop in Hs. cbn [args map] in Hs. by rewrite Hwa, Hwb in Hs.
Qed.

(** What the pattern makes of a division. *)
Lemma division_shape o a b r e : isDivision (kind o) = true → operands o = [a; b] → results o = [r] → arithPatterns c true o = Ok (Some e) →
  let k := minWidth (getMinimalValue c a) + 1 in
  k < width c r ∧ e = modArithOp c o (typeOf c r) (getMinimalValue c a) (getMinimalValue c b) k ZEXT.
Proof.
  intros Hdiv Hop Hres He. assert (ArithSingleType c true (divWidth true) o = Some e) as He'.
  { unfold arithPatterns in He. destruct (kind o); try done; by injection He. }
  unfold ArithSingleType in He'. rewrite Hop, Hres in He'. destruct (negb _); [done|]. cbn [ew_bits ew_ext divWidth] in He'.
  destruct (Z.leb_spec (width c r) (minWidth (getMinimalValue c a) + 1)); [done|]. by injection He' as <-.
Qed.

(** The division at a width [k] of the bits of the operands. *)
Lemma division_narrow o a b x y k : denotes c ρ (getMinimalValue c a) x → denotes c ρ (getMinimalValue c b) y → 0 < k →
  let newLhs := modBitWidth c (getMinimalValue c a) k in
  eval c ρ (New (kind o) [newLhs; modBitWidth c (getMinimalValue c b) k] (exprType c newLhs))
  = of_option Poison (sem (kind o) [(k, wrapU k x); (k, wrapU k y)] k).
Proof.
  intros Hx Hy Hk. cbn zeta. rewrite (eval_new2 c ρ _ _ _ _ (wrapU k x) (wrapU k y)) by (eapply modBitWidth_ok; done).
  rewrite (modBitWidth_width _ _ _ _ _ Hx), (modBitWidth_width _ _ _ _ _ Hy).
  change (getDataBitWidth (exprType c (modBitWidth c (getMinimalValue c a) k))) with (exprWidth c (modBitWidth c (getMinimalValue c a) k)).
  by rewrite (modBitWidth_width _ _ _ _ _ Hx).
Qed.

(** C25.  Unsigned divisions and remainders, of a dividend with leading zeros, are
    computed right with one bit more than the dividend has, if the divisor fits in
    these bits as well. *)
Theorem division_forward_correct o a b r e :
  o ∈ ops c → kind o = DivUIOp ∨ kind o = RemUIOp → operands o = [a; b] → results o = [r] →
  extType (getMinimalValue c a) = ZEXT → ρ b < 2 ^ (minWidth (getMinimalValue c a) + 1) →
  arithPatterns c true o = Ok (Some e) → eval c ρ e = Ok (ρ r).
Proof.
  intros Ho Hk Hop Hres HX Hb He. assert (isDivision (kind o) = true) as Hdiv by (by destruct Hk as [-> | ->]).
  destruct (division_shape o a b r e Hdiv Hop Hres He) as [Hlt ->]. clear He.
  destruct (division_operands o a b r Ho Hdiv Hop Hres) as (Hwa & Hwb & Hs).
  destruct (getMinimalValue_ok c Hwf ρ Hρ a) as (x & Hx & Hlx & Hwx & _). destruct (getMinimalValue_ok c Hwf ρ Hρ b) as (y & Hy & Hly & _).
  pose proof Hx as (Hp & _ & Hfx & _). unfold zeroExtended in Hfx. rewrite HX in Hfx. simpl in Hfx.
  set (k := minWidth (getMinimalValue c a) + 1) in *. assert (k = minWidth (getMinimalValue c a) + 1) as Hkeq by done. clearbody k.
  pose proof (in_range _ _ Hρ b) as Hb0. pose proof (fits_mono true (minWidth (getMinimalValue c a)) k _ ltac:(lia) Hfx) as Hfk. pose proof (fits_mono true (minWidth (getMinimalValue c a)) (width c r) _ ltac:(lia) Hfx) as HfW.
  rewrite Hwa in Hlx. rewrite Hwb in Hly. unfold fits in Hfx, Hfk, HfW.
  assert (wrapU k x = x ∧ ρ a = x) as [Hxk Ha] by (by rewrite Hlx, !wrapU_small).
  assert (wrapU k y = ρ b) as Hyk by (rewrite <-(wrapU_le k (width c r)), <-Hly by lia; apply wrapU_small; lia).
  assert (0 ≤ ρ r < 2 ^ k ∧ sem (kind o) [(k, x); (k, ρ b)] k = Some (ρ r)) as [Hr Hsk].
  { rewrite Ha in Hs. destruct Hk as [Hk|Hk]; rewrite Hk in *; simpl in *; destruct (Z.eqb_spec (ρ b) 0); try done; injection Hs as <-;
      (split; [|done]).
    - split; [apply Z.div_pos; lia|]. apply Z.le_lt_trans with x; [|lia]. apply Z.div_le_upper_bound; [lia|]. nia.
    - pose proof (Z.mod_pos_bound x (ρ b)). lia. }
  unfold modArithOp. rewrite <-(wrapU_small (width c r) (ρ r)) by (pose proof (Z.pow_le_mono_r 2 k (width c r)); lia).
  apply (extended_ok c ρ _ k); [lia|apply (width_bound c Hwf)|by eapply (narrow_width c ρ)| |done|done].
  rewrite (division_narrow o a b x y k Hx Hy) by lia. rewrite Hxk, Hyk, Hsk. simpl. by rewrite wrapU_small.
Qed.

(** C24.  A signed division with a negative quotient is never right after the forward
    pattern, which extends the quotient with zeros. *)
Theorem signed_division_wrong o a b r e :
  o ∈ ops c → kind o = DivSIOp → operands o = [a; b] → results o = [r] → wrapS (width c r) (ρ r) < 0 →
  arithPatterns c true o = Ok (Some e) → eval c ρ e ≠ Ok (ρ r).
Proof.
  intros Ho Hk Hop Hres Hneg He. assert (isDivision (kind o) = true) as Hdiv by (by rewrite Hk).
  destruct (division_shape o a b r e Hdiv Hop Hres He) as [Hlt ->]. clear He.
  destruct (getMinimalValue_ok c Hwf ρ Hρ a) as (x & Hx & _). destruct (getMinimalValue_ok c Hwf ρ Hρ b) as (y & Hy & _).
  pose proof Hx as (Hp & _). set (k := minWidth (getMinimalValue c a) + 1) in *. assert (0 < k) as Hk0 by lia. pose proof (division_narrow o a b x y k Hx Hy Hk0) as Hn.
  cbn zeta in Hn. unfold modArithOp. set (new := New (kind o) _ _) in Hn |- *. assert (exprWidth c new = k) as Hw by (by eapply (narrow_width c ρ)). clearbody new.
  unfold modBitWidth. change (minWidth (ofValue c new ZEXT)) with (exprWidth c new). rewrite Hw.
  change (getDataBitWidth (typeOf c r)) with (width c r). replace (k =? width c r) with false by lia. replace (k <? width c r) with true by lia.
  cbn [extType ofValue materializeValue repr]. rewrite bool_decide_eq_true_2 by done. cbn [orb].
  destruct (eval c ρ new) as [u|f] eqn:Hu; [|simpl; by rewrite Hu]. rewrite (eval_new1 c ρ _ _ _ _ Hu). simpl. intros [= E].
  assert (0 ≤ u < 2 ^ k) as Hur.
  { rewrite Hk in Hn. simpl in Hn. destruct (_ || _); [done|]. injection Hn as ->. apply wrapU_range. lia. }
  pose proof (Z.pow_le_mono_r 2 k (width c r - 1)). pose proof (pow_half (width c r) ltac:(lia)).
  rewrite <-E, wrapS_wrapU, wrapS_small in Hneg by lia. lia.
Qed.

(** * Folds *)

(** What an extension or a truncation makes of its operand. *)
Definition converts (k : OpKind) (wx x wr r : Z) : Prop :=
  match k with
  | ExtSIOp => wx ≤ wr ∧ r = wrapU wr (wrapS wx x)
  | ExtUIOp => wx ≤ wr ∧ r = x
  | TruncIOp => wr ≤ wx ∧ r = wrapU wr x
  | _ => True
  end.

Lemma conversion o x r : o ∈ ops c → operands o = [x] → r ∈ results o → converts (kind o) (width c x) (ρ x) (width c r) (ρ r).
Proof.
  intros Ho Hop Hr. pose proof (pure_results _ _ Hρ o r Ho) as Hs. pose proof (proj1 Hwf o Ho) as Ht. unfold wellTyped in Ht.
  pose proof (in_range _ _ Hρ x). unfold converts. destruct (kind o); try done; specialize (Hs eq_refl Hr); rewrite Hop in *; simpl in Hs;
    destruct (results o) as [|r' [|? ?]]; try done; apply list_elem_of_singleton in Hr as ->; injection Hs as <-; destruct Ht as (_ & _ & Hle);
    (split; [exact Hle|try done]).
  apply wrapU_small. pose proof (Z.pow_le_mono_r 2 (width c x) (width c r')). lia.
Qed.

Lemma converts_same k wx x wr r : converts k wx x wr r → k = ExtSIOp ∨ k = ExtUIOp ∨ k = TruncIOp → 0 < wx → 0 ≤ x < 2 ^ wx → wx = wr → x = r.
Proof.
  intros H Hk Hw Hx <-. destruct Hk as [-> |[-> | ->]]; simpl in H; destruct H as [_ ->].
  - by rewrite wrapU_wrapS, wrapU_small by lia.
  - done.
  - by rewrite wrapU_small.
Qed.

(** Conversions of conversions. *)
Lemma converts_twice k wy y wx x wr r : k = ExtSIOp ∨ k = ExtUIOp ∨ k = TruncIOp → 0 < wy → 0 < wx → 0 < wr → 0 ≤ y < 2 ^ wy →
  converts k wy y wx x → converts k wx x wr r → sem k [(wy, y)] wr = Some r.
Proof.
  intros Hk Hwy Hwx Hwr Hy. destruct Hk as [-> |[-> | ->]]; simpl; intros [Hle ->] [Hle' ->]; f_equal.
  - rewrite (fits_wrapS wx); [done|lia|]. apply (fits_mono false wy); [lia|]. by apply wrapS_range.
  - apply wrapU_small. pose proof (Z.pow_le_mono_r 2 wy wr). lia.
  - by rewrite wrapU_le by lia.
Qed.

(** A truncation of an extension to no more than its operand has. *)
Lemma converts_trunc k wy y wx x wr r : k = ExtSIOp ∨ k = ExtUIOp → 0 < wr ≤ wy →
  converts k wy y wx x → converts TruncIOp wx x wr r → r = wrapU wr y.
Proof.
  intros [-> | ->] Hw; simpl; intros [Hle ->] [Hle' ->]; [|done]. by rewrite wrapU_le, wrapU_wrapS by lia.
Qed.

(** The folds of extensions and truncations keep their results: a value that
    replaces one has its value and width, and with a new operand the operation
    computes what it did. *)
Theorem fold_correct o r :
  o ∈ ops c → results o = [r] →
  match fold c o with
  | NoFold => True
  | FoldTo v => ρ v = ρ r ∧ width c v = width c r
  | FoldInPlace v => sem (kind o) [(width c v, ρ v)] (width c r) = Some (ρ r)
  end.
Proof.
  intros Ho Hres. assert (r ∈ results o) as Hr by (rewrite Hres; by apply list_elem_of_singleton).
  pose proof (in_range _ _ Hρ) as Hrange. pose proof (λ v, proj1 (width_bound c Hwf v)) as Hpos.
  unfold fold, foldExtOp, TruncIOp_fold. rewrite Hres.
  destruct (operands o) as [|x [|? ?]] eqn:Hop; try by destruct (kind o).
  pose proof (conversion o x r Ho Hop Hr) as Hconv.
  assert (kind o = ExtSIOp ∨ kind o = ExtUIOp ∨ kind o = TruncIOp →
    match (if width c x =? width c r then FoldTo x else NoFold) with FoldTo v => ρ v = ρ r ∧ width c v = width c r | _ => True end) as Hsame.
  { intros Hk. destruct (Z.eqb_spec (width c x) (width c r)) as [E|]; [|done]. split; [|done]. by eapply converts_same. }
  destruct (getDefiningOp c x) as [[i d]|] eqn:Hd; [|by destruct (kind o); try done; destruct (_ =? _); auto].
  apply getDefiningOp_in in Hd as [Hdo Hxd].
  destruct (operands d) as [|y [|? ?]] eqn:Hy; try by destruct (kind o), (kind d); try done; destruct (_ =? _); auto.
  pose proof (conversion d y x Hdo Hy Hxd) as Hconvd.
  assert (kind o = kind d → kind o = ExtSIOp ∨ kind o = ExtUIOp ∨ kind o = TruncIOp → sem (kind o) [(width c y, ρ y)] (width c r) = Some (ρ r)) as Htwice.
  { intros E Hk. rewrite <-E in Hconvd. by eapply converts_twice. }
  assert (kind o = TruncIOp → kind d = ExtSIOp ∨ kind d = ExtUIOp → width c r ≤ width c y → ρ r = wrapU (width c r) (ρ y)) as Htrunc.
  { intros E Hk Hle. rewrite E in Hconv. eapply (converts_trunc (kind d)); [done|by split|done..]. }
  destruct (kind o), (kind d); try done; simpl in *; try (by destruct (_ =? _); auto); auto.
  all: destruct (Z.ltb_spec (width c r) (width c y)); [by rewrite Htrunc by (auto; lia)|];
    destruct (Z.eqb_spec (width c y) (width c r)) as [E|]; [|done]; split; [|done];
    rewrite Htrunc by (auto; lia); symmetry; apply wrapU_small; rewrite <-E; apply Hrange.
Qed.

End Rules.
