(* ===== verification/WidthBounds.v ===== *)
(** The pattern of the bitwidth optimization on conditional branches whose condition
    bounds the data (OptimizeBitwidths.v). *)

From stdpp Require Import gmap.
From S2P Require Import LLVMInterface WidthNum WidthIR OptimizeBitwidths MinimalValues WidthArith Prelude.

Section Bounds.
Context `{AL : APIntLaws}.
Context (c : Circuit) (Hwf : wf c) (ρ : valuation) (Hρ : consistent c ρ) (Hcm : noSingleControlMerge c).

(** * Backtracked minimal values *)

Lemma backtrackToMinimal_ok v m : backtrackToMinimalValue c v = Ok m →
  ∃ v', m = getMinimalValue c v' ∧ ρ v = ρ v' ∧ width c v = width c v'.
Proof.
  unfold backtrackToMinimalValue. destruct (backtrack c v) as [v'|] eqn:Hb; [|done]. intros [= <-]. exists v'.
  destruct (backtrack_ok c Hwf ρ Hρ v v' Hcm Hb) as [? Ht]. split; [done|]. split; [done|]. unfold width. by rewrite Ht.
Qed.

(** The constant a minimal value comes from. *)
Lemma minimal_constant v i k ctrl : repr (getMinimalValue c v) = ConstantRepr i k ctrl →
  ∃ o, ops c !! i = Some o ∧ kind o = ConstantOp k ∧ operands o = [ctrl] ∧ ρ v = apint_uval k ∧ apint_width k = width c v
    ∧ getMinimalValue c v = ofConstant i k ctrl (typeOf c v).
Proof.
  intros Hr. assert (∃ i', getMinimalValue c v = ofConstant i' k ctrl (typeOf c v) ∧ ∃ o, getDefiningOp c v = Some (i', o) ∧ kind o = ConstantOp k ∧ operands o = [ctrl] ∧ i' = i)
    as (i' & Hm & o & Hd & Hk & Hop & ->).
  { unfold getMinimalValue in *. destruct (isInteger (typeOf c v)); [|done]. cbn [negb] in *. destruct (getDefiningOp c v) as [[i' o]|]; [|done].
    destruct (kind o) eqn:Hk; try done; destruct (operands o) as [|a [|? ?]] eqn:Hop; try done.
    assert (repr (ofConstant i' value a (typeOf c v)) = ConstantRepr i' value a) as E by (unfold ofConstant; by destruct (_ <=? _)).
    rewrite E in Hr. injection Hr as -> -> ->. exists i. split; [done|]. by exists o. }
  pose proof Hd as [_ Hv]%getDefiningOp_in. pose proof Hd as (Hi & _ & _)%list_find_Some. pose proof (list_elem_of_lookup_2 _ _ _ Hi) as Ho.
  exists o. split; [done|]. split; [done|]. split; [done|].
  destruct (constantDef_ok c Hwf ρ Hρ v k ctrl) as [H1 H2]; [unfold constantDef; by rewrite Hd, Hk, Hop|]. done.
Qed.

Lemma minimal_repr v : (∃ u, repr (getMinimalValue c v) = ChannelVal (Old u)) ∨ ∃ i k ctrl, repr (getMinimalValue c v) = ConstantRepr i k ctrl.
Proof.
  unfold getMinimalValue. destruct (negb _); [left; by eexists|]. destruct (getDefiningOp c v) as [[i o]|]; [|left; by eexists].
  destruct (kind o); try (left; by eexists); destruct (operands o) as [|a [|? ?]]; try (left; by eexists).
  right. unfold ofConstant. destruct (_ <=? _); by repeat eexists.
Qed.

Lemma channel_eq (t t' : ChannelType) :
  match t, t' with mkChannelType i u w, mkChannelType i' u' w' => bool_decide (i = i') && bool_decide (u = u') && (w =? w') end = true → t = t'.
Proof.
  destruct t as [i u w], t' as [i' u' w']. rewrite !andb_true_iff, Z.eqb_eq, !bool_decide_eq_true. by intros [[-> ->] ->].
Qed.

Lemma same_minimal v v' : sameMinimal (getMinimalValue c v) (getMinimalValue c v') = true → getMinimalValue c v = getMinimalValue c v'.
Proof.
  unfold sameMinimal. rewrite !andb_true_iff. intros [[Hx%bool_decide_eq_true Ht%channel_eq] Hr].
  assert (repr (getMinimalValue c v) = repr (getMinimalValue c v')) as Hrr.
  { destruct (minimal_repr v) as [[u E]|(i & k & ctrl & E)], (minimal_repr v') as [[u' E']|(i' & k' & ctrl' & E')]; rewrite E, E' in *; try done.
    - by apply bool_decide_eq_true in Hr as ->.
    - apply bool_decide_eq_true in Hr as ->. apply minimal_constant in E as (o & Ho & Hk & Hop & _), E' as (o' & Ho' & Hk' & Hop' & _). congruence. }
  destruct (getMinimalValue c v), (getMinimalValue c v'). simpl in *. by subst.
Qed.

(** Values of one width with the same minimal value are equal. *)
Lemma same_value v v' : getMinimalValue c v = getMinimalValue c v' → width c v = width c v' → ρ v = ρ v'.
Proof.
  intros E Hw. destruct (getMinimalValue_ok c Hwf ρ Hρ v) as (x & (Hp & _ & Hfx & Hx) & -> & _).
  destruct (getMinimalValue_ok c Hwf ρ Hρ v') as (x' & (_ & _ & Hfx' & Hx') & -> & _). rewrite <-E in *. rewrite Hx in Hx'. injection Hx' as Hxx.
  rewrite Hw. f_equal. rewrite <-(num_wrap _ _ _ Hp Hfx), <-(num_wrap _ _ _ Hp Hfx'). by rewrite Hxx.
Qed.

(** * Conditions *)

(** A comparison of the circuit and its outcome. *)
Definition outcome (o : Operation) (b : bool) : Prop :=
  ∃ p l r, o ∈ ops c ∧ kind o = CmpIOp p ∧ operands o = [l; r] ∧ width c l = width c r ∧ compares p (width c l) (ρ l) (ρ r) = b.

Lemma minimal_op_value v v' o : minimalOp c (getMinimalValue c v) = Some o → repr (getMinimalValue c v) = ChannelVal (Old v') →
  o ∈ ops c ∧ v' ∈ results o.
Proof.
  intros Ho Hr. unfold minimalOp in Ho. rewrite Hr in Ho. destruct (getDefiningOp c v') as [[i o']|] eqn:Hd; [|done]. injection Ho as <-.
  by apply getDefiningOp_in in Hd.
Qed.

(** A value of one bit is its minimal value. *)
Lemma minimal_bit v v' : repr (getMinimalValue c v) = ChannelVal (Old v') → width c v = 1 → width c v' = 1 ∧ ρ v' = ρ v.
Proof.
  intros Hr Hw. destruct (getMinimalValue_ok c Hwf ρ Hρ v) as (x & (Hp & Hwm & _ & He) & -> & Hle & _).
  unfold materializeValue in *. rewrite Hr in *. change (exprWidth c (Old v')) with (width c v') in Hwm. simpl in He. injection He as He.
  assert (minWidth (getMinimalValue c v) = 1) as E by lia. rewrite E in *. by rewrite He, Hw.
Qed.

Lemma cmp_outcome o p u : o ∈ ops c → kind o = CmpIOp p → u ∈ results o → ∃ b, ρ u = Z.b2z b ∧ outcome o b.
Proof.
  intros Ho Hk Hu. pose proof (pure_results _ _ Hρ o u Ho) as Hs. pose proof (proj1 Hwf o Ho) as Ht. unfold wellTyped in Ht. rewrite Hk in *.
  specialize (Hs eq_refl Hu). destruct (operands o) as [|l [|r [|? ?]]] eqn:Hop; try done. destruct (results o) as [|u' [|? ?]]; try done.
  destruct Ht as (_ & Hlr & _). simpl in Hs. injection Hs as Hs. eexists. split; [by rewrite <-Hs|]. exists p, l, r.
  split; [done|]. split; [done|]. split; [done|]. split; [unfold width; by rewrite Hlr|done].
Qed.

Lemma and_operands o u l r : o ∈ ops c → kind o = AndIOp → u ∈ results o → operands o = [l; r] → width c u = 1 →
  width c l = 1 ∧ width c r = 1 ∧ (ρ u = 1 → ρ l = 1 ∧ ρ r = 1).
Proof.
  intros Ho Hk Hu Hop Hw. pose proof (pure_results _ _ Hρ o u Ho) as Hs. pose proof (proj1 Hwf o Ho) as Ht. unfold wellTyped in Ht. rewrite Hk, Hop in *.
  specialize (Hs eq_refl Hu). destruct (results o) as [|u' [|? ?]]; try done. apply list_elem_of_singleton in Hu as <-.
  destruct Ht as (_ & Hl & Hr). assert (width c l = 1 ∧ width c r = 1) as [Hwl Hwr] by (unfold width in *; by rewrite Hl, Hr).
  split; [done|]. split; [done|]. simpl in Hs. injection Hs as <-. pose proof (in_range _ _ Hρ l) as Hl0. pose proof (in_range _ _ Hρ r) as Hr0.
  rewrite Hwl, Hwr in *. assert (ρ l = 0 ∨ ρ l = 1) as [-> | ->] by lia; [done|]. assert (ρ r = 0 ∨ ρ r = 1) as [-> | ->] by lia; done.
Qed.

Lemma getCmpOps_ok fuel condVal cs single : getCmpOps c fuel condVal = Ok (cs, single) → width c condVal = 1 →
  (ρ condVal = 1 → ∀ o, o ∈ cs → outcome o true) ∧ (single = true → ρ condVal = 0 → ∀ o, o ∈ cs → outcome o false).
Proof.
  revert condVal cs single. induction fuel as [fuel IH] using lt_wf_ind. intros condVal cs single Hg Hw.
  assert (∀ b : bool, Ok ([], b) = Ok (cs, single) → (ρ condVal = 1 → ∀ o, o ∈ cs → outcome o true) ∧ (single = true → ρ condVal = 0 → ∀ o, o ∈ cs → outcome o false)) as Hnil.
  { intros b [= <- <-]. split; intros; set_solver. }
  assert (∃ m, backtrackToMinimalValue c condVal = Ok m ∧
    match minimalOp c m with
    | None => Ok ([], false)
    | Some o =>
        match kind o, operands o with
        | CmpIOp _, _ => Ok ([o], true)
        | AndIOp, [l; r] =>
            match fuel with
            | O => Bad NoFuel
            | S fuel => let* (cl, _) := getCmpOps c fuel l in let* (cr, _) := getCmpOps c fuel r in Ok (cl ++ cr, false)
            end
        | _, _ => Ok ([], false)
        end
    end = Ok (cs, single)) as (m & Hb & Hg').
  { destruct fuel; simpl in Hg; destruct (backtrackToMinimalValue c condVal) as [m|]; try done; by exists m. }
  clear Hg. apply backtrackToMinimal_ok in Hb as (v & -> & Hv & Hwv). rewrite Hv in Hnil |- *. rewrite Hw in Hwv.
  destruct (minimalOp c (getMinimalValue c v)) as [o|] eqn:Ho; [|by eapply Hnil].
  destruct (minimal_repr v) as [[u Hr]|(i & k & ctrl & Hr)].
  - destruct (minimal_op_value _ _ _ Ho Hr) as [Hin Hu]. destruct (minimal_bit _ _ Hr (eq_sym Hwv)) as [Hwu Huv]. rewrite <-Huv in Hnil |- *.
    destruct (kind o) eqn:Hk; try by eapply Hnil.
    + destruct (operands o) as [|l [|r [|? ?]]] eqn:Hop; try by eapply Hnil. destruct fuel as [|fuel]; [done|].
      destruct (and_operands o u l r Hin Hk Hu Hop Hwu) as (Hwl & Hwr & Hand).
      destruct (getCmpOps c fuel l) as [[cl sl]|] eqn:Hl; [|done]. cbn [bind] in Hg'. destruct (getCmpOps c fuel r) as [[cr sr]|] eqn:Hrr; [|done].
      injection Hg' as <- <-. split; [|done]. intros [H1 H2]%Hand o' [Hin'|Hin']%elem_of_app.
      * by eapply (IH fuel ltac:(lia) l cl sl).
      * by eapply (IH fuel ltac:(lia) r cr sr).
    + injection Hg' as <- <-. destruct (cmp_outcome o predicate u Hin Hk Hu) as ([|] & Hub & Hout); rewrite Hub;
        (split; [|intros _]); try done; intros _ o' ->%list_elem_of_singleton; done.
  - apply minimal_constant in Hr as Hc. destruct Hc as (o' & Ho' & Hk' & _). unfold minimalOp in Ho. rewrite Hr in Ho. rewrite Ho' in Ho. injection Ho as <-.
    rewrite Hk' in Hg'. by eapply Hnil.
Qed.

(** * Bounds *)

(** Constants of full width that are negative with a sign, of which the pattern takes
    the bound a bit too low, and comparisons of the data at another width. *)
Definition noNegativeBound : Prop :=
  ∀ o k, o ∈ ops c → kind o = ConstantOp k → isNegative k = true → apint_width k ≤ computeRequiredBitwidth k → isBoundTight (Some k) = false.

Definition comparedAtWidth (data : Value) : Prop :=
  ∀ o p v v' d, o ∈ ops c → kind o = CmpIOp p → v ∈ operands o → backtrack c v = Ok v' → backtrack c data = Ok d →
    getMinimalValue c v' = getMinimalValue c d → width c v = width c data.

(** A tight constant and what is closer to 0. *)
Lemma tight_bound k x : apint_width k ≤ 64 → isNegative k = false → 0 < apint_width k → isBoundTight (Some k) = true → 0 ≤ x < apint_uval k →
  0 < computeRequiredBitwidth k - 1 ∧ fits true (computeRequiredBitwidth k - 1) x.
Proof.
  intros Hw Hn Hw0 Ht Hx. unfold isBoundTight in Ht. rewrite Hn in Ht. apply Z.eqb_eq in Ht. rewrite isNegative_ok in Hn. apply Z.ltb_ge in Hn.
  pose proof (apint_uval_range k) as Hr. pose proof (pow_half (apint_width k) Hw0) as Hp. assert (2 * apint_uval k < 2 ^ apint_width k) as Hhalf.
  { unfold apint_sval, wrapS in Hn. rewrite wrapU_small in Hn by done. destruct (Z.ltb_spec (2 * apint_uval k) (2 ^ apint_width k)); lia. }
  assert (2 ^ apint_width k ≤ 2 ^ 64) as H64 by (apply Z.pow_le_mono_r; lia).
  rewrite getZExtValue_ok in Ht by lia. rewrite (wrapU_small 64) in Ht by lia. set (k' := apint_make 64 (apint_uval k - 1) false) in Ht.
  assert (apint_uval k' = apint_uval k - 1 ∧ apint_width k' = 64) as [Hv' Hw'] by (split; [apply apint_make_unsigned; lia|by apply apint_make_width]).
  assert (computeRequiredBitwidth k' = Z.max (bits_of (apint_uval k - 1)) 1) as Hk'.
  { unfold computeRequiredBitwidth. replace (isNegative k') with false; [by rewrite getActiveBits_ok, Hv'|]. symmetry. rewrite isNegative_ok. apply Z.ltb_ge.
    unfold apint_sval. rewrite Hw', Hv'. rewrite wrapS_small; [lia|lia|]. change (2 ^ 64) with (2 * 2 ^ 63) in *. lia. }
  rewrite Ht, Hk'. replace (_ + 1 - 1) with (Z.max (bits_of (apint_uval k - 1)) 1) by lia. split; [lia|].
  pose proof (bits_of_bound (apint_uval k - 1) ltac:(lia)). pose proof (Z.pow_le_mono_r 2 (bits_of (apint_uval k - 1)) (Z.max (bits_of (apint_uval k - 1)) 1)).
  unfold fits. lia.
Qed.

(** What the constant of a minimal value is like. *)
Lemma minimal_constant_width v k : getConstantOpOrNull (getMinimalValue c v) = Some k →
  ρ v = apint_uval k ∧ apint_width k = width c v ∧ (∃ o, o ∈ ops c ∧ kind o = ConstantOp k)
  ∧ match extType (getMinimalValue c v) with
    | NONE => width c v ≤ computeRequiredBitwidth k ∧ minWidth (getMinimalValue c v) = width c v
    | ZEXT => isNegative k = false ∧ minWidth (getMinimalValue c v) = computeRequiredBitwidth k
    | SEXT => True
    end.
Proof.
  intros Hk. unfold getConstantOpOrNull in Hk. destruct (repr (getMinimalValue c v)) as [|i k' ctrl] eqn:Hr; [done|]. injection Hk as ->.
  destruct (minimal_constant v i k ctrl Hr) as (o & Ho & Hko & _ & Hv & Hw & Hm). split; [done|]. split; [done|].
  split; [exists o; split; [by eapply list_elem_of_lookup_2|done]|]. rewrite Hm. unfold ofConstant. rewrite <-Hw.
  destruct (Z.leb_spec (apint_width k) (computeRequiredBitwidth k)); simpl; [split; [done|by rewrite Hw]|]. by destruct (isNegative k).
Qed.

Context (Hneg : noNegativeBound) (Hw64 : ∀ v, width c v ≤ 64).

(** A number below a bound. *)
Lemma below x v : 0 ≤ x ≤ ρ v → extType (getMinimalValue c v) ≠ SEXT → minWidth (getMinimalValue c v) < width c v →
  0 < minWidth (getMinimalValue c v) ∧ fits true (minWidth (getMinimalValue c v)) x.
Proof.
  intros Hx HX Hlt. destruct (getMinimalValue_ok c Hwf ρ Hρ v) as (y & Hy & Hl & Hle & HN). pose proof Hy as (Hp & _). split; [done|].
  destruct (minimal_ext c ρ v y Hy HN Hlt) as [HX' Hf]. destruct (extType (getMinimalValue c v)); try done. simpl in Hf.
  pose proof (fits_mono true _ (width c v) y ltac:(split; [exact Hp|exact Hle]) Hf). unfold fits in *. rewrite wrapU_small in Hl by done. lia.
Qed.

Lemma strictly_below x v : 0 ≤ x < ρ v → extType (getMinimalValue c v) ≠ SEXT → isBoundTight (getConstantOpOrNull (getMinimalValue c v)) = true →
  0 < minWidth (getMinimalValue c v) - 1 ∧ fits true (minWidth (getMinimalValue c v) - 1) x.
Proof.
  intros Hx HX Ht. destruct (getConstantOpOrNull (getMinimalValue c v)) as [k|] eqn:Hk; [|done].
  destruct (minimal_constant_width v k Hk) as (Hv & Hw & (o & Ho & Hko) & Hext). pose proof (width_bound c Hwf v). specialize (Hw64 v).
  assert (isNegative k = false → 0 < minWidth (getMinimalValue c v) - 1 ∧ fits true (minWidth (getMinimalValue c v) - 1) x) as Hpos.
  { intros Hn. destruct (tight_bound k x ltac:(lia) Hn ltac:(lia) Ht ltac:(lia)) as [H1 H2]. destruct (extType (getMinimalValue c v)); [|by destruct Hext as [_ ->]|done].
    destruct Hext as [Hreq ->]. rewrite isNegative_ok in Hn. apply Z.ltb_ge in Hn. pose proof (pow_half (apint_width k) ltac:(lia)).
    pose proof (apint_uval_range k). unfold apint_sval, wrapS in Hn. rewrite wrapU_small in Hn by done.
    destruct (Z.ltb_spec (2 * apint_uval k) (2 ^ apint_width k)); [|lia]. rewrite <-Hw. unfold fits.
    destruct (Z.eq_dec (apint_width k) 1) as [E|]; [rewrite E in *; change (2 ^ 1) with 2 in *; lia|]. lia. }
  destruct (isNegative k) eqn:Hn; [|by apply Hpos]. destruct (extType (getMinimalValue c v)); [|by destruct Hext|done].
  destruct Hext as [Hreq _]. rewrite <-Hw in Hreq. by rewrite (Hneg o k Ho Hko Hn Hreq) in Ht.
Qed.

(** What holds of data on a branch with a bound. *)
Definition bounded (x : Z) (w : Z) (n : Z) (X : ExtType) : Prop :=
  n < w → ∃ y, x = wrapU w y ∧ 0 < n ∧ X ≠ NONE ∧ fits (bool_decide (X = ZEXT)) n y.

Lemma below_bounded x v strict n : 0 ≤ x → (if strict : bool then x < ρ v else x ≤ ρ v) → extType (getMinimalValue c v) ≠ SEXT →
  n = (if isBoundTight (getConstantOpOrNull (getMinimalValue c v)) then (if strict then minWidth (getMinimalValue c v) - 1 else minWidth (getMinimalValue c v))
       else minWidth (getMinimalValue c v)) → bounded x (width c v) n ZEXT.
Proof.
  intros Hx Hs HX -> Hlt. assert (∀ n, 0 < n ∧ fits true n x → n < width c v → ∃ y, x = wrapU (width c v) y ∧ 0 < n ∧ ZEXT ≠ NONE ∧ fits (bool_decide (ZEXT = ZEXT)) n y) as H.
  { intros n [Hn Hf] Hnv. exists x. split; [|by rewrite bool_decide_eq_true_2]. symmetry. apply wrapU_small.
    exact (fits_mono true n (width c v) x ltac:(lia) Hf). }
  destruct (isBoundTight _) eqn:Ht; [destruct strict|]; apply H; try done.
  - by apply strictly_below.
  - apply below; [lia|done|done].
  - apply below; [destruct strict; lia|done|done].
Qed.

Lemma equal_bounded v n : n = minWidth (getMinimalValue c v) → bounded (ρ v) (width c v) n (extType (getMinimalValue c v)).
Proof.
  intros -> Hlt. destruct (getMinimalValue_ok c Hwf ρ Hρ v) as (y & Hy & Hl & Hle & HN). destruct (minimal_ext c ρ v y Hy HN Hlt) as [HX Hf].
  exists y. split; [done|]. split; [apply Hy|done].
Qed.

Lemma operandBound_ok p isDataLhs w x v b n X : 0 ≤ x →
  (if isDataLhs : bool then compares p w x (ρ v) else compares p w (ρ v) x) = b → operandBound p isDataLhs (getMinimalValue c v) = Some (b, n, X) →
  bounded x (width c v) n X.
Proof.
  intros Hx Hout Hb. unfold operandBound in Hb. destruct (getBranchToOptimize p isDataLhs) as [branch|] eqn:Hbr; [|done].
  destruct (branchExtension p _) as [X'|] eqn:HX; [|done]. injection Hb as -> Hn ->.
  assert (p = eq ∨ p = ne → bounded x (width c v) n X) as Heq.
  { intros Hp. assert (x = ρ v) as ->.
    { destruct Hp as [-> | ->]; injection Hbr as <-; destruct isDataLhs; simpl in Hout; rewrite ?negb_false_iff in Hout; apply Z.eqb_eq in Hout; done. }
    assert (X = extType (getMinimalValue c v)) as -> by (destruct Hp as [-> | ->]; by injection HX).
    apply equal_bounded. rewrite <-Hn. by destruct Hp as [-> | ->]; destruct (isBoundTight _). }
  assert (∀ strict : bool, (if strict then x < ρ v else x ≤ ρ v) → (if decide (extType (getMinimalValue c v) = SEXT) then None else Some ZEXT) = Some X →
    n = (if isBoundTight (getConstantOpOrNull (getMinimalValue c v)) then (if strict then minWidth (getMinimalValue c v) - 1 else minWidth (getMinimalValue c v))
       else minWidth (getMinimalValue c v)) → bounded x (width c v) n X) as Hle.
  { intros strict Hs HX' Hn'. destruct (decide _); [done|]. injection HX' as <-. by eapply below_bounded. }
  destruct p; try done; simpl in Hbr, HX, Hn, Hout; try (apply Heq; by auto);
    destruct isDataLhs; injection Hbr as <-; simpl in Hout; zify_bools;
    solve [apply (Hle true); [lia|done|done]|apply (Hle false); [lia|done|done]].
Qed.

Lemma boundOf_ok data d o branch n X : backtrack c data = Ok d → comparedAtWidth data → outcome o branch →
  boundOf c (getMinimalValue c d) o = Ok (Some (branch, n, X)) → bounded (ρ data) (width c data) n X.
Proof.
  intros Hd Hcmp (p & l & r & Ho & Hk & Hop & Hlr & Hout) Hb. destruct (backtrack_ok c Hwf ρ Hρ data d Hcm Hd) as [Hdv Hdt].
  assert (width c data = width c d) as Hwd by (unfold width; by rewrite Hdt). pose proof (in_range _ _ Hρ data) as Hd0.
  unfold boundOf in Hb. rewrite Hk, Hop in Hb. unfold backtrackToMinimalValue in Hb.
  destruct (backtrack c l) as [l'|] eqn:Hl; [|done]. cbn [bind] in Hb. destruct (backtrack c r) as [r'|] eqn:Hr; [|done]. cbn [bind] in Hb.
  destruct (backtrack_ok c Hwf ρ Hρ l l' Hcm Hl) as [Hlv Hlt]. destruct (backtrack_ok c Hwf ρ Hρ r r' Hcm Hr) as [Hrv Hrt].
  assert (width c l = width c l' ∧ width c r = width c r') as [Hwl Hwr] by (unfold width; by rewrite Hlt, Hrt).
  injection Hb as Hb. destruct (sameMinimal _ (getMinimalValue c l')) eqn:Hsl; [|destruct (sameMinimal _ (getMinimalValue c r')) eqn:Hsr; [|done]].
  - apply same_minimal in Hsl. assert (width c l = width c data) as Hw by (eapply (Hcmp o p l l' d); [done|done|rewrite Hop; set_solver|done|done|done]).
    assert (ρ l = ρ data) as Hv by (rewrite Hlv, Hdv; symmetry; apply same_value; [done|congruence]).
    replace (width c data) with (width c r') by congruence. eapply (operandBound_ok p true (width c l)); [lia| |exact Hb]. by rewrite <-Hv, <-Hrv.
  - apply same_minimal in Hsr. assert (width c r = width c data) as Hw by (eapply (Hcmp o p r r' d); [done|done|rewrite Hop; set_solver|done|done|done]).
    assert (ρ r = ρ data) as Hv by (rewrite Hrv, Hdv; symmetry; apply same_value; [done|congruence]).
    replace (width c data) with (width c l') by congruence. eapply (operandBound_ok p false (width c l)); [lia| |exact Hb]. by rewrite <-Hv, <-Hlv.
Qed.

(** * Branches *)

Definition boundedBy (x w : Z) (bound : option (Z * ExtType)) : Prop :=
  match bound with Some (n, X) => bounded x w n X | None => True end.

Lemma better_ok x w n X bound : bounded x w n X → boundedBy x w bound → boundedBy x w (better n X bound).
Proof. intros Hn Hb. unfold better. destruct bound as [[n' X']|]; [|done]. by destruct (n <? n'). Qed.

Lemma addBounds_ok data d cs single t f t' f' : backtrack c data = Ok d → comparedAtWidth data →
  foldM (addBound c (getMinimalValue c d) single) (t, f) cs = Ok (t', f') →
  ((∀ o, o ∈ cs → outcome o true) → boundedBy (ρ data) (width c data) t → boundedBy (ρ data) (width c data) t')
  ∧ ((single = true → ∀ o, o ∈ cs → outcome o false) → boundedBy (ρ data) (width c data) f → boundedBy (ρ data) (width c data) f').
Proof.
  intros Hd Hcmp. revert t f. induction cs as [|o cs IH]; intros t f Hf; simpl in Hf; [by injection Hf as -> ->|].
  destruct (boundOf c (getMinimalValue c d) o) as [b|] eqn:Hb; [|done]. cbn [bind] in Hf. destruct b as [[[[|] n] X]|]; apply IH in Hf as [Ht Hff].
  - split; intros Hout Hbd; [apply Ht; [set_solver|]|apply Hff; [set_solver|done]]. apply better_ok; [|done].
    eapply boundOf_ok; [done|done| |exact Hb]. apply Hout. set_solver.
  - split; intros Hout Hbd; [apply Ht; [set_solver|done]|apply Hff; [set_solver|]]. destruct single; [|done]. apply better_ok; [|done].
    eapply boundOf_ok; [done|done| |exact Hb]. apply Hout; [done|]. set_solver.
  - split; intros Hout Hbd; [apply Ht; [set_solver|done]|apply Hff; [set_solver|done]].
Qed.

Lemma optBranch_ok v bound e : boundedBy (ρ v) (width c v) bound → optBranchIfPossible c v bound = Some e →
  eval c ρ e = Ok (wrapU (getUsefulResultWidth c v) (ρ v)).
Proof.
  intros Hb He. pose proof (useful_le c Hwf v) as Hle. unfold optBranchIfPossible in He. destruct bound as [[n X]|]; [|done]. destruct (Z.leb_spec (getUsefulResultWidth c v) n) as [|Hlt]; [done|].
  injection He as <-. destruct (Hb ltac:(lia)) as (y & Hv & Hn & HX & Hf). pose proof (useful_pos c Hwf v) as Hu.
  replace (wrapU (getUsefulResultWidth c v) (ρ v)) with (wrapU (getUsefulResultWidth c v) y) by (by rewrite Hv, wrapU_le by lia).
  pose proof (old_denotes c Hwf ρ Hρ v X) as Hm.
  apply (extended_ok c ρ _ n); [done|done|by eapply modBitWidth_width| |done|done].
  rewrite (modBitWidth_ok c ρ _ _ n Hm) by done. f_equal. rewrite wrapU_num by lia. by rewrite Hv, wrapU_le by lia.
Qed.

(** The useful bits of a value are enough for its users, if it has others. *)
Lemma useful_enough v : wrapU (getUsefulResultWidth c v) (ρ v) = ρ v ∨ indistinguishable c ρ v (wrapU (getUsefulResultWidth c v) (ρ v)).
Proof.
  pose proof (useful_le c Hwf v) as Hle. pose proof (useful_pos c Hwf v). destruct (Z.eq_dec (getUsefulResultWidth c v) (width c v)) as [->|].
  - left. apply wrapU_small, (in_range _ _ Hρ).
  - right. apply useful_indistinguishable; [done|done|lia|]. by rewrite wrapU_le by lia.
Qed.

(** C17.  Where the condition of a branch bounds its data, the narrow value that the
    pattern makes of a result is the data, or what the users of the result cannot
    tell from it, whenever the branch goes that way, in a well-typed circuit with values of
    at most 64 bits and a condition of one bit.  Three things are asked of the circuit that the
    pattern does not look at: no control merge has a single data operand, whose index would be
    backtracked to its data; the data are compared at their own width, not extended to another
    one; and no constant that needs its top bit is a tight bound, as one that the pattern
    takes for a negative number, like 191 on 8 bits, is. *)
Theorem bound_branch_correct o cond data trueRes falseRes t f :
  o ∈ ops c → kind o = ConditionalBranchOp → operands o = [cond; data] → results o = [trueRes; falseRes] → width c cond = 1 →
  comparedAtWidth data → ArithBoundOpt c o = Ok (t, f) →
  (∀ e, t = Some e → ρ cond = 1 → ∃ u, eval c ρ e = Ok u ∧ (u = ρ trueRes ∨ indistinguishable c ρ trueRes u))
  ∧ (∀ e, f = Some e → ρ cond = 0 → ∃ u, eval c ρ e = Ok u ∧ (u = ρ falseRes ∨ indistinguishable c ρ falseRes u)).
Proof.
  intros Ho Hk Hop Hres Hw Hcmp He. unfold ArithBoundOpt in He. rewrite Hop, Hres in He. destruct (negb _); [injection He as <- <-; split; done|].
  unfold backtrackToMinimalValue in He. destruct (backtrack c data) as [d|] eqn:Hd; [|done]. cbn [bind] in He.
  destruct (getCmpOps c _ cond) as [[cs single]|] eqn:Hcs; [|done]. cbn [bind] in He. destruct (foldM _ _ cs) as [[t' f']|] eqn:Hf; [|done].
  injection He as <- <-. destruct (getCmpOps_ok _ _ _ _ Hcs Hw) as [Htrue Hfalse]. destruct (addBounds_ok data d cs single None None t' f' Hd Hcmp Hf) as [Ht Hff].
  assert (getDataOperands o = [data] ∧ getDataResults o = [trueRes; falseRes]) as [Hdo Hdr] by (unfold getDataOperands, getDataResults; rewrite Hk, Hop, Hres; done).
  assert (∀ r, r ∈ [trueRes; falseRes] → ρ r = ρ data ∧ width c r = width c data) as Hr.
  { intros r Hr. rewrite <-Hdr in Hr. destruct (step_back c Hwf ρ Hρ o r data Hcm Ho ltac:(by rewrite Hk) Hdo) as [? Ht'].
    - unfold getDataResults in Hr. by rewrite Hk in Hr.
    - split; [done|]. unfold width. by rewrite Ht'. }
  destruct (Hr trueRes ltac:(set_solver)) as [Htv Htw]. destruct (Hr falseRes ltac:(set_solver)) as [Hfv Hfw].
  split; intros e He Hc; eexists; (split; [eapply optBranch_ok; [|exact He]|apply useful_enough]).
  - rewrite Htv, Htw. apply Ht; [|done]. intros o' Ho'. by apply Htrue.
  - rewrite Hfv, Hfw. apply Hff; [|done]. intros Hs o' Ho'. by apply Hfalse.
Qed.

End Bounds.
