(* ===== verification/WidthExamples.v ===== *)
(** The bitwidth optimization on a circuit. *)

From stdpp Require Import gmap.
From S2P Require Import LLVMInterface WidthNum WidthIR OptimizeBitwidths MinimalValues WidthArith WidthForward WidthCycles WidthRules WidthBounds Prelude.

#[local] Existing Instances Bits.lib Bits.laws.

(** Two bytes, extended without and with a sign, and what is computed of them; a loop
    of a merge and a buffer; and a branch on whether a number is below 10. *)
Definition widths : list Z := [8; 8; 32; 32; 32; 8; 1; 32; 32; 32; 40; 32; 32; 32; 32; 32; 1; 32; 32; 32].
Definition example : Circuit :=
  mkCircuit
    [mkOperation ExtUIOp [0%nat] [2%nat];
     mkOperation ExtSIOp [1%nat] [3%nat];
     mkOperation AddIOp [2%nat; 3%nat] [4%nat];
     mkOperation TruncIOp [4%nat] [5%nat];
     mkOperation (ConstantOp (Bits.mk 32 3)) [6%nat] [7%nat];
     mkOperation DivUIOp [2%nat; 7%nat] [8%nat];
     mkOperation DivSIOp [3%nat; 7%nat] [9%nat];
     mkOperation ExtUIOp [2%nat] [10%nat];
     mkOperation MergeOp [2%nat; 12%nat] [11%nat];
     mkOperation BufferOp [11%nat] [12%nat];
     mkOperation BufferOp [2%nat] [13%nat];
     mkOperation (ConstantOp (Bits.mk 32 10)) [6%nat] [15%nat];
     mkOperation (CmpIOp ult) [14%nat; 15%nat] [16%nat];
     mkOperation ConditionalBranchOp [16%nat; 14%nat] [17%nat; 18%nat];
     mkOperation BufferOp [17%nat] [19%nat];
     mkOperation BufferOp [3%nat] [20%nat];
     mkOperation TruncIOp [20%nat] [21%nat];
     mkOperation SinkOp [20%nat] []]
    (λ v, integerChannel (nth v (widths ++ [32; 8]) 32)).

(** 200 and -10; the branch is taken by 7. *)
Definition values : list Z :=
  [200; 246; 200; 4294967286; 190; 190; 0; 3; 66; 4294967293; 200; 200; 200; 200; 7; 10; 1; 7; 7; 7; 4294967286; 246].
Definition ρ : valuation := λ v, nth v values 0.

(** Splits membership in a concrete list. *)
Ltac split_in H := cbn in H; split_cons H
with split_cons H := first [by apply not_elem_of_nil in H|apply elem_of_cons in H as [-> |H]; [|split_cons H]].

Lemma example_wf : wf example.
Proof.
  split.
  - intros o Ho. split_in Ho; vm_compute; repeat split; try done; try (intros v r Hv Hr; split_in Hv; split_in Hr; done).
  - intros v. do 22 (destruct v as [|v]; [vm_compute; done|]). unfold width. simpl. destruct v; lia.
Qed.

Lemma example_consistent : consistent example ρ.
Proof.
  split.
  - intros v. do 22 (destruct v as [|v]; [vm_compute; done|]). unfold ρ, width. simpl. by destruct v.
  - intros o r Ho Hp Hr. split_in Ho; try done; split_in Hr; vm_compute; done.
  - intros o r v Ho Hp Hr Hv. split_in Ho; try done; split_in Hr; simpl in Hv; try done; by injection Hv as <-.
Qed.


Lemma example_no_index v : ¬ isMergeIndex example v.
Proof. intros (o & Ho & Hk & _). split_in Ho; done. Qed.

Lemma example_no_control_merge : noSingleControlMerge example.
Proof. intros o Ho Hk. split_in Ho; done. Qed.

(** The operation with a result. *)
Definition opAt (i : nat) : Operation := nth i (ops example) (mkOperation OtherOp [] []).
Lemma opAt_in i : (i < 18)%nat → opAt i ∈ ops example.
Proof. intros Hi. apply list_elem_of_In, nth_In. done. Qed.

(** What a pattern gives, evaluated. *)
Definition outcomeOf (e : res (option expr)) : res Z :=
  let* e := e in let* e := of_option AssertFailed e in eval example ρ e.

Definition given {A} (r : res (option A)) : bool := match r with Ok (Some _) => true | _ => false end.
Lemma given_ok {A} (r : res (option A)) : given r = true → ∃ a, r = Ok (Some a).
Proof. destruct r as [[a|]|]; try done. by exists a. Qed.

Lemma given_operand r i : (match r with Ok (Some fw) => match newDataOperands fw !! i with Some _ => true | None => false end | _ => false end) = true →
  ∃ fw e, r = Ok (Some fw) ∧ newDataOperands fw !! i = Some e.
Proof. destruct r as [[fw|]|]; try done. destruct (newDataOperands fw !! i) as [e|] eqn:He; [|done]. by exists fw, e. Qed.

(** The sum of the bytes. *)
Lemma arith_forward_correct_witness :
  ∃ e, arithPatterns example true (opAt 2) = Ok (Some e) ∧ eval example ρ e = Ok 190.
Proof.
  destruct (given_ok (arithPatterns example true (opAt 2))) as [e He]; [by vm_compute|]. exists e. split; [done|].
  apply (arith_forward_correct example example_wf ρ example_consistent (opAt 2) 4); [by apply opAt_in; lia|done|done|done].
Defined.

(** The sum of which a truncation uses 8 bits. *)
Lemma arith_backward_correct_witness :
  ∃ e, arithPatterns example false (opAt 2) = Ok (Some e) ∧ ∃ u, eval example ρ e = Ok u ∧ (u = 190 ∨ indistinguishable example ρ 4 u).
Proof.
  destruct (given_ok (arithPatterns example false (opAt 2))) as [e He]; [by vm_compute|]. exists e. split; [done|].
  apply (arith_backward_correct example example_wf ρ example_consistent (opAt 2) 4); [apply example_no_control_merge|by apply opAt_in; lia|done|done].
Defined.

(** 200 by 3, at 9 bits. *)
Lemma division_forward_correct_witness :
  ∃ e, arithPatterns example true (opAt 5) = Ok (Some e) ∧ eval example ρ e = Ok 66.
Proof.
  destruct (given_ok (arithPatterns example true (opAt 5))) as [e He]; [by vm_compute|]. exists e. split; [done|].
  apply (division_forward_correct example example_wf ρ example_consistent (opAt 5) 2 7 8); try done; [by apply opAt_in; lia|by left].
Defined.

(** -10 by 3: the pattern makes 509 of it. *)
Lemma signed_division_wrong_witness :
  outcomeOf (arithPatterns example true (opAt 6)) = Ok 509
  ∧ ∃ e, arithPatterns example true (opAt 6) = Ok (Some e) ∧ eval example ρ e ≠ Ok (2 ^ 32 - 3).
Proof.
  split; [by vm_compute|]. destruct (given_ok (arithPatterns example true (opAt 6))) as [e He]; [by vm_compute|]. exists e. split; [done|].
  apply (signed_division_wrong example example_wf ρ example_consistent (opAt 6) 3 7 9); try done; by apply opAt_in; lia.
Defined.

(** An extension of an extension. *)
Lemma fold_correct_witness : fold example (opAt 7) = FoldInPlace 0 ∧ sem ExtUIOp [(8, 200)] 40 = Some 200.
Proof.
  split; [by vm_compute|]. exact (fold_correct example example_wf ρ example_consistent (opAt 7) 10 ltac:(by apply opAt_in; lia) eq_refl).
Defined.

(** A buffer of a byte. *)
Lemma data_forward_correct_witness :
  ∃ fw e, HandshakeOptData example true (opAt 10) = Ok (Some fw) ∧ newDataOperands fw !! 0%nat = Some e ∧ eval example ρ (newResult example fw e) = Ok 200.
Proof.
  destruct (given_operand (HandshakeOptData example true (opAt 10)) 0) as (fw & e & Hfw & He); [by vm_compute|]. exists fw, e. split; [done|]. split; [done|].
  apply (data_forward_correct example example_wf ρ example_consistent (opAt 10) fw 0 2 e); try done; by apply opAt_in; lia.
Defined.

(** A buffer of which a truncation and a sink use the low byte. *)
Lemma data_backward_correct_witness :
  ∃ fw e, HandshakeOptData example false (opAt 15) = Ok (Some fw) ∧ newDataOperands fw !! 0%nat = Some e
    ∧ ∃ u, eval example ρ (newResult example fw e) = Ok u ∧ indistinguishable example ρ 20 u.
Proof.
  destruct (given_operand (HandshakeOptData example false (opAt 15)) 0) as (fw & e & Hfw & He); [by vm_compute|]. exists fw, e. split; [done|]. split; [done|].
  apply (data_backward_correct example example_wf ρ example_consistent (opAt 15) fw 0 3 20 e); try done; [by apply opAt_in; lia|by apply list_elem_of_singleton].
Defined.

(** * The loop *)

(** Every channel carries one value. *)
Definition origin (v : Value) (x : Z) : Prop := x = ρ v.

Lemma example_carries n v x : carries example origin n v x → x = ρ v.
Proof.
  induction 1 as [v x _ Hx|n o d r x Ho Hd Hr _ IH]; [done|]. rewrite IH. split_in Ho; cbn in Hd, Hr; split_in Hd; split_in Hr; done.
Qed.

Lemma nodup_ssa c : NoDup (ops c ≫= results) → ssa c.
Proof.
  intros Hnd i j o o' v Hi Hj Hv Hv'. revert i j Hi Hj. generalize (ops c) Hnd. clear Hnd. intros os. induction os as [|o1 os IH]; intros Hnd i j Hi Hj; [done|].
  simpl in Hnd. apply list.NoDup_app in Hnd as (_ & Hdis & Hnd).
  assert (∀ k o'', os !! k = Some o'' → v ∈ results o'' → v ∈ os ≫= results) as Hin.
  { intros k o'' Hk Hvo. apply list_elem_of_bind. exists o''. split; [done|by eapply list_elem_of_lookup_2]. }
  destruct i as [|i], j as [|j]; simpl in *; [done| | |f_equal; by apply IH].
  - injection Hi as ->. destruct (Hdis v Hv). by eapply Hin.
  - injection Hj as ->. destruct (Hdis v Hv'). by eapply Hin.
Qed.

Lemma example_ssa : ssa example.
Proof. apply nodup_ssa. apply (bool_decide_unpack _). by vm_compute. Qed.

(** The merge of a byte with itself, through the buffer, needs 8 bits. *)
Lemma cycle_forward_correct_witness :
  ∃ fw e, ForwardCycleOpt example (opAt 8) = Ok (Some fw) ∧ newDataOperands fw !! 1%nat = Some e ∧ eval example ρ (newResult example fw e) = Ok 200.
Proof.
  destruct (given_operand (ForwardCycleOpt example (opAt 8)) 1) as (fw & e & Hfw & He); [by vm_compute|]. exists fw, e. split; [done|]. split; [done|].
  apply (cycle_forward_correct example origin (opAt 8) 11 fw 1 12 e 2 200 ρ); try done.
  - apply example_wf.
  - apply example_ssa.
  - apply example_no_control_merge.
  - by apply opAt_in; lia.
  - intros v Hv. by destruct (example_no_index v).
  - intros n v x ->%example_carries. exists ρ. split; [apply example_consistent|done].
  - apply (carries_pass example origin 1 (opAt 9) 11 12); [by apply opAt_in; lia|by apply list_elem_of_singleton..|].
    apply (carries_pass example origin 0 (opAt 8) 2 11); [by apply opAt_in; lia|set_solver|by apply list_elem_of_singleton|].
    apply carries_src; [|done]. intros o Ho Hr Hp. split_in Ho; try (by destruct Hp); cbn in Hr; rewrite !elem_of_cons, elem_of_nil in Hr; naive_solver.
  - apply example_consistent.
Defined.

(** * The branch *)

Lemma bound_branch_correct_witness :
  outcomeOf (let* (t, _) := ArithBoundOpt example (opAt 13) in Ok t) = Ok 7
  ∧ ∃ t f, ArithBoundOpt example (opAt 13) = Ok (t, f) ∧ ∀ e, t = Some e → ρ 16%nat = 1 →
      ∃ u, eval example ρ e = Ok u ∧ (u = ρ 17%nat ∨ indistinguishable example ρ 17 u).
Proof.
  split; [by vm_compute|]. destruct (ArithBoundOpt example (opAt 13)) as [[t f]|] eqn:He.
  2: { apply (f_equal is_ok) in He. by vm_compute in He. }
  exists t, f. split; [done|].
  refine (proj1 (bound_branch_correct example example_wf ρ example_consistent example_no_control_merge _ _ (opAt 13) 16 14 17 18 t f _ _ _ _ _ _ He)); try done.
  - intros o k Ho Hk Hn. split_in Ho; try done; injection Hk as <-; vm_compute in Hn; done.
  - intros v. do 22 (destruct v as [|v]; [vm_compute; done|]). unfold width. simpl. by destruct v.
  - by apply opAt_in; lia.
  - intros o p v v' d Ho Hk Hv _ _ _. split_in Ho; try done. cbn in Hv. split_in Hv; done.
Defined.

(** * Where the patterns go wrong *)

(** A byte below 191, a constant that is negative with a sign and closer to 0 needs a
    bit less: 7 bits are kept of 150. *)
Definition below_191 : Circuit :=
  mkCircuit
    [mkOperation (ConstantOp (Bits.mk 8 191)) [1%nat] [2%nat];
     mkOperation (CmpIOp ult) [0%nat; 2%nat] [3%nat];
     mkOperation ConditionalBranchOp [3%nat; 0%nat] [4%nat; 5%nat];
     mkOperation BufferOp [4%nat] [6%nat]]
    (λ v, integerChannel (nth v [8; 1; 8; 1] 8)).

Example below_191_truncates :
  (let* (t, _) := ArithBoundOpt below_191 (mkOperation ConditionalBranchOp [3%nat; 0%nat] [4%nat; 5%nat]) in
   let* e := of_option AssertFailed t in
   eval below_191 (λ v, nth v [150; 0; 191; 1; 150; 0; 150] 0) e) = Ok 22.
Proof. by vm_compute. Qed.

(** 15 by 32, with a dividend of 4 bits: the divisor becomes 0 at 5 bits. *)
Definition wide_divisor : Circuit :=
  mkCircuit
    [mkOperation ExtUIOp [0%nat] [2%nat]; mkOperation DivUIOp [2%nat; 1%nat] [3%nat]]
    (λ v, integerChannel (nth v [4] 8)).

Example wide_divisor_undefined :
  (let* e := arithPatterns wide_divisor true (mkOperation DivUIOp [2%nat; 1%nat] [3%nat]) in
   let* e := of_option AssertFailed e in
   eval wide_divisor (λ v, nth v [15; 32; 15; 0] 0) e) = Bad Poison.
Proof. by vm_compute. Qed.

(** Two buffers in a row: the search for where a value comes from stops between them. *)
Definition two_buffers : Circuit :=
  mkCircuit [mkOperation BufferOp [0%nat] [1%nat]; mkOperation BufferOp [1%nat] [2%nat]] (λ _, integerChannel 8).

Example backtrack_one_buffer : backtrack two_buffers 2 = Ok 1%nat.
Proof. by vm_compute. Qed.

(** The index of a control merge with one operand is taken for the operand. *)
Definition single_control_merge : Circuit :=
  mkCircuit [mkOperation ControlMergeOp [0%nat] [1%nat; 2%nat]] (λ v, integerChannel (nth v [32; 32] 1)).

Example backtrack_index : backtrack single_control_merge 2 = Ok 0%nat.
Proof. by vm_compute. Qed.
