(* ===== verification/Gaussian.v ===== *)
(** Gaussian elimination on matrices of [int] (lib/Support/LinearAlgebra/Gaussian.cpp).
    Signed overflow is undefined in C++: a value that does not fit is the fault
    [Overflow]. *)

From S2P Require Import Prelude.

Definition INT_MAX : Z := 2 ^ 31 - 1.
Definition int_ok (z : Z) : bool := (- 2 ^ 31 <=? z) && (z <=? INT_MAX).

Notation row := (list Z).

(** [boost::numeric::ublas::matrix<int>]: [size2] and the rows. *)
Record MatIntType := mkMatrix { size2 : nat; rows : list row }.

Section Elimination.
Context (fits : Z → bool).

Definition int (z : Z) : res Z := if fits z then Ok z else Bad Overflow.

(** [std::abs], undefined on the least [int]. *)
Definition intAbs (z : Z) : res Z := if int_ok (Z.abs z) then Ok (Z.abs z) else Bad Overflow.

(** The loop that finds the row to pivot around, [i] the index of the first row
    of [rs]; [pivotRow = -1] is [None]. *)
Fixpoint findPivot (i k : nat) (rs : list row) (pivotRow : option nat) (pivotValue : Z)
    : res (option nat * Z) :=
  match rs with
  | [] => Ok (pivotRow, pivotValue)
  | r :: rs =>
      let* x := at_ r k in
      if negb (x =? 0) then
        let* a := intAbs x in
        let* b := intAbs pivotValue in
        if a <? b then findPivot (S i) k rs (Some i) x
        else findPivot (S i) k rs pivotRow pivotValue
      else findPivot (S i) k rs pivotRow pivotValue
  end.

(** [m(h, i) *= -1] for [i] from [k]. *)
Definition negateFrom (k : nat) (r : row) : res row :=
  let* t := mapM (λ x, int (x * -1)) (drop k r) in Ok (take k r ++ t).

(** [eliminated *= factorPivot; eliminated -= factorRow * pivot]. *)
Definition eliminateRow (k : nat) (pivot eliminated : row) : res row :=
  let* factorPivot := at_ pivot k in
  let* factorRow := at_ eliminated k in
  let* scaled := mapM (λ x, int (x * factorPivot)) eliminated in
  let* product := mapM (λ x, int (factorRow * x)) pivot in
  mapM (λ xy, int (fst xy - snd xy)) (zip scaled product).

(** The swap, the change of sign and the elimination of the rows below. *)
Definition pivotStep (h k pivotRow : nat) (pivotValue : Z) (rs : list row) : res (list row) :=
  let* pivot := at_ rs pivotRow in
  let* other := at_ rs h in
  let rs := <[h := pivot]> (<[pivotRow := other]> rs) in
  let* pivot := if pivotValue <? 0 then negateFrom k pivot else Ok pivot in
  let* below := mapM (eliminateRow k pivot) (drop (S h) rs) in
  Ok (take h rs ++ pivot :: below).

(** The [while] loop; every iteration increases [k]. *)
Fixpoint eliminationLoop (fuel h k cols : nat) (rs : list row) : res (list row) :=
  match fuel with
  | O => Bad NoFuel
  | S fuel =>
      if (h <? length rs)%nat && (k <? cols)%nat then
        let* (pivotRow, pivotValue) := findPivot h k (drop h rs) None INT_MAX in
        match pivotRow with
        | None => eliminationLoop fuel h (S k) cols rs
        | Some p =>
            let* rs := pivotStep h k p pivotValue rs in
            eliminationLoop fuel (S h) (S k) cols rs
        end
      else Ok rs
  end.

Definition elimination (m : MatIntType) : res MatIntType :=
  let* rs := eliminationLoop (S (size2 m)) 0 0 (size2 m) (rows m) in
  Ok (mkMatrix (size2 m) rs).

End Elimination.

Definition gaussianElimination : MatIntType → res MatIntType := elimination int_ok.

(** * Rows as vectors *)

Definition coeff (r : row) (j : nat) : Z := default 0 (r !! j).

(** The rows of a matrix all have [n] entries. *)
Definition matrixOk (n : nat) (rs : list row) : Prop := Forall (λ r, length r = n) rs.

(** The vectors that follow from the rows [R]: what a solution of all of them
    solves. *)
Inductive span (R : list row) : (nat → Z) → Prop :=
| span_row r : r ∈ R → span R (coeff r)
| span_zero : span R (λ _, 0)
| span_add u v : span R u → span R v → span R (λ j, u j + v j)
| span_scale c u : span R u → span R (λ j, c * u j)
| span_divide c u : c ≠ 0 → span R (λ j, c * u j) → span R u
| span_ext u v : (∀ j, u j = v j) → span R u → span R v.

(** Two lists of rows with the same consequences. *)
Definition equivalent (R R' : list row) : Prop := ∀ v, span R v ↔ span R' v.

#[global] Instance equivalent_equivalence : Equivalence equivalent.
Proof.
  split.
  - by intros R v.
  - intros R R' H v. symmetry. apply H.
  - intros R R' R'' H H' v. rewrite (H v). apply H'.
Qed.

Lemma span_trans R R' v : (∀ r, r ∈ R → span R' (coeff r)) → span R v → span R' v.
Proof. intros HR. induction 1; eauto using span. Qed.

Lemma equivalent_intro R R' :
  (∀ r, r ∈ R → span R' (coeff r)) → (∀ r, r ∈ R' → span R (coeff r)) → equivalent R R'.
Proof. intros H H' v. split; by apply span_trans. Qed.

#[global] Instance equivalent_app : Proper (equivalent ==> equivalent ==> equivalent) (app (A := row)).
Proof.
  intros A A' HA B B' HB. apply equivalent_intro; intros r [Hr|Hr]%elem_of_app.
  - apply (span_trans A'); [|apply HA; by constructor]. intros. apply span_row, elem_of_app; auto.
  - apply (span_trans B'); [|apply HB; by constructor]. intros. apply span_row, elem_of_app; auto.
  - apply (span_trans A); [|apply HA; by constructor]. intros. apply span_row, elem_of_app; auto.
  - apply (span_trans B); [|apply HB; by constructor]. intros. apply span_row, elem_of_app; auto.
Qed.

Lemma equivalent_perm R R' : R ≡ₚ R' → equivalent R R'.
Proof. intros H. apply equivalent_intro; intros r Hr; apply span_row; [by rewrite <-H|by rewrite H]. Qed.

(** * The steps of the elimination *)

Lemma coeff_out r j : (length r ≤ j)%nat → coeff r j = 0.
Proof. intros H. unfold coeff. by rewrite lookup_ge_None_2. Qed.

Lemma coeff_at r j x : r !! j = Some x → coeff r j = x.
Proof. unfold coeff. by intros ->. Qed.

(** All entries before column [k] are zero. *)
Definition zeroBefore (k : nat) (r : row) : Prop := ∀ j, (j < k)%nat → coeff r j = 0.

(** [k] is the column of the first non-zero entry. *)
Definition leads (k : nat) (r : row) : Prop := zeroBefore k r ∧ coeff r k ≠ 0.

Section Steps.
Context (fits : Z → bool).

Lemma int_ok_inv z x : int fits z = Ok x → x = z ∧ fits x = true.
Proof. unfold int. destruct (fits z) eqn:H; [|done]. by intros [= <-]. Qed.

(** A row computed entry by entry. *)
Lemma mapM_int {A} (f : A → Z) l r : mapM (λ x, int fits (f x)) l = Ok r →
  length r = length l ∧ (∀ j, r !! j = f <$> (l !! j)) ∧ Forall (λ x, fits x = true) r.
Proof.
  intros H%mapM_ok. split; [symmetry; by eapply Forall2_length|]. split.
  - intros j. destruct (l !! j) as [x|] eqn:Hx; simpl.
    + destruct (Forall2_lookup_l _ _ _ _ _ H Hx) as (y & Hy & [-> _]%int_ok_inv). done.
    + apply lookup_ge_None. erewrite <-Forall2_length by done. by apply lookup_ge_None.
  - apply Forall_lookup. intros j y Hy.
    destruct (Forall2_lookup_r _ _ _ _ _ H Hy) as (x & _ & [_ ?]%int_ok_inv). done.
Qed.

Lemma negateFrom_spec k r r' : zeroBefore k r → negateFrom fits k r = Ok r' →
  length r' = length r ∧ (∀ j, coeff r' j = - coeff r j)
  ∧ (Forall (λ x, fits x = true) r → Forall (λ x, fits x = true) r').
Proof.
  unfold negateFrom. intros Hz H. res_inv. apply mapM_int in Ha as (Hl & Hj & Hf).
  rewrite length_app, Hl, length_take, length_drop. split; [lia|].
  split; [|intros Hr; apply Forall_app; split; [by apply Forall_take|done]]. intros j.
  unfold coeff at 1. destruct (decide (j < k)%nat) as [Hlt|Hge].
  - rewrite Hz by done. destruct (decide (j < length r)%nat).
    + rewrite lookup_app_l by (rewrite length_take; lia). rewrite lookup_take_lt by done.
      change (default 0 (r !! j)) with (coeff r j). by rewrite Hz.
    + rewrite lookup_ge_None_2; [done|]. rewrite length_app, Hl, length_take, length_drop. lia.
  - destruct (decide (j < length r)%nat).
    + rewrite lookup_app_r by (rewrite length_take; lia). rewrite length_take, Hj, lookup_drop.
      replace (k `min` length r + (j - k `min` length r))%nat with j by lia.
      replace (k + (j - k `min` length r))%nat with j by lia.
      unfold coeff. destruct (r !! j); simpl; lia.
    + rewrite coeff_out by lia. rewrite lookup_ge_None_2; [done|].
      rewrite length_app, Hl, length_take, length_drop. lia.
Qed.

Lemma eliminateRow_spec k p r r' : length p = length r → eliminateRow fits k p r = Ok r' →
  length r' = length r ∧ (∀ j, coeff r' j = coeff p k * coeff r j - coeff r k * coeff p j)
  ∧ Forall (λ x, fits x = true) r'.
Proof.
  unfold eliminateRow. intros Hlen H. res_inv.
  apply mapM_int in Ha1 as (Hl1 & Hj1 & _), Ha2 as (Hl2 & Hj2 & _).
  apply (mapM_int (λ xy, fst xy - snd xy)) in Hk0 as (Hl & Hj & Hf).
  rewrite length_zip, Hl1, Hl2 in Hl. split; [lia|]. split; [|done]. intros j.
  rewrite (coeff_at _ _ _ Ha), (coeff_at _ _ _ Ha0). unfold coeff. rewrite Hj, lookup_zip_with, Hj1, Hj2.
  destruct (decide (j < length r)%nat).
  - destruct (lookup_lt_is_Some_2 r j) as [x ->]; [done|].
    destruct (lookup_lt_is_Some_2 p j) as [y ->]; [lia|]. simpl. lia.
  - rewrite !lookup_ge_None_2 by lia. simpl. lia.
Qed.

(** What the search finds: a row with a non-zero entry in column [k], or that
    every such entry is not less than [pivotValue]. *)
Lemma findPivot_spec i k rs p v p' v' : findPivot i k rs p v = Ok (p', v') →
  (p' = p ∧ v' = v ∧ ∀ r, r ∈ rs → coeff r k ≠ 0 → Z.abs v ≤ Z.abs (coeff r k))
  ∨ ∃ j r, rs !! j = Some r ∧ p' = Some (i + j)%nat ∧ v' = coeff r k ∧ v' ≠ 0.
Proof.
  revert i p v. induction rs as [|r rs IH]; intros i p v H; simpl in H.
  - simplify_eq. left. split; [done|]. split; [done|]. by intros r Hr%not_elem_of_nil.
  - apply bind_ok in H as (x & Hx%at_ok & H). pose proof (coeff_at _ _ _ Hx) as Hc.
    destruct (Z.eqb_spec x 0) as [->|Hne]; cbn [negb] in H.
    + destruct (IH _ _ _ H) as [(-> & -> & Hall)|(j & r' & Hr' & -> & ? & ?)].
      * left. split; [done|]. split; [done|]. intros r' [->|Hr']%elem_of_cons Hr0; [lia|auto].
      * right. exists (S j), r'. split; [done|]. split; [|done]. f_equal. lia.
    + apply bind_ok in H as (a & Ha & H). apply bind_ok in H as (b & Hb & H).
      unfold intAbs in Ha, Hb. destruct (int_ok (Z.abs x)), (int_ok (Z.abs v)); try done.
      injection Ha as <-. injection Hb as <-.
      destruct (Z.ltb_spec (Z.abs x) (Z.abs v)).
      * right. destruct (IH _ _ _ H) as [(-> & -> & _)|(j & r' & Hr' & -> & ? & ?)].
        -- exists 0%nat, r. rewrite Nat.add_0_r, Hc. done.
        -- exists (S j), r'. split; [done|]. split; [|done]. f_equal. lia.
      * destruct (IH _ _ _ H) as [(-> & -> & Hall)|(j & r' & Hr' & -> & ? & ?)].
        -- left. split; [done|]. split; [done|]. intros r' [->|Hr']%elem_of_cons Hr0; [lia|auto].
        -- right. exists (S j), r'. split; [done|]. split; [|done]. f_equal. lia.
Qed.

Lemma swap_perm (rs : list row) i j p o : rs !! i = Some p → rs !! j = Some o →
  <[j := p]> (<[i := o]> rs) ≡ₚ rs.
Proof.
  intros Hp Ho. destruct (decide (i = j)) as [->|Hne].
  - simplify_eq. by rewrite list_insert_insert_eq, list_insert_id.
  - apply Permutation_sym, (Permutation_inj). split; [by rewrite !length_insert|].
    exists (λ k, if decide (k = i) then j else if decide (k = j) then i else k).
    split; [intros a b; repeat case_decide; congruence|].
    intros k. assert (i < length rs ∧ j < length rs)%nat as [? ?] by eauto using lookup_lt_Some.
    repeat case_decide; subst.
    + by rewrite list_lookup_insert_eq by (rewrite length_insert; lia).
    + rewrite list_lookup_insert_ne, list_lookup_insert_eq by (try lia; congruence). done.
    + by rewrite !list_lookup_insert_ne by congruence.
Qed.

(** The state of the loop: the first [h] rows have their leading entries in
    increasing columns before [k]; the others are zero before [k]. *)
Fixpoint staircase (from to : nat) (rs : list row) : Prop :=
  match rs with
  | [] => True
  | r :: rs => ∃ l, (from ≤ l < to)%nat ∧ leads l r ∧ staircase (S l) to rs
  end.

Definition fitting (rs : list row) : Prop := Forall (Forall (λ x, fits x = true)) rs.

(** The rows below a pivot and the rows they came from follow from each other. *)
Lemma eliminated_equivalent k p below below' : coeff p k ≠ 0 →
  Forall (λ r, length r = length p) below → mapM (eliminateRow fits k p) below = Ok below' →
  equivalent (p :: below) (p :: below')
  ∧ Forall (λ r, length r = length p) below' ∧ length below' = length below ∧ fitting below'
  ∧ (zeroBefore k p → Forall (zeroBefore k) below → Forall (zeroBefore (S k)) below').
Proof.
  intros Hp Hlen H%mapM_ok.
  assert (Forall2 (λ r r', length r' = length r
    ∧ (∀ j, coeff r' j = coeff p k * coeff r j - coeff r k * coeff p j)
    ∧ Forall (λ x, fits x = true) r') below below') as Hs.
  { apply Forall2_same_length_lookup_2; [by eapply Forall2_length|]. intros i r r' Hr Hr'.
    rewrite Forall_lookup in Hlen. pose proof (Hlen _ _ Hr).
    pose proof (Forall2_lookup_lr _ _ _ _ _ _ H Hr Hr') as He.
    by apply eliminateRow_spec. }
  assert (length below' = length below) as Hl by (symmetry; by eapply Forall2_length).
  clear H. split; [|split; [|split; [done|split]]].
  - apply equivalent_intro; intros r [->|Hr]%elem_of_cons; try (apply span_row; left).
    + apply list_elem_of_lookup in Hr as [i Hr].
      destruct (Forall2_lookup_l _ _ _ _ _ Hs Hr) as (r' & Hr' & _ & Hc & _).
      apply (span_divide _ (coeff p k)); [done|].
      apply (span_ext _ (λ j, coeff r' j + coeff r k * coeff p j)); [intros j; rewrite Hc; lia|].
      apply span_add; [apply span_row; right; by eapply list_elem_of_lookup_2|].
      apply span_scale, span_row. left.
    + apply list_elem_of_lookup in Hr as [i Hr'].
      destruct (Forall2_lookup_r _ _ _ _ _ Hs Hr') as (r0 & Hr & _ & Hc & _).
      apply (span_ext _ (λ j, coeff p k * coeff r0 j + (- coeff r0 k) * coeff p j)); [intros j; rewrite Hc; lia|].
      apply span_add; apply span_scale, span_row; [right; by eapply list_elem_of_lookup_2|left].
  - apply Forall_lookup. intros i r' Hr'. destruct (Forall2_lookup_r _ _ _ _ _ Hs Hr') as (r & Hr & -> & _).
    by eapply Forall_lookup_1 in Hlen.
  - apply Forall_lookup. intros i r' Hr'. by destruct (Forall2_lookup_r _ _ _ _ _ Hs Hr') as (r & _ & _ & _ & ?).
  - intros Hpz Hz. apply Forall_lookup. intros i r' Hr'.
    destruct (Forall2_lookup_r _ _ _ _ _ Hs Hr') as (r & Hr & _ & Hc & _).
    eapply Forall_lookup_1 in Hz; [|done]. intros j Hj. rewrite Hc.
    destruct (decide (j = k)) as [->|]; [lia|]. rewrite (Hz j), (Hpz j) by lia. lia.
Qed.

Lemma staircase_app from to rs r : staircase from to rs → leads to r → (from ≤ to)%nat →
  staircase from (S to) (rs ++ [r]).
Proof.
  revert from. induction rs as [|r0 rs IH]; simpl; intros from H Hr Hft.
  - exists to. split; [lia|done].
  - destruct H as (l & Hl & Hr0 & H). exists l. split; [lia|]. split; [done|]. apply IH; [done..|lia].
Qed.

Lemma staircase_mono from to to' rs : staircase from to rs → (to ≤ to')%nat → staircase from to' rs.
Proof.
  revert from. induction rs as [|r rs IH]; simpl; intros from H Hle; [done|].
  destruct H as (l & Hl & Hr & H). exists l. split; [lia|]. eauto.
Qed.

(** One pivot: the same consequences, and one more step of the staircase. *)
Lemma pivotStep_spec n h k p v rs rs' r :
  matrixOk n rs → fitting rs → (h ≤ p)%nat → rs !! p = Some r → v = coeff r k → v ≠ 0 →
  Forall (zeroBefore k) (drop h rs) → pivotStep fits h k p v rs = Ok rs' →
  equivalent rs rs' ∧ matrixOk n rs' ∧ fitting rs' ∧ length rs' = length rs ∧ take h rs' = take h rs
  ∧ ∃ r', rs' !! h = Some r' ∧ leads k r' ∧ Forall (zeroBefore (S k)) (drop (S h) rs').
Proof.
  unfold pivotStep, matrixOk. intros Hn Hf Hhp Hr -> Hv Hz H.
  apply bind_ok in H as (r0 & Hr0%at_ok & H). simplify_eq.
  apply bind_ok in H as (o & Ho%at_ok & H).
  set (rs1 := <[h := r]> (<[p := o]> rs)) in *.
  assert (rs1 ≡ₚ rs) as Hperm by (by apply swap_perm).
  assert (h < length rs)%nat as Hh by by eapply lookup_lt_Some.
  assert (length rs1 = length rs) as Hl1 by (subst rs1; by rewrite !length_insert).
  assert (take h rs1 = take h rs) as Ht1.
  { subst rs1. rewrite take_insert_ge by lia. apply take_insert_ge. lia. }
  assert (rs1 = take h rs ++ r :: drop (S h) rs1) as Hsplit.
  { rewrite <-Ht1. symmetry. apply take_drop_middle. subst rs1.
    apply list_lookup_insert_eq. rewrite length_insert. lia. }
  assert (Forall (zeroBefore k) (r :: drop (S h) rs1)) as Hz1.
  { rewrite <-(take_drop h rs) in Hperm. rewrite Hsplit in Hperm.
    apply (Permutation_app_inv_l) in Hperm. by rewrite Hperm. }
  assert (Forall (λ r, length r = n) rs1) as Hn1 by by rewrite Hperm.
  assert (Forall (λ r, length r = n) (r :: drop (S h) rs1)) as Hn2.
  { rewrite Hsplit in Hn1. by apply Forall_app in Hn1 as [_ ?]. }
  apply Forall_cons_1 in Hz1 as [Hzr Hzb]. apply Forall_cons_1 in Hn2 as [Hnr Hnb].
  apply bind_ok in H as (q & Hq & H). apply bind_ok in H as (below & Hb & [= <-]).
  assert (Forall (λ x, fits x = true) q) as Hqf.
  { assert (Forall (λ x, fits x = true) r) by by eapply Forall_lookup_1 in Hf.
    destruct (coeff r k <? 0); [|by simplify_eq]. apply negateFrom_spec in Hq as (_ & _ & Hq); auto. }
  assert (length q = length r ∧ zeroBefore k q ∧ coeff q k ≠ 0 ∧ equivalent [r] [q]) as (Hql & Hqz & Hqk & Hqe).
  { destruct (coeff r k <? 0); [|by simplify_eq].
    apply negateFrom_spec in Hq as (Hql & Hqj & _); [|done].
    split; [done|]. split; [intros j Hj; rewrite Hqj, Hzr by done; lia|]. split; [rewrite Hqj; lia|].
    apply equivalent_intro; intros x ->%list_elem_of_singleton.
    - apply (span_ext _ (λ j, -1 * coeff q j)); [intros j; rewrite Hqj; lia|].
      apply span_scale, span_row. by left.
    - apply (span_ext _ (λ j, -1 * coeff r j)); [intros j; rewrite Hqj; lia|].
      apply span_scale, span_row. by left. }
  apply eliminated_equivalent in Hb as (He & Hbl & Hbn & Hbf & Hbz);
    [|done|by rewrite Hql, Hnr].
  split; [|split; [|split; [|split; [|split]]]].
  - transitivity rs1; [by apply equivalent_perm|]. rewrite Ht1, Hsplit at 1.
    apply equivalent_app; [done|]. etransitivity; [|exact He].
    change (equivalent ([r] ++ drop (S h) rs1) ([q] ++ drop (S h) rs1)). by apply equivalent_app.
  - apply Forall_app. split; [by apply Forall_take|].
    constructor; [congruence|]. by rewrite Hql, Hnr in Hbl.
  - apply Forall_app. split; [|by constructor]. rewrite Ht1. by apply Forall_take.
  - rewrite length_app, length_take. simpl. rewrite Hbn, length_drop. lia.
  - rewrite Ht1, take_app_length'; [done|rewrite length_take; lia].
  - exists q. rewrite lookup_app_r by (rewrite length_take; lia).
    rewrite length_take. replace (h - h `min` length rs1)%nat with 0%nat by lia. split; [done|].
    split; [done|]. rewrite drop_app_ge by (rewrite length_take; lia).
    rewrite length_take. replace (S h - h `min` length rs1)%nat with 1%nat by lia. simpl.
    rewrite drop_0. by apply Hbz.
Qed.

Record loopInv (n h k : nat) (rs : list row) : Prop := {
  inv_matrix : matrixOk n rs;
  inv_fits : fitting rs;
  inv_height : (h ≤ length rs)%nat;
  inv_width : (k ≤ n)%nat;
  inv_staircase : staircase 0 k (take h rs);
  inv_zero : Forall (zeroBefore k) (drop h rs) }.

Lemma eliminationLoop_spec n : (∀ x, fits x = true → Z.abs x < INT_MAX) →
  ∀ fuel h k rs rs', loopInv n h k rs → eliminationLoop fits fuel h k n rs = Ok rs' →
  equivalent rs rs' ∧ ∃ h' k', loopInv n h' k' rs' ∧ ((length rs' ≤ h')%nat ∨ (n ≤ k')%nat).
Proof.
  intros Hsmall. induction fuel as [|fuel IH]; intros h k rs rs' Hinv H; [done|]. cbn [eliminationLoop] in H.
  destruct (_ && _) eqn:Hc; [|injection H as <-; split; [done|]; exists h, k; split; [done|];
    apply andb_false_iff in Hc as [?%Nat.ltb_ge|?%Nat.ltb_ge]; lia].
  apply andb_true_iff in Hc as [Hh%Nat.ltb_lt Hk%Nat.ltb_lt]. destruct Hinv as [Hm Hf _ _ Hst Hz].
  apply bind_ok in H as ([p v] & Hp%findPivot_spec & H).
  destruct Hp as [(-> & -> & Hall)|(j & r & Hr & -> & -> & Hne)].
  - apply IH in H; [done|]. constructor; [done..|lia|lia|apply (staircase_mono 0 k); [done|lia]|].
    apply Forall_elem. intros r Hr i Hi. destruct (decide (i = k)) as [->|].
    + destruct (decide (coeff r k = 0)) as [|Hne]; [done|]. pose proof (Hall _ Hr Hne) as Habs.
      assert (Z.abs (coeff r k) < INT_MAX); [|change INT_MAX with 2147483647 in *; lia].
      unfold coeff in *. destruct (r !! k) eqn:Hrk; simpl in *; [|done]. apply Hsmall.
      eapply (Forall_drop _ h), Forall_elem in Hf; [|done]. by eapply Forall_lookup_1 in Hf.
    + eapply Forall_elem in Hz; [|done]. apply Hz. lia.
  - rewrite lookup_drop in Hr. apply bind_ok in H as (rs1 & Hs & H).
    destruct (pivotStep_spec n h k (h + j) (coeff r k) rs rs1 r)
      as (He & Hm1 & Hf1 & Hl1 & Ht1 & r' & Hr' & Hlead & Hz1); [done|done|lia|done..|].
    apply IH in H as [He1 Hfin]; [split; [by etransitivity|done]|].
    constructor; [done..|lia|lia| |done]. rewrite (take_S_r _ _ _ Hr'), Ht1. apply staircase_app; [done..|lia].
Qed.

End Steps.

(** * Combinations of rows *)

Fixpoint comb (cs : list Z) (R : list row) (j : nat) : Z :=
  match cs, R with c :: cs, r :: R => c * coeff r j + comb cs R j | _, _ => 0 end.

Lemma comb_zero R j : comb (replicate (length R) 0) R j = 0.
Proof. induction R as [|r R IH]; simpl; [done|lia]. Qed.

Lemma comb_linear a b cs ds R j : length cs = length R → length ds = length R →
  comb (zip_with (λ c d, a * c + b * d) cs ds) R j = a * comb cs R j + b * comb ds R j.
Proof.
  revert cs ds. induction R as [|r R IH]; intros [|c cs] [|d ds] Hc Hd; simplify_eq/=; [lia|].
  rewrite IH by lia. lia.
Qed.

Lemma comb_row r R : r ∈ R → ∃ cs, length cs = length R ∧ ∀ j, comb cs R j = coeff r j.
Proof.
  induction 1 as [r R|r s R _ (cs & Hl & Hc)].
  - exists (1 :: replicate (length R) 0). simpl. rewrite length_replicate. split; [done|].
    intros j. rewrite comb_zero. lia.
  - exists (0 :: cs). simpl. split; [by f_equal|]. intros j. rewrite Hc. lia.
Qed.

Lemma span_comb R v : span R v →
  ∃ d cs, d ≠ 0 ∧ length cs = length R ∧ ∀ j, comb cs R j = d * v j.
Proof.
  induction 1 as [r Hr| |u v _ (d & cs & Hd & Hl & Hc) _ (e & ds & He & Hm & Hv)
    |c u _ (d & cs & Hd & Hl & Hc)|c u Hne _ (d & cs & Hd & Hl & Hc)|u v Huv _ (d & cs & Hd & Hl & Hc)].
  - destruct (comb_row _ _ Hr) as (cs & Hl & Hc). exists 1, cs. do 2 (split; [done|]). intros j. rewrite Hc. lia.
  - exists 1, (replicate (length R) 0). rewrite length_replicate. do 2 (split; [done|]). intros j. by rewrite comb_zero.
  - exists (d * e), (zip_with (λ c x, e * c + d * x) cs ds). rewrite length_zip_with, Hl, Hm, Nat.min_id.
    split; [lia|]. split; [done|]. intros j. rewrite comb_linear, Hc, Hv by done. ring.
  - exists d, (zip_with (λ x y, c * x + 0 * y) cs cs). rewrite length_zip_with, Hl, Nat.min_id.
    do 2 (split; [done|]). intros j. rewrite comb_linear, Hc by done. ring.
  - exists (d * c), cs. split; [lia|]. split; [done|]. intros j. rewrite Hc. ring.
  - exists d, cs. do 2 (split; [done|]). intros j. by rewrite Hc, Huv.
Qed.

Lemma comb_span cs R : span R (comb cs R).
Proof.
  revert cs. induction R as [|r R IH]; intros [|c cs]; try (eapply span_ext; [|apply span_zero]; done).
  simpl. apply span_add; [apply span_scale, span_row; left|].
  eapply span_trans; [|apply IH]. intros s Hs. apply span_row. by right.
Qed.

(** Every solution of the rows is a solution of what they span. *)
Definition dot (v x : nat → Z) (js : list nat) : Z := foldr (λ j s, v j * x j + s) 0 js.
Definition solves (x : nat → Z) (n : nat) (v : nat → Z) : Prop := dot v x (seq 0 n) = 0.

Lemma dot_add u v x js : dot (λ j, u j + v j) x js = dot u x js + dot v x js.
Proof. induction js as [|j js IH]; simpl; [done|]. rewrite IH. ring. Qed.

Lemma dot_scale c u x js : dot (λ j, c * u j) x js = c * dot u x js.
Proof. induction js as [|j js IH]; simpl; [lia|]. rewrite IH. ring. Qed.

Lemma dot_ext u v x js : (∀ j, u j = v j) → dot u x js = dot v x js.
Proof. intros H. induction js as [|j js IH]; simpl; [done|]. by rewrite IH, H. Qed.

Lemma span_solves x n R v : (∀ r, r ∈ R → solves x n (coeff r)) → span R v → solves x n v.
Proof.
  unfold solves. intros HR. induction 1 as [r Hr| |u v _ IHu _ IHv|c u _ IH|c u Hc _ IH|u v Huv _ IH]; auto.
  - pose proof (dot_scale 0 (λ _, 0) x (seq 0 n)) as E. simpl in E. exact E.
  - rewrite dot_add. lia.
  - rewrite dot_scale. lia.
  - rewrite dot_scale in IH. nia.
  - by rewrite <-(dot_ext _ _ _ _ Huv).
Qed.

(** * Row echelon form *)

(** The non-zero rows come first, each with its leading entry further right than
    the one before. *)
Definition echelon (n : nat) (rs : list row) : Prop :=
  ∃ h, staircase 0 n (take h rs) ∧ Forall (zeroBefore n) (drop h rs).

Definition zeroBeforeb (k : nat) (r : row) : bool := forallb (λ x, x =? 0) (take k r).

Lemma zeroBeforeb_spec k r : zeroBeforeb k r = true ↔ zeroBefore k r.
Proof.
  unfold zeroBeforeb, zeroBefore. rewrite forallb_forall. split.
  - intros H j Hj. unfold coeff. destruct (r !! j) as [x|] eqn:Hx; [|done]. simpl.
    apply Z.eqb_eq, H, list_elem_of_In, (list_elem_of_lookup_2 _ j). by rewrite lookup_take_lt.
  - intros H x [j Hx]%list_elem_of_In%list_elem_of_lookup. apply lookup_take_Some in Hx as [Hx Hj].
    apply Z.eqb_eq. by rewrite <-(H j Hj), (coeff_at _ _ _ Hx).
Qed.

Lemma zeroBefore_filter k rs : Forall (zeroBefore k) rs → filter (λ r, zeroBeforeb k r = true) rs = rs.
Proof. intros H. apply filter_all. eapply Forall_impl; [|exact H]. intros r Hr. by apply zeroBeforeb_spec. Qed.

Lemma comb_zeroBefore k cs R j : Forall (zeroBefore k) R → (j < k)%nat → comb cs R j = 0.
Proof.
  revert cs. induction R as [|r R IH]; intros [|c cs] HR Hj; simpl; try done.
  apply Forall_cons_1 in HR as [Hr HR]. rewrite (Hr j Hj), IH by done. lia.
Qed.

Lemma staircase_zeroBefore from to rs k : staircase from to rs → (k ≤ from)%nat → Forall (zeroBefore k) rs.
Proof.
  revert from. induction rs as [|r rs IH]; intros from H Hk; constructor; destruct H as (l & Hl & [Hz _] & H).
  - intros j Hj. apply Hz. lia.
  - eapply IH; [done|lia].
Qed.

(** What follows from rows in echelon form and is zero in the first columns
    follows from the rows that are zero in these columns. *)
Lemma echelon_span n rs c v : echelon n rs → (c ≤ n)%nat → span rs v → (∀ j, (j < c)%nat → v j = 0) →
  span (filter (λ r, zeroBeforeb c r = true) rs) v.
Proof.
  intros (h & Hst & Hz) Hc Hv Hvz. destruct (span_comb _ _ Hv) as (d & cs & Hd & Hl & Hcomb).
  apply (span_divide _ d); [done|].
  rewrite <-(take_drop h rs) in Hl, Hcomb |- *. revert Hl Hcomb.
  generalize (drop h rs), (take h rs), 0%nat, Hz, Hst. clear Hst Hz Hv. intros bot top from Hz Hst.
  revert from cs Hst. induction top as [|r top IH]; intros from cs Hst Hl Hcomb; simpl in *.
  - apply (span_ext _ (comb cs bot)); [exact Hcomb|]. rewrite zeroBefore_filter; [apply comb_span|].
    eapply Forall_impl; [|done]. intros x Hx j Hj. apply Hx. lia.
  - destruct Hst as (l & Hlt & [Hr Hrl] & Hst). destruct cs as [|c0 cs]; [done|]. simpl in *.
    destruct (decide (c ≤ l)%nat) as [Hcl|Hcl].
    + apply (span_ext _ (comb (c0 :: cs) (r :: top ++ bot))); [exact Hcomb|].
      rewrite (zeroBefore_filter c (r :: top ++ bot)); [apply comb_span|].
      constructor; [intros j Hj; apply Hr; lia|]. apply Forall_app. split.
      * eapply staircase_zeroBefore; [done|lia].
      * eapply Forall_impl; [|done]. intros x Hx j Hj. apply Hx. lia.
    + assert (c0 = 0) as ->.
      { pose proof (Hcomb l) as E. rewrite Hvz, (comb_zeroBefore (S l)) in E; [nia| |lia..].
        apply Forall_app. split; [by eapply staircase_zeroBefore|].
        eapply Forall_impl; [|done]. intros x Hx j Hj. apply Hx. lia. }
      rewrite filter_cons_False.
      * apply (IH (S l) cs); [done|lia|]. intros j. rewrite <-Hcomb. lia.
      * rewrite zeroBeforeb_spec. intros Hz0. apply Hrl, Hz0. lia.
Qed.

(** * Values that fit *)

(** The values the search for a pivot recognizes as smaller than [INT_MAX]. *)
Definition small (z : Z) : bool := Z.abs z <? INT_MAX.

Lemma small_int_ok z : small z = true → int_ok z = true.
Proof.
  unfold small, int_ok. change INT_MAX with 2147483647. intros ?%Z.ltb_lt.
  apply andb_true_iff. split; apply Z.leb_le; lia.
Qed.

Lemma mapM_mono {A B} (f g : A → res B) l l' :
  (∀ x y, f x = Ok y → g x = Ok y) → mapM f l = Ok l' → mapM g l = Ok l'.
Proof. rewrite !mapM_ok. intros H Hl. eapply Forall2_impl; [|exact Hl]. simpl. auto. Qed.

Section Monotone.
Context (f g : Z → bool) (Hfg : ∀ z, f z = true → g z = true).

Lemma int_mono z x : int f z = Ok x → int g z = Ok x.
Proof. unfold int. destruct (f z) eqn:E; [|done]. by rewrite Hfg. Qed.

Lemma mapM_int_mono {A} (h : A → Z) l r :
  mapM (λ x, int f (h x)) l = Ok r → mapM (λ x, int g (h x)) l = Ok r.
Proof. apply mapM_mono. intros x y. apply int_mono. Qed.

Lemma pivotStep_mono h k p v rs rs' : pivotStep f h k p v rs = Ok rs' → pivotStep g h k p v rs = Ok rs'.
Proof.
  unfold pivotStep. intros H. apply bind_ok in H as (r & -> & H). simpl in *.
  apply bind_ok in H as (o & -> & H). simpl in *. apply bind_ok in H as (q & Hq & H).
  assert ((if v <? 0 then negateFrom g k r else Ok r) = Ok q) as ->.
  { destruct (v <? 0); [|done]. unfold negateFrom in *. apply bind_ok in Hq as (t & Ht & Hq).
    by rewrite (mapM_int_mono (λ x, x * -1) _ _ Ht). }
  simpl in *. apply bind_ok in H as (below & Hb & H). erewrite mapM_mono; [exact H| |exact Hb].
  intros x y Hx. unfold eliminateRow in *. apply bind_ok in Hx as (a & -> & Hx). simpl in *.
  apply bind_ok in Hx as (b & -> & Hx). simpl in *. apply bind_ok in Hx as (s & Hs & Hx).
  rewrite (mapM_int_mono (λ x, x * a) _ _ Hs). simpl in *. apply bind_ok in Hx as (t & Ht & Hx).
  rewrite (mapM_int_mono (λ x, b * x) _ _ Ht). simpl. by apply (mapM_int_mono (λ xy, fst xy - snd xy)).
Qed.

Lemma eliminationLoop_mono fuel : ∀ h k n rs rs',
  eliminationLoop f fuel h k n rs = Ok rs' → eliminationLoop g fuel h k n rs = Ok rs'.
Proof.
  induction fuel as [|fuel IH]; intros h k n rs rs' H; [done|]. cbn [eliminationLoop] in *.
  destruct (_ && _); [|done]. apply bind_ok in H as ([[p|] v] & -> & H); simpl in *; [|by apply IH].
  apply bind_ok in H as (rs1 & Hs & H). rewrite (pivotStep_mono _ _ _ _ _ _ Hs). by apply IH.
Qed.

End Monotone.

(** No loop goes on beyond its bound. *)
Section Fuel.
Context (fits : Z → bool).

Lemma int_fuelless z : fuelless (int fits z).
Proof. unfold int. by destruct (fits z). Qed.

Lemma mapM_fuelless {A B} (f : A → res B) l : (∀ x, fuelless (f x)) → fuelless (mapM f l).
Proof. intros H. induction l as [|x l IH]; simpl; fuelless. Qed.
#[local] Hint Resolve int_fuelless mapM_fuelless : dyn.

Lemma findPivot_fuelless k rs : ∀ i p v, fuelless (findPivot i k rs p v).
Proof.
  induction rs as [|r rs IH]; intros i p v; simpl; [done|]. apply fuelless_bind; [auto with dyn|].
  intros x. if_case; [|apply IH]. unfold intAbs.
  destruct (int_ok (Z.abs x)), (int_ok (Z.abs v)); simpl; try done. if_case; apply IH.
Qed.

Lemma pivotStep_fuelless h k p v rs : fuelless (pivotStep fits h k p v rs).
Proof.
  unfold pivotStep, negateFrom, eliminateRow. fuelless.
  - if_case; fuelless.
  - apply mapM_fuelless. intros. fuelless.
Qed.

Lemma eliminationLoop_fuelless fuel : ∀ h k n rs, (n - k < fuel)%nat →
  fuelless (eliminationLoop fits fuel h k n rs).
Proof.
  induction fuel as [|fuel IH]; intros h k n rs Hf; [lia|]. cbn [eliminationLoop].
  destruct (_ && _) eqn:Hc; [|done]. apply andb_true_iff in Hc as [_ Hk%Nat.ltb_lt].
  apply fuelless_bind; [apply findPivot_fuelless|]. intros [[p|] v]; [|apply IH; lia].
  apply fuelless_bind; [apply pivotStep_fuelless|]. intros rs'. apply IH. lia.
Qed.

End Fuel.

(** * What the elimination does *)

(** Gaussian elimination ends on every matrix. *)
Theorem gaussianElimination_ends m : gaussianElimination m ≠ Bad NoFuel.
Proof.
  apply fuelless_bind; [|done]. apply eliminationLoop_fuelless. lia.
Qed.

Lemma elimination_small m m' :
  matrixOk (size2 m) (rows m) → Forall (Forall (λ x, small x = true)) (rows m) →
  elimination small m = Ok m' →
  gaussianElimination m = Ok m' ∧ size2 m' = size2 m ∧ matrixOk (size2 m) (rows m')
  ∧ echelon (size2 m) (rows m') ∧ equivalent (rows m) (rows m').
Proof.
  unfold gaussianElimination, elimination. intros Hm Hf H. apply bind_ok in H as (rs & Hr & [= <-]). cbn [size2 rows].
  rewrite (eliminationLoop_mono small int_ok small_int_ok _ _ _ _ _ _ Hr).
  apply (eliminationLoop_spec small (size2 m)) in Hr as [He (h & k & [Hm' _ _ Hk Hst Hz] & Hend)].
  - do 3 (split; [done|]). split; [|done].
    exists h. split; [by eapply staircase_mono|]. destruct Hend as [Hh|Hn].
    + by rewrite drop_ge.
    + eapply Forall_impl; [|exact Hz]. intros r Hr j Hj. apply Hr. lia.
  - unfold small. intros x Hx. by apply Z.ltb_lt.
  - constructor; simpl; [done|done|lia|lia|done|]. apply Forall_elem. intros r _ j Hj. lia.
Qed.

(** C28.  As long as no entry of the matrix and no value computed reaches the
    greatest [int] in absolute value, the elimination gives a matrix in row
    echelon form whose rows have the same integer consequences as the rows of the
    original one: in particular the same solutions. *)
Theorem gaussianElimination_echelon m m' :
  matrixOk (size2 m) (rows m) → Forall (Forall (λ x, small x = true)) (rows m) →
  elimination small m = Ok m' →
  gaussianElimination m = Ok m' ∧ size2 m' = size2 m ∧ echelon (size2 m) (rows m')
  ∧ equivalent (rows m) (rows m')
  ∧ ∀ x, (∀ r, r ∈ rows m → solves x (size2 m) (coeff r)) ↔ (∀ r, r ∈ rows m' → solves x (size2 m) (coeff r)).
Proof.
  intros Hm Hf H. destruct (elimination_small m m' Hm Hf H) as (Hg & Hs & _ & He & Heq).
  do 4 (split; [done|]). intros x. split; intros Hx r Hr; apply (span_solves x _ _ _ Hx), Heq; by apply span_row.
Qed.

Lemma gaussianElimination_echelon_witness :
  let m := mkMatrix 3 [[0; 2; 1]; [3; 1; 0]; [-2; 1; 1]] in
  ∃ m', gaussianElimination m = Ok m' ∧ rows m' = [[2; -1; -1]; [0; 4; 2]; [0; 0; 2]].
Proof.
  set (m := mkMatrix 3 [[0; 2; 1]; [3; 1; 0]; [-2; 1; 1]]).
  exists (mkMatrix 3 [[2; -1; -1]; [0; 4; 2]; [0; 0; 2]]).
  destruct (gaussianElimination_echelon m (mkMatrix 3 [[2; -1; -1]; [0; 4; 2]; [0; 0; 2]])) as [H _];
    [by repeat (apply Forall_nil_2 || apply Forall_cons_2)
    |by repeat (apply Forall_nil_2 || apply Forall_cons_2)|reflexivity|].
  split; [exact H|reflexivity].
Defined.

(** The bound cannot be dropped: the search for a pivot takes an entry
    [INT_MAX] for a zero, so that the row is negated only in part, and the result
    has other solutions than the matrix. *)
Theorem gaussianElimination_int_max :
  let m := mkMatrix 2 [[INT_MAX; -1]] in
  gaussianElimination m = Ok (mkMatrix 2 [[INT_MAX; 1]])
  ∧ solves (λ j, if (j =? 0)%nat then 1 else INT_MAX) 2 (coeff [INT_MAX; -1])
  ∧ ¬ solves (λ j, if (j =? 0)%nat then 1 else INT_MAX) 2 (coeff [INT_MAX; 1]).
Proof. split; [reflexivity|]. split; [reflexivity|]. by vm_compute. Qed.
