(* ===== verification/FlowNamers.v ===== *)
(** Names of the internal state of handshake operations
    (HandshakeOpInternalStateNamer.h, HandshakeOpInternalStateNamer.cpp). *)

From stdpp Require Import strings pretty.
From S2P Require Import Prelude.

Declare Scope smv_scope.
Infix "+:" := String.append (right associativity, at level 60) : smv_scope.
#[local] Open Scope smv_scope.

(** * The kinds of namers *)

Module NamerType.

Inductive TYPE : Type :=
| TY_EagerForkSent | TY_BufferSlotFull | TY_TokenCount | TY_PipelineSlot
| TY_Constrained | TY_MemoryControllerSlot | TY_EffectiveSlot | TY_EntrySlot.

#[export] Instance TYPE_eq_dec : EqDecision TYPE.
Proof. solve_decision. Defined.

Definition typeFromStr (s : string) : option TYPE :=
  if String.eqb s "EagerForkSent" then Some TY_EagerForkSent
  else if String.eqb s "BufferSlotFull" then Some TY_BufferSlotFull
  else if String.eqb s "PipelineSlot" then Some TY_PipelineSlot
  else if String.eqb s "Constrained" then Some TY_Constrained
  else if String.eqb s "MemoryControllerSlot" then Some TY_MemoryControllerSlot
  else if String.eqb s "EffectiveSlot" then Some TY_EffectiveSlot
  else if String.eqb s "EntrySlot" then Some TY_EntrySlot
  else if String.eqb s "TokenCount" then Some TY_TokenCount
  else None.

Definition typeToStr (t : TYPE) : string :=
  match t with
  | TY_EagerForkSent => "EagerForkSent"
  | TY_BufferSlotFull => "BufferSlotFull"
  | TY_PipelineSlot => "PipelineSlot"
  | TY_Constrained => "Constrained"
  | TY_MemoryControllerSlot => "MemoryControllerSlot"
  | TY_EffectiveSlot => "EffectiveSlot"
  | TY_EntrySlot => "EntrySlot"
  | TY_TokenCount => "TokenCount"
  end.

Lemma typeFromStr_typeToStr t : typeFromStr (typeToStr t) = Some t.
Proof. by destruct t. Qed.

End NamerType.

(** * The namers *)

Record EagerForkSentNamer := mkEagerForkSentNamer {
  ef_opName : string; ef_channelName : string; ef_channelSize : Z }.

Record BufferSlotFullNamer := mkBufferSlotFullNamer {
  bs_opName : string; bs_slotName : string; bs_dataName : string; bs_slotSize : Z }.

Record PipelineSlotNamer := mkPipelineSlotNamer { ps_opName : string; ps_slotIndex : Z }.

Inductive PortType : Type := Load | Store | Control.

Record MemoryControllerSlotNamer := mkMemoryControllerSlotNamer {
  mc_opName : string; mc_slotIndex : Z; mc_portType : PortType; mc_loadless : bool }.

#[export] Instance EagerForkSentNamer_eq_dec : EqDecision EagerForkSentNamer.
Proof. solve_decision. Defined.
#[export] Instance BufferSlotFullNamer_eq_dec : EqDecision BufferSlotFullNamer.
Proof. solve_decision. Defined.
#[export] Instance PipelineSlotNamer_eq_dec : EqDecision PipelineSlotNamer.
Proof. solve_decision. Defined.
#[export] Instance PortType_eq_dec : EqDecision PortType.
Proof. solve_decision. Defined.
#[export] Instance MemoryControllerSlotNamer_eq_dec : EqDecision MemoryControllerSlotNamer.
Proof. solve_decision. Defined.

(** The class hierarchy; [None] is the null pointer [tryConstrain] may give for
    the slot of a constrained effective slot. *)
Inductive InternalStateNamer : Type :=
| EagerForkSent (n : EagerForkSentNamer)
| BufferSlotFull (n : BufferSlotFullNamer)
| PipelineSlot (n : PipelineSlotNamer)
| MemoryControllerSlot (n : MemoryControllerSlotNamer)
| EntrySlot (argName : string)
| TokenCount (slots : list InternalStateNamer)
| EffectiveSlot (slot : option InternalStateNamer) (copiedSents : list EagerForkSentNamer)
| ConstrainedEagerForkSent (base : EagerForkSentNamer) (value : Z)
| ConstrainedBufferSlotFull (base : BufferSlotFullNamer) (value : Z)
| ConstrainedEffectiveSlot (slot : option InternalStateNamer) (copiedSents : list EagerForkSentNamer) (value : Z).

Definition EffectiveSlotNamer : Type := option InternalStateNamer * list EagerForkSentNamer.

#[export] Instance InternalStateNamer_eq_dec : EqDecision InternalStateNamer.
Proof.
  refine (fix go x y := match x, y return Decision (x = y) with
    | EagerForkSent a, EagerForkSent b => cast_if (decide (a = b))
    | BufferSlotFull a, BufferSlotFull b => cast_if (decide (a = b))
    | PipelineSlot a, PipelineSlot b => cast_if (decide (a = b))
    | MemoryControllerSlot a, MemoryControllerSlot b => cast_if (decide (a = b))
    | EntrySlot a, EntrySlot b => cast_if (decide (a = b))
    | TokenCount a, TokenCount b => cast_if (@list_eq_dec _ go a b)
    | EffectiveSlot a s, EffectiveSlot b t =>
        cast_if_and (@option_eq_dec _ go a b) (decide (s = t))
    | ConstrainedEagerForkSent a v, ConstrainedEagerForkSent b w =>
        cast_if_and (decide (a = b)) (decide (v = w))
    | ConstrainedBufferSlotFull a v, ConstrainedBufferSlotFull b w =>
        cast_if_and (decide (a = b)) (decide (v = w))
    | ConstrainedEffectiveSlot a s v, ConstrainedEffectiveSlot b t w =>
        cast_if_and3 (@option_eq_dec _ go a b) (decide (s = t)) (decide (v = w))
    | _, _ => right _
    end); clear go; abstract congruence.
Defined.

(** * Names of the signals in the SMV model *)

Definition showZ (z : Z) : string := pretty z.

Definition EagerForkSentNamer_getSMVName (n : EagerForkSentNamer) : string :=
  (ef_opName n +: "." +: ef_channelName n +: "_sent")%string.

Definition BufferSlotFullNamer_getSMVName (n : BufferSlotFullNamer) : string :=
  (bs_opName n +: "." +: bs_slotName n)%string.

Definition PipelineSlotNamer_getSMVName (n : PipelineSlotNamer) : string :=
  (ps_opName n +: ".inner_handshake_manager.inner_delay_buffer.v" +: showZ (ps_slotIndex n))%string.

Definition MemoryControllerSlotNamer_getSMVName (n : MemoryControllerSlotNamer) : res string :=
  match mc_portType n with
  | Load => Ok (mc_opName n +: ".inner_arbiter.valid_" +: showZ (mc_slotIndex n))%string
  | Store => Ok (mc_opName n +: ".inner_mc_loadless.inner_arbiter.valid_" +: showZ (mc_slotIndex n))%string
  | Control => Bad AssertFailed
  end.

(** Both arguments are [size_t]. *)
Definition smvValue (channelSize value : Z) : res string :=
  let value := wrapU 64 value in
  if channelSize <=? 0 then Bad AssertFailed
  else if channelSize =? 1 then
    if value =? 0 then Ok "FALSE"%string
    else if value =? 1 then Ok "TRUE"%string
    else Bad FatalError
  else Ok ("0ud" +: showZ channelSize +: "_" +: showZ value)%string.

Fixpoint join (sep : string) (l : list string) : string :=
  match l with
  | [] => EmptyString
  | [x] => x
  | x :: l => (x +: sep +: join sep l)%string
  end.

(** The name of a slot whose forks have not sent its token yet. *)
Definition effectiveName (slotName : string) (copiedSents : list EagerForkSentNamer) : string :=
  match copiedSents with
  | [] => slotName
  | _ => ("(" +: slotName +: " & " +:
          join " & " (map (λ s, "!" +: EagerForkSentNamer_getSMVName s) copiedSents) +: ")")%string
  end.

Fixpoint getSMVName (n : InternalStateNamer) : res string :=
  match n with
  | EagerForkSent n => Ok (EagerForkSentNamer_getSMVName n)
  | BufferSlotFull n => Ok (BufferSlotFullNamer_getSMVName n)
  | PipelineSlot n => Ok (PipelineSlotNamer_getSMVName n)
  | MemoryControllerSlot n => MemoryControllerSlotNamer_getSMVName n
  | EntrySlot a => Ok (a +: "_valid")%string
  | TokenCount slots =>
      match slots with
      | [] => Ok "0"%string
      | _ => let* names := mapM getSMVName slots in Ok ("count(" +: join ", " names +: ")")%string
      end
  | EffectiveSlot slot sents | ConstrainedEffectiveSlot slot sents _ =>
      match slot with
      | None => Bad NullDeref
      | Some slot => let* name := getSMVName slot in Ok (effectiveName name sents)
      end
  | ConstrainedEagerForkSent b v =>
      let* value := smvValue (ef_channelSize b) v in
      Ok (EagerForkSentNamer_getSMVName b +: " & (" +: ef_opName b +: ".ins = " +: value +: ")")%string
  | ConstrainedBufferSlotFull b v =>
      let* value := smvValue (bs_slotSize b) v in
      Ok (BufferSlotFullNamer_getSMVName b +: " & (" +: bs_opName b +: "." +: bs_dataName b
          +: " = " +: value +: ")")%string
  end.

(** * Constraining a state to a value *)

(** [None] is the null pointer. *)
Fixpoint tryConstrain (n : InternalStateNamer) (value : Z) : res (option InternalStateNamer) :=
  match n with
  | EagerForkSent n => Ok (Some (ConstrainedEagerForkSent n value))
  | BufferSlotFull n => Ok (Some (ConstrainedBufferSlotFull n value))
  | EffectiveSlot slot sents =>
      match slot with
      | None => Bad NullDeref
      | Some slot => let* c := tryConstrain slot value in Ok (Some (ConstrainedEffectiveSlot c sents value))
      end
  | _ => Ok None
  end.

Definition getUnconstrained (n : InternalStateNamer) : option InternalStateNamer :=
  match n with
  | ConstrainedEagerForkSent b _ => Some (EagerForkSent b)
  | ConstrainedBufferSlotFull b _ => Some (BufferSlotFull b)
  | ConstrainedEffectiveSlot s l _ => Some (EffectiveSlot s l)
  | _ => None
  end.
