(* ===== verification/HandshakeIR.v ===== *)
(** Circuits of handshake operations, as the formal property passes read them:
    what MLIR's operations and values offer (operands, results, uses, defining
    operation, attributes), and the names of the operations' internal states
    (HandshakeInterfaces.cpp, HandshakeOps.cpp,
    HandshakeOpInternalStateNamer.cpp). *)

From stdpp Require Import strings pretty.
From S2P Require Import FlowNamers Prelude.
#[local] Open Scope smv_scope.

(** A channel: an SSA value. *)
Notation Value := nat.
(** An [Operation *]: the position of the operation in the function. *)
Notation OpId := nat.

Inductive BufferType : Type :=
| ONE_SLOT_BREAK_DV | ONE_SLOT_BREAK_R | FIFO_BREAK_NONE | FIFO_BREAK_DV
| ONE_SLOT_BREAK_DVR | SHIFT_REG_BREAK_DV | COUNTER_BUFFER.

(** A load port of a memory controller: its load operation, the operand with the
    address and the result with the data. *)
Record LoadPort := mkLoadPort { loadOp : OpId; addrInputIndex : nat; dataOutputIndex : nat }.

(** What an operation with [ArithOpInterface] waits for: all its operands, or, like a
    [SelectOp], its condition and the operand that the condition selects. *)
Inductive ArithKind : Type := Joining | Selecting.

(** [ArithOp] stands for the operations with [ArithOpInterface]: its [latency] is
    [None] without [LatencyInterface], [Some None] without the attribute.  The passes do
    not ask for its kind. *)
Inductive HandshakeOp : Type :=
| ArithOp (kind : ArithKind) (latency : option (option Z)) (operands results : list Value)
| EndOp (inputs : list Value)
| SinkOp (operand : Value)
| SourceOp (result : Value)
| DeadBufferOp (operand : Value)
| ForkOp (operand : Value) (result : list Value)
| MuxOp (selectOperand : Value) (dataOperands : list Value) (result : Value)
| MergeOp (dataOperands : list Value) (result : Value)
| BufferOp (bufferType : BufferType) (numSlots : nat) (operand result : Value)
| ConditionalBranchOp (conditionOperand dataOperand trueResult falseResult : Value)
| LoadOp (address data addressResult dataResult : Value)
| StoreOp (address data addressResult dataResult : Value)
| ControlMergeOp (dataOperands : list Value) (result index : Value)
| MemoryControllerOp (loadPorts : list LoadPort) (operands results : list Value)
| OtherOp (operands results : list Value).

Record Operation := mkOperation { opName : string; theOp : HandshakeOp }.

(** A [handshake::FuncOp]: its arguments with their names, its operations, and the
    width of the channels that carry data. *)
Record FuncOp := mkFuncOp {
  arguments : list (Value * string); ops : list Operation; dataBitWidth : Value → option Z }.

Definition getOperands (op : HandshakeOp) : list Value :=
  match op with
  | ArithOp _ _ ins _ | EndOp ins | MergeOp ins _ | ControlMergeOp ins _ _
  | MemoryControllerOp _ ins _ | OtherOp ins _ => ins
  | SinkOp a | DeadBufferOp a | ForkOp a _ | BufferOp _ _ a _ => [a]
  | SourceOp _ => []
  | MuxOp s ins _ => s :: ins
  | ConditionalBranchOp a b _ _ | LoadOp a b _ _ | StoreOp a b _ _ => [a; b]
  end.

Definition getResults (op : HandshakeOp) : list Value :=
  match op with
  | ArithOp _ _ _ outs | ForkOp _ outs | MemoryControllerOp _ _ outs | OtherOp _ outs => outs
  | EndOp _ | SinkOp _ | DeadBufferOp _ => []
  | SourceOp a | MuxOp _ _ a | MergeOp _ a | BufferOp _ _ _ a => [a]
  | ConditionalBranchOp _ _ a b | LoadOp _ _ a b | StoreOp _ _ a b | ControlMergeOp _ a b => [a; b]
  end.

(** [v.getDefiningOp()]; [None] for an argument. *)
Definition getDefiningOp (f : FuncOp) (v : Value) : option OpId :=
  fst <$> list_find (λ o, v ∈ getResults (theOp o)) (ops f).

(** The owners of the uses of a value, one for every use. *)
Definition getUsers (f : FuncOp) (v : Value) : list OpId :=
  concat (imap (λ i o, replicate (length (filter (λ w, w = v) (getOperands (theOp o)))) i) (ops f)).

(** [*v.getUsers().begin()]. *)
Definition firstUser (f : FuncOp) (v : Value) : res OpId := of_option NullDeref (head (getUsers f v)).

Definition opAt (f : FuncOp) (i : OpId) : res Operation := of_option NullDeref (ops f !! i).

(** * Internal states of operations *)

(** [simpleResultName]. *)
Definition simpleResultName (idx count : nat) : string :=
  if (count =? 1)%nat then "outs"%string else ("outs_" +: showZ (Z.of_nat idx))%string.

(** The width of a channel's data, 0 for a control channel. *)
Definition widthOf (f : FuncOp) (v : Value) : Z := default 0 (dataBitWidth f v).

Definition ForkOp_sentNamers (f : FuncOp) (name : string) (result : list Value) : list EagerForkSentNamer :=
  imap (λ i r, mkEagerForkSentNamer name (simpleResultName i (length result)) (widthOf f r)) result.

Definition ControlMergeOp_sentNamers (f : FuncOp) (name : string) (result index : Value) : list EagerForkSentNamer :=
  [mkEagerForkSentNamer name "outs" (widthOf f result); mkEagerForkSentNamer name "index" (widthOf f index)].

Definition ControlMergeOp_slotNamer (f : FuncOp) (name : string) (index : Value) : BufferSlotFullNamer :=
  mkBufferSlotFullNamer name "slot_full" "data" (widthOf f index).

Definition LoadOp_slotNamers (f : FuncOp) (name : string) (address data : Value)
    : BufferSlotFullNamer * BufferSlotFullNamer :=
  (mkBufferSlotFullNamer name "addr_full" "NOT_ACCESSIBLE" (widthOf f address),
   mkBufferSlotFullNamer name "data_full" "NOT_ACCESSIBLE" (widthOf f data)).

Definition BufferOp_slotNamers (f : FuncOp) (name : string) (bufferType : BufferType) (numSlots : nat)
    (operand : Value) : res (list BufferSlotFullNamer) :=
  let width := widthOf f operand in
  match bufferType with
  | ONE_SLOT_BREAK_DV =>
      let* _ := assert_ (numSlots =? 1)%nat in
      Ok [mkBufferSlotFullNamer name "outs_valid_i" "data" width]
  | ONE_SLOT_BREAK_R =>
      let* _ := assert_ (numSlots =? 1)%nat in
      Ok [mkBufferSlotFullNamer name "full" "data" width]
  | FIFO_BREAK_NONE =>
      if (numSlots =? 1)%nat then Ok [mkBufferSlotFullNamer name "full" "reg" width]
      else Ok (map (λ i : nat, mkBufferSlotFullNamer name ("b" +: showZ (Z.of_nat i) +: ".full")%string
                                 ("b" +: showZ (Z.of_nat i) +: ".reg")%string width) (seq 0 numSlots))
  | _ => Bad FatalError
  end.

Definition DeadBufferOp_slotNamer (name : string) : BufferSlotFullNamer :=
  mkBufferSlotFullNamer name "full" EmptyString 0.

Definition getLoadPortSlotNamer (name : string) (loadPorts : list LoadPort) (index : nat)
    : res MemoryControllerSlotNamer :=
  let* _ := assert_ (index <? length loadPorts)%nat in
  Ok (mkMemoryControllerSlotNamer name (Z.of_nat index) Load false).

(** The initiation interval is taken to be 1: one slot for every cycle of latency. *)
Definition getPipelineSlots (name : string) (latency : option Z) : res (list PipelineSlotNamer) :=
  match latency with
  | None => Bad AssertFailed
  | Some l =>
      if l <? 0 then Bad OutOfRange
      else Ok (map (λ i : nat, mkPipelineSlotNamer name (Z.of_nat i)) (seq 0 (Z.to_nat l)))
  end.

(** [EagerForkLikeOpInterface]; [None] for the other operations. *)
Definition getInternalSentStateNamers (f : FuncOp) (o : Operation) : option (list EagerForkSentNamer) :=
  match theOp o with
  | ForkOp _ result => Some (ForkOp_sentNamers f (opName o) result)
  | ControlMergeOp _ result index => Some (ControlMergeOp_sentNamers f (opName o) result index)
  | _ => None
  end.

(** The slot a memory controller has for the load port of a load operation. *)
Fixpoint loadPortIndex (load : OpId) (i : nat) (ports : list LoadPort) (found : option nat) : res nat :=
  match ports with
  | [] => of_option AssertFailed found
  | p :: ports =>
      if bool_decide (loadOp p = load) then
        match found with Some _ => Bad AssertFailed | None => loadPortIndex load (S i) ports (Some i) end
      else loadPortIndex load (S i) ports found
  end.

(** The slot of the testbench that the tokens of the end operation go to. *)
Definition endSlotNamer : BufferSlotFullNamer := mkBufferSlotFullNamer "testbench" "end_full" EmptyString 0.

Definition getAllSlotsOfOperation (f : FuncOp) (i : OpId) : res (list InternalStateNamer) :=
  let* o := opAt f i in
  match theOp o with
  | ArithOp _ (Some latency) _ _ =>
      let* slots := getPipelineSlots (opName o) latency in Ok (map PipelineSlot slots)
  | EndOp _ => Ok [BufferSlotFull endSlotNamer]
  | LoadOp address data addressResult _ =>
      let '(addrSlot, dataSlot) := LoadOp_slotNamers f (opName o) address data in
      let* mcOp := firstUser f addressResult in
      let* mc := opAt f mcOp in
      match theOp mc with
      | MemoryControllerOp loadPorts _ _ =>
          let* index := loadPortIndex i 0 loadPorts None in
          let* mcSlot := getLoadPortSlotNamer (opName mc) loadPorts index in
          Ok [BufferSlotFull addrSlot; MemoryControllerSlot mcSlot; BufferSlotFull dataSlot]
      | _ => Bad FatalError
      end
  | BufferOp t n operand _ =>
      let* slots := BufferOp_slotNamers f (opName o) t n operand in Ok (map BufferSlotFull slots)
  | DeadBufferOp _ => Ok [BufferSlotFull (DeadBufferOp_slotNamer (opName o))]
  | ControlMergeOp _ _ index => Ok [BufferSlotFull (ControlMergeOp_slotNamer f (opName o) index)]
  | _ => Ok []
  end.

Definition getTokenCountNamerOfOperation (f : FuncOp) (i : OpId) : res (option InternalStateNamer) :=
  let* tokens := getAllSlotsOfOperation f i in
  Ok (match tokens with [] => None | _ => Some (TokenCount tokens) end).
