(* ===== verification/FlowExpr.v ===== *)
(** Flow variables and expressions (FlowExpression.h, FlowExpression.cpp) and the
    analysis of index channels (IndexChannelAnalysis.cpp). *)

From stdpp Require Import strings gmap.
From S2P Require Import FlowNamers HandshakeIR Prelude.

(** * Index token trackers *)

(** [std::bitset<8>]: bit [i] is set if tokens of value [i] are tracked. *)
Notation TrackerBitSet := Z.
Definition trackerSize : nat := 8.

(** [trackedValues.set(i)] throws from bit 8 on. *)
Definition IndexTokenTracker (numValues : nat) : res TrackerBitSet :=
  if (numValues <=? trackerSize)%nat
  then Ok (foldl (λ b i, Z.setbit b (Z.of_nat i)) 0 (seq 0 numValues))
  else Bad OutOfRange.

Definition tracks (t : TrackerBitSet) (i : nat) : bool := Z.testbit t (Z.of_nat i).

(** [trackedValues &= (1 << value)]. *)
Definition only (t : TrackerBitSet) (value : nat) : TrackerBitSet :=
  Z.land t (wrapU 8 (Z.shiftl 1 (Z.of_nat value))).

Definition trackerCount (t : TrackerBitSet) : nat := length (filter (λ i, tracks t i = true) (seq 0 trackerSize)).

Definition getSingleValue (t : TrackerBitSet) : res nat :=
  let* _ := assert_ (trackerCount t =? 1)%nat in
  of_option AssertFailed (head (filter (λ i, tracks t i = true) (seq 0 trackerSize))).

(** * Flow variables *)

(** The state a [FlowInternalState] points to is known by its name: every namer is
    wrapped once, so that equal pointers are equal names. *)
Inductive Variants : Type :=
| FlowInternalState (namer : InternalStateNamer)
| ChannelLambda (channel : Value)
| InternalLambda (op : OpId) (index : Z).

Record FlowVariable := mkFlowVariable {
  variable : Variants; indexTokenTracker : option TrackerBitSet }.

#[export] Instance Variants_eq_dec : EqDecision Variants.
Proof. solve_decision. Defined.
#[export] Instance FlowVariable_eq_dec : EqDecision FlowVariable.
Proof. solve_decision. Defined.

Definition isIndex (v : FlowVariable) : bool := bool_decide (is_Some (indexTokenTracker v)).

Definition isNull (v : FlowVariable) : bool :=
  match indexTokenTracker v with Some t => t =? 0 | None => false end.

Definition setTrackedTokens (v : FlowVariable) (x : nat) : res FlowVariable :=
  match indexTokenTracker v with
  | None => Bad FatalError
  | Some t => Ok (mkFlowVariable (variable v) (Some (only t x)))
  end.

(** The next of the channels inside an operation. *)
Definition nextInternal (f : FuncOp) (v : FlowVariable) : res FlowVariable :=
  match variable v with
  | ChannelLambda c =>
      match getUsers f c with
      | op :: _ => Ok (mkFlowVariable (InternalLambda op 0) (indexTokenTracker v))
      | [] => Bad AssertFailed
      end
  | InternalLambda op index =>
      Ok (mkFlowVariable (InternalLambda op (wrapU 32 (index + 1))) (indexTokenTracker v))
  | FlowInternalState _ => Bad AssertFailed
  end.

(** The namer of an internal state; [None] for a null pointer. *)
Definition getAnnotater (v : FlowVariable) : res (option InternalStateNamer) :=
  match variable v with
  | FlowInternalState namer =>
      match indexTokenTracker v with
      | Some t =>
          match trackerCount t with
          | O => Ok None
          | 1%nat => let* i := getSingleValue t in tryConstrain namer (Z.of_nat i)
          | _ => Bad FatalError
          end
      | None => Ok (Some namer)
      end
  | _ => Ok None
  end.

(** * Flow expressions *)

(** The map of terms, as a list without repeated variables. *)
Notation FlowExpression := (list (FlowVariable * Z)).

(** [terms[key] = h(terms[key])], with 0 for an absent key. *)
Fixpoint updateTerm (key : FlowVariable) (h : Z → Z) (terms : FlowExpression) : FlowExpression :=
  match terms with
  | [] => [(key, h 0)]
  | (v, c) :: terms => if decide (v = key) then (v, h c) :: terms else (v, c) :: updateTerm key h terms
  end.

(** The constructor from a variable: the sum over its tracked values. *)
Definition ofVariable (v : FlowVariable) : FlowExpression :=
  if isNull v then []
  else match indexTokenTracker v with
       | None => [(v, 1)]
       | Some t =>
           foldl (λ terms i,
             if tracks t i then updateTerm (mkFlowVariable (variable v) (Some (only t i))) (λ _, 1) terms else terms)
             [] (seq 0 trackerSize)
       end.

Definition flowNeg (expr : FlowExpression) : FlowExpression := map (λ '(v, c), (v, - c)) expr.

Definition flowAdd (left_ right_ : FlowExpression) : FlowExpression :=
  foldl (λ terms '(v, c), updateTerm v (λ x, x + c) terms) left_ right_.

Definition flowSub (left_ right_ : FlowExpression) : FlowExpression :=
  foldl (λ terms '(v, c), updateTerm v (λ x, x - c) terms) left_ right_.

Definition flowScale (coef : Z) (expr : FlowExpression) : FlowExpression := map (λ '(v, c), (v, c * coef)) expr.

(** * Index channels *)

Notation IndexChannels := (gmap Value nat).

(** [DenseMap::insert] keeps the value of a key that is there. *)
Definition insertIfAbsent (v : Value) (n : nat) (m : IndexChannels) : IndexChannels :=
  match m !! v with Some _ => m | None => <[v := n]> m end.

(** The recursion against the flow of tokens; it has no record of where it has
    been. *)
Fixpoint annotateIndexChannels (f : FuncOp) (fuel : nat) (index : Value) (numValues : nat)
    (m : IndexChannels) : res IndexChannels :=
  match fuel with
  | O => Bad NoFuel
  | S fuel =>
      let m := insertIfAbsent index numValues m in
      match getDefiningOp f index with
      | None => Ok m
      | Some i =>
          let* o := opAt f i in
          match theOp o with
          | BufferOp _ _ operand _ | ForkOp operand _ => annotateIndexChannels f fuel operand numValues m
          | MuxOp _ dataOperands _ | MergeOp dataOperands _ =>
              foldM (λ m prevOp, annotateIndexChannels f fuel prevOp numValues m) m dataOperands
          | _ => Ok m
          end
      end
  end.

(** The constructor of the analysis, for one function. *)
Definition IndexChannelAnalysis (f : FuncOp) (fuel : nat) : res IndexChannels :=
  foldM (λ m o,
    match theOp o with
    | MuxOp selectOperand dataOperands _ => annotateIndexChannels f fuel selectOperand (length dataOperands) m
    | ConditionalBranchOp conditionOperand _ _ _ => annotateIndexChannels f fuel conditionOperand 2 m
    | _ => Ok m
    end) ∅ (ops f).

Definition getIndexChannelValues (m : IndexChannels) (channel : Value) : option nat := m !! channel.

(** The constructor of a channel's variable. *)
Definition channelVariable (m : IndexChannels) (channel : Value) : res FlowVariable :=
  match getIndexChannelValues m channel with
  | Some numValues =>
      let* t := IndexTokenTracker numValues in Ok (mkFlowVariable (ChannelLambda channel) (Some t))
  | None => Ok (mkFlowVariable (ChannelLambda channel) None)
  end.
