(* ===== verification/IndexChannels.v ===== *)
(** The analysis of index channels: which channels it finds, and when it ends
    (IndexChannelAnalysis.cpp). *)

From stdpp Require Import strings gmap relations.
From S2P Require Import FlowNamers HandshakeIR FlowExpr Prelude.

(** [prevs f c] are the channels whose tokens an operation that does not change
    them passes on to [c]. *)
Definition prevs (f : FuncOp) (c : Value) : list Value :=
  match getDefiningOp f c with
  | Some i =>
      match theOp <$> (ops f !! i) with
      | Some (BufferOp _ _ operand _) | Some (ForkOp operand _) => [operand]
      | Some (MuxOp _ dataOperands _) | Some (MergeOp dataOperands _) => dataOperands
      | _ => []
      end
  | None => []
  end.

Definition prev (f : FuncOp) (c c' : Value) : Prop := c' ∈ prevs f c.

(** The channels an operation takes an index from, with the number of values. *)
Definition indexUse (o : HandshakeOp) : option (Value * nat) :=
  match o with
  | MuxOp selectOperand dataOperands _ => Some (selectOperand, length dataOperands)
  | ConditionalBranchOp conditionOperand _ _ _ => Some (conditionOperand, 2%nat)
  | _ => None
  end.

Section Analysis.
Context (f : FuncOp).

Lemma getDefiningOp_op c i : getDefiningOp f c = Some i → is_Some (ops f !! i).
Proof. intros H. apply fmap_Some in H as ([j o] & H%list_find_Some & ->). naive_solver. Qed.

(** One call, seen as a loop over the channels before. *)
Lemma annotate_unfold fuel c n m :
  annotateIndexChannels f (S fuel) c n m
  = foldM (λ m c', annotateIndexChannels f fuel c' n m) (insertIfAbsent c n m) (prevs f c).
Proof.
  simpl. unfold prevs. destruct (getDefiningOp f c) as [i|] eqn:Hd; [|done].
  unfold opAt. destruct (getDefiningOp_op _ _ Hd) as [o ->]. simpl.
  destruct (theOp o); simpl; try done; by destruct (annotateIndexChannels f fuel operand n (insertIfAbsent c n m)).
Qed.

Lemma insertIfAbsent_dom c n m : insertIfAbsent c n m !! c ≠ None ∧ ∀ c', m !! c' ≠ None → insertIfAbsent c n m !! c' = m !! c'.
Proof.
  unfold insertIfAbsent. destruct (m !! c) eqn:E; [by rewrite E|]. split; [by rewrite lookup_insert_eq|].
  intros c' Hc'. by rewrite lookup_insert_ne by congruence.
Qed.

(** What is known stays, and all that leads to the channel becomes known. *)
Definition covered (m : IndexChannels) (c : Value) : Prop := m !! c ≠ None.
Definition extends (m m' : IndexChannels) : Prop := ∀ c, covered m c → m' !! c = m !! c.

#[local] Instance extends_preorder : PreOrder extends.
Proof. split; [by intros m c|]. intros m m' m'' H H' c Hc. rewrite <-(H c Hc). apply H'. unfold covered. by rewrite H. Qed.

Lemma extends_covered m m' c : extends m m' → covered m c → covered m' c.
Proof. intros H Hc. unfold covered. by rewrite H. Qed.

Lemma annotate_covers fuel : ∀ c n m m', annotateIndexChannels f fuel c n m = Ok m' →
  extends m m' ∧ ∀ c', rtc (prev f) c c' → covered m' c'.
Proof.
  induction fuel as [|fuel IH]; intros c n m m' H; [done|]. rewrite annotate_unfold in H.
  destruct (insertIfAbsent_dom c n m) as [Hc Hm].
  assert (∀ cs m0, foldM (λ m c', annotateIndexChannels f fuel c' n m) m0 cs = Ok m' →
    extends m0 m' ∧ ∀ c1 c2, c1 ∈ cs → rtc (prev f) c1 c2 → covered m' c2) as Hf.
  { induction cs as [|c1 cs IHcs]; intros m0 H0; simpl in H0.
    - injection H0 as <-. split; [done|]. by intros ? ? ?%elem_of_nil.
    - apply bind_ok in H0 as (m1 & H1 & H0). apply IH in H1 as [He1 Hc1]. apply IHcs in H0 as [He0 Hc0].
      split; [by etransitivity|]. intros x y [->|Hx]%elem_of_cons Hy; [|by eapply Hc0].
      eapply extends_covered; [done|]. by apply Hc1. }
  apply Hf in H as [He Hcs]. split; [by transitivity (insertIfAbsent c n m)|].
  intros c' Hr. inversion Hr as [|? c1 ? Hp Hr']; subst; [by eapply extends_covered|by eapply Hcs].
Qed.

Lemma analysis_covers fuel os m m' :
  foldM (λ m o, match theOp o with
    | MuxOp selectOperand dataOperands _ => annotateIndexChannels f fuel selectOperand (length dataOperands) m
    | ConditionalBranchOp conditionOperand _ _ _ => annotateIndexChannels f fuel conditionOperand 2 m
    | _ => Ok m end) m os = Ok m' →
  extends m m' ∧ ∀ o c n c', o ∈ os → indexUse (theOp o) = Some (c, n) → rtc (prev f) c c' → covered m' c'.
Proof.
  revert m. induction os as [|o os IH]; intros m H; simpl in H.
  - injection H as <-. split; [done|]. by intros ? ? ? ? ?%elem_of_nil.
  - apply bind_ok in H as (m1 & H1 & H). apply IH in H as [He Hc].
    assert (extends m m1 ∧ ∀ c n c', indexUse (theOp o) = Some (c, n) → rtc (prev f) c c' → covered m1 c') as [He1 Hc1].
    { destruct (theOp o); simpl; try (by injection H1 as <-); apply annotate_covers in H1 as [? Hcov];
        (split; [done|]); intros ? ? ? [= <- <-]; apply Hcov. }
    split; [by transitivity m1|]. intros x c n c' [->|Hx]%elem_of_cons Hu Hr; [|by eapply Hc].
    eapply extends_covered; [done|]. by eapply Hc1.
Qed.

(** The calls end where every channel has only finitely many before it. *)
Lemma annotate_ends (rank : Value → nat) : (∀ c c', prev f c c' → (rank c' < rank c)%nat) →
  ∀ fuel c n m, (rank c < fuel)%nat → is_ok (annotateIndexChannels f fuel c n m) = true.
Proof.
  intros Hrank. induction fuel as [|fuel IH]; intros c n m Hlt; [lia|]. rewrite annotate_unfold.
  assert (Forall (λ c', (rank c' < fuel)%nat) (prevs f c)) as Hp.
  { apply Forall_elem. intros c' Hc'. specialize (Hrank c c' Hc'). lia. }
  revert Hp. generalize (prevs f c), (insertIfAbsent c n m). induction l as [|c1 cs IHcs]; intros m0 Hp; simpl; [done|].
  apply Forall_cons_1 in Hp as [H1 Hp]. specialize (IH c1 n m0 H1).
  destruct (annotateIndexChannels f fuel c1 n m0); [by apply IHcs|done].
Qed.

(** A channel whose tokens reach the select input of a mux or the condition of
    a branch through buffers, forks, muxes and merges only is found to be an index
    channel. *)
Theorem IndexChannelAnalysis_complete fuel m o c n c' :
  IndexChannelAnalysis f fuel = Ok m → o ∈ ops f → indexUse (theOp o) = Some (c, n) → rtc (prev f) c c' →
  is_Some (getIndexChannelValues m c').
Proof.
  intros H Ho Hu Hr. apply analysis_covers in H as [_ Hc]. apply not_eq_None_Some. by eapply Hc.
Qed.

(** The analysis ends on circuits without a cycle of buffers, forks, muxes and
    merges. *)
Theorem IndexChannelAnalysis_ends (rank : Value → nat) fuel :
  (∀ c c', prev f c c' → (rank c' < rank c)%nat) →
  (∀ o c n, o ∈ ops f → indexUse (theOp o) = Some (c, n) → (rank c < fuel)%nat) →
  is_ok (IndexChannelAnalysis f fuel) = true.
Proof.
  intros Hrank Hfuel. unfold IndexChannelAnalysis. revert Hfuel. generalize (ops f), (∅ : IndexChannels).
  induction l as [|o os IH]; intros m Hfuel; simpl; [done|].
  pose proof (λ c n m, annotate_ends rank Hrank fuel c n m) as Ha.
  assert (∀ c n, indexUse (theOp o) = Some (c, n) → (rank c < fuel)%nat) as Ho by (intros; eapply Hfuel; [left|done]).
  assert (∀ m, is_ok (foldM (λ m o, match theOp o with
    | MuxOp selectOperand dataOperands _ => annotateIndexChannels f fuel selectOperand (length dataOperands) m
    | ConditionalBranchOp conditionOperand _ _ _ => annotateIndexChannels f fuel conditionOperand 2 m
    | _ => Ok m end) m os) = true) as Hos by (intros; apply IH; intros; eapply Hfuel; [by right|done]).
  destruct (theOp o); simpl; try apply Hos.
  - specialize (Ha selectOperand (length dataOperands) m (Ho _ _ eq_refl)).
    destruct (annotateIndexChannels _ _ _ _ _); [apply Hos|done].
  - specialize (Ha conditionOperand 2%nat m (Ho _ _ eq_refl)).
    destruct (annotateIndexChannels _ _ _ _ _); [apply Hos|done].
Qed.

End Analysis.

(** * Examples *)

(** A mux whose result, through a fork, is the condition of a branch. *)
Definition straight : FuncOp := mkFuncOp [(0%nat, "i"%string); (1%nat, "a"%string); (2%nat, "b"%string); (6%nat, "d"%string)]
  [mkOperation "mux0" (MuxOp 0 [1; 2] 3); mkOperation "fork0" (ForkOp 3 [4; 5]);
   mkOperation "cond_br0" (ConditionalBranchOp 4 6 7 8)]%nat (λ _, Some 1).

Lemma IndexChannelAnalysis_complete_witness : is_Some (getIndexChannelValues {[0%nat := 2%nat; 4%nat := 2%nat; 3%nat := 2%nat; 1%nat := 2%nat; 2%nat := 2%nat]} 2%nat).
Proof.
  apply (IndexChannelAnalysis_complete straight 5 _ (mkOperation "cond_br0" (ConditionalBranchOp 4 6 7 8)) 4%nat 2%nat 2%nat);
    [reflexivity|right; right; left|reflexivity|].
  apply (rtc_l _ _ 3%nat); [by left|]. apply (rtc_l _ _ 2%nat); [right; by left|]. reflexivity.
Defined.

Lemma straight_prev c c' : prev straight c c' → (c' < c)%nat.
Proof.
  unfold prev, prevs. intros H. do 9 (destruct c as [|c]; [simpl in H; set_unfold; lia|]). by apply elem_of_nil in H.
Qed.

Lemma IndexChannelAnalysis_ends_witness : is_ok (IndexChannelAnalysis straight 5) = true.
Proof.
  apply (IndexChannelAnalysis_ends straight id 5 straight_prev).
  intros o c n Ho Hu. repeat (apply elem_of_cons in Ho as [->|Ho]; [simpl in Hu; simplify_eq; unfold id; lia|]).
  by apply elem_of_nil in Ho.
Defined.

(** A value goes round through a mux and a buffer and is the condition of a branch. *)
Definition circular : FuncOp := mkFuncOp [(0%nat, "i"%string); (1%nat, "a"%string); (4%nat, "d"%string)]
  [mkOperation "mux0" (MuxOp 0 [1; 3] 2); mkOperation "buffer0" (BufferOp ONE_SLOT_BREAK_R 1 2 3);
   mkOperation "cond_br0" (ConditionalBranchOp 3 4 5 6)]%nat (λ _, Some 1).

Lemma circular_annotate fuel : ∀ n m,
  annotateIndexChannels circular fuel 2%nat n m = Bad NoFuel
  ∧ annotateIndexChannels circular fuel 3%nat n m = Bad NoFuel.
Proof.
  induction fuel as [|fuel IH]; intros n m; [done|]. rewrite !annotate_unfold.
  change (prevs circular 2) with [1; 3]%nat. change (prevs circular 3) with [2]%nat. cbn [foldM]. split.
  - destruct fuel as [|fuel]; [done|]. rewrite annotate_unfold. change (prevs circular 1) with (@nil Value). cbn [foldM bind].
    by rewrite (proj2 (IH _ _)).
  - by rewrite (proj1 (IH _ _)).
Qed.

(** The analysis keeps no record of the channels it has visited: where the
    value of an index goes round in a cycle, it never ends. *)
Theorem index_cycle_diverges fuel : IndexChannelAnalysis circular fuel = Bad NoFuel.
Proof.
  unfold IndexChannelAnalysis, circular. cbn [ops foldM theOp length]. fold circular.
  destruct fuel as [|fuel]; [done|]. rewrite annotate_unfold. change (prevs circular 0) with (@nil Value). cbn [foldM bind].
  by rewrite (proj2 (circular_annotate _ _ _)).
Qed.
