(* ===== verification/FlowExtract.v ===== *)
(** The equations on token flow that every operation gives
    (FlowEquationExtractor of FlowExpression.cpp). *)

From stdpp Require Import strings gmap.
From S2P Require Import FlowNamers HandshakeIR FlowExpr Prelude.

(** The equations pushed, and whether the extraction succeeded; each equation
    says that its expression is 0. *)
Notation Extraction := (res (list FlowExpression * bool)).

Definition push (e : FlowExpression) : Extraction := Ok ([e], true).
Definition failure : Extraction := Ok ([], false).
Definition success : Extraction := Ok ([], true).

(** [if (failed(a)) return failure(); b]. *)
Definition andThen (a b : Extraction) : Extraction :=
  let* (eqs, ok) := a in
  if ok then let* (eqs', ok') := b in Ok (eqs ++ eqs', ok') else Ok (eqs, false).

Infix ">;>" := andThen (at level 60, right associativity) : dyn_scope.

Definition pushAll (es : list FlowExpression) : Extraction := Ok (es, true).

(** A [FlowVariable] where an expression is expected. *)
Definition flowMinus (a b : FlowVariable) : FlowExpression := flowSub (ofVariable a) (ofVariable b).

Definition internalState (n : InternalStateNamer) : FlowVariable := mkFlowVariable (FlowInternalState n) None.
Definition internalLambda (op : OpId) (index : Z) : FlowVariable := mkFlowVariable (InternalLambda op index) None.
Definition withTracker (v : FlowVariable) (t : option TrackerBitSet) : FlowVariable :=
  mkFlowVariable (variable v) t.

(** The variables of the tokens of value [i] only. *)
Definition tracked3 (i : nat) (a b c : FlowVariable) : res (FlowVariable * FlowVariable * FlowVariable) :=
  let* a := setTrackedTokens a i in
  let* b := setTrackedTokens b i in
  let* c := setTrackedTokens c i in
  Ok (a, b, c).

(** [in = out + slot]. *)
Definition extractSlotEquation (in_ out slot : FlowVariable) : Extraction :=
  if isIndex in_ then
    if negb (isIndex out) || bool_decide (indexTokenTracker in_ ≠ indexTokenTracker out) then failure
    else if negb (isIndex slot) || bool_decide (indexTokenTracker in_ ≠ indexTokenTracker slot) then failure
    else
      let* es := mapM (λ i, let* (a, b, c) := tracked3 i in_ out slot in
                            Ok (flowSub (flowMinus a b) (ofVariable c))) (seq 0 trackerSize) in
      pushAll es
  else push (flowSub (flowMinus in_ out) (ofVariable slot)).

(** [in + sent = out]. *)
Definition extractEagerSentEquation (in_ out sent : FlowVariable) : Extraction :=
  if isIndex in_ then
    if negb (isIndex out) || bool_decide (indexTokenTracker in_ ≠ indexTokenTracker out) then failure
    else if negb (isIndex sent) || bool_decide (indexTokenTracker in_ ≠ indexTokenTracker sent) then failure
    else
      let* es := mapM (λ i, let* (a, b, c) := tracked3 i in_ out sent in
                            Ok (flowAdd (flowMinus a b) (ofVariable c))) (seq 0 trackerSize) in
      pushAll es
  else push (flowAdd (flowMinus in_ out) (ofVariable sent)).

Section Extractor.
Context (f : FuncOp) (ica : IndexChannels).

(** The slots of a chain, each between an internal channel and the next: the
    equations, and the last channel. *)
Fixpoint slotChain (tracked : bool) (in_ : FlowVariable) (slots : list InternalStateNamer)
    : res (list FlowExpression * bool * FlowVariable) :=
  match slots with
  | [] => Ok ([], true, in_)
  | s :: slots =>
      let slot := withTracker (internalState s) (if tracked then indexTokenTracker in_ else None) in
      let* next := nextInternal f in_ in
      let* (es, ok) := extractSlotEquation in_ next slot in
      if ok then
        let* (es', ok', last) := slotChain tracked next slots in Ok (es ++ es', ok', last)
      else Ok (es, false, in_)
  end.

(** The pipeline of an operation, from an internal channel that carries no index. *)
Definition extractPipeline (name : string) (latency : option Z) (internal : FlowVariable)
    : res (list FlowExpression * bool * FlowVariable) :=
  let* slots := getPipelineSlots name latency in
  if isIndex internal && negb (bool_decide (slots = [])) then Ok ([], false, internal)
  else slotChain false internal (map PipelineSlot slots).

Definition extractArithmeticJoinOp (i : OpId) (name : string) (latency : option (option Z))
    (operands results : list Value) : Extraction :=
  let* _ := assert_ (length results =? 1)%nat in
  let* result := at_ results 0 in
  let* out := channelVariable ica result in
  let join (joinResult : FlowVariable) : Extraction :=
    let* es := mapM (λ c, let* v := channelVariable ica c in Ok (flowMinus joinResult v)) operands in
    pushAll es in
  match latency with
  | Some l =>
      let joinResult := internalLambda i 0 in
      let* (es, ok, inner) := extractPipeline name l joinResult in
      Ok (es, ok) >;> push (flowMinus out inner) >;> join joinResult
  | None => join out
  end.

Definition extractBranchOp (conditionOperand dataOperand trueResult falseResult : Value) : Extraction :=
  let* dataVar := channelVariable ica dataOperand in
  let* trueVar := channelVariable ica trueResult in
  let* falseVar := channelVariable ica falseResult in
  let* condition := channelVariable ica conditionOperand in
  match indexTokenTracker condition with
  | None => failure
  | Some t =>
      if negb (t =? 3) then failure
      else
        let* condition0 := setTrackedTokens condition 0 in
        let* condition1 := setTrackedTokens condition 1 in
        pushAll [flowMinus falseVar condition0; flowMinus trueVar condition1; flowMinus dataVar condition]
  end.

Definition extractBufferOp (name : string) (bufferType : BufferType) (numSlots : nat)
    (operand result : Value) : Extraction :=
  let* in_ := channelVariable ica operand in
  let* out := channelVariable ica result in
  let* slots := BufferOp_slotNamers f name bufferType numSlots operand in
  let* (es, ok, last) := slotChain true in_ (map BufferSlotFull slots) in
  Ok (es, ok) >;> push (flowMinus last out).

Definition extractControlMergeOp (i : OpId) (name : string) (dataOperands : list Value)
    (result index : Value) : Extraction :=
  let numInputs := length dataOperands in
  let* tracker := IndexTokenTracker numInputs in
  let indexIntermediate := withTracker (internalLambda i 0) (Some tracker) in
  let* es := mapM (λ '(k, channel),
      let* channelVar := channelVariable ica channel in
      let* ii := setTrackedTokens indexIntermediate k in
      Ok (flowMinus channelVar ii)) (imap pair dataOperands) in
  let slot := withTracker (internalState (BufferSlotFull (ControlMergeOp_slotNamer f name index))) (Some tracker) in
  let* indexChannel := nextInternal f indexIntermediate in
  pushAll es >;> extractSlotEquation indexIntermediate indexChannel slot >;>
  (let* dataIntermediate := nextInternal f indexChannel in
   let dataIntermediate := withTracker dataIntermediate None in
   push (flowMinus dataIntermediate indexIntermediate) >;>
   (let* dataChannel := nextInternal f dataIntermediate in
    extractSlotEquation dataIntermediate dataChannel slot >;>
    (let sent (k : nat) :=
       let* n := at_ (ControlMergeOp_sentNamers f name result index) k in
       Ok (internalState (EagerForkSent n)) in
     let* dataSent := sent 0%nat in
     let* indexSent := sent 1%nat in
     let indexSent := withTracker indexSent (Some tracker) in
     let* dataOut := channelVariable ica result in
     let* indexOut := channelVariable ica index in
     extractEagerSentEquation indexChannel indexOut indexSent >;>
     extractEagerSentEquation dataChannel dataOut dataSent))).

Definition extractEndOp (i : OpId) (inputs : list Value) : Extraction :=
  let out := internalLambda i 0 in
  let* es := mapM (λ c, let* in_ := channelVariable ica c in Ok (flowMinus out in_)) inputs in
  pushAll es.

Definition extractDeadBufferOp (name : string) (operand : Value) : Extraction :=
  let* in_ := channelVariable ica operand in
  push (flowMinus in_ (internalState (BufferSlotFull (DeadBufferOp_slotNamer name)))).

(** The equations of the outputs of a fork, one after the other. *)
Fixpoint forkOutputs (in_ : FlowVariable) (outs : list (Value * EagerForkSentNamer)) : Extraction :=
  match outs with
  | [] => success
  | (c, n) :: outs =>
      (let* out := channelVariable ica c in
       let sent := withTracker (internalState (EagerForkSent n)) (indexTokenTracker in_) in
       extractEagerSentEquation in_ out sent) >;> forkOutputs in_ outs
  end.

Definition extractForkOp (name : string) (operand : Value) (result : list Value) : Extraction :=
  let* in_ := channelVariable ica operand in
  forkOutputs in_ (zip result (ForkOp_sentNamers f name result)).

Definition extractLoadOp (name : string) (address data addressResult dataResult : Value) : Extraction :=
  let '(a, d) := LoadOp_slotNamers f name address data in
  let* addrInput := channelVariable ica address in
  let* addrOutput := channelVariable ica addressResult in
  let* dataInput := channelVariable ica data in
  let* dataOutput := channelVariable ica dataResult in
  pushAll [flowSub (flowMinus addrInput addrOutput) (ofVariable (internalState (BufferSlotFull a)));
           flowSub (flowMinus dataInput dataOutput) (ofVariable (internalState (BufferSlotFull d)))].

Fixpoint loadPortEquations (name : string) (allPorts : list LoadPort) (operands results : list Value)
    (loadIndex : nat) (ports : list LoadPort) : Extraction :=
  match ports with
  | [] => success
  | load :: ports =>
      (let* a := at_ operands (addrInputIndex load) in
       let* d := at_ results (dataOutputIndex load) in
       let* addrIn := channelVariable ica a in
       let* dataOut := channelVariable ica d in
       let* slotNamer := getLoadPortSlotNamer name allPorts loadIndex in
       extractSlotEquation addrIn dataOut (internalState (MemoryControllerSlot slotNamer))) >;>
      loadPortEquations name allPorts operands results (S loadIndex) ports
  end.

Definition extractMemoryControllerOp (name : string) (loadPorts : list LoadPort)
    (operands results : list Value) : Extraction :=
  loadPortEquations name loadPorts operands results 0 loadPorts.

Definition extractMuxOp (selectOperand : Value) (dataOperands : list Value) (result : Value) : Extraction :=
  let* out := channelVariable ica result in
  let* selectVar := channelVariable ica selectOperand in
  if negb (isIndex selectVar) then
    let* dataEq := foldM (λ eq c, let* chVar := channelVariable ica c in Ok (flowAdd eq (ofVariable chVar)))
                     (flowNeg (ofVariable selectVar)) dataOperands in
    push dataEq
  else
    let* tracker := IndexTokenTracker (length dataOperands) in
    if bool_decide (indexTokenTracker selectVar ≠ Some tracker) then failure
    else
      push (flowMinus selectVar out) >;>
      (let* es := mapM (λ '(k, c),
           let* data := channelVariable ica c in
           let* s := setTrackedTokens selectVar k in
           Ok (flowMinus s data)) (imap pair dataOperands) in
       pushAll es).

Definition extractStoreOp (address data addressResult dataResult : Value) : Extraction :=
  let* dataInput := channelVariable ica data in
  let* dataOutput := channelVariable ica dataResult in
  let* addrInput := channelVariable ica address in
  let* addrOutput := channelVariable ica addressResult in
  pushAll [flowMinus dataInput dataOutput; flowMinus addrInput addrOutput].

Definition extractOp (i : OpId) (o : Operation) : Extraction :=
  let name := opName o in
  match theOp o with
  | ArithOp _ latency operands results => extractArithmeticJoinOp i name latency operands results
  | EndOp inputs => extractEndOp i inputs
  | SinkOp _ | SourceOp _ => success
  | DeadBufferOp operand => extractDeadBufferOp name operand
  | ForkOp operand result => extractForkOp name operand result
  | MuxOp selectOperand dataOperands result => extractMuxOp selectOperand dataOperands result
  | BufferOp t n operand result => extractBufferOp name t n operand result
  | ConditionalBranchOp c d t e => extractBranchOp c d t e
  | LoadOp a d ar dr => extractLoadOp name a d ar dr
  | StoreOp a d ar dr => extractStoreOp a d ar dr
  | ControlMergeOp dataOperands result index => extractControlMergeOp i name dataOperands result index
  | MemoryControllerOp loadPorts operands results => extractMemoryControllerOp name loadPorts operands results
  | MergeOp _ _ | OtherOp _ _ => failure
  end.

(** All operations are handled, even after a failure. *)
Fixpoint extractFrom (i : OpId) (os : list Operation) : Extraction :=
  match os with
  | [] => success
  | o :: os =>
      let* (es, ok) := extractOp i o in
      let* (es', ok') := extractFrom (S i) os in
      Ok (es ++ es', ok && ok')
  end.

Definition extractAll : Extraction := extractFrom 0 (ops f).

End Extractor.
