(* ===== verification/FlowSystem.v ===== *)
(** Systems of flow equations as matrices (FlowSystem of FlowExpression.h and
    FlowExpression.cpp), and the annotation of reconvergent paths
    (annotateReconvergentPathFlow of HandshakeAnnotateProperties.cpp). *)

From stdpp Require Import strings gmap.
From S2P Require Import Gaussian FlowNamers HandshakeIR FlowExpr FlowExtract Prelude.

(** * The registry of variables *)

(** [indexToVar]; [varToIndex] is its inverse. *)
Notation VariableRegistry := (list FlowVariable).

Definition addVariable (reg : VariableRegistry) (var : FlowVariable) : VariableRegistry :=
  if decide (var ∈ reg) then reg else reg ++ [var].

Definition getIndex (reg : VariableRegistry) (var : FlowVariable) : res nat :=
  of_option OutOfRange (fst <$> list_find (λ v, v = var) reg).

Definition getVar (reg : VariableRegistry) (idx : nat) : res FlowVariable := at_ reg idx.

Record FlowSystem := mkFlowSystem { registry : VariableRegistry; nLambdas : nat; matrix : MatIntType }.

Section System.
(** The order in which the terms of an expression, an unordered map, are visited. *)
Context (order : FlowExpression → FlowExpression).

(** The variables without an annotater come first. *)
Definition registerLambda (reg : VariableRegistry) (term : FlowVariable * Z) : res VariableRegistry :=
  let key := fst term in
  let* a := getAnnotater key in
  match a with
  | Some _ => Ok reg
  | None =>
      let* _ := assert_ (match indexTokenTracker key with Some t => (trackerCount t =? 1)%nat | None => true end) in
      Ok (addVariable reg key)
  end.

Definition registerAll (reg : VariableRegistry) (term : FlowVariable * Z) : VariableRegistry :=
  addVariable reg (fst term).

(** The row of an equation: [matrix(row, index) = value] for its terms. *)
Definition rowOf (reg : VariableRegistry) (expr : FlowExpression) : res (list Z) :=
  foldM (λ r term, let* index := getIndex reg (fst term) in Ok (<[index := snd term]> r))
    (replicate (length reg) 0) (order expr).

Definition FlowSystem_new (exprs : list FlowExpression) : res FlowSystem :=
  let* lambdas := foldM (λ reg expr, foldM registerLambda reg (order expr)) [] exprs in
  let reg := foldl (λ reg expr, foldl registerAll reg (order expr)) lambdas exprs in
  let* rs := mapM (rowOf reg) exprs in
  Ok (mkFlowSystem reg (length lambdas) (mkMatrix (length reg) rs)).

Definition getRowAsExpression (reg : VariableRegistry) (r : list Z) : res FlowExpression :=
  foldM (λ ret col,
    let* coef := at_ r col in
    if coef =? 0 then Ok ret
    else let* v := getVar reg col in Ok (flowAdd ret (flowScale coef (ofVariable v))))
    [] (seq 0 (length reg)).

(** A row without the variables that cannot be annotated. *)
Definition canAnnotate (nLambdas : nat) (r : list Z) : bool := zeroBeforeb nLambdas r.

(** The equations annotated, each a property of its own; [None] if the extraction
    of the equations failed. *)
Definition annotateReconvergentPathFlow (f : FuncOp) (ica : IndexChannels)
    : res (option (list FlowExpression)) :=
  let* (equations, ok) := extractAll f ica in
  if negb ok then Ok None
  else
    let* system := FlowSystem_new equations in
    let* m := gaussianElimination (matrix system) in
    let* exprs := mapM (getRowAsExpression (registry system))
                    (filter (λ r, canAnnotate (nLambdas system) r = true) (rows m)) in
    Ok (Some (filter (λ e, e ≠ []) exprs)).

End System.

(** * The value of an expression *)

Definition valuation : Type := FlowVariable → Z.

Definition eval (σ : valuation) (e : FlowExpression) : Z := foldr (λ t s, snd t * σ (fst t) + s) 0 e.

(** Tracks no value, or exactly one. *)
Definition atomic (v : FlowVariable) : Prop :=
  match indexTokenTracker v with
  | None => True
  | Some t => ∃ i, (i < trackerSize)%nat ∧ t = 2 ^ Z.of_nat i
  end.

(** What the extraction produces: no variable twice, each tracking one value. *)
Record wfExpr (e : FlowExpression) : Prop := {
  wf_nodup : NoDup (fst <$> e);
  wf_atomic : Forall atomic (fst <$> e) }.

Lemma eval_shift σ v h c e : (∀ x, h x = x + c) → eval σ (updateTerm v h e) = eval σ e + c * σ v.
Proof.
  intros Hh. induction e as [|[w d] e IH]; simpl; [rewrite Hh; ring|].
  destruct (decide (w = v)) as [->|Hne]; simpl; [rewrite Hh|rewrite IH]; ring.
Qed.

Lemma eval_flowAdd σ a b : eval σ (flowAdd a b) = eval σ a + eval σ b.
Proof.
  unfold flowAdd. revert a. induction b as [|[v c] b IH]; intros a; simpl; [ring|].
  rewrite IH, (eval_shift _ _ _ c) by done. ring.
Qed.

Lemma eval_flowSub σ a b : eval σ (flowSub a b) = eval σ a - eval σ b.
Proof.
  unfold flowSub. revert a. induction b as [|[v c] b IH]; intros a; simpl; [ring|].
  rewrite IH, (eval_shift _ _ _ (- c)) by (intros; ring). ring.
Qed.

Lemma eval_flowNeg σ a : eval σ (flowNeg a) = - eval σ a.
Proof. induction a as [|[v c] a IH]; simpl; [done|]. rewrite IH. ring. Qed.

Lemma eval_flowScale σ c a : eval σ (flowScale c a) = c * eval σ a.
Proof. induction a as [|[v d] a IH]; simpl; [ring|]. rewrite IH. ring. Qed.

Lemma eval_perm σ a b : a ≡ₚ b → eval σ a = eval σ b.
Proof. induction 1; simpl; lia. Qed.

#[export] Hint Rewrite eval_flowAdd eval_flowSub eval_flowNeg eval_flowScale : dyn_rw.

(** * Well-formed expressions *)

Lemma updateTerm_keys v h e :
  v ∈ (fst <$> e) ∧ fst <$> updateTerm v h e = fst <$> e
  ∨ v ∉ (fst <$> e) ∧ fst <$> updateTerm v h e = (fst <$> e) ++ [v].
Proof.
  induction e as [|[w c] e IH]; csimpl; [right; split; [apply not_elem_of_nil|done]|].
  destruct (decide (w = v)) as [->|Hne]; csimpl; [left; split; [left|done]|].
  destruct IH as [[Hv ->]|[Hv ->]]; [left; split; [by right|done]|right; split; [|done]].
  intros [Heq|]%elem_of_cons; [by symmetry in Heq|done].
Qed.

Lemma wf_updateTerm v h e : atomic v → wfExpr e → wfExpr (updateTerm v h e).
Proof.
  intros Hv [Hn Ha]. destruct (updateTerm_keys v h e) as [[Hin E]|[Hin E]]; split; rewrite E; try done.
  - apply list.NoDup_app. split; [done|]. split; [|apply NoDup_singleton].
    by intros x Hx ->%list_elem_of_singleton.
  - apply Forall_app. split; [done|]. by constructor.
Qed.

Lemma wf_nil : wfExpr [].
Proof. split; constructor. Qed.

Lemma wf_flowAdd a b : wfExpr a → wfExpr b → wfExpr (flowAdd a b).
Proof.
  unfold flowAdd. intros Ha [_ Hb]. revert a Ha.
  induction b as [|[v c] b IH]; intros a Ha; simpl in *; [done|]. apply Forall_cons_1 in Hb as [? ?].
  apply IH; [done|]. by apply wf_updateTerm.
Qed.

Lemma wf_flowSub a b : wfExpr a → wfExpr b → wfExpr (flowSub a b).
Proof.
  unfold flowSub. intros Ha [_ Hb]. revert a Ha.
  induction b as [|[v c] b IH]; intros a Ha; simpl in *; [done|]. apply Forall_cons_1 in Hb as [? ?].
  apply IH; [done|]. by apply wf_updateTerm.
Qed.

Lemma wf_map (h : Z → Z) a : wfExpr a → wfExpr (map (λ '(v, c), (v, h c)) a).
Proof.
  intros [Hn Ha]. assert (fst <$> map (λ '(v, c), (v, h c)) a = fst <$> a) as E
    by (clear; induction a as [|[v c] a IH]; csimpl; [done|by rewrite IH]).
  by split; rewrite E.
Qed.

Lemma only_tracked t i : tracks t i = true → (i < trackerSize)%nat → only t i = 2 ^ Z.of_nat i.
Proof.
  unfold tracks, only, trackerSize. intros Ht Hi.
  assert (wrapU 8 (Z.shiftl 1 (Z.of_nat i)) = 2 ^ Z.of_nat i) as ->.
  { rewrite Z.shiftl_1_l. apply wrapU_small. split; [lia|]. apply Z.pow_lt_mono_r; lia. }
  apply Z.bits_inj_iff'. intros j Hj. rewrite Z.land_spec.
  destruct (decide (j = Z.of_nat i)) as [->|Hne].
  - by rewrite Ht, Z.pow2_bits_true by lia.
  - by rewrite Z.pow2_bits_false, andb_false_r by lia.
Qed.

(** The variable of the tokens of value [i]. *)
Definition at_value (v : FlowVariable) (i : nat) : FlowVariable :=
  mkFlowVariable (variable v) (Some (2 ^ Z.of_nat i)).

Definition trackedValues (v : FlowVariable) : list nat :=
  match indexTokenTracker v with
  | Some t => filter (λ i, tracks t i = true) (seq 0 trackerSize)
  | None => []
  end.

(** The terms of the expression of a variable. *)
Lemma ofVariable_keys v :
  ofVariable v = match indexTokenTracker v with
                 | None => [(v, 1)]
                 | Some _ => map (λ i, (at_value v i, 1)) (trackedValues v)
                 end.
Proof.
  unfold ofVariable, isNull, trackedValues. destruct (indexTokenTracker v) as [t|] eqn:Ht; [|done].
  assert (∀ js acc, Forall (λ i, (i < trackerSize)%nat) js → NoDup js →
    (∀ i, i ∈ js → at_value v i ∉ (fst <$> acc)) →
    foldl (λ terms i, if tracks t i then updateTerm (mkFlowVariable (variable v) (Some (only t i))) (λ _, 1) terms
                      else terms) acc js
    = acc ++ map (λ i, (at_value v i, 1)) (filter (λ i, tracks t i = true) js)) as Hf.
  { induction js as [|i js IH]; intros acc Hlt Hnd Hacc; simpl; [by rewrite app_nil_r|].
    apply Forall_cons_1 in Hlt as [Hi Hlt]. apply list.NoDup_cons in Hnd as [Hni Hnd].
    rewrite filter_cons. destruct (tracks t i) eqn:Hti.
    - rewrite decide_True by done. rewrite only_tracked by done. fold (at_value v i).
      assert (updateTerm (at_value v i) (λ _, 1) acc = acc ++ [(at_value v i, 1)]) as ->.
      { specialize (Hacc i ltac:(left)). clear -Hacc. induction acc as [|[w c] acc IH]; simpl in *; [done|].
        apply not_elem_of_cons in Hacc as [Hne Hacc]. rewrite decide_False by congruence. by rewrite IH. }
      rewrite IH; [by rewrite <-app_assoc|done|done|].
      intros j Hj. rewrite fmap_app, not_elem_of_app. split; [apply Hacc; by right|].
      simpl. rewrite list_elem_of_singleton. unfold at_value. intros [= E].
      apply Z.pow_inj_r in E; [|lia..]. apply Nat2Z.inj in E. by subst.
    - rewrite decide_False by done. apply IH; [done|done|]. intros j Hj. apply Hacc. by right. }
  destruct (Z.eqb_spec t 0) as [->|Hne].
  - symmetry. assert (filter (λ i, tracks 0 i = true) (seq 0 trackerSize) = []) as -> by reflexivity. done.
  - rewrite Hf; [done| |apply NoDup_seq|by intros ? _ ?%not_elem_of_nil].
    apply Forall_forall. intros i [_ Hi]%in_seq. lia.
Qed.

Lemma wf_ofVariable v : wfExpr (ofVariable v).
Proof.
  rewrite ofVariable_keys. unfold trackedValues. destruct (indexTokenTracker v) as [t|] eqn:Ht.
  - split; rewrite <-list_fmap_compose.
    + apply NoDup_fmap_2_strong; [|apply list.NoDup_filter, NoDup_seq]. intros i j _ _ [= E].
      apply Z.pow_inj_r in E; lia.
    + apply Forall_fmap, Forall_elem. intros i [_ Hi]%list_elem_of_filter. apply elem_of_seq in Hi.
      exists i. split; [simpl in *; lia|done].
  - split; simpl; [apply NoDup_singleton|]. repeat constructor. unfold atomic. by rewrite Ht.
Qed.

#[export] Hint Resolve wf_ofVariable wf_flowAdd wf_flowSub wf_nil : dyn.

Lemma wf_flowMinus a b : wfExpr (flowMinus a b).
Proof. apply wf_flowSub; apply wf_ofVariable. Qed.
#[export] Hint Resolve wf_flowMinus : dyn.
