(* ===== verification/IOG.v ===== *)
(** In-order graphs of a circuit (IOG.h, IOG.cpp), and the single token property
    of the formal property pass (annotateIOGSingleToken of
    HandshakeAnnotateProperties.cpp). *)

From stdpp Require Import strings gmap.
From S2P Require Import FlowNamers HandshakeIR Prelude.

(** Sets of operations and of channels. *)
Notation OpSet := (gset nat).
Notation ChannelSet := (gset nat).

Record IOG := mkIOG { units : OpSet; channels : ChannelSet; entry : Value }.

Definition containsOp (iog : IOG) (op : OpId) : bool := bool_decide (op ∈ units iog).
Definition contains (iog : IOG) (c : Value) : bool := bool_decide (c ∈ channels iog).

(** * Paths *)

(** The operations reached from the stack along [next], not going on from [stop].
    The back of the vector is the head of the list. *)
Fixpoint searchLoop (next : OpId → res (list OpId)) (stop : OpId) (fuel : nat) (stack : list OpId) (seen : OpSet)
    : res OpSet :=
  match fuel with
  | O => Bad NoFuel
  | S fuel =>
      match stack with
      | [] => Ok seen
      | op :: stack =>
          if bool_decide (op ∈ seen) then searchLoop next stop fuel stack seen
          else
            let seen := {[op]} ∪ seen in
            if bool_decide (op = stop) then searchLoop next stop fuel stack seen
            else
              let* ns := next op in
              searchLoop next stop fuel (rev ns ++ stack) seen
      end
  end.

Section Circuit.
Context (f : FuncOp).

(** The operations after an operation along the channels of the graph. *)
Definition forwardOps (iog : IOG) (op : OpId) : res (list OpId) :=
  let* o := opAt f op in
  mapM (λ c, let* next := firstUser f c in
             let* _ := assert_ (containsOp iog next) in Ok next)
    (filter (λ c, contains iog c = true) (getResults (theOp o))).

Definition backwardOps (iog : IOG) (op : OpId) : res (list OpId) :=
  let* o := opAt f op in
  mapM (λ next, let* _ := assert_ (containsOp iog next) in Ok next)
    (omap (getDefiningOp f) (filter (λ c, contains iog c = true) (getOperands (theOp o)))).

(** The units of the set of paths. *)
Definition findAllPaths (fuel : nat) (iog : IOG) (startOp endOp : OpId) : res OpSet :=
  let* forward := searchLoop (forwardOps iog) endOp fuel [startOp] ∅ in
  let* back := searchLoop (backwardOps iog) startOp fuel [endOp] ∅ in
  Ok (forward ∩ back).

(** The token value that leads to exiting the loop. *)
Definition isExitBranch (fuel : nat) (iog : IOG) (branch : OpId) (trueResult falseResult : Value) : res (option Z) :=
  let* _ := assert_ (containsOp iog branch) in
  let* opTrue := firstUser f trueResult in
  let* paths := findAllPaths fuel iog opTrue branch in
  let trueLoop := bool_decide (branch ∈ paths) in
  let* opFalse := firstUser f falseResult in
  let* paths := findAllPaths fuel iog opFalse branch in
  let falseLoop := bool_decide (branch ∈ paths) in
  if eqb trueLoop falseLoop then Ok None else Ok (Some (if trueLoop then 0 else 1)).

(** * Candidates *)

Record IOGCandidate := mkIOGCandidate {
  iog : IOG; dfsQueue : list Value; illegalChannels : ChannelSet; invalidIOG : bool }.

Definition isLegal (cp : IOGCandidate) (c : Value) : bool := negb (bool_decide (c ∈ illegalChannels cp)).

Definition setInvalid (cp : IOGCandidate) : IOGCandidate :=
  mkIOGCandidate (iog cp) (dfsQueue cp) (illegalChannels cp) true.

Definition insertUnit (op : OpId) (cp : IOGCandidate) : IOGCandidate :=
  mkIOGCandidate (mkIOG ({[op]} ∪ units (iog cp)) (channels (iog cp)) (entry (iog cp)))
    (dfsQueue cp) (illegalChannels cp) (invalidIOG cp).

Definition markFollowed (c : Value) (cp : IOGCandidate) : IOGCandidate :=
  if negb (isLegal cp c) then setInvalid cp
  else if contains (iog cp) c then cp
  else mkIOGCandidate (mkIOG (units (iog cp)) ({[c]} ∪ channels (iog cp)) (entry (iog cp)))
         (c :: dfsQueue cp) (illegalChannels cp) (invalidIOG cp).

Definition markIllegal (c : Value) (cp : IOGCandidate) : IOGCandidate :=
  mkIOGCandidate (iog cp) (dfsQueue cp) ({[c]} ∪ illegalChannels cp)
    (contains (iog cp) c || invalidIOG cp).

(** The constructor from an argument. *)
Definition IOGCandidate_new (arg : Value) : IOGCandidate :=
  markFollowed arg (mkIOGCandidate (mkIOG ∅ ∅ arg) [] ∅ false).

(** The recursion pops the channels whose two sides have been handled. *)
Fixpoint nextOpLoop (cp : IOGCandidate) (queue : list Value) : res (option OpId * IOGCandidate) :=
  let at_queue := mkIOGCandidate (iog cp) queue (illegalChannels cp) in
  match queue with
  | [] => Ok (None, at_queue false)
  | c :: rest =>
      if negb (isLegal cp c) then Ok (None, at_queue true)
      else
        match filter (λ op, containsOp (iog cp) op = false) (option_list (getDefiningOp f c)) with
        | before :: _ => Ok (Some before, insertUnit before (at_queue false))
        | [] =>
            let* after := firstUser f c in
            if containsOp (iog cp) after then nextOpLoop cp rest
            else Ok (Some after, insertUnit after (at_queue false))
        end
  end.

Definition getNextOpToAdd (cp : IOGCandidate) : res (option OpId * IOGCandidate) :=
  if invalidIOG cp then Ok (None, cp) else nextOpLoop cp (dfsQueue cp).

(** * The finder *)

(** The candidates that take one of the channels only, in the order they are
    pushed. *)
Definition followSingle (checkpoint : IOGCandidate) (options : list Value) : list IOGCandidate :=
  let taken := filter (λ c, contains (iog checkpoint) c = true) options in
  let allIllegal (only : Value) (cp : IOGCandidate) :=
    foldl (λ cp other, if decide (other = only) then cp else markIllegal other cp) cp options in
  match taken with
  | [singleTaken] => [allIllegal singleTaken checkpoint]
  | _ :: _ :: _ => []
  | [] => map (λ c, allIllegal c (markFollowed c checkpoint)) options
  end.

Definition followAll (cs : list Value) (cp : IOGCandidate) : IOGCandidate := foldl (λ cp c, markFollowed c cp) cp cs.

(** The candidates that [handleUnit] pushes. *)
Definition handleUnit (cp : IOGCandidate) (op : OpId) : res (list IOGCandidate) :=
  let* o := opAt f op in
  let cp := insertUnit op cp in
  match theOp o with
  | EndOp inputs => Ok (followSingle cp inputs)
  | BufferOp _ _ operand result => Ok [markFollowed result (markFollowed operand cp)]
  | ConditionalBranchOp c d t e =>
      Ok (followSingle (markFollowed e (markFollowed t cp)) [c; d])
  | ForkOp operand result => Ok (followSingle (markFollowed operand cp) result)
  | MuxOp selectOperand dataOperands result =>
      let cp := markFollowed result cp in
      let dataFollower := foldl (λ cp c, markFollowed c cp) cp dataOperands in
      let selectFollower := foldl (λ cp c, markIllegal c cp) cp dataOperands in
      Ok [markIllegal selectOperand dataFollower; markFollowed selectOperand selectFollower]
  | ControlMergeOp dataOperands result index =>
      Ok (followSingle (followAll dataOperands cp) [result; index])
  | ArithOp _ _ operands results =>
      let* result := at_ results 0 in
      Ok (followSingle (markFollowed result cp) operands)
  | SinkOp _ | StoreOp _ _ _ _ | DeadBufferOp _ => Ok [cp]
  | LoadOp address _ _ dataResult => Ok [markFollowed dataResult (markFollowed address cp)]
  | SourceOp _ | MemoryControllerOp _ _ _ | MergeOp _ _ | OtherOp _ _ => Ok []
  end.

Definition finderStep (candidates : list IOGCandidate) (finals : list IOG) : res (list IOGCandidate * list IOG) :=
  match candidates with
  | [] => Ok ([], finals)
  | candidate :: candidates =>
      if invalidIOG candidate then Ok (candidates, finals)
      else
        let* (optOp, candidate) := getNextOpToAdd candidate in
        match optOp with
        | None => Ok (candidates, if invalidIOG candidate then finals else finals ++ [iog candidate])
        | Some op => let* pushed := handleUnit candidate op in Ok (rev pushed ++ candidates, finals)
        end
  end.

Fixpoint finderLoop (fuel : nat) (candidates : list IOGCandidate) (finals : list IOG) : res (list IOG) :=
  match candidates with
  | [] => Ok finals
  | _ =>
      match fuel with
      | O => Bad NoFuel
      | S fuel => let* (candidates, finals) := finderStep candidates finals in finderLoop fuel candidates finals
      end
  end.

Definition findAllIOGsWithEntry (fuel : nat) (arg : Value) : res (list IOG) :=
  finderLoop fuel [IOGCandidate_new arg] [].

Definition findAllIOGs (fuel : nat) : res (list IOG) :=
  let* iogs := mapM (λ '(arg, _), findAllIOGsWithEntry fuel arg) (arguments f) in Ok (concat iogs).

(** * The single token property *)

(** The name of an argument, from the attribute of the function. *)
Definition argName (c : Value) : res string :=
  of_option NullDeref ((λ a, snd (snd a)) <$> list_find (λ a, fst a = c) (arguments f)).

(** The slots of a unit, and the sent states of its outputs in the graph. *)
Definition unitStates (iog : IOG) (op : OpId) : res (list InternalStateNamer * list EagerForkSentNamer) :=
  let* slots := getAllSlotsOfOperation f op in
  let* o := opAt f op in
  match getInternalSentStateNamers f o with
  | None => Ok (slots, [])
  | Some forkSlots =>
      let taken := filter (λ '(channel, _), contains iog channel = true) (zip (getResults (theOp o)) forkSlots) in
      let* _ := assert_ (length taken =? 1)%nat in
      Ok (slots, map snd taken)
  end.

(** The slots and the sent states of the property; [order] is the order in which
    the set of units is visited. *)
Definition annotateIOGSingleToken (order : OpSet → list OpId) (iog : IOG)
    : res (list InternalStateNamer * list EagerForkSentNamer) :=
  let* a := argName (entry iog) in
  foldM (λ '(slots, forks) op,
    let* (opSlots, opForks) := unitStates iog op in
    Ok (slots ++ opSlots, forks ++ opForks)) ([EntrySlot a], []) (order (units iog)).

End Circuit.

(** * The pass *)

(** A sink of an in-order graph is replaced by a dead buffer in its place; the name
    analysis names the new operation.  The graphs keep their units. *)
Definition replaceSink (nameOf : OpId → string) (iogs : list IOG) (i : OpId) (o : Operation) : Operation :=
  match theOp o with
  | SinkOp operand =>
      if existsb (λ g, containsOp g i) iogs then mkOperation (nameOf i) (DeadBufferOp operand) else o
  | _ => o
  end.

Definition replaceSinks (nameOf : OpId → string) (iogs : list IOG) (f : FuncOp) : FuncOp :=
  mkFuncOp (arguments f) (imap (replaceSink nameOf iogs) (ops f)) (dataBitWidth f).
