(* ===== verification/IOGThms.v ===== *)
(** In-order graphs: the graphs found obey the rules of an in-order graph, every
    in-order graph contains one that is found, and the search ends (IOG.cpp). *)

From stdpp Require Import strings gmap.
From S2P Require Import FlowNamers HandshakeIR IOG Prelude.

(** * In-order graphs *)

(** Exactly one of the channels belongs to the graph. *)
Definition single (C : ChannelSet) (options : list Value) : Prop :=
  ∃ c, c ∈ options ∧ c ∈ C ∧ ∀ c', c' ∈ options → c' ∈ C → c' = c.

(** What an operation asks of the channels of a graph it belongs to. *)
Definition unitRule (C : ChannelSet) (op : HandshakeOp) : Prop :=
  match op with
  | EndOp inputs => single C inputs
  | BufferOp _ _ operand result => operand ∈ C ∧ result ∈ C
  | ConditionalBranchOp c d t e => t ∈ C ∧ e ∈ C ∧ single C [c; d]
  | ForkOp operand result => operand ∈ C ∧ single C result
  | MuxOp selectOperand dataOperands result =>
      result ∈ C ∧ ((Forall (λ c, c ∈ C) dataOperands ∧ selectOperand ∉ C)
                    ∨ (Forall (λ c, c ∉ C) dataOperands ∧ selectOperand ∈ C))
  | ControlMergeOp dataOperands result index => Forall (λ c, c ∈ C) dataOperands ∧ single C [result; index]
  | ArithOp _ _ operands results => (∃ r, head results = Some r ∧ r ∈ C) ∧ single C operands
  | SinkOp operand | DeadBufferOp operand => operand ∈ C
  | StoreOp _ _ _ _ => True
  | LoadOp address _ _ dataResult => address ∈ C ∧ dataResult ∈ C
  | SourceOp _ | MemoryControllerOp _ _ _ | MergeOp _ _ | OtherOp _ _ => False
  end.

Record inOrder (f : FuncOp) (g : IOG) : Prop := {
  io_entry : entry g ∈ channels g;
  io_before : ∀ c i, c ∈ channels g → getDefiningOp f c = Some i → i ∈ units g;
  io_after : ∀ c, c ∈ channels g → ∃ i, firstUser f c = Ok i ∧ i ∈ units g;
  io_units : ∀ i, i ∈ units g → ∃ o, ops f !! i = Some o ∧ unitRule (channels g) (theOp o) }.

(** * How candidates grow *)

Notation chans cp := (channels (iog cp)).

(** No channel of the candidate is illegal. *)
Definition sane (cp : IOGCandidate) : Prop := ∀ c, c ∈ chans cp → c ∈ illegalChannels cp → False.

Record grows (cp cp' : IOGCandidate) : Prop := {
  g_units : units (iog cp') = units (iog cp);
  g_entry : entry (iog cp') = entry (iog cp);
  g_chans : chans cp ⊆ chans cp';
  g_illegal : illegalChannels cp ⊆ illegalChannels cp';
  g_valid : invalidIOG cp' = false → invalidIOG cp = false;
  g_queue : ∀ c, c ∈ dfsQueue cp → c ∈ dfsQueue cp';
  g_new : ∀ c, c ∈ chans cp' → c ∈ chans cp ∨ c ∈ dfsQueue cp';
  g_queued : (∀ c, c ∈ dfsQueue cp → c ∈ chans cp) → ∀ c, c ∈ dfsQueue cp' → c ∈ chans cp';
  g_sane : invalidIOG cp' = false → sane cp → sane cp' }.

#[export] Instance grows_preorder : PreOrder grows.
Proof.
  split; [by split; auto|]. intros a b c [U1 E1 C1 I1 V1 Q1 N1 D1 S1] [U2 E2 C2 I2 V2 Q2 N2 D2 S2].
  split; [congruence|congruence|set_solver|set_solver|auto..].
  intros x Hx. destruct (N2 x Hx) as [Hb|]; [|auto]. destruct (N1 x Hb); auto.
Qed.

Lemma isLegal_true cp c : isLegal cp c = true ↔ c ∉ illegalChannels cp.
Proof. unfold isLegal. rewrite negb_true_iff, bool_decide_eq_false. done. Qed.

Lemma contains_true g c : contains g c = true ↔ c ∈ channels g.
Proof. apply bool_decide_eq_true. Qed.

Lemma contains_false g c : contains g c = false ↔ c ∉ channels g.
Proof. apply bool_decide_eq_false. Qed.

Lemma markFollowed_grows c cp : grows cp (markFollowed c cp).
Proof.
  unfold markFollowed. destruct (isLegal cp c) eqn:Hl; simpl; [|by split; simpl; auto].
  destruct (contains (iog cp) c) eqn:Hc; [done|].
  apply isLegal_true in Hl. split; simpl; try done; [set_solver|by right|set_solver|set_solver|].
  intros _ Hs x Hx Hi. apply elem_of_union in Hx as [->%elem_of_singleton|Hx]; [done|]. by apply (Hs x).
Qed.

Lemma markFollowed_in c cp : invalidIOG (markFollowed c cp) = false → c ∈ chans (markFollowed c cp).
Proof.
  unfold markFollowed. destruct (isLegal cp c); simpl; [|done].
  destruct (contains (iog cp) c) eqn:Hc; [by apply contains_true in Hc|]. intros _. simpl. set_solver.
Qed.

Lemma markIllegal_grows c cp : grows cp (markIllegal c cp).
Proof.
  split; simpl; try done; [set_solver|by intros [_ ?]%orb_false_iff|by left|].
  intros [Hc Hv]%orb_false_iff Hs x Hx Hi. apply contains_false in Hc.
  apply elem_of_union in Hi as [->%elem_of_singleton|Hi]; [done|]. by apply (Hs x).
Qed.

Lemma markIllegal_in c cp : c ∈ illegalChannels (markIllegal c cp).
Proof. simpl. set_solver. Qed.

#[export] Hint Resolve markFollowed_grows markIllegal_grows : dyn.

(** Repeated growth. *)
Lemma foldl_grows {A} (h : IOGCandidate → A → IOGCandidate) l cp :
  (∀ cp a, grows cp (h cp a)) → grows cp (foldl h cp l).
Proof.
  intros Hh. revert cp. induction l as [|a l IH]; intros cp; simpl; [done|]. transitivity (h cp a); [apply Hh|apply IH].
Qed.

(** After all steps, what one of them establishes still holds. *)
Lemma foldl_establishes {A} (h : IOGCandidate → A → IOGCandidate) (P : A → IOGCandidate → Prop) l cp :
  (∀ cp a, grows cp (h cp a)) → (∀ cp a, invalidIOG (h cp a) = false → P a (h cp a)) →
  (∀ a cp cp', grows cp cp' → invalidIOG cp' = false → P a cp → P a cp') →
  invalidIOG (foldl h cp l) = false → Forall (λ a, P a (foldl h cp l)) l.
Proof.
  intros Hg He Hp. revert cp. induction l as [|a l IH]; intros cp Hv; simpl in *; [constructor|].
  constructor; [|by apply IH]. pose proof (foldl_grows h l (h cp a) Hg) as Hgr.
  eapply Hp; [exact Hgr|done|]. by apply He, (g_valid _ _ Hgr).
Qed.

Lemma grows_chan c cp cp' : grows cp cp' → c ∈ chans cp → c ∈ chans cp'.
Proof. intros [_ _ H _ _ _ _ _ _]. by apply H. Qed.

Lemma grows_illegal c cp cp' : grows cp cp' → c ∈ illegalChannels cp → c ∈ illegalChannels cp'.
Proof. intros [_ _ _ H _ _ _ _ _]. by apply H. Qed.

(** * Rules on candidates *)

Definition singleC (cp : IOGCandidate) (options : list Value) : Prop :=
  ∃ c, c ∈ options ∧ c ∈ chans cp ∧ Forall (λ c', c' = c ∨ c' ∈ illegalChannels cp) options.

(** The rule of an operation, with what is excluded marked as illegal. *)
Definition candRule (cp : IOGCandidate) (op : HandshakeOp) : Prop :=
  match op with
  | EndOp inputs => singleC cp inputs
  | BufferOp _ _ operand result => operand ∈ chans cp ∧ result ∈ chans cp
  | ConditionalBranchOp c d t e => t ∈ chans cp ∧ e ∈ chans cp ∧ singleC cp [c; d]
  | ForkOp operand result => operand ∈ chans cp ∧ singleC cp result
  | MuxOp selectOperand dataOperands result =>
      result ∈ chans cp
      ∧ ((Forall (λ c, c ∈ chans cp) dataOperands ∧ selectOperand ∈ illegalChannels cp)
         ∨ (Forall (λ c, c ∈ illegalChannels cp) dataOperands ∧ selectOperand ∈ chans cp))
  | ControlMergeOp dataOperands result index =>
      Forall (λ c, c ∈ chans cp) dataOperands ∧ singleC cp [result; index]
  | ArithOp _ _ operands results => (∃ r, head results = Some r ∧ r ∈ chans cp) ∧ singleC cp operands
  | SinkOp operand | DeadBufferOp operand => operand ∈ chans cp
  | StoreOp _ _ _ _ => True
  | LoadOp address _ _ dataResult => address ∈ chans cp ∧ dataResult ∈ chans cp
  | SourceOp _ | MemoryControllerOp _ _ _ | MergeOp _ _ | OtherOp _ _ => False
  end.

Lemma singleC_mono cp cp' l : grows cp cp' → singleC cp l → singleC cp' l.
Proof.
  intros Hg (c & Hc & Hin & Hl). exists c. split; [done|]. split; [by eapply grows_chan|].
  eapply Forall_impl; [|exact Hl]. intros x [|]; [by left|right]. by eapply grows_illegal.
Qed.

Lemma Forall_chan_mono cp cp' l : grows cp cp' → Forall (λ c, c ∈ chans cp) l → Forall (λ c, c ∈ chans cp') l.
Proof. intros Hg H. eapply Forall_impl; [|exact H]. intros c. by apply grows_chan. Qed.

Lemma Forall_illegal_mono cp cp' l : grows cp cp' →
  Forall (λ c, c ∈ illegalChannels cp) l → Forall (λ c, c ∈ illegalChannels cp') l.
Proof. intros Hg H. eapply Forall_impl; [|exact H]. intros c. by apply grows_illegal. Qed.

#[local] Hint Resolve grows_chan grows_illegal singleC_mono Forall_chan_mono Forall_illegal_mono : dyn.

Lemma candRule_mono cp cp' op : grows cp cp' → candRule cp op → candRule cp' op.
Proof.
  intros Hg. destruct op; simpl; naive_solver eauto with dyn.
Qed.

Lemma singleC_single cp l : sane cp → singleC cp l → single (chans cp) l.
Proof.
  intros Hs (c & Hc & Hin & Hl). exists c. do 2 (split; [done|]). intros c' Hc' Hin'.
  rewrite Forall_elem in Hl. destruct (Hl c' Hc') as [|Hi]; [done|]. by destruct (Hs c').
Qed.

Lemma candRule_unitRule cp op : sane cp → candRule cp op → unitRule (chans cp) op.
Proof.
  intros Hs. destruct op; simpl; try naive_solver eauto using singleC_single.
  intros [Hr [[Hd Hi]|[Hd Hi]]]; (split; [done|]); [left|right]; (split; [|]); try done.
  - intros Hin. by apply (Hs selectOperand).
  - eapply Forall_impl; [|exact Hd]. intros c Hc Hin. by apply (Hs c).
Qed.

(** * Handling an operation *)

Definition allIllegal (options : list Value) (only : Value) (cp : IOGCandidate) : IOGCandidate :=
  foldl (λ cp other, if decide (other = only) then cp else markIllegal other cp) cp options.

Lemma allIllegal_grows options only cp : grows cp (allIllegal options only cp).
Proof. apply foldl_grows. intros cp' c. case_decide; auto with dyn. done. Qed.

Lemma allIllegal_single options only cp : only ∈ options →
  invalidIOG (allIllegal options only cp) = false →
  only ∈ chans cp → singleC (allIllegal options only cp) options.
Proof.
  intros Ho Hv Hc. exists only. split; [done|]. split; [eapply grows_chan; [apply allIllegal_grows|done]|].
  apply (foldl_establishes _ (λ c' cp', c' = only ∨ c' ∈ illegalChannels cp')); [| | |exact Hv].
  - intros cp' c. case_decide; auto with dyn. done.
  - intros cp' c _. case_decide; [by left|right]. apply markIllegal_in.
  - intros c a b Hg _ [|]; [by left|right]. by eapply grows_illegal.
Qed.

Lemma followSingle_unfold cp options :
  followSingle cp options =
  match filter (λ c, contains (iog cp) c = true) options with
  | [singleTaken] => [allIllegal options singleTaken cp]
  | _ :: _ :: _ => []
  | [] => map (λ c, allIllegal options c (markFollowed c cp)) options
  end.
Proof. done. Qed.

Lemma followSingle_rule cp options :
  Forall (λ cp', grows cp cp' ∧ (invalidIOG cp' = false → singleC cp' options)) (followSingle cp options).
Proof.
  rewrite followSingle_unfold. destruct (filter _ options) as [|c [|c' l]] eqn:Hf; [| |constructor].
  - apply Forall_elem. intros cp' (c & -> & Hc)%list_elem_of_fmap. split.
    + transitivity (markFollowed c cp); [auto with dyn|apply allIllegal_grows].
    + intros Hv. apply allIllegal_single; [done|done|]. apply markFollowed_in.
      by apply (g_valid _ _ (allIllegal_grows options c _)).
  - assert (c ∈ filter (λ c, contains (iog cp) c = true) options) as Hc by (rewrite Hf; left).
    apply list_elem_of_filter in Hc as [Hc%contains_true Hin]. constructor; [|constructor].
    split; [apply allIllegal_grows|]. intros Hv. by apply allIllegal_single.
Qed.

Lemma followAll_grows cs cp : grows cp (followAll cs cp).
Proof. apply foldl_grows. auto with dyn. Qed.

Lemma followAll_in cs cp : invalidIOG (followAll cs cp) = false → Forall (λ c, c ∈ chans (followAll cs cp)) cs.
Proof.
  apply (foldl_establishes (λ cp c, markFollowed c cp) (λ c cp, c ∈ chans cp)); auto with dyn.
  - intros cp' c. apply markFollowed_in.
  - intros c a b Hg _. by apply grows_chan.
Qed.

Definition refuseAll (cs : list Value) (cp : IOGCandidate) : IOGCandidate := foldl (λ cp c, markIllegal c cp) cp cs.

Lemma refuseAll_grows cs cp : grows cp (refuseAll cs cp).
Proof. apply foldl_grows. auto with dyn. Qed.

Lemma refuseAll_in cs cp : invalidIOG (refuseAll cs cp) = false → Forall (λ c, c ∈ illegalChannels (refuseAll cs cp)) cs.
Proof.
  apply (foldl_establishes (λ cp c, markIllegal c cp) (λ c cp, c ∈ illegalChannels cp)); auto with dyn.
  - intros cp' c _. apply markIllegal_in.
  - intros c a b Hg _. by apply grows_illegal.
Qed.

(** A candidate after a step that follows a channel. *)
Lemma grows_follow cp cp' c : grows (markFollowed c cp) cp' → grows cp cp'.
Proof. intros H. transitivity (markFollowed c cp); auto with dyn. Qed.

Lemma follow_in cp cp' c : grows (markFollowed c cp) cp' → invalidIOG cp' = false → c ∈ chans cp'.
Proof. intros H Hv. eapply grows_chan; [exact H|]. by apply markFollowed_in, (g_valid _ _ H). Qed.

Lemma pushed_follow (R : IOGCandidate → Prop) cp c l :
  Forall (λ cp', grows (markFollowed c cp) cp' ∧ (invalidIOG cp' = false → R cp')) l →
  Forall (λ cp', grows cp cp' ∧ (invalidIOG cp' = false → c ∈ chans cp' ∧ R cp')) l.
Proof.
  intros H. eapply Forall_impl; [|exact H]. intros cp' [Hg Hr]. split; [by eapply grows_follow|].
  intros Hv. split; [by eapply follow_in|auto].
Qed.

Lemma pushed_done cp : Forall (λ cp', grows cp cp' ∧ (invalidIOG cp' = false → True)) [cp].
Proof. by repeat constructor. Qed.

(** A channel of the candidate ends or begins at the operation. *)
Definition touches (cp : IOGCandidate) (o : HandshakeOp) : Prop :=
  ∃ c, c ∈ chans cp ∧ (c ∈ getOperands o ∨ c ∈ getResults o).

Lemma pushed_operand cp op c : touches cp (DeadBufferOp c) →
  Forall (λ cp', grows (insertUnit op cp) cp' ∧ (invalidIOG cp' = false → c ∈ chans cp')) [insertUnit op cp].
Proof.
  intros (x & Hx & [->%list_elem_of_singleton|[]%elem_of_nil]). apply Forall_cons_2; [|apply Forall_nil_2]. done.
Qed.

Lemma handleUnit_rule f cp op pushed o : handleUnit f cp op = Ok pushed → ops f !! op = Some o →
  touches cp (theOp o) →
  Forall (λ cp', grows (insertUnit op cp) cp' ∧ (invalidIOG cp' = false → candRule cp' (theOp o))) pushed.
Proof.
  unfold handleUnit, opAt. intros H Ho Ht. rewrite Ho in H. cbn [of_option bind] in H.
  destruct (theOp o); try (injection H as <-); try apply pushed_done; try (by apply pushed_operand); try (by constructor); simpl.
  - apply bind_ok in H as (r & Hr%at_ok & [= <-]). eapply Forall_impl; [|apply pushed_follow, followSingle_rule].
    intros cp' [Hg Hv]. split; [done|]. intros [? ?]%Hv. split; [|done]. exists r. destruct results; naive_solver.
  - apply followSingle_rule.
  - apply pushed_follow, followSingle_rule.
  - apply Forall_cons_2; [|apply Forall_cons_2; [|apply Forall_nil_2]].
    + change (foldl _ ?a dataOperands) with (followAll dataOperands a).
      pose proof (markIllegal_grows selectOperand (followAll dataOperands (markFollowed result (insertUnit op cp)))) as H1.
      pose proof (followAll_grows dataOperands (markFollowed result (insertUnit op cp))) as H2.
      split; [by etransitivity; [eapply grows_follow|]|]. intros Hv. split; [eapply follow_in; [|done]; by etransitivity|].
      left. split; [|apply markIllegal_in]. eapply Forall_chan_mono; [exact H1|]. apply followAll_in. by apply (g_valid _ _ H1).
    + change (foldl _ ?a dataOperands) with (refuseAll dataOperands a).
      pose proof (markFollowed_grows selectOperand (refuseAll dataOperands (markFollowed result (insertUnit op cp)))) as H1.
      pose proof (refuseAll_grows dataOperands (markFollowed result (insertUnit op cp))) as H2.
      split; [by etransitivity; [eapply grows_follow|]|]. intros Hv. split; [eapply follow_in; [|done]; by etransitivity|].
      right. split; [|by apply markFollowed_in]. eapply Forall_illegal_mono; [exact H1|]. apply refuseAll_in.
      by apply (g_valid _ _ H1).
  - eapply Forall_impl; [|apply (pushed_follow (λ cp', result ∈ chans cp' ∧ True)), pushed_follow, pushed_done].
    naive_solver.
  - apply pushed_follow, pushed_follow, followSingle_rule.
  - eapply Forall_impl; [|apply (pushed_follow (λ cp', dataResult ∈ chans cp' ∧ True)), pushed_follow, pushed_done].
    naive_solver.
  - eapply Forall_impl; [|apply followSingle_rule]. intros cp' [Hg Hs].
    pose proof (followAll_grows dataOperands (insertUnit op cp)) as H2.
    split; [by etransitivity|]. intros Hv. split; [|by apply Hs]. eapply Forall_chan_mono; [exact Hg|].
    apply followAll_in. by apply (g_valid _ _ Hg).
Qed.

(** * The invariant of candidates *)

(** Both sides of a channel are in the set. *)
Definition settled (f : FuncOp) (U : OpSet) (c : Value) : Prop :=
  (∀ i, getDefiningOp f c = Some i → i ∈ U) ∧ ∃ i, firstUser f c = Ok i ∧ i ∈ U.

Lemma settled_mono f U U' c : U ⊆ U' → settled f U c → settled f U' c.
Proof. intros Hs [Hb (i & Hi & Hin)]. split; [intros j Hj; apply Hs; auto|]. exists i. auto. Qed.

(** [except] is an operation that is still to be handled. *)
Record candOk (f : FuncOp) (except : option OpId) (cp : IOGCandidate) : Prop := {
  co_sane : sane cp;
  co_entry : entry (iog cp) ∈ chans cp;
  co_queued : ∀ c, c ∈ dfsQueue cp → c ∈ chans cp;
  co_open : ∀ c, c ∈ chans cp → c ∈ dfsQueue cp ∨ settled f (units (iog cp)) c;
  co_units : ∀ i, i ∈ units (iog cp) → except ≠ Some i → ∃ o, ops f !! i = Some o ∧ candRule cp (theOp o) }.

Lemma candOk_inOrder f cp : candOk f None cp → dfsQueue cp = [] → inOrder f (iog cp).
Proof.
  intros [Hs He _ Ho Hu] Hq. split; [done| | |].
  - intros c i Hc Hi. destruct (Ho c Hc) as [Hin|[Hb _]]; [|by apply Hb]. rewrite Hq in Hin. by apply elem_of_nil in Hin.
  - intros c Hc. destruct (Ho c Hc) as [Hin|[_ Ha]]; [|done]. rewrite Hq in Hin. by apply elem_of_nil in Hin.
  - intros i Hi. destruct (Hu i Hi) as (o & Hop & Hr); [done|]. exists o. split; [done|]. by apply candRule_unitRule.
Qed.

Definition withQueue (cp : IOGCandidate) (queue : list Value) : IOGCandidate :=
  mkIOGCandidate (iog cp) queue (illegalChannels cp) false.

Lemma candRule_queue cp queue b op :
  candRule cp op → candRule (mkIOGCandidate (iog cp) queue (illegalChannels cp) b) op.
Proof. by destruct op. Qed.

(** The operation to add, at either side of the channel. *)
Lemma insertUnit_ok f cp op : candOk f None cp → candOk f (Some op) (insertUnit op cp).
Proof.
  intros [Hs He Hq Ho Hu]. split; simpl; [done|done|done| |].
  - intros c Hc. destruct (Ho c Hc); [by left|right]. eapply settled_mono; [|done]. set_solver.
  - intros i Hi Hne. destruct (Hu i) as (o & Hop & Hr); [set_solver|done|]. exists o. split; [done|].
    by destruct (theOp o).
Qed.

Lemma getUsers_valid f c i : i ∈ getUsers f c → is_Some (ops f !! i).
Proof.
  unfold getUsers. intros H. apply list_elem_of_In, in_concat in H as (l & Hl%list_elem_of_In & Hi%list_elem_of_In).
  apply list_elem_of_lookup in Hl as [k Hk]. rewrite list_lookup_imap in Hk. apply fmap_Some in Hk as (o & Ho & ->).
  apply elem_of_replicate in Hi as [-> _]. by eexists.
Qed.

Lemma firstUser_in f c i : firstUser f c = Ok i → i ∈ getUsers f c.
Proof. unfold firstUser. intros H%of_option_ok. destruct (getUsers f c); [done|]. injection H as ->. left. Qed.

Lemma definer_valid f c i : getDefiningOp f c = Some i → is_Some (ops f !! i).
Proof. intros H. apply fmap_Some in H as ([j o] & H%list_find_Some & ->). naive_solver. Qed.

Lemma getUsers_operand f c i o : i ∈ getUsers f c → ops f !! i = Some o → c ∈ getOperands (theOp o).
Proof.
  unfold getUsers. intros H Ho. apply list_elem_of_In, in_concat in H as (l & Hl%list_elem_of_In & Hi%list_elem_of_In).
  apply list_elem_of_lookup in Hl as [k Hk]. rewrite list_lookup_imap in Hk. apply fmap_Some in Hk as (o' & Ho' & ->).
  apply elem_of_replicate in Hi as [-> Hn]. assert (o' = o) as -> by congruence.
  destruct (filter (λ w, w = c) (getOperands (theOp o))) as [|x l] eqn:E; [done|].
  assert (x ∈ filter (λ w, w = c) (getOperands (theOp o))) as Hx by (rewrite E; left).
  by apply list_elem_of_filter in Hx as [-> ?].
Qed.

Lemma definer_result f c i o : getDefiningOp f c = Some i → ops f !! i = Some o → c ∈ getResults (theOp o).
Proof. intros H Ho. apply fmap_Some in H as ([j o'] & (Hj & Hc & _)%list_find_Some & ->). simpl in *. by simplify_eq. Qed.

Lemma nextOpLoop_spec f cp queue r cp' : nextOpLoop f cp queue = Ok (r, cp') → candOk f None (withQueue cp queue) →
  match r with
  | None => iog cp' = iog cp ∧ invalidIOG cp' = false ∧ candOk f None cp' ∧ dfsQueue cp' = []
  | Some op => ∃ queue', cp' = insertUnit op (withQueue cp queue') ∧ candOk f None (withQueue cp queue')
      ∧ op ∉ units (iog cp) ∧ (∃ o, ops f !! op = Some o ∧ touches cp (theOp o))
      ∧ ∃ c, c ∈ chans cp ∧ (getDefiningOp f c = Some op ∨ firstUser f c = Ok op)
  end.
Proof.
  induction queue as [|c rest IH]; simpl; intros H Hok; [by injection H as <- <-|].
  pose proof (co_queued _ _ _ Hok c ltac:(left)) as Hc. simpl in Hc.
  assert (isLegal cp c = true) as Hl by (apply isLegal_true; intros Hi; by apply (co_sane _ _ _ Hok c)).
  rewrite Hl in H. simpl in H.
  destruct (filter _ (option_list (getDefiningOp f c))) as [|before l] eqn:Hb.
  - apply bind_ok in H as (after & Ha & H). destruct (containsOp (iog cp) after) eqn:Hin.
    + apply IH in H; [done|]. destruct Hok as [Hs He Hq Ho Hu]. split; simpl; [done|done|intros; apply Hq; by right| |].
      * intros x Hx. destruct (Ho x Hx) as [[->|]%elem_of_cons|]; [right|by left|by right].
        apply bool_decide_eq_true in Hin. split; [|by exists after].
        intros i Hi. rewrite Hi in Hb. simpl in Hb. rewrite filter_cons in Hb. case_decide as Hn; [done|].
        apply not_false_is_true, bool_decide_eq_true in Hn. done.
      * intros i Hi Hne. destruct (Hu i Hi Hne) as (o & ? & ?). exists o. split; [done|]. by destruct (theOp o).
    + injection H as <- <-. apply bool_decide_eq_false in Hin. exists (c :: rest). split; [done|]. split; [done|].
      split; [done|]. split; [|by eauto]. apply firstUser_in in Ha. destruct (getUsers_valid _ _ _ Ha) as [o Ho].
      exists o. split; [done|]. exists c. split; [done|]. left. by eapply getUsers_operand.
  - injection H as <- <-. assert (before ∈ filter (λ op, containsOp (iog cp) op = false) (option_list (getDefiningOp f c)))
      as Hin by (rewrite Hb; left).
    apply list_elem_of_filter in Hin as [Hn Hin]. apply bool_decide_eq_false in Hn.
    destruct (getDefiningOp f c) as [b|] eqn:Hd; [|by apply elem_of_nil in Hin].
    apply list_elem_of_singleton in Hin as ->. exists (c :: rest). do 3 (split; [done|]).
    split; [|by eauto]. destruct (definer_valid _ _ _ Hd) as [o Ho].
    exists o. split; [done|]. exists c. split; [done|]. right. by eapply definer_result.
Qed.

Lemma handleUnit_ok f cp op pushed : handleUnit f (insertUnit op cp) op = Ok pushed → candOk f None cp →
  (∃ o, ops f !! op = Some o ∧ touches cp (theOp o)) →
  Forall (λ cp', units (iog cp') = units (iog (insertUnit op cp)) ∧ entry (iog cp') = entry (iog cp)
                 ∧ (invalidIOG cp' = false → candOk f None cp')) pushed.
Proof.
  intros H Hok (o & Ho & Ht). pose proof (handleUnit_rule _ _ _ _ _ H Ho Ht) as Hr.
  assert (insertUnit op (insertUnit op cp) = insertUnit op cp) as E.
  { unfold insertUnit; simpl. do 2 f_equal. set_solver. }
  rewrite E in Hr. pose proof (insertUnit_ok f cp op Hok) as [Hs He Hq Hopn Hu]. clear E H Hok.
  eapply Forall_impl; [|exact Hr]. intros cp' [Hg Hrule]. split; [apply Hg|]. split; [apply Hg|]. intros Hv. split.
  - by apply (g_sane _ _ Hg).
  - rewrite (g_entry _ _ Hg). by eapply grows_chan.
  - by apply (g_queued _ _ Hg).
  - intros c Hc. rewrite (g_units _ _ Hg). destruct (g_new _ _ Hg c Hc) as [Hc'|]; [|by left].
    destruct (Hopn c Hc') as [Hin|]; [left; by apply (g_queue _ _ Hg)|by right].
  - intros i Hi _. rewrite (g_units _ _ Hg) in Hi. destruct (decide (i = op)) as [->|Hne].
    + exists o. auto.
    + destruct (Hu i Hi) as (o' & Ho' & Hr'); [congruence|]. exists o'. split; [done|]. by eapply candRule_mono.
Qed.

(** * The graphs found are in-order graphs *)

Lemma new_ok f arg : candOk f None (IOGCandidate_new arg).
Proof. split; simpl; set_solver. Qed.

Definition stateOk (f : FuncOp) (arg : Value) (candidates : list IOGCandidate) (finals : list IOG) : Prop :=
  Forall (λ cp, entry (iog cp) = arg ∧ (invalidIOG cp = false → candOk f None cp)) candidates
  ∧ Forall (λ g, inOrder f g ∧ entry g = arg) finals.

Lemma withQueue_same cp : invalidIOG cp = false → withQueue cp (dfsQueue cp) = cp.
Proof. destruct cp. simpl. by intros ->. Qed.

Lemma getNextOpToAdd_spec f cp r cp' : getNextOpToAdd f cp = Ok (r, cp') → invalidIOG cp = false → candOk f None cp →
  match r with
  | None => iog cp' = iog cp ∧ invalidIOG cp' = false ∧ candOk f None cp' ∧ dfsQueue cp' = []
  | Some op => ∃ queue', cp' = insertUnit op (withQueue cp queue') ∧ candOk f None (withQueue cp queue')
      ∧ op ∉ units (iog cp) ∧ (∃ o, ops f !! op = Some o ∧ touches cp (theOp o))
      ∧ ∃ c, c ∈ chans cp ∧ (getDefiningOp f c = Some op ∨ firstUser f c = Ok op)
  end.
Proof.
  unfold getNextOpToAdd. intros H Hv Hok. rewrite Hv in H. eapply nextOpLoop_spec; [exact H|].
  by rewrite withQueue_same.
Qed.

Lemma finderStep_ok f arg cs fs cs' fs' : finderStep f cs fs = Ok (cs', fs') → stateOk f arg cs fs → stateOk f arg cs' fs'.
Proof.
  intros H [Hc Hf]. destruct cs as [|cp cs]; [by injection H as <- <-|]. simpl in H.
  apply Forall_cons_1 in Hc as [[He Hok] Hc]. destruct (invalidIOG cp) eqn:Hv; [by injection H as <- <-|].
  specialize (Hok eq_refl). apply bind_ok in H as ([r cp'] & Hn & H).
  apply getNextOpToAdd_spec in Hn; [|done|done]. destruct r as [op|].
  - destruct Hn as (queue' & -> & Hok' & _ & Hop & _). apply bind_ok in H as (pushed & Hp & [= <- <-]).
    split; [|done]. apply Forall_app. split; [|done]. apply Forall_rev.
    eapply Forall_impl; [|by apply (handleUnit_ok f (withQueue cp queue') op)]. intros cp'' (_ & E & Hv'').
    split; [by rewrite E|done].
  - destruct Hn as (Ee & Hv' & Hok' & Hq). rewrite Hv' in H. injection H as <- <-. split; [done|].
    apply Forall_app. split; [done|]. apply Forall_singleton. split; [by apply candOk_inOrder|by rewrite Ee].
Qed.

Lemma finderLoop_ok f arg fuel : ∀ cs fs iogs, finderLoop f fuel cs fs = Ok iogs → stateOk f arg cs fs →
  Forall (λ g, inOrder f g ∧ entry g = arg) iogs.
Proof.
  induction fuel as [|fuel IH]; intros cs fs iogs H Hok.
  - destruct cs; [|done]. injection H as <-. apply Hok.
  - destruct cs as [|cp cs]; [injection H as <-; apply Hok|]. cbn [finderLoop] in H.
    apply bind_ok in H as ([cs' fs'] & Hs & H). eapply IH; [exact H|]. by eapply finderStep_ok.
Qed.

Lemma found_in_order f fuel iogs g : findAllIOGs f fuel = Ok iogs → g ∈ iogs →
  inOrder f g ∧ entry g ∈ (fst <$> arguments f).
Proof.
  unfold findAllIOGs. intros H Hg. apply bind_ok in H as (ls & Hl%mapM_ok & [= <-]).
  apply list_elem_of_In, in_concat in Hg as (l & Hl'%list_elem_of_In & Hg%list_elem_of_In).
  apply list_elem_of_lookup in Hl' as [k Hk].
  destruct (Forall2_lookup_r _ _ _ _ _ Hl Hk) as ([arg n] & Ha & He).
  assert (stateOk f arg [IOGCandidate_new arg] []) as Hok.
  { split; [|done]. apply Forall_singleton. split; [done|]. intros _. apply new_ok. }
  pose proof (finderLoop_ok f arg _ _ _ _ He Hok) as Hall. rewrite Forall_elem in Hall.
  destruct (Hall g Hg) as [? ->]. split; [done|]. apply list_elem_of_fmap. exists (arg, n). split; [done|].
  by eapply list_elem_of_lookup_2.
Qed.

(** C21.  Every graph that is found is an in-order graph: it has both ends of each of
    its channels; of the outputs of a fork and of the inputs of an operation that
    joins its inputs it has exactly one; of a mux it has all data inputs or the
    select input; it has all inputs of a control merge and both outputs of a branch. *)
Theorem findAllIOGs_in_order f fuel iogs : findAllIOGs f fuel = Ok iogs →
  Forall (λ g, inOrder f g ∧ entry g ∈ (fst <$> arguments f)) iogs.
Proof. intros H. apply Forall_elem. intros g. by apply (found_in_order f fuel). Qed.

(** * Every in-order graph contains one that is found *)

(** The operands of an operation are different channels, and so are its results. *)
Definition distinct (f : FuncOp) : Prop :=
  Forall (λ o, NoDup (getOperands (theOp o)) ∧ NoDup (getResults (theOp o))) (ops f).

Definition below (g G : IOG) : Prop := channels g ⊆ channels G ∧ units g ⊆ units G.

(** A candidate all of whose choices are those of [G]. *)
Record compat (G : IOG) (cp : IOGCandidate) : Prop := {
  cm_valid : invalidIOG cp = false;
  cm_below : below (iog cp) G;
  cm_illegal : ∀ c, c ∈ illegalChannels cp → c ∉ channels G }.

Section Compatible.
Context (G : IOG).

Lemma compat_follow c cp : c ∈ channels G → compat G cp → compat G (markFollowed c cp).
Proof.
  intros Hc [Hv [Hb Hu] Hi]. unfold markFollowed. destruct (isLegal cp c) eqn:Hl; simpl.
  - destruct (contains (iog cp) c); [done|]. split; simpl; [done| |done]. split; simpl; set_solver.
  - assert (c ∉ illegalChannels cp) as Hn by (intros ?; by apply (Hi c)). apply isLegal_true in Hn. congruence.
Qed.

Lemma compat_refuse c cp : c ∉ channels G → compat G cp → compat G (markIllegal c cp).
Proof.
  intros Hc [Hv [Hb Hu] Hi]. split; simpl; [|done|set_solver]. rewrite Hv.
  assert (contains (iog cp) c = false) as -> by (apply contains_false; set_solver). done.
Qed.

Lemma compat_followAll cs cp : Forall (λ c, c ∈ channels G) cs → compat G cp → compat G (followAll cs cp).
Proof.
  revert cp. induction cs as [|c cs IH]; intros cp Hcs Hcp; simpl; [done|]. apply Forall_cons_1 in Hcs as [Hc Hcs].
  by apply IH, compat_follow.
Qed.

Lemma compat_refuseAll cs cp : Forall (λ c, c ∉ channels G) cs → compat G cp → compat G (refuseAll cs cp).
Proof.
  revert cp. induction cs as [|c cs IH]; intros cp Hcs Hcp; simpl; [done|]. apply Forall_cons_1 in Hcs as [Hc Hcs].
  by apply IH, compat_refuse.
Qed.

Lemma compat_allIllegal options c cp : (∀ c', c' ∈ options → c' ∈ channels G → c' = c) →
  compat G cp → compat G (allIllegal options c cp).
Proof.
  unfold allIllegal. revert cp. induction options as [|x l IH]; intros cp Ho Hcp; simpl; [done|].
  apply IH; [intros; apply Ho; [by right|done]|]. case_decide; [done|]. apply compat_refuse; [|done].
  intros Hx. apply Ho in Hx; [done|left].
Qed.

Lemma followSingle_compat options cp : NoDup options → single (channels G) options → compat G cp →
  ∃ cp', cp' ∈ followSingle cp options ∧ compat G cp'.
Proof.
  intros Hn (c & Hin & Hc & Hu) Hcp. rewrite followSingle_unfold.
  assert (∀ x, x ∈ filter (λ c, contains (iog cp) c = true) options → x = c) as Hf.
  { intros x [Hx%contains_true Hxin]%list_elem_of_filter. apply Hu; [done|]. by apply (cm_below _ _ Hcp). }
  destruct (filter _ options) as [|x [|y l]] eqn:E.
  - exists (allIllegal options c (markFollowed c cp)). split; [apply list_elem_of_fmap; eauto|].
    apply compat_allIllegal; [done|]. by apply compat_follow.
  - exists (allIllegal options x cp). split; [left|]. rewrite (Hf x) by left. by apply compat_allIllegal.
  - assert (NoDup (x :: y :: l)) as Hd by (rewrite <-E; by apply list.NoDup_filter).
    apply list.NoDup_cons in Hd as [Hxy _]. rewrite (Hf x), (Hf y) in Hxy by (left || (right; left)).
    by destruct Hxy; left.
Qed.

Lemma handleUnit_compat f cp op o pushed : handleUnit f cp op = Ok pushed → ops f !! op = Some o →
  NoDup (getOperands (theOp o)) → NoDup (getResults (theOp o)) →
  unitRule (channels G) (theOp o) → compat G (insertUnit op cp) → ∃ cp', cp' ∈ pushed ∧ compat G cp'.
Proof.
  unfold handleUnit, opAt. intros H Ho Hno Hnr Hr Hcp. rewrite Ho in H. cbn [of_option bind] in H.
  destruct (theOp o); simpl in Hr, Hno, Hnr; try done; try (injection H as <-);
    try (eexists; split; [left|]; eauto using compat_follow; naive_solver eauto using compat_follow; fail).
  - destruct Hr as [(r & Hr & Hrc) Hs]. apply bind_ok in H as (r' & Hr'%at_ok & [= <-]).
    apply followSingle_compat; [done|done|]. apply compat_follow; [|done]. destruct results; naive_solver.
  - by apply followSingle_compat.
  - destruct Hr. apply followSingle_compat; auto using compat_follow.
  - destruct Hr as [Hres [[Hd Hs]|[Hd Hs]]].
    + eexists. split; [left|]. apply compat_refuse; [done|]. apply compat_followAll; auto using compat_follow.
    + eexists. split; [right; left|]. apply compat_follow; [done|]. apply compat_refuseAll; auto using compat_follow.
  - destruct Hr as (? & ? & ?). apply followSingle_compat; auto using compat_follow.
  - destruct Hr. apply followSingle_compat; [done|done|]. by apply compat_followAll.
Qed.

Context (f : FuncOp) (HG : inOrder f G) (Hdist : distinct f).

Definition covered (candidates : list IOGCandidate) (finals : list IOG) : Prop :=
  (∃ cp, cp ∈ candidates ∧ compat G cp) ∨ ∃ g, g ∈ finals ∧ below g G.

Lemma finderStep_covered arg cs fs cs' fs' : finderStep f cs fs = Ok (cs', fs') → stateOk f arg cs fs →
  covered cs fs → covered cs' fs'.
Proof.
  intros H [Hok _] Hcov. destruct cs as [|cp cs]; [by injection H as <- <-|]. simpl in H.
  destruct Hcov as [(c & [->|Hc]%elem_of_cons & Hcm)|(g & Hg & Hb)].
  - apply Forall_cons_1 in Hok as [[_ Hok] _]. rewrite (cm_valid _ _ Hcm) in H. specialize (Hok (cm_valid _ _ Hcm)).
    apply bind_ok in H as ([r cp'] & Hn & H). apply getNextOpToAdd_spec in Hn; [|apply Hcm|done].
    destruct r as [op|].
    + destruct Hn as (queue' & -> & _ & _ & (o & Ho & _) & c & Hc & Hside). apply bind_ok in H as (pushed & Hp & [= <- <-]).
      assert (op ∈ units G) as Hop.
      { apply (cm_below _ _ Hcm) in Hc. destruct Hside as [Hd|Hu]; [by eapply (io_before _ _ HG)|].
        destruct (io_after _ _ HG c Hc) as (i & Hi & Hin). congruence. }
      destruct (io_units _ _ HG op Hop) as (o' & Ho' & Hr). assert (o' = o) as -> by congruence.
      unfold distinct in Hdist. rewrite Forall_lookup in Hdist. destruct (Hdist _ _ Ho) as [Hno Hnr].
      destruct (handleUnit_compat f _ op o pushed Hp Ho Hno Hnr Hr) as (cp' & Hin & Hcm').
      * destruct Hcm as [Hv [Hbc Hbu] Hi]. split; [done| |done]. split; simpl; set_solver.
      * left. exists cp'. split; [|done]. apply elem_of_app. left. by apply list_elem_of_In, in_rev, list_elem_of_In in Hin.
    + destruct Hn as (E & Hv & _ & _). rewrite Hv in H. injection H as <- <-. right. exists (iog cp').
      split; [apply elem_of_app; right; left|]. rewrite E. apply Hcm.
  - destruct (invalidIOG cp); [injection H as <- <-; left; by exists c|].
    apply bind_ok in H as ([[op|] cp'] & _ & H).
    + apply bind_ok in H as (pushed & _ & [= <- <-]). left. exists c. split; [|done]. apply elem_of_app. by right.
    + injection H as <- <-. left. by exists c.
  - right. exists g. split; [|done]. destruct (invalidIOG cp); [by injection H as <- <-|].
    apply bind_ok in H as ([[op|] cp'] & _ & H).
    + by apply bind_ok in H as (pushed & _ & [= <- <-]).
    + injection H as <- <-. destruct (invalidIOG cp'); [done|]. apply elem_of_app. by left.
Qed.

Lemma finderLoop_covered arg fuel : ∀ cs fs iogs, finderLoop f fuel cs fs = Ok iogs → stateOk f arg cs fs →
  covered cs fs → ∃ g, g ∈ iogs ∧ below g G.
Proof.
  assert (∀ fs, covered [] fs → ∃ g, g ∈ fs ∧ below g G) as Hend.
  { intros fs [(cp & Hcp & _)|]; [by apply elem_of_nil in Hcp|done]. }
  induction fuel as [|fuel IH]; intros cs fs iogs H Hok Hc.
  - destruct cs; [|done]. injection H as <-. by apply Hend.
  - destruct cs as [|cp cs]; [injection H as <-; by apply Hend|]. cbn [finderLoop] in H.
    apply bind_ok in H as ([cs' fs'] & Hs & H). eapply IH; [exact H| |].
    + by eapply finderStep_ok.
    + by eapply finderStep_covered.
Qed.

End Compatible.

(** C27.  No in-order graph is missed: each one that starts at an argument contains
    a graph that is found from that argument. *)
Theorem findAllIOGsWithEntry_complete f fuel arg iogs G :
  findAllIOGsWithEntry f fuel arg = Ok iogs → distinct f → inOrder f G → entry G = arg →
  ∃ g, g ∈ iogs ∧ inOrder f g ∧ entry g = arg ∧ channels g ⊆ channels G ∧ units g ⊆ units G.
Proof.
  intros H Hd HG He. assert (stateOk f arg [IOGCandidate_new arg] []) as Hok.
  { split; [|done]. apply Forall_singleton. split; [done|]. intros _. apply new_ok. }
  pose proof (finderLoop_ok _ _ _ _ _ _ H Hok) as Hall.
  destruct (finderLoop_covered G f HG Hd arg fuel _ _ _ H Hok) as (g & Hg & Hb).
  - left. exists (IOGCandidate_new arg). split; [left|]. split; [done| |set_solver].
    split; simpl; [|set_solver]. pose proof (io_entry _ _ HG). set_solver.
  - exists g. split; [done|]. rewrite Forall_elem in Hall. destruct (Hall g Hg). by split_and!; try apply Hb.
Qed.

(** * The search ends *)

Section Termination.
Context (f : FuncOp).

(** A bound on the candidates pushed for an operation. *)
Definition branching : nat :=
  S (S (foldr (λ o n, length (getOperands (theOp o)) + length (getResults (theOp o)) + n) 0 (ops f)))%nat.

(** Steps needed for a candidate that lacks [k] operations. *)
Fixpoint weight (k : nat) : nat := match k with O => 1 | S k => S (branching * weight k) end.

Definition missing (cp : IOGCandidate) : nat := (length (ops f) - size (units (iog cp)))%nat.
Definition total (cs : list IOGCandidate) : nat := foldr (λ cp n, weight (missing cp) + n)%nat 0%nat cs.

Lemma weight_pos k : (1 ≤ weight k)%nat.
Proof. destruct k; simpl; lia. Qed.

Lemma followSingle_length cp options : (length (followSingle cp options) ≤ S (length options))%nat.
Proof. rewrite followSingle_unfold. destruct (filter _ options) as [|? [|? ?]]; rewrite ?length_map; simpl; lia. Qed.

Lemma op_ports i o : ops f !! i = Some o →
  (length (getOperands (theOp o)) + length (getResults (theOp o)) + 2 ≤ branching)%nat.
Proof.
  unfold branching. revert i. induction (ops f) as [|x l IH]; intros i Hi; [done|]. simpl.
  destruct i as [|i]; [injection Hi as ->; lia|]. specialize (IH i Hi). lia.
Qed.

Lemma handleUnit_branching cp op pushed : handleUnit f cp op = Ok pushed → (length pushed ≤ branching)%nat.
Proof.
  unfold handleUnit, opAt. intros H. apply bind_ok in H as (o & Ho%of_option_ok & H).
  pose proof (op_ports _ _ Ho) as Hb. destruct (theOp o); simpl in Hb; try (injection H as <-); simpl;
    try (etransitivity; [apply followSingle_length|]; simpl; lia); try lia.
  apply bind_ok in H as (r & _ & [= <-]). etransitivity; [apply followSingle_length|]. lia.
Qed.

Lemma units_size (U : OpSet) : (∀ i, i ∈ U → is_Some (ops f !! i)) → (size U ≤ length (ops f))%nat.
Proof.
  intros H. transitivity (size (list_to_set (C := OpSet) (seq 0 (length (ops f))))).
  - apply subseteq_size. intros i Hi. apply elem_of_list_to_set, elem_of_seq. destruct (H i Hi) as [o Ho].
    apply lookup_lt_Some in Ho. lia.
  - rewrite size_list_to_set by apply NoDup_seq. by rewrite length_seq.
Qed.

Lemma finderStep_decreases arg cs fs cs' fs' : cs ≠ [] → stateOk f arg cs fs → finderStep f cs fs = Ok (cs', fs') →
  (total cs' < total cs)%nat.
Proof.
  intros Hne [Hok _] H. destruct cs as [|cp cs]; [done|]. simpl in *. pose proof (weight_pos (missing cp)) as Hpos.
  apply Forall_cons_1 in Hok as [[_ Hok] _]. destruct (invalidIOG cp) eqn:Hv; [injection H as <- <-; lia|].
  specialize (Hok eq_refl). apply bind_ok in H as ([r cp'] & Hn & H).
  apply getNextOpToAdd_spec in Hn; [|done|done]. destruct r as [op|]; [|injection H as <- <-; lia].
  destruct Hn as (queue' & -> & Hok' & Hnin & Hop & _). apply bind_ok in H as (pushed & Hp & [= <- <-]).
  pose proof (handleUnit_branching _ _ _ Hp) as Hlen.
  pose proof (handleUnit_ok f (withQueue cp queue') op pushed Hp Hok' Hop) as Hpushed.
  assert (missing cp = S (length (ops f) - size ({[op]} ∪ units (iog cp)))) as E.
  { unfold missing. assert (size ({[op]} ∪ units (iog cp)) ≤ length (ops f))%nat.
    - apply units_size. intros i [->%elem_of_singleton|Hi]%elem_of_union; [destruct Hop as (o & Ho & _); by eexists|].
      destruct (co_units _ _ _ Hok i Hi) as (o & Ho & _); [done|]. by eexists.
    - rewrite size_union, size_singleton in * by set_solver. simpl in *. lia. }
  set (k := (length (ops f) - size ({[op]} ∪ units (iog cp)))%nat) in *. rewrite E. change (weight (S k)) with (S (branching * weight k)).
  assert (∀ l cs, Forall (λ cp', units (iog cp') = {[op]} ∪ units (iog cp)) l →
    total (rev l ++ cs) = (length l * weight k + total cs)%nat) as Ht.
  { clear. induction l as [|x l IH]; intros cs Hl; simpl; [done|]. apply Forall_cons_1 in Hl as [Hx Hl].
    rewrite <-app_assoc, IH by done. simpl. unfold missing. rewrite Hx. fold k. lia. }
  rewrite Ht by (eapply Forall_impl; [|exact Hpushed]; intros ? (? & _); done).
  assert (length pushed * weight k ≤ branching * weight k)%nat by (by apply Nat.mul_le_mono_r). unfold total in *. lia.
Qed.

Lemma nextOpLoop_fuelless cp queue : fuelless (nextOpLoop f cp queue).
Proof.
  induction queue as [|c rest IH]; simpl; [done|]. destruct (isLegal cp c); simpl; [|done].
  destruct (filter _ _); [|done]. apply fuelless_bind; [unfold firstUser; auto with dyn|]. intros after.
  by destruct (containsOp _ _).
Qed.

Lemma handleUnit_fuelless cp op : fuelless (handleUnit f cp op).
Proof.
  unfold handleUnit, opAt. apply fuelless_bind; [auto with dyn|]. intros o. destruct (theOp o); try done.
  apply fuelless_bind; [auto with dyn|done].
Qed.

Lemma finderStep_fuelless cs fs : fuelless (finderStep f cs fs).
Proof.
  destruct cs as [|cp cs]; simpl; [done|]. destruct (invalidIOG cp) eqn:Hv; [done|].
  apply fuelless_bind; [unfold getNextOpToAdd; rewrite Hv; apply nextOpLoop_fuelless|]. intros [[op|] cp']; [|done].
  apply fuelless_bind; [apply handleUnit_fuelless|done].
Qed.

Lemma finderLoop_fuelless arg fuel : ∀ cs fs, stateOk f arg cs fs → (total cs ≤ fuel)%nat → fuelless (finderLoop f fuel cs fs).
Proof.
  induction fuel as [|fuel IH]; intros cs fs Hok Ht.
  - destruct cs as [|cp cs]; [done|]. simpl in Ht. pose proof (weight_pos (missing cp)). lia.
  - destruct cs as [|cp cs]; [done|]. cbn [finderLoop]. destruct (finderStep f (cp :: cs) fs) as [[cs' fs']|] eqn:Hs; simpl.
    + apply IH; [eapply finderStep_ok; [exact Hs|exact Hok]|]. 
      assert (total cs' < total (cp :: cs))%nat by (by eapply finderStep_decreases). lia.
    + pose proof (finderStep_fuelless (cp :: cs) fs) as Hf. rewrite Hs in Hf. intros [= ->]. by apply Hf.
Qed.

End Termination.

(** The search for in-order graphs ends: every step that adds an operation
    replaces a candidate by candidates that lack one operation less. *)
Theorem findAllIOGsWithEntry_ends f arg fuel :
  (weight f (length (ops f)) ≤ fuel)%nat → findAllIOGsWithEntry f fuel arg ≠ Bad NoFuel.
Proof.
  intros Hf. apply (finderLoop_fuelless f arg).
  - split; [|done]. apply Forall_singleton. split; [done|]. intros _. apply new_ok.
  - cbn [total foldr]. unfold missing. change (units (iog (IOGCandidate_new arg))) with (∅ : OpSet).
    rewrite size_empty, Nat.sub_0_r. lia.
Qed.
