(* ===== verification/TokenFlow.v ===== *)
(** Token flow in a circuit: an abstract specification of how tokens pass through
    the channels and the internal states of handshake operations.  A state gives
    the tokens that have passed through every channel, in order, and those in every
    internal state; a cycle lets at most one token pass through a channel. *)

From stdpp Require Import strings gmap.
From S2P Require Import FlowNamers HandshakeIR FlowExpr FlowExtract FlowSystem Prelude.

(** The values of the tokens; a control token has any value. *)
Notation Token := nat.

(** For a channel, outside or inside an operation, the tokens that have passed;
    for a slot, the token in it; for the sent state of an output of a fork, the
    token sent there that the other outputs still wait for. *)
Definition State : Type := Variants → list Token.

(** The tokens that pass in a cycle. *)
Definition Events : Type := Variants → option Token.

Definition initial : State := λ _, [].

Definition fires (e : option Token) : bool := bool_decide (is_Some e).

(** * The states of slots and forks *)

(** A slot between two channels. *)
Inductive slotStep : option Token → option Token → list Token → list Token → Prop :=
| slot_idle c : slotStep None None c c
| slot_fill v : slotStep (Some v) None [] [v]
| slot_empty v : slotStep None (Some v) [v] []
| slot_replace v w : slotStep (Some w) (Some v) [v] [w]
| slot_bypass v : slotStep (Some v) (Some v) [] [].

(** A slot whose tokens change their values. *)
Definition slotStepAny (before after : option Token) (c c' : list Token) : Prop :=
  ∃ b a, fires b = fires before ∧ fires a = fires after ∧ slotStep b a c c'.

(** An output of an eager fork: its token is sent before or when the input is
    consumed. *)
Inductive sentStep : option Token → option Token → list Token → list Token → Prop :=
| sent_idle c : sentStep None None c c
| sent_send v : sentStep None (Some v) [] [v]
| sent_done v : sentStep (Some v) None [v] []
| sent_through v : sentStep (Some v) (Some v) [] [].

(** * Operations *)

Section Steps.
Context (f : FuncOp) (ev : Events) (s s' : State).

Definition chan (c : Value) : option Token := ev (ChannelLambda c).
Definition inner (i : OpId) (k : Z) : option Token := ev (InternalLambda i k).

Definition slotAt (n : InternalStateNamer) (before after : option Token) : Prop :=
  slotStep before after (s (FlowInternalState n)) (s' (FlowInternalState n)).
Definition slotAtAny (n : InternalStateNamer) (before after : option Token) : Prop :=
  slotStepAny before after (s (FlowInternalState n)) (s' (FlowInternalState n)).
Definition sentAt (n : EagerForkSentNamer) (before after : option Token) : Prop :=
  sentStep before after (s (FlowInternalState (EagerForkSent n))) (s' (FlowInternalState (EagerForkSent n))).

(** Slots in a row, between the internal channels from [k] on, which are numbered
    by 32-bit integers. *)
Fixpoint chainStep (i : OpId) (before : option Token) (k : Z) (slots : list InternalStateNamer)
    (after : option Token) : Prop :=
  match slots with
  | [] => before = after
  | n :: slots => slotAt n before (inner i k) ∧ chainStep i (inner i k) (wrapU 32 (k + 1)) slots after
  end.

(** All pass a token or none does. *)
Definition together (e : option Token) (cs : list Value) : Prop := Forall (λ c, fires (chan c) = fires e) cs.

(** The selected channel passes its token on, the others pass none. *)
Definition selects (sel : option Token) (cs : list Value) : Prop :=
  (∀ k, sel = Some k → (k < length cs)%nat) ∧
  ∀ k c, cs !! k = Some c → fires (chan c) = bool_decide (sel = Some k).

(** The operands pass together, into the pipeline of an operation with latency. *)
Definition joinStep (i : OpId) (name : string) (latency : option (option Z)) (operands results : list Value) : Prop :=
  match latency with
  | None => ∀ c, results = [c] → together (chan c) operands
  | Some latency => ∀ c slots, results = [c] → getPipelineSlots name latency = Ok slots →
      together (inner i 0) operands
      ∧ ∃ after, fires after = fires (chan c) ∧ chainStep i (inner i 0) 1 (map PipelineSlot slots) after
  end.

(** An operand of a select has passed fewer tokens than the select has given results:
    an antitoken waits for its next one. *)
Definition owed (c r : Value) : bool :=
  (length (s (ChannelLambda c)) <? length (s (ChannelLambda r)))%nat.

(** A select (the entities of select.py, SelectModel) passes a result with the condition
    and the operand that this selects, when no antitoken waits; the other operand passes
    with them or leaves an antitoken, which its next token meets. *)
Definition selectStep (c t e r : Value) : Prop :=
  fires (chan c) = fires (chan r)
  ∧ (∀ v, chan c = Some v → owed t r = false ∧ owed e r = false ∧ fires (chan (if (v =? 0)%nat then e else t)) = true)
  ∧ (chan c = None → (fires (chan t) = true → owed t r = true) ∧ (fires (chan e) = true → owed e r = true)).

(** One cycle of an operation, as the modules of the SMV generators
    (experimental/tools/unit-generators/smv) behave: joins of the operands of an arithmetic
    operation, before its pipeline; the slots of buffers, which may be bypassed; eager
    forks; muxes, branches and control merges, which select an operand or a result; loads
    with their two slots.  An operation of another kind may do anything. *)
Definition opStep (i : OpId) (o : Operation) : Prop :=
  match theOp o with
  | ArithOp Joining latency operands results => joinStep i (opName o) latency operands results
  | ArithOp Selecting _ operands results => ∀ c t e r, operands = [c; t; e] → results = [r] → selectStep c t e r
  | EndOp inputs => together (inner i 0) inputs ∧ slotAt (BufferSlotFull endSlotNamer) (inner i 0) None
  | SinkOp _ | SourceOp _ | MergeOp _ _ | OtherOp _ _ => True
  | DeadBufferOp operand => slotAt (BufferSlotFull (DeadBufferOp_slotNamer (opName o))) (chan operand) None
  | ForkOp operand result => ∀ k c n, result !! k = Some c →
      ForkOp_sentNamers f (opName o) result !! k = Some n → sentAt n (chan operand) (chan c)
  | MuxOp selectOperand dataOperands result =>
      fires (chan selectOperand) = fires (chan result) ∧ selects (chan selectOperand) dataOperands
  | BufferOp t n operand result => ∀ slots, BufferOp_slotNamers f (opName o) t n operand = Ok slots →
      chainStep i (chan operand) 0 (map BufferSlotFull slots) (chan result)
  | ConditionalBranchOp c d t e =>
      fires (chan d) = fires (chan c) ∧ selects (chan c) [e; t]
  | LoadOp a d ar dr =>
      let '(na, nd) := LoadOp_slotNamers f (opName o) a d in
      slotAtAny (BufferSlotFull na) (chan a) (chan ar) ∧ slotAtAny (BufferSlotFull nd) (chan d) (chan dr)
  | StoreOp a d ar dr => fires (chan a) = fires (chan ar) ∧ fires (chan d) = fires (chan dr)
  | ControlMergeOp dataOperands result index =>
      selects (inner i 0) dataOperands
      ∧ slotAt (BufferSlotFull (ControlMergeOp_slotNamer f (opName o) index)) (inner i 0) (inner i 1)
      ∧ fires (inner i 2) = fires (inner i 0) ∧ fires (inner i 3) = fires (inner i 1)
      ∧ ∀ nd ni, ControlMergeOp_sentNamers f (opName o) result index = [nd; ni] →
          sentAt nd (inner i 3) (chan result) ∧ sentAt ni (inner i 1) (chan index)
  | MemoryControllerOp loadPorts operands results => ∀ k p a d n, loadPorts !! k = Some p →
      operands !! addrInputIndex p = Some a → results !! dataOutputIndex p = Some d →
      getLoadPortSlotNamer (opName o) loadPorts k = Ok n →
      slotAtAny (MemoryControllerSlot n) (chan a) (chan d)
  end.

End Steps.

(** * Circuits *)

(** Tokens on a channel that carries indices are less than their number. *)
Definition inRange (ica : IndexChannels) (ev : Events) : Prop :=
  ∀ c n v, ica !! c = Some n → ev (ChannelLambda c) = Some v → (v < n)%nat.

(** A token that passes is recorded.  The environment offers tokens to the arguments;
    they wait in the entry slots.  The testbench takes what comes to the end. *)
Definition records (ev : Events) (s s' : State) (x : Variants) : Prop :=
  s' x = s x ++ option_list (ev x).

Definition step (f : FuncOp) (ica : IndexChannels) (s s' : State) : Prop :=
  ∃ ev, inRange ica ev
  ∧ (∀ c, records ev s s' (ChannelLambda c)) ∧ (∀ i k, records ev s s' (InternalLambda i k))
  ∧ (∀ c a, (c, a) ∈ arguments f → ∃ offered, slotAt s s' (EntrySlot a) offered (chan ev c))
  ∧ ∀ i o, ops f !! i = Some o → opStep f ev s s' i o.

Inductive reachable (f : FuncOp) (ica : IndexChannels) : State → Prop :=
| reach_initial : reachable f ica initial
| reach_step s s' : reachable f ica s → step f ica s s' → reachable f ica s'.

(** Every channel has a single use. *)
Definition materialized (f : FuncOp) : Prop :=
  ∀ i o c, ops f !! i = Some o → c ∈ getOperands (theOp o) → getUsers f c = [i].

(** The circuit has no select. *)
Definition isSelect (o : Operation) : bool :=
  match theOp o with ArithOp Selecting _ _ _ => true | _ => false end.
Definition noSelect (f : FuncOp) : Prop := Forall (λ o, isSelect o = false) (ops f).

(** * Counting tokens *)

(** Tokens a variable tracks. *)
Definition counted (t : option TrackerBitSet) (v : Token) : bool :=
  match t with None => true | Some t => (v <? trackerSize)%nat && tracks t v end.

Definition count (t : option TrackerBitSet) (l : list Token) : Z := Z.of_nat (length (filter (λ v, counted t v = true) l)).

(** The number of tokens a flow variable stands for. *)
Definition flow (s : State) : valuation := λ v, count (indexTokenTracker v) (s (variable v)).
