(* ===== verification/FlowSound.v ===== *)
(** The equations of the extractor hold in every state a circuit can reach: the
    numbers of tokens they speak of agree (extractAll, against the abstract
    specification of TokenFlow). *)

From stdpp Require Import strings gmap.
From S2P Require Import FlowNamers HandshakeIR FlowExpr FlowExtract FlowSystem TokenFlow Prelude.

(** * Counting *)

(** The tokens counted among those that pass in a cycle. *)
Definition cnt (t : option TrackerBitSet) (e : option Token) : Z := count t (option_list e).

Lemma count_app t l l' : count t (l ++ l') = count t l + count t l'.
Proof. unfold count. rewrite list.filter_app, length_app. lia. Qed.

Lemma cnt_some t v : cnt t (Some v) = Z.b2z (counted t v).
Proof. unfold cnt, count; simpl. rewrite filter_cons, filter_nil. by destruct (counted t v). Qed.

Lemma cnt_untracked e : cnt None e = Z.b2z (fires e).
Proof. by destruct e. Qed.

Lemma slotStep_count t b a c c' : slotStep b a c c' → count t c' = count t c + cnt t b - cnt t a.
Proof. unfold cnt. destruct 1; simpl; rewrite ?Z.add_0_r; change (count t []) with 0; lia. Qed.

Lemma sentStep_count t b a c c' : sentStep b a c c' → count t c' = count t c + cnt t a - cnt t b.
Proof. unfold cnt. destruct 1; simpl; change (count t []) with 0; lia. Qed.

(** Every token that passes is counted. *)
Definition covers (t : option TrackerBitSet) (e : option Token) : Prop := ∀ v, e = Some v → counted t v = true.

Lemma cnt_covers t e : covers t e → cnt t e = Z.b2z (fires e).
Proof. intros H. destruct e as [v|]; [|done]. by rewrite cnt_some, H. Qed.

Lemma covers_untracked e : covers None e.
Proof. done. Qed.

Lemma full_bits n i : (n ≤ trackerSize)%nat →
  Z.testbit (foldl (λ b i, Z.setbit b (Z.of_nat i)) 0 (seq 0 n)) (Z.of_nat i) = (i <? n)%nat.
Proof.
  intros _. induction n as [|n IH]; [by rewrite Z.testbit_0_l|].
  rewrite seq_S, foldl_app. simpl. rewrite Z.setbit_eqb, IH by lia.
  destruct (Nat.ltb_spec i n), (Nat.ltb_spec i (S n)), (Z.eqb_spec (Z.of_nat n) (Z.of_nat i)); simpl; try done; lia.
Qed.

Lemma tracker_tracks n t i : IndexTokenTracker n = Ok t → tracks t i = (i <? n)%nat ∧ (n ≤ trackerSize)%nat.
Proof.
  unfold IndexTokenTracker, tracks. destruct (Nat.leb_spec n trackerSize) as [Hn|]; [|done].
  intros [= <-]. by rewrite full_bits.
Qed.

Lemma tracker_covers n t e : IndexTokenTracker n = Ok t → (∀ v, e = Some v → (v < n)%nat) → covers (Some t) e.
Proof.
  intros Ht He v Hv. specialize (He v Hv). destruct (tracker_tracks n t v Ht) as [Htr Hn]. simpl. rewrite Htr.
  destruct (Nat.ltb_spec v trackerSize), (Nat.ltb_spec v n); simpl; try done; lia.
Qed.

Lemma counted_one i v : (i < trackerSize)%nat → counted (Some (2 ^ Z.of_nat i)) v = (v =? i)%nat.
Proof.
  intros Hi. unfold counted, tracks. rewrite Z.pow2_bits_eqb by lia.
  destruct (Nat.ltb_spec v trackerSize), (Nat.eqb_spec v i), (Z.eqb_spec (Z.of_nat i) (Z.of_nat v)); simpl;
    try done; lia.
Qed.

(** The tokens of single values add up to those tracked. *)
Lemma counts_add s v l : NoDup l → Forall (λ i, (i < trackerSize)%nat) l →
  eval (flow s) (map (λ i, (at_value v i, 1)) l)
  = Z.of_nat (length (filter (λ x, x ∈ l) (s (variable v)))).
Proof.
  intros Hn Hl. induction l as [|i l IH]; simpl.
  - induction (s (variable v)) as [|x xs IHx]; [done|]. rewrite filter_cons, decide_False; [done|].
    apply not_elem_of_nil.
  - apply list.NoDup_cons in Hn as [Hi Hn]. apply Forall_cons_1 in Hl as [Hlt Hl].
    rewrite IH by done. change (snd (at_value v i, 1) * flow s (fst (at_value v i, 1))) with (1 * flow s (at_value v i)). rewrite Z.mul_1_l.
    change (flow s (at_value v i)) with (count (Some (2 ^ Z.of_nat i)) (s (variable v))).
    unfold count. clear IH. induction (s (variable v)) as [|x xs IHx]; [done|].
    rewrite !filter_cons, counted_one by done. destruct (Nat.eqb_spec x i) as [->|Hne].
    + rewrite (decide_True (P := true = true)), (decide_True (P := i ∈ i :: l)), decide_False by (done || by left).
      cbn [length]. lia.
    + rewrite (decide_False (P := false = true)) by done.
      destruct (decide (x ∈ l)); [rewrite decide_True by (by right)|rewrite decide_False]; cbn [length]; try lia.
      intros [|]%elem_of_cons; done.
Qed.

(** The expression of a variable has the value of the variable. *)
Lemma eval_ofVariable s v : eval (flow s) (ofVariable v) = flow s v.
Proof.
  rewrite ofVariable_keys. unfold trackedValues. destruct (indexTokenTracker v) as [t|] eqn:Ht; [|simpl; lia].
  rewrite counts_add.
  - unfold flow, count. rewrite Ht. do 2 f_equal. apply list_filter_iff. intros x.
    rewrite list_elem_of_filter, elem_of_seq. simpl. rewrite andb_true_iff, Nat.ltb_lt. unfold trackerSize. lia || (split; intros []; split; try done; lia).
  - apply list.NoDup_filter, NoDup_seq.
  - apply Forall_elem. intros i [_ Hi%elem_of_seq]%list_elem_of_filter. simpl in Hi. lia.
Qed.
#[export] Hint Rewrite eval_ofVariable : dyn_rw.

(** * Tokens inside operations *)

(** The tokens that pass satisfy [P]. *)
Definition passes (P : Token → Prop) (e : option Token) : Prop := ∀ v, e = Some v → P v.

Lemma slotStep_passes P b a c c' : slotStep b a c c' → passes P b → Forall P c → passes P a ∧ Forall P c'.
Proof.
  unfold passes. destruct 1; intros Hb Hc; rewrite ?Forall_singleton in *; (split; [|by repeat constructor; auto]);
    intros ? [=]; subst; auto.
Qed.

(** Tokens in the slots of buffers and control merges are numbers of inputs. *)
Definition slotsInRange (f : FuncOp) (ica : IndexChannels) (s : State) : Prop :=
  ∀ i o, ops f !! i = Some o →
  match theOp o with
  | BufferOp t n operand _ => ∀ slots m, BufferOp_slotNamers f (opName o) t n operand = Ok slots →
      ica !! operand = Some m →
      Forall (λ n, Forall (λ v, (v < m)%nat) (s (FlowInternalState (BufferSlotFull n)))) slots
  | ControlMergeOp dataOperands _ index =>
      Forall (λ v, (v < length dataOperands)%nat)
        (s (FlowInternalState (BufferSlotFull (ControlMergeOp_slotNamer f (opName o) index))))
  | _ => True
  end.

Lemma chainStep_passes P ev s s' i b k slots a : chainStep ev s s' i b k slots a → passes P b →
  Forall (λ n, Forall P (s (FlowInternalState n))) slots →
  passes P a ∧ Forall (λ n, Forall P (s' (FlowInternalState n))) slots.
Proof.
  revert b k. induction slots as [|n slots IH]; intros b k; simpl; [by intros ->|].
  intros [Hn Hs] Hb [Hc Hcs]%Forall_cons_1. destruct (slotStep_passes _ _ _ _ _ Hn Hb Hc) as [Hi Hc'].
  destruct (IH _ _ Hs Hi Hcs). auto.
Qed.

Lemma slotsInRange_step f ica s s' : slotsInRange f ica s → step f ica s s' → slotsInRange f ica s'.
Proof.
  intros Hs (ev & Hr & _ & _ & _ & Hops) i o Ho. specialize (Hs i o Ho). specialize (Hops i o Ho).
  unfold opStep in Hops. destruct (theOp o) as [| | | | | | | |t n operand result| | | |ins result index| |]; try done.
  - intros slots m Hslots Hm. specialize (Hs slots m Hslots Hm). specialize (Hops slots Hslots).
    rewrite <-(Forall_map BufferSlotFull (λ n, Forall (λ v, (v < m)%nat) (s (FlowInternalState n)))) in Hs.
    apply (Forall_map BufferSlotFull (λ n, Forall (λ v, (v < m)%nat) (s' (FlowInternalState n)))).
    apply (chainStep_passes _ _ _ _ _ _ _ _ _ Hops); [|done]. intros v Hv. by eapply Hr.
  - destruct Hops as ([Hlt _] & Hslot & _). by apply (slotStep_passes _ _ _ _ _ Hslot).
Qed.

Lemma reachable_slotsInRange f ica s : reachable f ica s → slotsInRange f ica s.
Proof.
  induction 1 as [|s s' _ IH]; [|by eapply slotsInRange_step].
  intros i o Ho. destruct (theOp o); try done. intros slots m _ _. by apply Forall_elem.
Qed.

(** * The equations are preserved by a step *)

(** Properties of the equations an extraction pushes. *)
Definition pushes (P : FlowExpression → Prop) (x : Extraction) : Prop :=
  ∀ es ok, x = Ok (es, ok) → Forall P es.

Section Pushes.
Context (P : FlowExpression → Prop).

Lemma pushes_pushAll es : Forall P es → pushes P (pushAll es).
Proof. by intros H ? ? [= <- <-]. Qed.

Lemma pushes_push e : P e → pushes P (push e).
Proof. intros. apply pushes_pushAll. by repeat constructor. Qed.

Lemma pushes_nothing b : pushes P (Ok ([], b)).
Proof. intros ? ? [= <- <-]. constructor. Qed.

Lemma pushes_andThen a b : pushes P a → pushes P b → pushes P (a >;> b).
Proof.
  intros Ha Hb es ok H. unfold andThen in H. apply bind_ok in H as [[e1 ok1] [H1 H]].
  specialize (Ha _ _ H1). destruct ok1; [|injection H as <- <-; done].
  apply bind_ok in H as [[e2 ok2] [H2 [= <- <-]]]. apply Forall_app. split; [done|by eapply Hb].
Qed.

Lemma pushes_checked es ok b : Forall P es → (ok = true → pushes P b) → pushes P (Ok (es, ok) >;> b).
Proof.
  intros He Hb. destruct ok; [|by intros ? ? [= <- <-]]. apply pushes_andThen; [|by apply Hb].
  by intros ? ? [= <- <-].
Qed.

Lemma pushes_bind {A} (r : res A) k : (∀ a, r = Ok a → pushes P (k a)) → pushes P (bind r k).
Proof. destruct r; [|by intros _ ? ?]. intros H. by apply H. Qed.

Lemma pushes_mapM {A} (h : A → res FlowExpression) l k :
  (∀ es, Forall P es → pushes P (k es)) → (∀ x e, x ∈ l → h x = Ok e → P e) →
  pushes P (bind (mapM h l) k).
Proof.
  intros Hk Hh. apply pushes_bind. intros es Hes. apply Hk. apply mapM_ok in Hes.
  revert Hh. clear Hk. induction Hes as [|x e l es Hx _ IH]; intros Hh; constructor.
  - eapply Hh; [left|done].
  - apply IH. intros y e' Hy. apply Hh. by right.
Qed.

End Pushes.

(** A well-formed equation whose value a step does not change. *)
Definition steady (s s' : State) (e : FlowExpression) : Prop := wfExpr e ∧ eval (flow s') e = eval (flow s) e.

Section OneStep.
Context (f : FuncOp) (ica : IndexChannels) (ev : Events) (s s' : State).
Context (Hrange : inRange ica ev).
Context (Hchan : ∀ c, records ev s s' (ChannelLambda c)) (Hinner : ∀ i k, records ev s s' (InternalLambda i k)).

(** By how much the tokens a variable stands for grow. *)
Definition delta (v : FlowVariable) : Z := flow s' v - flow s v.

Lemma steady_minus a b : delta a = delta b → steady s s' (flowMinus a b).
Proof. intros H. split; [auto with dyn|]. unfold flowMinus. autorewrite with dyn_rw. unfold delta in H. lia. Qed.

Lemma steady_slot a b c : delta a = delta b + delta c → steady s s' (flowSub (flowMinus a b) (ofVariable c)).
Proof. intros H. split; [auto with dyn|]. unfold flowMinus. autorewrite with dyn_rw. unfold delta in H. lia. Qed.

Lemma steady_sent a b c : delta b = delta a + delta c → steady s s' (flowAdd (flowMinus a b) (ofVariable c)).
Proof. intros H. split; [auto with dyn|]. unfold flowMinus. autorewrite with dyn_rw. unfold delta in H. lia. Qed.

Lemma delta_channel c t : delta (mkFlowVariable (ChannelLambda c) t) = cnt t (chan ev c).
Proof. unfold delta, flow; simpl. rewrite Hchan, count_app. unfold cnt, chan. lia. Qed.

Lemma delta_inner i k t : delta (mkFlowVariable (InternalLambda i k) t) = cnt t (inner ev i k).
Proof. unfold delta, flow; simpl. rewrite Hinner, count_app. unfold cnt, inner. lia. Qed.

Lemma delta_slot n b a t : slotAt s s' n b a →
  delta (mkFlowVariable (FlowInternalState n) t) = cnt t b - cnt t a.
Proof. unfold slotAt, delta, flow; simpl. intros H%(slotStep_count t). lia. Qed.

Lemma delta_slotAny n b a : slotAtAny s s' n b a →
  delta (mkFlowVariable (FlowInternalState n) None) = Z.b2z (fires b) - Z.b2z (fires a).
Proof.
  unfold slotAtAny, delta, flow; simpl. intros (b' & a' & <- & <- & H%(slotStep_count None)).
  rewrite !cnt_untracked in H. lia.
Qed.

Lemma delta_sent n b a t : sentAt s s' n b a →
  delta (mkFlowVariable (FlowInternalState (EagerForkSent n)) t) = cnt t a - cnt t b.
Proof. unfold sentAt, delta, flow; simpl. intros H%(sentStep_count t). lia. Qed.

(** The variable of a channel counts all its tokens. *)
Lemma channelVariable_ok c v : channelVariable ica c = Ok v →
  variable v = ChannelLambda c ∧ covers (indexTokenTracker v) (chan ev c) ∧ delta v = Z.b2z (fires (chan ev c)).
Proof.
  unfold channelVariable, getIndexChannelValues. intros H.
  assert (variable v = ChannelLambda c ∧ covers (indexTokenTracker v) (chan ev c)) as [Hv Hc].
  { destruct (ica !! c) as [n|] eqn:Hn; res_inv; simpl; (split; [done|]); [|apply covers_untracked].
    eapply tracker_covers; [done|]. intros x Hx. by eapply Hrange. }
  split; [done|]. split; [done|]. destruct v as [x t]. simpl in *. subst x.
  rewrite delta_channel. by apply cnt_covers.
Qed.

(** Variables of the tokens of one value. *)
Lemma setTrackedTokens_ok v i v' : setTrackedTokens v i = Ok v' →
  ∃ t, indexTokenTracker v = Some t ∧ v' = mkFlowVariable (variable v) (Some (only t i)).
Proof. unfold setTrackedTokens. destruct (indexTokenTracker v) as [t|]; [|done]. intros [= <-]. eauto. Qed.

(** What a variable of the network outside of states counts in this step. *)
Definition counts (v : FlowVariable) (e : option Token) : Prop :=
  ∀ t, delta (mkFlowVariable (variable v) t) = cnt t e.

Lemma counts_delta v e : counts v e → delta v = cnt (indexTokenTracker v) e.
Proof. destruct v as [x t]. intros H. apply H. Qed.

Lemma counts_channel c v : channelVariable ica c = Ok v → counts v (chan ev c).
Proof. intros [E _]%channelVariable_ok t. rewrite E. apply delta_channel. Qed.

Lemma counts_inner i k t : counts (mkFlowVariable (InternalLambda i k) t) (inner ev i k).
Proof. intros t'. apply delta_inner. Qed.

(** The equations for every value of the tokens. *)
Lemma byValue_steady h in_ out st :
  (∀ t, steady s s' (h (flowMinus (withTracker in_ t) (withTracker out t)) (ofVariable (withTracker st t)))) →
  indexTokenTracker out = indexTokenTracker in_ → indexTokenTracker st = indexTokenTracker in_ →
  pushes (steady s s')
    (let* es := mapM (λ i, let* (a, b, c) := tracked3 i in_ out st in
                           Ok (h (flowMinus a b) (ofVariable c))) (seq 0 trackerSize) in
     pushAll es).
Proof.
  intros Hh Ho Hs. apply pushes_mapM; [apply pushes_pushAll|].
  intros i e _ He. apply bind_ok in He as [[[x y] z] [H3 [= <-]]]. unfold tracked3 in H3. res_inv.
  simplify_eq. apply setTrackedTokens_ok in Ha as (t1 & E1 & ->).
  apply setTrackedTokens_ok in Ha0 as (t2 & E2 & ->). apply setTrackedTokens_ok in Ha1 as (t3 & E3 & ->).
  assert (t2 = t1) as -> by congruence. assert (t3 = t1) as -> by congruence. apply Hh.
Qed.

Lemma same_tracker t v : negb (isIndex v) || bool_decide (t ≠ indexTokenTracker v) = false → indexTokenTracker v = t.
Proof. intros [_ H]%orb_false_iff. apply bool_decide_eq_false in H. symmetry. by apply dec_stable. Qed.

(** A slot: whether by value or in total, what enters leaves or stays. *)
Lemma extractSlotEquation_steady in_ out n b a t : counts in_ b → counts out a → slotAt s s' n b a →
  (indexTokenTracker in_ = None → covers (indexTokenTracker out) a ∧ covers t a ∧ covers t b) →
  pushes (steady s s') (extractSlotEquation in_ out (mkFlowVariable (FlowInternalState n) t)).
Proof.
  intros Hin Hout Hslot Hcov. unfold extractSlotEquation. destruct (isIndex in_) eqn:Hi.
  - do 2 (if_case; [apply pushes_nothing|]). apply byValue_steady; [|by apply same_tracker..].
    intros t'. apply steady_slot. unfold withTracker; simpl. rewrite Hin, Hout, (delta_slot n b a) by done. lia.
  - apply bool_decide_eq_false, eq_None_not_Some in Hi. destruct (Hcov Hi) as (C1 & C2 & C3).
    apply pushes_push, steady_slot.
    rewrite (counts_delta _ _ Hin), (counts_delta _ _ Hout), (delta_slot n b a), Hi by done.
    rewrite !cnt_covers by (done || apply covers_untracked). lia.
Qed.

(** An output of a fork. *)
Lemma extractEagerSentEquation_steady in_ out n b a t : counts in_ b → counts out a → sentAt s s' n b a →
  (indexTokenTracker in_ = None → covers (indexTokenTracker out) a ∧ covers t a ∧ covers t b) →
  pushes (steady s s') (extractEagerSentEquation in_ out (mkFlowVariable (FlowInternalState (EagerForkSent n)) t)).
Proof.
  intros Hin Hout Hslot Hcov. unfold extractEagerSentEquation. destruct (isIndex in_) eqn:Hi.
  - do 2 (if_case; [apply pushes_nothing|]). apply byValue_steady; [|by apply same_tracker..].
    intros t'. apply steady_sent. unfold withTracker; simpl. rewrite Hin, Hout, (delta_sent n b a) by done. lia.
  - apply bool_decide_eq_false, eq_None_not_Some in Hi. destruct (Hcov Hi) as (C1 & C2 & C3).
    apply pushes_push, steady_sent.
    rewrite (counts_delta _ _ Hin), (counts_delta _ _ Hout), (delta_sent n b a), Hi by done.
    rewrite !cnt_covers by (done || apply covers_untracked). lia.
Qed.

(** Slots whose tokens change their values; the equation is on totals. *)
Lemma steady_anySlot c a n b d : channelVariable ica c = Ok b → channelVariable ica a = Ok d →
  slotAtAny s s' n (chan ev c) (chan ev a) →
  steady s s' (flowSub (flowMinus b d) (ofVariable (internalState n))).
Proof.
  intros (_ & _ & Hb)%channelVariable_ok (_ & _ & Hd)%channelVariable_ok Hn. apply steady_slot.
  unfold internalState. rewrite Hb, Hd, (delta_slotAny n _ _ Hn). lia.
Qed.

Lemma extractSlotEquation_any c a n b d : channelVariable ica c = Ok b → channelVariable ica a = Ok d →
  slotAtAny s s' n (chan ev c) (chan ev a) →
  pushes (steady s s') (extractSlotEquation b d (internalState n)).
Proof.
  intros Hb Hd Hn. unfold extractSlotEquation. destruct (isIndex b) eqn:Hi.
  - if_case; apply pushes_nothing.
  - apply pushes_push. by eapply steady_anySlot.
Qed.

(** The internal channel that follows a variable. *)
Definition nextAt (v : FlowVariable) (i : OpId) (k : Z) : Prop :=
  nextInternal f v = Ok (mkFlowVariable (InternalLambda i k) (indexTokenTracker v)).

Lemma nextAt_channel c i t : getUsers f c = [i] → nextAt (mkFlowVariable (ChannelLambda c) t) i 0.
Proof. unfold nextAt, nextInternal. simpl. by intros ->. Qed.

Lemma nextAt_inner i k t : nextAt (mkFlowVariable (InternalLambda i k) t) i (wrapU 32 (k + 1)).
Proof. done. Qed.

(** A chain of slots. *)
Lemma slotChain_steady tracked slots i a : (∀ in_ b k es ok last,
  slotChain f tracked in_ slots = Ok (es, ok, last) →
  indexTokenTracker in_ = None ∨ tracked = true → counts in_ b → nextAt in_ i k →
  chainStep ev s s' i b k slots a →
  Forall (steady s s') es ∧ (ok = true → counts last a ∧ indexTokenTracker last = indexTokenTracker in_)).
Proof.
  induction slots as [|n slots IH]; intros in_ b k es ok last H Ht Hb Hk Hc; simpl in *.
  - injection H as <- <- <-. subst. split; [constructor|done].
  - destruct Hc as [Hn Hc]. unfold nextAt in Hk. rewrite Hk in H. simpl in H.
    set (t := if tracked then indexTokenTracker in_ else None) in H.
    assert (t = indexTokenTracker in_) as Et by (unfold t; destruct tracked; naive_solver).
    apply bind_ok in H as ([e1 ok1] & H1 & H).
    pose proof (extractSlotEquation_steady in_ _ n b _ t Hb (counts_inner i k (indexTokenTracker in_)) Hn) as Hs.
    assert (Forall (steady s s') e1) as He1.
    { eapply Hs; [|exact H1]. simpl. intros E. rewrite Et, E. auto using covers_untracked. }
    destruct ok1; [|injection H as <- <- <-; split; [done|by intros [=]]].
    apply bind_ok in H as ([[e2 ok2] l2] & H2 & [= <- <- <-]).
    destruct (IH _ _ _ _ _ _ H2 ltac:(naive_solver) (counts_inner i k _) (nextAt_inner _ _ _) Hc) as [He2 Hl].
    split; [by apply Forall_app|]. exact Hl.
Qed.

Lemma pushes_chain tracked in_ slots i b k a (h : FlowVariable → Extraction) :
  indexTokenTracker in_ = None ∨ tracked = true → counts in_ b → nextAt in_ i k →
  chainStep ev s s' i b k slots a →
  (∀ last, counts last a → indexTokenTracker last = indexTokenTracker in_ → pushes (steady s s') (h last)) →
  pushes (steady s s') (let* (es, ok, last) := slotChain f tracked in_ slots in Ok (es, ok) >;> h last).
Proof.
  intros Ht Hb Hk Hc Hh. apply pushes_bind. intros [[e1 ok1] last] H1.
  destruct (slotChain_steady tracked slots i a in_ b k e1 ok1 last H1 Ht Hb Hk Hc) as [He Hl].
  apply pushes_checked; [done|]. intros Hok. apply Hh; by apply Hl.
Qed.

(** * Operations *)

(** Two channels, or a channel and an internal one, on which tokens pass together. *)
Lemma steady_together a b : delta a = delta b → pushes (steady s s') (push (flowMinus a b)).
Proof. intros. by apply pushes_push, steady_minus. Qed.

Lemma delta_untracked v e : counts v e → indexTokenTracker v = None → delta v = Z.b2z (fires e).
Proof. intros H E. by rewrite (counts_delta _ _ H), E, cnt_untracked. Qed.

(** The operands of a join. *)
Lemma join_steady joinResult e cs : delta joinResult = Z.b2z (fires e) → together ev e cs →
  pushes (steady s s')
    (let* es := mapM (λ c, let* v := channelVariable ica c in Ok (flowMinus joinResult v)) cs in pushAll es).
Proof.
  intros Hj Ht. apply pushes_mapM; [apply pushes_pushAll|]. intros c x Hc Hx. res_inv.
  apply steady_minus. apply channelVariable_ok in Ha as (_ & _ & Ha). rewrite Hj, Ha.
  by rewrite (proj1 (Forall_elem _ _) Ht c Hc).
Qed.

Lemma extractArithmeticJoinOp_steady i name latency operands results :
  joinStep ev s s' i name latency operands results →
  pushes (steady s s') (extractArithmeticJoinOp f ica i name latency operands results).
Proof.
  unfold joinStep, extractArithmeticJoinOp. intros H.
  apply pushes_bind. intros u Hl. apply pushes_bind. intros c Hc. apply pushes_bind. intros out Hout.
  destruct results as [|c' [|]]; try done. injection Hc as <-.
  destruct (channelVariable_ok _ _ Hout) as (_ & _ & Do).
  destruct latency as [l|]; [|apply (join_steady _ (chan ev c')); auto].
  apply pushes_bind. intros [[es ok] last] Hp. unfold extractPipeline in Hp.
  apply bind_ok in Hp as (slots & Hs & Hp). simpl in Hp. destruct (H c' slots eq_refl Hs) as (Hj & after & Ha & Hch).
  destruct (slotChain_steady _ _ _ _ _ _ _ _ _ _ Hp ltac:(by left) (counts_inner i 0 None)
    (nextAt_inner i 0 None) Hch) as [He Hlast].
  apply pushes_checked; [done|]. intros Hok. destruct (Hlast Hok) as [Hcl Htl].
  apply pushes_andThen; [|apply (join_steady _ (inner ev i 0)); [by apply delta_untracked, eq_refl; apply counts_inner|done]].
  apply steady_together. rewrite Do, <-Ha. symmetry. by apply delta_untracked.
Qed.

Lemma extractEndOp_steady i name inputs :
  opStep f ev s s' i (mkOperation name (EndOp inputs)) → pushes (steady s s') (extractEndOp ica i inputs).
Proof.
  intros [H _]. apply (join_steady _ (inner ev i 0)); [|done]. apply delta_untracked; [|done]. apply counts_inner.
Qed.

Lemma extractDeadBufferOp_steady i name operand :
  opStep f ev s s' i (mkOperation name (DeadBufferOp operand)) →
  pushes (steady s s') (extractDeadBufferOp ica name operand).
Proof.
  unfold opStep. cbn [theOp opName]. intros H. apply pushes_bind. intros v (_ & _ & Hv)%channelVariable_ok. apply steady_together.
  unfold internalState. rewrite Hv, (delta_slot _ _ _ None H), !cnt_untracked. simpl. lia.
Qed.

Lemma extractForkOp_steady i name operand result :
  opStep f ev s s' i (mkOperation name (ForkOp operand result)) →
  pushes (steady s s') (extractForkOp f ica name operand result).
Proof.
  unfold opStep. simpl. intros H. apply pushes_bind. intros in_ Hin.
  assert (Forall (λ '(c, n), sentAt s s' n (chan ev operand) (chan ev c))
            (zip result (ForkOp_sentNamers f name result))) as Hz.
  { apply Forall_elem. intros [c n] [k Hk]%list_elem_of_lookup. apply lookup_zip_Some in Hk as [? ?]. eauto. }
  clear H. induction Hz as [|[c n] outs Hn _ IH]; simpl; [apply pushes_nothing|].
  apply pushes_andThen; [|done]. apply pushes_bind. intros out Hout. unfold withTracker; simpl.
  eapply extractEagerSentEquation_steady; [by apply counts_channel..|exact Hn|].
  intros ->. split; [|auto using covers_untracked]. by apply channelVariable_ok in Hout as (_ & ? & _).
Qed.

(** The inputs a selecting channel selects. *)
Lemma selects_sum (cs : list Value) (m : nat) sel :
  (∀ k c, cs !! k = Some c → fires (chan ev c) = bool_decide (sel = Some (m + k)%nat)) →
  foldr (λ c z, Z.b2z (fires (chan ev c)) + z) 0 cs
  = match sel with Some v => if decide (m ≤ v < m + length cs)%nat then 1 else 0 | None => 0 end.
Proof.
  revert m. induction cs as [|c cs IH]; intros m H; simpl.
  - destruct sel; [|done]. by rewrite decide_False by lia.
  - rewrite (H 0%nat c) by done. rewrite (IH (S m)).
    + destruct sel as [v|]; [|by rewrite bool_decide_false].
      destruct (decide (v = m + 0)%nat) as [->|Hne].
      * rewrite bool_decide_true by done. rewrite decide_False, decide_True by lia. done.
      * rewrite bool_decide_false by congruence. simpl.
        repeat case_decide; lia.
    + intros k c' Hk. rewrite (H (S k) c') by done. by rewrite Nat.add_succ_r.
Qed.

Lemma selects_total sel cs : selects ev sel cs →
  foldr (λ c z, Z.b2z (fires (chan ev c)) + z) 0 cs = Z.b2z (fires sel).
Proof.
  intros [Hlt Hf]. rewrite (selects_sum cs 0 sel) by done. destruct sel as [v|]; [|done].
  rewrite decide_True; [done|]. specialize (Hlt v eq_refl). lia.
Qed.

(** The tokens of one value on a selecting channel. *)
Lemma cnt_selected sel cs k c t : selects ev sel cs → cs !! k = Some c → (k < trackerSize)%nat → tracks t k = true →
  cnt (Some (only t k)) sel = Z.b2z (fires (chan ev c)).
Proof.
  intros [_ Hf] Hk Hlt Ht. rewrite (Hf k c Hk), only_tracked by done. destruct sel as [v|].
  - rewrite cnt_some, counted_one by done. f_equal. destruct (Nat.eqb_spec v k) as [->|Hne].
    + by rewrite bool_decide_true.
    + rewrite bool_decide_false; [done|congruence].
  - by rewrite bool_decide_false.
Qed.

Lemma delta_selected sel cs k c v v' t : selects ev sel cs → cs !! k = Some c → counts v sel →
  indexTokenTracker v = Some t → (k < trackerSize)%nat → tracks t k = true → setTrackedTokens v k = Ok v' →
  delta v' = Z.b2z (fires (chan ev c)).
Proof.
  intros Hs Hk Hv Ht Hlt Htr (t' & E & ->)%setTrackedTokens_ok. rewrite Hv. assert (t' = t) as -> by congruence.
  by eapply cnt_selected.
Qed.

Lemma imap_pair_lookup {A} (l : list A) k x : (k, x) ∈ imap pair l → l !! k = Some x.
Proof. intros [j Hj]%list_elem_of_lookup. rewrite list_lookup_imap in Hj. apply fmap_Some in Hj as (y & ? & [= -> ->]). done. Qed.

Lemma extractMuxOp_steady i name selectOperand dataOperands result :
  opStep f ev s s' i (mkOperation name (MuxOp selectOperand dataOperands result)) →
  pushes (steady s s') (extractMuxOp ica selectOperand dataOperands result).
Proof.
  unfold opStep. cbn [theOp opName]. intros [Hf Hs]. apply pushes_bind. intros out Hout.
  apply pushes_bind. intros sel Hsel. destruct (channelVariable_ok _ _ Hsel) as (_ & _ & Ds).
  destruct (channelVariable_ok _ _ Hout) as (_ & _ & Do).
  if_case.
  - apply pushes_bind. intros e He. apply pushes_push.
    assert (∀ acc, foldM (λ eq c, let* chVar := channelVariable ica c in Ok (flowAdd eq (ofVariable chVar)))
      acc dataOperands = Ok e → wfExpr acc →
      wfExpr e ∧ eval (flow s') e - eval (flow s) e
        = eval (flow s') acc - eval (flow s) acc + foldr (λ c z, Z.b2z (fires (chan ev c)) + z) 0 dataOperands) as Hacc.
    { clear -Hchan Hrange. induction dataOperands as [|c cs IH]; intros acc H Hw; simpl in H; res_inv.
      - split; [done|]. simpl. lia.
      - apply IH in Hk; [|auto with dyn]. destruct Hk as [? E]. split; [done|]. autorewrite with dyn_rw in E. simpl.
        apply channelVariable_ok in Ha0 as (_ & _ & Ha0). unfold delta in Ha0. lia. }
    destruct (Hacc _ He) as [Hw E]; [apply wf_map; auto with dyn|]. split; [done|].
    autorewrite with dyn_rw in E. rewrite (selects_total (chan ev selectOperand)) in E by done. unfold delta in Ds. lia.
  - apply pushes_bind. intros t Ht. if_case; [apply pushes_nothing|].
    apply bool_decide_eq_false, dec_stable in Heqb0.
    apply pushes_andThen; [apply steady_together; congruence|].
    apply pushes_mapM; [apply pushes_pushAll|]. intros [k c] e Hk%imap_pair_lookup He. res_inv.
    apply steady_minus. destruct (tracker_tracks _ _ k Ht) as [Htr Hn].
    pose proof (lookup_lt_Some _ _ _ Hk) as Hlt.
    rewrite (delta_selected _ _ _ _ _ _ _ Hs Hk (counts_channel _ _ Hsel) Heqb0 ltac:(lia)
      ltac:(rewrite Htr; by apply Nat.ltb_lt) Ha0).
    by apply channelVariable_ok in Ha as (_ & _ & ->).
Qed.

Lemma extractBranchOp_steady i name c d t e :
  opStep f ev s s' i (mkOperation name (ConditionalBranchOp c d t e)) →
  pushes (steady s s') (extractBranchOp ica c d t e).
Proof.
  unfold opStep. cbn [theOp opName]. intros [Hf Hs].
  apply pushes_bind. intros dv Hd. apply pushes_bind. intros tv Ht. apply pushes_bind. intros fv He.
  apply pushes_bind. intros cv Hc. destruct (indexTokenTracker cv) as [tr|] eqn:Etr; [|apply pushes_nothing].
  destruct (Z.eqb_spec tr 3) as [->|]; [|apply pushes_nothing]. simpl.
  apply pushes_bind. intros c0 H0. apply pushes_bind. intros c1 H1.
  pose proof (counts_channel _ _ Hc) as Cc.
  apply channelVariable_ok in Hd as (_ & _ & Hd), Ht as (_ & _ & Ht), He as (_ & _ & He), Hc as (_ & _ & Hc).
  apply pushes_pushAll. repeat apply Forall_cons_2; [..|apply Forall_nil_2]; apply steady_minus.
  - rewrite (delta_selected _ [e; t] 0 e _ _ _ Hs eq_refl Cc Etr ltac:(unfold trackerSize; lia) eq_refl H0). done.
  - rewrite (delta_selected _ [e; t] 1 t _ _ _ Hs eq_refl Cc Etr ltac:(unfold trackerSize; lia) eq_refl H1). done.
  - congruence.
Qed.

Lemma extractStoreOp_steady i name a d ar dr :
  opStep f ev s s' i (mkOperation name (StoreOp a d ar dr)) → pushes (steady s s') (extractStoreOp ica a d ar dr).
Proof.
  unfold opStep. cbn [theOp opName]. intros [Ha Hd].
  apply pushes_bind. intros v1 (_ & _ & H1)%channelVariable_ok. apply pushes_bind. intros v2 (_ & _ & H2)%channelVariable_ok.
  apply pushes_bind. intros v3 (_ & _ & H3)%channelVariable_ok. apply pushes_bind. intros v4 (_ & _ & H4)%channelVariable_ok.
  apply pushes_pushAll. repeat apply Forall_cons_2; [..|apply Forall_nil_2]; apply steady_minus; congruence.
Qed.

Lemma extractLoadOp_steady i name a d ar dr :
  opStep f ev s s' i (mkOperation name (LoadOp a d ar dr)) → pushes (steady s s') (extractLoadOp f ica name a d ar dr).
Proof.
  unfold opStep. cbn [theOp opName]. unfold extractLoadOp. destruct (LoadOp_slotNamers f name a d) as [na nd].
  intros [Ha Hd]. apply pushes_bind. intros v1 H1. apply pushes_bind. intros v2 H2.
  apply pushes_bind. intros v3 H3. apply pushes_bind. intros v4 H4.
  apply pushes_pushAll. repeat apply Forall_cons_2; [..|apply Forall_nil_2]; by eapply steady_anySlot.
Qed.

Lemma extractMemoryControllerOp_steady i name loadPorts operands results :
  opStep f ev s s' i (mkOperation name (MemoryControllerOp loadPorts operands results)) →
  pushes (steady s s') (extractMemoryControllerOp ica name loadPorts operands results).
Proof.
  unfold opStep. cbn [theOp opName]. intros H. unfold extractMemoryControllerOp.
  assert (∀ ports m, (∀ k p, ports !! k = Some p → loadPorts !! (m + k)%nat = Some p) →
    pushes (steady s s') (loadPortEquations ica name loadPorts operands results m ports)) as Hp; [|by apply Hp].
  induction ports as [|p ports IH]; intros m Hm; simpl; [apply pushes_nothing|].
  apply pushes_andThen.
  - apply pushes_bind. intros a Ha%at_ok. apply pushes_bind. intros d Hd%at_ok. apply pushes_bind. intros x Hx.
    apply pushes_bind. intros y Hy. apply pushes_bind. intros n Hn.
    eapply extractSlotEquation_any; [done..|]. eapply H; [|done..].
    specialize (Hm 0%nat p eq_refl). by rewrite Nat.add_0_r in Hm.
  - apply IH. intros k q Hq. rewrite Nat.add_succ_l, <-Nat.add_succ_r. by apply Hm.
Qed.

Context (Hslots : slotsInRange f ica s) (Hmat : materialized f).

Lemma extractBufferOp_steady i name t n operand result :
  ops f !! i = Some (mkOperation name (BufferOp t n operand result)) →
  opStep f ev s s' i (mkOperation name (BufferOp t n operand result)) →
  pushes (steady s s') (extractBufferOp f ica name t n operand result).
Proof.
  intros Hi. specialize (Hslots i _ Hi). revert Hslots. unfold opStep. cbn [theOp opName]. intros Hin Hch.
  apply pushes_bind. intros v Hv. apply pushes_bind. intros out (_ & _ & Ho)%channelVariable_ok.
  apply pushes_bind. intros slots Hs. specialize (Hch slots Hs).
  destruct (channelVariable_ok _ _ Hv) as (Ev & _ & _).
  assert (nextAt v i 0) as Hn.
  { destruct v as [x tr]. simpl in Ev. subst x. apply nextAt_channel. eapply Hmat; [exact Hi|]. by left. }
  eapply pushes_chain; [by right|by apply counts_channel|done|done|].
  intros last Hl Htl. apply steady_together. rewrite Ho, (counts_delta _ _ Hl), Htl. apply cnt_covers.
  unfold channelVariable, getIndexChannelValues in Hv. destruct (ica !! operand) as [m|] eqn:Hm; res_inv;
    simpl; [|apply covers_untracked].
  eapply tracker_covers; [done|].
  eapply (chainStep_passes (λ v, (v < m)%nat)); [exact Hch|intros x Hx; by eapply Hrange|].
  apply Forall_map. by apply Hin.
Qed.

Lemma pushes_next i k t h : pushes (steady s s') (h (mkFlowVariable (InternalLambda i (wrapU 32 (k + 1))) t)) →
  pushes (steady s s') (bind (nextInternal f (mkFlowVariable (InternalLambda i k) t)) h).
Proof. done. Qed.

Lemma extractControlMergeOp_steady i name dataOperands result index :
  ops f !! i = Some (mkOperation name (ControlMergeOp dataOperands result index)) →
  opStep f ev s s' i (mkOperation name (ControlMergeOp dataOperands result index)) →
  pushes (steady s s') (extractControlMergeOp f ica i name dataOperands result index).
Proof.
  intros Hi. specialize (Hslots i _ Hi). revert Hslots. unfold opStep. cbn [theOp opName].
  intros Hin (Hsel & Hslot & H2 & H3 & Hsent). destruct (Hsent _ _ eq_refl) as [Hd Hx]. clear Hsent.
  apply pushes_bind. intros t Ht.
  assert (passes (λ v, (v < length dataOperands)%nat) (inner ev i 0)) as P0 by (intros v Hv; by apply (proj1 Hsel)).
  destruct (slotStep_passes _ _ _ _ _ Hslot P0 Hin) as [P1 _].
  pose proof (tracker_covers _ _ _ Ht P0) as C0. pose proof (tracker_covers _ _ _ Ht P1) as C1.
  apply pushes_mapM.
  { intros es Hes. unfold withTracker, internalState, internalLambda. cbn [variable].
    apply pushes_next. change (wrapU 32 (0 + 1)) with 1.
    apply pushes_andThen; [by apply pushes_pushAll|]. apply pushes_andThen.
    { eapply extractSlotEquation_steady; [apply counts_inner..|exact Hslot|done]. }
    apply pushes_next. change (wrapU 32 (1 + 1)) with 2. cbn [variable]. apply pushes_andThen.
    { apply steady_together. rewrite !delta_inner, cnt_untracked, (cnt_covers (Some t)) by done. congruence. }
    apply pushes_next. change (wrapU 32 (2 + 1)) with 3.
    apply pushes_andThen.
    { apply pushes_push, steady_slot. rewrite !delta_inner, (delta_slot _ _ _ _ Hslot), !cnt_untracked.
      rewrite !(cnt_covers (Some t)) by done. rewrite H2, H3. lia. }
    apply pushes_bind. intros ds [= <-]. apply pushes_bind. intros xs [= <-].
    apply pushes_bind. intros dout Hdo. apply pushes_bind. intros iout Hio. unfold internalState. cbn [variable].
    apply pushes_andThen; (eapply extractEagerSentEquation_steady; [apply counts_inner|by apply counts_channel|eassumption|]);
      [done|intros _]. split; [|auto using covers_untracked]. by apply channelVariable_ok in Hdo as (_ & ? & _). }
  intros [k c] e Hk%imap_pair_lookup He. res_inv. apply steady_minus.
  destruct (tracker_tracks _ _ k Ht) as [Htr Hn]. pose proof (lookup_lt_Some _ _ _ Hk) as Hlt.
  rewrite (delta_selected _ _ _ _ _ _ _ Hsel Hk (counts_inner i 0 (Some t)) eq_refl ltac:(lia)
    ltac:(rewrite Htr; by apply Nat.ltb_lt) Ha0).
  by apply channelVariable_ok in Ha as (_ & _ & ->).
Qed.

(** Selects that pass all their operands together, as joins do. *)
Context (Hselects : ∀ i name latency operands results,
  ops f !! i = Some (mkOperation name (ArithOp Selecting latency operands results)) →
  joinStep ev s s' i name latency operands results).

Lemma extractOp_steady i o : ops f !! i = Some o → opStep f ev s s' i o → pushes (steady s s') (extractOp f ica i o).
Proof.
  destruct o as [name o]. intros Hi Ho.
  destruct o as [[]| | | | | | | | | | | | | |]; unfold extractOp; cbn [theOp opName]; try apply pushes_nothing;
    eauto using extractArithmeticJoinOp_steady, extractEndOp_steady, extractDeadBufferOp_steady,
      extractForkOp_steady, extractMuxOp_steady, extractBufferOp_steady, extractBranchOp_steady,
      extractLoadOp_steady, extractStoreOp_steady, extractControlMergeOp_steady, extractMemoryControllerOp_steady.
Qed.

Lemma extractFrom_steady os i : (∀ k o, os !! k = Some o → ops f !! (i + k)%nat = Some o ∧ opStep f ev s s' (i + k) o) →
  pushes (steady s s') (extractFrom f ica i os).
Proof.
  revert i. induction os as [|o os IH]; intros i H; simpl; [apply pushes_nothing|].
  destruct (H 0%nat o eq_refl) as [Ho Hs]. rewrite Nat.add_0_r in Ho, Hs.
  pose proof (extractOp_steady _ _ Ho Hs) as Hop.
  apply pushes_bind. intros [e1 ok1] H1. apply pushes_bind. intros [e2 ok2] H2 es ok [= <- <-].
  apply Forall_app. split; [by eapply Hop|]. eapply IH; [|exact H2].
  intros k o' Hk. rewrite Nat.add_succ_l, <-Nat.add_succ_r. by apply H.
Qed.

End OneStep.

Lemma extractAll_step f ica s s' : noSelect f → materialized f → slotsInRange f ica s → step f ica s s' →
  pushes (steady s s') (extractAll f ica).
Proof.
  intros Hsel Hm Hs (ev & Hr & Hc & Hi & _ & Hops). eapply extractFrom_steady; try done.
  - intros i name l ins outs Ho. pose proof (proj1 (Forall_lookup _ _) Hsel i _ Ho) as H. done.
  - intros k o Hk. split; [done|]. by apply Hops.
Qed.

(** An equation with value 0 throughout. *)
Lemma eval_initial e : eval (flow initial) e = 0.
Proof. induction e as [|[v c] e IH]; simpl; [done|]. rewrite IH. unfold flow, count; simpl. lia. Qed.

Lemma extractAll_steady f ica s es ok : noSelect f → materialized f → extractAll f ica = Ok (es, ok) → reachable f ica s →
  Forall (λ e, eval (flow s) e = 0) es.
Proof.
  intros Hsel Hm He. induction 1 as [|s s' Hr IH Hs].
  - apply Forall_elem. intros e _. apply eval_initial.
  - pose proof (extractAll_step f ica s s' Hsel Hm (reachable_slotsInRange _ _ _ Hr) Hs _ _ He) as Hst.
    rewrite Forall_elem in *. intros e Hin. destruct (Hst e Hin) as [_ ->]. by apply IH.
Qed.
