(* ===== verification/FlowAnnotate.v ===== *)
(** The annotated equations: they hold in every state a circuit can reach, speak
    only of states that have a name, and nothing is lost by the elimination
    (annotateReconvergentPathFlow). *)

From stdpp Require Import strings gmap.
From S2P Require Import Gaussian FlowNamers HandshakeIR FlowExpr FlowExtract FlowSystem TokenFlow FlowSound Prelude.

(** * Extracted equations are well-formed *)

(** Nothing happens in a cycle. *)
Definition quiet : Events := λ _, None.

Lemma chainStep_quiet s i k slots : chainStep quiet s s i None k slots None.
Proof. revert k. induction slots as [|n slots IH]; intros k; simpl; [done|]. split; [constructor|apply IH]. Qed.

Lemma together_quiet cs e : fires e = false → together quiet e cs.
Proof. intros H. apply Forall_elem. intros c _. by rewrite H. Qed.

Lemma selects_quiet cs : selects quiet None cs.
Proof. split; [done|]. intros k c _. by rewrite bool_decide_false. Qed.

Lemma slotAny_quiet s n : slotAtAny s s n None None.
Proof. exists None, None. split; [done|]. split; [done|]. constructor. Qed.

Lemma joinStep_quiet s i name latency operands results : joinStep quiet s s i name latency operands results.
Proof.
  unfold joinStep. destruct latency; intros.
  - split; [by apply together_quiet|]. exists None. split; [done|]. apply chainStep_quiet.
  - by apply together_quiet.
Qed.

Lemma opStep_quiet f s i o : opStep f quiet s s i o.
Proof.
  unfold opStep. change (chan quiet) with (λ _ : Value, @None Token).
  change (inner quiet) with (λ (_ : OpId) (_ : Z), @None Token).
  destruct (theOp o) as [[]| | | | | | | | | | | | | |]; simpl; try done;
    auto using joinStep_quiet, chainStep_quiet, together_quiet, selects_quiet, slotAny_quiet.
  - split; [by apply together_quiet|constructor].
  - constructor.
  - intros. constructor.
  - split; [apply selects_quiet|]. split; [constructor|]. do 2 (split; [done|]).
    intros. split; constructor.
Qed.

Lemma step_quiet f ica s : step f ica s s.
Proof.
  exists quiet. split; [done|]. unfold records; simpl. split; [intros; by rewrite app_nil_r|].
  split; [intros; by rewrite app_nil_r|]. split; [intros c a _; exists None; constructor|]. intros. apply opStep_quiet.
Qed.

Lemma extractAll_wf f ica es ok : materialized f → extractAll f ica = Ok (es, ok) → Forall wfExpr es.
Proof.
  intros Hm He. pose proof (reachable_slotsInRange f ica _ (reach_initial f ica)) as Hs.
  eapply Forall_impl; [|eapply (extractFrom_steady f ica quiet initial initial); [..|exact He]]; try done.
  - by intros e [].
  - intros. apply joinStep_quiet.
  - intros k o Hk. split; [done|apply opStep_quiet].
Qed.

(** * Rows and expressions *)

(** The values of the variables of a registry. *)
Definition valueAt (σ : valuation) (reg : VariableRegistry) (j : nat) : Z :=
  match reg !! j with Some v => σ v | None => 0 end.

Lemma getIndex_ok reg v i : getIndex reg v = Ok i → reg !! i = Some v.
Proof.
  unfold getIndex. intros H%of_option_ok. apply fmap_Some in H as ([j w] & H%list_find_Some & ->).
  by destruct H as (? & -> & _).
Qed.

Lemma coeff_replicate n j : coeff (replicate n 0) j = 0.
Proof. unfold coeff. destruct (replicate n 0 !! j) eqn:E; simpl; [|done]. by apply lookup_replicate in E as [-> _]. Qed.

Lemma dot_insert r x i c n : (i < n)%nat → length r = n →
  dot (coeff (<[i := c]> r)) x (seq 0 n) = dot (coeff r) x (seq 0 n) + (c - coeff r i) * x i.
Proof.
  intros Hi Hl. assert (∀ js, NoDup js → dot (coeff (<[i := c]> r)) x js
    = dot (coeff r) x js + (if decide (i ∈ js) then (c - coeff r i) * x i else 0)) as H.
  { induction js as [|j js IH]; intros Hn; simpl; [done|]. apply list.NoDup_cons in Hn as [Hj Hn].
    rewrite IH by done. unfold coeff at 1. destruct (decide (i = j)) as [->|Hne].
    - rewrite list_lookup_insert_eq by lia. simpl. rewrite decide_False, decide_True by (done || left). lia.
    - rewrite list_lookup_insert_ne by done. fold (coeff r j). destruct (decide (i ∈ js)).
      + rewrite decide_True by (by right). lia.
      + rewrite decide_False; [lia|]. intros [|]%elem_of_cons; done. }
  rewrite H by apply NoDup_seq. rewrite decide_True; [done|]. apply elem_of_seq. lia.
Qed.

Section Rows.
Context (order : FlowExpression → FlowExpression) (Horder : ∀ e, order e ≡ₚ e).

(** A row is its equation. *)
Lemma rowOf_eval σ reg e r : NoDup (fst <$> e) → rowOf order reg e = Ok r →
  length r = length reg ∧ dot (coeff r) (valueAt σ reg) (seq 0 (length reg)) = eval σ e.
Proof.
  intros Hn H. unfold rowOf in H. rewrite <-(eval_perm σ _ _ (Horder e)).
  rewrite <-(Horder e) in Hn. revert H Hn. generalize (order e) as ts. intros ts.
  assert (∀ r0 r, foldM (λ r term, let* index := getIndex reg (fst term) in Ok (<[index := snd term]> r)) r0 ts = Ok r →
    NoDup (fst <$> ts) → length r0 = length reg →
    (∀ j v, reg !! j = Some v → v ∈ (fst <$> ts) → coeff r0 j = 0) →
    length r = length reg ∧ dot (coeff r) (valueAt σ reg) (seq 0 (length reg))
      = dot (coeff r0) (valueAt σ reg) (seq 0 (length reg)) + eval σ ts) as Hf.
  { clear r. induction ts as [|[v c] ts IH]; intros r0 r H Hn Hl Hz; simpl in H; res_inv.
    - split; [done|]. simpl. lia.
    - csimpl in Hn. apply list.NoDup_cons in Hn as [Hv Hn]. apply getIndex_ok in Ha0.
      pose proof (lookup_lt_Some _ _ _ Ha0) as Hlt.
      apply IH in Hk as [Hlr E]; [|done|by rewrite length_insert|].
      + split; [done|]. rewrite E, dot_insert by done. rewrite (Hz _ _ Ha0) by (csimpl; left).
        unfold valueAt at 2. rewrite Ha0. simpl. lia.
      + intros j w Hj Hw. unfold coeff. rewrite list_lookup_insert_ne by (intros ->; congruence).
        apply (Hz j w); [done|]. csimpl. by right. }
  intros H Hn. destruct (Hf _ _ H Hn) as [Hl E]; [apply length_replicate|..].
  - intros. apply coeff_replicate.
  - split; [done|]. rewrite E. assert (∀ js, dot (coeff (replicate (length reg) 0)) (valueAt σ reg) js = 0) as ->; [|lia].
    induction js as [|j js IHj]; simpl; [done|]. rewrite IHj, coeff_replicate. lia.
Qed.


(** * The registry *)

Lemma foldM_concat {A B} (h : B → A → res B) b ls :
  foldM (λ b l, foldM h b l) b ls = foldM h b (concat ls).
Proof.
  revert b. induction ls as [|l ls IH]; intros b; simpl; [done|]. rewrite foldM_app.
  destruct (foldM h b l); simpl; [apply IH|done].
Qed.

Lemma foldl_concat {A B} (h : B → A → B) b ls : foldl (λ b l, foldl h b l) b ls = foldl h b (concat ls).
Proof. revert b. induction ls as [|l ls IH]; intros b; simpl; [done|]. by rewrite foldl_app, IH. Qed.

Lemma foldM_map {A B C} (h : B → C → res B) (g : A → C) b l : foldM (λ b a, h b (g a)) b l = foldM h b (map g l).
Proof. revert b. induction l as [|a l IH]; intros b; simpl; [done|]. destruct (h b (g a)); simpl; [apply IH|done]. Qed.

Lemma foldl_map {A B C} (h : B → C → B) (g : A → C) b l : foldl (λ b a, h b (g a)) b l = foldl h b (map g l).
Proof. revert b. induction l as [|a l IH]; intros b; simpl; auto. Qed.

(** A variable that can be named in the SMV model. *)
Definition annotatable (v : FlowVariable) : Prop := ∃ n, getAnnotater v = Ok (Some n).

Lemma addVariable_in reg v w : w ∈ addVariable reg v ↔ w ∈ reg ∨ w = v.
Proof.
  unfold addVariable. case_decide; [naive_solver|]. by rewrite elem_of_app, list_elem_of_singleton.
Qed.

Lemma registerLambda_spec ts : ∀ reg reg', foldM registerLambda reg ts = Ok reg' →
  (∀ v, v ∈ reg → v ∈ reg') ∧ (∀ v, v ∈ reg' → v ∈ reg ∨ v ∈ (fst <$> ts))
  ∧ ∀ v, v ∈ (fst <$> ts) → annotatable v ∨ v ∈ reg'.
Proof.
  induction ts as [|t ts IH]; intros reg reg' H; csimpl.
  - injection H as <-. split; [done|]. split; [auto|]. by intros ? ?%elem_of_nil.
  - apply bind_ok in H as (reg1 & H1 & H). apply IH in H as (Hsub & Hfrom & Hin).
    apply bind_ok in H1 as (a & Ha & H1). destruct a as [n|].
    + injection H1 as <-. split; [done|]. split; [intros v [|]%Hfrom; [by left|by right; right]|].
      intros v [->|]%elem_of_cons; [left; by exists n|auto].
    + apply bind_ok in H1 as (_ & _ & [= <-]). setoid_rewrite addVariable_in in Hsub.
      setoid_rewrite addVariable_in in Hfrom. split; [auto|]. split.
      * intros v [[| ->]|]%Hfrom; [by left|right; left|by right; right].
      * intros v [->|]%elem_of_cons; auto.
Qed.

Lemma addVariable_nodup reg v : NoDup reg → NoDup (addVariable reg v).
Proof.
  intros Hn. unfold addVariable. case_decide; [done|]. apply list.NoDup_app. split; [done|].
  split; [|apply NoDup_singleton]. by intros w Hw ->%list_elem_of_singleton.
Qed.

Lemma registerLambda_unnamed ts : ∀ reg reg', foldM registerLambda reg ts = Ok reg' →
  NoDup reg → Forall (λ v, getAnnotater v = Ok None) reg →
  NoDup reg' ∧ Forall (λ v, getAnnotater v = Ok None) reg'.
Proof.
  induction ts as [|t ts IH]; intros reg reg' H Hn Hu; csimpl in *; [by injection H as <-|].
  apply bind_ok in H as (reg1 & H1 & H). apply (IH _ _ H); apply bind_ok in H1 as (a & Ha & H1);
    (destruct a as [n|]; [by injection H1 as <-|]); apply bind_ok in H1 as (_ & _ & [= <-]).
  - by apply addVariable_nodup.
  - apply Forall_elem. intros v [Hv| ->]%addVariable_in; [|done]. by eapply Forall_elem in Hu.
Qed.

Lemma registerAll_nodup ts reg : NoDup reg → NoDup (foldl registerAll reg ts).
Proof. revert reg. induction ts as [|t ts IH]; intros reg Hn; simpl; [done|]. by apply IH, addVariable_nodup. Qed.

Lemma registerAll_spec ts : ∀ reg, ∃ extra, foldl registerAll reg ts = reg ++ extra ∧
  Forall (λ v, v ∉ reg ∧ v ∈ (fst <$> ts)) extra.
Proof.
  induction ts as [|t ts IH]; intros reg; simpl; [exists []; by rewrite app_nil_r|].
  destruct (IH (registerAll reg t)) as (extra & E & Hx). rewrite E. unfold registerAll, addVariable in *.
  case_decide as Hin.
  - exists extra. split; [done|]. eapply Forall_impl; [|exact Hx]. intros v [? ?]. split; [done|]. csimpl. by right.
  - exists (fst t :: extra). rewrite <-app_assoc. split; [done|]. constructor; [split; [done|csimpl; left]|].
    eapply Forall_impl; [|exact Hx]. intros v [Hv ?]. rewrite not_elem_of_app in Hv. split; [apply Hv|]. csimpl. by right.
Qed.

(** What the constructor of the system gives. *)
Record systemOk (exprs : list FlowExpression) (sys : FlowSystem) : Prop := {
  sys_rows : Forall2 (λ e r, rowOf order (registry sys) e = Ok r) exprs (rows (matrix sys));
  sys_size : size2 (matrix sys) = length (registry sys);
  sys_lambdas : (nLambdas sys ≤ length (registry sys))%nat;
  sys_known : ∀ j v, registry sys !! j = Some v → (nLambdas sys ≤ j)%nat → annotatable v;
  sys_unnamed : ∀ j v, registry sys !! j = Some v → (j < nLambdas sys)%nat → getAnnotater v = Ok None;
  sys_nodup : NoDup (registry sys);
  sys_atomic : Forall atomic (registry sys) }.

Lemma FlowSystem_new_ok exprs sys : Forall wfExpr exprs → FlowSystem_new order exprs = Ok sys → systemOk exprs sys.
Proof.
  intros Hw H. unfold FlowSystem_new in H. apply bind_ok in H as (lambdas & Hl & H).
  apply bind_ok in H as (rs & Hrs & [= <-]). rewrite foldM_map, foldM_concat in Hl.
  set (reg := foldl _ _ _) in Hrs |- *. assert (reg = foldl registerAll lambdas (concat (map order exprs))) as Ereg
    by (unfold reg; by rewrite foldl_map, foldl_concat).
  destruct (registerLambda_unnamed _ _ _ Hl (NoDup_nil_2) (Forall_nil_2 _)) as [Hnd Hu].
  apply registerLambda_spec in Hl as (_ & Hfrom & Hl).
  destruct (registerAll_spec (concat (map order exprs)) lambdas) as (extra & E & Hx). rewrite E in Ereg.
  assert (∀ v, v ∈ (fst <$> concat (map order exprs)) → atomic v) as Hat.
  { intros v Hv. apply list_elem_of_fmap in Hv as (t & -> & Ht).
    apply list_elem_of_In, in_concat in Ht as (l & Hl'%list_elem_of_In & Ht%list_elem_of_In). apply list_elem_of_fmap in Hl' as (e & -> & He).
    rewrite (Horder e) in Ht. eapply (Forall_elem wfExpr) in He as [_ Ha]; [|done].
    eapply Forall_elem in Ha; [done|]. apply list_elem_of_fmap. eauto. }
  constructor; simpl.
  - by apply mapM_ok.
  - done.
  - rewrite Ereg, length_app. lia.
  - intros j v Hj Hlt. rewrite Ereg, lookup_app_r in Hj by done. apply list_elem_of_lookup_2 in Hj.
    eapply Forall_elem in Hx as [Hn Hk]; [|exact Hj]. destruct (Hl v Hk); done.
  - intros j v Hj Hlt. rewrite Ereg, lookup_app_l in Hj by done. by eapply Forall_lookup_1 in Hu.
  - rewrite Ereg, <-E. by apply registerAll_nodup.
  - rewrite Ereg. apply Forall_app. split; apply Forall_elem; intros v Hv; apply Hat.
    + destruct (Hfrom v Hv) as [?%elem_of_nil|]; done.
    + eapply Forall_elem in Hx as [_ Hk]; done.
Qed.

(** * Expressions of rows *)

Lemma ofVariable_atomic v : atomic v → ofVariable v = [(v, 1)].
Proof.
  intros Ha. rewrite ofVariable_keys. unfold atomic, trackedValues in *. destruct v as [x [t|]]; [|done]. simpl in *.
  destruct Ha as (i & Hi & ->). unfold trackerSize in *.
  do 8 (destruct i as [|i]; [reflexivity|]). lia.
Qed.

Lemma flowAdd_keys a b v : v ∈ (fst <$> flowAdd a b) → v ∈ (fst <$> a) ∨ v ∈ (fst <$> b).
Proof.
  unfold flowAdd. revert a. induction b as [|[w c] b IH]; intros a; csimpl; [auto|].
  intros [Hv|Hv]%IH; [|right; by right].
  destruct (updateTerm_keys w (λ x, x + c) a) as [[_ E]|[_ E]]; rewrite E in Hv; [by left|].
  apply elem_of_app in Hv as [| ->%list_elem_of_singleton]; [by left|right; left].
Qed.

(** The expression of a row has its value, and only variables of its non-zero
    entries. *)
Lemma getRowAsExpression_ok reg r : Forall atomic reg → length r = length reg →
  ∃ e, getRowAsExpression reg r = Ok e
  ∧ (∀ σ, eval σ e = dot (coeff r) (valueAt σ reg) (seq 0 (length reg)))
  ∧ ∀ v, v ∈ (fst <$> e) → ∃ j, reg !! j = Some v ∧ coeff r j ≠ 0.
Proof.
  intros Ha Hl. unfold getRowAsExpression.
  assert (∀ js e0, Forall (λ j, (j < length reg)%nat) js → ∃ e,
    foldM (λ ret col, let* coef := at_ r col in
      if coef =? 0 then Ok ret
      else let* v := getVar reg col in Ok (flowAdd ret (flowScale coef (ofVariable v)))) e0 js = Ok e
    ∧ (∀ σ, eval σ e = eval σ e0 + dot (coeff r) (valueAt σ reg) js)
    ∧ ∀ v, v ∈ (fst <$> e) → v ∈ (fst <$> e0) ∨ ∃ j, reg !! j = Some v ∧ coeff r j ≠ 0) as Hf.
  { induction js as [|j js IH]; intros e0 Hjs; simpl.
    - exists e0. split; [done|]. split; [intros; lia|auto].
    - apply Forall_cons_1 in Hjs as [Hj Hjs].
      destruct (lookup_lt_is_Some_2 reg j Hj) as [v Hv]. destruct (lookup_lt_is_Some_2 r j) as [c Hc]; [lia|].
      unfold at_ at 1. rewrite Hc. simpl. pose proof (coeff_at _ _ _ Hc) as Ec.
      destruct (Z.eqb_spec c 0) as [->|Hne].
      + destruct (IH e0 Hjs) as (e & He & Hev & Hk). exists e. split; [done|]. split; [|done].
        intros σ. rewrite Hev, Ec. lia.
      + unfold getVar, at_. rewrite Hv. simpl. rewrite ofVariable_atomic by (by eapply Forall_lookup_1 in Ha).
        destruct (IH (flowAdd e0 (flowScale c [(v, 1)])) Hjs) as (e & He & Hev & Hk).
        exists e. split; [exact He|]. split.
        * intros σ. rewrite Hev, Ec. autorewrite with dyn_rw. unfold valueAt at 2. rewrite Hv. simpl. lia.
        * intros w [[Hw|Hw]%flowAdd_keys|Hw]%Hk; [by left| |by right].
          right. csimpl in Hw. apply list_elem_of_singleton in Hw as ->. exists j. rewrite Ec. done. }
  destruct (Hf (seq 0 (length reg)) []) as (e & He & Hev & Hk).
  - apply Forall_elem. intros j Hj%elem_of_seq. lia.
  - exists e. split; [exact He|]. split; [intros σ; by rewrite Hev|].
    intros v [?%elem_of_nil|]%Hk; done.
Qed.

(** * The annotation *)

(** The steps of the annotation, with values less than the greatest [int]. *)
Record annotates (f : FuncOp) (ica : IndexChannels) (equations : list FlowExpression)
    (system : FlowSystem) (m : MatIntType) : Prop := {
  an_extracted : extractAll f ica = Ok (equations, true);
  an_system : FlowSystem_new order equations = Ok system;
  an_small : Forall (Forall (λ x, small x = true)) (rows (matrix system));
  an_eliminated : elimination small (matrix system) = Ok m }.

Section Annotation.
Context {f : FuncOp} {ica : IndexChannels} {equations : list FlowExpression} {system : FlowSystem} {m : MatIntType}.
Context (Hmat : materialized f) (Han : annotates f ica equations system m).

Lemma equations_wf : Forall wfExpr equations.
Proof. eapply extractAll_wf; [done|]. apply Han. Qed.

Lemma system_ok : systemOk equations system.
Proof. apply FlowSystem_new_ok; [apply equations_wf|apply Han]. Qed.

Lemma system_rows e r : rowOf order (registry system) e = Ok r → e ∈ equations →
  length r = length (registry system)
  ∧ ∀ σ, dot (coeff r) (valueAt σ (registry system)) (seq 0 (length (registry system))) = eval σ e.
Proof.
  intros Hr He. pose proof equations_wf as Hw. eapply Forall_elem in Hw as [Hn _]; [|exact He].
  split; [|intros σ]; by eapply (rowOf_eval (λ _, 0)) || by eapply rowOf_eval.
Qed.

Lemma row_equation r : r ∈ rows (matrix system) → ∃ e, e ∈ equations ∧ rowOf order (registry system) e = Ok r.
Proof.
  intros [i Hi]%list_elem_of_lookup. destruct (Forall2_lookup_r _ _ _ _ _ (sys_rows _ _ system_ok) Hi) as (e & He & Hr).
  exists e. split; [by eapply list_elem_of_lookup_2|done].
Qed.

Lemma matrix_ok : matrixOk (size2 (matrix system)) (rows (matrix system)).
Proof.
  apply Forall_elem. intros r Hr. destruct (row_equation r Hr) as (e & He & Hre).
  rewrite (sys_size _ _ system_ok). by apply (system_rows e).
Qed.

Lemma eliminated_rows : gaussianElimination (matrix system) = Ok m
  ∧ matrixOk (length (registry system)) (rows m) ∧ echelon (length (registry system)) (rows m)
  ∧ equivalent (rows (matrix system)) (rows m).
Proof.
  destruct (elimination_small _ m matrix_ok (an_small _ _ _ _ _ Han) (an_eliminated _ _ _ _ _ Han))
    as (Hg & _ & Hok & He & Heq). by rewrite (sys_size _ _ system_ok) in *.
Qed.

(** The expressions of the rows that can be annotated. *)
Lemma annotation_result : ∃ exprs,
  annotateReconvergentPathFlow order f ica = Ok (Some (filter (λ e, e ≠ []) exprs))
  ∧ Forall2 (λ r e, getRowAsExpression (registry system) r = Ok e)
      (filter (λ r, canAnnotate (nLambdas system) r = true) (rows m)) exprs.
Proof.
  destruct eliminated_rows as (Hg & Hok & _).
  assert (∃ exprs, mapM (getRowAsExpression (registry system))
    (filter (λ r, canAnnotate (nLambdas system) r = true) (rows m)) = Ok exprs) as [exprs He].
  { apply mapM_total. intros r [_ Hr]%list_elem_of_filter. eapply Forall_elem in Hok; [|exact Hr].
    destruct (getRowAsExpression_ok _ _ (sys_atomic _ _ system_ok) Hok) as (e & He & _). eauto. }
  exists exprs. split; [|by apply mapM_ok]. unfold annotateReconvergentPathFlow.
  rewrite (an_extracted _ _ _ _ _ Han). simpl. rewrite (an_system _ _ _ _ _ Han). simpl.
  by rewrite Hg; simpl; rewrite He.
Qed.

(** A row of the result and its expression. *)
Lemma annotated_row exprs e :
  Forall2 (λ r e, getRowAsExpression (registry system) r = Ok e)
    (filter (λ r, canAnnotate (nLambdas system) r = true) (rows m)) exprs → e ∈ exprs →
  ∃ r, r ∈ rows m ∧ zeroBefore (nLambdas system) r
  ∧ (∀ σ, eval σ e = dot (coeff r) (valueAt σ (registry system)) (seq 0 (length (registry system))))
  ∧ ∀ v, v ∈ (fst <$> e) → ∃ j, registry system !! j = Some v ∧ coeff r j ≠ 0.
Proof.
  intros Hall [i Hi]%list_elem_of_lookup. destruct (Forall2_lookup_r _ _ _ _ _ Hall Hi) as (r & Hr & He).
  apply list_elem_of_lookup_2, list_elem_of_filter in Hr as [Hz%zeroBeforeb_spec Hr].
  destruct eliminated_rows as (_ & Hok & _). eapply Forall_elem in Hok; [|exact Hr].
  destruct (getRowAsExpression_ok _ _ (sys_atomic _ _ system_ok) Hok) as (e' & He' & Hev & Hk).
  rewrite He in He'. injection He' as <-. eauto.
Qed.

End Annotation.
End Rows.

(** * What the annotation promises *)

(** C2.  In a circuit without a select, where every channel has one user, every equation
    that is annotated holds in every state the circuit can reach, and all its variables are
    states that have a name.  The order in which the terms of an equation are visited does
    not matter.  With a select, which the extraction takes for a join of all its operands,
    an annotated equation can fail. *)
Theorem annotated_equations_hold order f ica equations system m :
  (∀ e, order e ≡ₚ e) → noSelect f → materialized f → annotates order f ica equations system m →
  ∃ es, annotateReconvergentPathFlow order f ica = Ok (Some es) ∧
  ∀ e, e ∈ es → (∀ v, v ∈ (fst <$> e) → annotatable v) ∧ ∀ s, reachable f ica s → eval (flow s) e = 0.
Proof.
  intros Ho Hsel Hm Ha. destruct (annotation_result order Ho Hm Ha) as (exprs & He & Hall).
  exists (filter (λ e, e ≠ []) exprs). split; [done|]. intros e [_ Hin]%list_elem_of_filter.
  destruct (annotated_row order Ho Hm Ha exprs e Hall Hin) as (r & Hr & Hz & Hev & Hk).
  pose proof (system_ok order Ho Hm Ha) as Hsys. split.
  - intros v (j & Hj & Hc)%Hk. apply (sys_known _ _ _ Hsys j); [done|].
    destruct (decide (j < nLambdas system)%nat) as [Hlt|]; [|lia]. by rewrite Hz in Hc.
  - intros s Hs. rewrite Hev. destruct (eliminated_rows order Ho Hm Ha) as (_ & _ & _ & Heq).
    apply (span_solves _ _ (rows (matrix system))); [|by apply Heq, span_row].
    intros r0 (e0 & He0 & Hr0)%(row_equation order Ho Hm Ha). unfold solves.
    rewrite (proj2 (system_rows order Ho Hm Ha e0 r0 Hr0 He0)).
    pose proof (extractAll_steady _ _ _ _ _ Hsel Hm (an_extracted _ _ _ _ _ _ Ha) Hs) as Hst.
    by eapply Forall_elem in Hst.
Qed.

(** A combination of equations. *)
Definition combination (cs : list Z) (es : list FlowExpression) (σ : valuation) : Z :=
  foldr (λ '(c, e) z, c * eval σ e + z) 0 (zip cs es).

(** The valuation that is 1 for one variable. *)
Definition indicator (v : FlowVariable) : valuation := λ w, if decide (w = v) then 1 else 0.

Lemma eval_indicator e v : v ∉ (fst <$> e) → eval (indicator v) e = 0.
Proof.
  induction e as [|[w c] e IH]; csimpl; [done|]. intros [Hne Hv]%not_elem_of_cons.
  rewrite IH by done. simpl. unfold indicator. rewrite decide_False by done. lia.
Qed.

Lemma dot_indicator u reg j v : NoDup reg → reg !! j = Some v →
  dot u (valueAt (indicator v) reg) (seq 0 (length reg)) = u j.
Proof.
  intros Hn Hj. assert (∀ js, NoDup js → Forall (λ i, (i < length reg)%nat) js →
    dot u (valueAt (indicator v) reg) js = if decide (j ∈ js) then u j else 0) as H.
  { induction js as [|i js IH]; intros Hnd Hlt; simpl; [done|].
    apply list.NoDup_cons in Hnd as [Hi Hnd]. apply Forall_cons_1 in Hlt as [Hil Hlt]. rewrite IH by done.
    destruct (lookup_lt_is_Some_2 reg i Hil) as [w Hw]. unfold valueAt, indicator. rewrite Hw.
    destruct (decide (w = v)) as [->|Hne].
    - assert (i = j) as -> by exact (NoDup_lookup reg i j v Hn Hw Hj). rewrite (decide_True (P := j ∈ j :: js)), decide_False by (done || left). lia.
    - assert (i ≠ j) as Hij by (intros ->; congruence). destruct (decide (j ∈ js)).
      + rewrite decide_True by (by right). lia.
      + rewrite decide_False; [lia|]. intros [|]%elem_of_cons; congruence. }
  rewrite H, decide_True; [done| |apply NoDup_seq|].
  - apply elem_of_seq. apply lookup_lt_Some in Hj. lia.
  - apply Forall_elem. intros i Hi%elem_of_seq. lia.
Qed.

Lemma dot_zero u x js : (∀ j, u j = 0) → dot u x js = 0.
Proof. intros Hu. induction js as [|j js IH]; simpl; [done|]. rewrite IH, Hu. lia. Qed.

Lemma dot_comb order reg es rs cs σ : (∀ e, order e ≡ₚ e) → Forall wfExpr es →
  Forall2 (λ e r, rowOf order reg e = Ok r) es rs →
  dot (comb cs rs) (valueAt σ reg) (seq 0 (length reg)) = combination cs es σ.
Proof.
  intros Ho Hw H. revert cs. induction H as [|e r es rs Hr _ IH]; intros cs.
  - rewrite dot_zero by (intros j; by destruct cs). by destruct cs.
  - apply Forall_cons_1 in Hw as [[Hn _] Hw]. destruct cs as [|c cs]; unfold combination; simpl.
    + by apply dot_zero.
    + rewrite dot_add, dot_scale, IH by done. by rewrite (proj2 (rowOf_eval order Ho σ _ _ _ Hn Hr)).
Qed.

(** C20.  The elimination loses nothing that can be said: an expression on states
    with a name that is a combination of the extracted equations, up to a factor,
    is 0 whenever all annotated equations hold, in whatever way its variables
    are valued. *)
Theorem annotated_equations_complete order f ica equations system m d cs e :
  (∀ e, order e ≡ₚ e) → materialized f → annotates order f ica equations system m →
  d ≠ 0 → (∀ σ, d * eval σ e = combination cs equations σ) → (∀ v, v ∈ (fst <$> e) → annotatable v) →
  ∃ es, annotateReconvergentPathFlow order f ica = Ok (Some es) ∧
  ∀ σ, (∀ e', e' ∈ es → eval σ e' = 0) → eval σ e = 0.
Proof.
  intros Ho Hm Ha Hd Hcomb Hnamed. destruct (annotation_result order Ho Hm Ha) as (exprs & He & Hall).
  exists (filter (λ e, e ≠ []) exprs). split; [done|]. intros σ Hσ.
  pose proof (system_ok order Ho Hm Ha) as Hsys. set (reg := registry system) in *. set (n := length reg).
  pose proof (λ σ, dot_comb order reg equations (rows (matrix system)) cs σ Ho (equations_wf order Hm Ha)
    (sys_rows _ _ _ Hsys)) as Hdot.
  destruct (eliminated_rows order Ho Hm Ha) as (_ & _ & Hech & Heq).
  set (u := comb cs (rows (matrix system))) in *.
  assert (∀ j, (j < nLambdas system)%nat → u j = 0) as Hz.
  { intros j Hj. pose proof (sys_lambdas _ _ _ Hsys) as Hle.
    destruct (lookup_lt_is_Some_2 reg j) as [v Hv]; [unfold reg; lia|].
    rewrite <-(dot_indicator u reg j v (sys_nodup _ _ _ Hsys) Hv), Hdot, <-Hcomb, eval_indicator; [lia|].
    intros [x Hx]%Hnamed. by rewrite (sys_unnamed _ _ _ Hsys j v Hv Hj) in Hx. }
  assert (span (filter (λ r, zeroBeforeb (nLambdas system) r = true) (rows m)) u) as Hu.
  { eapply echelon_span; [exact Hech|apply Hsys|apply Heq, comb_span|done]. }
  assert (solves (valueAt σ reg) n u) as Hs.
  { eapply span_solves; [|exact Hu]. intros r [i Hi]%list_elem_of_lookup.
    destruct (Forall2_lookup_l _ _ _ _ _ Hall Hi) as (e' & Hi' & He').
    apply list_elem_of_lookup_2 in Hi'.
    apply list_elem_of_lookup_2, list_elem_of_filter in Hi as [_ Hr].
    destruct (eliminated_rows order Ho Hm Ha) as (_ & Hok & _). eapply Forall_elem in Hok; [|exact Hr].
    destruct (getRowAsExpression_ok _ _ (sys_atomic _ _ _ Hsys) Hok) as (e2 & He2 & Hev & _).
    fold reg in He2, Hev. rewrite He' in He2. injection He2 as <-. unfold solves. fold n in Hev. rewrite <-Hev.
    destruct (decide (e' = [])) as [->|Hne]; [done|]. apply Hσ. by apply list_elem_of_filter. }
  unfold solves in Hs. fold n in Hdot. rewrite Hdot, <-Hcomb in Hs. nia.
Qed.
