(* ===== verification/IOGTokens.v ===== *)
(** An in-order graph neither loses nor gains tokens: the single token property
    that the pass emits for it (annotateIOGSingleToken), against the abstract
    specification of TokenFlow. *)

From stdpp Require Import strings gmap.
From S2P Require Import FlowNamers HandshakeIR FlowExpr FlowExtract FlowSystem IOG IOGThms TokenFlow FlowSound Sums Prelude.

(** * Occurrences of a channel *)

(** How often a channel occurs in a list. *)
Definition occN (c : Value) (l : list Value) : nat := length (filter (λ w, w = c) l).

(** The operations in whose list a channel occurs, once for every occurrence;
    [getUsers] with any list of an operation. *)
Definition occurrences (g : HandshakeOp → list Value) (f : FuncOp) (c : Value) : list OpId :=
  concat (imap (λ i o, replicate (occN c (g (theOp o))) i) (ops f)).

(** The same, from a position on. *)
Fixpoint occurrencesFrom (g : HandshakeOp → list Value) (c : Value) (k : OpId) (os : list Operation) : list OpId :=
  match os with
  | [] => []
  | o :: os => replicate (occN c (g (theOp o))) k ++ occurrencesFrom g c (S k) os
  end.

Lemma occurrences_from g f c : occurrences g f c = occurrencesFrom g c 0 (ops f).
Proof.
  unfold occurrences.
  assert (∀ os k, concat (imap (λ i o, replicate (occN c (g (theOp o))) (k + i)%nat) os) = occurrencesFrom g c k os) as H.
  { induction os as [|o os IH]; intros k; simpl; [done|]. rewrite Nat.add_0_r, <-(IH (S k)). f_equal. f_equal.
    apply imap_ext. intros j x _. simpl. by rewrite Nat.add_succ_r. }
  apply (H _ 0%nat).
Qed.

Lemma replicate_count (j k n : nat) : length (filter (λ i, i = j) (replicate n k)) = if decide (k = j) then n else 0%nat.
Proof.
  induction n as [|n IH]; simpl; [by destruct (decide _)|]. rewrite filter_cons.
  destruct (decide (k = j)); simpl; by rewrite IH.
Qed.

Lemma occurrencesFrom_at g c os : ∀ k i, length (filter (λ j, j = (k + i)%nat) (occurrencesFrom g c k os))
  = match os !! i with Some o => occN c (g (theOp o)) | None => 0%nat end.
Proof.
  induction os as [|o os IH]; intros k i; simpl; [done|]. rewrite list.filter_app, length_app, replicate_count.
  destruct i as [|i]; simpl.
  - rewrite decide_True by lia. rewrite <-(Nat.add_0_r (occN _ _)) at 2. f_equal.
    assert (∀ os m, (k < m)%nat → length (filter (λ j, j = (k + 0)%nat) (occurrencesFrom g c m os)) = 0%nat) as Hz; [|by apply Hz; lia].
    clear. induction os as [|o os IH]; intros m Hm; simpl; [done|].
    rewrite list.filter_app, length_app, replicate_count, decide_False, IH by lia. done.
  - rewrite decide_False by lia. rewrite <-(IH (S k) i). simpl. by rewrite Nat.add_succ_r.
Qed.

Lemma occurrences_at g f c i o : ops f !! i = Some o →
  length (filter (λ j, j = i) (occurrences g f c)) = occN c (g (theOp o)).
Proof. intros Ho. rewrite occurrences_from. pose proof (occurrencesFrom_at g c (ops f) 0 i) as H. by rewrite Ho in H. Qed.

Lemma occurrences_valid g f c i : i ∈ occurrences g f c → ∃ o, ops f !! i = Some o ∧ c ∈ g (theOp o).
Proof.
  unfold occurrences. intros H. apply list_elem_of_In, in_concat in H as (l & Hl%list_elem_of_In & Hi%list_elem_of_In).
  apply list_elem_of_lookup in Hl as [k Hk]. rewrite list_lookup_imap in Hk. apply fmap_Some in Hk as (o & Ho & ->).
  apply elem_of_replicate in Hi as [-> Hn]. exists o. split; [done|]. unfold occN in Hn.
  destruct (filter _ _) as [|x l] eqn:E; [done|].
  assert (x ∈ filter (λ w, w = c) (g (theOp o))) as Hx by (rewrite E; left). by apply list_elem_of_filter in Hx as [-> ?].
Qed.

Lemma filter_count_cons (u : nat) us (l : list nat) : u ∉ us →
  length (filter (λ j, j ∈ u :: us) l) = (length (filter (λ j, j = u) l) + length (filter (λ j, j ∈ us) l))%nat.
Proof.
  intros Hu. induction l as [|j l IH]; [done|]. rewrite !filter_cons. destruct (decide (j = u)) as [->|Hne].
  - rewrite decide_True by left. rewrite decide_False by done. simpl. lia.
  - destruct (decide (j ∈ us)).
    + rewrite decide_True by (by right). simpl. lia.
    + rewrite decide_False; [done|]. intros [|]%elem_of_cons; done.
Qed.

(** The list of an operation, by its position. *)
Definition portsAt (g : HandshakeOp → list Value) (f : FuncOp) (u : OpId) : list Value :=
  match ops f !! u with Some o => g (theOp o) | None => [] end.

Lemma occurrences_sum g f c us : NoDup us → Forall (λ u, is_Some (ops f !! u)) us →
  sumOver (λ u, Z.of_nat (occN c (portsAt g f u))) us = Z.of_nat (length (filter (λ j, j ∈ us) (occurrences g f c))).
Proof.
  induction us as [|u us IH]; intros Hn Hv; simpl.
  - induction (occurrences g f c) as [|j l IHl]; [done|]. rewrite filter_cons, decide_False; [done|]. apply not_elem_of_nil.
  - apply list.NoDup_cons in Hn as [Hu Hn]. apply Forall_cons_1 in Hv as [[o Ho] Hv]. rewrite IH by done.
    rewrite filter_count_cons by done. unfold portsAt. rewrite Ho, (occurrences_at g f c u o Ho). lia.
Qed.

Lemma weighted_occurrences (C : ChannelSet) (w : Value → Z) l :
  sumOver w (filter (λ c, c ∈ C) l) = sumOver (λ c, w c * Z.of_nat (occN c l)) (elements C).
Proof.
  induction l as [|x l IH].
  - rewrite (sumOver_ext (λ c, w c * Z.of_nat (occN c [])) (λ _, 0)) by (intros; unfold occN; simpl; lia). by rewrite sumOver_const.
  - rewrite (sumOver_ext (λ c, w c * Z.of_nat (occN c (x :: l))) (λ c, w c * Z.of_nat (occN c l) + if decide (x = c) then w x else 0)).
    + rewrite sumOver_add, <-IH, sumOver_one by apply NoDup_elements. rewrite filter_cons.
      destruct (decide (x ∈ C)); [rewrite (decide_True (P := x ∈ elements C)) by set_solver
        |rewrite (decide_False (P := x ∈ elements C)) by set_solver]; simpl; lia.
    + intros c _. unfold occN. rewrite filter_cons. destruct (decide (x = c)) as [->|]; cbn [length]; [|ring].
      rewrite Nat2Z.inj_succ. ring.
Qed.

(** The weights of the channels of a graph that occur in the lists of operations. *)
Lemma flow_sum g f (C : ChannelSet) w us : NoDup us → Forall (λ u, is_Some (ops f !! u)) us →
  sumOver (λ u, sumOver w (filter (λ c, c ∈ C) (portsAt g f u))) us
  = sumOver (λ c, w c * Z.of_nat (length (filter (λ j, j ∈ us) (occurrences g f c)))) (elements C).
Proof.
  intros Hn Hv. rewrite (sumOver_ext _ (λ u, sumOver (λ c, w c * Z.of_nat (occN c (portsAt g f u))) (elements C)))
    by (intros; apply weighted_occurrences).
  rewrite sumOver_swap. apply sumOver_ext. intros c _. rewrite sumOver_scale. by rewrite occurrences_sum.
Qed.

(** * Well-formed circuits *)

(** Every channel has a single definition. *)
Definition ssa (f : FuncOp) : Prop :=
  ∀ i o c, ops f !! i = Some o → c ∈ getResults (theOp o) → occurrences getResults f c = [i].

(** A load sends its address to the port of the memory controller that serves it,
    and has its data from there. *)
Definition memoryWired (f : FuncOp) : Prop :=
  ∀ i name a d ar dr, ops f !! i = Some (mkOperation name (LoadOp a d ar dr)) →
  ∃ mc mcName ports ins outs k p,
    firstUser f ar = Ok mc ∧ getDefiningOp f d = Some mc
    ∧ ops f !! mc = Some (mkOperation mcName (MemoryControllerOp ports ins outs))
    ∧ loadPortIndex i 0 ports None = Ok k ∧ ports !! k = Some p
    ∧ ins !! addrInputIndex p = Some ar ∧ outs !! dataOutputIndex p = Some d.

Record wellFormed (f : FuncOp) : Prop := {
  wf_materialized : materialized f;
  wf_ssa : ssa f;
  wf_arith : ∀ i name k l ins outs, ops f !! i = Some (mkOperation name (ArithOp k l ins outs)) →
    length outs = 1%nat ∧ (k = Selecting → l = None ∧ length ins = 3%nat);
  wf_memory : memoryWired f }.

Lemma nodup_occ (l : list Value) : (∀ c, c ∈ l → occN c l = 1%nat) → NoDup l.
Proof.
  induction l as [|x l IH]; intros H; [constructor|]. apply list.NoDup_cons. split.
  - intros Hx. pose proof (H x ltac:(left)) as Hc. unfold occN in Hc. rewrite filter_cons, decide_True in Hc by done.
    simpl in Hc. destruct (filter (λ w, w = x) l) as [|y l'] eqn:E; [|done].
    assert (x ∈ filter (λ w, w = x) l) as Hin by (apply list_elem_of_filter; done). rewrite E in Hin. by apply elem_of_nil in Hin.
  - apply IH. intros c Hc. pose proof (H c ltac:(by right)) as H1. unfold occN in *. rewrite filter_cons in H1.
    destruct (decide (x = c)) as [->|]; [|done]. simpl in H1.
    destruct (filter (λ w, w = c) l) as [|y l'] eqn:E; [|done].
    assert (c ∈ filter (λ w, w = c) l) as Hin by (apply list_elem_of_filter; done). rewrite E in Hin. by apply elem_of_nil in Hin.
Qed.

Lemma single_nodup g f i o : ops f !! i = Some o → (∀ c, c ∈ g (theOp o) → occurrences g f c = [i]) → NoDup (g (theOp o)).
Proof.
  intros Ho H. apply nodup_occ. intros c Hc. rewrite <-(occurrences_at g f c i o Ho), H by done.
  rewrite filter_cons, decide_True by done. done.
Qed.

Lemma wellFormed_distinct f : materialized f → ssa f → distinct f.
Proof.
  intros Hm Hs. apply Forall_lookup. intros i o Ho. split.
  - apply (single_nodup getOperands f i o Ho). intros c Hc. by apply (Hm i o).
  - apply (single_nodup getResults f i o Ho). intros c Hc. by apply (Hs i o).
Qed.

(** Where the graph goes through a select, it comes from the condition. *)
Definition throughConditions (f : FuncOp) (G : IOG) : Prop :=
  ∀ i name l c t e outs, ops f !! i = Some (mkOperation name (ArithOp Selecting l [c; t; e] outs)) →
    i ∈ units G → c ∈ channels G.

(** * The channels of an in-order graph *)

Section Graph.
Context {f : FuncOp} {G : IOG} (Hwf : wellFormed f) (HG : inOrder f G).

Lemma channel_user c : c ∈ channels G → ∃ i, getUsers f c = [i] ∧ i ∈ units G.
Proof.
  intros Hc. destruct (io_after _ _ HG c Hc) as (i & Hi & Hin). exists i. split; [|done].
  apply firstUser_in in Hi. destruct (getUsers_valid _ _ _ Hi) as [o Ho].
  apply (wf_materialized _ Hwf i o c Ho). by eapply getUsers_operand.
Qed.

Lemma channel_definer c : c ∈ channels G →
  occurrences getResults f c = option_list (getDefiningOp f c) ∧ ∀ i, getDefiningOp f c = Some i → i ∈ units G.
Proof.
  intros Hc. split; [|intros i; by apply (io_before _ _ HG)]. destruct (getDefiningOp f c) as [i|] eqn:Hd; simpl.
  - destruct (definer_valid _ _ _ Hd) as [o Ho]. apply (wf_ssa _ Hwf i o c Ho). by eapply definer_result.
  - destruct (occurrences getResults f c) as [|i l] eqn:E; [done|].
    destruct (occurrences_valid getResults f c i) as (o & Ho & Hin); [rewrite E; left|].
    unfold getDefiningOp in Hd. apply fmap_None in Hd.
    by apply (list_find_None _ _) in Hd; eapply Forall_lookup_1 in Hd.
Qed.

(** What comes into the units and does not leave them is what comes from outside. *)
Lemma graph_balance (w : Value → Z) us : us ≡ₚ elements (units G) →
  sumOver (λ u, sumOver w (filter (λ c, c ∈ channels G) (portsAt getOperands f u))) us
  - sumOver (λ u, sumOver w (filter (λ c, c ∈ channels G) (portsAt getResults f u))) us
  = sumOver w (filter (λ c, getDefiningOp f c = None) (elements (channels G))).
Proof.
  intros Hus. assert (NoDup us) as Hn by (rewrite Hus; apply NoDup_elements).
  assert (∀ u, u ∈ us ↔ u ∈ units G) as Hin by (intros; by rewrite Hus, elem_of_elements).
  assert (Forall (λ u, is_Some (ops f !! u)) us) as Hv.
  { apply Forall_elem. intros u Hu%Hin. destruct (io_units _ _ HG u Hu) as (o & Ho & _). by eexists. }
  rewrite !flow_sum by done.
  assert (∀ cs, (∀ c, c ∈ cs → c ∈ channels G) →
    sumOver (λ c, w c * Z.of_nat (length (filter (λ j, j ∈ us) (occurrences getOperands f c)))) cs
    - sumOver (λ c, w c * Z.of_nat (length (filter (λ j, j ∈ us) (occurrences getResults f c)))) cs
    = sumOver w (filter (λ c, getDefiningOp f c = None) cs)) as Hcs; [|apply Hcs; intros c; apply elem_of_elements].
  induction cs as [|c cs IH]; intros Hc; [done|]. simpl. specialize (IH (λ c' Hc', Hc c' ltac:(by right))).
  destruct (channel_user c (Hc c ltac:(left))) as (i & Hu & Hi). destruct (channel_definer c (Hc c ltac:(left))) as [Hd Hdu].
  change (occurrences getOperands f c) with (getUsers f c). rewrite Hu, Hd, !filter_cons, (decide_True (P := i ∈ us)) by (by apply Hin).
  destruct (getDefiningOp f c) as [d|] eqn:E; simpl option_list.
  - rewrite filter_cons, (decide_True (P := d ∈ us)), decide_False by (done || apply Hin; auto). simpl. lia.
  - rewrite decide_True by done. simpl. lia.
Qed.

End Graph.

(** * One unit in one step *)

Definition tokens (s : State) (x : Variants) : Z := Z.of_nat (length (s x)).
Definition slotTokens (s : State) (n : InternalStateNamer) : Z := tokens s (FlowInternalState n).
Definition sentTokens (s : State) (n : EagerForkSentNamer) : Z := slotTokens s (EagerForkSent n).

Lemma count_all l : count None l = Z.of_nat (length l).
Proof. unfold count. by rewrite filter_all by (by apply Forall_elem). Qed.

Lemma single_filter C l : single C l → NoDup l → ∃ c, c ∈ l ∧ filter (λ c, c ∈ C) l = [c].
Proof.
  intros (c & Hc & HcC & Hu) Hn. exists c. split; [done|].
  induction l as [|x l IH]; [by apply elem_of_nil in Hc|]. apply list.NoDup_cons in Hn as [Hx Hn].
  rewrite filter_cons. destruct (decide (x ∈ C)) as [HxC|HxC].
  - assert (x = c) as -> by (apply Hu; [left|done]). f_equal. apply filter_none, Forall_elem. intros y Hy HyC.
    apply Hx. assert (y = c) as -> by (apply Hu; [by right|done]). done.
  - apply elem_of_cons in Hc as [->|Hc]; [done|]. apply IH; [done| |done]. intros y Hy. apply Hu. by right.
Qed.

(** The tokens that a sink or a store has taken in and not passed on. *)
Definition absorbed (f : FuncOp) (G : IOG) (s : State) (u : OpId) : Z :=
  let passed (l : list Value) := sumOver (λ c, tokens s (ChannelLambda c)) (filter (λ c, c ∈ channels G) l) in
  match theOp <$> (ops f !! u) with
  | Some (SinkOp operand) => passed [operand]
  | Some (StoreOp a d ar dr) => passed [a; d] - passed [ar; dr]
  | _ => 0
  end.

Section Unit.
Context {f : FuncOp} {G : IOG} (Hwf : wellFormed f) (HG : inOrder f G).
Context (ev : Events) (s s' : State).
Context (Hchan : ∀ c, records ev s s' (ChannelLambda c)).
Context (Hops : ∀ i o, ops f !! i = Some o → opStep f ev s s' i o).
Context (Hconditions : throughConditions f G).

(** Whether a token passes a channel. *)
Definition passing (c : Value) : Z := Z.b2z (fires (chan ev c)).

(** What passes the channels of the graph among those in a list. *)
Definition through (l : list Value) : Z := sumOver passing (filter (λ c, c ∈ channels G) l).

Definition slotChange (n : InternalStateNamer) : Z := slotTokens s' n - slotTokens s n.
Definition sentChange (n : EagerForkSentNamer) : Z := sentTokens s' n - sentTokens s n.

Lemma slotChange_step n b a : slotAt s s' n b a → slotChange n = Z.b2z (fires b) - Z.b2z (fires a).
Proof.
  unfold slotAt, slotChange, slotTokens, tokens. intros H%(slotStep_count None).
  rewrite !count_all, !cnt_untracked in H. lia.
Qed.

Lemma slotChange_any n b a : slotAtAny s s' n b a → slotChange n = Z.b2z (fires b) - Z.b2z (fires a).
Proof.
  unfold slotAtAny, slotChange, slotTokens, tokens. intros (b' & a' & <- & <- & H%(slotStep_count None)).
  rewrite !count_all, !cnt_untracked in H. lia.
Qed.

Lemma sentChange_step n b a : sentAt s s' n b a → sentChange n = Z.b2z (fires a) - Z.b2z (fires b).
Proof.
  unfold sentAt, sentChange, sentTokens, slotTokens, tokens. intros H%(sentStep_count None).
  rewrite !count_all, !cnt_untracked in H. lia.
Qed.

Lemma chainStep_change i slots a : ∀ b k, chainStep ev s s' i b k slots a →
  sumOver slotChange slots = Z.b2z (fires b) - Z.b2z (fires a).
Proof.
  induction slots as [|n slots IH]; intros b k; simpl; [intros ->; lia|]. intros [Hn Hc].
  rewrite (slotChange_step _ _ _ Hn), (IH _ _ Hc). lia.
Qed.

(** Of channels that pass tokens together, exactly one is in the graph. *)
Lemma through_single e l : single (channels G) l → NoDup l → together ev e l → through l = Z.b2z (fires e).
Proof.
  intros Hs Hn Ht. destruct (single_filter _ _ Hs Hn) as (c & Hc & Hf). unfold through. rewrite Hf. simpl.
  unfold together in Ht. rewrite Forall_elem in Ht. unfold passing. rewrite (Ht c Hc). lia.
Qed.

Lemma through_all l : Forall (λ c, c ∈ channels G) l → through l = sumOver passing l.
Proof. intros H. unfold through. by rewrite filter_all. Qed.

Lemma through_none l : Forall (λ c, c ∉ channels G) l → through l = 0.
Proof. intros H. unfold through. by rewrite filter_none. Qed.

Lemma selects_passing sel cs : selects ev sel cs → sumOver passing cs = Z.b2z (fires sel).
Proof. apply selects_total. Qed.

(** The outputs of an eager fork that are in the graph. *)
Lemma fork_change e cs ns : length cs = length ns →
  (∀ k c n, cs !! k = Some c → ns !! k = Some n → ∃ e', fires e' = fires e ∧ sentAt s s' n e' (chan ev c)) →
  let taken := filter (λ '(c, _), contains G c = true) (zip cs ns) in
  sumOver sentChange (map snd taken) = through cs - Z.of_nat (length taken) * Z.b2z (fires e).
Proof.
  simpl. revert ns. induction cs as [|c cs IH]; intros [|n ns] Hl Hs; try done. simpl.
  specialize (IH ns ltac:(simpl in Hl; lia) (λ k, Hs (S k))). destruct (Hs 0%nat c n eq_refl eq_refl) as (e' & He & Hn).
  unfold through in *. destruct (decide (c ∈ channels G)) as [Hc|Hc].
  - rewrite (filter_cons_True _ (c, n)), (filter_cons_True _ c) by (done || by apply contains_true).
    cbn [map length snd]. change (sumOver sentChange (n :: ?l)) with (sentChange n + sumOver sentChange l).
    change (sumOver passing (c :: ?l)) with (passing c + sumOver passing l).
    rewrite IH, (sentChange_step _ _ _ Hn), Nat2Z.inj_succ, He. unfold passing. ring.
  - rewrite (filter_cons_False _ (c, n)), (filter_cons_False _ c); [exact IH|done|].
    simpl. by rewrite contains_true.
Qed.

Lemma passed_change l :
  sumOver (λ c, tokens s' (ChannelLambda c)) (filter (λ c, c ∈ channels G) l)
  - sumOver (λ c, tokens s (ChannelLambda c)) (filter (λ c, c ∈ channels G) l) = through l.
Proof.
  rewrite <-sumOver_sub. apply sumOver_ext. intros c _. unfold tokens. rewrite Hchan, length_app.
  unfold passing, chan. destruct (ev (ChannelLambda c)); simpl; lia.
Qed.

(** What a unit takes in, it holds or absorbs or passes on. *)
Definition balanced (u : OpId) (o : HandshakeOp) (ss : list InternalStateNamer) (fs : list EagerForkSentNamer) : Prop :=
  sumOver slotChange ss - sumOver sentChange fs + (absorbed f G s' u - absorbed f G s u)
  = through (getOperands o) - through (getResults o).

Section Cases.
Context (u : OpId) (name : string) (Hu : u ∈ units G) (ss : list InternalStateNamer) (fs : list EagerForkSentNamer).

(** The premises of all cases. *)
Definition unitCase (op : HandshakeOp) : Prop :=
  ops f !! u = Some (mkOperation name op) → unitRule (channels G) op → NoDup (getOperands op) → NoDup (getResults op) →
  opStep f ev s s' u (mkOperation name op) → unitStates f G u = Ok (ss, fs) → balanced u op ss fs.

(** Opens a case, computing the states of the unit. *)
Ltac open_case Ho Hr Hno Hnr Hs H :=
  intros Ho Hr Hno Hnr Hs H; unfold opStep in Hs; cbn [theOp opName] in Hs; simpl in Hr, Hno, Hnr;
  unfold unitStates, getAllSlotsOfOperation, opAt in H; rewrite Ho in H; cbn [of_option bind theOp opName] in H;
  unfold balanced, absorbed; rewrite ?Ho; cbn [fmap option_fmap option_map theOp]; rewrite ?Z.sub_diag, ?Z.add_0_r;
  simpl getOperands; simpl getResults.

Lemma select_case l ins outs : unitCase (ArithOp Selecting l ins outs).
Proof.
  open_case Ho Hr Hno Hnr Hs H. destruct Hr as [(r & Hr & HrC) Hin].
  destruct (wf_arith _ Hwf u name _ l ins outs Ho) as [Hl Hk]. destruct (Hk eq_refl) as [-> Hlen].
  destruct outs as [|r' [|]]; try done. injection Hr as ->. destruct ins as [|c [|t [|e [|]]]]; try done.
  destruct (Hs c t e r eq_refl eq_refl) as [Hf _]. simpl in H. injection H as <- <-.
  pose proof (Hconditions u name None c t e [r] Ho Hu) as Hc.
  destruct (single_filter _ _ Hin Hno) as (c' & Hc' & Hfil). unfold through at 1. rewrite Hfil.
  assert (c ∈ [c']) as ->%list_elem_of_singleton by (rewrite <-Hfil; apply list_elem_of_filter; split; [done|left]).
  rewrite (through_all [r]) by (by repeat constructor). simpl. unfold passing. rewrite Hf. lia.
Qed.

Lemma join_case l ins outs : unitCase (ArithOp Joining l ins outs).
Proof.
  open_case Ho Hr Hno Hnr Hs H. destruct Hr as [(r & Hr & HrC) Hin]. unfold joinStep in Hs.
  pose proof (proj1 (wf_arith _ Hwf u name _ l ins outs Ho)) as Hl. destruct outs as [|r' [|]]; try done. injection Hr as ->.
  rewrite (through_all [r]) by (by repeat constructor). simpl sumOver. unfold passing. destruct l as [latency|].
  - res_inv. simplify_eq/=. destruct (Hs r _ eq_refl Ha0) as (Hj & after & Ha & Hc).
    rewrite (chainStep_change _ _ _ _ _ Hc), (through_single (inner ev u 0) ins), <-Ha by done. simpl. lia.
  - simpl in H. injection H as <- <-. specialize (Hs r eq_refl).
    rewrite (through_single (chan ev r) ins) by done. simpl. lia.
Qed.

Lemma end_case inputs : unitCase (EndOp inputs).
Proof.
  open_case Ho Hr Hno Hnr Hs H. simpl in H. injection H as <- <-. destruct Hs as [Ht Hs].
  rewrite (through_single (inner ev u 0) inputs) by done. simpl. rewrite (slotChange_step _ _ _ Hs).
  unfold through. simpl. lia.
Qed.

Lemma buffer_case t n a b : unitCase (BufferOp t n a b).
Proof.
  open_case Ho Hr Hno Hnr Hs H. destruct Hr as [Ha Hb]. res_inv. simplify_eq/=.
  rewrite (chainStep_change _ _ _ _ _ (Hs _ Ha1)), !through_all by (by repeat constructor).
  simpl. unfold passing. lia.
Qed.

Lemma deadBuffer_case a : unitCase (DeadBufferOp a).
Proof.
  open_case Ho Hr Hno Hnr Hs H. simpl in H. injection H as <- <-.
  rewrite (through_all [a]) by (by repeat constructor). simpl. rewrite (slotChange_step _ _ _ Hs).
  unfold through, passing. simpl. lia.
Qed.

Lemma branch_case c d t e : unitCase (ConditionalBranchOp c d t e).
Proof.
  open_case Ho Hr Hno Hnr Hs H. simpl in H. injection H as <- <-. destruct Hr as (Ht & He & Hin). destruct Hs as [Hf Hs].
  assert (together ev (chan ev c) [c; d]) as Htog by (by repeat (apply Forall_nil_2 || apply Forall_cons_2)).
  rewrite (through_single (chan ev c) [c; d]) by done. rewrite (through_all [t; e]) by (by repeat constructor).
  pose proof (selects_passing _ _ Hs) as E. simpl in *. lia.
Qed.

Lemma mux_case c ds r : unitCase (MuxOp c ds r).
Proof.
  open_case Ho Hr Hno Hnr Hs H. simpl in H. injection H as <- <-. destruct Hr as (Hr & Hin). destruct Hs as [Hf Hs].
  rewrite (through_all [r]) by (by repeat constructor). simpl sumOver. unfold passing at 1. rewrite <-Hf.
  change (c :: ds) with ([c] ++ ds). unfold through. rewrite list.filter_app, sumOver_app.
  fold (through [c]) (through ds). destruct Hin as [[Hd Hc]|[Hd Hc]].
  - rewrite (through_none [c]), (through_all ds), (selects_passing _ _ Hs) by (by repeat constructor). lia.
  - rewrite (through_all [c]), (through_none ds) by (by repeat constructor). simpl. unfold passing. lia.
Qed.

Lemma sink_case a : unitCase (SinkOp a).
Proof.
  open_case Ho Hr Hno Hnr Hs H. simpl in H. injection H as <- <-.
  rewrite passed_change. change (through []) with 0. change (sumOver slotChange []) with 0.
  change (sumOver sentChange []) with 0. lia.
Qed.

Lemma store_case a d ar dr : unitCase (StoreOp a d ar dr).
Proof.
  open_case Ho Hr Hno Hnr Hs H. simpl in H. injection H as <- <-.
  pose proof (passed_change [a; d]). pose proof (passed_change [ar; dr]). change (sumOver slotChange []) with 0.
  change (sumOver sentChange []) with 0. lia.
Qed.

Lemma unitStates_fork o sents : ops f !! u = Some o → getInternalSentStateNamers f o = Some sents →
  unitStates f G u = Ok (ss, fs) →
  getAllSlotsOfOperation f u = Ok ss
  ∧ let taken := filter (λ '(c, _), contains G c = true) (zip (getResults (theOp o)) sents) in
    length taken = 1%nat ∧ fs = map snd taken.
Proof.
  intros Ho Hn H. unfold unitStates, opAt in H. rewrite Ho in H. cbn [of_option bind] in H.
  apply bind_ok in H as (slots & Hs & H). rewrite Hn in H. apply bind_ok in H as (t & Ht%assert_ok%Nat.eqb_eq & H).
  by injection H as <- <-.
Qed.

Lemma fork_case a rs : unitCase (ForkOp a rs).
Proof.
  intros Ho Hr Hno Hnr Hs H. destruct (unitStates_fork _ _ Ho eq_refl H) as [Hslots [Ht ->]].
  unfold getAllSlotsOfOperation, opAt in Hslots. rewrite Ho in Hslots. simpl in Hslots. injection Hslots as <-.
  unfold opStep in Hs. destruct Hr as [Ha _]. cbn [theOp opName getResults] in *.
  unfold balanced, absorbed. rewrite Ho. cbn [fmap option_fmap option_map theOp getOperands getResults].
  rewrite (fork_change (chan ev a)), Ht; [|unfold ForkOp_sentNamers; by rewrite length_imap|eauto].
  rewrite (through_all [a]) by (by repeat constructor). change (sumOver slotChange []) with 0.
  simpl sumOver. unfold passing. lia.
Qed.

Lemma cmerge_case ds r x : unitCase (ControlMergeOp ds r x).
Proof.
  intros Ho Hr Hno Hnr Hs H. destruct (unitStates_fork _ _ Ho eq_refl H) as [Hslots [Ht ->]].
  unfold getAllSlotsOfOperation, opAt in Hslots. rewrite Ho in Hslots. simpl in Hslots. injection Hslots as <-.
  unfold opStep in Hs. destruct Hr as [Hd _]. cbn [theOp opName getResults] in *.
  destruct Hs as (Hsel & Hslot & H2 & H3 & Hsent). destruct (Hsent _ _ eq_refl) as [Hsd Hsx].
  unfold balanced, absorbed. rewrite Ho. cbn [fmap option_fmap option_map theOp getOperands getResults].
  rewrite (through_all ds), (selects_passing _ _ Hsel) by done.
  change (sumOver slotChange [?n]) with (slotChange n + 0). rewrite (slotChange_step _ _ _ Hslot).
  rewrite (fork_change (inner ev u 1)), Ht; [lia|done|].
  intros [|[|k]] c n Hc Hn; [injection Hc as <-; injection Hn as <-; eauto..|done].
Qed.

Lemma load_case a d ar dr : unitCase (LoadOp a d ar dr).
Proof.
  intros Ho Hr Hno Hnr Hs H. destruct Hr as [HaC HdrC].
  destruct (wf_memory _ Hwf u name a d ar dr Ho) as (mc & mcName & ports & ins & outs & k & p & Hmc & Hdm & Homc & Hk & Hp & Hi & Hout).
  assert (ar ∉ channels G ∧ d ∉ channels G) as [HarC HdC].
  { assert (mc ∉ units G) as Hnm.
    { intros Hin. destruct (io_units _ _ HG mc Hin) as (o & Ho' & Hrule). by simplify_eq. }
    split; intros Hin; apply Hnm; [|by eapply (io_before _ _ HG)].
    destruct (io_after _ _ HG ar Hin) as (i & Hi' & ?). congruence. }
  unfold opStep in Hs. cbn [theOp opName] in Hs.
  unfold unitStates, getAllSlotsOfOperation, opAt in H. rewrite Ho in H. cbn [of_option bind theOp opName] in H.
  destruct (LoadOp_slotNamers f name a d) as [na nd]. destruct Hs as [Hsa Hsd].
  rewrite Hmc in H. cbn [bind] in H. rewrite Homc in H. cbn [of_option bind theOp opName] in H. rewrite Hk in H.
  cbn [bind] in H. apply bind_ok in H as (slots & Hslots & H). apply bind_ok in Hslots as (n & Hn & [= <-]).
  injection H as <- <-. pose proof (Hops mc _ Homc) as Hmcs. unfold opStep in Hmcs. cbn [theOp opName] in Hmcs.
  specialize (Hmcs k p ar d n Hp Hi Hout Hn).
  unfold balanced, absorbed. rewrite Ho. cbn [fmap option_fmap option_map theOp getOperands getResults].
  change [a; d] with ([a] ++ [d]). change [ar; dr] with ([ar] ++ [dr]). unfold through.
  rewrite !list.filter_app, !sumOver_app. fold (through [a]) (through [d]) (through [ar]) (through [dr]).
  rewrite (through_none [d]), (through_none [ar]), (through_all [a]), (through_all [dr]) by (by repeat constructor).
  simpl sumOver. rewrite (slotChange_any _ _ _ Hsa), (slotChange_any _ _ _ Hsd), (slotChange_any _ _ _ Hmcs).
  unfold passing. lia.
Qed.

Lemma unit_balance o : ops f !! u = Some (mkOperation name o) → unitRule (channels G) o →
  unitStates f G u = Ok (ss, fs) → balanced u o ss fs.
Proof.
  intros Ho Hr H. pose proof (wellFormed_distinct f (wf_materialized _ Hwf) (wf_ssa _ Hwf)) as Hd.
  unfold distinct in Hd. rewrite Forall_lookup in Hd. destruct (Hd _ _ Ho) as [Hno Hnr]. pose proof (Hops u _ Ho) as Hs.
  destruct o; simpl in Hr; try done;
    [destruct kind; [apply join_case|apply select_case]|apply end_case|apply sink_case|apply deadBuffer_case|apply fork_case|apply mux_case
    |apply buffer_case|apply branch_case|apply load_case|apply store_case|apply cmerge_case]; done.
Qed.

End Cases.
End Unit.

(** * Conservation *)

Section Conservation.
Context {f : FuncOp} {G : IOG} (Hwf : wellFormed f) (HG : inOrder f G).

(** What a unit holds: the tokens in its slots, without copies of tokens that are
    already counted further on, and what it has absorbed. *)
Definition held (s : State) (u : OpId) : Z :=
  match unitStates f G u with
  | Ok (ss, fs) => sumOver (slotTokens s) ss - sumOver (sentTokens s) fs + absorbed f G s u
  | Bad _ => 0
  end.

(** The tokens that have come in through channels without a definition. *)
Definition entered (s : State) : Z :=
  sumOver (λ c, tokens s (ChannelLambda c)) (filter (λ c, getDefiningOp f c = None) (elements (channels G))).

Definition statesKnown (us : list OpId) : Prop := Forall (λ u, is_ok (unitStates f G u) = true) us.

Context (Hconditions : throughConditions f G).

Lemma held_step ica s s' us : us ≡ₚ elements (units G) → statesKnown us → step f ica s s' →
  sumOver (held s') us - sumOver (held s) us = entered s' - entered s.
Proof.
  intros Hus Hok (ev & _ & Hchan & _ & _ & Hops). rewrite <-sumOver_sub.
  unfold entered. rewrite <-sumOver_sub.
  rewrite (sumOver_ext (λ c, tokens s' (ChannelLambda c) - tokens s (ChannelLambda c)) (passing ev)); cycle 1.
  { intros c _. unfold tokens. rewrite Hchan, length_app. unfold passing, chan. destruct (ev (ChannelLambda c)); simpl; lia. }
  rewrite <-(graph_balance Hwf HG (passing ev) us Hus), <-sumOver_sub. apply sumOver_ext. intros u Hu.
  unfold statesKnown in Hok. rewrite Forall_elem in Hok. specialize (Hok u Hu). rewrite Hus, elem_of_elements in Hu.
  unfold held. destruct (unitStates f G u) as [[ss fs]|] eqn:Hst; [|done].
  destruct (io_units _ _ HG u Hu) as ([name o] & Ho & Hr).
  pose proof (unit_balance Hwf HG ev s s' Hchan Hops Hconditions u name Hu ss fs o Ho Hr Hst) as Hb.
  unfold balanced, through, slotChange, sentChange in Hb. rewrite !sumOver_sub in Hb.
  unfold portsAt. rewrite Ho. simpl theOp. lia.
Qed.

Lemma held_initial us : sumOver (held initial) us = 0 ∧ entered initial = 0.
Proof.
  assert (∀ A (l : list A), sumOver (λ _, 0) l = 0) as H0 by (intros; rewrite sumOver_const; lia).
  split; [|apply H0]. rewrite (sumOver_ext (held initial) (λ _, 0)); [apply H0|]. intros u _. unfold held, absorbed.
  destruct (unitStates f G u) as [[ss fs]|]; [|done].
  change (slotTokens initial) with (λ _ : InternalStateNamer, 0). change (sentTokens initial) with (λ _ : EagerForkSentNamer, 0).
  rewrite !H0. destruct (theOp <$> _) as [[]|]; try done;
    change (λ c : Value, tokens initial (ChannelLambda c)) with (λ _ : Value, 0); by rewrite !H0.
Qed.

Lemma held_entered ica s us : us ≡ₚ elements (units G) → statesKnown us → reachable f ica s →
  sumOver (held s) us = entered s.
Proof.
  intros Hus Hok. induction 1 as [|s s' _ IH Hs]; [by destruct (held_initial us) as [-> ->]|].
  pose proof (held_step ica s s' us Hus Hok Hs). lia.
Qed.

End Conservation.

Lemma entered_single f G s e : e ∈ channels G → (∀ c, c ∈ channels G → getDefiningOp f c = None ↔ c = e) →
  entered (f := f) (G := G) s = tokens s (ChannelLambda e).
Proof.
  intros He H. unfold entered. rewrite (sumOver_perm _ _ [e]); [simpl; lia|].
  apply NoDup_Permutation; [apply list.NoDup_filter, NoDup_elements|apply NoDup_singleton|].
  intros c. rewrite list_elem_of_filter, elem_of_elements, list_elem_of_singleton. split; [intros []; by apply H|].
  intros ->. split; [by apply H|done].
Qed.

Lemma absorbed_none f G s u :
  (∀ o, ops f !! u = Some o → (∀ a, theOp o ≠ SinkOp a) ∧ ∀ a d ar dr, theOp o ≠ StoreOp a d ar dr) → absorbed f G s u = 0.
Proof.
  intros H. unfold absorbed. destruct (ops f !! u) as [o|]; [|done]. destruct (H o eq_refl) as [Hk Hst]. simpl.
  destruct (theOp o); try done; [by destruct (Hk operand)|by edestruct Hst].
Qed.

(** The lists of the emitted property, unit by unit. *)
Lemma annotated_states f order G slots forks : annotateIOGSingleToken f order G = Ok (slots, forks) →
  ∃ a, argName f (entry G) = Ok a ∧ statesKnown (f := f) (G := G) (order (units G))
  ∧ ∀ h k, sumOver h slots - sumOver k forks = h (EntrySlot a)
      + sumOver (λ u, match unitStates f G u with Ok (ss, fs) => sumOver h ss - sumOver k fs | Bad _ => 0 end) (order (units G)).
Proof.
  unfold annotateIOGSingleToken. intros H. apply bind_ok in H as (a & Ha & H). exists a. split; [done|].
  assert (∀ us ss0 fs0, foldM (λ '(slots, forks) op, let* (opSlots, opForks) := unitStates f G op in
      Ok (slots ++ opSlots, forks ++ opForks)) (ss0, fs0) us = Ok (slots, forks) →
    statesKnown (f := f) (G := G) us ∧ ∀ h k, sumOver h slots - sumOver k forks = sumOver h ss0 - sumOver k fs0
      + sumOver (λ u, match unitStates f G u with Ok (ss, fs) => sumOver h ss - sumOver k fs | Bad _ => 0 end) us) as Hf.
  { clear. induction us as [|u us IH]; intros ss0 fs0 H; simpl in H.
    - injection H as <- <-. split; [constructor|]. intros. simpl. lia.
    - apply bind_ok in H as ([ss1 fs1] & H1 & H). apply bind_ok in H1 as ([ss fs] & Hu & [= <- <-]).
      apply IH in H as [Hok Hsum]. split; [constructor; [by rewrite Hu|done]|].
      intros h k. rewrite Hsum, !sumOver_app. simpl. rewrite Hu. lia. }
  apply Hf in H as [Hok Hsum]. split; [done|]. intros h k. rewrite Hsum. simpl. lia.
Qed.

(** * Sinks replaced by dead buffers *)

Section Replace.
Context (nameOf : OpId → string) (iogs : list IOG) (f : FuncOp).
#[local] Notation f' := (replaceSinks nameOf iogs f).
#[local] Notation R := (replaceSink nameOf iogs).

Lemma replaced_at i : ops f' !! i = R i <$> ops f !! i.
Proof. simpl. by rewrite list_lookup_imap. Qed.

Lemma replaced_ports i o :
  getOperands (theOp (R i o)) = getOperands (theOp o) ∧ getResults (theOp (R i o)) = getResults (theOp o).
Proof. unfold replaceSink. destruct (theOp o) eqn:E; rewrite ?E; try done. case_match; simpl; by rewrite ?E. Qed.

Lemma imap_imap {A B C} (g : nat → B → C) (h : nat → A → B) l : imap g (imap h l) = imap (λ i x, g i (h i x)) l.
Proof. apply list_eq. intros i. rewrite !list_lookup_imap. by destruct (l !! i). Qed.

Lemma replaced_occurrences g c : (∀ i o, g (theOp (R i o)) = g (theOp o)) → occurrences g f' c = occurrences g f c.
Proof.
  intros Hg. unfold occurrences. simpl. rewrite imap_imap. f_equal. apply imap_ext. intros i o _. by rewrite Hg.
Qed.

Lemma replaced_users c : getUsers f' c = getUsers f c.
Proof. apply (replaced_occurrences getOperands). intros. apply replaced_ports. Qed.

Lemma replaced_results c : occurrences getResults f' c = occurrences getResults f c.
Proof. apply replaced_occurrences. intros. apply replaced_ports. Qed.

Lemma definer_iff (h : FuncOp) c i : getDefiningOp h c = Some i ↔
  ∃ o, ops h !! i = Some o ∧ c ∈ getResults (theOp o)
       ∧ ∀ j y, ops h !! j = Some y → (j < i)%nat → c ∉ getResults (theOp y).
Proof.
  unfold getDefiningOp. split.
  - intros H. apply fmap_Some in H as ([j o] & H%list_find_Some & ->). exists o. naive_solver.
  - intros (o & Ho & Hc & Hmin). apply fmap_Some. exists (i, o). split; [|done]. apply list_find_Some. naive_solver.
Qed.

Lemma replaced_definer c : getDefiningOp f' c = getDefiningOp f c.
Proof.
  apply option_eq. intros i. rewrite !definer_iff. setoid_rewrite replaced_at. split.
  - intros (o' & Ho & Hc & Hmin). apply fmap_Some in Ho as (o & Ho & ->). exists o. split; [done|].
    rewrite (proj2 (replaced_ports i o)) in Hc. split; [done|]. intros j y Hy Hj Hin.
    apply (Hmin j (R j y)); [by rewrite Hy|done|]. by rewrite (proj2 (replaced_ports j y)).
  - intros (o & Ho & Hc & Hmin). exists (R i o). split; [by rewrite Ho|].
    rewrite (proj2 (replaced_ports i o)). split; [done|]. intros j y' Hy Hj.
    apply fmap_Some in Hy as (y & Hy & ->). rewrite (proj2 (replaced_ports j y)). by eapply Hmin.
Qed.

Lemma replaced_firstUser c : firstUser f' c = firstUser f c.
Proof. unfold firstUser. by rewrite replaced_users. Qed.

Lemma replaced_inOrder g : inOrder f g → inOrder f' g.
Proof.
  intros [He Hb Ha Hu]. split; [done| | |].
  - intros c i. rewrite replaced_definer. apply Hb.
  - intros c. rewrite replaced_firstUser. apply Ha.
  - intros i Hi. destruct (Hu i Hi) as (o & Ho & Hr). exists (R i o). rewrite replaced_at, Ho. split; [done|].
    unfold replaceSink. destruct (theOp o) eqn:E; rewrite ?E; try done. case_match; simpl; [done|by rewrite E].
Qed.

Lemma replaced_other i o' : ops f' !! i = Some o' → (∀ a, theOp o' ≠ DeadBufferOp a) → ops f !! i = Some o'.
Proof.
  rewrite replaced_at. intros H Hn. apply fmap_Some in H as (o & Ho & ->). rewrite Ho. f_equal.
  unfold replaceSink in *. destruct (theOp o) eqn:E; try done. case_match; [|done]. by destruct (Hn operand).
Qed.

Lemma kept_at i o : ops f !! i = Some o → (∀ a, theOp o ≠ SinkOp a) → ops f' !! i = Some o.
Proof.
  intros Ho Hn. rewrite replaced_at, Ho. simpl. f_equal. unfold replaceSink. destruct (theOp o) eqn:E; try done.
  by destruct (Hn operand).
Qed.

Lemma replaced_wellFormed : wellFormed f → wellFormed f'.
Proof.
  intros [Hm Hs Ha Hw]. split.
  - intros i o' c Ho Hc. rewrite replaced_users. rewrite replaced_at in Ho. apply fmap_Some in Ho as (o & Ho & ->).
    rewrite (proj1 (replaced_ports i o)) in Hc. by apply (Hm i o).
  - intros i o' c Ho Hc. rewrite replaced_results. rewrite replaced_at in Ho. apply fmap_Some in Ho as (o & Ho & ->).
    rewrite (proj2 (replaced_ports i o)) in Hc. by apply (Hs i o).
  - intros i name k l ins outs Ho. apply replaced_other in Ho; [|done]. by eapply Ha.
  - intros i name a d ar dr Ho. apply replaced_other in Ho; [|done].
    destruct (Hw i name a d ar dr Ho) as (mc & mn & ports & ins & outs & k & p & H1 & H2 & H3 & H4).
    exists mc, mn, ports, ins, outs, k, p. rewrite replaced_firstUser, replaced_definer.
    split; [done|]. split; [done|]. split; [by apply kept_at|done].
Qed.

Lemma replaced_no_sink g i o' a : g ∈ iogs → i ∈ units g → ops f' !! i = Some o' → theOp o' ≠ SinkOp a.
Proof.
  intros Hg Hi Ho. rewrite replaced_at in Ho. apply fmap_Some in Ho as (o & Ho & ->). unfold replaceSink.
  destruct (theOp o) eqn:E; rewrite ?E; try done. case_match eqn:Hex; [done|].
  assert (existsb (λ g, containsOp g i) iogs = true) as Ht; [|congruence].
  apply existsb_exists. exists g. split; [by apply list_elem_of_In|]. by apply bool_decide_eq_true.
Qed.

End Replace.

(** C3.  The single token property holds for the graphs that the pass finds: in every
    state the circuit can reach once its argument has been offered one token, the
    graph holds one token more in its slots than its forks have sent ahead.  The
    graph must not have another argument among its channels, and no store, and where it
    goes through a select it must come from the condition: a data operand of a select may
    hold a token that the select has not waited for.  The circuit is well-formed: every
    channel has one user and one definition, and loads are wired to their ports. *)
Theorem iog_single_token nameOf order f ica fuel iogs g slots forks s :
  (∀ U, order U ≡ₚ elements U) → wellFormed f → findAllIOGs f fuel = Ok iogs → g ∈ iogs →
  annotateIOGSingleToken (replaceSinks nameOf iogs f) order g = Ok (slots, forks) →
  (∀ c, c ∈ channels g → getDefiningOp f c = None ↔ c = entry g) →
  (∀ i name a d ar dr, i ∈ units g → ops f !! i ≠ Some (mkOperation name (StoreOp a d ar dr))) →
  throughConditions f g →
  reachable (replaceSinks nameOf iogs f) ica s →
  (∀ a, argName f (entry g) = Ok a → slotTokens s (EntrySlot a) + tokens s (ChannelLambda (entry g)) = 1) →
  sumOver (slotTokens s) slots = 1 + sumOver (sentTokens s) forks.
Proof.
  intros Horder Hwf Hfind Hg Hann Hentry Hstore Hcond Hreach Hone.
  assert (throughConditions (replaceSinks nameOf iogs f) g) as Hcond'.
  { intros i name l c t e outs Ho. apply replaced_other in Ho; [|done]. by eapply Hcond. }
  destruct (found_in_order _ _ _ _ Hfind Hg) as [HG _].
  pose proof (replaced_wellFormed nameOf iogs f Hwf) as Hwf'. pose proof (replaced_inOrder nameOf iogs f g HG) as HG'.
  destruct (annotated_states _ _ _ _ _ Hann) as (a & Ha & Hok & Hsum).
  pose proof (held_entered Hwf' HG' Hcond' ica s _ (Horder (units g)) Hok Hreach) as Hheld.
  rewrite (entered_single _ _ s (entry g)) in Hheld; [|apply HG'|by setoid_rewrite replaced_definer].
  specialize (Hsum (slotTokens s) (sentTokens s)). specialize (Hone a Ha).
  rewrite (sumOver_ext _ (held (f := replaceSinks nameOf iogs f) (G := g) s)) in Hsum; [lia|]. intros u Hu. rewrite Horder, elem_of_elements in Hu. unfold held.
  destruct (unitStates _ g u) as [[ss fs]|]; [|done]. rewrite absorbed_none; [lia|].
  intros o Ho. split; [intros b; by eapply replaced_no_sink|]. intros b d br dr E.
  apply replaced_other in Ho; [|intros ?; congruence]. destruct o as [name o]. simpl in E. subst o. by eapply Hstore.
Qed.
