(* ===== verification/IOGPaths.v ===== *)
(** Paths in an in-order graph: the operations that [findAllPaths] returns are those
    on a path, and the search ends (IOG::findAllPaths). *)

From stdpp Require Import strings gmap relations.
From S2P Require Import FlowNamers HandshakeIR IOG IOGThms TokenFlow IOGTokens Prelude.

Lemma elem_of_rev {A} (a : A) l : a ∈ rev l ↔ a ∈ l.
Proof. rewrite !list_elem_of_In. symmetry. apply in_rev. Qed.

Lemma omap_le {A B} (h : A → option B) l : (length (omap h l) ≤ length l)%nat.
Proof. induction l as [|a l IH]; [done|]. cbn. destruct (h a); simpl; lia. Qed.

(** Two relations that agree from the elements of a closed set have the same paths. *)
Lemma rtc_agree {A} (R Q : relation A) (P : A → Prop) x : P x →
  (∀ a b, P a → R a b → P b) → (∀ a b, P a → R a b ↔ Q a b) → ∀ y, rtc R x y ↔ rtc Q x y.
Proof.
  intros Hx Hp Hq y. split; intros H.
  - assert (P y ∧ rtc Q x y) as [_ ?]; [|done]. revert y H. apply rtc_ind_r; [by split|].
    intros y z _ Hyz [Hy Hr]. split; [by eapply Hp|]. eapply rtc_r; [exact Hr|by apply Hq].
  - assert (P y ∧ rtc R x y) as [_ ?]; [|done]. revert y H. apply rtc_ind_r; [by split|].
    intros y z _ Hyz [Hy Hr]. apply (Hq y z Hy) in Hyz. split; [by eapply Hp|]. by eapply rtc_r.
Qed.

(** Going back along a relation. *)
Lemma rtc_converse {A} (R : relation A) x y : rtc (λ a b, R b a) x y → rtc R y x.
Proof. induction 1 as [|a b c Hab _ IH]; [done|]. by eapply rtc_r. Qed.

Section Search.
Context (next : OpId → res (list OpId)) (stop : OpId).

(** A step of the search: on to a neighbour, but not from [stop]. *)
Definition goesTo (a b : OpId) : Prop := a ≠ stop ∧ ∃ ns, next a = Ok ns ∧ b ∈ ns.

(** What the search has seen goes on to what it has seen or will look at. *)
Record searchInv (x : OpId) (stack : list OpId) (seen : OpSet) : Prop := {
  si_reached : ∀ op, op ∈ seen ∨ op ∈ stack → rtc goesTo x op;
  si_start : x ∈ seen ∨ x ∈ stack;
  si_closed : ∀ a b, a ∈ seen → goesTo a b → b ∈ seen ∨ b ∈ stack }.

Lemma searchLoop_inv x fuel : ∀ stack seen S, searchLoop next stop fuel stack seen = Ok S →
  searchInv x stack seen → searchInv x [] S.
Proof.
  induction fuel as [|fuel IH]; intros stack seen S H Hi; [done|]. destruct stack as [|op stack]; simpl in H;
    [by injection H as <-|]. destruct Hi as [Hr Hs Hc].
  destruct (decide (op ∈ seen)) as [Hin|Hin]; [rewrite bool_decide_true in H by done|rewrite bool_decide_false in H by done].
  - eapply IH; [exact H|]. split.
    + intros o [|]; apply Hr; [by left|right; by right].
    + destruct Hs as [|[->|]%elem_of_cons]; auto.
    + intros a b Ha Hab. destruct (Hc a b Ha Hab) as [|[->|]%elem_of_cons]; auto.
  - destruct (decide (op = stop)) as [->|Hne]; [rewrite bool_decide_true in H by done|rewrite bool_decide_false in H by done].
    + eapply IH; [exact H|]. split.
      * intros o [[->%elem_of_singleton|Ho]%elem_of_union|Ho]; apply Hr; [right; left|by left|right; by right].
      * destruct Hs as [|[->|]%elem_of_cons]; set_solver.
      * intros a b [->%elem_of_singleton|Ha]%elem_of_union Hab; [by destruct Hab|].
        destruct (Hc a b Ha Hab) as [|[->|]%elem_of_cons]; set_solver.
    + apply bind_ok in H as (ns & Hns & H). eapply IH; [exact H|]. split.
      * assert (rtc goesTo x op) as Hop by (apply Hr; right; left).
        intros o [[->%elem_of_singleton|Ho]%elem_of_union|[Ho|Ho]%elem_of_app]; [done|apply Hr; by left| |apply Hr; right; by right].
        eapply rtc_r; [exact Hop|]. split; [done|]. exists ns. split; [done|].
        by apply elem_of_rev.
      * destruct Hs as [|[->|]%elem_of_cons]; set_solver.
      * intros a b [->%elem_of_singleton|Ha]%elem_of_union Hab.
        -- destruct Hab as (_ & ns' & Hns' & Hb). rewrite Hns in Hns'. injection Hns' as <-. right. apply elem_of_app. left.
           by apply elem_of_rev.
        -- destruct (Hc a b Ha Hab) as [|[->|]%elem_of_cons]; set_solver.
Qed.

(** What the search returns. *)
Lemma searchLoop_spec x fuel S : searchLoop next stop fuel [x] ∅ = Ok S → ∀ op, op ∈ S ↔ rtc goesTo x op.
Proof.
  intros H. assert (searchInv x [x] ∅) as Hi.
  { split; [intros o [Ho|Ho]; [set_solver|by apply list_elem_of_singleton in Ho as ->]|right; left|set_solver]. }
  apply (searchLoop_inv _ _ _ _ _ H) in Hi as [Hr Hs Hc]. intros op. split; [intros Ho; apply Hr; by left|].
  revert op. apply rtc_ind_r; [by destruct Hs as [|Hx%elem_of_nil]|].
  intros y z _ Hyz Hy. by destruct (Hc y z Hy Hyz) as [|Hx%elem_of_nil].
Qed.

(** The search ends: every operation is expanded once. *)
Lemma searchLoop_ends (all : OpSet) (d : nat) :
  (∀ op, op ∈ all → op ≠ stop → ∃ ns, next op = Ok ns ∧ (length ns ≤ d)%nat ∧ Forall (.∈ all) ns) →
  ∀ fuel stack seen, Forall (.∈ all) stack → (length stack + S d * size (all ∖ seen) < fuel)%nat →
  ∃ S, searchLoop next stop fuel stack seen = Ok S.
Proof.
  intros Hall. induction fuel as [|fuel IH]; intros stack seen Hs Hf; [lia|].
  destruct stack as [|op stack]; simpl; [by eexists|]. apply Forall_cons_1 in Hs as [Hop Hs]. cbn [length] in Hf.
  destruct (decide (op ∈ seen)) as [Hin|Hin]; [rewrite bool_decide_true by done; apply IH; [done|lia]|].
  rewrite bool_decide_false by done.
  assert (size (all ∖ seen) = S (size (all ∖ ({[op]} ∪ seen)))) as Hsize.
  { assert (all ∖ seen = {[op]} ∪ all ∖ ({[op]} ∪ seen)) as ->.
    { apply set_eq. intros x. rewrite elem_of_union, !elem_of_difference, elem_of_union, elem_of_singleton.
      destruct (decide (x = op)) as [->|]; naive_solver. }
    rewrite size_union; [by rewrite size_singleton|]. set_solver. }
  destruct (decide (op = stop)) as [->|Hne]; [rewrite bool_decide_true by done; apply IH; [done|lia]|].
  rewrite bool_decide_false by done. destruct (Hall op Hop Hne) as (ns & -> & Hd & Hns). simpl. apply IH.
  - apply Forall_app. split; [by apply Forall_rev|done].
  - rewrite length_app, length_rev. lia.
Qed.

End Search.

(** * The paths of an in-order graph *)

Lemma mapM_elem {A B} (h : A → res B) l : (∀ x, x ∈ l → ∃ y, h x = Ok y) →
  ∃ ys, mapM h l = Ok ys ∧ length ys = length l ∧ ∀ y, y ∈ ys ↔ ∃ x, x ∈ l ∧ h x = Ok y.
Proof.
  intros Ht. destruct (mapM_total h l Ht) as [ys Hys]. exists ys. split; [done|]. apply mapM_ok in Hys.
  split; [by symmetry; eapply Forall2_length|]. clear Ht. induction Hys as [|x y l ys Hxy Hys IH]; intros z.
  - split; [by intros H%elem_of_nil|by intros (x & H%elem_of_nil & _)].
  - rewrite elem_of_cons, IH. setoid_rewrite elem_of_cons. split; [|naive_solver congruence].
    intros [->|(x' & Hx & Hz)]; eauto.
Qed.

Section Graph.
Context {f : FuncOp} {g : IOG} (Hwf : wellFormed f) (Hg : inOrder f g).

(** A channel of the graph goes from one operation to the other. *)
Definition leads (a b : OpId) : Prop := ∃ c, c ∈ channels g ∧ getDefiningOp f c = Some a ∧ firstUser f c = Ok b.

(** No operation has more channels on a side than [d]. *)
Definition atMost (d : nat) : Prop :=
  ∀ i o, ops f !! i = Some o → (length (getResults (theOp o)) ≤ d ∧ length (getOperands (theOp o)) ≤ d)%nat.

Lemma result_definer i o c : ops f !! i = Some o → c ∈ getResults (theOp o) → getDefiningOp f c = Some i.
Proof.
  intros Ho Hc. pose proof (wf_ssa _ Hwf i o c Ho Hc) as Hocc.
  destruct (getDefiningOp f c) as [j|] eqn:Hd.
  - destruct (definer_valid _ _ _ Hd) as [o' Ho']. pose proof (wf_ssa _ Hwf j o' c Ho' (definer_result _ _ _ _ Hd Ho')). congruence.
  - unfold getDefiningOp in Hd. apply fmap_None in Hd. apply (list_find_None _ _) in Hd. by destruct (Forall_lookup_1 _ _ _ _ Hd Ho).
Qed.

Lemma operand_user i o c : ops f !! i = Some o → c ∈ getOperands (theOp o) → firstUser f c = Ok i.
Proof. intros Ho Hc. unfold firstUser. by rewrite (wf_materialized _ Hwf i o c Ho Hc). Qed.

Lemma unit_op i : i ∈ units g → ∃ o, ops f !! i = Some o.
Proof. intros Hi. destruct (io_units _ _ Hg i Hi) as (o & Ho & _). by exists o. Qed.

Lemma containsOp_true i : i ∈ units g → containsOp g i = true.
Proof. apply bool_decide_eq_true. Qed.

Lemma forwardOps_spec d i : atMost d → i ∈ units g →
  ∃ ns, forwardOps f g i = Ok ns ∧ (length ns ≤ d)%nat ∧ Forall (.∈ units g) ns ∧ ∀ b, b ∈ ns ↔ leads i b.
Proof.
  intros Hd Hi. destruct (unit_op i Hi) as [o Ho]. unfold forwardOps, opAt. rewrite Ho. simpl.
  set (l := filter _ _). assert (∀ c, c ∈ l ↔ c ∈ channels g ∧ c ∈ getResults (theOp o)) as Hl.
  { intros c. subst l. rewrite list_elem_of_filter, contains_true. done. }
  assert (∀ c, c ∈ l → ∃ b, firstUser f c = Ok b ∧ b ∈ units g) as Hn by (intros c [Hc _]%Hl; by apply (io_after _ _ Hg)).
  destruct (mapM_elem (λ c, let* next := firstUser f c in let* _ := assert_ (containsOp g next) in Ok next) l)
    as (ns & Hns & Hlen & Hin).
  { intros c Hc. destruct (Hn c Hc) as (b & -> & Hb). exists b. simpl. by rewrite containsOp_true. }
  exists ns. split; [done|]. destruct (Hd i o Ho) as [Hr _]. split; [|split].
  - rewrite Hlen. etransitivity; [apply length_filter|done].
  - apply Forall_elem. intros b Hb. apply Hin in Hb as (c & Hc & Hb). destruct (Hn c Hc) as (b' & Hb' & Hu).
    rewrite Hb' in Hb. simpl in Hb. apply bind_ok in Hb as (? & _ & [= <-]). done.
  - intros b. rewrite Hin. split.
    + intros (c & Hc & Hb). apply bind_ok in Hb as (b' & Hb' & Hb). apply bind_ok in Hb as (? & _ & [= <-]).
      apply Hl in Hc as [Hc Hres]. exists c. split; [done|]. split; [by eapply result_definer|done].
    + intros (c & Hc & Hdef & Hb). assert (c ∈ l) as Hcl by (apply Hl; split; [done|by eapply definer_result]).
      exists c. split; [done|]. destruct (Hn c Hcl) as (b' & Hb' & Hu). rewrite Hb in Hb'. injection Hb' as <-.
      rewrite Hb. simpl. by rewrite containsOp_true.
Qed.

Lemma backwardOps_spec d i : atMost d → i ∈ units g →
  ∃ ns, backwardOps f g i = Ok ns ∧ (length ns ≤ d)%nat ∧ Forall (.∈ units g) ns ∧ ∀ a, a ∈ ns ↔ leads a i.
Proof.
  intros Hd Hi. destruct (unit_op i Hi) as [o Ho]. unfold backwardOps, opAt. rewrite Ho. simpl.
  set (l := omap _ _). assert (∀ a, a ∈ l ↔ leads a i) as Hl.
  { intros a. subst l. rewrite list_elem_of_omap. split.
    - intros (c & [Hc Hin]%list_elem_of_filter & Ha). apply contains_true in Hc. exists c.
      split; [done|]. split; [done|by eapply operand_user].
    - intros (c & Hc & Ha & Hb). exists c. split; [|done]. apply list_elem_of_filter. rewrite contains_true.
      split; [done|]. eapply getUsers_operand; [by apply firstUser_in|done]. }
  assert (∀ a, a ∈ l → a ∈ units g) as Hu by (intros a (c & Hc & Ha & _)%Hl; by eapply (io_before _ _ Hg)).
  destruct (mapM_elem (λ next, let* _ := assert_ (containsOp g next) in Ok next) l) as (ns & Hns & Hlen & Hin).
  { intros a Ha. exists a. by rewrite containsOp_true by auto. }
  assert (∀ a, a ∈ ns ↔ a ∈ l) as Hnl.
  { intros a. rewrite Hin. split; [by intros (x & Hx & (? & _ & [= <-])%bind_ok)|].
    intros Ha. exists a. by rewrite containsOp_true by auto. }
  exists ns. split; [done|]. destruct (Hd i o Ho) as [_ Hr]. split; [|split].
  - rewrite Hlen. subst l. etransitivity; [apply omap_le|]. etransitivity; [apply length_filter|done].
  - apply Forall_elem. intros a Ha. by apply Hu, Hnl.
  - intros a. by rewrite Hnl.
Qed.

Lemma leads_units a b : leads a b → a ∈ units g ∧ b ∈ units g.
Proof.
  intros (c & Hc & Ha & Hb). split; [by eapply (io_before _ _ Hg)|].
  destruct (io_after _ _ Hg c Hc) as (b' & Hb' & Hu). rewrite Hb in Hb'. by injection Hb' as <-.
Qed.

(** A search along the channels of the graph. *)
Lemma search_paths (next : OpId → res (list OpId)) (R : relation OpId) d fuel x stop :
  (∀ i, i ∈ units g → ∃ ns, next i = Ok ns ∧ (length ns ≤ d)%nat ∧ Forall (.∈ units g) ns ∧ ∀ b, b ∈ ns ↔ R i b) →
  x ∈ units g → (1 + S d * size (units g) < fuel)%nat →
  ∃ seen, searchLoop next stop fuel [x] ∅ = Ok seen ∧ ∀ op, op ∈ seen ↔ rtc (λ a b, a ≠ stop ∧ R a b) x op.
Proof.
  intros Hn Hx Hf. destruct (searchLoop_ends next stop (units g) d) with (fuel := fuel) (stack := [x]) (seen := ∅ : OpSet)
    as [seen Hs].
  - intros i Hi _. destruct (Hn i Hi) as (ns & ? & ? & ? & _). by exists ns.
  - by repeat constructor.
  - assert (units g ∖ ∅ = units g) as -> by set_solver. simpl. lia.
  - exists seen. split; [done|]. intros op. rewrite (searchLoop_spec _ _ _ _ _ Hs op).
    apply (rtc_agree _ _ (.∈ units g)); [done|..].
    + intros a b Ha (_ & ns & Hns & Hb). destruct (Hn a Ha) as (ns' & Hns' & _ & Hall & _).
      rewrite Hns in Hns'. injection Hns' as <-. by apply (proj1 (Forall_elem _ _) Hall).
    + intros a b Ha. destruct (Hn a Ha) as (ns & Hns & _ & _ & Hb). unfold goesTo. rewrite Hns. split.
      * intros (? & ns' & [= <-] & ?). split; [done|by apply Hb].
      * intros [? ?]. split; [done|]. exists ns. split; [done|by apply Hb].
Qed.

(** The paths that findAllPaths returns in an in-order graph are the operations that
    are reached from the start by channels of the graph without going on from the end,
    and that reach the end without coming from a point before the start; the search
    ends, whatever loops the graph has. *)
Lemma findAllPaths_spec d fuel startOp endOp : atMost d → startOp ∈ units g → endOp ∈ units g →
  (1 + S d * size (units g) < fuel)%nat →
  ∃ paths, findAllPaths f fuel g startOp endOp = Ok paths ∧
    ∀ op, op ∈ paths ↔ rtc (λ a b, a ≠ endOp ∧ leads a b) startOp op ∧ rtc (λ a b, b ≠ startOp ∧ leads a b) op endOp.
Proof.
  intros Hd Hs He Hf. unfold findAllPaths.
  destruct (search_paths (forwardOps f g) leads d fuel startOp endOp) as (forward & -> & Hfw);
    [by intros; apply forwardOps_spec|done..|].
  destruct (search_paths (backwardOps f g) (λ b a, leads a b) d fuel endOp startOp) as (back & -> & Hbk);
    [by intros; apply backwardOps_spec|done..|].
  simpl. eexists. split; [done|]. intros op. rewrite elem_of_intersection, Hfw, Hbk.
  split; intros [? ?]; (split; [done|]); by apply (rtc_converse (λ a b, _)).
Qed.

(** A token that leaves on a channel can come back to an operation. *)
Definition comesBack (c : Value) (i : OpId) : Prop := ∃ o, firstUser f c = Ok o ∧ rtc leads o i.

Lemma reaches_before a b : rtc leads a b → rtc (λ x y, x ≠ b ∧ leads x y) a b.
Proof.
  intros H. induction H as [|a b c Hab _ IH]; [done|]. destruct (decide (a = c)) as [->|]; [done|]. by eapply rtc_l.
Qed.

Lemma findAllPaths_loop d fuel c b : atMost d → c ∈ channels g → b ∈ units g →
  (1 + S d * size (units g) < fuel)%nat →
  ∃ o paths, firstUser f c = Ok o ∧ findAllPaths f fuel g o b = Ok paths ∧ (b ∈ paths ↔ comesBack c b).
Proof.
  intros Hd Hc Hb Hf. destruct (io_after _ _ Hg c Hc) as (o & Ho & Hu).
  destruct (findAllPaths_spec d fuel o b Hd Hu Hb Hf) as (paths & Hp & Hin). exists o, paths. split; [done|]. split; [done|].
  rewrite Hin. split.
  - intros [H _]. exists o. split; [done|]. eapply rtc_subrel; [|exact H]. by intros x y [_ ?].
  - intros (o' & Ho' & H). rewrite Ho in Ho'. injection Ho' as <-. split; [by apply reaches_before|done].
Qed.

(** isExitBranch of a branch of an in-order graph returns a result, whatever loops the
    graph has: the value of the condition that leaves the loop when a token that
    leaves on exactly one side of the branch can come back to it along the channels
    of the graph, and no value when both sides come back or neither does. *)
Theorem isExitBranch_exits d fuel b name c data t e : atMost d →
  ops f !! b = Some (mkOperation name (ConditionalBranchOp c data t e)) → b ∈ units g →
  (1 + S d * size (units g) < fuel)%nat →
  ∃ r, isExitBranch f fuel g b t e = Ok r
       ∧ (r = Some 0 ↔ comesBack t b ∧ ¬ comesBack e b) ∧ (r = Some 1 ↔ comesBack e b ∧ ¬ comesBack t b)
       ∧ (r = None ↔ (comesBack t b ↔ comesBack e b)).
Proof.
  intros Hd Ho Hb Hf. destruct (io_units _ _ Hg b Hb) as (o & Ho' & Hr). rewrite Ho in Ho'. injection Ho' as <-.
  destruct Hr as (Ht & He & _). unfold isExitBranch. rewrite containsOp_true by done. simpl.
  destruct (findAllPaths_loop d fuel t b Hd Ht Hb Hf) as (ot & pt & -> & Hpt & Htl). simpl. rewrite Hpt. simpl.
  destruct (findAllPaths_loop d fuel e b Hd He Hb Hf) as (oe & pe & -> & Hpe & Hel). simpl. rewrite Hpe. simpl.
  destruct (decide (b ∈ pt)) as [Hbt|Hbt], (decide (b ∈ pe)) as [Hbe|Hbe];
    rewrite ?(bool_decide_true (b ∈ pt)), ?(bool_decide_false (b ∈ pt)), ?(bool_decide_true (b ∈ pe)),
      ?(bool_decide_false (b ∈ pe)) by done; simpl; eexists; (split; [done|]); rewrite <-Htl, <-Hel; naive_solver.
Qed.

End Graph.
