(* ===== verification/FlowExamples.v ===== *)
(** Circuits of formal properties: a fork whose outputs go through a buffer each and meet
    in an operation; in-order graphs, and circuits whose graphs have more than one
    entry or a store, for which the single token property does not hold; a select, for
    which the annotated equations do not hold either. *)

From stdpp Require Import strings gmap relations.
From S2P Require Import Gaussian FlowNamers HandshakeIR FlowExpr FlowExtract FlowSystem TokenFlow FlowSound FlowAnnotate IOG IOGThms IOGTokens IOGPaths Sums Prelude.

Definition diamond : FuncOp := mkFuncOp [(0%nat, "a"%string)]
  [mkOperation "fork0" (ForkOp 0 [1; 2]);
   mkOperation "buffer0" (BufferOp ONE_SLOT_BREAK_R 1 1 3);
   mkOperation "buffer1" (BufferOp FIFO_BREAK_NONE 2 2 4);
   mkOperation "addi0" (ArithOp Joining None [3; 4] [5]);
   mkOperation "end0" (EndOp [5])]%nat (λ _, Some 32).

Lemma diamond_materialized : materialized diamond.
Proof.
  intros i o c Hi Hc. do 5 (destruct i as [|i]; [injection Hi as <-; simpl in Hc; set_unfold; naive_solver|]). done.
Qed.

Lemma diamond_noSelect : noSelect diamond.
Proof. repeat constructor. Qed.

Definition diamond_sent (name : string) : InternalStateNamer := EagerForkSent (mkEagerForkSentNamer "fork0" name 32).
Definition diamond_slot (op slot data : string) : InternalStateNamer :=
  BufferSlotFull (mkBufferSlotFullNamer op slot data 32).
Definition stateVar (n : InternalStateNamer) : FlowVariable := mkFlowVariable (FlowInternalState n) None.

(** Both paths hold as many tokens that the other one does not have yet. *)
Definition diamond_equation : FlowExpression :=
  [(stateVar (diamond_sent "outs_0"), 1); (stateVar (diamond_sent "outs_1"), -1);
   (stateVar (diamond_slot "buffer0" "full" "data"), -1);
   (stateVar (diamond_slot "buffer1" "b0.full" "b0.reg"), 1);
   (stateVar (diamond_slot "buffer1" "b1.full" "b1.reg"), 1)].

Lemma diamond_annotated : annotateReconvergentPathFlow id diamond ∅ = Ok (Some [diamond_equation]).
Proof. reflexivity. Qed.

Definition getOk {A} (d : A) (r : res A) : A := match r with Ok a => a | Bad _ => d end.

Definition diamond_equations : list FlowExpression := fst (getOk ([], false) (extractAll diamond ∅)).
Definition diamond_system : FlowSystem :=
  getOk (mkFlowSystem [] 0 (mkMatrix 0 [])) (FlowSystem_new id diamond_equations).
Definition diamond_matrix : MatIntType := getOk (mkMatrix 0 []) (elimination small (matrix diamond_system)).

Lemma diamond_annotates : annotates id diamond ∅ diamond_equations diamond_system diamond_matrix.
Proof.
  split; [reflexivity|reflexivity| |reflexivity].
  assert (forallb (forallb small) (rows (matrix diamond_system)) = true) as H by reflexivity.
  apply Forall_elem. intros r Hr. apply Forall_elem. intros x Hx.
  rewrite forallb_forall in H. specialize (H r (proj1 (list_elem_of_In _ _) Hr)).
  rewrite forallb_forall in H. by apply H, list_elem_of_In.
Qed.

(** A token is sent to the first buffer; the other output waits. *)
Definition diamond_events : Events := λ x, if decide (x = ChannelLambda 1) then Some 7%nat else None.
Definition diamond_state : State := λ x,
  match x with
  | FlowInternalState n =>
      if decide (n = diamond_sent "outs_0" ∨ n = diamond_slot "buffer0" "full" "data") then [7%nat] else []
  | _ => option_list (diamond_events x)
  end.

Lemma diamond_reachable : reachable diamond ∅ diamond_state.
Proof.
  apply (reach_step _ _ initial); [apply reach_initial|]. exists diamond_events.
  split; [by intros c n v Hc|]. split; [done|]. split; [done|].
  split; [intros c a [= -> ->]%list_elem_of_singleton; exists None; constructor|].
  intros i o Hi. destruct i as [|[|[|[|[|i]]]]]; [injection Hi as <-..|done]; unfold opStep; simpl.
  - intros k c n Hk Hn. destruct k as [|[|k]]; [injection Hk as <-; injection Hn as <-|..]; [constructor| |done].
    injection Hk as <-. injection Hn as <-. constructor.
  - intros slots [= <-]. simpl. split; [constructor|done].
  - intros slots [= <-]. simpl. split; [constructor|]. split; [constructor|done].
  - intros c [= <-]. by repeat (apply Forall_nil_2 || apply Forall_cons_2).
  - split; [by repeat (apply Forall_nil_2 || apply Forall_cons_2)|constructor].
Qed.

Lemma annotated_equations_hold_witness :
  flow diamond_state (stateVar (diamond_sent "outs_0")) = 1 ∧ eval (flow diamond_state) diamond_equation = 0.
Proof.
  split; [reflexivity|].
  destruct (annotated_equations_hold id diamond ∅ _ _ _ (λ _, Permutation_refl _) diamond_noSelect diamond_materialized diamond_annotates)
    as (es & He & Hes).
  rewrite diamond_annotated in He. injection He as <-.
  apply Hes; [left|apply diamond_reachable].
Defined.

(** Twice the equation, with the signs changed, as a combination of the extracted
    equations. *)
Definition diamond_twice : FlowExpression :=
  [(stateVar (diamond_slot "buffer0" "full" "data"), 2); (stateVar (diamond_sent "outs_0"), -2);
   (stateVar (diamond_sent "outs_1"), 2); (stateVar (diamond_slot "buffer1" "b0.full" "b0.reg"), -2);
   (stateVar (diamond_slot "buffer1" "b1.full" "b1.reg"), -2)].

Lemma annotated_equations_complete_witness : eval (flow diamond_state) diamond_twice = 0.
Proof.
  destruct (annotated_equations_complete id diamond ∅ _ _ _ 1 [-2; 2; -2; -2; 2; 2; 2; 2; -2; 0] diamond_twice
    (λ _, Permutation_refl _) diamond_materialized diamond_annotates) as (es & He & Hes); [lia| | |].
  - intros σ. unfold combination. let v := eval vm_compute in diamond_equations in change diamond_equations with v.
    let v := eval vm_compute in diamond_twice in change diamond_twice with v. simpl. ring.
  - intros v Hv. repeat (apply elem_of_cons in Hv as [->|Hv]; [by eexists|]). by apply elem_of_nil in Hv.
  - rewrite diamond_annotated in He. injection He as <-. apply Hes.
    by intros e ->%list_elem_of_singleton.
Defined.

(** Facts about every operation of a concrete circuit. *)
Ltac each_op i H tac :=
  repeat (destruct i as [|i]; [injection H as <-; tac|]); try done.

Ltac check_circuit :=
  let i := fresh "i" in let o := fresh "o" in let c := fresh "c" in
  let Hi := fresh "Hi" in let Hc := fresh "Hc" in
  intros i o c Hi Hc; each_op i Hi ltac:(simpl in Hc; set_unfold; naive_solver).

Definition elems (U : OpSet) : list OpId := elements U.
Definition firstIOG (f : FuncOp) (arg : Value) : IOG :=
  default (mkIOG ∅ ∅ arg) (head (getOk [] (findAllIOGsWithEntry f 50 arg))).
Definition firstStates (f : FuncOp) (g : IOG) : list InternalStateNamer * list EagerForkSentNamer :=
  getOk ([], []) (annotateIOGSingleToken f elems g).

(** * The reconvergent paths *)

Lemma diamond_wellFormed : wellFormed diamond.
Proof.
  split; [exact diamond_materialized|check_circuit| |].
  - intros i name k l ins outs H. do 5 (destruct i as [|i]; [simpl in H; try done; by injection H as _ <- _ _ <-|]). done.
  - intros i name a d ar dr H. by do 5 (destruct i as [|i]; [done|]).
Qed.

(** The graph through the first buffer. *)
Definition diamond_iogs : list IOG := getOk [] (findAllIOGs diamond 50).
Definition diamond_iog : IOG := default (mkIOG ∅ ∅ 0%nat) (diamond_iogs !! 1%nat).

Lemma diamond_found : findAllIOGs diamond 50 = Ok diamond_iogs ∧ diamond_iog ∈ diamond_iogs.
Proof. split; [reflexivity|]. right. left. Qed.

(** The argument waits, its copy is in the buffer. *)
Definition offered_events : Events := diamond_events.
Definition offered_state : State := λ x,
  match x with
  | FlowInternalState (EntrySlot _) => [7%nat]
  | _ => diamond_state x
  end.

Lemma offered_reachable : reachable diamond ∅ offered_state.
Proof.
  apply (reach_step _ _ initial); [apply reach_initial|]. exists diamond_events.
  split; [by intros c n v Hc|]. split; [done|]. split; [done|].
  split; [intros c a [= -> ->]%list_elem_of_singleton; exists (Some 7%nat); constructor|].
  intros i o Hi. destruct i as [|[|[|[|[|i]]]]]; [injection Hi as <-..|done]; unfold opStep; simpl.
  - intros k c n Hk Hn. destruct k as [|[|k]]; [injection Hk as <-; injection Hn as <-|..]; [constructor| |done].
    injection Hk as <-. injection Hn as <-. constructor.
  - intros slots [= <-]. simpl. split; [constructor|done].
  - intros slots [= <-]. simpl. split; [constructor|]. split; [constructor|done].
  - intros c [= <-]. by repeat (apply Forall_nil_2 || apply Forall_cons_2).
  - split; [by repeat (apply Forall_nil_2 || apply Forall_cons_2)|constructor].
Qed.

Lemma iog_single_token_witness :
  sumOver (slotTokens offered_state) (fst (firstStates diamond diamond_iog)) = 1 + 1
  ∧ sumOver (slotTokens offered_state) (fst (firstStates diamond diamond_iog))
    = 1 + sumOver (sentTokens offered_state) (snd (firstStates diamond diamond_iog)).
Proof.
  split; [reflexivity|]. destruct diamond_found as [Hf Hin].
  refine (iog_single_token (λ _, EmptyString) elems diamond ∅ 50 diamond_iogs diamond_iog _ _ offered_state
    (λ U, Permutation_refl _) diamond_wellFormed Hf Hin _ _ _ _ offered_reachable _).
  - reflexivity.
  - intros c Hc. assert (c ∈ [5; 3; 1; 0]%nat) as Hl by (change [5; 3; 1; 0]%nat with (elements (channels diamond_iog)); by apply elem_of_elements).
    repeat (apply elem_of_cons in Hl as [->|Hl]; [by vm_compute|]). by apply elem_of_nil in Hl.
  - intros i name a d ar dr _. by do 5 (destruct i as [|i]; [done|]).
  - intros i name l c t e outs Ho. by do 5 (destruct i as [|i]; [done|]).
  - by intros a [= <-].
Defined.

Lemma findAllIOGs_in_order_witness :
  length diamond_iogs = 2%nat ∧ Forall (λ g, inOrder diamond g ∧ entry g ∈ (fst <$> arguments diamond)) diamond_iogs.
Proof. split; [reflexivity|]. apply (findAllIOGs_in_order diamond 50). reflexivity. Defined.

Lemma diamond_iog_in_order : inOrder diamond diamond_iog.
Proof. destruct diamond_found as [Hf Hin]. by destruct (found_in_order _ _ _ _ Hf Hin). Qed.

Lemma findAllIOGsWithEntry_complete_witness :
  ∃ g, g ∈ diamond_iogs ∧ inOrder diamond g ∧ entry g = 0%nat
       ∧ channels g ⊆ channels diamond_iog ∧ units g ⊆ units diamond_iog.
Proof.
  apply (findAllIOGsWithEntry_complete diamond 50 0%nat diamond_iogs diamond_iog).
  - reflexivity.
  - apply wellFormed_distinct; [exact diamond_materialized|apply diamond_wellFormed].
  - apply diamond_iog_in_order.
  - reflexivity.
Defined.

Lemma findAllIOGsWithEntry_ends_witness :
  findAllIOGsWithEntry diamond (weight diamond (length (ops diamond))) 0%nat ≠ Bad NoFuel.
Proof. apply (findAllIOGsWithEntry_ends diamond 0%nat). apply Nat.le_refl. Defined.

(** * A loop *)

(** The token goes round until the condition is true. *)
Definition loop : FuncOp := mkFuncOp [(0%nat, "start"%string)]
  [mkOperation "control_merge0" (ControlMergeOp [0; 5] 1 2);
   mkOperation "buffer0" (BufferOp ONE_SLOT_BREAK_R 1 1 3);
   mkOperation "source0" (SourceOp 6);
   mkOperation "cond_br0" (ConditionalBranchOp 6 3 4 5);
   mkOperation "sink0" (SinkOp 2);
   mkOperation "end0" (EndOp [4])]%nat (λ c, if decide (c = 2 ∨ c = 6)%nat then Some 1 else None).

Lemma loop_wellFormed : wellFormed loop.
Proof.
  split; [check_circuit|check_circuit| |].
  - intros i name k l ins outs H. by do 6 (destruct i as [|i]; [done|]).
  - intros i name a d ar dr H. by do 6 (destruct i as [|i]; [done|]).
Qed.

Definition loop_iog : IOG := firstIOG loop 0%nat.

Lemma loop_iog_in_order : inOrder loop loop_iog.
Proof. apply (found_in_order loop 50 [loop_iog]); [reflexivity|left]. Qed.

Lemma isExitBranch_exits_witness :
  ∃ r, isExitBranch loop 50 loop_iog 3 4 5 = Ok r
       ∧ (r = Some 0 ↔ comesBack (f := loop) (g := loop_iog) 4 3 ∧ ¬ comesBack (f := loop) (g := loop_iog) 5 3)
       ∧ (r = Some 1 ↔ comesBack (f := loop) (g := loop_iog) 5 3 ∧ ¬ comesBack (f := loop) (g := loop_iog) 4 3)
       ∧ (r = None ↔ (comesBack (f := loop) (g := loop_iog) 4 3 ↔ comesBack (f := loop) (g := loop_iog) 5 3)).
Proof.
  apply (isExitBranch_exits loop_wellFormed loop_iog_in_order 3 50 3 "cond_br0" 6 3).
  - intros i o Hi. by do 6 (destruct i as [|i]; [injection Hi as <-; simpl; lia|]).
  - reflexivity.
  - apply (bool_decide_unpack (3%nat ∈ units loop_iog)). reflexivity.
  - change (size (units loop_iog)) with 4%nat. lia.
Defined.

Lemma loop_exit : isExitBranch loop 50 loop_iog 3 4 5 = Ok (Some 1).
Proof. reflexivity. Qed.

(** * Graphs with two entries, graphs with a store *)

(** The single token property fails: its slots do not hold one token more than its
    forks have sent, though every argument has been offered one token. *)
Definition breaksSingleToken (f : FuncOp) : Prop :=
  ∃ iogs g slots forks s,
    wellFormed f ∧ findAllIOGs f 50 = Ok iogs ∧ g ∈ iogs
    ∧ annotateIOGSingleToken (replaceSinks (λ _, EmptyString) iogs f) elems g = Ok (slots, forks)
    ∧ reachable (replaceSinks (λ _, EmptyString) iogs f) ∅ s
    ∧ (∀ c a, (c, a) ∈ arguments f → slotTokens s (EntrySlot a) + tokens s (ChannelLambda c) = 1)
    ∧ sumOver (slotTokens s) slots ≠ 1 + sumOver (sentTokens s) forks.

(** A mux between two arguments. *)
Definition choice : FuncOp := mkFuncOp [(0, "sel"); (1, "x"); (2, "y")]%nat
  [mkOperation "mux0" (MuxOp 0 [1; 2] 3); mkOperation "end0" (EndOp [3])]%nat (λ _, Some 32).

(** The second argument goes through while the first one waits. *)
Definition choice_events : Events := λ x,
  match x with
  | ChannelLambda 0 => Some 1%nat
  | ChannelLambda 2 | ChannelLambda 3 | InternalLambda 1 0 => Some 9%nat
  | _ => None
  end.
Definition choice_state : State := λ x,
  match x with
  | FlowInternalState n =>
      if decide (n = EntrySlot "x") then [7%nat] else if decide (n = BufferSlotFull endSlotNamer) then [9%nat] else []
  | _ => option_list (choice_events x)
  end.

Definition oneStep (f : FuncOp) (ev : Events) (s : State) : Prop :=
  (∀ c, records ev initial s (ChannelLambda c)) ∧ (∀ i k, records ev initial s (InternalLambda i k))
  ∧ Forall (λ ca, ∃ offered, slotAt initial s (EntrySlot (snd ca)) offered (chan ev (fst ca))) (arguments f)
  ∧ ∀ i o, ops f !! i = Some o → opStep f ev initial s i o.

Lemma oneStep_reachable f ev s : oneStep f ev s → reachable f ∅ s.
Proof.
  intros (Hc & Hi & Ha & Ho). apply (reach_step _ _ initial); [apply reach_initial|]. exists ev.
  split; [by intros c n v Hn|]. split; [done|]. split; [done|]. split; [|done].
  intros c a Hin. by apply (proj1 (Forall_elem _ _) Ha (c, a)).
Qed.

Lemma choice_breaks : breaksSingleToken choice.
Proof.
  exists (getOk [] (findAllIOGs choice 50)), (firstIOG choice 1%nat).
  exists (fst (firstStates choice (firstIOG choice 1%nat))), (snd (firstStates choice (firstIOG choice 1%nat))), choice_state.
  split; [split; [check_circuit|check_circuit| |]|].
  - intros i name k l ins outs H. by do 2 (destruct i as [|i]; [done|]).
  - intros i name a d ar dr H. by do 2 (destruct i as [|i]; [done|]).
  - split; [reflexivity|]. split; [right; left|]. split; [reflexivity|]. split; [|split; [|done]].
    + apply (oneStep_reachable _ choice_events). split; [done|]. split; [done|]. split.
      * repeat apply Forall_cons_2; [exists (Some 1%nat)|exists (Some 7%nat)|exists (Some 9%nat)|apply Forall_nil_2]; constructor.
      * intros i o Hi. destruct i as [|[|i]]; [injection Hi as <-..|done]; unfold opStep; simpl.
        -- split; [done|]. split; [intros k [= <-]; simpl; lia|]. intros k c Hk. destruct k as [|[|k]]; [by injection Hk as <-..|done].
        -- split; [by repeat (apply Forall_nil_2 || apply Forall_cons_2)|constructor].
    + intros c a Ha. repeat (apply elem_of_cons in Ha as [[= -> ->]|Ha]; [done|]). by apply elem_of_nil in Ha.
Qed.

(** Two arguments are stored. *)
Definition storing : FuncOp := mkFuncOp [(0, "addr"); (1, "data")]%nat
  [mkOperation "store0" (StoreOp 0 1 2 3); mkOperation "mem_controller0" (MemoryControllerOp [] [2; 3] [4]);
   mkOperation "end0" (EndOp [4])]%nat (λ c, if decide (c = 4%nat) then None else Some 32).

Definition storing_events : Events := λ x,
  match x with
  | ChannelLambda 0 | ChannelLambda 1 | ChannelLambda 2 | ChannelLambda 3 => Some 5%nat
  | _ => None
  end.
Definition storing_state : State := λ x,
  match x with FlowInternalState _ => [] | _ => option_list (storing_events x) end.

Lemma storing_breaks : breaksSingleToken storing.
Proof.
  exists (getOk [] (findAllIOGs storing 50)), (firstIOG storing 0%nat).
  exists (fst (firstStates storing (firstIOG storing 0%nat))), (snd (firstStates storing (firstIOG storing 0%nat))), storing_state.
  split; [split; [check_circuit|check_circuit| |]|].
  - intros i name k l ins outs H. by do 3 (destruct i as [|i]; [done|]).
  - intros i name a d ar dr H. by do 3 (destruct i as [|i]; [done|]).
  - split; [reflexivity|]. split; [left|]. split; [reflexivity|]. split; [|split; [|done]].
    + apply (oneStep_reachable _ storing_events). split; [done|]. split; [done|]. split.
      * repeat apply Forall_cons_2; [exists (Some 5%nat)..|apply Forall_nil_2]; constructor.
      * intros i o Hi. destruct i as [|[|[|i]]]; [injection Hi as <-..|done]; unfold opStep; simpl; [done|done|].
        split; [by repeat (apply Forall_nil_2 || apply Forall_cons_2)|constructor].
    + intros c a Ha. repeat (apply elem_of_cons in Ha as [[= -> ->]|Ha]; [done|]). by apply elem_of_nil in Ha.
Qed.

(** A select where the paths meet: its condition and its true operand come first. *)
Definition selecting : FuncOp := mkFuncOp [(0, "a")]%nat
  [mkOperation "fork0" (ForkOp 0 [1; 2; 6]);
   mkOperation "buffer0" (BufferOp ONE_SLOT_BREAK_R 1 1 3);
   mkOperation "buffer1" (BufferOp FIFO_BREAK_NONE 2 2 4);
   mkOperation "select0" (ArithOp Selecting None [6; 3; 4] [5]);
   mkOperation "end0" (EndOp [5])]%nat (λ _, Some 32).

Definition selecting_events : Events := λ x,
  match x with
  | ChannelLambda 1 | ChannelLambda 3 | ChannelLambda 5 | ChannelLambda 6
  | InternalLambda 1 0 | InternalLambda 4 0 => Some 7%nat
  | _ => None
  end.
Definition selecting_state : State := λ x,
  match x with
  | FlowInternalState n =>
      if decide (n = EntrySlot "a" ∨ n = diamond_sent "outs_0" ∨ n = diamond_sent "outs_2" ∨ n = BufferSlotFull endSlotNamer)
      then [7%nat] else []
  | _ => option_list (selecting_events x)
  end.

Lemma selecting_reachable : reachable selecting ∅ selecting_state.
Proof.
  apply (oneStep_reachable _ selecting_events). split; [done|]. split; [done|]. split.
  { repeat apply Forall_cons_2; [exists (Some 7%nat)|apply Forall_nil_2]; constructor. }
  intros i o Hi. destruct i as [|[|[|[|[|i]]]]]; [injection Hi as <-..|done]; unfold opStep; simpl.
  - intros k c n Hk Hn. destruct k as [|[|[|k]]]; [injection Hk as <-; injection Hn as <-..|done]; constructor.
  - intros slots [= <-]. simpl. split; [constructor|done].
  - intros slots [= <-]. simpl. split; [constructor|]. split; [constructor|done].
  - intros c t e r [= <- <- <-] [= <-]. split; [done|]. split; [|done]. intros v [= <-]. done.
  - split; [by repeat (apply Forall_nil_2 || apply Forall_cons_2)|constructor].
Qed.

(** The pass annotates that both operands have as many tokens as the condition: the
    false operand does not have its token yet. *)
Lemma selecting_breaks_equation :
  reachable selecting ∅ selecting_state
  ∧ match annotateReconvergentPathFlow id selecting ∅ with
    | Ok (Some es) => map (eval (flow selecting_state)) es = [0; -1]
    | _ => False
    end.
Proof. split; [exact selecting_reachable|]. vm_compute. reflexivity. Qed.

(** The graph through the false operand does not come from the condition. *)
Lemma selecting_breaks : breaksSingleToken selecting.
Proof.
  pose (g := default (mkIOG ∅ ∅ 0%nat) (getOk [] (findAllIOGs selecting 50) !! 1%nat)).
  exists (getOk [] (findAllIOGs selecting 50)), g.
  exists (fst (firstStates selecting g)), (snd (firstStates selecting g)), selecting_state.
  split; [split; [check_circuit|check_circuit| |]|].
  - intros i name k l ins outs H.
    do 5 (destruct i as [|i]; [simpl in H; try done; by injection H as _ <- <- <- <-|]). done.
  - intros i name a d ar dr H. by do 5 (destruct i as [|i]; [done|]).
  - split; [reflexivity|]. split; [right; left|]. split; [reflexivity|].
    split; [exact selecting_reachable|]. split; [|done]. intros c a [= -> ->]%list_elem_of_singleton. done.
Qed.

(** An in-order graph need not have a single entry, and tokens can leave it.  For
    the graph found from an argument that meets another argument in a mux the single
    token property fails when the other argument goes first, and for a graph that ends
    in a store it fails once the store is done. *)
Theorem single_token_property_can_fail : breaksSingleToken choice ∧ breaksSingleToken storing.
Proof. split; [exact choice_breaks|exact storing_breaks]. Qed.
