(* ===== verification/StdString.v ===== *)
(** Strings and ordered sets of strings, as the program uses [std::string] and
    [std::set<std::string>]: a set is the list of its elements in increasing
    lexicographic order, the order in which the program iterates over it. *)

From stdpp Require Export strings gmap.
From Stdlib Require Import OrderedTypeEx Sorted.
From S2P Require Import Prelude.

(** * std::set<std::string> *)

Definition string_lt (x y : string) : Prop := String.compare x y = Lt.

(** [std::set::insert] *)
Fixpoint set_insert (x : string) (s : list string) : list string :=
  match s with
  | [] => [x]
  | y :: s' =>
      match String.compare x y with
      | Lt => x :: s
      | Eq => s
      | Gt => y :: set_insert x s'
      end
  end.

Definition set_mem (x : string) (s : list string) : bool := existsb (String.eqb x) s.

(** The invariant of a set. *)
Definition ordered (s : list string) : Prop := StronglySorted string_lt s.

Lemma string_lt_trans x y z : string_lt x y → string_lt y z → string_lt x z.
Proof.
  unfold string_lt. change String.compare with String_as_OT.cmp.
  rewrite !String_as_OT.cmp_lt. apply String_as_OT.lt_trans.
Qed.

Lemma string_lt_irrefl x : ¬ string_lt x x.
Proof.
  unfold string_lt. intros H. pose proof (String.compare_antisym x x) as Ha.
  rewrite H in Ha. discriminate Ha.
Qed.

Lemma string_gt_lt x y : String.compare x y = Gt → string_lt y x.
Proof. unfold string_lt. intros H. by rewrite String.compare_antisym, H. Qed.

Lemma set_insert_elem x y s : y ∈ set_insert x s ↔ y = x ∨ y ∈ s.
Proof.
  induction s as [|z s IH]; simpl; rewrite ?elem_of_cons; [naive_solver|].
  destruct (String.compare x z) eqn:Hc; rewrite ?elem_of_cons, ?IH; [|naive_solver..].
  apply String.compare_eq_iff in Hc as ->. naive_solver.
Qed.

Lemma set_insert_ordered x s : ordered s → ordered (set_insert x s).
Proof.
  unfold ordered. induction 1 as [|y s Hs IH Hy]; simpl; [repeat constructor|].
  destruct (String.compare x y) eqn:Hc.
  - by constructor.
  - constructor; [by constructor|]. constructor; [done|].
    rewrite Forall_elem in Hy. apply Forall_elem. intros z Hz. eapply string_lt_trans; [exact Hc|by apply Hy].
  - constructor; [done|]. apply Forall_elem. intros z [->|Hz]%set_insert_elem.
    + by apply string_gt_lt.
    + rewrite Forall_elem in Hy. by apply Hy.
Qed.

Lemma ordered_NoDup s : ordered s → NoDup s.
Proof.
  induction 1 as [|y s Hs IH Hy]; constructor; [|done].
  intros Hin. rewrite Forall_elem in Hy. by eapply string_lt_irrefl, Hy.
Qed.

Lemma set_mem_spec x s : set_mem x s = true ↔ x ∈ s.
Proof.
  unfold set_mem. rewrite existsb_exists. setoid_rewrite String.eqb_eq.
  setoid_rewrite <-list_elem_of_In. naive_solver.
Qed.

#[export] Hint Resolve set_insert_ordered ordered_NoDup : dyn.
