(* ===== verification/SimplePaths.v ===== *)
(** Depth-first enumeration of the paths of a graph that visit no node twice, the
    reference the searches of the program are compared with. *)

From stdpp Require Import list sets gmap relations.
From S2P Require Import Prelude.

(** A loop that appends lists. *)
Lemma foldM_extend {X Y} (h : list Y → X → res (list Y)) (k : X → list Y) l :
  (∀ acc x, x ∈ l → h acc x = Ok (acc ++ k x)) → ∀ acc, foldM h acc l = Ok (acc ++ concat (map k l)).
Proof.
  induction l as [|x l IH]; intros Hh acc; simpl; [by rewrite app_nil_r|].
  rewrite Hh by left. simpl. rewrite IH by (intros; apply Hh; by right). by rewrite app_assoc.
Qed.

Section Paths.
Context {A : Type} `{EqDecision A} (next : A → list A).

(** The nodes of the list follow one another from [x] on. *)
Fixpoint walk (x : A) (s : list A) : Prop :=
  match s with [] => True | y :: s => y ∈ next x ∧ walk y s end.

(** A path between two nodes that visits no node twice. *)
Definition simplePath (from to : A) (p : list A) : Prop :=
  ∃ s, p = from :: s ∧ walk from s ∧ NoDup p ∧ list.last p = Some to.

(** The extensions of a path [p] that ends in [x]. *)
Fixpoint extensions (to : A) (n : nat) (p : list A) (x : A) : list (list A) :=
  match n with
  | O => []
  | S n =>
      if decide (x = to) then [p]
      else concat (map (λ y, if decide (y ∈ p) then [] else extensions to n (p ++ [y]) y) (next x))
  end.

Lemma walk_app x s1 y s2 : walk x (s1 ++ y :: s2) ↔ walk x (s1 ++ [y]) ∧ walk y s2.
Proof. revert x. induction s1 as [|z s1 IH]; intros x; simpl; [naive_solver|]. rewrite IH. naive_solver. Qed.

Lemma in_concat_map {B C} (h : B → list C) l c : c ∈ concat (map h l) ↔ ∃ b, b ∈ l ∧ c ∈ h b.
Proof. rewrite list_elem_of_In, in_concat. setoid_rewrite <-list_elem_of_In. setoid_rewrite list_elem_of_fmap. naive_solver. Qed.

Lemma last_in (l : list A) x : list.last l = Some x → x ∈ l.
Proof. intros H. apply last_Some in H as [l' ->]. apply elem_of_app. right. left. Qed.

Section Spec.
Context (to : A) (all : list A) (Hall : ∀ x y, x ∈ all → y ∈ next x → y ∈ all).

Lemma extensions_spec n : ∀ p x q, NoDup p → (∀ y, y ∈ p → y ∈ all) → x ∈ p → (length all < n + length p)%nat →
  q ∈ extensions to n p x ↔ ∃ s, q = p ++ s ∧ walk x s ∧ NoDup (p ++ s) ∧ list.last (x :: s) = Some to.
Proof.
  induction n as [|n IH]; intros p x q Hp Hin Hx Hn.
  { exfalso. pose proof (submseteq_length p all (NoDup_submseteq p all Hp Hin)). lia. }
  simpl. destruct (decide (x = to)) as [->|Hne].
  - rewrite list_elem_of_singleton. split.
    + intros ->. exists []. rewrite app_nil_r. done.
    + intros ([|y s] & -> & _ & Hnd & Hl); [by rewrite app_nil_r|]. exfalso.
      apply list.NoDup_app in Hnd as (_ & Hd & _). apply (Hd to Hx).
      change (list.last (y :: s) = Some to) in Hl. by apply last_in.
  - rewrite in_concat_map. split.
    + intros (y & Hy & Hq). destruct (decide (y ∈ p)) as [|Hyp]; [by apply elem_of_nil in Hq|].
      apply IH in Hq as (s & -> & Hw & Hnd & Hl).
      * exists (y :: s). rewrite <-app_assoc in *. done.
      * apply list.NoDup_app. split; [done|]. split; [|apply NoDup_singleton]. intros z Hz ->%list_elem_of_singleton. done.
      * intros z [Hz| ->%list_elem_of_singleton]%elem_of_app; [by apply Hin|]. by eapply Hall; [apply Hin|].
      * apply elem_of_app. right. left.
      * rewrite length_app. simpl. lia.
    + intros (s & -> & Hw & Hnd & Hl). destruct s as [|y s]; [by injection Hl|]. destruct Hw as [Hy Hw].
      assert (y ∉ p) as Hyp by (apply list.NoDup_app in Hnd as (_ & Hd & _); intros Hyp; apply (Hd y Hyp); left).
      exists y. split; [done|]. rewrite decide_False by done. apply IH.
      * apply list.NoDup_app. split; [done|]. split; [|apply NoDup_singleton]. intros z Hz ->%list_elem_of_singleton. done.
      * intros z [Hz| ->%list_elem_of_singleton]%elem_of_app; [by apply Hin|]. by eapply Hall; [apply Hin|].
      * apply elem_of_app. right. left.
      * rewrite length_app. simpl. lia.
      * exists s. rewrite <-app_assoc. done.
Qed.

(** Every extension goes on from the path. *)
Lemma extensions_prefix n : ∀ p x q, q ∈ extensions to n p x → ∃ s, q = p ++ s.
Proof.
  induction n as [|n IH]; intros p x q Hq; [by apply elem_of_nil in Hq|]. simpl in Hq.
  destruct (decide (x = to)); [apply list_elem_of_singleton in Hq as ->; exists []; by rewrite app_nil_r|].
  apply in_concat_map in Hq as (y & _ & Hq). destruct (decide (y ∈ p)); [by apply elem_of_nil in Hq|].
  apply IH in Hq as [s ->]. exists (y :: s). by rewrite <-app_assoc.
Qed.

(** No path is found twice. *)
Lemma extensions_NoDup n : (∀ x, NoDup (next x)) → ∀ p x, NoDup (extensions to n p x).
Proof.
  intros Hn. induction n as [|n IH]; intros p x; simpl; [constructor|].
  destruct (decide (x = to)); [apply NoDup_singleton|]. specialize (Hn x). revert Hn.
  induction (next x) as [|y l IHl]; intros Hl; simpl; [constructor|]. apply list.NoDup_cons in Hl as [Hy Hl].
  apply list.NoDup_app. split; [destruct (decide (y ∈ p)); [constructor|apply IH]|]. split; [|by apply IHl].
  intros q Hq Hin. destruct (decide (y ∈ p)); [by apply elem_of_nil in Hq|].
  apply extensions_prefix in Hq as [s ->]. apply in_concat_map in Hin as (z & Hz & Hq).
  destruct (decide (z ∈ p)); [by apply elem_of_nil in Hq|]. apply extensions_prefix in Hq as [s' Hs].
  rewrite <-!app_assoc in Hs. apply app_inv_head in Hs. injection Hs as -> _. done.
Qed.

(** All paths from a node. *)
Lemma extensions_simple n from p : from ∈ all → (length all ≤ n)%nat →
  p ∈ extensions to n [from] from ↔ simplePath from to p.
Proof.
  intros Hf Hn. rewrite extensions_spec; [|apply NoDup_singleton|by intros y ->%list_elem_of_singleton|left|simpl; lia].
  unfold simplePath. naive_solver.
Qed.

End Spec.

End Paths.
