(* ===== verification/CircuitIR.v ===== *)
(** Handshake circuits as the analyses of control flow see them: operations with
    their kind, their operands and results, and the basic block they are tagged
    with.  [HandshakeIR] has the operations in more detail, without blocks. *)

From stdpp Require Import strings gmap.
From S2P Require Import Prelude.

Notation OpId := nat.
Notation Value := nat.

(** The operations CFG.cpp distinguishes; [GenericOp] stands for those that its last
    case lists (additions, comparisons of no interest elsewhere and the like), [OtherOp] for
    the ones it does not know. *)
Inductive OpKind :=
| ForkOp | LazyForkOp | BranchOp | ConditionalBranchOp
| MergeOp | ControlMergeOp | MuxOp | FirstOp | InitOp
| BufferOp (isBypassDV : bool) (latencyDV : Z)
| ExtUIOp | ExtSIOp | TruncIOp | NotIOp | CmpIOp | CmpFOp | SelectOp | GenericOp
| LoadOp | StoreOp | MemoryControllerOp | LSQOp | SinkOp | RAMOp
| OtherOp.

#[export] Instance OpKind_eq_dec : EqDecision OpKind.
Proof. solve_decision. Defined.

(** [opName] is the unique name the name analysis gives; [logicBB] the attribute
    [handshake.bb]. *)
Record Operation := mkOperation {
  opName : string; kind : OpKind; operands : list Value; results : list Value; logicBB : option nat }.

Record FuncOp := mkFuncOp { arguments : list Value; ops : list Operation }.

Section Uses.
Context (f : FuncOp).

Definition opAt (i : OpId) : res Operation := of_option NullDeref (ops f !! i).

(** [v.getDefiningOp()]; [None] for an argument. *)
Definition getDefiningOp (v : Value) : option OpId := fst <$> list_find (λ o, v ∈ results o) (ops f).

(** The owners of the uses of a value, one for every use. *)
Definition getUsers (v : Value) : list OpId :=
  concat (imap (λ i o, replicate (length (filter (λ w, w = v) (operands o))) i) (ops f)).

(** [op->getUsers()]: those of all its results. *)
Definition opUsers (o : Operation) : list OpId := concat (map getUsers (results o)).

End Uses.

(** [isa<MemoryOpInterface>] and [isa<MergeLikeOpInterface>]. *)
Definition isMemoryOp (k : OpKind) : bool := match k with MemoryControllerOp | LSQOp => true | _ => false end.
Definition isMergeLike (k : OpKind) : bool :=
  match k with MergeOp | ControlMergeOp | MuxOp | FirstOp => true | _ => false end.

(** * Uses *)

Lemma getUsers_elem f v i : i ∈ getUsers f v ↔ ∃ o, ops f !! i = Some o ∧ v ∈ operands o.
Proof.
  unfold getUsers. rewrite list_elem_of_In, in_concat. setoid_rewrite <-list_elem_of_In. split.
  - intros (l & Hl & Hi). apply list_elem_of_lookup in Hl as [k Hk]. rewrite list_lookup_imap in Hk.
    apply fmap_Some in Hk as (o & Ho & ->). apply elem_of_replicate in Hi as [-> Hn]. exists o. split; [done|].
    destruct (filter (λ w, w = v) (operands o)) as [|w l] eqn:E; [done|].
    assert (w ∈ filter (λ w, w = v) (operands o)) as Hw by (rewrite E; left). by apply list_elem_of_filter in Hw as [-> ?].
  - intros (o & Ho & Hv). exists (replicate (length (filter (λ w, w = v) (operands o))) i). split.
    + apply list_elem_of_lookup. exists i. by rewrite list_lookup_imap, Ho.
    + apply elem_of_replicate. split; [done|]. intros Hl. apply nil_length_inv in Hl.
      assert (v ∈ filter (λ w, w = v) (operands o)) as Hw by (by apply list_elem_of_filter). rewrite Hl in Hw. by apply elem_of_nil in Hw.
Qed.

Lemma opUsers_elem f o i : i ∈ opUsers f o ↔ ∃ v, v ∈ results o ∧ i ∈ getUsers f v.
Proof.
  unfold opUsers. rewrite list_elem_of_In, in_concat. setoid_rewrite <-list_elem_of_In. setoid_rewrite list_elem_of_fmap. naive_solver.
Qed.
