(* ===== verification/CFG.v ===== *)
(** The control flow graph behind a handshake circuit (CFG.h, CFG.cpp): the blocks
    of operations and channels, backedges, paths between blocks, the control values
    of blocks, and dependence along a path of blocks. *)

From stdpp Require Import strings gmap.
From S2P Require Import CircuitIR Prelude.

Definition ENTRY_BB : nat := 0.

(** * Blocks of operations *)

(** [LogicBBs]: the blocks in the order in which they are first met. *)
Record LogicBBs := mkLogicBBs { blocks : list (nat * list OpId); outOfBlocks : list OpId }.

(** [MapVector::operator[]] followed by a [push_back]. *)
Fixpoint pushBlock (bb : nat) (op : OpId) (l : list (nat * list OpId)) : list (nat * list OpId) :=
  match l with
  | [] => [(bb, [op])]
  | (b, ops) :: l => if decide (b = bb) then (b, ops ++ [op]) :: l else (b, ops) :: pushBlock bb op l
  end.

Definition getLogicBBs (f : FuncOp) : LogicBBs :=
  foldl (λ l '(i, o),
    match logicBB o with
    | Some bb => mkLogicBBs (pushBlock bb i (blocks l)) (outOfBlocks l)
    | None => mkLogicBBs (blocks l) (outOfBlocks l ++ [i])
    end) (mkLogicBBs [] []) (imap pair (ops f)).

Definition withBB (bb : option nat) (o : Operation) : Operation :=
  mkOperation (opName o) (kind o) (operands o) (results o) bb.

(** An [int] becomes an unsigned attribute of 32 bits. *)
Definition setBB (o : Operation) (bb : Z) : Operation := withBB (Some (Z.to_nat (wrapU 32 bb))) o.

Definition inheritBB (srcOp dstOp : Operation) : bool * Operation :=
  match logicBB srcOp with
  | Some bb => (true, withBB (Some bb) dstOp)
  | None => (false, dstOp)
  end.

Section Circuit.
Context (f : FuncOp).

Definition inheritBBFromValue (v : Value) (dstOp : Operation) : res (bool * Operation) :=
  match getDefiningOp f v with
  | Some d => let* defOp := opAt f d in Ok (inheritBB defOp dstOp)
  | None => Ok (true, withBB (Some ENTRY_BB) dstOp)
  end.

Definition getLogicBB (op : OpId) : res (option nat) := let* o := opAt f op in Ok (logicBB o).

Fixpoint areOpsInSameBlockFrom (uniqueBB : option nat) (l : list OpId) : res bool :=
  match l with
  | [] => Ok true
  | op :: l =>
      let* bb := getLogicBB op in
      match bb, uniqueBB with
      | None, _ => Ok false
      | Some b, None => areOpsInSameBlockFrom (Some b) l
      | Some b, Some u => if decide (u = b) then areOpsInSameBlockFrom uniqueBB l else Ok false
      end
  end.
Definition areOpsInSameBlock : list OpId → res bool := areOpsInSameBlockFrom None.

(** * The blocks near a channel *)

(** The loops of the two searches below over the neighbours of an operation: all
    must lead to the same block.  [unique] is the block of those before, if any. *)
Fixpoint allToBlock (search : option OpId → gset OpId → res (option nat * gset OpId)) (unique : option nat)
    (l : list (option OpId)) (visited : gset OpId) : res (option nat * gset OpId) :=
  match l with
  | [] => Ok (unique, visited)
  | n :: l =>
      let* (b, visited) := search n visited in
      match b, unique with
      | None, _ => Ok (None, visited)
      | Some b, None => allToBlock search (Some b) l visited
      | Some b, Some u => if decide (u = b) then allToBlock search unique l visited else Ok (None, visited)
      end
  end.

(** The block of an operation, or the one all [neighbours] lead to.  A null operation
    has none. *)
Fixpoint searchBlock (neighbours : Operation → list (option OpId)) (fuel : nat) (op : option OpId) (visited : gset OpId)
    : res (option nat * gset OpId) :=
  match fuel with
  | O => Bad NoFuel
  | S fuel =>
      match op with
      | None => Ok (None, visited)
      | Some op =>
          let* o := opAt f op in
          match logicBB o with
          | Some bb => Ok (Some bb, visited)
          | None =>
              if bool_decide (op ∈ visited) then Ok (None, visited)
              else allToBlock (searchBlock neighbours fuel) None (neighbours o) ({[op]} ∪ visited)
          end
      end
  end.

Definition backtrackToBlock : nat → option OpId → gset OpId → res (option nat * gset OpId) :=
  searchBlock (λ o, map (getDefiningOp f) (operands o)).
Definition followToBlock : nat → option OpId → gset OpId → res (option nat * gset OpId) :=
  searchBlock (λ o, map Some (opUsers f o)).

Record BBEndpoints := mkBBEndpoints { srcBB : nat; dstBB : nat }.

Definition getBBEndpoints (fuel : nat) (v : Value) (user : OpId) : res (option BBEndpoints) :=
  let* _ := assert_ (bool_decide (user ∈ getUsers f v)) in
  let* (src, _) := backtrackToBlock fuel (getDefiningOp f v) ∅ in
  match src with
  | None => Ok None
  | Some src =>
      let* (dst, _) := followToBlock fuel (Some user) ∅ in
      Ok (mkBBEndpoints src <$> dst)
  end.

(** * Backedges *)

Definition canBacktrackToLoopSourceThrough (o : Operation) : bool :=
  match kind o with ForkOp | ExtUIOp | ExtSIOp | TruncIOp => true | _ => false end.
Definition canFollowToMergeThrough (o : Operation) (ftd : bool) : bool :=
  match kind o with ForkOp | ExtUIOp | ExtSIOp | TruncIOp => true | NotIOp => ftd | _ => false end.

Fixpoint backtrackToLoopSource (fuel : nat) (ftd : bool) (op : option OpId) : res (option OpId) :=
  match fuel with
  | O => Bad NoFuel
  | S fuel =>
      match op with
      | None => Ok None
      | Some op =>
          let* o := opAt f op in
          if (match kind o with BranchOp | ConditionalBranchOp => true | _ => false end) then Ok (Some op)
          else if (match kind o with CmpIOp | CmpFOp => ftd | _ => false end) then Ok (Some op)
          else if canBacktrackToLoopSourceThrough o then
            let* v := at_ (operands o) 0 in backtrackToLoopSource fuel ftd (getDefiningOp f v)
          else Ok None
      end
  end.

(** The merges the users lead to; [None] when one leads to none. *)
Fixpoint allToMerge (search : OpId → res (option OpId)) (l : list OpId) : res (option (list OpId)) :=
  match l with
  | [] => Ok (Some [])
  | user :: l =>
      let* m := search user in
      match m with
      | None => Ok None
      | Some m => let* ms := allToMerge search l in Ok (cons m <$> ms)
      end
  end.

Fixpoint followToMerge (fuel : nat) (ftd : bool) (op : OpId) : res (option OpId) :=
  match fuel with
  | O => Bad NoFuel
  | S fuel =>
      let* o := opAt f op in
      if (match kind o with InitOp => true | k => isMergeLike k end) then Ok (Some op)
      else if canFollowToMergeThrough o ftd then
        let* mergeOps := allToMerge (followToMerge fuel ftd) (opUsers f o) in
        match mergeOps with
        | None | Some [] => Ok None
        | Some (m :: _ as mergeOps) => let* same := areOpsInSameBlock mergeOps in Ok (if same then Some m else None)
        end
      else Ok None
  end.

(** Whether the value is a backedge, and the endpoints that are written to the
    caller's variable. *)
Definition isBackedge (fuel : nat) (v : Value) (user : OpId) (ftd : bool) : res (bool * option BBEndpoints) :=
  let* bbs := getBBEndpoints fuel v user in
  match bbs with
  | None => Ok (false, None)
  | Some e =>
      if (dstBB e <? srcBB e)%nat then Ok (true, bbs)
      else if (srcBB e <? dstBB e)%nat then Ok (false, bbs)
      else
        let* srcOp := backtrackToLoopSource fuel ftd (getDefiningOp f v) in
        match srcOp with
        | None => Ok (false, bbs)
        | Some srcOp =>
            let* mergeOp := followToMerge fuel ftd user in
            match mergeOp with
            | None => Ok (false, bbs)
            | Some mergeOp =>
                let* s := getLogicBB srcOp in
                let* m := getLogicBB mergeOp in
                Ok (match s, m with
                    | Some s, Some m => bool_decide (s = m) && bool_decide (s = srcBB e)
                    | _, _ => false
                    end, bbs)
            end
        end
  end.

(** The single user of a value. *)
Definition singleUser (v : Value) : res OpId :=
  match getUsers f v with [u] => Ok u | _ => Bad AssertFailed end.

Definition isBackedgeOf (fuel : nat) (v : Value) (ftd : bool) : res (bool * option BBEndpoints) :=
  let* user := singleUser v in isBackedge fuel v user ftd.

End Circuit.
