(* ===== verification/HandshakeCFG.v ===== *)
(** The implicit control flow graph of a circuit (the class HandshakeCFG, the arcs
    between blocks, and isChannelOnCycle of CFG.cpp). *)

From stdpp Require Import strings gmap.
From S2P Require Import CircuitIR CFG Prelude.

(** * Arcs between blocks *)

(** An operand of an operation: [OpOperand]. *)
Notation OpOperand := (nat * nat)%type.

Record BBArc := mkBBArc { arcSrc : option nat; arcDst : option nat; edges : gset OpOperand }.

(** An edge joins the first arc from the same block, or starts an arc. *)
Fixpoint addEdgeToArcs (src dst : option nat) (e : OpOperand) (arcs : list BBArc) : list BBArc :=
  match arcs with
  | [] => [mkBBArc src dst {[e]}]
  | a :: arcs =>
      if decide (arcSrc a = src) then mkBBArc (arcSrc a) (arcDst a) ({[e]} ∪ edges a) :: arcs
      else a :: addEdgeToArcs src dst e arcs
  end.

Section Circuit.
Context (f : FuncOp).

Definition getCFGEdgeEndpoints (owner : OpId) (v : Value) : res (option nat * option nat) :=
  let* src := match getDefiningOp f v with None => Ok None | Some d => getLogicBB f d end in
  let* dst := getLogicBB f owner in
  Ok (src, dst).

(** The arcs that lead to each block. *)
Notation BBtoArcsMap := (gmap nat (list BBArc)).

Definition addEdgeToMap (fuel : nat) (m : BBtoArcsMap) (e : OpOperand * Value) : res BBtoArcsMap :=
  let '((owner, index), v) := e in
  let* (src, dst) := getCFGEdgeEndpoints owner v in
  match dst with
  | None => Ok m
  | Some bb =>
      let* (backedge, _) := isBackedge f fuel v owner false in
      if backedge || negb (bool_decide (src = dst)) then
        Ok (<[bb := addEdgeToArcs src dst (owner, index) (default [] (m !! bb))]> m)
      else Ok m
  end.

(** All operands, in the order of the operations. *)
Definition allOperands : list (OpOperand * Value) :=
  concat (imap (λ i o, imap (λ k v, ((i, k), v)) (operands o)) (ops f)).

Definition getBBPredecessorArcs (fuel : nat) : res BBtoArcsMap := foldM (addEdgeToMap fuel) ∅ allOperands.

(** * The graph *)

Definition cannotBelongToCFG (o : Operation) : bool :=
  match kind o with SinkOp | RAMOp => true | k => isMemoryOp k end.

Record HandshakeCFG := mkHandshakeCFG { bbs : gset nat; successors : gmap nat (gset nat) }.

Definition addSuccessor (src dst : nat) (g : HandshakeCFG) : HandshakeCFG :=
  mkHandshakeCFG ({[dst]} ∪ bbs g) (<[src := {[dst]} ∪ default ∅ (successors g !! src)]> (successors g)).

Definition addChannel (fuel : nat) (src : nat) (v : Value) (g : HandshakeCFG) (user : OpId) : res HandshakeCFG :=
  let* u := opAt f user in
  if cannotBelongToCFG u then Ok g
  else
    let* dst := of_option AssertFailed (logicBB u) in
    if negb (bool_decide (src = dst)) then Ok (addSuccessor src dst g)
    else
      let* (backedge, _) := isBackedge f fuel v user false in
      Ok (if backedge then addSuccessor src dst g else g).

Definition addOperation (fuel : nat) (g : HandshakeCFG) (o : Operation) : res HandshakeCFG :=
  if cannotBelongToCFG o then Ok g
  else
    let* src := of_option AssertFailed (logicBB o) in
    foldM (λ g v, foldM (addChannel fuel src v) g (getUsers f v))
      (mkHandshakeCFG ({[src]} ∪ bbs g) (successors g)) (results o).

Definition HandshakeCFG_new (fuel : nat) : res HandshakeCFG :=
  foldM (addOperation fuel) (mkHandshakeCFG ∅ ∅) (ops f).

(** * Paths between blocks *)

Notation CFGPath := (list nat).

(** [successors] is a [DenseMap], and reading it with [[]] inserts the key that is
    missing: [moves] tells whether the map moves its entries to make room for it.  The
    blocks to visit are read from the map while the loop runs. *)
Definition successorsOf (moves : gmap nat (gset nat) → nat → bool) (iterating : bool) (bb : nat) (g : HandshakeCFG)
    : res (gset nat * HandshakeCFG) :=
  match successors g !! bb with
  | Some blocks => Ok (blocks, g)
  | None =>
      if iterating && moves (successors g) bb then Bad UseAfterErase
      else Ok (∅, mkHandshakeCFG (bbs g) (<[bb := ∅]> (successors g)))
  end.

(** [order] is the order in which a set of successors is visited.  A call for a path of
    more than one block is made from a loop over the successors of the block before. *)
Fixpoint findPathsTo (moves : gmap nat (gset nat) → nat → bool) (order : gset nat → list nat) (fuel : nat)
    (pathSoFar : CFGPath) (to : nat) (state : HandshakeCFG * list CFGPath) : res (HandshakeCFG * list CFGPath) :=
  match fuel with
  | O => Bad NoFuel
  | S fuel =>
      let '(g, paths) := state in
      let* back := of_option AssertFailed (list.last pathSoFar) in
      if decide (back = to) then Ok (g, paths ++ [pathSoFar])
      else
        let* (blocks, g) := successorsOf moves (1 <? length pathSoFar)%nat back g in
        foldM (λ state nextBB,
          if bool_decide (nextBB ∈ pathSoFar) then Ok state
          else findPathsTo moves order fuel (pathSoFar ++ [nextBB]) to state)
          (g, paths) (order blocks)
  end.

Definition getNonCyclicPaths (moves : gmap nat (gset nat) → nat → bool) (order : gset nat → list nat) (fuel : nat)
    (from to : nat) (g : HandshakeCFG) (paths : list CFGPath) : res (HandshakeCFG * list CFGPath) :=
  let* _ := assert_ (bool_decide (from ∈ bbs g)) in
  let* _ := assert_ (bool_decide (to ∈ bbs g)) in
  findPathsTo moves order fuel [from] to (g, paths).

(** * Control values *)

(** [addToCtrlOps]: a [SetVector] keeps the order of insertion. *)
Definition addToCtrlOps (exploredOps : gset OpId) (users ctrlOps : list OpId) : list OpId :=
  foldl (λ l u, if bool_decide (u ∈ exploredOps) || bool_decide (u ∈ l) then l else l ++ [u]) ctrlOps users.

(** [updateCtrl]; the result is false on a failure. *)
Definition updateCtrl (bb : nat) (newCtrl : Value) (vals : gmap nat Value) : bool * gmap nat Value :=
  match vals !! bb with
  | Some v => (bool_decide (v = newCtrl), vals)
  | None => (true, <[bb := newCtrl]> vals)
  end.

(** The users a control operation forwards the control to, and the control value it
    defines for its block. *)
Definition ctrlStep (o : Operation) : res (list OpId * option Value) :=
  match kind o with
  | ForkOp | LazyForkOp | BufferOp _ _ | BranchOp | ConditionalBranchOp | MuxOp | MergeOp => Ok (opUsers f o, None)
  | ControlMergeOp => let* mergeRes := at_ (results o) 0 in Ok (getUsers f mergeRes, Some mergeRes)
  | _ => Ok ([], None)
  end.

Fixpoint ctrlLoop (fuel : nat) (exploredOps : gset OpId) (ctrlOps : list OpId) (vals : gmap nat Value)
    : res (bool * gmap nat Value) :=
  match list.last ctrlOps with
  | None => Ok (true, vals)
  | Some ctrlOp =>
      match fuel with
      | O => Bad NoFuel
      | S fuel =>
          let ctrlOps := removelast ctrlOps in
          let exploredOps := {[ctrlOp]} ∪ exploredOps in
          let* o := opAt f ctrlOp in
          if cannotBelongToCFG o then ctrlLoop fuel exploredOps ctrlOps vals
          else
            let* bb := of_option NullDeref (logicBB o) in
            let* (users, newCtrl) := ctrlStep o in
            let ctrlOps := addToCtrlOps exploredOps users ctrlOps in
            let '(ok, vals) := match newCtrl with Some v => updateCtrl bb v vals | None => (true, vals) end in
            if ok then ctrlLoop fuel exploredOps ctrlOps vals else Ok (false, vals)
      end
  end.

(** Whether the analysis succeeds, and the values in the caller's map. *)
Definition getControlValues (fuel : nat) (ctrlVals : gmap nat Value) : res (bool * gmap nat Value) :=
  let* ctrl := of_option OutOfRange (list.last (arguments f)) in
  let '(ok, ctrlVals) := updateCtrl ENTRY_BB ctrl ctrlVals in
  let* _ := assert_ ok in
  ctrlLoop fuel ∅ (addToCtrlOps ∅ (getUsers f ctrl) []) ctrlVals.

(** * Cycles *)

(** The channels after a channel, around the memory interfaces. *)
Definition nextChannels (v : Value) : res (list Value) :=
  let* os := mapM (opAt f) (getUsers f v) in
  Ok (concat (map (λ o, match kind o with MemoryControllerOp | LSQOp => [] | _ => results o end) os)).

(** The search from the values of a list, until it finds the channel. *)
Fixpoint anyOf (dfs : Value → gset Value → res (bool * gset Value)) (l : list Value) (visited : gset Value)
    : res (bool * gset Value) :=
  match l with
  | [] => Ok (false, visited)
  | v :: l =>
      let* (found, visited) := dfs v visited in
      if found then Ok (true, visited) else anyOf dfs l visited
  end.

Fixpoint cycleSearch (fuel : nat) (channel current : Value) (isStart : bool) (visited : gset Value)
    : res (bool * gset Value) :=
  match fuel with
  | O => Bad NoFuel
  | S fuel =>
      if negb isStart && bool_decide (current = channel) then Ok (true, visited)
      else if bool_decide (current ∈ visited) then Ok (false, visited)
      else
        let* next := nextChannels current in
        anyOf (λ v, cycleSearch fuel channel v false) next ({[current]} ∪ visited)
  end.

Definition isChannelOnCycle (fuel : nat) (channel : Value) : res bool :=
  let* (found, _) := cycleSearch fuel channel channel true ∅ in Ok found.

End Circuit.
