(* ===== verification/HandshakeCFGThms.v ===== *)
(** The control flow graph of a circuit: its arcs, its paths, the channels on cycles and
    the control values of its blocks (HandshakeCFG.v). *)

From stdpp Require Import strings gmap relations.
From S2P Require Import SimplePaths CircuitIR CFG HandshakeCFG Prelude.

(** * Successors *)

Section Arcs.
Context (f : FuncOp) (bfuel : nat).

Notation succ g a := (default ∅ (successors g !! a)).

(** A channel goes from an operation of block [a] to one of block [b], the operations
    being part of the graph; within a block only backedges count. *)
Definition channelBetween (a b : nat) (v : Value) (o u : Operation) (ui : OpId) : Prop :=
  v ∈ results o ∧ ui ∈ getUsers f v ∧ ops f !! ui = Some u
  ∧ cannotBelongToCFG o = false ∧ cannotBelongToCFG u = false ∧ logicBB o = Some a ∧ logicBB u = Some b
  ∧ (a ≠ b ∨ ∃ e, isBackedge f bfuel v ui false = Ok (true, e)).

Definition arc (a b : nat) : Prop := ∃ o v u ui, o ∈ ops f ∧ channelBetween a b v o u ui.

(** A loop that adds arcs. *)
Lemma foldM_arcs {X} (h : HandshakeCFG → X → res HandshakeCFG) (P : X → nat → nat → Prop) l :
  (∀ x g g', x ∈ l → h g x = Ok g' → ∀ a b, b ∈ succ g' a ↔ b ∈ succ g a ∨ P x a b) →
  ∀ g g', foldM h g l = Ok g' → ∀ a b, b ∈ succ g' a ↔ b ∈ succ g a ∨ ∃ x, x ∈ l ∧ P x a b.
Proof.
  induction l as [|x l IH]; intros Hh g g' H a b; simpl in H.
  - injection H as <-. split; [by left|]. by intros [|(x & Hx%elem_of_nil & _)].
  - apply bind_ok in H as (g1 & H1 & H). rewrite (IH (λ x g g' Hx, Hh x g g' ltac:(by right)) _ _ H).
    rewrite (Hh x g g1 ltac:(left) H1). setoid_rewrite elem_of_cons. naive_solver.
Qed.

Lemma addSuccessor_succ s d g a b : b ∈ succ (addSuccessor s d g) a ↔ b ∈ succ g a ∨ (a = s ∧ b = d).
Proof.
  unfold addSuccessor. simpl. destruct (decide (a = s)) as [->|Hne].
  - rewrite lookup_insert_eq. simpl. set_solver.
  - rewrite lookup_insert_ne by done. naive_solver.
Qed.

Lemma addChannel_succ src v g ui g' : addChannel f bfuel src v g ui = Ok g' →
  ∀ a b, b ∈ succ g' a ↔ b ∈ succ g a ∨ (a = src ∧ ∃ u, ops f !! ui = Some u ∧ cannotBelongToCFG u = false
    ∧ logicBB u = Some b ∧ (a ≠ b ∨ ∃ e, isBackedge f bfuel v ui false = Ok (true, e))).
Proof.
  unfold addChannel. intros H a b. apply bind_ok in H as (u & Hu%of_option_ok & H).
  destruct (cannotBelongToCFG u) eqn:Hc; [injection H as <-; split; [by left|]; intros [|(_ & u' & Hu' & Hc' & _)]; [done|]; congruence|].
  apply bind_ok in H as (d & Hd%of_option_ok & H). destruct (decide (src = d)) as [->|Hne].
  - rewrite bool_decide_true in H by done. simpl in H. apply bind_ok in H as ([be e] & Hbe & [= <-]). destruct be.
    + rewrite addSuccessor_succ. split; [|naive_solver congruence]. intros [|[-> ->]]; [by left|]. right. split; [done|].
      exists u. do 3 (split; [done|]). right. by exists e.
    + split; [by left|]. intros [|(-> & u' & Hu' & _ & Hb & [Hne|[e' He']])]; [done|exfalso; congruence..].
  - rewrite bool_decide_false in H by done. injection H as <-. rewrite addSuccessor_succ. split.
    + intros [|[-> ->]]; [by left|]. right. split; [done|]. exists u. auto.
    + intros [|(-> & u' & Hu' & _ & Hb & _)]; [by left|right]. split; [done|]. congruence.
Qed.

Lemma addOperation_succ g o g' : addOperation f bfuel g o = Ok g' →
  ∀ a b, b ∈ succ g' a ↔ b ∈ succ g a ∨ ∃ v u ui, channelBetween a b v o u ui.
Proof.
  unfold addOperation, channelBetween. intros H a b. destruct (cannotBelongToCFG o) eqn:Hc.
  { injection H as <-. split; [by left|]. intros [|(v & u & ui & ?)]; [done|]. naive_solver. }
  apply bind_ok in H as (src & Hs%of_option_ok & H).
  rewrite (foldM_arcs _ (λ v a b, ∃ ui, ui ∈ getUsers f v ∧ a = src ∧ ∃ u, ops f !! ui = Some u ∧ cannotBelongToCFG u = false
    ∧ logicBB u = Some b ∧ (a ≠ b ∨ ∃ e, isBackedge f bfuel v ui false = Ok (true, e))) (results o)) with (2 := H).
  - rewrite Hs. simpl. naive_solver.
  - intros v g1 g2 _ Hv a' b'. rewrite (foldM_arcs _ (λ ui a b, a = src ∧ ∃ u, ops f !! ui = Some u ∧ cannotBelongToCFG u = false
      ∧ logicBB u = Some b ∧ (a ≠ b ∨ ∃ e, isBackedge f bfuel v ui false = Ok (true, e))) (getUsers f v)) with (2 := Hv); [done|].
    intros ui g3 g4 _ Hui. by apply addChannel_succ.
Qed.

Lemma HandshakeCFG_arcs g : HandshakeCFG_new f bfuel = Ok g → ∀ a b, b ∈ succ g a ↔ arc a b.
Proof.
  intros H a b. rewrite (foldM_arcs _ (λ o a b, ∃ v u ui, channelBetween a b v o u ui) (ops f)) with (2 := H).
  - simpl. rewrite lookup_empty. simpl. unfold arc. set_solver.
  - intros o g1 g2 _ Ho. by apply addOperation_succ.
Qed.

(** The targets of arcs are blocks of the graph. *)
Definition closed (g : HandshakeCFG) : Prop := ∀ a b, b ∈ succ g a → b ∈ bbs g.

Lemma addSuccessor_closed s d g : closed g → closed (addSuccessor s d g).
Proof. intros Hc a b [Hb|[_ ->]]%addSuccessor_succ; simpl; [apply Hc in Hb|]; set_solver. Qed.

Lemma HandshakeCFG_closed g : HandshakeCFG_new f bfuel = Ok g → closed g.
Proof.
  intros H. eapply (foldM_keeps _ closed); [|exact H|intros a b; simpl; rewrite lookup_empty; set_solver].
  clear g H. intros o g g' H Hc. unfold addOperation in H. destruct (cannotBelongToCFG o); [by injection H as <-|].
  apply bind_ok in H as (src & _ & H). eapply (foldM_keeps _ closed); [|exact H|intros a b Hb; apply Hc in Hb; simpl; set_solver].
  clear g g' H Hc. intros v g g' H. eapply (foldM_keeps _ closed); [|exact H].
  clear g g' H. intros ui g g' H Hc. unfold addChannel in H. apply bind_ok in H as (u & _ & H).
  destruct (cannotBelongToCFG u); [by injection H as <-|]. apply bind_ok in H as (d & _ & H).
  destruct (negb _); [injection H as <-; by apply addSuccessor_closed|].
  apply bind_ok in H as ([[] e] & _ & [= <-]); [by apply addSuccessor_closed|done].
Qed.

End Arcs.

(** * Paths *)

Section Paths.
Context (order : gset nat → list nat) (g : HandshakeCFG) (Horder : ∀ s, order s ≡ₚ elements s) (Hclosed : closed g).

Definition nextBlocks (a : nat) : list nat := order (default ∅ (successors g !! a)).

Lemma nextBlocks_elem a b : b ∈ nextBlocks a ↔ b ∈ default ∅ (successors g !! a).
Proof. unfold nextBlocks. by rewrite Horder, elem_of_elements. Qed.

Lemma nextBlocks_NoDup a : NoDup (nextBlocks a).
Proof. unfold nextBlocks. rewrite Horder. apply NoDup_elements. Qed.

(** The sets of a graph, whatever empty ones the searches inserted. *)
Definition sameSets (g' : HandshakeCFG) : Prop :=
  bbs g' = bbs g ∧ ∀ a, default ∅ (successors g' !! a) = default ∅ (successors g !! a).

(** The path [p] goes on along [s] to a block without successors, other than the target;
    the map moves when this block is read. *)
Definition deadEnd (moves : gmap nat (gset nat) → nat → bool) (to : nat) (p : list nat) (x : nat) (s : list nat) (b : nat)
    : Prop :=
  walk nextBlocks x s ∧ NoDup (p ++ s) ∧ list.last (p ++ s) = Some b ∧ (1 < length (p ++ s))%nat
  ∧ b ≠ to ∧ nextBlocks b = [] ∧ ∃ m, moves m b = true.

(** What a search from the end of a path returns. *)
Definition searched moves (to : nat) (p : list nat) (x : nat) (ps : list (list nat)) (r : res (HandshakeCFG * list (list nat)))
    : Prop :=
  match r with
  | Ok (g', ps') => sameSets g' ∧ ps' = ps
  | Bad e => e = UseAfterErase ∧ ∃ s b, deadEnd moves to p x s b
  end.

Lemma successorsOf_ok moves it bb g1 : sameSets g1 →
  match successorsOf moves it bb g1 with
  | Ok (blocks, g2) => sameSets g2 ∧ order blocks = nextBlocks bb
  | Bad e => e = UseAfterErase ∧ it = true ∧ nextBlocks bb = [] ∧ ∃ m, moves m bb = true
  end.
Proof.
  intros [Hb Hs]. unfold successorsOf, nextBlocks. rewrite <-Hs. destruct (successors g1 !! bb) as [next|] eqn:H; simpl; [done|].
  destruct (it && moves _ bb) eqn:Hm.
  - apply andb_true_iff in Hm as [-> Hm]. split; [done|]. split; [done|].
    split; [apply Permutation_nil_r; by rewrite Horder, elements_empty|by eexists].
  - split; [|done]. split; [done|]. intros a. rewrite <-Hs. simpl. destruct (decide (a = bb)) as [->|].
    + by rewrite lookup_insert_eq, H.
    + by rewrite lookup_insert_ne.
Qed.

Lemma findPathsTo_extensions moves to fuel : ∀ p x g1 paths, list.last p = Some x → NoDup p → (∀ y, y ∈ p → y ∈ bbs g) →
  (size (bbs g) < fuel + length p)%nat → sameSets g1 →
  searched moves to p x (paths ++ extensions nextBlocks to fuel p x) (findPathsTo moves order fuel p to (g1, paths)).
Proof.
  induction fuel as [|fuel IH]; intros p x g1 paths Hl Hnd Hin Hf Hg1.
  { exfalso. pose proof (submseteq_length p (elements (bbs g))
      (NoDup_submseteq _ _ Hnd (λ y Hy, proj2 (elem_of_elements _ _) (Hin y Hy)))) as Hle.
    unfold size, set_size in Hf. simpl in Hf. lia. }
  cbn [findPathsTo extensions]. rewrite Hl. cbn [of_option bind]. destruct (decide (x = to)) as [|Hne]; [done|].
  pose proof (successorsOf_ok moves (1 <? length p)%nat x g1 Hg1) as Hnext.
  destruct (successorsOf _ _ x g1) as [[blocks g2]|e]; cbn [bind].
  2: { destruct Hnext as (-> & Hlong%Nat.ltb_lt & Hnil & Hm). split; [done|]. exists [], x. unfold deadEnd. by rewrite app_nil_r. }
  destruct Hnext as [Hg2 ->]. clear g1 Hg1. revert g2 Hg2 paths.
  pose proof (λ y (Hy : y ∈ nextBlocks x), Hy) as Hsub. revert Hsub. generalize (nextBlocks x) at 1 3 4 as l.
  induction l as [|y l IHl]; intros Hsub g2 Hg2 paths; cbn [foldM map concat searched].
  { by rewrite app_nil_r. }
  case_bool_decide as Hyp; cbn [bind].
  - rewrite decide_True by done. apply IHl; [|done]. intros z Hz. apply Hsub. by right.
  - rewrite decide_False by done. specialize (IH (p ++ [y]) y g2 paths).
    destruct (findPathsTo _ _ _ _ _ _) as [[g3 ps]|e]; cbn [bind].
    + destruct IH as [Hg3 ->]; try done.
      * by rewrite last_snoc.
      * apply list.NoDup_app. split; [done|]. split; [|apply NoDup_singleton]. by intros z Hz ->%list_elem_of_singleton.
      * intros z [Hz| ->%list_elem_of_singleton]%elem_of_app; [by apply Hin|]. eapply Hclosed, nextBlocks_elem, Hsub. by left.
      * rewrite length_app. simpl. lia.
      * rewrite app_assoc. apply IHl; [|done]. intros z Hz. apply Hsub. by right.
    + destruct IH as [-> (s & b & Hw & Hrest)]; try done.
      * by rewrite last_snoc.
      * apply list.NoDup_app. split; [done|]. split; [|apply NoDup_singleton]. by intros z Hz ->%list_elem_of_singleton.
      * intros z [Hz| ->%list_elem_of_singleton]%elem_of_app; [by apply Hin|]. eapply Hclosed, nextBlocks_elem, Hsub. by left.
      * rewrite length_app. simpl. lia.
      * split; [done|]. exists (y :: s), b. rewrite <-app_assoc in Hrest. split; [|done]. split; [apply Hsub; by left|done].
Qed.

End Paths.

(** Blocks that follow one another along arcs of the circuit. *)
Fixpoint blockWalk (f : FuncOp) (bfuel : nat) (a : nat) (s : list nat) : Prop :=
  match s with [] => True | b :: s => arc f bfuel a b ∧ blockWalk f bfuel b s end.

Lemma walk_arcs f bfuel g order : (∀ s, order s ≡ₚ elements s) → HandshakeCFG_new f bfuel = Ok g →
  ∀ s a, walk (nextBlocks order g) a s ↔ blockWalk f bfuel a s.
Proof.
  intros Ho Hg. induction s as [|b s IH]; intros a; simpl; [done|]. by rewrite nextBlocks_elem, HandshakeCFG_arcs, IH.
Qed.

(** C15.  getNonCyclicPaths, asked for the paths between two blocks of the control flow
    graph of a circuit, ends.  When it returns, it has found the paths that follow channels
    from block to block and pass no block twice, each one once, and the successors of the
    blocks are what they were; between a block and itself that is the block alone, also
    when the block is on a cycle, contrary to the comment in CFG.h, which promises the
    cycle.  It uses freed memory in one case only: the search comes to a block other than the
    target that has no successors, and inserting it moves the sets of the map that the
    search iterates over. *)
Theorem getNonCyclicPaths_spec f bfuel g moves order fuel from to :
  HandshakeCFG_new f bfuel = Ok g → (∀ s, order s ≡ₚ elements s) → from ∈ bbs g → to ∈ bbs g → (size (bbs g) ≤ fuel)%nat →
  match getNonCyclicPaths moves order fuel from to g [] with
  | Ok (g', ps) => NoDup ps
      ∧ (∀ p, p ∈ ps ↔ ∃ s, p = from :: s ∧ blockWalk f bfuel from s ∧ NoDup p ∧ list.last p = Some to)
      ∧ (from = to → ps = [[from]])
      ∧ (∀ a b, b ∈ default ∅ (successors g' !! a) ↔ arc f bfuel a b)
  | Bad e => e = UseAfterErase ∧ from ≠ to
      ∧ ∃ s b, blockWalk f bfuel from s ∧ NoDup (from :: s) ∧ list.last s = Some b ∧ b ≠ to
        ∧ (∀ c, ¬ arc f bfuel b c) ∧ ∃ m, moves m b = true
  end.
Proof.
  intros Hg Ho Hf Ht Hfuel. pose proof (HandshakeCFG_arcs _ _ _ Hg) as Harcs.
  pose proof (HandshakeCFG_closed _ _ _ Hg) as Hc. pose proof (walk_arcs _ _ _ _ Ho Hg) as Hw.
  unfold getNonCyclicPaths. rewrite !bool_decide_true by done. cbn [assert_ bind].
  assert (0 < fuel)%nat as Hpos.
  { assert (size (bbs g) ≠ 0%nat) by (intros E%size_empty_inv; set_solver). lia. }
  assert (from = to → findPathsTo moves order fuel [from] to (g, []) = Ok (g, [[from]])) as Hself.
  { intros ->. destruct fuel; [lia|]. simpl. by rewrite decide_True. }
  pose proof (findPathsTo_extensions order g Ho Hc moves to fuel [from] from g []) as H.
  destruct (findPathsTo _ _ _ _ _ _) as [[g' ps]|e].
  - destruct H as [[Hb Hs] ->]; [done|apply NoDup_singleton|by intros y ->%list_elem_of_singleton|simpl; lia|done|].
    split; [apply extensions_NoDup; by apply nextBlocks_NoDup|]. split.
    + intros p. simpl. rewrite (extensions_simple _ _ (elements (bbs g))).
      * unfold simplePath. by setoid_rewrite Hw.
      * intros x y _ Hy. apply elem_of_elements. eapply Hc. by eapply nextBlocks_elem.
      * by apply elem_of_elements.
      * done.
    + split; [intros E; apply Hself in E; congruence|]. intros a b. by rewrite Hs, Harcs.
  - destruct H as [-> (s & b & Hwalk & Hnd & Hl & Hlong & Hb & Hnil & Hm)];
      [done|apply NoDup_singleton|by intros y ->%list_elem_of_singleton|simpl; lia|done|].
    split; [done|]. split; [intros E; apply Hself in E; congruence|]. exists s, b. split; [by apply Hw|].
    split; [done|]. split; [by destruct s; simpl in *; [lia|]|]. split; [done|]. split; [|done].
    intros c Hcarc%Harcs. rewrite <-(nextBlocks_elem order g Ho), Hnil in Hcarc. by apply elem_of_nil in Hcarc.
Qed.

(** * Channels on cycles *)

Section Cycles.
Context (f : FuncOp).

(** A channel follows another one through an operation that is not a memory interface. *)
Definition followedBy (v w : Value) : Prop :=
  ∃ i u, i ∈ getUsers f v ∧ ops f !! i = Some u ∧ kind u ≠ MemoryControllerOp ∧ kind u ≠ LSQOp ∧ w ∈ results u.

Lemma nextChannels_spec v : ∃ l, nextChannels f v = Ok l ∧ ∀ w, w ∈ l ↔ followedBy v w.
Proof.
  unfold nextChannels. destruct (mapM_total (opAt f) (getUsers f v)) as [os Hos].
  { intros i (o & Ho & _)%getUsers_elem. exists o. unfold opAt. by rewrite Ho. }
  rewrite Hos. eexists. split; [done|]. intros w. rewrite in_concat_map. apply mapM_ok in Hos.
  unfold followedBy. split.
  - intros (u & Hu & Hw). apply list_elem_of_lookup in Hu as [k Hk].
    destruct (Forall2_lookup_r _ _ _ _ _ Hos Hk) as (i & Hi & Ho%of_option_ok). exists i, u.
    split; [by eapply list_elem_of_lookup_2|]. split; [done|]. destruct (kind u); try done; by apply elem_of_nil in Hw.
  - intros (i & u & Hi & Hu & Hm & Hl & Hw). apply list_elem_of_lookup in Hi as [k Hk].
    destruct (Forall2_lookup_l _ _ _ _ _ Hos Hk) as (u' & Hu' & Ho%of_option_ok). rewrite Hu in Ho. injection Ho as <-.
    exists u. split; [by eapply list_elem_of_lookup_2|]. by destruct (kind u).
Qed.

Context (channel : Value).

(** What a search that finds nothing leaves behind: what it has visited goes on to what
    has been visited, and not to the channel. *)
Definition explored (visited visited' : gset Value) : Prop :=
  visited ⊆ visited' ∧ ∀ x y, x ∈ visited' → x ∉ visited → followedBy x y → y ∈ visited' ∧ y ≠ channel.

Lemma explored_trans V1 V2 V3 : explored V1 V2 → explored V2 V3 → explored V1 V3.
Proof.
  intros [H12 He1] [H23 He2]. split; [set_solver|]. intros x y Hx Hn Hf.
  destruct (decide (x ∈ V2)) as [Hx2|Hx2]; [|by apply (He2 x y)]. destruct (He1 x y Hx2 Hn Hf). split; [set_solver|done].
Qed.

Lemma anyOf_spec dfs l : (∀ v V b V', dfs v V = Ok (b, V') →
    if b : bool then v = channel ∨ tc followedBy v channel else v ∈ V' ∧ v ≠ channel ∧ explored V V') →
  ∀ V b V', anyOf dfs l V = Ok (b, V') →
    if b then ∃ v, v ∈ l ∧ (v = channel ∨ tc followedBy v channel)
    else explored V V' ∧ ∀ v, v ∈ l → v ∈ V' ∧ v ≠ channel.
Proof.
  intros Hd. induction l as [|v l IH]; intros V b V' H; simpl in H.
  - injection H as <- <-. split; [split; [done|]; by intros x y Hx Hn|]. by intros v Hv%elem_of_nil.
  - apply bind_ok in H as ([b1 V1] & H1 & H). specialize (Hd _ _ _ _ H1). destruct b1.
    + injection H as <- <-. exists v. split; [left|done].
    + destruct Hd as (Hv & Hne & He). specialize (IH _ _ _ H). destruct b.
      * destruct IH as (w & Hw & Hr). exists w. split; [by right|done].
      * destruct IH as [He' Hl]. split; [by eapply explored_trans|].
        intros w [->|Hw]%elem_of_cons; [|by apply Hl]. split; [|done]. destruct He' as [Hsub _]. set_solver.
Qed.

Lemma cycleSearch_spec fuel : ∀ cur isStart V b V', cycleSearch f fuel channel cur isStart V = Ok (b, V') →
  if b then (isStart = false ∧ cur = channel) ∨ tc followedBy cur channel
  else cur ∈ V' ∧ (isStart = false → cur ≠ channel) ∧ explored V V'.
Proof.
  induction fuel as [|fuel IH]; intros cur isStart V b V' H; [done|]. cbn [cycleSearch] in H.
  destruct (negb isStart && bool_decide (cur = channel)) eqn:Hc.
  { injection H as <- <-. apply andb_true_iff in Hc as [Hs ->%bool_decide_eq_true]. left. by destruct isStart. }
  assert (isStart = false → cur ≠ channel) as Hne.
  { intros -> ->. simpl in Hc. by rewrite bool_decide_true in Hc. }
  destruct (decide (cur ∈ V)) as [Hin|Hin]; [rewrite bool_decide_true in H by done|rewrite bool_decide_false in H by done].
  { injection H as <- <-. split; [done|]. split; [done|]. split; [done|]. by intros x y Hx Hn. }
  destruct (nextChannels_spec cur) as (l & Hl & Hlin). rewrite Hl in H. cbn [bind] in H.
  apply anyOf_spec in H.
  - destruct b.
    + right. destruct H as (v & Hv & [->|Ht]); [by apply tc_once, Hlin|]. eapply tc_l; [by apply Hlin|done].
    + destruct H as [[Hsub He] Hall]. split; [set_solver|]. split; [done|]. split; [set_solver|].
      intros x y Hx Hn Hf. destruct (decide (x = cur)) as [->|Hxc]; [by apply Hall, Hlin|]. apply (He x y); [done|set_solver|done].
  - intros v W b0 W' Hd. apply IH in Hd. destruct b0; [destruct Hd as [[_ ->]|]; auto|]. destruct Hd as (? & Hn & ?). auto.
Qed.

(** The values of the circuit. *)
Definition values : gset Value := {[channel]} ∪ list_to_set (concat (map results (ops f))).

Lemma followedBy_value v w : followedBy v w → w ∈ values.
Proof.
  intros (i & u & _ & Hu & _ & _ & Hw). apply elem_of_union_r, elem_of_list_to_set, in_concat_map. exists u.
  split; [by eapply list_elem_of_lookup_2|done].
Qed.

Lemma cycleSearch_ends fuel : ∀ cur isStart V, cur ∈ values → (size (values ∖ V) < fuel)%nat →
  ∃ b V', cycleSearch f fuel channel cur isStart V = Ok (b, V') ∧ V ⊆ V'.
Proof.
  induction fuel as [|fuel IH]; intros cur isStart V Hcur Hf; [lia|]. cbn [cycleSearch].
  destruct (negb isStart && bool_decide (cur = channel)); [by exists true, V|].
  destruct (decide (cur ∈ V)) as [Hin|Hin]; [rewrite bool_decide_true by done; by exists false, V|].
  rewrite bool_decide_false by done. destruct (nextChannels_spec cur) as (l & -> & Hl). cbn [bind].
  assert (size (values ∖ ({[cur]} ∪ V)) < fuel)%nat as Hsize.
  { enough (size (values ∖ ({[cur]} ∪ V)) < size (values ∖ V))%nat by lia. apply subset_size.
    split; [set_solver|]. intros Hsub. specialize (Hsub cur). set_solver. }
  assert (∀ v, v ∈ l → v ∈ values) as Hval by (intros v Hv; eapply followedBy_value; by apply Hl).
  assert (∃ b V', anyOf (λ v, cycleSearch f fuel channel v false) l ({[cur]} ∪ V) = Ok (b, V') ∧ {[cur]} ∪ V ⊆ V') as (b & V' & -> & Hs);
    [|exists b, V'; split; [done|set_solver]].
  clear Hl. revert Hsize. generalize ({[cur]} ∪ V). induction l as [|v l IHl]; intros W HW; simpl; [by exists false, W|].
  destruct (IH v false W) as (b & W' & -> & Hsub); [apply Hval; left|done|]. simpl. destruct b; [by exists true, W'|].
  assert (∀ x, x ∈ l → x ∈ values) as Hval' by (intros x Hx; apply Hval; by right).
  destruct (IHl Hval' W') as (b & W2 & -> & Hsub2); [|exists b, W2; split; [done|set_solver]].
  enough (size (values ∖ W') ≤ size (values ∖ W))%nat by lia. apply subseteq_size. set_solver.
Qed.

End Cycles.

(** isChannelOnCycle ends and tells whether the channel can be reached from itself
    through operations that are not memory interfaces. *)
Theorem isChannelOnCycle_spec f channel fuel : (size (values f channel) < fuel)%nat →
  ∃ b, isChannelOnCycle f fuel channel = Ok b ∧ (b = true ↔ tc (followedBy f) channel channel).
Proof.
  intros Hf. destruct (cycleSearch_ends f channel fuel channel true ∅) as (b & V & Hb & _); [unfold values; set_solver| |].
  { replace (values f channel ∖ ∅) with (values f channel) by set_solver. done. }
  unfold isChannelOnCycle. rewrite Hb. simpl. exists b. split; [done|]. apply cycleSearch_spec in Hb. destruct b.
  - split; [|done]. intros _. by destruct Hb as [[? _]|].
  - split; [done|]. intros Ht. exfalso. destruct Hb as (Hin & _ & _ & He).
    assert (∀ x y, tc (followedBy f) x y → x ∈ V → y ∈ V ∧ y ≠ channel) as Hr.
    { intros x y. induction 1 as [x y Hxy|x y z Hxy _ IH]; intros Hx; [apply (He x y); set_solver|].
      apply IH. apply (He x y); set_solver. }
    by destruct (Hr _ _ Ht Hin).
Qed.

Section Control.
Context (f : FuncOp) (ctrl : Value).

(** The control network goes on from an operation to a user. *)
Definition controlEdge (a b : OpId) : Prop :=
  ∃ o users v, ops f !! a = Some o ∧ cannotBelongToCFG o = false ∧ ctrlStep f o = Ok (users, v) ∧ b ∈ users.

Definition controlOp (op : OpId) : Prop := ∃ u, u ∈ getUsers f ctrl ∧ rtc controlEdge u op.

(** A control merge gives its block its first result. *)
Definition gives (op : OpId) (bb : nat) (v : Value) : Prop :=
  ∃ o, ops f !! op = Some o ∧ kind o = ControlMergeOp ∧ logicBB o = Some bb ∧ head (results o) = Some v.

(** The control values of a block: the entry block has the argument. *)
Definition controlValue (bb : nat) (v : Value) : Prop :=
  (bb = ENTRY_BB ∧ v = ctrl) ∨ ∃ op, controlOp op ∧ gives op bb v.

(** Operations that belong to the graph are tagged, and control merges have results. *)
Record tagged : Prop := {
  t_block : ∀ i o, ops f !! i = Some o → cannotBelongToCFG o = false → is_Some (logicBB o);
  t_merge : ∀ i o, ops f !! i = Some o → kind o = ControlMergeOp → is_Some (head (results o)) }.

Record loopInv (E : gset OpId) (L : list OpId) (vals : gmap nat Value) : Prop := {
  l_control : ∀ op, op ∈ E ∨ op ∈ L → controlOp op;
  l_start : ∀ u, u ∈ getUsers f ctrl → u ∈ E ∨ u ∈ L;
  l_closed : ∀ a b, a ∈ E → controlEdge a b → b ∈ E ∨ b ∈ L;
  l_fresh : ∀ op, op ∈ L → op ∉ E;
  l_NoDup : NoDup L;
  l_vals : ∀ bb v, vals !! bb = Some v ↔ (bb = ENTRY_BB ∧ v = ctrl) ∨ ∃ op, op ∈ E ∧ gives op bb v }.

Lemma addToCtrlOps_spec E users : ∀ L, NoDup L → NoDup (addToCtrlOps E users L)
  ∧ ∀ op, op ∈ addToCtrlOps E users L ↔ op ∈ L ∨ (op ∈ users ∧ op ∉ E).
Proof.
  unfold addToCtrlOps. induction users as [|u users IH]; intros L HL; simpl.
  - split; [done|]. intros op. split; [by left|]. by intros [|[H%elem_of_nil _]].
  - setoid_rewrite elem_of_cons. destruct (decide (u ∈ E)) as [Hu|Hu]; [rewrite (bool_decide_true (u ∈ E)) by done|rewrite (bool_decide_false (u ∈ E)) by done]; simpl.
    { destruct (IH L HL) as [? Hin]. split; [done|]. intros op. rewrite Hin. naive_solver. }
    destruct (decide (u ∈ L)) as [Hl|Hl]; [rewrite (bool_decide_true (u ∈ L)) by done|rewrite (bool_decide_false (u ∈ L)) by done]; simpl.
    { destruct (IH L HL) as [? Hin]. split; [done|]. intros op. rewrite Hin. naive_solver. }
    destruct (IH (L ++ [u])) as [? Hin].
    { apply list.NoDup_app. split; [done|]. split; [|apply NoDup_singleton]. by intros x Hx ->%list_elem_of_singleton. }
    split; [done|]. intros op. rewrite Hin, elem_of_app, list_elem_of_singleton. naive_solver.
Qed.

Lemma controlOp_valid op : controlOp op → ∃ o, ops f !! op = Some o.
Proof.
  intros (u & Hu & Hr). apply rtc_inv_r in Hr as [->|(x & _ & (o & users & v & Ho & _ & Hs & Hin))].
  - apply getUsers_elem in Hu as (o & Ho & _). by exists o.
  - assert (∃ w, op ∈ getUsers f w) as [w Hw].
    { unfold ctrlStep in Hs. destruct (kind o); try (injection Hs as <- <-; by apply elem_of_nil in Hin);
        try (injection Hs as <- <-; apply opUsers_elem in Hin as (w & _ & Hw); by exists w).
      apply bind_ok in Hs as (w & _ & [= <- <-]). by exists w. }
    apply getUsers_elem in Hw as (o' & Ho' & _). by exists o'.
Qed.

Lemma gives_unique op bb v bb' v' : gives op bb v → gives op bb' v' → bb = bb' ∧ v = v'.
Proof. intros (o & Ho & _ & Hb & Hv) (o' & Ho' & _ & Hb' & Hv'). simplify_eq. done. Qed.

(** The head of the worklist has been handled, without a value or with one. *)
Lemma loopInv_step E L op vals users vals' : loopInv E (L ++ [op]) vals →
  (∀ b, controlEdge op b ↔ b ∈ users) →
  (∀ bb v, vals' !! bb = Some v ↔ vals !! bb = Some v ∨ gives op bb v) →
  loopInv ({[op]} ∪ E) (addToCtrlOps ({[op]} ∪ E) users L) vals'.
Proof.
  intros [Hc Hs Hcl Hf Hn Hv] He Hg. apply list.NoDup_app in Hn as (HnL & Hd & _).
  destruct (addToCtrlOps_spec ({[op]} ∪ E) users L HnL) as [Hnd Hin].
  assert (controlOp op) as Hop by (apply Hc; right; apply elem_of_app; right; left).
  split.
  - intros x [[->%elem_of_singleton|Hx]%elem_of_union|[Hx|[Hx _]]%Hin]; [done|auto|apply Hc; right; apply elem_of_app; by left|].
    destruct Hop as (u & Hu & Hr). exists u. split; [done|]. eapply rtc_r; [exact Hr|by apply He].
  - intros u Hu. destruct (decide (u ∈ {[op]} ∪ E)) as [|Hn]; [by left|]. right. apply Hin. left.
    destruct (Hs u Hu) as [|[|Hx%list_elem_of_singleton]%elem_of_app]; set_solver.
  - intros a b Ha Hab. destruct (decide (b ∈ {[op]} ∪ E)) as [|Hn]; [by left|]. right. apply Hin.
    apply elem_of_union in Ha as [->%elem_of_singleton|Ha]; [right; split; [by apply He|done]|]. left.
    destruct (Hcl a b Ha Hab) as [|[|Hx%list_elem_of_singleton]%elem_of_app]; set_solver.
  - intros x [Hx|[_ Hx]]%Hin; [|done]. intros [->%elem_of_singleton|HE]%elem_of_union.
    + apply (Hd op Hx). left.
    + apply (Hf x); [apply elem_of_app; by left|done].
  - done.
  - intros bb v. rewrite Hg, Hv. split.
    + intros [[|(o & Ho & Hgv)]|Hgv]; [by left|right; exists o; set_solver|right; exists op; set_solver].
    + intros [|(o & [->%elem_of_singleton|Ho]%elem_of_union & Hgv)]; [by left; left|by right|left; right; by exists o].
Qed.

Lemma size_valid (E : gset OpId) op : (∀ x, x ∈ E → x < length (ops f))%nat → (op < length (ops f))%nat → op ∉ E → (size E < length (ops f))%nat.
Proof.
  intros HE Hop Hn. enough (size ({[op]} ∪ E) ≤ size (set_seq 0 (length (ops f)) : gset nat))%nat as H.
  { rewrite size_union in H by set_solver. rewrite size_singleton, size_set_seq in H. lia. }
  apply subseteq_size. intros x [->%elem_of_singleton|Hx]%elem_of_union; apply elem_of_set_seq; [lia|]. specialize (HE x Hx). lia.
Qed.

Context (Ht : tagged).

Lemma ctrlLoop_spec fuel : ∀ E L vals, loopInv E L vals → (length (ops f) ≤ fuel + size E)%nat →
  ∃ b vals', ctrlLoop f fuel E L vals = Ok (b, vals')
    ∧ if b : bool then ∀ bb v, vals' !! bb = Some v ↔ controlValue bb v
      else ∃ bb v v', controlValue bb v ∧ controlValue bb v' ∧ v ≠ v'.
Proof.
  induction fuel as [|fuel IH]; intros E L vals Hi Hf; destruct (list.last L) as [op|] eqn:Hlast.
  2, 4: apply last_None in Hlast as ->; exists true, vals; split; [done|]; intros bb v; rewrite (l_vals _ _ _ Hi); unfold controlValue;
    assert (∀ op, controlOp op ↔ op ∈ E) as Hall;
    [|by setoid_rewrite Hall].
  2, 3: intros op; split; [|intros; apply (l_control _ _ _ Hi); by left];
    intros (u & Hu & Hr); revert op Hr; apply rtc_ind_r; [destruct (l_start _ _ _ Hi u Hu) as [|H%elem_of_nil]; done|];
    intros y z _ Hyz Hy; destruct (l_closed _ _ _ Hi y z Hy Hyz) as [|H%elem_of_nil]; done.
  - exfalso. apply last_Some in Hlast as [L' ->].
    assert (op ∈ L' ++ [op]) as Hop by (apply elem_of_app; right; left).
    assert (∀ x, controlOp x → x < length (ops f))%nat as Hval by (intros x [o Ho]%controlOp_valid; by eapply lookup_lt_Some).
    pose proof (size_valid E op (λ x Hx, Hval x (l_control _ _ _ Hi x (or_introl Hx))) (Hval op (l_control _ _ _ Hi op (or_intror Hop)))
      (l_fresh _ _ _ Hi op Hop)). lia.
  - apply last_Some in Hlast as [L' ->]. assert (op ∈ L' ++ [op]) as Hop by (apply elem_of_app; right; left).
    pose proof (l_control _ _ _ Hi op (or_intror Hop)) as Hcop. pose proof (l_fresh _ _ _ Hi op Hop) as Hfresh.
    destruct (controlOp_valid op Hcop) as [o Ho].
    cbn [ctrlLoop]. rewrite last_snoc, removelast_last. unfold opAt. rewrite Ho. cbn [of_option bind].
    assert (length (ops f) ≤ fuel + size ({[op]} ∪ E))%nat as Hsize by (rewrite size_union by set_solver; rewrite size_singleton; lia).
    destruct (cannotBelongToCFG o) eqn:Hcan.
    { apply IH; [|done]. change L' with (addToCtrlOps ({[op]} ∪ E) [] L'). apply (loopInv_step _ _ _ vals); [done| |].
      - intros b. split; [intros (o' & ? & ? & Ho' & Hc & _)|by intros H%elem_of_nil]. congruence.
      - intros bb v. split; [by left|]. intros [|(o' & Ho' & Hk & _)]; [done|]. exfalso. simplify_eq.
        unfold cannotBelongToCFG in Hcan. by rewrite Hk in Hcan. }
    destruct (t_block Ht op o Ho Hcan) as [bb Hbb]. rewrite Hbb. cbn [of_option bind].
    assert (∀ users v b, ctrlStep f o = Ok (users, v) → controlEdge op b ↔ b ∈ users) as Hedge.
    { intros users v b Hs. split; [intros (o' & us & w & Ho' & _ & Hs' & Hb)|intros Hb; by exists o, users, v]. congruence. }
    destruct (ctrlStep f o) as [[users nv]|e] eqn:Hs; cbn [bind].
    2: { exfalso. unfold ctrlStep in Hs. destruct (kind o) eqn:Hk; try done.
         destruct (t_merge Ht op o Ho Hk) as [v Hv]. destruct (results o); simplify_eq/=. }
    destruct nv as [v|].
    + assert (gives op bb v) as Hgv.
      { exists o. split; [done|]. unfold ctrlStep in Hs. destruct (kind o) eqn:Hk; try done. split; [done|]. split; [done|].
        apply bind_ok in Hs as (w & Hw%at_ok & [= _ <-]). by rewrite <-head_lookup in Hw. }
      unfold updateCtrl. destruct (vals !! bb) as [w|] eqn:Hw; cbn [fst snd].
      * destruct (decide (w = v)) as [->|Hne]; [rewrite bool_decide_true by done|rewrite bool_decide_false by done].
        -- apply IH; [|done]. apply (loopInv_step _ _ _ vals); [done|intros; by eapply Hedge|]. intros bb' v'. split; [by left|].
           intros [|Hg']; [done|]. by destruct (gives_unique _ _ _ _ _ Hgv Hg') as [<- <-].
        -- exists false, vals. split; [done|]. exists bb, w, v. split; [|split; [right; by exists op|done]].
           apply (l_vals _ _ _ Hi) in Hw as [|(x & Hx & Hgx)]; [by left|]. right. exists x. split; [|done].
           apply (l_control _ _ _ Hi). by left.
      * apply IH; [|done]. apply (loopInv_step _ _ _ vals); [done|intros; by eapply Hedge|]. intros bb' v'. rewrite lookup_insert_Some. split.
        -- intros [[<- <-]|[_ ?]]; [by right|by left].
        -- intros [Hv'|Hg']; [right; split; [congruence|done]|]. left. by destruct (gives_unique _ _ _ _ _ Hgv Hg').
    + apply IH; [|done]. apply (loopInv_step _ _ _ vals); [done|intros; by eapply Hedge|]. intros bb' v'. split; [by left|].
      intros [|(o' & Ho' & Hk & _ & Hh)]; [done|]. exfalso. simplify_eq. unfold ctrlStep in Hs. rewrite Hk in Hs.
      by apply bind_ok in Hs as (w & _ & [=]).
Qed.

End Control.

(** The constructor of the graph checks that operations are tagged. *)
Lemma HandshakeCFG_tagged f bfuel g : HandshakeCFG_new f bfuel = Ok g →
  ∀ i o, ops f !! i = Some o → cannotBelongToCFG o = false → is_Some (logicBB o).
Proof.
  unfold HandshakeCFG_new. generalize (mkHandshakeCFG ∅ ∅). intros g0 H i o Ho Hc.
  revert i g0 H Ho. induction (ops f) as [|x l IH]; intros i g0 H Ho; [done|]. simpl in H. apply bind_ok in H as (g1 & H1 & H).
  destruct i as [|i]; [|by eapply IH]. injection Ho as ->. unfold addOperation in H1. rewrite Hc in H1.
  apply bind_ok in H1 as (src & Hs%of_option_ok & _). by exists src.
Qed.

(** C14.  On a circuit whose control flow graph can be built, getControlValues ends.  It
    fails exactly if a block has two control values, the first results of different control merges that
    the control network reaches from the last argument, or that argument in the entry
    block; otherwise it returns the control value of every block that has one. *)
Theorem getControlValues_spec f bfuel g ctrl fuel :
  HandshakeCFG_new f bfuel = Ok g → list.last (arguments f) = Some ctrl →
  (∀ i o, ops f !! i = Some o → kind o = ControlMergeOp → is_Some (head (results o))) →
  (length (ops f) ≤ fuel)%nat →
  ∃ ok vals, getControlValues f fuel ∅ = Ok (ok, vals)
    ∧ (ok = false ↔ ∃ bb v v', controlValue f ctrl bb v ∧ controlValue f ctrl bb v' ∧ v ≠ v')
    ∧ (ok = true → ∀ bb v, vals !! bb = Some v ↔ controlValue f ctrl bb v).
Proof.
  intros Hg Hl Hm Hf. unfold getControlValues. rewrite Hl. cbn [of_option bind]. unfold updateCtrl. rewrite lookup_empty. cbn [assert_ bind].
  destruct (addToCtrlOps_spec ∅ (getUsers f ctrl) [] ltac:(constructor)) as [Hnd Hin].
  destruct (ctrlLoop_spec f ctrl (Build_tagged f (HandshakeCFG_tagged f bfuel g Hg) Hm) fuel ∅ (addToCtrlOps ∅ (getUsers f ctrl) [])
    (<[ENTRY_BB := ctrl]> ∅)) as (ok & vals & -> & Hok).
  - split; [..|done|].
    + intros op [H|[H%elem_of_nil|[H _]]%Hin]; [set_solver|done|]. by exists op.
    + intros u Hu. right. apply Hin. right. set_solver.
    + set_solver.
    + set_solver.
    + intros bb v. rewrite lookup_insert_Some, lookup_empty. set_solver.
  - rewrite size_empty. lia.
  - exists ok, vals. split; [done|]. destruct ok; (split; [split; [done|]|done]); [|done].
    intros (bb & v & v' & Hv%Hok & Hv'%Hok & Hne). congruence.
Qed.
