(* ===== verification/GIID.v ===== *)
(** Global in-order dependence of an operand on a value along a path of blocks
    (isGIID of CFG.cpp): the search with its table of results, the same search
    without a table, and the proof that they agree. *)

From stdpp Require Import strings gmap.
From S2P Require Import CircuitIR CFG HandshakeCFG Prelude.

Inductive GIIDStatus := FAIL_OFF_PATH | FAIL_ON_PATH | SUCCEED.

#[export] Instance GIIDStatus_eq_dec : EqDecision GIIDStatus.
Proof. solve_decision. Defined.

(** * Folding the callback's results; [St] is the state the callback reads and writes *)

Section Fold.
Context {St : Type} (func : Value → St → res (GIIDStatus * St)).

Fixpoint foldOrFrom (stat : GIIDStatus) (operands : list Value) (s : St) : res (GIIDStatus * St) :=
  match operands with
  | [] => Ok (stat, s)
  | v :: operands =>
      let* (r, s) := func v s in
      match r with
      | FAIL_OFF_PATH => foldOrFrom stat operands s
      | FAIL_ON_PATH => foldOrFrom FAIL_ON_PATH operands s
      | SUCCEED => Ok (SUCCEED, s)
      end
  end.
Definition foldGIIDStatusOr : list Value → St → res (GIIDStatus * St) := foldOrFrom FAIL_OFF_PATH.

Fixpoint foldAndFrom (stat : GIIDStatus) (operands : list Value) (s : St) : res (GIIDStatus * St) :=
  match operands with
  | [] => Ok (stat, s)
  | v :: operands =>
      let* (r, s) := func v s in
      match r with
      | FAIL_OFF_PATH => foldAndFrom stat operands s
      | FAIL_ON_PATH => Ok (FAIL_ON_PATH, s)
      | SUCCEED => foldAndFrom SUCCEED operands s
      end
  end.
Definition foldGIIDStatusAnd : list Value → St → res (GIIDStatus * St) := foldAndFrom FAIL_OFF_PATH.

(** One operand decides alone when it depends on the predecessor; otherwise all of
    them are asked. *)
Definition oneThenAll (one : Value) (all : list Value) (s : St) : res (GIIDStatus * St) :=
  let* (r, s) := func one s in
  match r with SUCCEED => Ok (SUCCEED, s) | _ => foldGIIDStatusAnd all s end.

(** The cases on the defining operation of [v]. *)
Definition giidSwitch (defOp : Operation) (v : Value) (s : St) : res (GIIDStatus * St) :=
  match kind defOp with
  | ConditionalBranchOp | MergeOp | ControlMergeOp => foldGIIDStatusAnd (operands defOp) s
  | MuxOp => let* select := at_ (operands defOp) 0 in oneThenAll select (operands defOp) s
  | LoadOp =>
      let* dataResult := at_ (results defOp) 1 in
      if decide (dataResult = v) then let* address := at_ (operands defOp) 0 in func address s
      else Ok (FAIL_ON_PATH, s)
  | SelectOp =>
      let* condition := at_ (operands defOp) 0 in
      let* trueValue := at_ (operands defOp) 1 in
      let* falseValue := at_ (operands defOp) 2 in
      oneThenAll condition [trueValue; falseValue] s
  | ForkOp | LazyForkOp | BufferOp _ _ | BranchOp | ExtUIOp | ExtSIOp | TruncIOp | NotIOp | CmpIOp | CmpFOp | GenericOp =>
      foldGIIDStatusOr (operands defOp) s
  | FirstOp | InitOp | StoreOp | MemoryControllerOp | LSQOp | SinkOp | RAMOp | OtherOp => Ok (FAIL_ON_PATH, s)
  end.

End Fold.

(** The part of the path up to the last occurrence of the block among the first
    [idx] blocks. *)
Fixpoint foundOnPath (path : list nat) (bb : nat) (idx : nat) : option (list nat) :=
  match idx with
  | O => None
  | S i => if decide (path !! i = Some bb) then Some (take idx path) else foundOnPath path bb i
  end.

Section Circuit.
Context (f : FuncOp) (bfuel : nat) (predecessor : Value).

(** The path to the block of the defining operation, or a failure; [bfuel] is the fuel
    for [isBackedge]. *)
Definition adjustPath (v : Value) (owner : OpId) (defBB : nat) (path : list nat) : res (GIIDStatus + list nat) :=
  let pathSize := length path in
  let* (backedge, _) := isBackedge f bfuel v owner false in
  if backedge : bool then
    if (pathSize =? 1)%nat then Ok (inl FAIL_ON_PATH)
    else
      let* _ := assert_ (negb (pathSize =? 0)%nat) in
      let dropped := take (pathSize - 1) path in
      Ok (if decide (list.last dropped = Some defBB) then inr dropped else inl FAIL_OFF_PATH)
  else
    match foundOnPath path defBB pathSize with
    | Some path => Ok (inr path)
    | None => Ok (inl (if (pathSize =? 1)%nat then FAIL_ON_PATH else FAIL_OFF_PATH))
    end.

(** The operand of an operation that holds a value. *)
Definition operandOf (op : OpId) (o : Operation) (v : Value) : res OpOperand :=
  let* i := of_option AssertFailed (fst <$> list_find (λ w, w = v) (operands o)) in Ok (op, i).

Definition operandValue (oprd : OpOperand) : res Value :=
  let* o := opAt f (fst oprd) in at_ (operands o) (snd oprd).

(** What precedes the lookup in the table: a result, or the defining operation and
    the adjusted path. *)
Definition giidDefinition (oprd : OpOperand) (path : list nat)
    : res (GIIDStatus + Value * OpId * Operation * list nat) :=
  let* v := operandValue oprd in
  if decide (predecessor = v) then Ok (inl SUCCEED)
  else
    match getDefiningOp f v with
    | None => Ok (inl FAIL_ON_PATH)
    | Some d =>
        let* defOp := opAt f d in
        match logicBB defOp with
        | None => Ok (inl FAIL_ON_PATH)
        | Some defBB =>
            let* adjusted := adjustPath v (fst oprd) defBB path in
            Ok (match adjusted with inl r => inl r | inr path => inr (v, d, defOp, path) end)
        end
    end.

Notation Seen := (gmap (OpOperand * list nat) GIIDStatus).

Fixpoint isGIIDRec (fuel : nat) (oprd : OpOperand) (path : list nat) (seen : Seen) : res (GIIDStatus * Seen) :=
  match fuel with
  | O => Bad NoFuel
  | S fuel =>
      let* d := giidDefinition oprd path in
      match d with
      | inl r => Ok (r, seen)
      | inr (v, op, defOp, path) =>
          match seen !! (oprd, path) with
          | Some r => Ok (r, seen)
          | None =>
              let recurse newVal seen := let* o := operandOf op defOp newVal in isGIIDRec fuel o path seen in
              let* (result, seen) := giidSwitch recurse defOp v seen in
              Ok (result, <[(oprd, path) := result]> seen)
          end
      end
  end.

Definition isGIID (fuel : nat) (oprd : OpOperand) (path : list nat) : res bool :=
  let* (stat, _) := isGIIDRec fuel oprd path ∅ in Ok (bool_decide (stat = SUCCEED)).

(** * The search without a table *)

Fixpoint depends (fuel : nat) (oprd : OpOperand) (path : list nat) : res GIIDStatus :=
  match fuel with
  | O => Bad NoFuel
  | S fuel =>
      let* d := giidDefinition oprd path in
      match d with
      | inl r => Ok r
      | inr (v, op, defOp, path) =>
          let recurse newVal (s : unit) :=
            let* o := operandOf op defOp newVal in let* r := depends fuel o path in Ok (r, s) in
          let* (result, _) := giidSwitch recurse defOp v tt in Ok result
      end
  end.

End Circuit.
