(* ===== verification/GIIDThms.v ===== *)
(** The table of isGIID changes nothing, and the search ends on circuits whose only
    cycles go through backedges. *)

From stdpp Require Import strings gmap.
From S2P Require Import CircuitIR CFG HandshakeCFG GIID Prelude.

(** * Callbacks that agree *)

(** From some fuel on. *)
Definition enoughFuel (P : nat → Prop) : Prop := ∃ N, ∀ n, (N ≤ n)%nat → P n.

Lemma enoughFuel_and (P Q : nat → Prop) : enoughFuel P → enoughFuel Q → enoughFuel (λ n, P n ∧ Q n).
Proof. intros [N HP] [M HQ]. exists (N + M)%nat. intros n Hn. split; [apply HP|apply HQ]; lia. Qed.

Lemma enoughFuel_mono (P Q : nat → Prop) : (∀ n, P n → Q n) → enoughFuel P → enoughFuel Q.
Proof. intros H [N HP]. exists N. intros n Hn. by apply H, HP. Qed.

Lemma enoughFuel_always (P : nat → Prop) : (∀ n, P n) → enoughFuel P.
Proof. exists 0%nat. auto. Qed.

Section Agree.
Context {St : Type} (inv : St → Prop) (f1 : Value → St → res (GIIDStatus * St)).

(** What the first callback answers, the second ones answer from some fuel on. *)
Definition follows (f2 : nat → Value → unit → res (GIIDStatus * unit)) : Prop :=
  ∀ v s r s', inv s → f1 v s = Ok (r, s') → inv s' ∧ enoughFuel (λ n, f2 n v tt = Ok (r, tt)).

(** What the second callback answers, the first one answers too. *)
Definition replays (f2 : Value → unit → res (GIIDStatus * unit)) : Prop :=
  ∀ v s r, inv s → f2 v tt = Ok (r, tt) → ∃ s', f1 v s = Ok (r, s') ∧ inv s'.

Ltac follow H1 IH :=
  let r := fresh "r" in let s' := fresh "s'" in let Hr := fresh "Hr" in let Hi := fresh "Hi" in let He := fresh "He" in
  apply bind_ok in H1 as ([r s'] & Hr & H1);
  match goal with Hf : follows _, Hs : inv _ |- _ => destruct (Hf _ _ _ _ Hs Hr) as [Hi He] end.

Lemma foldOr_follows f2 l : follows f2 → ∀ stat s r s', inv s → foldOrFrom f1 stat l s = Ok (r, s') →
  inv s' ∧ enoughFuel (λ n, foldOrFrom (f2 n) stat l tt = Ok (r, tt)).
Proof.
  intros Hf. induction l as [|v l IH]; intros stat s r s' Hs H; simpl in H.
  - injection H as <- <-. split; [done|by apply enoughFuel_always].
  - follow H IH. destruct r0; [destruct (IH _ _ _ _ Hi H) as [? He']..|injection H as <- <-];
      (split; [done|]); [eapply enoughFuel_mono; [|exact (enoughFuel_and _ _ He He')]..|eapply enoughFuel_mono; [|exact He]];
      simpl; [intros n [-> ?]; done..|by intros n ->].
Qed.

Lemma foldAnd_follows f2 l : follows f2 → ∀ stat s r s', inv s → foldAndFrom f1 stat l s = Ok (r, s') →
  inv s' ∧ enoughFuel (λ n, foldAndFrom (f2 n) stat l tt = Ok (r, tt)).
Proof.
  intros Hf. induction l as [|v l IH]; intros stat s r s' Hs H; simpl in H.
  - injection H as <- <-. split; [done|by apply enoughFuel_always].
  - follow H IH. destruct r0; [destruct (IH _ _ _ _ Hi H) as [? He']|injection H as <- <-|destruct (IH _ _ _ _ Hi H) as [? He']];
      (split; [done|]);
      [eapply enoughFuel_mono; [|exact (enoughFuel_and _ _ He He')]|eapply enoughFuel_mono; [|exact He]
      |eapply enoughFuel_mono; [|exact (enoughFuel_and _ _ He He')]]; simpl; [by intros n [-> ?]|by intros n ->|by intros n [-> ?]].
Qed.

Lemma oneThenAll_follows f2 one all s r s' : follows f2 → inv s → oneThenAll f1 one all s = Ok (r, s') →
  inv s' ∧ enoughFuel (λ n, oneThenAll (f2 n) one all tt = Ok (r, tt)).
Proof.
  intros Hf Hs H. unfold oneThenAll in *. follow H IH.
  destruct r0; [destruct (foldAnd_follows _ _ Hf _ _ _ _ Hi H) as [? He']..|injection H as <- <-];
    (split; [done|]); [eapply enoughFuel_mono; [|exact (enoughFuel_and _ _ He He')]..|eapply enoughFuel_mono; [|exact He]];
    simpl; [by intros n [-> ?]..|by intros n ->].
Qed.

Lemma switch_follows f2 o v s r s' : follows f2 → inv s → giidSwitch f1 o v s = Ok (r, s') →
  inv s' ∧ enoughFuel (λ n, giidSwitch (f2 n) o v tt = Ok (r, tt)).
Proof.
  intros Hf Hs H. unfold giidSwitch in *.
  destruct (kind o); try (by eapply foldOr_follows); try (by eapply foldAnd_follows);
    try (injection H as <- <-; split; [done|by apply enoughFuel_always]).
  - apply bind_ok in H as (x & Hx & H). destruct (oneThenAll_follows f2 _ _ _ _ _ Hf Hs H) as [? He]. split; [done|].
    eapply enoughFuel_mono; [|exact He]. intros n Hn. by rewrite Hx.
  - apply bind_ok in H as (x & Hx & H). apply bind_ok in H as (y & Hy & H). apply bind_ok in H as (z & Hz & H).
    destruct (oneThenAll_follows f2 _ _ _ _ _ Hf Hs H) as [? He]. split; [done|].
    eapply enoughFuel_mono; [|exact He]. intros n Hn. by rewrite Hx, Hy, Hz.
  - apply bind_ok in H as (x & Hx & H). rewrite Hx. simpl. destruct (decide (x = v)).
    + apply bind_ok in H as (y & Hy & H). rewrite Hy. simpl. by apply (Hf _ _ _ _ Hs).
    + injection H as <- <-. split; [done|by apply enoughFuel_always].
Qed.

Ltac replay H1 :=
  let r := fresh "r" in let u := fresh "u" in let Hr := fresh "Hr" in let s' := fresh "s'" in
  apply bind_ok in H1 as ([r []] & Hr & H1);
  match goal with Hf : replays _, Hs : inv ?s |- _ => destruct (Hf _ s _ Hs Hr) as (s' & -> & ?) end; simpl.

Lemma foldOr_replays f2 l : replays f2 → ∀ stat s r, inv s → foldOrFrom f2 stat l tt = Ok (r, tt) →
  ∃ s', foldOrFrom f1 stat l s = Ok (r, s') ∧ inv s'.
Proof.
  intros Hf. induction l as [|v l IH]; intros stat s r Hs H; simpl in *; [injection H as <-; eauto|].
  replay H. destruct r0; [by apply IH..|]. injection H as <-. eauto.
Qed.

Lemma foldAnd_replays f2 l : replays f2 → ∀ stat s r, inv s → foldAndFrom f2 stat l tt = Ok (r, tt) →
  ∃ s', foldAndFrom f1 stat l s = Ok (r, s') ∧ inv s'.
Proof.
  intros Hf. induction l as [|v l IH]; intros stat s r Hs H; simpl in *; [injection H as <-; eauto|].
  replay H. destruct r0; [by apply IH|injection H as <-; eauto|by apply IH].
Qed.

Lemma oneThenAll_replays f2 one all s r : replays f2 → inv s → oneThenAll f2 one all tt = Ok (r, tt) →
  ∃ s', oneThenAll f1 one all s = Ok (r, s') ∧ inv s'.
Proof.
  intros Hf Hs H. unfold oneThenAll in *. replay H. destruct r0; [by apply (foldAnd_replays f2)..|]. injection H as <-. eauto.
Qed.

Lemma switch_replays f2 o v s r : replays f2 → inv s → giidSwitch f2 o v tt = Ok (r, tt) →
  ∃ s', giidSwitch f1 o v s = Ok (r, s') ∧ inv s'.
Proof.
  intros Hf Hs H. unfold giidSwitch in *.
  destruct (kind o); try (by apply (foldOr_replays f2)); try (by apply (foldAnd_replays f2)); try (injection H as <-; eauto; fail).
  - apply bind_ok in H as (x & -> & H). by apply (oneThenAll_replays f2).
  - apply bind_ok in H as (x & -> & H). apply bind_ok in H as (y & -> & H). apply bind_ok in H as (z & -> & H).
    by apply (oneThenAll_replays f2).
  - apply bind_ok in H as (x & -> & H). simpl. destruct (decide (x = v)); [|injection H as <-; eauto].
    apply bind_ok in H as (y & -> & H). by apply Hf.
Qed.

End Agree.

(** * The table *)

Section Table.
Context (f : FuncOp) (bfuel : nat) (predecessor : Value).
Notation depends := (depends f bfuel predecessor).
Notation isGIIDRec := (isGIIDRec f bfuel predecessor).
Notation Seen := (gmap (OpOperand * list nat) GIIDStatus).

(** The callback of the search without a table. *)
Definition plain (n : nat) (op : OpId) (defOp : Operation) (path : list nat) (newVal : Value) (s : unit)
    : res (GIIDStatus * unit) :=
  let* o := operandOf op defOp newVal in let* r := depends n o path in Ok (r, s).

(** The entries of the table are results: whatever path leads to the entry's path. *)
Definition seenOk (seen : Seen) : Prop :=
  ∀ oprd path path' v op defOp r, seen !! (oprd, path') = Some r →
  giidDefinition f bfuel predecessor oprd path = Ok (inr (v, op, defOp, path')) →
  enoughFuel (λ n, giidSwitch (plain n op defOp path') defOp v tt = Ok (r, tt)).

Lemma depends_unfold n oprd path : depends (S n) oprd path =
  let* d := giidDefinition f bfuel predecessor oprd path in
  match d with
  | inl r => Ok r
  | inr (v, op, defOp, path) => let* (result, _) := giidSwitch (plain n op defOp path) defOp v tt in Ok result
  end.
Proof. done. Qed.

(** The operand and the adjusted path determine the defining operation. *)
Lemma definition_same oprd p1 p2 p v1 v2 d1 d2 o1 o2 :
  giidDefinition f bfuel predecessor oprd p1 = Ok (inr (v1, d1, o1, p)) →
  giidDefinition f bfuel predecessor oprd p2 = Ok (inr (v2, d2, o2, p)) → v1 = v2 ∧ d1 = d2 ∧ o1 = o2.
Proof.
  unfold giidDefinition. intros H1 H2. apply bind_ok in H1 as (v & Hv & H1). rewrite Hv in H2. simpl in H2.
  destruct (decide (predecessor = v)); [done|]. destruct (getDefiningOp f v) as [d|]; [|done].
  apply bind_ok in H1 as (o & Ho & H1). rewrite Ho in H2. simpl in H2. destruct (logicBB o) as [bb|]; [|done].
  apply bind_ok in H1 as (a1 & _ & H1). apply bind_ok in H2 as (a2 & _ & H2).
  destruct a1, a2; try done. injection H1 as <- <- <- <-. injection H2 as <- <- <- _. done.
Qed.

Lemma memo_follows fuel : ∀ oprd path seen r seen', seenOk seen → isGIIDRec fuel oprd path seen = Ok (r, seen') →
  seenOk seen' ∧ enoughFuel (λ n, depends n oprd path = Ok r).
Proof.
  induction fuel as [|fuel IH]; intros oprd path seen r seen' Hs H; [done|]. simpl in H.
  apply bind_ok in H as (d & Hd & H). destruct d as [st|[[[v op] defOp] path']].
  { injection H as <- <-. split; [done|]. exists 1%nat. intros [|n] Hn; [lia|]. by rewrite depends_unfold, Hd. }
  assert (∀ st, enoughFuel (λ n, giidSwitch (plain n op defOp path') defOp v tt = Ok (st, tt)) →
    enoughFuel (λ n, depends n oprd path = Ok st)) as Hup.
  { intros st [N HN]. exists (S N). intros [|n] Hn; [lia|]. rewrite depends_unfold, Hd. simpl. by rewrite HN by lia. }
  destruct (seen !! (oprd, path')) as [st|] eqn:Hl.
  { injection H as <- <-. split; [done|]. apply Hup. by eapply Hs. }
  apply bind_ok in H as ([st seen1] & Hsw & [= <- <-]).
  unshelve epose proof (switch_follows seenOk _ (λ n, plain n op defOp path') defOp v seen st seen1 _ Hs Hsw) as [Hs1 He].
  { intros w s x s' Hok Hw. apply bind_ok in Hw as (o & Ho & Hw). destruct (IH _ _ _ _ _ Hok Hw) as [? He]. split; [done|].
    eapply enoughFuel_mono; [|exact He]. intros n Hn. unfold plain. rewrite Ho. simpl. by rewrite Hn. }
  split; [|by apply Hup]. intros oprd2 path2 p2 v2 op2 defOp2 r2 Hin Hdef.
  apply lookup_insert_Some in Hin as [[[= <- <-] <-]|[_ Hin]]; [|by eapply Hs1].
  destruct (definition_same _ _ _ _ _ _ _ _ _ _ Hd Hdef) as (<- & <- & <-). done.
Qed.

Lemma depends_mono n : ∀ m oprd path r, (n ≤ m)%nat → depends n oprd path = Ok r → depends m oprd path = Ok r.
Proof.
  induction n as [|n IH]; intros m oprd path r Hm H; [done|]. destruct m as [|m]; [lia|].
  rewrite depends_unfold in *. apply bind_ok in H as (d & -> & H). simpl. destruct d as [st|[[[v op] defOp] path']]; [done|].
  apply bind_ok in H as ([st []] & Hsw & [= <-]).
  destruct (switch_replays (λ _, True) (plain m op defOp path') (plain n op defOp path') defOp v tt st) as ([] & -> & _);
    [|done..].
  intros w [] x _ Hw. exists tt. split; [|done]. apply bind_ok in Hw as (o & Ho & Hw). apply bind_ok in Hw as (y & Hy & [= <-]).
  unfold plain. rewrite Ho. simpl. rewrite (IH m o path' y) by (done || lia). done.
Qed.

(** The search without a table has one result. *)
Lemma depends_unique n r r' oprd path : enoughFuel (λ k, depends k oprd path = Ok r') → depends n oprd path = Ok r → r = r'.
Proof.
  intros [N HN] H. specialize (HN (n + N)%nat ltac:(lia)). apply (depends_mono _ (n + N)) in H; [congruence|lia].
Qed.

Lemma memo_replays n : ∀ oprd path r seen, seenOk seen → depends n oprd path = Ok r →
  ∃ seen', isGIIDRec n oprd path seen = Ok (r, seen') ∧ seenOk seen'.
Proof.
  induction n as [|n IH]; intros oprd path r seen Hs H; [done|].
  destruct (isGIIDRec (S n) oprd path seen) as [[r' seen']|e] eqn:Hm.
  { destruct (memo_follows _ _ _ _ _ _ Hs Hm) as [Hs' He]. exists seen'. by rewrite (depends_unique _ _ _ _ _ He H). }
  exfalso. rewrite depends_unfold in H. simpl in Hm. apply bind_ok in H as (d & Hd & H). rewrite Hd in Hm. simpl in Hm.
  destruct d as [st|[[[v op] defOp] path']]; [done|]. apply bind_ok in H as ([st []] & Hsw & [= <-]).
  destruct (seen !! (oprd, path')) as [st'|]; [done|].
  destruct (switch_replays seenOk (λ newVal seen, let* o := operandOf op defOp newVal in isGIIDRec n o path' seen)
    (plain n op defOp path') defOp v seen st) as (s1 & Hok & _); [|done|done|by rewrite Hok in Hm].
  intros w s x Hok Hw. apply bind_ok in Hw as (o & Ho & Hw). apply bind_ok in Hw as (y & Hy & [= <-]).
  rewrite Ho. simpl. by apply IH.
Qed.

Lemma seenOk_empty : seenOk ∅.
Proof. intros oprd path path' v op defOp r H. by rewrite lookup_empty in H. Qed.

End Table.

(** C10.  The table of results changes nothing: isGIID gives the answer of the search that
    looks at every operand again, and whenever that search ends within some fuel,
    isGIID ends within it too. *)
Theorem isGIID_table f bfuel predecessor oprd path :
  (∀ fuel b, isGIID f bfuel predecessor fuel oprd path = Ok b →
    ∃ r, enoughFuel (λ n, depends f bfuel predecessor n oprd path = Ok r) ∧ b = bool_decide (r = SUCCEED))
  ∧ (∀ n r, depends f bfuel predecessor n oprd path = Ok r →
    isGIID f bfuel predecessor n oprd path = Ok (bool_decide (r = SUCCEED))).
Proof.
  split.
  - intros fuel b H. apply bind_ok in H as ([r seen] & Hr & [= <-]).
    destruct (memo_follows _ _ _ _ _ _ _ _ _ (seenOk_empty f bfuel predecessor) Hr) as [_ He]. by exists r.
  - intros n r H. destruct (memo_replays _ _ _ _ _ _ _ _ (seenOk_empty f bfuel predecessor) H) as (seen & Hr & _).
    unfold isGIID. by rewrite Hr.
Qed.

(** * The search ends *)

Section Ends.
Context (f : FuncOp) (bfuel : nat) (predecessor : Value) (rank : Value → nat) (R : nat).
Context (Hback : ∀ v u, fuelless (isBackedge f bfuel v u false)).
Context (Hrank : ∀ d o v w e, getDefiningOp f v = Some d → ops f !! d = Some o → w ∈ operands o →
  isBackedge f bfuel w d false = Ok (false, e) → (rank w < rank v)%nat).
Context (HR : ∀ v, (rank v ≤ R)%nat).

Lemma fuelless_bind_ok {A B} (m : res A) (k : A → res B) :
  fuelless m → (∀ a, m = Ok a → fuelless (k a)) → fuelless (bind m k).
Proof. destruct m; simpl; [auto|]. intros H _ [= ->]. by apply H. Qed.

Lemma fold_fuelless {St} (func : Value → St → res (GIIDStatus * St)) l :
  (∀ w s, w ∈ l → fuelless (func w s)) →
  ∀ stat s, fuelless (foldOrFrom func stat l s) ∧ fuelless (foldAndFrom func stat l s).
Proof.
  induction l as [|w l IH]; intros Hf stat s; simpl; [done|].
  assert (∀ stat s, fuelless (foldOrFrom func stat l s) ∧ fuelless (foldAndFrom func stat l s)) as Hl
    by (apply IH; intros; apply Hf; by right).
  split; (apply fuelless_bind; [apply Hf; left|]); intros [[] s']; done || apply Hl.
Qed.

Lemma switch_fuelless {St} (func : Value → St → res (GIIDStatus * St)) o v s :
  (∀ w s, w ∈ operands o → fuelless (func w s)) → fuelless (giidSwitch func o v s).
Proof.
  intros Hf. assert (∀ w s, w ∈ operands o → ∀ l, (∀ x, x ∈ l → x ∈ operands o) → fuelless (oneThenAll func w l s)) as Hone.
  { intros w x Hw l Hl. unfold oneThenAll. apply fuelless_bind; [by apply Hf|].
    intros [[] s']; [..|done]; apply fold_fuelless; intros; by apply Hf, Hl. }
  assert (∀ k w, at_ (operands o) k = Ok w → w ∈ operands o) as Hin by (intros k w H%at_ok; by eapply list_elem_of_lookup_2).
  unfold giidSwitch. destruct (kind o); try done; try (by apply fold_fuelless).
  - apply fuelless_bind_ok; [auto with dyn|]. intros x Hx. apply Hone; [by eapply Hin|done].
  - apply fuelless_bind_ok; [auto with dyn|]. intros x Hx. apply fuelless_bind_ok; [auto with dyn|]. intros y Hy.
    apply fuelless_bind_ok; [auto with dyn|]. intros z Hz. apply Hone; [by eapply Hin|].
    intros w [->|[->|Hw%elem_of_nil]%elem_of_cons]%elem_of_cons; [by eapply Hin..|done].
  - apply fuelless_bind; [auto with dyn|]. intros d. destruct (decide (d = v)); [|done].
    apply fuelless_bind_ok; [auto with dyn|]. intros x Hx. apply Hf. by eapply Hin.
Qed.

Lemma operandOf_ok op o w oprd : ops f !! op = Some o → operandOf op o w = Ok oprd → fst oprd = op ∧ operandValue f oprd = Ok w.
Proof.
  intros Ho H. apply bind_ok in H as (i & Hi%of_option_ok & [= <-]). split; [done|].
  apply fmap_Some in Hi as ([j x] & (Hj & -> & _)%list_find_Some & ->).
  unfold operandValue, opAt. simpl. rewrite Ho. simpl. by apply at_ok.
Qed.

Lemma foundOnPath_length path bb idx p : foundOnPath path bb idx = Some p → (1 ≤ length p ≤ length path)%nat.
Proof.
  induction idx as [|i IH]; [done|]. cbn [foundOnPath]. destruct (decide _) as [Hd|]; [|done]. intros [= <-].
  apply lookup_lt_Some in Hd. rewrite length_take. lia.
Qed.

(** The fuel an operand needs. *)
Definition need (oprd : OpOperand) (path : list nat) : nat :=
  match operandValue f oprd with
  | Ok v =>
      match isBackedge f bfuel v (fst oprd) false with
      | Ok (true, _) => (pred (length path) * S R + rank v)%nat
      | Ok (false, _) => (length path * S R + rank v)%nat
      | Bad _ => 0%nat
      end
  | Bad _ => 0%nat
  end.

Lemma definition_need oprd path v op defOp path' :
  giidDefinition f bfuel predecessor oprd path = Ok (inr (v, op, defOp, path')) →
  getDefiningOp f v = Some op ∧ ops f !! op = Some defOp ∧ (1 ≤ length path')%nat
  ∧ (length path' * S R + rank v ≤ need oprd path)%nat.
Proof.
  unfold giidDefinition, need. intros H. apply bind_ok in H as (x & -> & H). destruct (decide (predecessor = x)); [done|].
  destruct (getDefiningOp f x) as [d|] eqn:Hd; [|done]. apply bind_ok in H as (o & Ho%of_option_ok & H).
  destruct (logicBB o) as [bb|]; [|done]. apply bind_ok in H as (a & Ha & H). destruct a as [?|p]; [done|].
  injection H as <- <- <- <-. split; [done|]. split; [done|]. unfold adjustPath in Ha.
  apply bind_ok in Ha as ([[] e] & -> & Ha).
  - destruct (length path =? 1)%nat; [done|]. apply bind_ok in Ha as (? & _ & Ha).
    destruct (decide _) as [Hlast|]; [|done]. injection Ha as <-. rewrite length_take.
    destruct path as [|b path]; [done|]. cbn [length pred] in *.
    assert (length path ≠ 0%nat) by (intros E; rewrite E in Hlast; done).
    replace (S (length path) - 1)%nat with (length path) by lia. split; lia.
  - destruct (foundOnPath path bb (length path)) as [q|] eqn:Hq; [|done]. injection Ha as <-.
    apply foundOnPath_length in Hq. split; [lia|]. nia.
Qed.

Lemma rec_ends fuel : ∀ oprd path seen, (need oprd path < fuel)%nat → fuelless (isGIIDRec f bfuel predecessor fuel oprd path seen).
Proof.
  induction fuel as [|fuel IH]; intros oprd path seen Hn; [lia|]. simpl. apply fuelless_bind_ok.
  { unfold giidDefinition, operandValue, opAt. fuelless. destruct (decide _); [done|]. destruct (getDefiningOp f _); [|done].
    fuelless. destruct (logicBB _); [|done]. fuelless. unfold adjustPath. apply fuelless_bind; [apply Hback|].
    intros [[] ?]; [|by destruct (foundOnPath _ _ _)]. destruct (length path =? 1)%nat; [done|].
    apply fuelless_bind; [unfold assert_; by destruct (negb _)|done]. }
  intros [st|[[[v op] defOp] path']] Hd; [done|]. destruct (definition_need _ _ _ _ _ _ Hd) as (Hv & Ho & Hl & Hneed).
  destruct (seen !! _); [done|]. apply fuelless_bind; [|by intros []]. apply switch_fuelless. intros w s Hw.
  apply fuelless_bind_ok; [unfold operandOf; fuelless|]. intros [op' i] Hoprd.
  destruct (operandOf_ok _ _ _ _ Ho Hoprd) as [Hop Hval]. simpl in Hop. subst op'. apply IH.
  unfold need. rewrite Hval. simpl. destruct (isBackedge f bfuel w op false) as [[[] e]|e] eqn:He; [..|lia].
  - pose proof (HR w). destruct (length path') as [|len]; [lia|]. cbn [pred]. lia.
  - pose proof (Hrank _ _ _ _ _ Hv Ho Hw He). lia.
Qed.

End Ends.

(** C29.  isGIID ends on circuits all of whose cycles have a backedge: each backedge takes
    it one block back along the path, and from one backedge to the next it goes
    towards values of a lower rank. *)
Theorem isGIID_ends f bfuel predecessor (rank : Value → nat) R fuel oprd path :
  (∀ v u, isBackedge f bfuel v u false ≠ Bad NoFuel) →
  (∀ d o v w e, getDefiningOp f v = Some d → ops f !! d = Some o → w ∈ operands o →
    isBackedge f bfuel w d false = Ok (false, e) → (rank w < rank v)%nat) →
  (∀ v, (rank v ≤ R)%nat) → (length path * S R + R < fuel)%nat →
  isGIID f bfuel predecessor fuel oprd path ≠ Bad NoFuel.
Proof.
  intros Hb Hr HR Hf. apply fuelless_bind; [|by intros []]. apply (rec_ends f bfuel predecessor rank R Hb Hr HR).
  unfold need. destruct (operandValue f oprd) as [v|]; [|lia]. pose proof (HR v).
  destruct (isBackedge f bfuel v (fst oprd) false) as [[[] ?]|]; [|lia..]. destruct (length path); simpl; lia.
Qed.
