(* ===== verification/CFGExamples.v ===== *)
(** Circuits with a loop over blocks: what the analyses of control flow find. *)

From stdpp Require Import strings gmap relations.
From S2P Require Import SimplePaths CircuitIR CFG HandshakeCFG HandshakeCFGThms GIID GIIDThms Prelude.

Definition inBlock (name : string) (k : OpKind) (ins outs : list Value) (bb : nat) : Operation :=
  mkOperation name k ins outs (Some bb).

(** Block 0 leads to block 1, a loop, and from there to block 2. *)
Definition looping : FuncOp := mkFuncOp [0]%nat
  [inBlock "br0" BranchOp [0] [1] 0;
   inBlock "control_merge0" ControlMergeOp [1; 5] [2; 3] 1;
   inBlock "fork0" ForkOp [2] [8; 9] 1;
   inBlock "cmpi0" GenericOp [8] [4] 1;
   inBlock "cond_br0" ConditionalBranchOp [4; 9] [7; 5] 1;
   inBlock "sink0" SinkOp [3] [] 1;
   inBlock "control_merge1" ControlMergeOp [7] [10; 11] 2;
   inBlock "sink1" SinkOp [11] [] 2;
   inBlock "end0" OtherOp [10] [] 2]%nat.

Definition elems (s : gset nat) : list nat := elements s.

Definition getOk {A} (d : A) (r : res A) : A := match r with Ok a => a | Bad _ => d end.
Definition looping_cfg : HandshakeCFG := getOk (mkHandshakeCFG ∅ ∅) (HandshakeCFG_new looping 20).

Lemma looping_cfg_ok : HandshakeCFG_new looping 20 = Ok looping_cfg.
Proof. vm_compute. reflexivity. Qed.

(** What a search returns, without the graph it leaves. *)
Definition paths_found (r : res (HandshakeCFG * list (list nat))) : res (list (list nat)) :=
  let* (_, ps) := r in Ok ps.

Definition always (_ : gmap nat (gset nat)) (_ : nat) : bool := true.
Definition never (_ : gmap nat (gset nat)) (_ : nat) : bool := false.

Lemma looping_paths : paths_found (getNonCyclicPaths always elems 20 0 2 looping_cfg []) = Ok [[0; 1; 2]]%nat.
Proof. vm_compute. reflexivity. Qed.

(** The search from block 1 to block 0 comes to block 2, which has no successors, in the
    loop over those of block 1. *)
Lemma looping_dead_end :
  paths_found (getNonCyclicPaths always elems 20 1 0 looping_cfg []) = Bad UseAfterErase
  ∧ paths_found (getNonCyclicPaths never elems 20 1 0 looping_cfg []) = Ok [].
Proof. split; vm_compute; reflexivity. Qed.

Lemma getNonCyclicPaths_spec_witness :
  match getNonCyclicPaths always elems 20 0 2 looping_cfg [] with
  | Ok (g', ps) => NoDup ps
      ∧ (∀ p, p ∈ ps ↔ ∃ s, p = 0%nat :: s ∧ blockWalk looping 20 0 s ∧ NoDup p ∧ list.last p = Some 2%nat)
      ∧ (0%nat = 2%nat → ps = [[0%nat]])
      ∧ (∀ a b, b ∈ default ∅ (successors g' !! a) ↔ arc looping 20 a b)
  | Bad e => e = UseAfterErase ∧ 0%nat ≠ 2%nat
      ∧ ∃ s b, blockWalk looping 20 0 s ∧ NoDup (0%nat :: s) ∧ list.last s = Some b ∧ b ≠ 2%nat
        ∧ (∀ c, ¬ arc looping 20 b c) ∧ ∃ m, always m b = true
  end.
Proof.
  apply (getNonCyclicPaths_spec looping 20 looping_cfg always elems 20 0 2 looping_cfg_ok (λ _, Permutation_refl _)).
  - apply (bool_decide_unpack (0%nat ∈ bbs looping_cfg)). vm_compute. exact I.
  - apply (bool_decide_unpack (2%nat ∈ bbs looping_cfg)). vm_compute. exact I.
  - vm_compute. lia.
Defined.

(** The block is on a cycle all the same. *)
Lemma looping_arc : arc looping 20 1 1.
Proof.
  apply (HandshakeCFG_arcs looping 20 looping_cfg looping_cfg_ok).
  apply (bool_decide_unpack (1%nat ∈ default ∅ (successors looping_cfg !! 1%nat))). vm_compute. exact I.
Qed.

Lemma isChannelOnCycle_spec_witness :
  ∃ b, isChannelOnCycle looping 20 9 = Ok b ∧ (b = true ↔ tc (followedBy looping) 9%nat 9%nat).
Proof. apply (isChannelOnCycle_spec looping 9 20). vm_compute. lia. Defined.

Lemma looping_cycles : isChannelOnCycle looping 20 9 = Ok true ∧ isChannelOnCycle looping 20 7 = Ok false.
Proof. split; vm_compute; reflexivity. Qed.

Lemma getControlValues_spec_witness :
  ∃ ok vals, getControlValues looping 20 ∅ = Ok (ok, vals)
    ∧ (ok = false ↔ ∃ bb v v', controlValue looping 0 bb v ∧ controlValue looping 0 bb v' ∧ v ≠ v')
    ∧ (ok = true → ∀ bb v, vals !! bb = Some v ↔ controlValue looping 0 bb v).
Proof.
  apply (getControlValues_spec looping 20 looping_cfg 0 20 looping_cfg_ok).
  - reflexivity.
  - intros i o Hi Hk. do 9 (destruct i as [|i]; [injection Hi as <-; try done; by eexists|]). done.
  - simpl. lia.
Defined.

Lemma looping_control : getControlValues looping 20 ∅ = Ok (true, {[0%nat := 0%nat; 1%nat := 2%nat; 2%nat := 10%nat]}).
Proof. vm_compute. reflexivity. Qed.

(** * Dependence *)

(** The number of steps from the argument, without the backedge. *)
Definition looping_rank (v : Value) : nat := default 0%nat ([0; 1; 2; 2; 4; 5; 0; 5; 3; 3; 6; 6]%nat !! v).

Lemma backedge_used f n v u : u ∉ getUsers f v → isBackedge f n v u false = Bad AssertFailed.
Proof. intros H. unfold isBackedge, getBBEndpoints. by rewrite bool_decide_false. Qed.

Lemma looping_backedge v u : isBackedge looping 20 v u false ≠ Bad NoFuel.
Proof.
  destruct (decide (u ∈ getUsers looping v)) as [Hu|Hu]; [|by rewrite backedge_used].
  apply getUsers_elem in Hu as (o & Ho & Hv).
  do 9 (destruct u as [|u]; [injection Ho as <-; repeat (apply elem_of_cons in Hv as [->|Hv]; [by vm_compute|]); by apply elem_of_nil in Hv|]).
  done.
Qed.

Lemma looping_ranked d o v w e : getDefiningOp looping v = Some d → ops looping !! d = Some o → w ∈ operands o →
  isBackedge looping 20 w d false = Ok (false, e) → (looping_rank w < looping_rank v)%nat.
Proof.
  intros Hv Ho Hw He. do 12 (destruct v as [|v]; [try discriminate Hv; injection Hv as <-; injection Ho as <-;
    repeat (apply elem_of_cons in Hw as [->|Hw]; [try (vm_compute in He; discriminate He); vm_compute; lia|]); by apply elem_of_nil in Hw|]).
  by apply fmap_Some in Hv as ([i x] & (Hi & Hx & _)%list_find_Some & _); simpl in *;
    do 9 (destruct i as [|i]; [injection Hi as <-; simpl in Hx; set_unfold; lia|]).
Qed.

Lemma isGIID_ends_witness : isGIID looping 20 1 28 (8, 0)%nat [0; 1; 2]%nat ≠ Bad NoFuel.
Proof.
  apply (isGIID_ends looping 20 1 looping_rank 6 28 (8, 0)%nat [0; 1; 2]%nat looping_backedge looping_ranked).
  - intros v. do 12 (destruct v as [|v]; [vm_compute; lia|]). vm_compute. lia.
  - simpl. lia.
Defined.

(** The end of the circuit depends on the branch of the first block. *)
Lemma looping_depends : isGIID looping 20 1 28 (8, 0)%nat [0; 1; 2]%nat = Ok true.
Proof. vm_compute. reflexivity. Qed.

Lemma isGIID_table_witness :
  (∃ r, enoughFuel (λ n, depends looping 20 1 n (8, 0)%nat [0; 1; 2]%nat = Ok r) ∧ true = bool_decide (r = SUCCEED))
  ∧ isGIID looping 20 1 28 (8, 0)%nat [0; 1; 2]%nat = Ok (bool_decide (SUCCEED = SUCCEED)).
Proof.
  split.
  - apply (proj1 (isGIID_table looping 20 1 (8, 0)%nat [0; 1; 2]%nat) 28%nat true). vm_compute. reflexivity.
  - apply (proj2 (isGIID_table looping 20 1 (8, 0)%nat [0; 1; 2]%nat) 28%nat SUCCEED). vm_compute. reflexivity.
Defined.

(** The data of a branch is the predecessor, its condition an argument: the output is
    not found to depend on the predecessor. *)
Definition conditional : FuncOp := mkFuncOp [0; 1]%nat
  [inBlock "cond_br0" ConditionalBranchOp [1; 0] [2; 3] 0; inBlock "end0" OtherOp [2] [] 0; inBlock "sink0" SinkOp [3] [] 0]%nat.

Lemma branch_needs_condition : isGIID conditional 20 0 20 (1, 0)%nat [0]%nat = Ok false.
Proof. vm_compute. reflexivity. Qed.

(** The data of a mux depends on the predecessor, its select input is an argument. *)
Definition selecting : FuncOp := mkFuncOp [0; 1]%nat
  [inBlock "mux0" MuxOp [1; 0; 0] [2] 0; inBlock "end0" OtherOp [2] [] 0]%nat.

Lemma mux_needs_select : isGIID selecting 20 0 20 (1, 0)%nat [0]%nat = Ok false.
Proof. vm_compute. reflexivity. Qed.
