(* ===== verification/LSQGraph.v ===== *)
(** The graph of the units of a choice-free circuit on which load-store queues are
    sized (LSQSizingSupport.cpp). *)

From stdpp Require Import strings gmap.
From S2P Require Import StdString Gaussian CircuitIR CFG Prelude.

(** * Data *)

Record CFDFCNode := mkNode {
  latency : Z; earliestStartTime : Z; op : option OpId;
  edges : list string; backedges : list string; shiftingedges : list string }.

(** The hash maps of the nodes and of the arrival times along edges. *)
Record CFDFCGraph := mkGraph {
  nodes : gmap string CFDFCNode; edgeMinLatencies : gmap string (gmap string Z) }.

Definition nodeAt (g : CFDFCGraph) (n : string) : res CFDFCNode := of_option OutOfRange (nodes g !! n).

(** [insert]: an entry that is there stays. *)
Definition insertNode (n : string) (x : CFDFCNode) (g : CFDFCGraph) : CFDFCGraph :=
  match nodes g !! n with
  | Some _ => g
  | None => mkGraph (<[n := x]> (nodes g)) (edgeMinLatencies g)
  end.

Definition setNode (n : string) (x : CFDFCNode) (g : CFDFCGraph) : CFDFCGraph :=
  mkGraph (<[n := x]> (nodes g)) (edgeMinLatencies g).

Definition set_erase (x : string) (s : list string) : list string := filter (λ y, y ≠ x) s.

Definition withEdges (es : list string) (x : CFDFCNode) : CFDFCNode :=
  mkNode (latency x) (earliestStartTime x) (op x) es (backedges x) (shiftingedges x).
Definition withBackedges (es : list string) (x : CFDFCNode) : CFDFCNode :=
  mkNode (latency x) (earliestStartTime x) (op x) (edges x) es (shiftingedges x).
Definition withShifting (es : list string) (x : CFDFCNode) : CFDFCNode :=
  mkNode (latency x) (earliestStartTime x) (op x) (edges x) (backedges x) es.
Definition withLatency (l : Z) (x : CFDFCNode) : CFDFCNode :=
  mkNode l (earliestStartTime x) (op x) (edges x) (backedges x) (shiftingedges x).
Definition withStart (t : Z) (x : CFDFCNode) : CFDFCNode :=
  mkNode (latency x) t (op x) (edges x) (backedges x) (shiftingedges x).

(** The sum of two [int]s. *)
Definition addInt (a b : Z) : res Z := int int_ok (a + b).

Definition backedgePrefix : string := "backedge_".

(** * Paths *)

Notation Path := (list string).

(** The search goes on over the edges, then over the kinds of edges that are not
    ignored. *)
Fixpoint dfsAllPaths (g : CFDFCGraph) (fuel : nat) (current end_ : string) (currentPath : Path) (visited : gset string)
    (paths : list Path) (ignoreBackedges ignoreShiftingEdge : bool) : res (list Path) :=
  match fuel with
  | O => Bad NoFuel
  | S fuel =>
      if decide (current = end_) then Ok (paths ++ [currentPath])
      else
        let* x := nodeAt g current in
        let visit neighbors paths :=
          foldM (λ paths neighbor,
            if bool_decide (neighbor ∈ visited) then Ok paths
            else dfsAllPaths g fuel neighbor end_ (currentPath ++ [neighbor]) ({[neighbor]} ∪ visited) paths
                   ignoreBackedges ignoreShiftingEdge) paths neighbors in
        let* paths := visit (edges x) paths in
        let* paths := if ignoreBackedges then Ok paths else visit (backedges x) paths in
        if ignoreShiftingEdge then Ok paths else visit (shiftingedges x) paths
  end.

Definition findPathsNamed (g : CFDFCGraph) (fuel : nat) (start end_ : string) (ignoreBackedge ignoreShiftingEdge : bool)
    : res (list Path) :=
  dfsAllPaths g fuel start end_ [start] {[start]} [] ignoreBackedge ignoreShiftingEdge.

Definition getPathLatency (g : CFDFCGraph) (path : Path) : res Z :=
  foldM (λ l n, let* x := nodeAt g n in addInt l (latency x)) 0 path.

(** The greatest latency so far and the path it belongs to. *)
Fixpoint dfsLongestAcyclicPath (g : CFDFCGraph) (fuel : nat) (current : string) (visited : gset string) (currentPath : Path)
    (maxLatency : Z) (bestPath : Path) : res (Z * Path) :=
  match fuel with
  | O => Bad NoFuel
  | S fuel =>
      let visited := {[current]} ∪ visited in
      let currentPath := currentPath ++ [current] in
      let* currentLatency := getPathLatency g currentPath in
      let '(maxLatency, bestPath) := if maxLatency <? currentLatency then (currentLatency, currentPath) else (maxLatency, bestPath) in
      let* x := nodeAt g current in
      foldM (λ '(maxLatency, bestPath) neighbor,
        if bool_decide (neighbor ∈ visited) then Ok (maxLatency, bestPath)
        else dfsLongestAcyclicPath g fuel neighbor visited currentPath maxLatency bestPath) (maxLatency, bestPath) (edges x)
  end.

Section Circuit.
Context (f : FuncOp).

Definition getUniqueName (i : OpId) : res string := let* o := opAt f i in Ok (opName o).

(** * Building the graph *)

Definition addNode (g : CFDFCGraph) (i : OpId) (latency : Z) : res CFDFCGraph :=
  let* n := getUniqueName i in Ok (insertNode n (mkNode latency (-1) (Some i) [] [] []) g).

Definition addEdge (g : CFDFCGraph) (src dest : OpId) : res CFDFCGraph :=
  let* s := getUniqueName src in
  let* x := nodeAt g s in
  let* d := getUniqueName dest in
  Ok (setNode s (withEdges (set_insert d (edges x)) x) g).

Definition addBackedge (latency : Z) (g : CFDFCGraph) (src dest : OpId) : res CFDFCGraph :=
  let* srcName := getUniqueName src in
  let* destName := getUniqueName dest in
  let newNodeName := (backedgePrefix +:+ srcName +:+ "_" +:+ destName)%string in
  let* x := nodeAt g srcName in
  let g := setNode srcName (withBackedges (set_erase destName (backedges x)) (withEdges (set_erase destName (edges x)) x)) g in
  let g := insertNode newNodeName (mkNode latency (-1) None [] [destName] []) g in
  let* x := nodeAt g srcName in
  Ok (setNode srcName (withBackedges (set_insert newNodeName (backedges x)) x) g).

Definition addShiftingEdge (g : CFDFCGraph) (src dest : OpId) (shiftingLatency : Z) : res CFDFCGraph :=
  let* srcName := getUniqueName src in
  let* destName := getUniqueName dest in
  let newNodeName := ("shifting_" +:+ srcName +:+ "_" +:+ destName)%string in
  let* x := nodeAt g srcName in
  let* _ := assert_ (negb (set_mem destName (edges x))) in
  let g := insertNode newNodeName (mkNode shiftingLatency (-1) None [] [] [destName]) g in
  let* x := nodeAt g srcName in
  Ok (setNode srcName (withShifting (set_insert newNodeName (shiftingedges x)) x) g).

(** An edge to every user of a value. *)
Definition addToUsers (add : CFDFCGraph → OpId → OpId → res CFDFCGraph) (v : Value) (g : CFDFCGraph) : res CFDFCGraph :=
  foldM (λ g user, let* src := of_option NullDeref (getDefiningOp f v) in add g src user) g (getUsers f v).

Definition addChannelEdges : Value → CFDFCGraph → res CFDFCGraph := addToUsers addEdge.
Definition addChannelBackedges (v : Value) (latency : Z) : CFDFCGraph → res CFDFCGraph := addToUsers (addBackedge latency) v.

(** [timingDB] gives the latency of an operation the timing database knows. *)
Definition extractNodeLatency (timingDB : OpId → option Z) (i : OpId) : res Z :=
  match timingDB i with
  | Some l => Ok l
  | None => let* o := opAt f i in Ok (match kind o with BufferOp _ latencyDV => wrapS 32 latencyDV | _ => 0 end)
  end.

Definition isCFDFCBackedge (fuel : nat) (v : Value) : res bool :=
  let* (backedge, _) := isBackedgeOf f fuel v false in
  if negb backedge then Ok false
  else
    let* def := of_option NullDeref (getDefiningOp f v) in
    let* defOp := opAt f def in
    let* user := of_option NullDeref (head (getUsers f v)) in
    let* dst := getLogicBB f user in
    Ok (match logicBB defOp, dst with
        | Some s, Some d => if decide (s = d) then bool_decide (kind defOp = ConditionalBranchOp) else true
        | Some _, None => true
        | None, _ => false
        end).

(** The blocks follow one another in the cycle of blocks. *)
Definition consecutive (cfdfcBBs : list nat) (src dst : nat) : bool :=
  existsb (λ i, let next := if (i =? length cfdfcBBs - 1)%nat then 0%nat else S i in
    bool_decide (cfdfcBBs !! i = Some src) && bool_decide (cfdfcBBs !! next = Some dst)) (seq 0 (length cfdfcBBs)).

(** A channel with the backedge it may be. *)
Definition addChannel (fuel : nat) (ii : Z) (v : Value) (g : CFDFCGraph) : res CFDFCGraph :=
  let* g := addChannelEdges v g in
  let* back := isCFDFCBackedge fuel v in
  if back : bool then addChannelBackedges v (wrapS 32 (- ii)) g else Ok g.

Definition addResult (fuel : nat) (cfdfcBBs : list nat) (ii : Z) (srcBB : nat) (g : CFDFCGraph) (v : Value) : res CFDFCGraph :=
  let* user := singleUser f v in
  let* dst := getLogicBB f user in
  match dst with
  | None => Ok g
  | Some dstBB =>
      if negb (bool_decide (srcBB = dstBB)) then
        if consecutive cfdfcBBs srcBB dstBB then addChannel fuel ii v g else Ok g
      else if (length cfdfcBBs =? 1)%nat then addChannel fuel ii v g
      else
        let* (back, _) := isBackedgeOf f fuel v false in
        if back : bool then Ok g else addChannelEdges v g
  end.

Definition CFDFCGraph_new (fuel : nat) (cfdfcBBs : list nat) (timingDB : OpId → option Z) (ii : Z) : res CFDFCGraph :=
  foldM (λ g '(i, o),
    match logicBB o with
    | None => Ok g
    | Some srcBB =>
        if negb (bool_decide (srcBB ∈ cfdfcBBs)) then Ok g
        else
          let* l := extractNodeLatency timingDB i in
          let* g := addNode g i l in
          foldM (addResult fuel cfdfcBBs ii srcBB) g (results o)
    end) (mkGraph ∅ ∅) (imap pair (ops f)).

(** * Queries *)

Definition findPaths (g : CFDFCGraph) (fuel : nat) (startOp endOp : OpId) (ignoreBackedge ignoreShiftingEdge : bool)
    : res (list Path) :=
  let* s := getUniqueName startOp in
  let* e := getUniqueName endOp in
  findPathsNamed g fuel s e ignoreBackedge ignoreShiftingEdge.

Definition findLongestNonCyclicPath (g : CFDFCGraph) (fuel : nat) (startOp : OpId) : res Path :=
  let* start := getUniqueName startOp in
  let* (_, bestPath) := dfsLongestAcyclicPath g fuel start ∅ [] 0 [] in Ok bestPath.

Definition findMaxPathLatency (g : CFDFCGraph) (fuel : nat) (startOp endOp : OpId)
    (ignoreBackedge ignoreShiftingEdge excludeLastNodeLatency : bool) : res Z :=
  let* paths :=
    if negb ignoreBackedge && negb ignoreShiftingEdge then
      let* paths1 := findPaths g fuel startOp endOp false true in
      let* paths2 := findPaths g fuel startOp endOp true false in
      Ok (paths1 ++ paths2)
    else findPaths g fuel startOp endOp ignoreBackedge ignoreShiftingEdge in
  foldM (λ maxLatency path,
    let path := if excludeLastNodeLatency then removelast path else path in
    let* l := getPathLatency g path in Ok (Z.max maxLatency l)) 0 paths.

Definition findMinPathLatency (g : CFDFCGraph) (fuel : nat) (startOp endOp : OpId) (ignoreBackedge ignoreShiftingEdge : bool)
    : res Z :=
  let* paths := findPaths g fuel startOp endOp ignoreBackedge ignoreShiftingEdge in
  foldM (λ minLatency path, let* l := getPathLatency g path in Ok (Z.min minLatency l)) INT_MAX paths.

Definition getConnectedOps (g : CFDFCGraph) (i : OpId) : res (list (option OpId)) :=
  let* n := getUniqueName i in
  let* x := nodeAt g n in
  let* direct := mapM (λ m, let* y := nodeAt g m in Ok (op y)) (edges x) in
  let* through := mapM (λ a, let* y := nodeAt g a in mapM (λ m, let* z := nodeAt g m in Ok (op z)) (backedges y)) (backedges x) in
  Ok (direct ++ concat through).

(** [nodes] is visited in the order [order]. *)
Notation NodeOrder := (gmap string CFDFCNode → list (string * CFDFCNode)).

Definition getOperations (order : NodeOrder) (g : CFDFCGraph) : list OpId := omap (λ nx, op (snd nx)) (order (nodes g)).

Definition getOperationsWithOpType (isType : OpKind → bool) (order : NodeOrder) (g : CFDFCGraph) : res (list OpId) :=
  foldM (λ l i, let* o := opAt f i in Ok (if isType (kind o) then l ++ [i] else l)) [] (getOperations order g).

(** The latency of the backedges' nodes changes. *)
Definition setNewII (ii : Z) (g : CFDFCGraph) : CFDFCGraph :=
  mkGraph (map_imap (λ n x, Some (if String.index 0 backedgePrefix n then withLatency (wrapS 32 (- ii)) x else x)) (nodes g))
    (edgeMinLatencies g).

(** * Load-store queues *)

(** The set of operations to explore grows during the iteration; the model visits
    what is inserted. *)
Fixpoint exploreMem (fuel : nat) (explore : list OpId) (visited : gset OpId) : res (option OpId) :=
  match explore with
  | [] => Ok None
  | i :: explore =>
      match fuel with
      | O => Bad NoFuel
      | S fuel =>
          if bool_decide (i ∈ visited) then exploreMem fuel explore visited
          else
            let* o := opAt f i in
            if isMemoryOp (kind o) then Ok (Some i)
            else
              let more := match kind o with ExtSIOp | ExtUIOp | TruncIOp | ForkOp | LazyForkOp => opUsers f o | _ => [] end in
              exploreMem fuel (explore ++ more) ({[i]} ∪ visited)
      end
  end.
Definition findMemInterface (fuel : nat) (v : Value) : res (option OpId) := exploreMem fuel (getUsers f v) ∅.

Definition isConnectedToLSQ (fuel : nat) (i : OpId) : res bool :=
  let* o := opAt f i in
  match kind o with
  | LoadOp | StoreOp =>
      let* addressResult := at_ (results o) 0 in
      let* memOp := findMemInterface fuel addressResult in
      match memOp with
      | None => Ok false
      | Some m => let* mem := opAt f m in Ok (bool_decide (kind mem = LSQOp))
      end
  | _ => Ok false
  end.

(** The first user that is a load-store queue. *)
Definition lsqUser (i : OpId) : res (option OpId) :=
  let* o := opAt f i in
  let* users := mapM (λ u, let* x := opAt f u in Ok (u, kind x)) (opUsers f o) in
  Ok ((λ p, fst (snd p)) <$> list_find (λ u, snd u = LSQOp) users).

Definition getWorstCaseII (order : NodeOrder) (g : CFDFCGraph) (fuel : nat) : res Z :=
  foldM (λ maxLatency i,
    let* lsqOp := lsqUser i in
    match lsqOp with
    | None => Ok maxLatency
    | Some _ =>
        let* o := opAt f i in
        let* tempMaxLatency :=
          if decide (kind o = LoadOp) then
            foldM (λ temp j,
              let* other := opAt f j in
              if decide (kind other = StoreOp) then
                let* connected := isConnectedToLSQ fuel j in
                if connected : bool then
                  let* latency := findMaxPathLatency g fuel i j true true false in
                  Ok (Z.max temp (wrapU 32 latency))
                else Ok temp
              else Ok temp) 0 (getOperations order g)
          else Ok 0 in
        Ok (Z.max maxLatency tempMaxLatency)
    end) 0 (getOperations order g).

(** * Start times *)

Definition isMergeNode (x : CFDFCNode) : res bool :=
  match op x with None => Ok false | Some i => let* o := opAt f i in Ok (isMergeLike (kind o)) end.

(** The order in which the arrival times are visited does not matter for their least
    and greatest value. *)
Definition updateStartTimeForNode (g : CFDFCGraph) (node prevNode : string) : res CFDFCGraph :=
  let* x := nodeAt g node in
  let* prev := nodeAt g prevNode in
  let* prevNodePathTime := addInt (earliestStartTime prev) (latency prev) in
  let* _ := assert_ (negb (earliestStartTime prev =? -1)) in
  let incoming := default ∅ (edgeMinLatencies g !! node) in
  let incoming := <[prevNode := Z.max (default 0 (incoming !! prevNode)) prevNodePathTime]> incoming in
  let g := mkGraph (nodes g) (<[node := incoming]> (edgeMinLatencies g)) in
  let times := map snd (map_to_list incoming) in
  let* merge := isMergeNode x in
  let start := if merge : bool then foldr Z.min INT_MAX times else foldr Z.max 0 times in
  Ok (if start =? earliestStartTime x then g else setNode node (withStart start x) g).

Fixpoint setEarliestStartTimesFrom (fuel : nat) (prevNode : string) (visited : gset string) (g : CFDFCGraph) : res CFDFCGraph :=
  match fuel with
  | O => Bad NoFuel
  | S fuel =>
      if bool_decide (prevNode ∈ visited) then Ok g
      else
        let visited := {[prevNode]} ∪ visited in
        let go neighbors g :=
          foldM (λ g node, let* g := updateStartTimeForNode g node prevNode in setEarliestStartTimesFrom fuel node visited g)
            g neighbors in
        let* x := nodeAt g prevNode in
        let* g := go (edges x) g in
        go (shiftingedges x) g
  end.

Definition setEarliestStartTimes (g : CFDFCGraph) (fuel : nat) (startOp : OpId) : res CFDFCGraph :=
  let* startNode := getUniqueName startOp in
  let* x := nodeAt g startNode in
  setEarliestStartTimesFrom fuel startNode ∅ (setNode startNode (withStart 0 x) g).

Definition getEarliestStartTime (g : CFDFCGraph) (i : OpId) : res Z :=
  let* n := getUniqueName i in
  let* x := nodeAt g n in
  Ok (if earliestStartTime x =? -1 then 0 else earliestStartTime x).

End Circuit.
