(* ===== verification/LSQSizing.v ===== *)
(** The sizes of load-store queues (HandshakeSizeLSQs.cpp). *)

From stdpp Require Import strings gmap.
From S2P Require Import StdString Gaussian CircuitIR CFG LSQGraph Prelude.

Definition ALLOC_ENTRY_LATENCY : Z := 1.
Definition STORE_DEALLOC_ENTRY_LATENCY : Z := 2.
Definition LOAD_DEALLOC_ENTRY_LATENCY : Z := 1.

Notation StartTimes := (list (OpId * Z)).
Notation TimePerOpMap := (gmap OpId Z).
Notation SizePerOpMap := (gmap (option OpId) Z).
(** Allocation and deallocation times, by initiation interval. *)
Notation AllocDeallocTimesPerII := (gmap Z (list Z * list Z)).
Notation LSQSizingResult := (gmap (option OpId) (Z * Z)).

(** The sum of an [int] and an unsigned, as an [int]. *)
Definition addUnsigned (a b : Z) : Z := wrapS 32 (wrapU 32 (a + b)).

(** * Queue sizes *)

(** The entries allocated less those deallocated in each cycle of the scope. *)
Definition bump (maxEndTime d startOffset : Z) (perCycle : list Z) (time : Z) : res (list Z) :=
  let* t := addInt time startOffset in
  Ok (if (0 <=? t) && (t <? maxEndTime) then alter (Z.add d) (Z.to_nat t) perCycle else perCycle).

Fixpoint occupancyLoop (fuel : nat) (maxEndTime : Z) (listOfII : list Z) (times : AllocDeallocTimesPerII)
    (startOffset : Z) (iter : nat) (allocPerCycle : list Z) : res (list Z) :=
  if startOffset <? maxEndTime then
    match fuel with
    | O => Bad NoFuel
    | S fuel =>
        let* ii := at_ listOfII (iter mod length listOfII) in
        let* (allocs, deallocs) := of_option OutOfRange (times !! ii) in
        let* perCycle := foldM (bump maxEndTime 1 startOffset) allocPerCycle allocs in
        let* perCycle := foldM (bump maxEndTime (-1) startOffset) perCycle deallocs in
        occupancyLoop fuel maxEndTime listOfII times (addUnsigned startOffset ii) (S iter) perCycle
    end
  else Ok allocPerCycle.

(** [slotsPerCycle]. *)
Fixpoint prefixSums (acc : Z) (l : list Z) : list Z :=
  match l with [] => [] | x :: l => (acc + x) :: prefixSums (acc + x) l end.

(** [std::max_element] of a vector that is not empty. *)
Definition maxElement (l : list Z) : res Z :=
  match l with [] => Bad OutOfRange | x :: l => Ok (foldl Z.max x l) end.

Definition maxSlots (fuel : nat) (maxEndTime : Z) (listOfII : list Z) (times : AllocDeallocTimesPerII) : res Z :=
  let* perCycle := occupancyLoop fuel maxEndTime listOfII times 0 0 (replicate (Z.to_nat maxEndTime) 0) in
  let* m := maxElement (prefixSums 0 perCycle) in
  Ok (wrapU 32 m).

Section Pass.
Context (f : FuncOp).
(** The orders in which the hash maps keyed by names and by operations are visited. *)
Context (orderNodes : gmap string CFDFCNode → list (string * CFDFCNode)).
Context (orderOps : ∀ V, gmap OpId V → list (OpId * V)).

Notation PerLSQ := (gmap (option OpId) AllocDeallocTimesPerII).

(** Times of operations are collected by load-store queue and initiation interval. *)
Definition addTime (ii : Z) (add : Z → list Z * list Z → list Z * list Z) (perLSQ : PerLSQ) (timeForOp : OpId * Z) : res PerLSQ :=
  let '(i, time) := timeForOp in
  let* lsqOp := lsqUser f i in
  let perII := default ∅ (perLSQ !! lsqOp) in
  Ok (<[lsqOp := <[ii := add time (default ([], []) (perII !! ii))]> perII]> perLSQ).

Definition addTimes (add : Z → list Z * list Z → list Z * list Z) (times : gmap Z TimePerOpMap) (perLSQ : PerLSQ) : res PerLSQ :=
  foldM (λ perLSQ '(ii, m), foldM (addTime ii add) perLSQ (orderOps Z m)) perLSQ (map_to_list times).

Definition addAlloc (t : Z) (p : list Z * list Z) : list Z * list Z := (p.1 ++ [t], p.2).
Definition addDealloc (t : Z) (p : list Z * list Z) : list Z * list Z := (p.1, p.2 ++ [t]).

(** Twice the last time at which an entry is deallocated. *)
Definition scope (deallocTimes : gmap Z TimePerOpMap) (listOfII : list Z) : res Z :=
  let* maxEndTime := foldM (λ m ii,
    let* times := of_option OutOfRange (deallocTimes !! ii) in
    Ok (foldr Z.max m (map snd (orderOps Z times)))) 0 listOfII in
  int int_ok (maxEndTime * 2).

Definition calcQueueSize (fuel : nat) (allocTimes deallocTimes : gmap Z TimePerOpMap) (listOfII : list Z) : res SizePerOpMap :=
  let* perLSQ := addTimes addAlloc allocTimes ∅ in
  let* perLSQ := addTimes addDealloc deallocTimes perLSQ in
  let* maxEndTime := scope deallocTimes listOfII in
  foldM (λ sizes '(lsqOp, times), let* s := maxSlots fuel maxEndTime listOfII times in Ok (<[lsqOp := s]> sizes)) ∅
    (map_to_list perLSQ).

(** * Times *)

Definition findStartTimes (g : CFDFCGraph) (fuel : nat) : res (option OpId * StartTimes) :=
  let* startNodeCandidates := getOperationsWithOpType f isMergeLike orderNodes g in
  let* latencies := foldM (λ m i,
    let* path := findLongestNonCyclicPath f g fuel i in
    let* l := getPathLatency g path in
    Ok (match m !! i with Some _ => m | None => <[i := (wrapU 32 l, length path)]> m end)) (∅ : gmap OpId (Z * nat)) startNodeCandidates in
  let '(maxLatencyNode, maxLatency, _) := foldl (λ '(node, lat, count) '(i, (l, c)),
      if lat <? l then (Some i, l, c)
      else if (l =? lat) && (count <? c)%nat then (Some i, lat, c)
      else (node, lat, count)) (None, 0, 0%nat) (orderOps (Z * nat)%type latencies) in
  Ok (maxLatencyNode, map (λ '(i, (l, _)), (i, wrapS 32 (wrapU 32 (maxLatency - l)))) (orderOps (Z * nat)%type latencies)).

Definition insertStartnodeShiftingEdges (fuel : nat) (g : CFDFCGraph) (startNode : OpId) (startTimes : StartTimes) : res CFDFCGraph :=
  foldM (λ g '(i, time),
    if decide (i = startNode) then Ok g
    else
      let* paths := findPaths f g fuel startNode i true true in
      match paths with [] => addShiftingEdge f g startNode i time | _ => Ok g end) g startTimes.

(** The operations whose inputs come from another block, by block. *)
Definition phiNodeCandidates (g : CFDFCGraph) (startNode : OpId) : res (gmap nat (list OpId)) :=
  let* startBB := getLogicBB f startNode in
  let* startBB := of_option AssertFailed startBB in
  foldM (λ m srcOp,
    let* srcBB := getLogicBB f srcOp in
    let* srcBB := of_option AssertFailed srcBB in
    let* connected := getConnectedOps f g srcOp in
    foldM (λ m destOp,
      let* destOp := of_option NullDeref destOp in
      let* destBB := getLogicBB f destOp in
      let* destBB := of_option AssertFailed destBB in
      Ok (if decide (destBB = srcBB) then m else <[destBB := default [] (m !! destBB) ++ [destOp]]> m)) m connected)
    {[startBB := [startNode]]} (getOperations orderNodes g).

(** The candidate with the least latency from the start node. *)
Definition phiNodeOf (g : CFDFCGraph) (fuel : nat) (startNode : OpId) (candidates : list OpId) : res (option OpId) :=
  let* (phiNode, _) := foldM (λ '(phi, minLatency) i,
    let* l := findMinPathLatency f g fuel startNode i true true in
    Ok (if l <? minLatency then (Some i, l) else (phi, minLatency))) (None, INT_MAX) candidates in
  Ok phiNode.

Definition getPhiNodes (g : CFDFCGraph) (fuel : nat) (startNode : OpId) : res (gmap nat (option OpId)) :=
  let* candidates := phiNodeCandidates g startNode in
  foldM (λ m '(bb, l), let* phi := phiNodeOf g fuel startNode l in Ok (<[bb := phi]> m)) ∅ (map_to_list candidates).

(** [phiNodes[*bb]], null when the block has none. *)
Definition phiNodeFor (phiNodes : gmap nat (option OpId)) (i : OpId) : res (option OpId) :=
  let* bb := getLogicBB f i in
  let* bb := of_option AssertFailed bb in
  Ok (default None (phiNodes !! bb)).

Definition insertAllocPrecedesMemoryAccessEdges (g : CFDFCGraph) (ops : list OpId) (phiNodes : gmap nat (option OpId)) : res CFDFCGraph :=
  foldM (λ g i,
    let* phi := phiNodeFor phiNodes i in
    let* phi := of_option NullDeref phi in addEdge f g phi i) g ops.

(** A map with an entry for every operation of the list. *)
Definition timesOf (time : OpId → res Z) (ops : list OpId) : res TimePerOpMap :=
  foldM (λ m i, let* t := time i in Ok (match m !! i with Some _ => m | None => <[i := t]> m end)) ∅ ops.

Definition getAllocTimes (g : CFDFCGraph) (ops : list OpId) (phiNodes : gmap nat (option OpId)) : res TimePerOpMap :=
  timesOf (λ i,
    let* phi := phiNodeFor phiNodes i in
    let* phi := of_option AssertFailed phi in
    let* t := getEarliestStartTime f g phi in
    Ok (addUnsigned t ALLOC_ENTRY_LATENCY)) ops.

Definition getStoreDeallocTimes (g : CFDFCGraph) (fuel : nat) (startNode : OpId) (ops : list OpId) : res TimePerOpMap :=
  timesOf (λ i,
    let* t := findMaxPathLatency f g fuel startNode i false false true in
    Ok (addUnsigned t STORE_DEALLOC_ENTRY_LATENCY)) ops.

Definition loadDeallocTime (g : CFDFCGraph) (fuel : nat) (startNode : OpId) (i : OpId) : res Z :=
  let* succeeding := getConnectedOps f g i in
  foldM (λ maxLatency next,
    let* next := of_option NullDeref next in
    let* l := findMaxPathLatency f g fuel startNode next false false true in
    let* t := addInt l LOAD_DEALLOC_ENTRY_LATENCY in
    let maxLatency := Z.max t maxLatency in
    let* o := opAt f next in
    match kind o with
    | BufferOp true _ =>
        let* succeeding2 := getConnectedOps f g next in
        foldM (λ maxLatency next2,
          let* next2 := of_option NullDeref next2 in
          let* l := findMaxPathLatency f g fuel startNode next2 false false true in
          let* t := addInt l LOAD_DEALLOC_ENTRY_LATENCY in
          let* t := addInt t (-1) in
          Ok (Z.max maxLatency t)) maxLatency succeeding2
    | _ => Ok maxLatency
    end) 0 succeeding.

Definition getLoadDeallocTimes (g : CFDFCGraph) (fuel : nat) (startNode : OpId) (ops : list OpId) : res TimePerOpMap :=
  timesOf (loadDeallocTime g fuel startNode) ops.

(** * The pass *)

(** The operations of a kind that are connected to a load-store queue. *)
Definition lsqOps (isType : OpKind → bool) (fuel : nat) (g : CFDFCGraph) : res (list OpId) :=
  let* ops := getOperationsWithOpType f isType orderNodes g in
  foldM (λ l i, let* c := isConnectedToLSQ f fuel i in Ok (if c : bool then l ++ [i] else l)) [] ops.

(** The times of loads and stores, allocated and deallocated, for each interval. *)
Record AllTimes := mkAllTimes {
  loadAlloc : gmap Z TimePerOpMap; storeAlloc : gmap Z TimePerOpMap;
  loadDealloc : gmap Z TimePerOpMap; storeDealloc : gmap Z TimePerOpMap }.

Definition timesForII (fuel : nat) (startNode : OpId) (loadOps storeOps : list OpId) (phiNodes : gmap nat (option OpId))
    (s : CFDFCGraph * AllTimes) (ii : Z) : res (CFDFCGraph * AllTimes) :=
  let '(g, t) := s in
  let g := setNewII ii g in
  let* la := getAllocTimes g loadOps phiNodes in
  let* sa := getAllocTimes g storeOps phiNodes in
  let* ld := getLoadDeallocTimes g fuel startNode loadOps in
  let* sd := getStoreDeallocTimes g fuel startNode storeOps in
  Ok (g, mkAllTimes (<[ii := la]> (loadAlloc t)) (<[ii := sa]> (storeAlloc t))
           (<[ii := ld]> (loadDealloc t)) (<[ii := sd]> (storeDealloc t))).

(** The intervals, by the kind of collisions. *)
Definition intervals (collisions : string) (initialII : Z) (g : CFDFCGraph) (fuel : nat) : res (list Z) :=
  if String.eqb collisions "full" then let* w := getWorstCaseII f orderNodes g fuel in Ok [w]
  else if String.eqb collisions "half" then let* w := getWorstCaseII f orderNodes g fuel in Ok [initialII; w]
  else Ok [initialII].

Definition isLoad (k : OpKind) : bool := match k with LoadOp => true | _ => false end.
Definition isStore (k : OpKind) : bool := match k with StoreOp => true | _ => false end.

(** The sizes of both queues; an operation that has only one of them has 0 for the other. *)
Definition mergeSizes (loadSizes storeSizes : SizePerOpMap) : LSQSizingResult :=
  merge (λ l s, match l, s with
                | None, None => None
                | _, _ => Some (default 0 l, default 0 s)
                end) loadSizes storeSizes.

(** What comes before the sizes: the intervals, and the times for each; [None] without
    operations connected to a queue. *)
Definition timesForGraph (fuel : nat) (graph : CFDFCGraph) (initialII : Z) (collisions : string)
    : res (option (list Z * AllTimes)) :=
  let* loadOps := lsqOps isLoad fuel graph in
  let* storeOps := lsqOps isStore fuel graph in
  if (length loadOps =? 0)%nat && (length storeOps =? 0)%nat then Ok None
  else
    let* (startNode, startTimes) := findStartTimes graph fuel in
    let* startNode := of_option NullDeref startNode in
    let* phiNodes := getPhiNodes graph fuel startNode in
    let* graph := insertAllocPrecedesMemoryAccessEdges graph loadOps phiNodes in
    let* graph := insertStartnodeShiftingEdges fuel graph startNode startTimes in
    let* graph := setEarliestStartTimes f graph fuel startNode in
    let* IIs := intervals collisions initialII graph fuel in
    let* (_, t) := foldM (timesForII fuel startNode loadOps storeOps phiNodes) (graph, mkAllTimes ∅ ∅ ∅ ∅) IIs in
    Ok (Some (IIs, t)).

Definition sizeLSQsForGraph (fuel : nat) (graph : CFDFCGraph) (initialII : Z) (collisions : string)
    : res (option LSQSizingResult) :=
  let* times := timesForGraph fuel graph initialII collisions in
  match times with
  | None => Ok None
  | Some (IIs, t) =>
      let* loadSizes := calcQueueSize fuel (loadAlloc t) (loadDealloc t) IIs in
      let* storeSizes := calcQueueSize fuel (storeAlloc t) (storeDealloc t) IIs in
      Ok (Some (mergeSizes loadSizes storeSizes))
  end.

Definition sizeLSQsForCFDFC (fuel : nat) (cfdfcBBs : list nat) (timingDB : OpId → option Z) (initialII : Z) (collisions : string)
    : res (option LSQSizingResult) :=
  let* graph := CFDFCGraph_new f fuel cfdfcBBs timingDB initialII in
  sizeLSQsForGraph fuel graph initialII collisions.

(** The greatest sizes over the choice-free circuits. *)
Definition mergeMax (sizes result : LSQSizingResult) : LSQSizingResult :=
  union_with (λ a b, Some (Z.max a.1 b.1, Z.max a.2 b.2)) sizes result.

(** A queue has at least two entries. *)
Definition lsqDepths (sizes : LSQSizingResult) : LSQSizingResult := (λ s, (Z.max s.1 2, Z.max s.2 2)) <$> sizes.

(** The depths of the queues of a function, from the blocks and the interval of each
    of its choice-free circuits. *)
Definition sizeLSQs (fuel : nat) (cfdfcs : list (list nat * Z)) (timingDB : OpId → option Z) (collisions : string) : res LSQSizingResult :=
  let* sizes := foldM (λ sizes '(bbs, ii),
    let* r := sizeLSQsForCFDFC fuel bbs timingDB ii collisions in
    Ok (match r with Some r => mergeMax sizes r | None => sizes end)) ∅ cfdfcs in
  match sizes !! None with
  | Some _ => Bad NullDeref
  | None => Ok (lsqDepths sizes)
  end.

End Pass.
