(* ===== verification/LSQThms.v ===== *)
(** Paths and latencies of the graph on which load-store queues are sized, and the graph
    that [CFDFCGraph_new] builds: every operation of the blocks has a node and every
    edge leads to a node (LSQGraph.v). *)

From stdpp Require Import strings gmap.
From S2P Require Import StdString SimplePaths Gaussian CircuitIR LSQGraph CFG Prelude.

(** * Paths *)

Section Paths.
Context (g : CFDFCGraph).

(** The neighbours along the edges that are not ignored. *)
Definition neighbours (ignoreBackedge ignoreShiftingEdge : bool) (n : string) : list string :=
  match nodes g !! n with
  | None => []
  | Some x => edges x ++ (if ignoreBackedge then [] else backedges x) ++ (if ignoreShiftingEdge then [] else shiftingedges x)
  end.

(** Every edge leads to a node. *)
Definition closedGraph : Prop :=
  ∀ n x m, nodes g !! n = Some x → m ∈ edges x ∨ m ∈ backedges x ∨ m ∈ shiftingedges x → is_Some (nodes g !! m).

Context (Hclosed : closedGraph).

Notation names := (map fst (map_to_list (nodes g))).

Lemma names_elem n : n ∈ names ↔ is_Some (nodes g !! n).
Proof.
  rewrite list_elem_of_fmap. split.
  - intros ([m x] & -> & H%elem_of_map_to_list). by exists x.
  - intros [x Hx]. exists (n, x). split; [done|by apply elem_of_map_to_list].
Qed.

Lemma names_length : length names = size (nodes g).
Proof. by rewrite length_map, length_map_to_list. Qed.

Lemma neighbours_node b s n m : m ∈ neighbours b s n → is_Some (nodes g !! m).
Proof.
  unfold neighbours. destruct (nodes g !! n) as [x|] eqn:Hx; [|by intros H%elem_of_nil].
  intros [H|[H|H]%elem_of_app]%elem_of_app; [|destruct b; [by apply elem_of_nil in H|]|destruct s; [by apply elem_of_nil in H|]];
    eapply Hclosed; eauto.
Qed.

(** A path among the nodes is not longer than there are nodes. *)
Lemma path_length p : NoDup p → (∀ n, n ∈ p → is_Some (nodes g !! n)) → (length p ≤ size (nodes g))%nat.
Proof.
  intros Hn Hp. rewrite <-names_length. apply submseteq_length, NoDup_submseteq; [done|].
  intros n Hin. by apply names_elem, Hp.
Qed.

Lemma snoc_NoDup {A} (p : list A) x : NoDup p → x ∉ p → NoDup (p ++ [x]).
Proof. intros Hp Hx. apply list.NoDup_app. split; [done|]. split; [|apply NoDup_singleton]. by intros y Hy ->%list_elem_of_singleton. Qed.

Lemma snoc_elem {A} (p : list A) x (P : A → Prop) : (∀ y, y ∈ p → P y) → P x → ∀ y, y ∈ p ++ [x] → P y.
Proof. intros Hp Hx y [|H%list_elem_of_singleton]%elem_of_app; [auto|by subst]. Qed.

Lemma dfsAllPaths_extensions end_ b s fuel : ∀ current p acc,
  list.last p = Some current → NoDup p → (∀ n, n ∈ p → is_Some (nodes g !! n)) → (size (nodes g) < fuel + length p)%nat →
  dfsAllPaths g fuel current end_ p (list_to_set p) acc b s = Ok (acc ++ extensions (neighbours b s) end_ fuel p current).
Proof.
  induction fuel as [|fuel IH]; intros current p acc Hl Hn Hin Hf; [pose proof (path_length p Hn Hin); lia|].
  cbn [dfsAllPaths extensions]. destruct (decide (current = end_)); [done|].
  destruct (Hin current (last_in _ _ Hl)) as [x Hx]. unfold nodeAt. rewrite Hx. cbn [of_option bind].
  assert (∀ ns acc, (∀ m, m ∈ ns → is_Some (nodes g !! m)) → foldM (λ paths neighbor,
      if bool_decide (neighbor ∈ (list_to_set p : gset string)) then Ok paths
      else dfsAllPaths g fuel neighbor end_ (p ++ [neighbor]) ({[neighbor]} ∪ list_to_set p) paths b s) acc ns
    = Ok (acc ++ concat (map (λ y, if decide (y ∈ p) then [] else extensions (neighbours b s) end_ fuel (p ++ [y]) y) ns))) as Hv.
  { intros ns acc' Hns. apply foldM_extend. intros a m Hm. destruct (decide (m ∈ p)) as [Hmp|Hmp].
    - rewrite bool_decide_true by (by apply elem_of_list_to_set). by rewrite app_nil_r.
    - rewrite bool_decide_false by (by rewrite elem_of_list_to_set).
      replace ({[m]} ∪ list_to_set p : gset string) with (list_to_set (p ++ [m]) : gset string) by set_solver.
      apply IH; [by rewrite last_snoc|by apply snoc_NoDup|apply snoc_elem; auto|rewrite length_app; simpl; lia]. }
  rewrite Hv by (intros; eapply Hclosed; eauto). cbn [bind].
  assert (neighbours b s current = edges x ++ (if b then [] else backedges x) ++ (if s then [] else shiftingedges x)) as ->
    by (unfold neighbours; by rewrite Hx).
  rewrite !map_app, !concat_app.
  destruct b, s; cbn [bind map concat app]; rewrite ?Hv by (intros; eapply Hclosed; eauto); cbn [bind]; rewrite ?Hv by (intros; eapply Hclosed; eauto);
    by rewrite ?app_nil_r, ?app_assoc.
Qed.

(** The search finds the paths that visit no node twice. *)
Lemma findPathsNamed_spec start end_ b s fuel : is_Some (nodes g !! start) → (size (nodes g) ≤ fuel)%nat →
  ∃ ps, findPathsNamed g fuel start end_ b s = Ok ps ∧ ∀ p, p ∈ ps ↔ simplePath (neighbours b s) start end_ p.
Proof.
  intros Hs Hf. unfold findPathsNamed. replace ({[start]} : gset string) with (list_to_set [start] : gset string) by set_solver.
  rewrite dfsAllPaths_extensions; [|done|apply NoDup_singleton|by intros n ->%list_elem_of_singleton|simpl; lia].
  eexists. split; [done|]. intros p. apply (extensions_simple _ _ names).
  - intros x y _ Hy. by apply names_elem, (neighbours_node b s x).
  - by apply names_elem.
  - by rewrite names_length.
Qed.

(** A path that starts at a node has nodes only. *)
Lemma walk_nodes b s q : ∀ n, is_Some (nodes g !! n) → walk (neighbours b s) n q → ∀ m, m ∈ n :: q → is_Some (nodes g !! m).
Proof.
  induction q as [|y q IH]; intros n Hn Hw m Hm.
  - by apply list_elem_of_singleton in Hm as ->.
  - destruct Hw as [Hy Hw]. apply elem_of_cons in Hm as [->|Hm]; [done|].
    apply (IH y); [by eapply neighbours_node|done|done].
Qed.

(** * Latencies *)

(** The latency of a path, without a bound on integers. *)
Definition latencyOf (n : string) : Z := match nodes g !! n with Some x => latency x | None => 0 end.
Definition pathLatency (p : list string) : Z := foldr (λ n l, latencyOf n + l) 0 p.

(** Sums of latencies of different nodes are [int]s. *)
Definition fitting : Prop := ∃ B, (∀ n, Z.abs (latencyOf n) ≤ B) ∧ B * Z.of_nat (size (nodes g)) ≤ INT_MAX.

Lemma pathLatency_app p q : pathLatency (p ++ q) = pathLatency p + pathLatency q.
Proof. induction p as [|n p IH]; simpl; [done|]. rewrite IH. lia. Qed.

Lemma pathLatency_bound B p : (∀ n, Z.abs (latencyOf n) ≤ B) → Z.abs (pathLatency p) ≤ B * Z.of_nat (length p).
Proof. intros HB. induction p as [|n p IH]; simpl; [lia|]. pose proof (HB n). lia. Qed.

Lemma getPathLatency_ok p : fitting → NoDup p → (∀ n, n ∈ p → is_Some (nodes g !! n)) → getPathLatency g p = Ok (pathLatency p).
Proof.
  intros (B & HB & Hfit) Hn Hp. pose proof (path_length p Hn Hp) as Hlen. unfold getPathLatency.
  assert (∀ q acc, (∀ n, n ∈ q → is_Some (nodes g !! n)) → Z.abs acc + B * Z.of_nat (length q) ≤ INT_MAX →
    foldM (λ l n, let* x := nodeAt g n in addInt l (latency x)) acc q = Ok (acc + pathLatency q)) as H.
  { induction q as [|n q IH]; intros acc Hq Hb; simpl; [by rewrite Z.add_0_r|].
    destruct (Hq n) as [x Hx]; [left|]. unfold nodeAt. rewrite Hx. simpl. pose proof (HB n) as Hbn. unfold latencyOf in Hbn. rewrite Hx in Hbn.
    cbn [length] in Hb. pose proof (Z.abs_triangle acc (latency x)). assert (0 ≤ B * Z.of_nat (length q)) by nia.
    rewrite Nat2Z.inj_succ, Z.mul_succ_r in Hb.
    unfold addInt, int. replace (int_ok (acc + latency x)) with true; [|symmetry; unfold int_ok, INT_MAX in *; apply andb_true_iff; split; apply Z.leb_le; lia].
    simpl. rewrite IH; [|intros m Hm; apply Hq; by right|lia]. f_equal.
    assert (latencyOf n = latency x) as -> by (unfold latencyOf; by rewrite Hx). lia. }
  rewrite H; [done|done|]. assert (0 ≤ B) by (pose proof (HB EmptyString); lia). nia.
Qed.

End Paths.

(** * The greatest latency *)

Section Greatest.
Context (f : FuncOp) (g : CFDFCGraph) (Hclosed : closedGraph g) (Hfit : fitting g).

(** The paths whose latency counts: when no edges are ignored, those without
    shifting edges and those without backedges. *)
Definition counted (b s : bool) (start end_ : string) (p : list string) : Prop :=
  if negb b && negb s then simplePath (neighbours g false true) start end_ p ∨ simplePath (neighbours g true false) start end_ p
  else simplePath (neighbours g b s) start end_ p.

Definition trim (excludeLast : bool) (p : list string) : list string := if excludeLast then removelast p else p.

Lemma removelast_sub {A} (p : list A) x : x ∈ removelast p → x ∈ p.
Proof. induction p as [|a [|b p] IH]; simpl; [done|by intros H%elem_of_nil|]. rewrite !elem_of_cons. simpl in IH. rewrite elem_of_cons in IH. naive_solver. Qed.

Lemma removelast_NoDup {A} (p : list A) : NoDup p → NoDup (removelast p).
Proof.
  induction 1 as [|a [|b p] Ha Hp IH]; simpl; [constructor|constructor|]. constructor; [|exact IH].
  intros Hin. apply Ha, (removelast_sub (b :: p)), Hin.
Qed.

Lemma simplePath_latency b s start end_ e p : is_Some (nodes g !! start) → simplePath (neighbours g b s) start end_ p →
  getPathLatency g (trim e p) = Ok (pathLatency g (trim e p)).
Proof.
  intros Hs (q & -> & Hw & Hn & _). pose proof (walk_nodes g Hclosed b s q start Hs Hw) as Hin. destruct e; unfold trim.
  - apply getPathLatency_ok; [done|by apply removelast_NoDup|]. intros n Hn'. by apply Hin, removelast_sub.
  - by apply getPathLatency_ok.
Qed.

(** The greatest of the values a list has, and of 0. *)
Lemma foldM_max {X} (h : X → res Z) (v : X → Z) l : (∀ x, x ∈ l → h x = Ok (v x)) →
  ∀ a, ∃ m, foldM (λ m x, let* y := h x in Ok (Z.max m y)) a l = Ok m ∧ a ≤ m ∧ (∀ x, x ∈ l → v x ≤ m)
    ∧ (m = a ∨ ∃ x, x ∈ l ∧ m = v x).
Proof.
  induction l as [|x l IH]; intros Hh a; simpl.
  - exists a. split; [done|]. split; [lia|]. split; [by intros x H%elem_of_nil|by left].
  - rewrite Hh by left. simpl. destruct (IH (λ y Hy, Hh y (proj2 (elem_of_cons _ _ _) (or_intror Hy))) (Z.max a (v x))) as (m & -> & Hm & Hall & Hex).
    exists m. split; [done|]. split; [lia|]. split; [intros y [->|Hy]%elem_of_cons; [lia|by apply Hall]|].
    destruct Hex as [->|(y & Hy & ->)]; [|right; exists y; split; [by right|done]].
    destruct (Z.max_spec a (v x)) as [[_ ->]|[_ ->]]; [right; exists x; split; [left|done]|by left].
Qed.

Context (fuel : nat) (Hfuel : (size (nodes g) ≤ fuel)%nat).

Lemma countedPaths startOp endOp start end_ b s :
  getUniqueName f startOp = Ok start → getUniqueName f endOp = Ok end_ → is_Some (nodes g !! start) →
  ∃ ps, (if negb b && negb s then
      let* paths1 := findPaths f g fuel startOp endOp false true in
      let* paths2 := findPaths f g fuel startOp endOp true false in
      Ok (paths1 ++ paths2)
    else findPaths f g fuel startOp endOp b s) = Ok ps ∧ ∀ p, p ∈ ps ↔ counted b s start end_ p.
Proof.
  intros Hs He Hin. unfold counted, findPaths. rewrite Hs, He. cbn [bind]. destruct (negb b && negb s).
  - destruct (findPathsNamed_spec g Hclosed start end_ false true fuel Hin Hfuel) as (p1 & -> & H1).
    destruct (findPathsNamed_spec g Hclosed start end_ true false fuel Hin Hfuel) as (p2 & -> & H2).
    simpl. eexists. split; [done|]. intros p. by rewrite elem_of_app, H1, H2.
  - by apply findPathsNamed_spec.
Qed.

(** C22.  The latency [findMaxPathLatency] returns is the greatest one of the paths
    that visit no node twice, the last node left out on request, and 0 when there is
    no path of positive latency; when neither kind of edge is ignored, no path
    counts that takes both backedges and shifting edges. *)
Theorem findMaxPathLatency_paths startOp endOp start end_ b s e :
  getUniqueName f startOp = Ok start → getUniqueName f endOp = Ok end_ → is_Some (nodes g !! start) →
  ∃ m, findMaxPathLatency f g fuel startOp endOp b s e = Ok m ∧ 0 ≤ m
    ∧ (∀ p, counted b s start end_ p → pathLatency g (trim e p) ≤ m)
    ∧ (m = 0 ∨ ∃ p, counted b s start end_ p ∧ m = pathLatency g (trim e p)).
Proof.
  intros Hs He Hin. unfold findMaxPathLatency.
  destruct (countedPaths startOp endOp start end_ b s Hs He Hin) as (ps & -> & Hps). cbn [bind].
  destruct (foldM_max (λ p, getPathLatency g (trim e p)) (λ p, pathLatency g (trim e p)) ps) with (a := 0) as (m & Hm & H0 & Hall & Hex).
  { intros p Hp%Hps. unfold counted in Hp. destruct (negb b && negb s); [destruct Hp as [Hp|Hp]|]; by eapply simplePath_latency. }
  exists m. split; [exact Hm|]. split; [done|]. split; [intros p Hp; by apply Hall, Hps|].
  destruct Hex as [|(p & Hp%Hps & ->)]; [by left|right; by exists p].
Qed.

(** * The longest path *)

Notation next := (neighbours g true true).

Lemma next_edges n x : nodes g !! n = Some x → next n = edges x.
Proof. intros Hx. unfold neighbours. rewrite Hx. by rewrite !app_nil_r. Qed.

(** The best path after the search from [current] along [p]. *)
Definition improves (p : list string) (current : string) (m : Z) (best : list string) (m' : Z) (best' : list string) : Prop :=
  m ≤ m' ∧ ((m', best') = (m, best) ∨ ∃ s, walk next current s ∧ NoDup (p ++ current :: s) ∧ best' = p ++ current :: s
    ∧ m' = pathLatency g best' ∧ m < m').

Lemma longest_spec n : ∀ current p m best, NoDup (p ++ [current]) → (∀ x, x ∈ p ++ [current] → is_Some (nodes g !! x)) →
  (size (nodes g) < n + length p)%nat →
  ∃ m' best', dfsLongestAcyclicPath g n current (list_to_set p) p m best = Ok (m', best') ∧ improves p current m best m' best'
    ∧ ∀ s, walk next current s → NoDup (p ++ current :: s) → pathLatency g (p ++ current :: s) ≤ m'.
Proof.
  induction n as [|n IH]; intros current p m best Hn Hin Hf.
  { pose proof (path_length g _ Hn Hin) as H. rewrite length_app in H. simpl in H. lia. }
  cbn [dfsLongestAcyclicPath]. rewrite (getPathLatency_ok g _ Hfit Hn Hin). cbn [bind].
  set (start := if m <? pathLatency g (p ++ [current]) then (pathLatency g (p ++ [current]), p ++ [current]) else (m, best)).
  destruct (Hin current) as [x Hx]; [apply elem_of_app; right; left|].
  assert (improves p current m best start.1 start.2 ∧ pathLatency g (p ++ [current]) ≤ start.1) as [Hstart Hfirst].
  { unfold start. destruct (Z.ltb_spec m (pathLatency g (p ++ [current]))); simpl; [|split; [split; [lia|by left]|lia]].
    split; [|lia]. split; [lia|]. right. exists []. split; [done|]. split; [done|]. split; [done|]. split; [done|lia]. }
  destruct start as [m0 best0] eqn:Es. cbn [fst snd] in Hstart, Hfirst. unfold nodeAt. rewrite Hx. cbn [of_option bind].
  replace ({[current]} ∪ list_to_set p : gset string) with (list_to_set (p ++ [current]) : gset string) by set_solver.
  assert (∀ ns m0 best0, (∀ y, y ∈ ns → y ∈ next current) → improves p current m best m0 best0 →
    ∃ m' best', foldM (λ '(m1, best1) neighbor,
        if bool_decide (neighbor ∈ (list_to_set (p ++ [current]) : gset string)) then Ok (m1, best1)
        else dfsLongestAcyclicPath g n neighbor (list_to_set (p ++ [current])) (p ++ [current]) m1 best1) (m0, best0) ns = Ok (m', best')
      ∧ m0 ≤ m' ∧ improves p current m best m' best'
      ∧ ∀ y s, y ∈ ns → walk next y s → NoDup (p ++ current :: y :: s) → pathLatency g (p ++ current :: y :: s) ≤ m') as Hloop.
  { clear start Es Hstart Hfirst m0 best0. induction ns as [|y ns IHns]; intros m0 best0 Hns Himp; cbn [foldM].
    - exists m0, best0. split; [done|]. split; [lia|]. split; [done|]. by intros y s H%elem_of_nil.
    - assert (∃ m1 best1, (if bool_decide (y ∈ (list_to_set (p ++ [current]) : gset string)) then Ok (m0, best0)
        else dfsLongestAcyclicPath g n y (list_to_set (p ++ [current])) (p ++ [current]) m0 best0) = Ok (m1, best1) ∧ m0 ≤ m1
        ∧ improves p current m best m1 best1
        ∧ ∀ s, walk next y s → NoDup (p ++ current :: y :: s) → pathLatency g (p ++ current :: y :: s) ≤ m1) as (m1 & best1 & -> & Hm1 & Himp1 & Hall1).
      + destruct (decide (y ∈ p ++ [current])) as [Hy|Hy].
        * rewrite bool_decide_true by (by apply elem_of_list_to_set). exists m0, best0. split; [done|]. split; [lia|]. split; [done|].
          intros s _ Hnd. exfalso. replace (p ++ current :: y :: s) with ((p ++ [current]) ++ y :: s) in Hnd by (by rewrite <-app_assoc).
          apply list.NoDup_app in Hnd as (_ & Hd & _). apply (Hd y Hy). left.
        * rewrite bool_decide_false by (by rewrite elem_of_list_to_set).
          destruct (IH y (p ++ [current]) m0 best0) as (m1 & best1 & Hr & [Hle Hb] & Hall).
          -- by apply snoc_NoDup.
          -- apply snoc_elem; [done|]. apply (neighbours_node g Hclosed true true current). apply Hns. left.
          -- rewrite length_app. simpl. lia.
          -- exists m1, best1. split; [done|]. split; [done|]. split.
             ++ destruct Himp as [Hle0 Hb0]. split; [lia|]. destruct Hb as [[= -> ->]|(s & Hw & Hnd & Hbest & Hlat & Hlt)]; [done|].
                right. exists (y :: s). rewrite <-app_assoc in Hnd, Hbest. split; [split; [apply Hns; left|done]|]. split; [done|]. split; [done|]. split; [done|lia].
             ++ intros s Hw Hnd. specialize (Hall s Hw). rewrite <-app_assoc in Hall. by apply Hall.
      + cbn [bind]. destruct (IHns m1 best1) as (m' & best' & Hr & Hle & Himp' & Hall); [intros z Hz; apply Hns; by right|done|].
        exists m', best'. split; [exact Hr|]. split; [lia|]. split; [done|]. intros z s [->|Hz]%elem_of_cons Hw Hnd; [|by apply Hall].
        specialize (Hall1 s Hw Hnd). lia. }
  destruct (Hloop (edges x) m0 best0) as (m' & best' & Hr & Hle & Himp & Hall); [by rewrite (next_edges _ _ Hx)|done|].
  exists m', best'. split; [exact Hr|]. split; [done|]. intros [|y s] Hw Hnd; [lia|]. destruct Hw as [Hy Hw].
  apply Hall; [by rewrite <-(next_edges _ _ Hx)|done|done].
Qed.

(** [findLongestNonCyclicPath] returns a path from the start over plain edges
    that visits no node twice and has the greatest latency of all such paths; the
    path is empty when no path has a positive latency. *)
Theorem findLongestNonCyclicPath_best startOp start : getUniqueName f startOp = Ok start → is_Some (nodes g !! start) →
  (size (nodes g) < fuel)%nat →
  ∃ best, findLongestNonCyclicPath f g fuel startOp = Ok best
    ∧ (∀ s, walk next start s → NoDup (start :: s) → pathLatency g (start :: s) ≤ pathLatency g best)
    ∧ (best = [] ∨ ∃ s, best = start :: s ∧ walk next start s ∧ NoDup best ∧ 0 < pathLatency g best).
Proof.
  intros Hs Hin Hf. unfold findLongestNonCyclicPath. rewrite Hs. cbn [bind].
  destruct (longest_spec fuel start [] 0 []) as (m & best & Hr & [Hle Hb] & Hall);
    [apply NoDup_singleton|by intros x ->%list_elem_of_singleton|simpl; lia|].
  change (list_to_set [] : gset string) with (∅ : gset string) in Hr. rewrite Hr. cbn [bind]. exists best. split; [done|].
  destruct Hb as [[= -> ->]|(s & Hw & Hnd & -> & -> & Hlt)].
  - split; [exact Hall|by left].
  - split; [exact Hall|]. right. exists s. done.
Qed.

End Greatest.

Section Build.
Context (f : FuncOp).

Definition targets (x : CFDFCNode) : list string := edges x ++ backedges x ++ shiftingedges x.

(** The names that [P] allows are still to come. *)
Definition within (P : string → Prop) (g : CFDFCGraph) : Prop :=
  ∀ n x m, nodes g !! n = Some x → m ∈ targets x → is_Some (nodes g !! m) ∨ P m.

Definition grows (g g' : CFDFCGraph) : Prop := ∀ n, is_Some (nodes g !! n) → is_Some (nodes g' !! n).

Lemma grows_trans g1 g2 g3 : grows g1 g2 → grows g2 g3 → grows g1 g3.
Proof. unfold grows. auto. Qed.

Lemma grows_setNode n x g : grows g (setNode n x g).
Proof. intros m Hm. simpl. destruct (decide (n = m)) as [->|]; [rewrite lookup_insert_eq; by eexists|by rewrite lookup_insert_ne]. Qed.

Lemma grows_insertNode n x g : grows g (insertNode n x g) ∧ is_Some (nodes (insertNode n x g) !! n).
Proof.
  unfold insertNode. destruct (nodes g !! n) as [y|] eqn:E; [split; [by intros m|by eexists]|].
  split; [apply grows_setNode|]. simpl. rewrite lookup_insert_eq. by eexists.
Qed.

Lemma within_setNode P n x g : within P g → (∀ m, m ∈ targets x → is_Some (nodes g !! m) ∨ P m) → within P (setNode n x g).
Proof.
  intros Hg Hx k y m Hk Hm. assert (is_Some (nodes g !! m) ∨ P m) as [H|H]; [|left; by apply grows_setNode|by right].
  simpl in Hk. destruct (decide (n = k)) as [->|]; [rewrite lookup_insert_eq in Hk; injection Hk as <-; auto|].
  rewrite lookup_insert_ne in Hk by done. by eapply Hg.
Qed.

Lemma within_insertNode P n x g : within P g → (∀ m, m ∈ targets x → is_Some (nodes g !! m) ∨ P m) → within P (insertNode n x g).
Proof. intros Hg Hx. unfold insertNode. destruct (nodes g !! n); [done|]. by apply (within_setNode P n x). Qed.

Lemma nodeAt_ok g n x : nodeAt g n = Ok x ↔ nodes g !! n = Some x.
Proof. unfold nodeAt. destruct (nodes g !! n); simpl; naive_solver. Qed.

(** A step that keeps what is allowed. *)
Definition keeps (P : string → Prop) (g g' : CFDFCGraph) : Prop := grows g g' ∧ (within P g → within P g').

Lemma keeps_trans P g1 g2 g3 : keeps P g1 g2 → keeps P g2 g3 → keeps P g1 g3.
Proof. intros [? ?] [? ?]. split; [by eapply grows_trans|auto]. Qed.

Lemma keeps_fold {X} P (h : CFDFCGraph → X → res CFDFCGraph) l :
  (∀ x g g', x ∈ l → h g x = Ok g' → keeps P g g') → ∀ g g', foldM h g l = Ok g' → keeps P g g'.
Proof.
  induction l as [|x l IH]; intros Hh g g' H; simpl in H; [injection H as <-; by split; [intros n|]|].
  apply bind_ok in H as (g1 & H1 & H). eapply keeps_trans; [eapply Hh; [left|done]|]. eapply IH; [|done]. intros y g2 g3 Hy. apply Hh. by right.
Qed.

Lemma addEdge_keeps P g src dest d g' : getUniqueName f dest = Ok d → P d → addEdge f g src dest = Ok g' → keeps P g g'.
Proof.
  intros Hd HP H. apply bind_ok in H as (s & _ & H). apply bind_ok in H as (x & Hx%nodeAt_ok & H). rewrite Hd in H.
  injection H as <-. split; [apply grows_setNode|]. intros Hg. apply within_setNode; [done|]. intros m.
  unfold targets. simpl. rewrite elem_of_app, set_insert_elem. intros [[->|Hm]|Hm]; [by right| |];
    (eapply Hg; [exact Hx|]; apply elem_of_app; auto).
Qed.

Lemma set_erase_sub x y s : y ∈ set_erase x s → y ∈ s.
Proof. unfold set_erase. by intros [_ ?]%list_elem_of_filter. Qed.

Lemma addBackedge_keeps P l g src dest d g' : getUniqueName f dest = Ok d → P d → addBackedge f l g src dest = Ok g' → keeps P g g'.
Proof.
  intros Hd HP H. apply bind_ok in H as (s & _ & H). rewrite Hd in H. cbn [bind] in H.
  apply bind_ok in H as (x & Hx%nodeAt_ok & H). apply bind_ok in H as (y & Hy%nodeAt_ok & H). injection H as <-.
  set (new := (backedgePrefix +:+ s +:+ "_" +:+ d)%string) in *. set (g1 := setNode s _ g) in *. set (g2 := insertNode new _ g1) in *.
  assert (grows g g1) as H1 by apply grows_setNode. destruct (grows_insertNode new (mkNode l (-1) None [] [d] []) g1) as [H2 Hnew]. fold g2 in H2, Hnew.
  split; [eapply grows_trans; [exact H1|]; eapply grows_trans; [exact H2|]; apply grows_setNode|]. intros Hg.
  assert (within P g1) as Hg1.
  { apply within_setNode; [done|]. intros m. unfold targets. simpl. rewrite !elem_of_app. intros Hm. eapply Hg; [exact Hx|]. unfold targets. rewrite !elem_of_app.
    destruct Hm as [Hm%set_erase_sub|[Hm%set_erase_sub|Hm]]; auto. }
  assert (within P g2) as Hg2.
  { apply within_insertNode; [done|]. unfold targets. simpl. intros m ->%list_elem_of_singleton. by right. }
  apply within_setNode; [done|]. intros m. unfold targets. simpl. rewrite !elem_of_app, set_insert_elem. intros Hm.
  assert (m = new ∨ m ∈ targets y) as [->|Hm']; [unfold targets; rewrite !elem_of_app; naive_solver|by left|by eapply Hg2].
Qed.

Lemma addToUsers_keeps P add v g g' :
  (∀ g src u g', u ∈ getUsers f v → add g src u = Ok g' → keeps P g g') → addToUsers f add v g = Ok g' → keeps P g g'.
Proof.
  intros Hadd. apply keeps_fold. intros u g1 g2 Hu H. apply bind_ok in H as (src & _ & H). by eapply Hadd.
Qed.

(** The names of the operations of the blocks. *)
Definition ofBlocks (bbs : list nat) (n : string) : Prop :=
  ∃ i o bb, ops f !! i = Some o ∧ logicBB o = Some bb ∧ bb ∈ bbs ∧ opName o = n.

Lemma getUniqueName_at i o : ops f !! i = Some o → getUniqueName f i = Ok (opName o).
Proof. intros Ho. unfold getUniqueName, opAt. by rewrite Ho. Qed.

Lemma addChannel_keeps bbs fuel ii v g g' u o bb :
  getUsers f v = [u] → ops f !! u = Some o → logicBB o = Some bb → bb ∈ bbs →
  (addChannelEdges f v g = Ok g' ∨ addChannel f fuel ii v g = Ok g') → keeps (ofBlocks bbs) g g'.
Proof.
  intros Hu Ho Hbb Hin. assert (ofBlocks bbs (opName o)) as HP by (by exists u, o, bb).
  assert (∀ g g', addChannelEdges f v g = Ok g' → keeps (ofBlocks bbs) g g') as Hedges.
  { intros g1 g2. apply addToUsers_keeps. rewrite Hu. intros g3 src w g4 ->%list_elem_of_singleton. by apply (addEdge_keeps _ _ _ _ _ _ (getUniqueName_at _ _ Ho)). }
  intros [H|H]; [by apply Hedges|]. apply bind_ok in H as (g1 & H1 & H). apply bind_ok in H as (back & _ & H).
  eapply keeps_trans; [by eapply Hedges|]. destruct back; [|injection H as <-; by split; [intros n|]].
  revert H. apply addToUsers_keeps. rewrite Hu. intros g3 src w g4 ->%list_elem_of_singleton.
  by apply (addBackedge_keeps _ _ _ _ _ _ _ (getUniqueName_at _ _ Ho)).
Qed.

Lemma consecutive_in bbs src dst : consecutive bbs src dst = true → dst ∈ bbs.
Proof.
  unfold consecutive. intros (i & _ & [_ H%bool_decide_eq_true]%andb_true_iff)%existsb_exists. by eapply list_elem_of_lookup_2.
Qed.

Lemma addResult_keeps bbs fuel ii srcBB v g g' : srcBB ∈ bbs → addResult f fuel bbs ii srcBB g v = Ok g' → keeps (ofBlocks bbs) g g'.
Proof.
  intros Hsrc H. apply bind_ok in H as (u & Hu & H). apply bind_ok in H as (dst & Hdst & H).
  assert (getUsers f v = [u]) as Husers by (unfold singleUser in Hu; destruct (getUsers f v) as [|? [|]]; naive_solver).
  apply bind_ok in Hdst as (o & Ho%of_option_ok & [= <-]).
  destruct (logicBB o) as [dstBB|] eqn:Hbb; [|injection H as <-; by split; [intros n|]].
  assert (∀ g g', dstBB ∈ bbs → addChannelEdges f v g = Ok g' ∨ addChannel f fuel ii v g = Ok g' → keeps (ofBlocks bbs) g g') as Hk.
  { intros g1 g2 Hin. by apply (addChannel_keeps bbs fuel ii v g1 g2 u o dstBB). }
  assert (∀ g, keeps (ofBlocks bbs) g g) as Hid by (by split; [intros n|]).
  destruct (bool_decide (srcBB = dstBB)) eqn:Hsame; cbn [negb] in H.
  - apply bool_decide_eq_true in Hsame as ->. destruct (length bbs =? 1)%nat; [by eauto|].
    apply bind_ok in H as ([back e] & _ & H). destruct back; [by injection H as <-|by eauto].
  - destruct (consecutive bbs srcBB dstBB) eqn:Hc; [|by injection H as <-]. apply consecutive_in in Hc. by eauto.
Qed.

(** In the graph the constructor builds, every operation of the blocks has a node
    and every edge, backedge or shifting edge leads to a node. *)
Theorem CFDFCGraph_new_closed fuel bbs timingDB ii g : CFDFCGraph_new f fuel bbs timingDB ii = Ok g →
  closedGraph g ∧ ∀ n, ofBlocks bbs n → is_Some (nodes g !! n).
Proof.
  intros H. assert (keeps (ofBlocks bbs) (mkGraph ∅ ∅) g ∧ ∀ n, ofBlocks bbs n → is_Some (nodes g !! n)) as [[_ Hk] Hn].
  { assert (∀ l, (∀ i o, (i, o) ∈ l → ops f !! i = Some o) → ∀ g0 g1, foldM (λ g '(i, o), match logicBB o with
        | None => Ok g
        | Some srcBB => if negb (bool_decide (srcBB ∈ bbs)) then Ok g
            else let* l := extractNodeLatency f timingDB i in let* g := addNode f g i l in foldM (addResult f fuel bbs ii srcBB) g (results o)
        end) g0 l = Ok g1 → keeps (ofBlocks bbs) g0 g1 ∧ ∀ i o bb, (i, o) ∈ l → logicBB o = Some bb → bb ∈ bbs → is_Some (nodes g1 !! opName o)) as Hl.
    - induction l as [|[i o] l IH]; intros Hops g0 g1 Hf; cbn [foldM] in Hf.
      + injection Hf as <-. split; [by split; [intros n|]|]. by intros i o bb Hi%elem_of_nil.
      + apply bind_ok in Hf as (g2 & H2 & Hf). destruct (IH (λ j p Hj, Hops j p ltac:(by right)) _ _ Hf) as [Hk Hn].
        assert (keeps (ofBlocks bbs) g0 g2 ∧ ∀ bb, logicBB o = Some bb → bb ∈ bbs → is_Some (nodes g2 !! opName o)) as [Hk2 Hn2].
        { destruct (logicBB o) as [bb|]; [|injection H2 as <-; split; [by split; [intros n|]|done]].
          destruct (bool_decide (bb ∈ bbs)) eqn:Hin; cbn [negb] in H2; [apply bool_decide_eq_true in Hin|apply bool_decide_eq_false in Hin;
            injection H2 as <-; split; [by split; [intros n|]|naive_solver]].
          apply bind_ok in H2 as (lat & _ & H2). apply bind_ok in H2 as (g3 & H3 & H2). unfold addNode in H3.
          rewrite (getUniqueName_at _ _ (Hops i o ltac:(left))) in H3. injection H3 as <-.
          destruct (grows_insertNode (opName o) (mkNode lat (-1) (Some i) [] [] []) g0) as [Hg Hnew].
          apply (keeps_fold (ofBlocks bbs)) in H2 as [Hg2 Hw2]; [|intros v ga gb _; by apply addResult_keeps].
          split; [|intros ? _ _; by apply Hg2]. split; [by eapply grows_trans|]. intros Hw. apply Hw2, within_insertNode; [done|].
          intros m Hm. unfold targets in Hm. simpl in Hm. by apply elem_of_nil in Hm. }
        split; [by eapply keeps_trans|]. intros j p bb [[= -> ->]|Hj]%elem_of_cons Hbb Hin; [|by eapply Hn]. by apply Hk, (Hn2 bb).
    - destruct (Hl (imap pair (ops f))) with (2 := H) as [Hk Hn].
      + intros i o Hi. apply elem_of_lookup_imap in Hi as (j & p & [= -> ->] & Hp). done.
      + split; [done|]. intros n (i & o & bb & Ho & Hbb & Hin & <-). apply (Hn i o bb); [|done|done].
        apply elem_of_lookup_imap. by exists i, o. }
  split; [|done]. intros n x m Hx Hm. destruct (Hk ltac:(by intros ? ? ? ?)) with (1 := Hx) (m := m) as [|Hm']; [|done|by apply Hn].
  unfold targets. rewrite !elem_of_app. tauto.
Qed.

End Build.
