(* ===== verification/LSQSizes.v ===== *)
(** The loop of [calcQueueSize] over the iterations of a circuit counts the entries in use
    in each cycle, and the size of a load-store queue is the greatest number of entries
    that are in use at a time (LSQSizing.v). *)

From stdpp Require Import strings gmap.
From S2P Require Import Sums StdString Gaussian CircuitIR LSQGraph LSQSizing Prelude.

(** * Counting over cycles *)

(** The sum of a vector up to a position. *)
Definition upTo (l : list Z) (t : nat) : Z := sumOver id (take (S t) l).

Lemma prefixSums_lookup l : ∀ acc t, (t < length l)%nat → prefixSums acc l !! t = Some (acc + upTo l t).
Proof.
  induction l as [|x l IH]; intros acc t Ht; simpl in *; [lia|]. destruct t as [|t]; simpl.
  - unfold upTo. simpl. unfold id. f_equal. lia.
  - rewrite IH by lia. unfold upTo. simpl. unfold id. f_equal. lia.
Qed.

Lemma prefixSums_length l : ∀ acc, length (prefixSums acc l) = length l.
Proof. induction l as [|x l IH]; intros acc; simpl; [done|]. by rewrite IH. Qed.

Lemma upTo_alter d l i t : (i < length l)%nat → upTo (alter (Z.add d) i l) t = upTo l t + (if (i <=? t)%nat then d else 0).
Proof.
  unfold upTo. revert i t. induction l as [|x l IH]; intros i t Hi; [simpl in Hi; lia|]. simpl in Hi.
  destruct i as [|i]; [simpl; unfold id; lia|]. destruct t as [|t]; [destruct l; simpl; unfold id; lia|].
  specialize (IH i t ltac:(lia)). change (alter (Z.add d) (S i) (x :: l)) with (x :: alter (Z.add d) i l).
  rewrite !firstn_cons. change (sumOver id (x :: ?l)) with (x + sumOver id l). simpl Nat.leb.
  cbn [sumOver foldr]. fold (sumOver id (take (S t) (alter (Z.add d) i l))) (sumOver id (take (S t) l)). lia.
Qed.

(** The greatest element. *)
Lemma foldl_max l : ∀ a, a ≤ foldl Z.max a l ∧ (∀ x, x ∈ l → x ≤ foldl Z.max a l) ∧ (foldl Z.max a l = a ∨ foldl Z.max a l ∈ l).
Proof.
  induction l as [|x l IH]; intros a; simpl; [split; [lia|]; split; [by intros x H%elem_of_nil|by left]|].
  destruct (IH (Z.max a x)) as (H1 & H2 & H3). split; [lia|]. split; [intros y [->|Hy]%elem_of_cons; [lia|by apply H2]|].
  destruct H3 as [->|H3]; [|by right; right]. destruct (Z.max_spec a x) as [[_ ->]|[_ ->]]; [right; left|by left].
Qed.

Lemma maxElement_spec l : l ≠ [] → ∃ m, maxElement l = Ok m ∧ m ∈ l ∧ ∀ x, x ∈ l → x ≤ m.
Proof.
  destruct l as [|x l]; [done|]. intros _. simpl. destruct (foldl_max l x) as (H1 & H2 & H3). eexists. split; [done|].
  split; [destruct H3 as [->|H3]; [left|by right]|]. intros y [->|Hy]%elem_of_cons; auto.
Qed.

(** * The loop over iterations *)

Section Loop.
Context (T : Z) (listOfII : list Z) (times : AllocDeallocTimesPerII).

(** Times are in a range in which nothing overflows, and every interval has times. *)
Definition smallTime (t : Z) : Prop := 0 ≤ t ≤ 2 ^ 28.
Context (HT : 0 < T ≤ 2 ^ 29) (Hne : listOfII ≠ []).
Context (Hii : ∀ ii, ii ∈ listOfII → 0 < ii ≤ 2 ^ 28).
Context (Htimes : ∀ ii, ii ∈ listOfII → ∃ a d, times !! ii = Some (a, d) ∧ Forall smallTime a ∧ Forall smallTime d).

(** The interval of an iteration, and the time at which the iteration starts. *)
Definition intervalOf (k : nat) : Z := default 0 (listOfII !! (k mod length listOfII)%nat).
Fixpoint startOf (k : nat) : Z := match k with O => 0 | S k => startOf k + intervalOf k end.

Lemma interval_in k : listOfII !! (k mod length listOfII)%nat = Some (intervalOf k) ∧ intervalOf k ∈ listOfII.
Proof using Hne.
  unfold intervalOf. destruct (lookup_lt_is_Some_2 listOfII (k mod length listOfII)%nat) as [ii Hi].
  { apply Nat.mod_upper_bound. by intros E%length_zero_iff_nil. }
  rewrite Hi. split; [done|]. by eapply list_elem_of_lookup_2.
Qed.

Lemma interval_pos k : 0 < intervalOf k ≤ 2 ^ 28.
Proof. apply Hii, interval_in. Qed.

Lemma startOf_lower k : Z.of_nat k ≤ startOf k.
Proof. induction k as [|k IH]; simpl startOf; [done|]. pose proof (interval_pos k). lia. Qed.

Lemma startOf_mono k j : (k ≤ j)%nat → startOf k ≤ startOf j.
Proof. induction 1 as [|j _ IH]; [done|]. simpl. pose proof (interval_pos j). lia. Qed.

(** The times of an iteration that have passed. *)
Definition passed (off : Z) (l : list Z) (t : nat) : Z := sumOver (λ x, Z.b2z (x + off <=? Z.of_nat t)) l.

Lemma bumps d off l : 0 ≤ off < T → Forall smallTime l → ∀ p, length p = Z.to_nat T →
  ∃ p', foldM (bump T d off) p l = Ok p' ∧ length p' = length p
    ∧ ∀ t, Z.of_nat t < T → upTo p' t = upTo p t + d * passed off l t.
Proof.
  intros Hoff. induction 1 as [|x l Hx _ IH]; intros p Hp; cbn [foldM].
  - exists p. split; [done|]. split; [done|]. intros t _. simpl. lia.
  - unfold smallTime in Hx. unfold bump at 1, addInt, int. replace (int_ok (x + off)) with true;
      [|symmetry; unfold int_ok, INT_MAX; apply andb_true_iff; split; apply Z.leb_le; lia]. cbn [bind].
    replace (0 <=? x + off) with true by (symmetry; apply Z.leb_le; lia). cbn [andb].
    destruct (Z.ltb_spec (x + off) T) as [Hlt|Hge].
    + destruct (IH (alter (Z.add d) (Z.to_nat (x + off)) p)) as (p' & Hr & Hl & Hu); [by rewrite length_alter|].
      exists p'. split; [exact Hr|]. split; [by rewrite Hl, length_alter|]. intros t Ht. rewrite Hu, upTo_alter by lia.
      unfold passed. simpl. destruct (Nat.leb_spec (Z.to_nat (x + off)) t), (Z.leb_spec (x + off) (Z.of_nat t)); simpl; lia.
    + destruct (IH p Hp) as (p' & Hr & Hl & Hu). exists p'. split; [exact Hr|]. split; [done|]. intros t Ht. rewrite Hu by done.
      unfold passed. simpl. replace (x + off <=? Z.of_nat t) with false by (symmetry; apply Z.leb_gt; lia). simpl. lia.
Qed.

(** What an iteration contributes to the entries in use. *)
Definition contribution (k t : nat) : Z :=
  match times !! intervalOf k with
  | Some (a, d) => passed (startOf k) a t - passed (startOf k) d t
  | None => 0
  end.

(** The iterations that start within the scope. *)
Definition inUse (t : nat) : Z :=
  sumOver (λ k, contribution k t) (filter (λ k, startOf k < T) (seq 0 (Z.to_nat T))).

Lemma filter_starts k n : (k ≤ n)%nat → T ≤ startOf k → (∀ j, (j < k)%nat → startOf j < T) →
  filter (λ k, startOf k < T) (seq 0 n) = seq 0 k.
Proof.
  intros Hk HTk Hj. replace n with (k + (n - k))%nat by lia. rewrite seq_app, list.filter_app.
  rewrite filter_all; [rewrite filter_none; [by rewrite app_nil_r|]|].
  - apply Forall_elem. intros j Hin. apply list_elem_of_In, in_seq in Hin. pose proof (startOf_mono k j ltac:(lia)). lia.
  - apply Forall_elem. intros j Hin. apply list_elem_of_In, in_seq in Hin. apply Hj. lia.
Qed.

Lemma occupancyLoop_spec fuel : ∀ k p, length p = Z.to_nat T → startOf k < T + 2 ^ 28 → (∀ j, (j < k)%nat → startOf j < T) →
  T - startOf k < Z.of_nat fuel →
  (∀ t, Z.of_nat t < T → upTo p t = sumOver (λ j, contribution j t) (seq 0 k)) →
  ∃ p', occupancyLoop fuel T listOfII times (startOf k) k p = Ok p' ∧ length p' = Z.to_nat T
    ∧ ∀ t, Z.of_nat t < T → upTo p' t = inUse t.
Proof.
  induction fuel as [|fuel IH]; intros k p Hp Hs Hj Hf Hu; cbn [occupancyLoop];
    destruct (Z.ltb_spec (startOf k) T) as [Hlt|Hge]; [lia| | |].
  1, 3: exists p; split; [done|]; split; [done|]; intros t Ht; rewrite Hu by done; unfold inUse;
    rewrite (filter_starts k); [done| |done|done].
  1, 2: destruct k as [|k]; [lia|]; specialize (Hj k ltac:(lia)); pose proof (startOf_lower k); lia.
  destruct (interval_in k) as [Hlook Hin]. unfold at_. rewrite Hlook. cbn [of_option bind].
  destruct (Htimes _ Hin) as (a & d & Had & Ha & Hd). rewrite Had. cbn [of_option bind].
  pose proof (startOf_lower k). destruct (bumps 1 (startOf k) a ltac:(lia) Ha p Hp) as (p1 & -> & Hl1 & Hu1). cbn [bind].
  destruct (bumps (-1) (startOf k) d ltac:(lia) Hd p1 ltac:(congruence)) as (p2 & -> & Hl2 & Hu2). cbn [bind].
  pose proof (interval_pos k) as Hpos.
  assert (addUnsigned (startOf k) (intervalOf k) = startOf (S k)) as ->.
  { simpl. unfold addUnsigned. rewrite wrapU_small by lia. rewrite wrapS_small; lia. }
  apply IH.
  - congruence.
  - simpl. lia.
  - intros j Hjk. destruct (decide (j = k)) as [->|]; [done|]. apply Hj. lia.
  - simpl. lia.
  - intros t Ht. rewrite Hu2, Hu1, Hu by done. rewrite seq_S, sumOver_app. simpl. unfold contribution at 3. rewrite Had. lia.
Qed.

Lemma upTo_zero n t : upTo (replicate n 0) t = 0.
Proof. unfold upTo. rewrite take_replicate. induction (_ `min` _)%nat as [|m IH]; simpl; [done|]. rewrite IH. done. Qed.

(** The size is the greatest number of entries in use in a cycle of the scope. *)
Lemma maxSlots_spec fuel : T < Z.of_nat fuel → (∀ t, Z.of_nat t < T → 0 ≤ inUse t < 2 ^ 32) →
  ∃ s, maxSlots fuel T listOfII times = Ok s ∧ (∀ t, Z.of_nat t < T → inUse t ≤ s) ∧ ∃ t, Z.of_nat t < T ∧ s = inUse t.
Proof.
  intros Hf Hr. unfold maxSlots.
  destruct (occupancyLoop_spec fuel 0 (replicate (Z.to_nat T) 0)) as (p & Hp & Hl & Hu).
  - by rewrite length_replicate.
  - simpl. lia.
  - intros j Hj. lia.
  - simpl. lia.
  - intros t _. by rewrite upTo_zero.
  - change (startOf 0) with 0 in Hp. rewrite Hp. cbn [bind]. destruct (maxElement_spec (prefixSums 0 p)) as (m & -> & Hm & Hmax).
    { intros E. apply (f_equal length) in E. rewrite prefixSums_length, Hl in E. simpl in E. lia. }
    assert (∀ t, Z.of_nat t < T → prefixSums 0 p !! t = Some (inUse t)) as Hlook.
    { intros t Ht. rewrite prefixSums_lookup by lia. by rewrite Hu. }
    apply list_elem_of_lookup in Hm as [t Ht]. pose proof (lookup_lt_Some _ _ _ Ht) as Hlt. rewrite prefixSums_length, Hl in Hlt.
    rewrite Hlook in Ht by lia. injection Ht as <-. pose proof (Hr t ltac:(lia)). cbn [bind]. rewrite wrapU_small by lia.
    eexists. split; [done|]. split; [|exists t; split; [lia|done]].
    intros t' Ht'. apply Hmax. by eapply list_elem_of_lookup_2, Hlook.
Qed.

End Loop.

(** * Collecting the times of a queue *)

Section Collect.
Context (f : FuncOp) (orderOps : ∀ V, gmap OpId V → list (OpId * V)).
Context (Horder : ∀ V (m : gmap OpId V), orderOps V m ≡ₚ map_to_list m).

Notation PerLSQ := (gmap (option OpId) AllocDeallocTimesPerII).

(** An operation uses a queue. *)
Definition usesLSQ (L : option OpId) (i : OpId) : bool :=
  match lsqUser f i with Ok L' => bool_decide (L' = L) | Bad _ => false end.

Definition timesFor (L : option OpId) (l : list (OpId * Z)) : list Z := map snd (filter (λ it, usesLSQ L (fst it) = true) l).

(** The times of a queue for an interval, and whether there are any. *)
Definition getTimes (per : PerLSQ) (L : option OpId) (ii : Z) : list Z * list Z := default ([], []) (default ∅ (per !! L) !! ii).
Definition hasTimes (per : PerLSQ) (L : option OpId) (ii : Z) : Prop := is_Some (default ∅ (per !! L) !! ii).

Lemma addTime_spec ii add per i t per' : addTime f ii add per (i, t) = Ok per' →
  ∀ L ii', getTimes per' L ii' = (if usesLSQ L i && bool_decide (ii' = ii) then add t (getTimes per L ii') else getTimes per L ii')
    ∧ (hasTimes per' L ii' ↔ hasTimes per L ii' ∨ (usesLSQ L i = true ∧ ii' = ii)).
Proof.
  intros H L ii'. apply bind_ok in H as (L0 & HL0 & [= <-]). unfold usesLSQ, getTimes, hasTimes. rewrite HL0.
  destruct (decide (L0 = L)) as [->|Hne].
  - rewrite bool_decide_true by done. rewrite lookup_insert_eq. simpl. destruct (decide (ii' = ii)) as [->|Hii].
    + rewrite bool_decide_true by done. rewrite lookup_insert_eq. split; [done|]. split; [by right|by eexists].
    + rewrite bool_decide_false by done. rewrite lookup_insert_ne by done. split; [done|]. naive_solver.
  - rewrite bool_decide_false by done. rewrite lookup_insert_ne by done. split; [done|]. naive_solver.
Qed.

Lemma addTime_fold ii add l : ∀ per per', foldM (addTime f ii add) per l = Ok per' →
  ∀ L ii', getTimes per' L ii' = (if decide (ii' = ii) then foldl (λ p t, add t p) (getTimes per L ii') (timesFor L l) else getTimes per L ii')
    ∧ (hasTimes per' L ii' ↔ hasTimes per L ii' ∨ (timesFor L l ≠ [] ∧ ii' = ii)).
Proof.
  induction l as [|[i t] l IH]; intros per per' H L ii'; simpl in H.
  - injection H as <-. simpl. split; [by destruct (decide _)|naive_solver].
  - apply bind_ok in H as (per1 & H1 & H). destruct (addTime_spec _ _ _ _ _ _ H1 L ii') as [Hg1 Hh1].
    destruct (IH _ _ H L ii') as [Hg Hh]. rewrite Hg, Hh, Hg1, Hh1. unfold timesFor. rewrite filter_cons. simpl.
    destruct (decide (ii' = ii)) as [->|Hii].
    + rewrite bool_decide_true by done. destruct (usesLSQ L i) eqn:Hu; [rewrite decide_True by done|rewrite decide_False by done]; simpl; naive_solver.
    + rewrite bool_decide_false by done. rewrite andb_false_r. naive_solver.
Qed.

Lemma addTime_total ii add l : (∀ i t, (i, t) ∈ l → is_ok (lsqUser f i) = true) → ∀ per, ∃ per', foldM (addTime f ii add) per l = Ok per'.
Proof.
  induction l as [|[i t] l IH]; intros Hl per; simpl; [by eexists|].
  pose proof (Hl i t ltac:(left)) as Hi. destruct (lsqUser f i) as [L|]; [|done]. simpl. apply IH. intros j u Hj. apply (Hl j u). by right.
Qed.

(** The same for all intervals; each one occurs once. *)
Lemma addTimes_spec add l : NoDup (fst <$> l) → ∀ per per',
  foldM (λ perLSQ '(ii, m), foldM (addTime f ii add) perLSQ (orderOps Z m)) per l = Ok per' →
  ∀ L ii, (∀ m, (ii, m) ∈ l → getTimes per' L ii = foldl (λ p t, add t p) (getTimes per L ii) (timesFor L (orderOps Z m)))
    ∧ (ii ∉ fst <$> l → getTimes per' L ii = getTimes per L ii)
    ∧ (hasTimes per' L ii ↔ hasTimes per L ii ∨ ∃ m, (ii, m) ∈ l ∧ timesFor L (orderOps Z m) ≠ []).
Proof.
  induction l as [|[ii0 m0] l IH]; intros Hn per per' H L ii; cbn [foldM] in H.
  - injection H as <-. split; [by intros m Hm%elem_of_nil|]. split; [done|]. split; [by left|]. by intros [|(m & Hm%elem_of_nil & _)].
  - apply bind_ok in H as (per1 & H1 & H). rewrite fmap_cons in Hn. apply list.NoDup_cons in Hn as [Hii0 Hn]. simpl in Hii0.
    destruct (addTime_fold _ _ _ _ _ H1 L ii) as [Hg1 Hh1]. destruct (IH Hn _ _ H L ii) as (Hg & Hg' & Hh).
    assert (∀ m, (ii0, m) ∉ l) as Hnot by (intros m Hm; apply Hii0; apply list_elem_of_fmap; by exists (ii0, m)).
    split; [|split].
    + intros m [[= -> ->]|Hm]%elem_of_cons.
      * rewrite Hg' by done. rewrite Hg1, decide_True by done. done.
      * rewrite (Hg m Hm), Hg1, decide_False; [done|]. intros ->. by apply (Hnot m).
    + rewrite fmap_cons. intros [Hne Hni]%not_elem_of_cons. rewrite Hg' by done. by rewrite Hg1, decide_False.
    + rewrite Hh, Hh1. split.
      * intros [[?|[? ->]]|(m & Hm & ?)]; [by left|right; exists m0; split; [left|done]|right; exists m; split; [by right|done]].
      * intros [?|(m & [[= -> ->]|Hm]%elem_of_cons & ?)]; [by left; left|by left; right|]. right. by exists m.
Qed.

Lemma addTimes_total add l : (∀ ii m i t, (ii, m) ∈ l → (i, t) ∈ orderOps Z m → is_ok (lsqUser f i) = true) → ∀ per,
  ∃ per', foldM (λ perLSQ '(ii, m), foldM (addTime f ii add) perLSQ (orderOps Z m)) per l = Ok per'.
Proof.
  induction l as [|[ii m] l IH]; intros Hl per; cbn [foldM]; [by eexists|].
  destruct (addTime_total ii add (orderOps Z m) (λ i t, Hl ii m i t ltac:(left)) per) as [per1 ->]. simpl.
  apply IH. intros ii' m' i t Hin. apply (Hl ii' m'). by right.
Qed.

Lemma foldl_addAlloc l : ∀ p, foldl (λ p t, addAlloc t p) p l = (p.1 ++ l, p.2).
Proof. induction l as [|t l IH]; intros [a d]; simpl; [by rewrite app_nil_r|]. rewrite IH. simpl. by rewrite <-app_assoc. Qed.
Lemma foldl_addDealloc l : ∀ p, foldl (λ p t, addDealloc t p) p l = (p.1, p.2 ++ l).
Proof. induction l as [|t l IH]; intros [a d]; simpl; [by rewrite app_nil_r|]. rewrite IH. simpl. by rewrite <-app_assoc. Qed.

(** * Sums over the operations of a map *)

Lemma map_sum (m : gmap OpId Z) (h : OpId * Z → Z) :
  sumOver h (map_to_list m) = sumOver (λ i, h (i, default 0 (m !! i))) (elements (dom m)).
Proof.
  rewrite <-(sumOver_map (λ i, (i, default 0 (m !! i))) h). apply sumOver_perm, NoDup_Permutation.
  - apply NoDup_map_to_list.
  - apply NoDup_fmap_2_strong; [|apply NoDup_elements]. by intros i j _ _ [= ->].
  - intros [i t]. rewrite elem_of_map_to_list, list_elem_of_fmap. split.
    + intros Hi. exists i. rewrite Hi. split; [done|]. apply elem_of_elements, elem_of_dom. by eexists.
    + intros (j & [= -> ->] & Hj). apply elem_of_elements, elem_of_dom in Hj as [u Hu]. by rewrite Hu.
Qed.

Lemma passed_sum L m off t :
  passed off (timesFor L (orderOps Z m)) t
  = sumOver (λ i, Z.b2z (usesLSQ L i && (default 0 (m !! i) + off <=? Z.of_nat t))) (elements (dom m)).
Proof.
  etransitivity; [|apply (map_sum m (λ it, Z.b2z (usesLSQ L (fst it) && (snd it + off <=? Z.of_nat t))))].
  rewrite <-(sumOver_perm _ _ _ (Horder Z m)). unfold passed, timesFor. rewrite sumOver_map.
  induction (orderOps Z m) as [|[i x] l IH]; [done|]. rewrite filter_cons. simpl.
  destruct (usesLSQ L i) eqn:Hu; [rewrite decide_True by done|rewrite decide_False by done]; simpl; [by rewrite IH|done].
Qed.

(** A queue has an entry in the map only with times. *)
Lemma addTimes_nonempty add times per per' :
  addTimes f orderOps add times per = Ok per' → (∀ L m, per !! L = Some m → m ≠ ∅) → ∀ L m, per' !! L = Some m → m ≠ ∅.
Proof.
  intros H Hper. eapply (foldM_keeps _ (λ per : PerLSQ, ∀ L m, per !! L = Some m → m ≠ ∅)); [|exact H|exact Hper].
  clear. intros [ii m] per per' H Hper. eapply (foldM_keeps _ (λ per : PerLSQ, ∀ L m, per !! L = Some m → m ≠ ∅)); [|exact H|exact Hper].
  clear. intros [i t] per per' H Hper L m. apply bind_ok in H as (L0 & _ & [= <-]).
  destruct (decide (L0 = L)) as [->|Hne].
  - rewrite lookup_insert_eq. intros [= <-]. apply insert_non_empty.
  - rewrite lookup_insert_ne by done. apply Hper.
Qed.

(** The times of a queue after both passes. *)
Lemma collected alloc dealloc per :
  (let* per := addTimes f orderOps addAlloc alloc ∅ in addTimes f orderOps addDealloc dealloc per) = Ok per →
  (∀ ii, is_Some (alloc !! ii) ↔ is_Some (dealloc !! ii)) →
  ∀ L, (∀ ii a d, alloc !! ii = Some a → dealloc !! ii = Some d →
          getTimes per L ii = (timesFor L (orderOps Z a), timesFor L (orderOps Z d)))
    ∧ (∀ ii, hasTimes per L ii ↔ ∃ a d, alloc !! ii = Some a ∧ dealloc !! ii = Some d
          ∧ (timesFor L (orderOps Z a) ≠ [] ∨ timesFor L (orderOps Z d) ≠ []))
    ∧ ∀ m, per !! L = Some m → ∃ ii, hasTimes per L ii.
Proof.
  intros H Hkeys L. apply bind_ok in H as (per1 & H1 & H2).
  assert (∀ m : gmap Z TimePerOpMap, NoDup (fst <$> map_to_list m)) as Hn by (intros; apply NoDup_fst_map_to_list).
  assert (∀ ii, getTimes ∅ L ii = ([], []) ∧ ¬ hasTimes ∅ L ii) as Hempty.
  { intros ii. unfold getTimes, hasTimes. rewrite lookup_empty. simpl. rewrite lookup_empty. split; [done|]. by intros [? ?]. }
  split; [|split].
  - intros ii a d Ha Hd. destruct (addTimes_spec _ _ (Hn _) _ _ H1 L ii) as (Hg1 & _). destruct (addTimes_spec _ _ (Hn _) _ _ H2 L ii) as (Hg2 & _).
    rewrite (Hg2 d), (Hg1 a) by (by apply elem_of_map_to_list). by rewrite (proj1 (Hempty ii)), foldl_addDealloc, foldl_addAlloc.
  - intros ii. destruct (addTimes_spec _ _ (Hn _) _ _ H1 L ii) as (_ & _ & Hh1). destruct (addTimes_spec _ _ (Hn _) _ _ H2 L ii) as (_ & _ & Hh2).
    rewrite Hh2, Hh1. setoid_rewrite elem_of_map_to_list. pose proof (proj2 (Hempty ii)). specialize (Hkeys ii). split.
    + intros [[?|(a & Ha & ?)]|(d & Hd & ?)]; [done| |].
      * destruct (proj1 Hkeys ltac:(by eexists)) as [d Hd]. exists a, d. auto.
      * destruct (proj2 Hkeys ltac:(by eexists)) as [a Ha]. exists a, d. auto.
    + intros (a & d & ? & ? & [?|?]); eauto.
  - intros m Hm. assert (m ≠ ∅) as Hm0.
    { eapply addTimes_nonempty; [exact H2| |exact Hm]. eapply addTimes_nonempty; [exact H1|]. intros L' m'. by rewrite lookup_empty. }
    destruct (map_choose _ Hm0) as (ii & x & Hx). exists ii. unfold hasTimes. rewrite Hm. simpl. by rewrite Hx.
Qed.

Lemma timesFor_nonempty L m : timesFor L (orderOps Z m) ≠ [] ↔ ∃ i, i ∈ dom m ∧ usesLSQ L i = true.
Proof.
  unfold timesFor. split.
  - destruct (filter _ _) as [|[i t] l] eqn:E; [done|]. intros _. assert ((i, t) ∈ (i, t) :: l) as Hin by left. rewrite <-E in Hin.
    apply list_elem_of_filter in Hin as [Hu Hin]. rewrite Horder in Hin. apply elem_of_map_to_list in Hin. exists i. split; [|done].
    apply elem_of_dom. by eexists.
  - intros (i & [t Ht]%elem_of_dom & Hu) E. apply map_eq_nil in E. assert ((i, t) ∈ filter (λ it, usesLSQ L (fst it) = true) (orderOps Z m)) as Hin.
    { apply list_elem_of_filter. split; [done|]. rewrite Horder. by apply elem_of_map_to_list. }
    rewrite E in Hin. by apply elem_of_nil in Hin.
Qed.

Lemma timesFor_all (P : Z → Prop) L m : (∀ i t, m !! i = Some t → P t) → Forall P (timesFor L (orderOps Z m)).
Proof.
  intros Hm. apply Forall_elem. unfold timesFor. intros t Ht. apply list_elem_of_In, in_map_iff in Ht as ([i t'] & Heq & Ht). simpl in Heq. subst t'.
  apply list_elem_of_In, list_elem_of_filter in Ht as [_ Ht]. rewrite Horder in Ht. apply elem_of_map_to_list in Ht. by eapply Hm.
Qed.

(** * The size covers every cycle *)

(** The times of operations [O] of a circuit: in every interval each operation has an
    entry from its allocation to its deallocation. *)
Record schedule (M : Z) (O : gset OpId) (listOfII : list Z) (alloc dealloc : gmap Z TimePerOpMap) : Prop := {
  sched_ne : listOfII ≠ [];
  sched_ii : ∀ ii, ii ∈ listOfII → 0 < ii ≤ 2 ^ 28;
  sched_alloc : ∀ ii, is_Some (alloc !! ii) ↔ ii ∈ listOfII;
  sched_dealloc : ∀ ii, is_Some (dealloc !! ii) ↔ ii ∈ listOfII;
  sched_ops : ∀ ii a d, alloc !! ii = Some a → dealloc !! ii = Some d → dom a = O ∧ dom d = O;
  sched_times : ∀ ii a d i s e, alloc !! ii = Some a → dealloc !! ii = Some d → a !! i = Some s → d !! i = Some e →
    0 ≤ s ≤ e ∧ 0 < e ≤ M;
  sched_bound : M ≤ 2 ^ 28 ∧ Z.of_nat (size O) * (2 * M) < 2 ^ 32
}.

Definition timeAt (times : gmap Z TimePerOpMap) (ii : Z) (i : OpId) : Z := default 0 (default ∅ (times !! ii) !! i).

(** An operation of an iteration has an entry of the queue in a cycle. *)
Definition holds (alloc dealloc : gmap Z TimePerOpMap) (listOfII : list Z) (L : option OpId) (k t : nat) (i : OpId) : bool :=
  usesLSQ L i && (timeAt alloc (intervalOf listOfII k) i + startOf listOfII k <=? Z.of_nat t)
    && (Z.of_nat t <? timeAt dealloc (intervalOf listOfII k) i + startOf listOfII k).

(** The entries in use in a cycle, by the iterations that start in the scope. *)
Definition occupancy (alloc dealloc : gmap Z TimePerOpMap) (listOfII : list Z) (O : gset OpId) (T : Z) (L : option OpId) (t : nat) : Z :=
  sumOver (λ k, sumOver (λ i, Z.b2z (holds alloc dealloc listOfII L k t i)) (elements O))
    (filter (λ k, startOf listOfII k < T) (seq 0 (Z.to_nat T))).

Lemma foldM_insert {X} (h : X → res Z) (l : list (option OpId * X)) : NoDup (fst <$> l) → (∀ k x, (k, x) ∈ l → is_ok (h x) = true) →
  ∀ init : SizePerOpMap, ∃ sizes, foldM (λ sizes '(k, x), let* s := h x in Ok (<[k := s]> sizes)) init l = Ok sizes
    ∧ ∀ k s, sizes !! k = Some s ↔ (∃ x, (k, x) ∈ l ∧ h x = Ok s) ∨ (k ∉ fst <$> l ∧ init !! k = Some s).
Proof.
  induction l as [|[k0 x0] l IH]; intros Hn Hok init; cbn [foldM].
  - exists init. split; [done|]. intros k s. split; [intros; right; split; [apply not_elem_of_nil|done]|].
    by intros [(x & Hx%elem_of_nil & _)|[_ ?]].
  - rewrite fmap_cons in *. apply list.NoDup_cons in Hn as [Hk0 Hn]. simpl in Hk0.
    pose proof (Hok k0 x0 ltac:(left)) as Hx0. destruct (h x0) as [s0|] eqn:Hs0; [|done]. cbn [bind].
    destruct (IH Hn (λ k x Hin, Hok k x ltac:(by right)) (<[k0 := s0]> init)) as (sizes & Hr & Hs). exists sizes. split; [exact Hr|].
    intros k s. rewrite Hs. setoid_rewrite elem_of_cons. simpl. destruct (decide (k = k0)) as [->|Hne].
    + rewrite lookup_insert_eq. split.
      * intros [(x & Hx & ?)|[_ [= <-]]]; [|left; exists x0; auto]. destruct Hk0. apply list_elem_of_fmap. by exists (k0, x).
      * intros [(x & [[= ->]|Hx] & Hhx)|[Hni _]]; [right; split; [done|congruence]| |by destruct Hni; left].
        destruct Hk0. apply list_elem_of_fmap. by exists (k0, x).
    + rewrite lookup_insert_ne by done. split.
      * intros [(x & Hx & ?)|[? ?]]; [left; exists x; auto|right; split; [|done]]. by intros [|].
      * intros [(x & [[= ? ?]|Hx] & Hhx)|[Hni ?]]; [done|left; exists x; auto|right; split; [|done]]. intros ?. apply Hni. by right.
Qed.

Section Schedule.
Context (M : Z) (O : gset OpId) (listOfII : list Z) (alloc dealloc : gmap Z TimePerOpMap).
Context (Hsched : schedule M O listOfII alloc dealloc).

Lemma some_interval : ∃ ii, ii ∈ listOfII.
Proof. pose proof (sched_ne _ _ _ _ _ Hsched) as Hne. clear -Hne. destruct listOfII as [|ii l]; [done|]. exists ii. left. Qed.

Lemma scheduled ii : ii ∈ listOfII → ∃ a d, alloc !! ii = Some a ∧ dealloc !! ii = Some d ∧ dom a = O ∧ dom d = O.
Proof.
  intros Hii. destruct (proj2 (sched_alloc _ _ _ _ _ Hsched ii) Hii) as [a Ha]. destruct (proj2 (sched_dealloc _ _ _ _ _ Hsched ii) Hii) as [d Hd].
  exists a, d. split; [done|]. split; [done|]. by eapply sched_ops.
Qed.

Lemma scheduled_op ii a d i : alloc !! ii = Some a → dealloc !! ii = Some d → i ∈ O →
  ∃ s e, a !! i = Some s ∧ d !! i = Some e ∧ 0 ≤ s ≤ e ∧ 0 < e ≤ M.
Proof.
  intros Ha Hd Hi. destruct (sched_ops _ _ _ _ _ Hsched _ _ _ Ha Hd) as [Hda Hdd].
  assert (i ∈ dom a) as [s Hs]%elem_of_dom by (by rewrite Hda). assert (i ∈ dom d) as [e He]%elem_of_dom by (by rewrite Hdd).
  exists s, e. split; [done|]. split; [done|]. by eapply sched_times.
Qed.

Lemma small_times L ii a d : alloc !! ii = Some a → dealloc !! ii = Some d →
  Forall smallTime (timesFor L (orderOps Z a)) ∧ Forall smallTime (timesFor L (orderOps Z d)).
Proof.
  intros Ha Hd. destruct (sched_ops _ _ _ _ _ Hsched _ _ _ Ha Hd) as [Hda Hdd]. destruct (sched_bound _ _ _ _ _ Hsched) as [HM _].
  split; apply timesFor_all; intros i t Ht; unfold smallTime.
  - assert (i ∈ O) as Hi by (rewrite <-Hda; apply elem_of_dom; by eexists).
    destruct (scheduled_op _ _ _ _ Ha Hd Hi) as (s & e & Hs & _ & ? & ?). assert (t = s) as -> by congruence. lia.
  - assert (i ∈ O) as Hi by (rewrite <-Hdd; apply elem_of_dom; by eexists).
    destruct (scheduled_op _ _ _ _ Ha Hd Hi) as (s & e & _ & He & ? & ?). assert (t = e) as -> by congruence. lia.
Qed.

(** What the vector of a queue counts is what its operations hold. *)
Lemma contribution_holds L (m : AllocDeallocTimesPerII) k t :
  (∀ ii a d, alloc !! ii = Some a → dealloc !! ii = Some d → ii ∈ listOfII →
     m !! ii = Some (timesFor L (orderOps Z a), timesFor L (orderOps Z d))) →
  contribution listOfII m k t = sumOver (λ i, Z.b2z (holds alloc dealloc listOfII L k t i)) (elements O).
Proof.
  intros Hm. destruct (interval_in listOfII (sched_ne _ _ _ _ _ Hsched) k) as [_ Hin].
  destruct (scheduled _ Hin) as (a & d & Ha & Hd & Hda & Hdd). unfold contribution. rewrite (Hm _ a d) by done.
  rewrite !passed_sum, Hda, Hdd, <-sumOver_sub. apply sumOver_ext. intros i Hi%elem_of_elements.
  destruct (scheduled_op _ _ _ _ Ha Hd Hi) as (s & e & Hs & He & Hse & _). unfold holds, timeAt. rewrite Ha, Hd. simpl. rewrite Hs, He. simpl.
  destruct (usesLSQ L i); simpl; [|done]. destruct (Z.leb_spec (s + startOf listOfII k) (Z.of_nat t)); destruct (Z.leb_spec (e + startOf listOfII k) (Z.of_nat t));
    destruct (Z.ltb_spec (Z.of_nat t) (e + startOf listOfII k)); simpl; lia.
Qed.

Lemma holds_bounds L k t l : 0 ≤ sumOver (λ i, Z.b2z (holds alloc dealloc listOfII L k t i)) l ≤ Z.of_nat (length l).
Proof. induction l as [|i l IH]; simpl length; simpl; [lia|]. destruct (holds _ _ _ _ _ _ i); simpl; lia. Qed.

Lemma occupancy_bounds T L t : 0 ≤ T ≤ 2 * M → 0 ≤ occupancy alloc dealloc listOfII O T L t < 2 ^ 32.
Proof.
  intros HT. destruct (sched_bound _ _ _ _ _ Hsched) as [_ HO]. unfold occupancy. set (l := filter _ _).
  assert (Z.of_nat (length l) ≤ T) as Hl.
  { pose proof (length_filter (λ k, startOf listOfII k < T) (seq 0 (Z.to_nat T))) as H. rewrite length_seq in H. unfold l. lia. }
  assert (0 ≤ sumOver (λ k, sumOver (λ i, Z.b2z (holds alloc dealloc listOfII L k t i)) (elements O)) l ≤ Z.of_nat (size O) * Z.of_nat (length l)); [|nia].
  clear Hl. clearbody l. induction l as [|k l IH]; simpl length; simpl; [lia|]. pose proof (holds_bounds L k t (elements O)) as H.
  change (length (elements O)) with (size O) in H. lia.
Qed.

(** The scope is twice the last deallocation. *)
Lemma maxTimes_spec l : ∀ m, m ≤ foldr Z.max m l ∧ (∀ x, x ∈ l → x ≤ foldr Z.max m l) ∧ (foldr Z.max m l = m ∨ foldr Z.max m l ∈ l).
Proof.
  induction l as [|x l IH]; intros m; simpl; [split; [lia|]; split; [by intros x H%elem_of_nil|by left]|].
  destruct (IH m) as (H1 & H2 & H3). split; [lia|]. split; [intros y [->|Hy]%elem_of_cons; [lia|specialize (H2 y Hy); lia]|].
  destruct (Z.max_spec x (foldr Z.max m l)) as [[_ ->]|[_ ->]]; [|right; left]. destruct H3 as [->|]; [by left|right; by right].
Qed.

Lemma scope_spec : ∃ T, scope orderOps dealloc listOfII = Ok T ∧ 0 ≤ T ≤ 2 * Z.max 0 M ∧ (O ≠ ∅ → 0 < T).
Proof.
  destruct (sched_bound _ _ _ _ _ Hsched) as [HM _].
  assert (∀ l, (∀ ii, ii ∈ l → ii ∈ listOfII) → ∀ m, 0 ≤ m ≤ Z.max 0 M → ∃ m', foldM (λ m ii,
    let* times := of_option OutOfRange (dealloc !! ii) in Ok (foldr Z.max m (map snd (orderOps Z times)))) m l = Ok m'
    ∧ m ≤ m' ≤ Z.max 0 M ∧ (O ≠ ∅ → l ≠ [] → 0 < m')) as Hfold.
  { induction l as [|ii l IH]; intros Hl m Hm; cbn [foldM]; [exists m; split; [done|]; split; [lia|done]|].
    destruct (scheduled ii (Hl ii ltac:(left))) as (a & d & Ha & Hd & Hda & Hdd). rewrite Hd. cbn [of_option bind].
    destruct (maxTimes_spec (map snd (orderOps Z d)) m) as (H1 & H2 & H3). set (m1 := foldr Z.max m (map snd (orderOps Z d))) in *.
    assert (∀ t, t ∈ map snd (orderOps Z d) → 0 < t ≤ M) as Ht.
    { intros t Ht. apply list_elem_of_In, in_map_iff in Ht as ([i u] & Heq & Ht). simpl in Heq. subst u.
      apply list_elem_of_In in Ht. rewrite Horder in Ht. apply elem_of_map_to_list in Ht.
      assert (i ∈ O) as Hi by (rewrite <-Hdd; apply elem_of_dom; by eexists).
      destruct (scheduled_op _ _ _ _ Ha Hd Hi) as (s & e & _ & He & _ & ?). by assert (t = e) as -> by congruence. }
    assert (m ≤ m1 ≤ Z.max 0 M) as Hm1 by (split; [done|]; destruct H3 as [->|H3]; [lia|apply Ht in H3; lia]).
    destruct (IH (λ i Hi, Hl i ltac:(by right)) m1 ltac:(lia)) as (m' & Hr & Hb & _). exists m'. split; [exact Hr|]. split; [lia|].
    intros HO _. apply set_choose_L in HO as [i Hi]. destruct (scheduled_op _ _ _ _ Ha Hd Hi) as (s & e & _ & He & _ & ?).
    assert (e ∈ map snd (orderOps Z d)) as Hin.
    { apply list_elem_of_In, in_map_iff. exists (i, e). split; [done|]. apply list_elem_of_In. rewrite Horder. by apply elem_of_map_to_list. }
    specialize (H2 e Hin). lia. }
  destruct (Hfold listOfII (λ ii H, H) 0 ltac:(lia)) as (m & Hm & Hb & Hpos). unfold scope. rewrite Hm. cbn [bind].
  unfold int. replace (int_ok (m * 2)) with true by (symmetry; unfold int_ok, INT_MAX; apply andb_true_iff; split; apply Z.leb_le; lia).
  exists (m * 2). split; [done|]. split; [lia|]. intros HO. specialize (Hpos HO (sched_ne _ _ _ _ _ Hsched)). lia.
Qed.

(** The entry of a queue in the map. *)
Lemma queue_times per L m :
  (let* per := addTimes f orderOps addAlloc alloc ∅ in addTimes f orderOps addDealloc dealloc per) = Ok per → per !! L = Some m →
  (∃ i, i ∈ O ∧ usesLSQ L i = true)
  ∧ ∀ ii a d, alloc !! ii = Some a → dealloc !! ii = Some d → ii ∈ listOfII →
      m !! ii = Some (timesFor L (orderOps Z a), timesFor L (orderOps Z d)).
Proof.
  intros Hper Hm. destruct (collected _ _ _ Hper) with (L := L) as (Hg & Hh & Hne).
  { intros ii. by rewrite (sched_alloc _ _ _ _ _ Hsched), (sched_dealloc _ _ _ _ _ Hsched). }
  assert (∃ i, i ∈ O ∧ usesLSQ L i = true) as (i & Hi & Hu).
  { destruct (Hne _ Hm) as (ii & Hhas). apply Hh in Hhas as (a & d & Ha & Hd & Ht). destruct (sched_ops _ _ _ _ _ Hsched _ _ _ Ha Hd) as [Hda Hdd].
    rewrite !timesFor_nonempty, Hda, Hdd in Ht. by destruct Ht as [|]. }
  split; [by exists i|]. intros ii a d Ha Hd _. destruct (sched_ops _ _ _ _ _ Hsched _ _ _ Ha Hd) as [Hda Hdd].
  specialize (Hg ii a d Ha Hd). assert (hasTimes per L ii) as Hhas.
  { apply Hh. exists a, d. split; [done|]. split; [done|]. left. apply timesFor_nonempty. exists i. by rewrite Hda. }
  unfold hasTimes, getTimes in *. rewrite Hm in *. simpl in *. destruct Hhas as [x Hx]. rewrite Hx in *. simpl in Hg. by rewrite Hg.
Qed.

Lemma queue_size per L m fuel T :
  (let* per := addTimes f orderOps addAlloc alloc ∅ in addTimes f orderOps addDealloc dealloc per) = Ok per → per !! L = Some m →
  scope orderOps dealloc listOfII = Ok T → 2 * M < Z.of_nat fuel →
  ∃ s, maxSlots fuel T listOfII m = Ok s ∧ (∀ t, Z.of_nat t < T → occupancy alloc dealloc listOfII O T L t ≤ s)
    ∧ ∃ t, Z.of_nat t < T ∧ s = occupancy alloc dealloc listOfII O T L t.
Proof.
  intros Hper Hm HT Hf. destruct (queue_times _ _ _ Hper Hm) as ((i & Hi & Hu) & Htimes).
  destruct scope_spec as (T' & HT' & Hb & Hpos). assert (T' = T) as -> by congruence. specialize (Hpos ltac:(set_solver)).
  destruct (sched_bound _ _ _ _ _ Hsched) as [HM _].
  assert (0 ≤ M) as HM0.
  { destruct some_interval as [ii Hii].
    destruct (scheduled ii Hii) as (a & d & Ha & Hd & _).
    destruct (scheduled_op _ _ _ _ Ha Hd Hi) as (? & ? & _ & _ & ? & ?). lia. }
  assert (∀ t, inUse T listOfII m t = occupancy alloc dealloc listOfII O T L t) as Heq.
  { intros t. apply sumOver_ext. intros k _. by apply contribution_holds. }
  destruct (maxSlots_spec T listOfII m ltac:(lia) (sched_ne _ _ _ _ _ Hsched) (sched_ii _ _ _ _ _ Hsched)) with (fuel := fuel) as (s & Hs & Hmax & t & Ht & Hts).
  - intros ii Hii. destruct (scheduled ii Hii) as (a & d & Ha & Hd & _). exists (timesFor L (orderOps Z a)), (timesFor L (orderOps Z d)).
    rewrite (Htimes _ a d) by done. split; [done|]. by eapply small_times.
  - lia.
  - intros t _. rewrite Heq. apply occupancy_bounds. lia.
  - exists s. split; [exact Hs|]. split; [intros t' Ht'; rewrite <-Heq; by apply Hmax|]. exists t. split; [done|]. by rewrite <-Heq.
Qed.

Lemma addTimes_both : (∀ i, i ∈ O → is_ok (lsqUser f i) = true) →
  ∃ per, (let* per := addTimes f orderOps addAlloc alloc ∅ in addTimes f orderOps addDealloc dealloc per) = Ok per.
Proof.
  intros Huser. assert (∀ (times : gmap Z TimePerOpMap), (∀ ii m, times !! ii = Some m → dom m = O) →
    ∀ ii m i (t : Z), (ii, m) ∈ map_to_list times → (i, t) ∈ orderOps Z m → is_ok (lsqUser f i) = true) as Hok.
  { intros times Hdom ii m i t Hm%elem_of_map_to_list Hi. rewrite Horder in Hi. apply elem_of_map_to_list in Hi.
    apply Huser. rewrite <-(Hdom _ _ Hm). apply elem_of_dom. by eexists. }
  assert (∃ per, addTimes f orderOps addAlloc alloc ∅ = Ok per) as [per1 H1].
  { apply addTimes_total. apply Hok. intros ii a Ha. pose proof (proj1 (sched_alloc _ _ _ _ _ Hsched ii) ltac:(by eexists)) as Hii.
    destruct (scheduled ii Hii) as (a' & d & Ha' & _ & Hd & _). congruence. }
  assert (∃ per, addTimes f orderOps addDealloc dealloc per1 = Ok per) as [per H2].
  { apply addTimes_total. apply Hok. intros ii d Hd. pose proof (proj1 (sched_dealloc _ _ _ _ _ Hsched ii) ltac:(by eexists)) as Hii.
    destruct (scheduled ii Hii) as (a & d' & _ & Hd' & _ & ?). congruence. }
  exists per. by rewrite H1.
Qed.

Lemma has_queue per L i :
  (let* per := addTimes f orderOps addAlloc alloc ∅ in addTimes f orderOps addDealloc dealloc per) = Ok per →
  i ∈ O → usesLSQ L i = true → is_Some (per !! L).
Proof.
  intros Hper Hi Hu. destruct (collected _ _ _ Hper) with (L := L) as (_ & Hh & _).
  { intros ii. by rewrite (sched_alloc _ _ _ _ _ Hsched), (sched_dealloc _ _ _ _ _ Hsched). }
  destruct some_interval as [ii Hii].
  destruct (scheduled ii Hii) as (a & d & Ha & Hd & Hda & Hdd).
  assert (hasTimes per L ii) as [x Hx].
  { apply Hh. exists a, d. split; [done|]. split; [done|]. left. apply timesFor_nonempty. exists i. by rewrite Hda. }
  unfold hasTimes in Hx. destruct (per !! L); [by eexists|]. simpl in Hx. by rewrite lookup_empty in Hx.
Qed.

End Schedule.

(** C4.  For every set of operations whose entries are allocated and deallocated at
    times in range, [calcQueueSize] returns for each queue that they use the greatest
    number of entries of the queue in use in a cycle, over the iterations that start
    within twice the last deallocation: no cycle needs more and one needs as many. *)
Theorem calcQueueSize_covers M (O : gset OpId) (listOfII : list Z) (alloc dealloc : gmap Z TimePerOpMap) (fuel : nat) :
  schedule M O listOfII alloc dealloc → (∀ i, i ∈ O → is_ok (lsqUser f i) = true) → 2 * M < Z.of_nat fuel →
  ∃ T sizes, scope orderOps dealloc listOfII = Ok T ∧ calcQueueSize f orderOps fuel alloc dealloc listOfII = Ok sizes
    ∧ ∀ L, match sizes !! L with
           | Some s => (∀ t, Z.of_nat t < T → occupancy alloc dealloc listOfII O T L t ≤ s)
                       ∧ ∃ t, Z.of_nat t < T ∧ s = occupancy alloc dealloc listOfII O T L t
           | None => ∀ i, i ∈ O → usesLSQ L i = false
           end.
Proof.
  intros Hsched Huser Hf. destruct (scope_spec _ _ _ _ _ Hsched) as (T & HT & Hb & Hpos).
  destruct (addTimes_both _ _ _ _ _ Hsched Huser) as [per Hper].
  destruct (foldM_insert (maxSlots fuel T listOfII) (map_to_list per) (NoDup_fst_map_to_list _)) with (init := ∅ : SizePerOpMap) as (sizes & Hr & Hs).
  { intros L m Hm%elem_of_map_to_list. by destruct (queue_size _ _ _ _ _ Hsched _ _ _ _ _ Hper Hm HT Hf) as (s & -> & _). }
  exists T, sizes. split; [done|]. split.
  { unfold calcQueueSize. destruct (proj1 (bind_ok _ _ _) Hper) as (per1 & -> & H2). cbn [bind]. rewrite H2. cbn [bind]. rewrite HT. exact Hr. }
  intros L. destruct (sizes !! L) as [s|] eqn:E.
  - apply Hs in E as [(m & Hm%elem_of_map_to_list & Hms)|[_ [=]]].
    destruct (queue_size _ _ _ _ _ Hsched _ _ _ _ _ Hper Hm HT Hf) as (s' & Hs' & Hspec). by assert (s = s') as -> by congruence.
  - intros i Hi. apply not_true_is_false. intros Hu. destruct (has_queue _ _ _ _ _ Hsched _ _ _ Hper Hi Hu) as [m Hm].
    destruct (queue_size _ _ _ _ _ Hsched _ _ _ _ _ Hper Hm HT Hf) as (s & Hms & _).
    assert (sizes !! L = Some s) as H; [|congruence]. apply Hs. left. exists m. split; [by apply elem_of_map_to_list|done].
Qed.

End Collect.
