(* ===== verification/LSQFull.v ===== *)
(** With collisions [full], a choice-free circuit that loads from a queue but stores
    to none has the interval 0, and the pass does not come to a size (LSQSizing.v). *)

From stdpp Require Import strings gmap.
From S2P Require Import StdString Gaussian CircuitIR CFG LSQGraph LSQSizing LSQThms LSQSizes Prelude.

Section Full.
Context (f : FuncOp).
Context (orderNodes : gmap string CFDFCNode → list (string * CFDFCNode)).
Context (Hnodes : ∀ m, orderNodes m ≡ₚ map_to_list m).
Context (orderOps : ∀ V, gmap OpId V → list (OpId * V)).
Context (Hops : ∀ V (m : gmap OpId V), orderOps V m ≡ₚ map_to_list m).

(** * The operations of a graph *)

Definition allOps (P : OpId → Prop) (g : CFDFCGraph) : Prop := ∀ n x i, nodes g !! n = Some x → op x = Some i → P i.

Lemma allOps_getOperations P g : allOps P g ↔ ∀ i, i ∈ getOperations orderNodes g → P i.
Proof.
  unfold getOperations, allOps. setoid_rewrite list_elem_of_omap. setoid_rewrite Hnodes. split.
  - intros H i ([n x] & Hx%elem_of_map_to_list & Hi). by eapply H.
  - intros H n x i Hx Hi. apply H. exists (n, x). split; [by apply elem_of_map_to_list|done].
Qed.

Lemma allOps_setNode P g n x y : allOps P g → nodes g !! n = Some x → op y = op x → allOps P (setNode n y g).
Proof.
  intros Hg Hx Hop m z i Hz Hi. simpl in Hz. destruct (decide (n = m)) as [->|].
  - rewrite lookup_insert_eq in Hz. injection Hz as <-. eapply Hg; [exact Hx|congruence].
  - rewrite lookup_insert_ne in Hz by done. by eapply Hg.
Qed.

Lemma allOps_insertNode P g n y : allOps P g → op y = None → allOps P (insertNode n y g).
Proof.
  intros Hg Hop. unfold insertNode. destruct (nodes g !! n); [done|]. intros m z i Hz Hi. simpl in Hz. destruct (decide (n = m)) as [->|].
  - rewrite lookup_insert_eq in Hz. injection Hz as <-. congruence.
  - rewrite lookup_insert_ne in Hz by done. by eapply Hg.
Qed.

Lemma addEdge_allOps P g i j g' : addEdge f g i j = Ok g' → allOps P g → allOps P g'.
Proof.
  intros H Hg. apply bind_ok in H as (s & _ & H). apply bind_ok in H as (x & Hx%nodeAt_ok & H). apply bind_ok in H as (d & _ & [= <-]).
  by eapply allOps_setNode.
Qed.

Lemma addShiftingEdge_allOps P g i j t g' : addShiftingEdge f g i j t = Ok g' → allOps P g → allOps P g'.
Proof.
  intros H Hg. apply bind_ok in H as (s & _ & H). apply bind_ok in H as (d & _ & H). apply bind_ok in H as (x & _ & H).
  apply bind_ok in H as (? & _ & H). apply bind_ok in H as (y & Hy%nodeAt_ok & [= <-]).
  eapply allOps_setNode; [by apply allOps_insertNode|exact Hy|done].
Qed.

Lemma updateStartTimeForNode_allOps P g n m g' : updateStartTimeForNode f g n m = Ok g' → allOps P g → allOps P g'.
Proof.
  intros H Hg. apply bind_ok in H as (x & Hx%nodeAt_ok & H). apply bind_ok in H as (y & _ & H). apply bind_ok in H as (t & _ & H).
  apply bind_ok in H as (? & _ & H). apply bind_ok in H as (merge & _ & [= <-]).
  destruct (_ =? _); [done|]. eapply (allOps_setNode P (mkGraph _ _)); [exact Hg|exact Hx|done].
Qed.

Lemma setEarliestStartTimesFrom_allOps P fuel : ∀ n visited g g',
  setEarliestStartTimesFrom f fuel n visited g = Ok g' → allOps P g → allOps P g'.
Proof.
  induction fuel as [|fuel IH]; intros n visited g g' H Hg; [done|]. cbn [setEarliestStartTimesFrom] in H.
  destruct (bool_decide _); [by injection H as <-|]. apply bind_ok in H as (x & _ & H). apply bind_ok in H as (g1 & H1 & H2).
  assert (∀ l g g', foldM (λ g node, let* g := updateStartTimeForNode f g node n in setEarliestStartTimesFrom f fuel node ({[n]} ∪ visited) g) g l = Ok g' →
    allOps P g → allOps P g') as Hgo.
  { intros l ga gb. apply foldM_keeps. intros y gc gd H Hc. apply bind_ok in H as (ge & He & H). eapply IH; [exact H|].
    by eapply updateStartTimeForNode_allOps. }
  eapply Hgo; [exact H2|]. by eapply Hgo.
Qed.

Lemma setEarliestStartTimes_allOps P fuel i g g' : setEarliestStartTimes f g fuel i = Ok g' → allOps P g → allOps P g'.
Proof.
  intros H Hg. apply bind_ok in H as (n & _ & H). apply bind_ok in H as (x & Hx%nodeAt_ok & H).
  eapply setEarliestStartTimesFrom_allOps; [exact H|]. by eapply allOps_setNode.
Qed.

Lemma insertAllocPrecedesMemoryAccessEdges_allOps P g l phi g' :
  insertAllocPrecedesMemoryAccessEdges f g l phi = Ok g' → allOps P g → allOps P g'.
Proof.
  apply foldM_keeps. intros i g1 g2 H. apply bind_ok in H as (p & _ & H). apply bind_ok in H as (q & _ & H). by eapply addEdge_allOps.
Qed.

Lemma insertStartnodeShiftingEdges_allOps P fuel g start times g' :
  insertStartnodeShiftingEdges f fuel g start times = Ok g' → allOps P g → allOps P g'.
Proof.
  apply foldM_keeps. intros [i t] g1 g2 H Hg. destruct (decide (i = start)); [by injection H as <-|].
  apply bind_ok in H as (ps & _ & H). destruct ps; [by eapply addShiftingEdge_allOps|by injection H as <-].
Qed.

(** * The interval is 0 *)

(** A loop that keeps what satisfies a test. *)
Lemma foldM_select {X} (step : list X → X → res (list X)) (Q : X → Prop) l :
  (∀ acc x r, step acc x = Ok r → (r = acc ++ [x] ∧ Q x) ∨ (r = acc ∧ ¬ Q x)) →
  ∀ acc r, foldM step acc l = Ok r → ∀ i, i ∈ r ↔ i ∈ acc ∨ (i ∈ l ∧ Q i).
Proof.
  intros Hstep. induction l as [|x l IH]; intros acc r H i; cbn [foldM] in H.
  - injection H as <-. split; [by left|]. by intros [|[Hi%elem_of_nil _]].
  - apply bind_ok in H as (a & Ha & H). rewrite (IH _ _ H), elem_of_cons.
    apply Hstep in Ha as [[-> HQ]|[-> HQ]]; [rewrite elem_of_app, list_elem_of_singleton|]; naive_solver.
Qed.

Lemma lsqOps_elem isType fuel g l : lsqOps f orderNodes isType fuel g = Ok l → ∀ i,
  i ∈ l ↔ i ∈ getOperations orderNodes g ∧ (∃ o, ops f !! i = Some o ∧ isType (kind o) = true) ∧ isConnectedToLSQ f fuel i = Ok true.
Proof.
  intros H i. apply bind_ok in H as (ops0 & H0 & H).
  rewrite (foldM_select _ (λ i, isConnectedToLSQ f fuel i = Ok true) ops0) with (2 := H).
  2: { intros acc x r Hx. apply bind_ok in Hx as (c & Hc & [= <-]). destruct c; [left|right]; split; congruence. }
  rewrite (foldM_select _ (λ i, ∃ o, ops f !! i = Some o ∧ isType (kind o) = true) (getOperations orderNodes g)) with (2 := H0).
  2: { intros acc x r Hx. apply bind_ok in Hx as (o & Ho%of_option_ok & [= <-]). destruct (isType (kind o)) eqn:E; [left; eauto|right].
       split; [done|]. intros (o' & Ho' & E'). congruence. }
  rewrite !elem_of_nil. naive_solver.
Qed.

(** An operation that is not a store of a queue. *)
Definition noStore (fuel : nat) (i : OpId) : Prop := ∀ o, ops f !! i = Some o → kind o = StoreOp → isConnectedToLSQ f fuel i ≠ Ok true.

Lemma lsqOps_none fuel g : lsqOps f orderNodes isStore fuel g = Ok [] → allOps (noStore fuel) g.
Proof.
  intros H. apply allOps_getOperations. intros i Hi o Ho Hk Hc. apply (not_elem_of_nil i).
  apply (lsqOps_elem _ _ _ _ H). split; [done|]. split; [|done]. exists o. by rewrite Hk.
Qed.

(** The greatest of no latency is 0. *)
Lemma getWorstCaseII_zero fuel g w : allOps (noStore fuel) g → getWorstCaseII f orderNodes g fuel = Ok w → w = 0.
Proof.
  intros Hg H. rewrite (allOps_getOperations (noStore fuel)) in Hg. unfold getWorstCaseII in H.
  refine (foldM_keeps _ (λ z, z = 0) _ _ _ _ H eq_refl). clear H w. intros i z z' H ->.
  apply bind_ok in H as (L & _ & H). destruct L as [L|]; [|by injection H as <-].
  apply bind_ok in H as (o & _ & H). apply bind_ok in H as (temp & Ht & [= <-]).
  assert (temp = 0) as ->; [|done]. destruct (decide (kind o = LoadOp)); [|by injection Ht as <-].
  refine (foldM_keeps_in _ (λ z, z = 0) _ _ _ _ Ht eq_refl). clear Ht temp. intros j z z' Hj H ->.
  apply bind_ok in H as (other & Ho%of_option_ok & H). destruct (decide (kind other = StoreOp)) as [Hk|]; [|by injection H as <-].
  apply bind_ok in H as (c & Hc & H). destruct c; [|by injection H as <-]. by destruct (Hg j Hj other Ho Hk).
Qed.

(** * The loop with the interval 0 *)

Lemma bumps_total T d l : Forall (λ t, int_ok t = true) l → ∀ p, ∃ p', foldM (bump T d 0) p l = Ok p'.
Proof.
  induction 1 as [|t l Ht _ IH]; intros p; cbn [foldM]; [by eexists|]. unfold bump at 1, addInt, int. rewrite Z.add_0_r, Ht. cbn [bind]. apply IH.
Qed.

Lemma occupancyLoop_zero T times a d : times !! 0 = Some (a, d) → Forall (λ t, int_ok t = true) a → Forall (λ t, int_ok t = true) d → 0 < T →
  ∀ fuel k p, occupancyLoop fuel T [0] times 0 k p = Bad NoFuel.
Proof.
  intros Ht Ha Hd HT. induction fuel as [|fuel IH]; intros k p; cbn [occupancyLoop]; rewrite (proj2 (Z.ltb_lt 0 T)) by done; [done|].
  change (length [0]) with 1%nat. rewrite Nat.mod_1_r. cbn [at_ lookup list_lookup of_option bind]. rewrite Ht. cbn [of_option bind].
  destruct (bumps_total T 1 a Ha p) as [p1 ->]. cbn [bind]. destruct (bumps_total T (-1) d Hd p1) as [p2 ->]. cbn [bind]. apply IH.
Qed.

Lemma maxSlots_zero T times a d fuel : times !! 0 = Some (a, d) → Forall (λ t, int_ok t = true) a → Forall (λ t, int_ok t = true) d → 0 ≤ T →
  maxSlots fuel T [0] times = Bad (if 0 <? T then NoFuel else OutOfRange).
Proof.
  intros Ht Ha Hd HT. unfold maxSlots. destruct (Z.ltb_spec 0 T) as [Hlt|Hge].
  - by rewrite (occupancyLoop_zero T times a d).
  - assert (T = 0) as -> by lia. destruct fuel; done.
Qed.

(** * The times are ints *)

Definition intTimes (m : TimePerOpMap) : Prop := ∀ i t, m !! i = Some t → int_ok t = true.

Lemma timesOf_spec time l m : timesOf time l = Ok m →
  dom m = list_to_set l ∧ ∀ i t, m !! i = Some t → i ∈ l ∧ time i = Ok t.
Proof.
  unfold timesOf. assert (∀ m0, foldM (λ m i, let* t := time i in Ok (match m !! i with Some _ => m | None => <[i := t]> m end)) m0 l = Ok m →
    dom m = dom m0 ∪ list_to_set l ∧ ∀ i t, m !! i = Some t → m0 !! i = Some t ∨ (i ∈ l ∧ time i = Ok t)) as Hf.
  { induction l as [|x l IH]; intros m0 H; cbn [foldM] in H; [injection H as <-; split; [set_solver|by left]|].
    apply bind_ok in H as (m1 & H1 & H). apply bind_ok in H1 as (t & Ht & [= <-]). destruct (IH _ H) as [Hd Hl]. rewrite Hd. split.
    - destruct (m0 !! x) eqn:E; [|rewrite dom_insert_L; set_solver]. assert (x ∈ dom m0) by (apply elem_of_dom; by eexists). set_solver.
    - intros i u Hu. destruct (Hl i u Hu) as [Hm|[Hi Hti]]; [|right; split; [by right|done]].
      destruct (m0 !! x) eqn:E; [by left|]. destruct (decide (x = i)) as [->|Hne]; [|rewrite lookup_insert_ne in Hm by done; by left].
      rewrite lookup_insert_eq in Hm. injection Hm as ->. right. split; [by left|done]. }
  intros H. destruct (Hf ∅ H) as [Hd Hl]. rewrite dom_empty_L, (left_id_L ∅ (∪)) in Hd. split; [done|].
  intros i t Hi. by destruct (Hl i t Hi) as [Hn|].
Qed.

Lemma wrapS_int z : int_ok (wrapS 32 z) = true.
Proof.
  unfold wrapS. pose proof (wrapU_range 32 z ltac:(lia)). change (2 ^ 32) with 4294967296 in *. unfold int_ok, INT_MAX.
  rewrite andb_true_iff, !Z.leb_le. change (2 ^ 31) with 2147483648. destruct (Z.ltb_spec (2 * wrapU 32 z) 4294967296); lia.
Qed.

Lemma max_int a b : int_ok a = true → int_ok b = true → int_ok (Z.max a b) = true.
Proof. destruct (Z.max_spec a b) as [[_ ->]|[_ ->]]; done. Qed.

Lemma int_spec z t : int int_ok z = Ok t → int_ok t = true.
Proof. unfold int. destruct (int_ok z) eqn:E; [|done]. by intros [= <-]. Qed.

Lemma loadDealloc_int g fuel start i t : loadDeallocTime f g fuel start i = Ok t → int_ok t = true.
Proof.
  intros H. apply bind_ok in H as (succeeding & _ & H).
  refine (foldM_keeps _ (λ m, int_ok m = true) _ _ _ _ H eq_refl). clear H t. intros x m m' H Hm.
  apply bind_ok in H as (next & _ & H). apply bind_ok in H as (l & _ & H). apply bind_ok in H as (t & Ht%int_spec & H).
  apply bind_ok in H as (o & _ & H). pose proof (max_int t m Ht Hm) as Hmax.
  destruct (kind o) as [| | | | | | | | |[] lat| | | | | | | | | | | | | | |]; try (injection H as <-; exact Hmax).
  apply bind_ok in H as (s2 & _ & H). refine (foldM_keeps _ (λ m, int_ok m = true) _ _ _ _ H Hmax). intros y u u' Hy Hu.
  apply bind_ok in Hy as (n2 & _ & Hy). apply bind_ok in Hy as (l2 & _ & Hy). apply bind_ok in Hy as (t2 & _ & Hy).
  apply bind_ok in Hy as (t3 & Ht3%int_spec & [= <-]). by apply max_int.
Qed.

Lemma allocTimes_int g l phi m : getAllocTimes f g l phi = Ok m → dom m = list_to_set l ∧ intTimes m.
Proof.
  intros [Hd Hm]%timesOf_spec. split; [done|]. intros i t Hi. destruct (Hm i t Hi) as [_ H].
  apply bind_ok in H as (? & _ & H). apply bind_ok in H as (? & _ & H). apply bind_ok in H as (? & _ & [= <-]). apply wrapS_int.
Qed.

Lemma deallocTimes_int g fuel start l m : getLoadDeallocTimes f g fuel start l = Ok m → dom m = list_to_set l ∧ intTimes m.
Proof. intros [Hd Hm]%timesOf_spec. split; [done|]. intros i t Hi. destruct (Hm i t Hi) as [_ H]. by eapply loadDealloc_int. Qed.

(** * The pass *)

Lemma mapM_ok_all {A B} (h : A → res B) l : (∀ x, x ∈ l → is_ok (h x) = true) → is_ok (mapM h l) = true.
Proof.
  induction l as [|x l IH]; intros Hl; [done|]. cbn [mapM]. pose proof (Hl x ltac:(left)) as Hx. destruct (h x); [|done]. cbn [bind].
  specialize (IH (λ y Hy, Hl y ltac:(by right))). by destruct (mapM h l).
Qed.

(** The queue of an operation of the circuit is found. *)
Lemma lsqUser_total i o : ops f !! i = Some o → is_ok (lsqUser f i) = true.
Proof.
  intros Ho. unfold lsqUser, opAt. rewrite Ho. cbn [of_option bind].
  pose proof (mapM_ok_all (λ u, let* x := of_option NullDeref (ops f !! u) in Ok (u, kind x)) (opUsers f o)) as Hm.
  destruct (mapM _ _); [done|]. apply Hm. intros u (v & _ & (o' & Ho' & _)%getUsers_elem)%opUsers_elem. by rewrite Ho'.
Qed.

(** With the interval 0 the loop over iterations of a queue that is in use does not end. *)
Lemma calcQueueSize_zero steps a d i T : dom a = dom d → i ∈ dom a → intTimes a → intTimes d →
  (∀ i, i ∈ dom a → ∃ o, ops f !! i = Some o) → scope orderOps {[0 := d]} [0] = Ok T → 0 ≤ T →
  calcQueueSize f orderOps steps {[0 := a]} {[0 := d]} [0] = Bad (if 0 <? T then NoFuel else OutOfRange).
Proof.
  intros Hdom Hi Ha Hd Hops' HT HT0.
  assert (∀ i, i ∈ dom a → is_ok (lsqUser f i) = true) as Hu by (intros j [o Ho]%Hops'; by eapply lsqUser_total).
  assert (∀ m : TimePerOpMap, dom m = dom a → ∀ ii m' j t, (ii, m') ∈ map_to_list ({[0 := m]} : gmap Z TimePerOpMap) → (j, t) ∈ orderOps Z m' →
    is_ok (lsqUser f j) = true) as Htot.
  { intros m Hm ii m' j t Hin Hj. rewrite map_to_list_singleton in Hin. apply list_elem_of_singleton in Hin as [= -> ->].
    rewrite Hops in Hj. apply elem_of_map_to_list in Hj. apply Hu. rewrite <-Hm. apply elem_of_dom. by eexists. }
  unfold calcQueueSize. destruct (addTimes_total f orderOps addAlloc _ (Htot a eq_refl) ∅) as [per1 H1]. unfold addTimes at 1. rewrite H1. cbn [bind].
  destruct (addTimes_total f orderOps addDealloc _ (Htot d (eq_sym Hdom)) per1) as [per H2]. unfold addTimes. rewrite H2. cbn [bind]. rewrite HT. cbn [bind].
  assert (∀ ii, is_Some (({[0 := a]} : gmap Z TimePerOpMap) !! ii) ↔ is_Some (({[0 := d]} : gmap Z TimePerOpMap) !! ii)) as Hkeys.
  { intros ii. destruct (decide (ii = 0)) as [->|]; [by rewrite !lookup_singleton_eq|by rewrite !lookup_singleton_ne]. }
  assert ((let* per := addTimes f orderOps addAlloc {[0 := a]} ∅ in addTimes f orderOps addDealloc {[0 := d]} per) = Ok per) as Hboth
    by (unfold addTimes; rewrite H1; exact H2).
  assert (∀ L m, per !! L = Some m → ∃ ta td, m !! 0 = Some (ta, td) ∧ Forall (λ t, int_ok t = true) ta ∧ Forall (λ t, int_ok t = true) td) as Hqueues.
  { intros L m Hm. destruct (collected f orderOps _ _ per Hboth Hkeys L) as (Hg & Hh & Hex). destruct (Hex m Hm) as [ii Hii].
    pose proof Hii as (a' & d' & Ha' & _)%Hh. destruct (decide (ii = 0)) as [->|]; [|by rewrite lookup_singleton_ne in Ha'].
    specialize (Hg 0 a d (lookup_singleton_eq _ _) (lookup_singleton_eq _ _)). unfold getTimes, hasTimes in *. rewrite Hm in *. simpl in *.
    destruct Hii as [[ta td] Hx]. exists ta, td. split; [done|]. rewrite Hx in Hg. simpl in Hg. injection Hg as -> ->.
    split; by apply (timesFor_all f orderOps Hops). }
  destruct (map_to_list per) as [|[L m] l] eqn:E.
  { exfalso. apply map_to_list_empty_iff in E. subst per. pose proof (Hu i Hi) as Hui. destruct (lsqUser f i) as [L|] eqn:HL; [|done].
    destruct (collected f orderOps _ _ ∅ Hboth Hkeys L) as (_ & Hh & _).
    assert (hasTimes ∅ L 0) as [x Hx]; [|unfold hasTimes in Hx; by rewrite lookup_empty in Hx].
    apply Hh. exists a, d. rewrite !lookup_singleton_eq. split; [done|]. split; [done|]. left. apply (timesFor_nonempty f orderOps Hops).
    exists i. split; [done|]. unfold usesLSQ. rewrite HL. by apply bool_decide_eq_true. }
  cbn [foldM]. destruct (Hqueues L m) as (ta & td & Hm & Hta & Htd).
  { apply elem_of_map_to_list. rewrite E. left. }
  by rewrite (maxSlots_zero T m ta td steps Hm Hta Htd HT0).
Qed.

Lemma scope_nonneg d T : scope orderOps {[0 := d]} [0] = Ok T → 0 ≤ T.
Proof.
  unfold scope. cbn [foldM]. rewrite lookup_singleton_eq. cbn [of_option bind]. unfold int. destruct (int_ok _); [|done]. intros [= <-].
  enough (∀ l : list Z, 0 ≤ foldr Z.max 0 l) by (specialize (H (map snd (orderOps Z d))); lia). induction l; simpl; lia.
Qed.

(** C18.  With collisions [full], when the circuit has operations that load from a queue
    and none that store to one, and the times of the operations can be computed, they are
    those for the interval [getWorstCaseII] gives, which is 0.  With that interval the loop of [calcQueueSize]
    over the iterations stays at the start of the first one: whatever the bound on its
    rounds is, it is used up, so that the pass does not end (if the entries of all loads are freed
    at cycle 0, it reads the first element of an empty vector instead). *)
Theorem full_collisions_no_sizes fuel graph initialII loadOps IIs t T :
  lsqOps f orderNodes isLoad fuel graph = Ok loadOps → loadOps ≠ [] → lsqOps f orderNodes isStore fuel graph = Ok [] →
  timesForGraph f orderNodes orderOps fuel graph initialII "full" = Ok (Some (IIs, t)) →
  scope orderOps (loadDealloc t) IIs = Ok T →
  IIs = [0] ∧
  (∀ steps, calcQueueSize f orderOps steps (loadAlloc t) (loadDealloc t) IIs = Bad (if 0 <? T then NoFuel else OutOfRange)) ∧
  sizeLSQsForGraph f orderNodes orderOps fuel graph initialII "full" = Bad (if 0 <? T then NoFuel else OutOfRange).
Proof.
  intros Hl Hne Hs H HT.
  assert (IIs = [0] ∧ ∀ steps, calcQueueSize f orderOps steps (loadAlloc t) (loadDealloc t) IIs = Bad (if 0 <? T then NoFuel else OutOfRange)) as [HII Hsteps].
  2: { split; [done|]. split; [done|]. unfold sizeLSQsForGraph. rewrite H. cbn [bind]. by rewrite Hsteps. }
  unfold timesForGraph in H. rewrite Hl, Hs in H. cbn [bind] in H.
  destruct loadOps as [|i loadOps]; [done|]. simpl length in H. cbn [Nat.eqb andb] in H.
  apply bind_ok in H as ([start times] & _ & H). apply bind_ok in H as (s & _ & H). apply bind_ok in H as (phi & _ & H).
  apply bind_ok in H as (g1 & H1 & H). apply bind_ok in H as (g2 & H2 & H). apply bind_ok in H as (g3 & H3 & H).
  assert (allOps (noStore fuel) g3) as Hg3.
  { eapply setEarliestStartTimes_allOps; [exact H3|]. eapply insertStartnodeShiftingEdges_allOps; [exact H2|].
    eapply insertAllocPrecedesMemoryAccessEdges_allOps; [exact H1|]. by apply lsqOps_none. }
  apply bind_ok in H as (IIs' & HII & H). unfold intervals in HII. cbn [String.eqb] in HII. simpl in HII.
  apply bind_ok in HII as (w & Hw%getWorstCaseII_zero & [= <-]); [|done]. subst w.
  apply bind_ok in H as ([g4 t'] & Ht & [= <- <-]). cbn [foldM] in Ht. apply bind_ok in Ht as ([g5 t5] & Ht & [= -> ->]).
  apply bind_ok in Ht as (la & Hla & Ht). apply bind_ok in Ht as (sa & _ & Ht). apply bind_ok in Ht as (ld & Hld & Ht).
  apply bind_ok in Ht as (sd & _ & [= <- <-]). cbn [loadAlloc loadDealloc] in HT |- *. rewrite !insert_empty in HT |- *.
  apply allocTimes_int in Hla as [Hda Hia]. apply deallocTimes_int in Hld as [Hdd Hid]. split; [done|]. intros steps.
  apply calcQueueSize_zero with (i := i); [congruence|rewrite Hda; set_solver|done|done| |done|by eapply scope_nonneg].
  intros j Hj. rewrite Hda in Hj. apply elem_of_list_to_set in Hj. apply (lsqOps_elem _ _ _ _ Hl) in Hj as (_ & (o & Ho & _) & _). by exists o.
Qed.

End Full.
