(* ===== verification/LSQExamples.v ===== *)
(** A loop that loads through a load-store queue: the sizes of its queue, and runs of
    the sizing pass that go wrong. *)

From stdpp Require Import strings gmap.
From S2P Require Import StdString SimplePaths Gaussian CircuitIR CFG CFGExamples LSQGraph LSQSizing LSQThms LSQSizes LSQFull Prelude.

(** Block 1 is a loop; it loads from a queue. *)
Definition loads : FuncOp := mkFuncOp [0]%nat
  [inBlock "br0" BranchOp [0] [1] 0;
   inBlock "control_merge0" ControlMergeOp [1; 7] [2; 3] 1;
   inBlock "fork0" ForkOp [2] [4; 5; 11] 1;
   inBlock "load0" LoadOp [4; 10] [8; 9] 1;
   inBlock "cmpi0" GenericOp [5] [6] 1;
   inBlock "cond_br0" ConditionalBranchOp [6; 11] [7; 12] 1;
   inBlock "sink0" SinkOp [3] [] 1;
   inBlock "sink1" SinkOp [9] [] 1;
   mkOperation "lsq0" LSQOp [8] [10] None;
   inBlock "end0" OtherOp [12] [] 2]%nat.

(** The latencies of the timing database. *)
Definition loads_latency (i : OpId) : option Z := default None ([None; Some 0; Some 0; Some 5; Some 1; Some 0] !! i).

Definition byName (m : gmap string CFDFCNode) : list (string * CFDFCNode) := map_to_list m.
Definition byOp (V : Type) (m : gmap OpId V) : list (OpId * V) := map_to_list m.

Definition loads_graph : CFDFCGraph := getOk (mkGraph ∅ ∅) (CFDFCGraph_new loads 20 [1%nat] loads_latency 1).

Lemma loads_graph_ok : CFDFCGraph_new loads 20 [1%nat] loads_latency 1 = Ok loads_graph.
Proof. vm_compute. reflexivity. Qed.

Lemma CFDFCGraph_new_closed_witness : closedGraph loads_graph ∧ ∀ n, ofBlocks loads [1%nat] n → is_Some (nodes loads_graph !! n).
Proof. apply (CFDFCGraph_new_closed loads 20 [1%nat] loads_latency 1 loads_graph loads_graph_ok). Defined.

(** * Latencies *)

Lemma loads_closed : closedGraph loads_graph.
Proof.
  assert (forallb (λ nx, forallb (λ m, bool_decide (is_Some (nodes loads_graph !! m))) (targets (snd nx))) (map_to_list (nodes loads_graph)) = true) as H
    by (vm_compute; reflexivity).
  rewrite forallb_forall in H. intros n x m Hx Hm. apply elem_of_map_to_list, list_elem_of_In, H in Hx. rewrite forallb_forall in Hx.
  apply (proj1 (bool_decide_eq_true _)), Hx, list_elem_of_In. unfold targets. simpl. rewrite !elem_of_app. tauto.
Qed.

Lemma loads_fitting : fitting loads_graph.
Proof.
  exists 5. split; [|vm_compute; discriminate]. intros n. unfold latencyOf. destruct (nodes loads_graph !! n) as [x|] eqn:E; [|done].
  apply elem_of_map_to_list in E. revert E. set (l := map_to_list _). vm_compute in l. subst l. intros E.
  repeat (apply elem_of_cons in E as [[= -> ->]|E]; [vm_compute; discriminate|]). by apply elem_of_nil in E.
Qed.

(** From the control merge to the branch, and from the branch back to the control
    merge: the latency of the backedge is negative. *)
Lemma findMaxPathLatency_paths_witness :
  ∃ m, findMaxPathLatency loads loads_graph 8 1 5 false false true = Ok m ∧ 0 ≤ m
    ∧ (∀ p, counted loads_graph false false "control_merge0" "cond_br0" p → pathLatency loads_graph (trim true p) ≤ m)
    ∧ (m = 0 ∨ ∃ p, counted loads_graph false false "control_merge0" "cond_br0" p ∧ m = pathLatency loads_graph (trim true p)).
Proof.
  apply (findMaxPathLatency_paths loads loads_graph loads_closed loads_fitting 8); [vm_compute; lia|reflexivity|reflexivity|].
  vm_compute. by eexists.
Defined.

Lemma loads_max : findMaxPathLatency loads loads_graph 8 1 5 false false true = Ok 1.
Proof. vm_compute. reflexivity. Qed.

Lemma findLongestNonCyclicPath_best_witness :
  ∃ best, findLongestNonCyclicPath loads loads_graph 9 1 = Ok best
    ∧ (∀ s, walk (neighbours loads_graph true true) "control_merge0" s → NoDup ("control_merge0" :: s) →
         pathLatency loads_graph ("control_merge0" :: s) ≤ pathLatency loads_graph best)
    ∧ (best = [] ∨ ∃ s, best = "control_merge0" :: s ∧ walk (neighbours loads_graph true true) "control_merge0" s
         ∧ NoDup best ∧ 0 < pathLatency loads_graph best).
Proof.
  apply (findLongestNonCyclicPath_best loads loads_graph loads_closed loads_fitting 9 ltac:(vm_compute; lia) 1 "control_merge0"); [reflexivity| |].
  - vm_compute. by eexists.
  - vm_compute. lia.
Defined.

Lemma loads_longest : findLongestNonCyclicPath loads loads_graph 9 1 = Ok ["control_merge0"; "fork0"; "load0"].
Proof. vm_compute. reflexivity. Qed.

(** A branch is followed by its backedge only, on which no path has a positive latency. *)
Lemma branch_longest : findLongestNonCyclicPath loads loads_graph 9 5 = Ok [].
Proof. vm_compute. reflexivity. Qed.

(** * Sizes *)

Definition sizesOf (r : res (option LSQSizingResult)) : res (option (list (option OpId * (Z * Z)))) :=
  let* s := r in Ok (map_to_list <$> s).

(** With an iteration in every cycle there are five loads in flight, with one in every
    other cycle three. *)
Lemma loads_sizes :
  sizesOf (sizeLSQsForCFDFC loads byName byOp 20 [1%nat] loads_latency 1 "none") = Ok (Some [(Some 8%nat, (5, 0))])
  ∧ sizesOf (sizeLSQsForCFDFC loads byName byOp 20 [1%nat] loads_latency 2 "none") = Ok (Some [(Some 8%nat, (3, 0))]).
Proof. split; vm_compute; reflexivity. Qed.

Definition load_alloc : gmap Z TimePerOpMap := {[2 := {[3%nat := 1]}]}.
Definition load_dealloc : gmap Z TimePerOpMap := {[2 := {[3%nat := 6]}]}.

Lemma loads_schedule : schedule 6 {[3%nat]} [2] load_alloc load_dealloc.
Proof.
  assert (∀ (t : TimePerOpMap) ii, is_Some (({[2 := t]} : gmap Z TimePerOpMap) !! ii) ↔ ii ∈ [2]) as Hdom.
  { intros t ii. rewrite list_elem_of_singleton. destruct (decide (ii = 2)) as [->|Hne].
    - rewrite lookup_singleton_eq. split; [done|by eexists].
    - rewrite lookup_singleton_ne by done. split; [by intros [? ?]|done]. }
  unfold load_alloc, load_dealloc. split.
  - done.
  - intros ii ->%list_elem_of_singleton. lia.
  - apply Hdom.
  - apply Hdom.
  - intros ii a d [_ <-]%lookup_singleton_Some [_ <-]%lookup_singleton_Some. by rewrite !dom_singleton_L.
  - intros ii a d i s e [_ <-]%lookup_singleton_Some [_ <-]%lookup_singleton_Some [_ <-]%lookup_singleton_Some [_ <-]%lookup_singleton_Some. lia.
  - rewrite size_singleton. lia.
Qed.

Lemma calcQueueSize_covers_witness :
  ∃ T sizes, scope byOp load_dealloc [2] = Ok T ∧ calcQueueSize loads byOp 13 load_alloc load_dealloc [2] = Ok sizes
    ∧ ∀ L, match sizes !! L with
           | Some s => (∀ t, Z.of_nat t < T → occupancy loads load_alloc load_dealloc [2] {[3%nat]} T L t ≤ s)
                       ∧ ∃ t, Z.of_nat t < T ∧ s = occupancy loads load_alloc load_dealloc [2] {[3%nat]} T L t
           | None => ∀ i, i ∈ ({[3%nat]} : gset OpId) → usesLSQ loads L i = false
           end.
Proof.
  apply (calcQueueSize_covers loads byOp (λ V m, Permutation_refl _) 6 {[3%nat]} [2] load_alloc load_dealloc 13 loads_schedule).
  - intros i ->%elem_of_singleton. reflexivity.
  - lia.
Defined.

Lemma loads_covered : calcQueueSize loads byOp 13 load_alloc load_dealloc [2] = Ok {[Some 8%nat := 3]}.
Proof. vm_compute. reflexivity. Qed.

(** The same circuit with collisions [full]. *)
(** The intervals and times before the sizes. *)
Definition fullTimes : list Z * AllTimes :=
  match timesForGraph loads byName byOp 20 loads_graph 1 "full" with Ok (Some p) => p | _ => ([], mkAllTimes ∅ ∅ ∅ ∅) end.
Definition fullScope : Z := match scope byOp (loadDealloc (snd fullTimes)) (fst fullTimes) with Ok T => T | Bad _ => 0 end.

Lemma full_collisions_no_sizes_witness :
  fst fullTimes = [0] ∧
  (∀ steps, calcQueueSize loads byOp steps (loadAlloc (snd fullTimes)) (loadDealloc (snd fullTimes)) (fst fullTimes)
     = Bad (if 0 <? fullScope then NoFuel else OutOfRange)) ∧
  sizeLSQsForGraph loads byName byOp 20 loads_graph 1 "full" = Bad (if 0 <? fullScope then NoFuel else OutOfRange).
Proof.
  apply (full_collisions_no_sizes loads byName (λ m, Permutation_refl _) byOp (λ V m, Permutation_refl _) 20 loads_graph 1 [3%nat]
    (fst fullTimes) (snd fullTimes) fullScope).
  - vm_compute. reflexivity.
  - discriminate.
  - vm_compute. reflexivity.
  - vm_compute. reflexivity.
  - vm_compute. reflexivity.
Defined.

Example full_collisions_do_not_end : sizeLSQsForGraph loads byName byOp 20 loads_graph 1 "full" = Bad NoFuel.
Proof. vm_compute. reflexivity. Qed.

(** * Names *)

(** The control merge reaches the merge directly and by an operation of latency 5. *)
Definition named (n : string) : FuncOp := mkFuncOp [0]%nat
  [inBlock "br0" BranchOp [0] [1] 0;
   inBlock "control_merge0" ControlMergeOp [1; 7] [2; 3] 1;
   inBlock "fork0" ForkOp [2] [4; 5; 11; 13] 1;
   inBlock n GenericOp [4] [6] 1;
   inBlock "merge0" MergeOp [6; 5] [8] 1;
   inBlock "sink1" SinkOp [8] [] 1;
   inBlock "cond_br0" ConditionalBranchOp [11; 13] [7; 12] 1;
   inBlock "sink0" SinkOp [3] [] 1;
   inBlock "end0" OtherOp [12] [] 2]%nat.

Definition named_latency (i : OpId) : option Z := if decide (i = 3%nat) then Some 5 else None.

(** The earliest start time of the operation after the merge. *)
Definition sinkStart (n : string) : res Z :=
  let* g := CFDFCGraph_new (named n) 20 [1%nat] named_latency 1 in
  let* g := setEarliestStartTimes (named n) g 20 1 in
  getEarliestStartTime (named n) g 5.

(** The earliest start times that [setEarliestStartTimes] gives depend on the names
    of the operations: the depth-first search visits the successors by name, and the
    arrival time an edge had before the start of a merge went down stays. *)
Theorem start_times_depend_on_names : sinkStart "addi0" = Ok 5 ∧ sinkStart "subi0" = Ok 0.
Proof. split; vm_compute; reflexivity. Qed.
