(* ===== verification/Cycles.v ===== *)
(** Clocked components and the specifications they implement.

    [Simulator::simulate] runs a component once per clock cycle with [isClkRisingEdge]
    set, then any number of times with it unset, on signals that are still
    changing, the last of them the settled ones of the cycle.  At the edge the component
    sees the signals the previous cycle settled on, except those of arguments:
    [simulate] makes them valid before the first edge, and clears the valid of those
    that were accepted between a cycle and the next edge.  [cycle] is that schedule, with
    any signals at the edge; [steady] says how they may differ from the settled ones.
    [Refines] is the interface between a component and the abstract machine it
    implements, and [trace_refines] its consequence for whole runs. *)

From S2P Require Import Prelude.

(** The signals a component sees in a clock cycle. *)
Record Cycle (E : Type) := mkCycle { atEdge : E; transients : list E; final : E }.
Arguments mkCycle {E}. Arguments atEdge {E}. Arguments transients {E}. Arguments final {E}.

Section Machines.
Context {S E O Q : Type}.

Record component := mkComponent { exec : bool → E → S → res S; outp : S → O }.

Record machine := mkMachine { next : Q → E → Q; observe : Q → E → O }.

(** One clock cycle: the edge, the transient signals, the settled ones. *)
Definition cycle (c : component) (s : S) (t : Cycle E) : res S :=
  let* s1 := exec c true (atEdge t) s in
  let* s2 := foldM (λ s e, exec c false e s) s1 (transients t) in
  exec c false (final t) s2.

(** The outputs at the end of each cycle of a run. *)
Fixpoint trace (c : component) (s : S) (ts : list (Cycle E)) : res (list O) :=
  match ts with
  | [] => Ok []
  | t :: ts =>
      let* s' := cycle c s t in
      let* os := trace c s' ts in
      Ok (outp c s' :: os)
  end.

Fixpoint machine_trace (m : machine) (q : Q) (es : list E) : list O :=
  match es with
  | [] => []
  | e :: es => observe m q e :: machine_trace m (next m q e) es
  end.

Fixpoint machine_run (m : machine) (q : Q) (es : list E) : Q :=
  match es with [] => q | e :: es => machine_run m (next m q e) es end.

(** Each edge sees signals that [Same] allows after those of the cycle before, which
    settled on [e]. *)
Fixpoint steady (Same : E → E → Prop) (e : E) (ts : list (Cycle E)) : Prop :=
  match ts with [] => True | t :: ts => Same e (atEdge t) ∧ steady Same (final t) ts end.

(** [Rep q s]: the registers of [s] hold [q].  [Settled q e s]: moreover the
    outputs and the registers' next values are those for the signals [e].  [Same e e']:
    an edge may see [e'] after a cycle that settled on [e]. *)
Class Refines (c : component) (m : machine) (Rep : Q → S → Prop) (Settled : Q → E → S → Prop) (Same : E → E → Prop) := {
  refines_rep q e s : Settled q e s → Rep q s;
  refines_settle q e s : Rep q s → ∃ s', exec c false e s = Ok s' ∧ Settled q e s';
  refines_edge q e e' s : Settled q e s → Same e e' → ∃ s', exec c true e' s = Ok s' ∧ Rep (next m q e) s';
  refines_out q e s : Settled q e s → outp c s = observe m q e }.

Context {c : component} {m : machine} {Rep : Q → S → Prop} {Settled : Q → E → S → Prop} {Same : E → E → Prop}.
Context {HR : Refines c m Rep Settled Same}.

Lemma refines_transients q ts : ∀ s, Rep q s →
  ∃ s', foldM (λ s e, exec c false e s) s ts = Ok s' ∧ Rep q s'.
Proof.
  induction ts as [|e ts IH]; intros s Hs; simpl; [by eauto|].
  destruct (refines_settle q e s Hs) as (s1 & -> & H1%refines_rep); simpl. by apply IH.
Qed.

Lemma refines_cycle q prev s t : Settled q prev s → Same prev (atEdge t) →
  ∃ s', cycle c s t = Ok s' ∧ Settled (next m q prev) (final t) s'.
Proof.
  intros Hs He. unfold cycle.
  destruct (refines_edge q prev (atEdge t) s Hs He) as (s1 & -> & H1); simpl.
  destruct (refines_transients _ (transients t) s1 H1) as (s2 & -> & H2); simpl.
  by apply refines_settle.
Qed.

(** A run never faults, and its outputs are the machine's. *)
Lemma trace_refines q prev s ts : Settled q prev s → steady Same prev ts →
  trace c s ts = Ok (machine_trace m (next m q prev) (map final ts)).
Proof.
  revert q prev s. induction ts as [|t ts IH]; intros q prev s Hs Ht; simpl; [done|]. destruct Ht as [He Ht].
  destruct (refines_cycle q prev s t Hs He) as (s' & -> & Hs'); simpl.
  rewrite (IH _ _ _ Hs' Ht); simpl. by rewrite (refines_out _ _ _ Hs').
Qed.

(** A run from reset: the outputs of the reset, and of the cycles that follow it. *)
Definition runFrom (c : component) (s0 : res S) (ts : list (Cycle E)) : res (list O) :=
  let* s := s0 in let* os := trace c s ts in Ok (outp c s :: os).

Lemma runFrom_refines q e0 s0 s ts : s0 = Ok s → Settled q e0 s → steady Same e0 ts →
  runFrom c s0 ts = Ok (machine_trace m q (e0 :: map final ts)).
Proof.
  intros -> Hs Ht. unfold runFrom; simpl.
  rewrite (trace_refines q e0 s ts Hs Ht); simpl. by rewrite (refines_out _ _ _ Hs).
Qed.

End Machines.

Arguments component : clear implicits.
Arguments machine : clear implicits.

(** * One-slot channels *)

Section Fifo.
Context {D : Type}.

(** What surrounds a component with one input and one output channel: the
    producer's valid and data, the consumer's ready. *)
Record PortEnv := mkPortEnv { e_valid : bool; e_data : D; e_ready : bool }.

(** What such a component answers: its ready, and the token it offers. *)
Record PortObs := mkPortObs { o_ready : bool; o_token : option D }.

Definition accepts (e : PortEnv) (o : PortObs) : list D :=
  if e_valid e && o_ready o then [e_data e] else [].

Definition delivers (e : PortEnv) (o : PortObs) : list D :=
  if e_ready e then match o_token o with Some d => [d] | None => [] end else [].

(** The tokens transferred in and out over a run. *)
Definition accepted (es : list PortEnv) (os : list PortObs) : list D :=
  concat (zip_with accepts es os).
Definition delivered (es : list PortEnv) (os : list PortObs) : list D :=
  concat (zip_with delivers es os).

(** The contract of a channel component: a queue of at most [cap] tokens,
    which no cycle loses, duplicates or reorders. *)
Class Fifo (cap : nat) (m : machine PortEnv PortObs (list D)) := {
  fifo_cycle q e : (length q ≤ cap)%nat →
    q ++ accepts e (observe m q e) = delivers e (observe m q e) ++ next m q e;
  fifo_bound q e : (length q ≤ cap)%nat → (length (next m q e) ≤ cap)%nat }.

Lemma fifo_run_bound {cap m} `{Fifo cap m} es : ∀ q,
  (length q ≤ cap)%nat → (length (machine_run m q es) ≤ cap)%nat.
Proof. induction es; simpl; eauto using fifo_bound. Qed.

(** Over any run: initial contents and tokens in, in order, are the tokens out
    and the final contents. *)
Lemma fifo_lossless {cap m} `{Fifo cap m} es : ∀ q,
  (length q ≤ cap)%nat →
  q ++ accepted es (machine_trace m q es)
    = delivered es (machine_trace m q es) ++ machine_run m q es.
Proof.
  unfold accepted, delivered. induction es as [|e es IH]; intros q Hq; simpl.
  - by rewrite app_nil_r.
  - rewrite app_assoc, fifo_cycle, <-!app_assoc by done. f_equal.
    by apply IH, fifo_bound.
Qed.

(** The slot of [TEHBSupport]: a token that finds the slot empty and the
    consumer ready goes through in the same cycle. *)
Definition bypassFifo : machine PortEnv PortObs (list D) := mkMachine
  (λ q e,
    let q' := q ++ (if e_valid e && bool_decide (q = []) then [e_data e] else []) in
    if e_ready e then tail q' else q')
  (λ q e, mkPortObs (bool_decide (q = []))
    (head (q ++ (if e_valid e then [e_data e] else [])))).

(** The slot of [OEHBSupport]: every token spends a cycle in the slot, which
    can be refilled in the cycle it is emptied. *)
Definition registeredFifo : machine PortEnv PortObs (list D) := mkMachine
  (λ q e,
    (if e_ready e then tail q else q)
      ++ (if e_valid e && (bool_decide (q = []) || e_ready e) then [e_data e] else []))
  (λ q e, mkPortObs (bool_decide (q = []) || e_ready e) (head q)).

#[export] Instance bypassFifo_fifo : Fifo 1 bypassFifo.
Proof.
  split; intros [|d [|]] [v x r] Hq; simpl in *; try lia; destruct v, r; simpl; try done; lia.
Qed.

#[export] Instance registeredFifo_fifo : Fifo 1 registeredFifo.
Proof.
  split; intros [|d [|]] [v x r] Hq; simpl in *; try lia; destruct v, r; simpl; try done; lia.
Qed.

End Fifo.

Arguments PortEnv : clear implicits.
Arguments PortObs : clear implicits.
#[export] Hint Resolve fifo_run_bound : dyn.
