(* ===== verification/SimSignals.v ===== *)
(** The simulator's signals: token data, channel and control states, the
    updaters that copy a new state over an old one, and the reader/writer views
    the component models act through
    (experimental/{include/experimental,lib}/Support/HandshakeSimulator). *)

From S2P Require Import Prelude LLVMInterface.

Section Signals.
Context {IL : APIntLib} {FL : APFloatLib}.

(** * Token data *)

(** What an [llvm::Any] of the simulator may hold. *)
Inductive Any : Type :=
| AnyInt (v : apint)
| AnyFloat (v : apfloat).

Record Data := mkData { data_any : option Any; data_hash : Z; data_bitwidth : Z }.

(** [Data x = {}]: value-initialised. *)
Definition Data_default : Data := mkData None 0 0.

Definition Data_of_int (v : apint) : Data := mkData (Some (AnyInt v)) (apint_hash v) (apint_width v).

Definition Data_of_float (v : apfloat) : Data :=
  mkData (Some (AnyFloat v)) (apfloat_hash v) (apfloat_bits v).

Definition Data_hasValue (d : Data) : bool := bool_decide (is_Some (data_any d)).

(** [dataCast<APInt>]; [any_cast] to the wrong type is undefined. *)
Definition dataCastInt (d : Data) : res apint :=
  match data_any d with Some (AnyInt v) => Ok v | _ => Bad BadAnyCast end.

(** [dataCast<APFloat>] *)
Definition dataCastFloat (d : Data) : res apfloat :=
  match data_any d with Some (AnyFloat v) => Ok v | _ => Bad BadAnyCast end.

(** * States *)

(** The data type of a [handshake::ChannelType]. *)
Inductive DataType : Type :=
| IntegerType (width : Z) (isSigned : bool)
| FloatType (semantics : Z)
| OtherType.

(** The type of a value of the circuit. *)
Inductive ValueType : Type :=
| ChannelType (t : DataType)
| ControlType
| OtherValueType.

Record ChannelState := mkChannelState { chs_valid : bool; chs_ready : bool; chs_data : Data }.

(** [ChannelState]'s constructor; an unsupported data type is reported through
    [emitError] and leaves the data value-initialised. *)
Definition ChannelState_new (t : DataType) : ChannelState :=
  mkChannelState false false
    match t with
    | IntegerType w s => Data_of_int (apint_make (Z.max 1 w) 0 s)
    | FloatType sem => Data_of_float (apfloat_zero sem)
    | OtherType => Data_default
    end.

Record ControlState := mkControlState { cts_valid : bool; cts_ready : bool }.

Definition ControlState_new : ControlState := mkControlState false false.

(** * Updaters *)

(** A [DoubleUpdater] holds references to the old and the new state of one
    value: the pair of states is the storage of that value. *)
Inductive Updater : Type :=
| ChannelUpdater (oldState newState : ChannelState)
| ControlUpdater (oldState newState : ControlState).

Definition Updater_check (u : Updater) : bool :=
  match u with
  | ChannelUpdater o n =>
      eqb (chs_valid n) (chs_valid o) && eqb (chs_ready n) (chs_ready o)
        && (data_hash (chs_data n) =? data_hash (chs_data o))
  | ControlUpdater o n =>
      eqb (cts_valid n) (cts_valid o) && eqb (cts_ready n) (cts_ready o)
  end.

Definition Updater_update (u : Updater) : Updater :=
  match u with
  | ChannelUpdater o n => ChannelUpdater (mkChannelState (chs_valid n) (chs_ready n) (chs_data n)) n
  | ControlUpdater o n => ControlUpdater (mkControlState (cts_valid n) (cts_ready n)) n
  end.

Definition Updater_setValid (u : Updater) : Updater :=
  Updater_update
    match u with
    | ChannelUpdater o n => ChannelUpdater o (mkChannelState true (chs_ready n) (chs_data n))
    | ControlUpdater o n => ControlUpdater o (mkControlState true (cts_ready n))
    end.

Definition Updater_resetValid (u : Updater) : Updater :=
  Updater_update
    match u with
    | ChannelUpdater o n =>
        ChannelUpdater o
          (if chs_ready n then mkChannelState false (chs_ready n) (chs_data n) else n)
    | ControlUpdater o n =>
        ControlUpdater o (if cts_ready n then mkControlState false (cts_ready n) else n)
    end.

(** * Reader and writer views *)

(** A consumer reads the old valid (and data) and writes the new ready;
    [c_chan] is the data of a [ChannelConsumerRW], [None] for a
    [ControlConsumerRW]. *)
Record ConsumerRW := mkConsumerRW { c_valid : bool; c_ready : bool; c_chan : option Data }.

(** A producer reads the old ready and writes the new valid (and data). *)
Record ProducerRW := mkProducerRW { p_valid : bool; p_ready : bool; p_chan : option Data }.

Definition c_set_ready (c : ConsumerRW) (b : bool) : ConsumerRW :=
  mkConsumerRW (c_valid c) b (c_chan c).

Definition p_set_valid (p : ProducerRW) (b : bool) : ProducerRW :=
  mkProducerRW b (p_ready p) (p_chan p).

Definition p_set_chan (p : ProducerRW) (d : option Data) : ProducerRW :=
  mkProducerRW (p_valid p) (p_ready p) d.

(** [ChannelConsumerRW(reader, writer)] and [ControlConsumerRW(reader, writer)] *)
Definition consumerView (u : Updater) : ConsumerRW :=
  match u with
  | ChannelUpdater reader writer =>
      mkConsumerRW (chs_valid reader) (chs_ready writer) (Some (chs_data reader))
  | ControlUpdater reader writer => mkConsumerRW (cts_valid reader) (cts_ready writer) None
  end.

(** [ChannelProducerRW(reader, writer)] and [ControlProducerRW(reader, writer)] *)
Definition producerView (u : Updater) : ProducerRW :=
  match u with
  | ChannelUpdater reader writer =>
      mkProducerRW (chs_valid writer) (chs_ready reader) (Some (chs_data writer))
  | ControlUpdater reader writer => mkProducerRW (cts_valid writer) (cts_ready reader) None
  end.

(** The writes made through a consumer view, in the state it refers to. *)
Definition writeConsumer (c : ConsumerRW) (u : Updater) : Updater :=
  match u with
  | ChannelUpdater o n => ChannelUpdater o (mkChannelState (chs_valid n) (c_ready c) (chs_data n))
  | ControlUpdater o n => ControlUpdater o (mkControlState (cts_valid n) (c_ready c))
  end.

(** The writes made through a producer view. *)
Definition writeProducer (p : ProducerRW) (u : Updater) : Updater :=
  match u with
  | ChannelUpdater o n =>
      ChannelUpdater o
        (mkChannelState (p_valid p) (chs_ready n) (default (chs_data n) (p_chan p)))
  | ControlUpdater o n => ControlUpdater o (mkControlState (p_valid p) (cts_ready n))
  end.

(** [static_cast<ChannelConsumerRW *>(c)->data] *)
Definition channelConsumerData (c : ConsumerRW) : res Data := of_option BadCast (c_chan c).

(** [static_cast<ChannelProducerRW *>(p)->data] *)
Definition channelProducerData (p : ProducerRW) : res Data := of_option BadCast (p_chan p).

(** * Datafull and dataless ports *)

(** [ConsumerData(ins).data]: null for a control port. *)
Definition ConsumerData (ins : ConsumerRW) : option Data := c_chan ins.

(** [ConsumerData(ins).dataWidth] *)
Definition ConsumerData_dataWidth (ins : ConsumerRW) : Z :=
  match c_chan ins with Some d => data_bitwidth d | None => 0 end.

(** [ProducerData(outs).dataWidth]: the constructor never sets it. *)
Definition ProducerData_dataWidth (outs : ProducerRW) : Z := 0.

Definition ProducerData_hasValue (outs : ProducerRW) : bool := bool_decide (is_Some (p_chan outs)).

(** [ProducerData::operator=(const ConsumerData &)] *)
Definition ProducerData_assign (outs : ProducerRW) (value : option Data) : res ProducerRW :=
  match p_chan outs with
  | Some _ => let* d := of_option NullDeref value in Ok (p_set_chan outs (Some d))
  | None => Ok outs
  end.

(** * Laws *)

(** Two updaters agree when old and new hold the same signals. *)
Definition settled (u : Updater) : Prop :=
  match u with
  | ChannelUpdater o n => o = n
  | ControlUpdater o n => o = n
  end.

(** Reading back what was written through a view. *)
Lemma consumerView_write c u :
  c_ready (consumerView (writeConsumer c u)) = c_ready c.
Proof. by destruct u. Qed.

Lemma producerView_write_valid p u :
  p_valid (producerView (writeProducer p u)) = p_valid p.
Proof. by destruct u. Qed.

(** The writes of a consumer and of a producer go to different cells. *)
Lemma write_commute c p u :
  writeConsumer c (writeProducer p u) = writeProducer p (writeConsumer c u).
Proof. by destruct u. Qed.

(** A consumer view does not see the writes of a sweep. *)
Lemma consumerView_writeProducer p u :
  consumerView (writeProducer p u) = consumerView u.
Proof. by destruct u. Qed.

Lemma producerView_writeConsumer c u :
  producerView (writeConsumer c u) = producerView u.
Proof. by destruct u. Qed.

Lemma update_settled u : settled (Updater_update u).
Proof. by destruct u as [? []|? []]. Qed.

Lemma settled_check u : settled u → Updater_check u = true.
Proof.
  destruct u as [o n|o n]; simpl; intros ->; rewrite ?eqb_reflx, ?Z.eqb_refl; done.
Qed.

Lemma settled_update u : settled u → Updater_update u = u.
Proof. by destruct u as [? []|? []]; simpl; intros ->. Qed.

Lemma producerData_assign_ok p d d' :
  p_chan p = Some d' → ProducerData_assign p (Some d) = Ok (p_set_chan p (Some d)).
Proof. unfold ProducerData_assign. by intros ->. Qed.

Lemma producerData_assign_control p d :
  p_chan p = None → ProducerData_assign p d = Ok p.
Proof. unfold ProducerData_assign. by intros ->. Qed.

End Signals.

#[export] Hint Resolve update_settled settled_check : dyn.
#[export] Hint Rewrite @consumerView_write @producerView_write_valid
  @consumerView_writeProducer @producerView_writeConsumer : dyn_rw.
