(* ===== verification/SimSupport.v ===== *)
(** The building blocks of the component models: antitokens, eager fork, join,
    and the two one-slot buffers (class names as in HandshakeSimulator.h).

    A [ConsumerRW *] or [ProducerRW *] argument is a view, taken by value and
    returned with the writes made to it; [Data *] arguments are [option Data].
    Two ports of a component that share a value share the consumer view in the
    program; each operation below writes the ports in the program's order, so
    storing the returned views in that order leaves the same last write. *)

From S2P Require Import Prelude LLVMInterface SimSignals.

Section Support.
Context {IL : APIntLib} {FL : APFloatLib}.

(** * Antotokens *)

Record Antotokens := mkAntotokens {
  regIn0 : bool; regIn1 : bool; regOut0 : bool; regOut1 : bool }.

Definition Antotokens_new : Antotokens := mkAntotokens false false false false.

(** The outputs of [Antotokens]: [kill1], [kill0] and [stopValid]. *)
Record Kills := mkKills { kill1 : bool; kill0 : bool; stopValid : bool }.

Definition Antotokens_reset (s : Antotokens) (pvalid1 pvalid0 generateAt1 generateAt0 : bool)
    : Antotokens * Kills :=
  let out0 := false in
  let out1 := false in
  let in0 := negb pvalid0 && (generateAt0 || out0) in
  let in1 := negb pvalid1 && (generateAt1 || out1) in
  (mkAntotokens in0 in1 out0 out1,
   mkKills (generateAt1 || out1) (generateAt0 || out0) (out0 || out1)).

Definition Antotokens_exec (isClkRisingEdge : bool) (s : Antotokens)
    (pvalid1 pvalid0 generateAt1 generateAt0 : bool) : Antotokens * Kills :=
  let out0 := if isClkRisingEdge then regIn0 s else regOut0 s in
  let out1 := if isClkRisingEdge then regIn1 s else regOut1 s in
  let in0 := negb pvalid0 && (generateAt0 || out0) in
  let in1 := negb pvalid1 && (generateAt1 || out1) in
  (mkAntotokens in0 in1 out0 out1,
   mkKills (generateAt1 || out1) (generateAt0 || out0) (out0 || out1)).

(** * ForkSupport *)

Record ForkSupport := mkForkSupport {
  fork_size : nat;
  transmitValue : list bool;
  keepValue : list bool;
  blockStopArray : list bool;
  anyBlockStop : bool;
  backpressure : bool;
  fork_datawidth : Z }.

Definition ForkSupport_new (size : nat) (datawidth : Z) : ForkSupport :=
  mkForkSupport size (replicate size false) (replicate size false)
    (replicate size false) false false datawidth.

Definition ForkSupport_resetDataless (s : ForkSupport) (ins : ConsumerRW) (outs : list ProducerRW)
    : res (ForkSupport * ConsumerRW * list ProducerRW) :=
  if (length outs <? fork_size s)%nat then Bad OutOfRange
  else
    let stops := map (λ o, negb (p_ready o)) (take (fork_size s) outs) in
    let outs' := imap (λ i o, if (i <? fork_size s)%nat then p_set_valid o (c_valid ins) else o) outs in
    let any := or_n stops in
    Ok (mkForkSupport (fork_size s) (replicate (fork_size s) true) stops stops any
          (c_valid ins && any) (fork_datawidth s),
        c_set_ready ins (negb any), outs').

(** The loop of [execDataless], over the elements of the three vectors and of
    [outs] in step; an output beyond the vectors' size is out of range. *)
Fixpoint ForkSupport_execLoop (isClkRisingEdge backpressure valid : bool)
    (transmit keep block : list bool) (outs : list ProducerRW)
    : res (list bool * list bool * list bool * list ProducerRW) :=
  match outs with
  | [] => Ok (transmit, keep, block, [])
  | o :: outs =>
      match transmit, keep, block with
      | t :: transmit, _ :: keep, _ :: block =>
          let k := negb (p_ready o) && t in
          let t' := if isClkRisingEdge then k || negb backpressure else t in
          let o' := p_set_valid o (t' && valid) in
          let* (ts, ks, bs, os) :=
            ForkSupport_execLoop isClkRisingEdge backpressure valid transmit keep block outs in
          Ok (t' :: ts, k :: ks, k :: bs, o' :: os)
      | _, _, _ => Bad OutOfRange
      end
  end.

Definition ForkSupport_execDataless (isClkRisingEdge : bool) (s : ForkSupport)
    (ins : ConsumerRW) (outs : list ProducerRW)
    : res (ForkSupport * ConsumerRW * list ProducerRW) :=
  let* (ts, ks, bs, outs') :=
    ForkSupport_execLoop isClkRisingEdge (backpressure s) (c_valid ins)
      (transmitValue s) (keepValue s) (blockStopArray s) outs in
  let any := or_n bs in
  Ok (mkForkSupport (fork_size s) ts ks bs any (c_valid ins && any) (fork_datawidth s),
      c_set_ready ins (negb any), outs').

(** [for (auto &out : outsData) out = insData;] *)
Definition assignAll (insData : option Data) (outs : list ProducerRW) : res (list ProducerRW) :=
  mapM (λ o, ProducerData_assign o insData) outs.

Definition ForkSupport_reset (s : ForkSupport) (ins : ConsumerRW) (outs : list ProducerRW)
    (insData : option Data) : res (ForkSupport * ConsumerRW * list ProducerRW) :=
  let* (s', ins', outs') := ForkSupport_resetDataless s ins outs in
  let* outs'' := assignAll insData outs' in
  Ok (s', ins', outs'').

Definition ForkSupport_exec (isClkRisingEdge : bool) (s : ForkSupport) (ins : ConsumerRW)
    (outs : list ProducerRW) (insData : option Data)
    : res (ForkSupport * ConsumerRW * list ProducerRW) :=
  let* (s', ins', outs') := ForkSupport_execDataless isClkRisingEdge s ins outs in
  let* outs'' := assignAll insData outs' in
  Ok (s', ins', outs'').

(** * JoinSupport *)

Definition JoinSupport_exec (size : nat) (ins : list ConsumerRW) (outs : ProducerRW)
    : res (list ConsumerRW * ProducerRW) :=
  if (length ins <? size)%nat then Bad OutOfRange
  else
    let joined := take size ins in
    Ok (imap (λ i c,
          if (i <? size)%nat
          then c_set_ready c (p_ready outs && forallb_except c_valid i 0 joined)
          else c) ins,
        p_set_valid outs (forallb c_valid joined)).

(** * OEHBSupport *)

Record OEHBSupport := mkOEHBSupport {
  oehb_datawidth : Z; oehb_outputValid : bool; oehb_regEn : bool }.

Definition OEHBSupport_new (datawidth : Z) : OEHBSupport := mkOEHBSupport datawidth false false.

Definition OEHBSupport_resetDataless (s : OEHBSupport) (ins : ConsumerRW) (outs : ProducerRW)
    : OEHBSupport * ConsumerRW * ProducerRW :=
  (mkOEHBSupport (oehb_datawidth s) false (oehb_regEn s),
   c_set_ready ins true, p_set_valid outs false).

Definition OEHBSupport_execDataless (isClkRisingEdge : bool) (s : OEHBSupport)
    (ins : ConsumerRW) (outs : ProducerRW) : OEHBSupport * ConsumerRW * ProducerRW :=
  let ov := if isClkRisingEdge
            then c_valid ins || (oehb_outputValid s && negb (p_ready outs))
            else oehb_outputValid s in
  (mkOEHBSupport (oehb_datawidth s) ov (oehb_regEn s),
   c_set_ready ins (negb ov || p_ready outs), p_set_valid outs ov).

Definition OEHBSupport_reset (s : OEHBSupport) (ins : ConsumerRW) (outs : ProducerRW)
    (insData outsData : option Data)
    : res (OEHBSupport * ConsumerRW * ProducerRW * option Data) :=
  let '(s', ins', outs') := OEHBSupport_resetDataless s ins outs in
  let* outsData' :=
    match insData with
    | Some _ => let* _ := of_option NullDeref outsData in
                Ok (Some (Data_of_int (apint_make (oehb_datawidth s) 0 false)))
    | None => Ok outsData
    end in
  Ok (mkOEHBSupport (oehb_datawidth s) (oehb_outputValid s') (c_ready ins' && c_valid ins'),
      ins', outs', outsData').

Definition OEHBSupport_exec (isClkRisingEdge : bool) (s : OEHBSupport) (ins : ConsumerRW)
    (outs : ProducerRW) (insData outsData : option Data)
    : res (OEHBSupport * ConsumerRW * ProducerRW * option Data) :=
  let '(s', ins', outs') := OEHBSupport_execDataless isClkRisingEdge s ins outs in
  let* outsData' :=
    match insData with
    | Some d => if isClkRisingEdge && oehb_regEn s'
                then let* _ := of_option NullDeref outsData in Ok (Some d)
                else Ok outsData
    | None => Ok outsData
    end in
  Ok (mkOEHBSupport (oehb_datawidth s) (oehb_outputValid s') (c_ready ins' && c_valid ins'),
      ins', outs', outsData').

(** * TEHBSupport *)

Record TEHBSupport := mkTEHBSupport {
  tehb_datawidth : Z;
  fullReg : bool;
  tehb_outputValid : bool;
  regNotFull : bool;
  regEnable : bool;
  dataReg : Data }.

Definition TEHBSupport_new (datawidth : Z) : TEHBSupport :=
  mkTEHBSupport datawidth false false false false Data_default.

Definition TEHBSupport_resetDataless (s : TEHBSupport) (ins : ConsumerRW) (outs : ProducerRW)
    : TEHBSupport * ConsumerRW * ProducerRW :=
  (mkTEHBSupport (tehb_datawidth s) false (c_valid ins) (regNotFull s) (regEnable s) (dataReg s),
   c_set_ready ins true, p_set_valid outs (c_valid ins)).

Definition TEHBSupport_execDataless (isClkRisingEdge : bool) (s : TEHBSupport)
    (ins : ConsumerRW) (outs : ProducerRW) : TEHBSupport * ConsumerRW * ProducerRW :=
  let full := if isClkRisingEdge then tehb_outputValid s && negb (p_ready outs) else fullReg s in
  let ov := c_valid ins || full in
  (mkTEHBSupport (tehb_datawidth s) full ov (regNotFull s) (regEnable s) (dataReg s),
   c_set_ready ins (negb full), p_set_valid outs ov).

(** The inner consumer view [c(ins->valid, regNotFull)] refers to the member
    [regNotFull]: the ready the dataless part writes goes there. *)
Definition TEHBSupport_resetDataFull (s : TEHBSupport) (ins : ConsumerRW) (outs : ProducerRW)
    (insData outsData : option Data)
    : res (TEHBSupport * ConsumerRW * ProducerRW * option Data) :=
  let enable := regNotFull s && c_valid ins && negb (p_ready outs) in
  let '(s1, c, outs') :=
    TEHBSupport_resetDataless s (mkConsumerRW (c_valid ins) (regNotFull s) None) outs in
  let notFull := c_ready c in
  let reg := Data_of_int (apint_make (tehb_datawidth s) 0 false) in
  let* _ := of_option NullDeref outsData in
  let* d := of_option NullDeref insData in
  let outsData' := if notFull then d else reg in
  Ok (mkTEHBSupport (tehb_datawidth s) (fullReg s1) (tehb_outputValid s1) notFull enable reg,
      c_set_ready ins notFull, outs', Some outsData').

Definition TEHBSupport_execDataFull (isClkRisingEdge : bool) (s : TEHBSupport)
    (ins : ConsumerRW) (outs : ProducerRW) (insData outsData : option Data)
    : res (TEHBSupport * ConsumerRW * ProducerRW * option Data) :=
  let enable := regNotFull s && c_valid ins && negb (p_ready outs) in
  let '(s1, c, outs') :=
    TEHBSupport_execDataless isClkRisingEdge s
      (mkConsumerRW (c_valid ins) (regNotFull s) None) outs in
  let notFull := c_ready c in
  let* d := of_option NullDeref insData in
  let reg := if isClkRisingEdge && enable then d else dataReg s in
  let* _ := of_option NullDeref outsData in
  let outsData' := if notFull then d else reg in
  Ok (mkTEHBSupport (tehb_datawidth s) (fullReg s1) (tehb_outputValid s1) notFull enable reg,
      c_set_ready ins notFull, outs', Some outsData').

Definition TEHBSupport_reset (s : TEHBSupport) (ins : ConsumerRW) (outs : ProducerRW)
    (insData outsData : option Data)
    : res (TEHBSupport * ConsumerRW * ProducerRW * option Data) :=
  match insData with
  | Some _ => TEHBSupport_resetDataFull s ins outs insData outsData
  | None => let '(s', ins', outs') := TEHBSupport_resetDataless s ins outs in
            Ok (s', ins', outs', outsData)
  end.

Definition TEHBSupport_exec (isClkRisingEdge : bool) (s : TEHBSupport) (ins : ConsumerRW)
    (outs : ProducerRW) (insData outsData : option Data)
    : res (TEHBSupport * ConsumerRW * ProducerRW * option Data) :=
  match insData with
  | Some _ => TEHBSupport_execDataFull isClkRisingEdge s ins outs insData outsData
  | None => let '(s', ins', outs') := TEHBSupport_execDataless isClkRisingEdge s ins outs in
            Ok (s', ins', outs', outsData)
  end.

End Support.
