(* ===== verification/SimBuffers.v ===== *)
(** The one-slot buffers implement one-slot queues: [TEHBSupport] a bypass
    queue, [OEHBSupport] a registered one, each with and without data.  The
    components below are the [TEHBModel] and [OEHBModel] of a circuit, driven
    by arbitrary neighbours: a [PortEnv] gives the producer's valid and data
    and the consumer's ready.  The eager fork ([ForkSupport]) hands every token of its input
    to each of its outputs exactly once, each in its own time. *)

From S2P Require Import Prelude LLVMInterface Cycles SimSignals SimSupport.

Section Buffers.
Context {IL : APIntLib} {FL : APFloatLib}.

(** A buffer with the signals it drives: its ready, and its output's valid and
    data ([unit] on a control channel), cells of the channels' new states. *)
Record BufState (B D : Type) := mkBufState {
  buf : B; buf_ready : bool; buf_valid : bool; buf_data : D }.
Arguments mkBufState {B D}. Arguments buf {B D}. Arguments buf_ready {B D}.
Arguments buf_valid {B D}. Arguments buf_data {B D}.

(** The views of a channel port and of a control port. *)
Definition fullIns {B} (e : PortEnv Data) (s : BufState B Data) : ConsumerRW :=
  mkConsumerRW (e_valid e) (buf_ready s) (Some (e_data e)).
Definition fullOuts {B} (e : PortEnv Data) (s : BufState B Data) : ProducerRW :=
  mkProducerRW (buf_valid s) (e_ready e) (Some (buf_data s)).
Definition dlIns {B} (e : PortEnv unit) (s : BufState B unit) : ConsumerRW :=
  mkConsumerRW (e_valid e) (buf_ready s) None.
Definition dlOuts {B} (e : PortEnv unit) (s : BufState B unit) : ProducerRW :=
  mkProducerRW (buf_valid s) (e_ready e) None.

Definition fullResult {B} (r : res (B * ConsumerRW * ProducerRW * option Data))
    : res (BufState B Data) :=
  let* (b, ins, outs, od) := r in
  let* d := of_option NullDeref od in
  Ok (mkBufState b (c_ready ins) (p_valid outs) d).
Definition dlResult {B} (r : res (B * ConsumerRW * ProducerRW * option Data))
    : res (BufState B unit) :=
  let* (b, ins, outs, od) := r in Ok (mkBufState b (c_ready ins) (p_valid outs) tt).

Definition bufObs {B D} (s : BufState B D) : PortObs D :=
  mkPortObs (buf_ready s) (if buf_valid s then Some (buf_data s) else None).

Definition tehb : component (BufState TEHBSupport Data) (PortEnv Data) (PortObs Data) :=
  mkComponent (λ clk e s, fullResult (TEHBSupport_exec clk (buf s) (fullIns e s)
    (fullOuts e s) (Some (e_data e)) (Some (buf_data s)))) bufObs.
Definition tehb_dl : component (BufState TEHBSupport unit) (PortEnv unit) (PortObs unit) :=
  mkComponent (λ clk e s, dlResult (TEHBSupport_exec clk (buf s) (dlIns e s)
    (dlOuts e s) None None)) bufObs.
Definition oehb : component (BufState OEHBSupport Data) (PortEnv Data) (PortObs Data) :=
  mkComponent (λ clk e s, fullResult (OEHBSupport_exec clk (buf s) (fullIns e s)
    (fullOuts e s) (Some (e_data e)) (Some (buf_data s)))) bufObs.
Definition oehb_dl : component (BufState OEHBSupport unit) (PortEnv unit) (PortObs unit) :=
  mkComponent (λ clk e s, dlResult (OEHBSupport_exec clk (buf s) (dlIns e s)
    (dlOuts e s) None None)) bufObs.

(** What the simulator's reset leaves, the channels being in the state [s]. *)
Definition tehb_reset (e : PortEnv Data) (s : BufState TEHBSupport Data) :=
  fullResult (TEHBSupport_reset (buf s) (fullIns e s) (fullOuts e s)
    (Some (e_data e)) (Some (buf_data s))).
Definition tehb_dl_reset (e : PortEnv unit) (s : BufState TEHBSupport unit) :=
  dlResult (TEHBSupport_reset (buf s) (dlIns e s) (dlOuts e s) None None).
Definition oehb_reset (e : PortEnv Data) (s : BufState OEHBSupport Data) :=
  fullResult (OEHBSupport_reset (buf s) (fullIns e s) (fullOuts e s)
    (Some (e_data e)) (Some (buf_data s))).
Definition oehb_dl_reset (e : PortEnv unit) (s : BufState OEHBSupport unit) :=
  dlResult (OEHBSupport_reset (buf s) (dlIns e s) (dlOuts e s) None None).

(** * Representation *)

Definition tehb_rep {D} (full : D → TEHBSupport → Prop) (q : list D)
    (s : BufState TEHBSupport D) : Prop :=
  match q with
  | [] => fullReg (buf s) = false
  | [d] => fullReg (buf s) = true ∧ full d (buf s)
  | _ => False
  end.

Definition tehb_settled {D} (full : D → TEHBSupport → Prop) (q : list D) (e : PortEnv D)
    (s : BufState TEHBSupport D) : Prop :=
  tehb_rep full q s
  ∧ buf_ready s = bool_decide (q = [])
  ∧ tehb_outputValid (buf s) = e_valid e || negb (bool_decide (q = []))
  ∧ buf_valid s = tehb_outputValid (buf s)
  ∧ buf_data s = default (e_data e) (head q).

(** With data, the slot's token is in [dataReg] and [regNotFull] mirrors the
    ready; a control token carries nothing. *)
Definition inDataReg (d : Data) (t : TEHBSupport) : Prop := dataReg t = d.
Definition noData (d : unit) (t : TEHBSupport) : Prop := True.

Definition tehb_settled_full (q : list Data) (e : PortEnv Data) (s : BufState TEHBSupport Data) :=
  tehb_settled inDataReg q e s ∧ regNotFull (buf s) = bool_decide (q = []).

Definition oehb_rep {D} (q : list D) (s : BufState OEHBSupport D) : Prop :=
  match q with
  | [] => oehb_outputValid (buf s) = false
  | [d] => oehb_outputValid (buf s) = true ∧ buf_data s = d
  | _ => False
  end.

Definition oehb_settled {D} (q : list D) (e : PortEnv D) (s : BufState OEHBSupport D) : Prop :=
  oehb_rep q s
  ∧ buf_ready s = bool_decide (q = []) || e_ready e
  ∧ buf_valid s = oehb_outputValid (buf s)
  ∧ oehb_regEn (buf s) = buf_ready s && e_valid e.

(** What an edge may see after a cycle: a token that the slot takes from the producer
    is still there. *)
Definition keepsToken {D} (e e' : PortEnv D) : Prop :=
  e_ready e' = e_ready e
  ∧ (e_valid e = true → e_ready e = false → e_valid e' = true ∧ e_data e' = e_data e).

(** The producer offers the same token as before, or none. *)
Definition sameToken {D} (e e' : PortEnv D) : Prop :=
  e_ready e' = e_ready e ∧ e_valid e' = e_valid e ∧ (e_valid e = true → e_data e' = e_data e).

(** Splits a queue of at most one token, the signals of the environment and
    the bits of the buffer, and runs the buffer on them. *)
Ltac edge_cases :=
  lazymatch goal with
  | e' : PortEnv _ |- _ =>
      destruct e' as [[] ? []]; simpl in *; destruct_and?; simplify_eq;
      repeat match goal with H : true = true → _ |- _ => specialize (H eq_refl)
                           | H : false = false → _ |- _ => specialize (H eq_refl) end;
      destruct_and?; simplify_eq; simpl in *; try done
  | _ => idtac
  end.
Ltac buf_cases q e s :=
  destruct q as [|? [|]], e as [[] ? []], s as [[] ? ? ?];
  simpl in *; destruct_and?; simplify_eq; simpl in *; try done;
  edge_cases;
  try (eexists; split; [reflexivity|]);
  repeat match goal with u : unit |- _ => destruct u end;
  simpl; repeat split; auto; try done.

#[export] Instance tehb_refines :
  Refines tehb bypassFifo (tehb_rep inDataReg) tehb_settled_full keepsToken.
Proof.
  split; [intros q e s H|intros q e s H|intros q e e' s H He|intros q e s H];
    unfold tehb_settled_full, tehb_settled, inDataReg, bufObs, keepsToken in *; buf_cases q e s.
Qed.

#[export] Instance tehb_dl_refines :
  Refines tehb_dl bypassFifo (tehb_rep noData) (tehb_settled noData) keepsToken.
Proof.
  split; [intros q e s H|intros q e s H|intros q e e' s H He|intros q e s H];
    unfold tehb_settled, noData, bufObs, keepsToken in *; buf_cases q e s.
Qed.

#[export] Instance oehb_refines : Refines oehb registeredFifo oehb_rep oehb_settled sameToken.
Proof.
  split; [intros q e s H|intros q e s H|intros q e e' s H He|intros q e s H];
    unfold oehb_settled, bufObs, sameToken in *; buf_cases q e s.
Qed.

#[export] Instance oehb_dl_refines : Refines oehb_dl registeredFifo oehb_rep oehb_settled sameToken.
Proof.
  split; [intros q e s H|intros q e s H|intros q e e' s H He|intros q e s H];
    unfold oehb_settled, bufObs, sameToken in *; buf_cases q e s.
Qed.

(** * Resets *)

Lemma tehb_reset_settled e0 s :
  ∃ s0, tehb_reset e0 s = Ok s0 ∧ tehb_settled_full [] e0 s0.
Proof.
  eexists; split; [reflexivity|]. unfold tehb_settled_full, tehb_settled; simpl.
  by rewrite orb_false_r.
Qed.

Lemma tehb_dl_reset_settled e0 s :
  ∃ s0, tehb_dl_reset e0 s = Ok s0 ∧ tehb_settled noData [] e0 s0.
Proof.
  eexists; split; [reflexivity|]. unfold tehb_settled; simpl.
  rewrite orb_false_r. by destruct (e_data e0).
Qed.

Lemma oehb_reset_settled e0 s :
  ∃ s0, oehb_reset e0 s = Ok s0 ∧ oehb_settled [] e0 s0.
Proof. eexists; split; [reflexivity|]. by unfold oehb_settled. Qed.

Lemma oehb_dl_reset_settled e0 s :
  ∃ s0, oehb_dl_reset e0 s = Ok s0 ∧ oehb_settled [] e0 s0.
Proof. eexists; split; [reflexivity|]. by unfold oehb_settled. Qed.

(** * Contracts *)

(** C19.  A [TEHBSupport] with data behaves, from reset on, as a bypass queue of one
    token: in every cycle its ready, its valid and its data are those of the queue, and
    the transient signals of a cycle leave no trace.  The neighbours are arbitrary, except
    that a producer whose token goes into the slot (valid, with a consumer that is not
    ready) still offers it at the clock edge that ends the cycle, with the same ready of
    the consumer.  Channels between operations do; [simulate] clears the valid of an
    accepted argument before that edge, for which see [tehb_loses_withdrawn_token]. *)
Theorem tehb_implements_bypass_queue e0 s es : steady keepsToken e0 es →
  runFrom tehb (tehb_reset e0 s) es
    = Ok (machine_trace bypassFifo [] (e0 :: map final es)).
Proof. intros Ht. destruct (tehb_reset_settled e0 s) as (s0 & Hr & Hs). eapply runFrom_refines; eauto with typeclass_instances. Qed.

(** C30.  An [OEHBSupport] with data behaves, from reset on, as a registered queue of
    one token, with arbitrary neighbours whose signals at a clock edge are those the cycle
    settled on.  Those of channels between operations are; [simulate] changes the valid of
    arguments between a cycle and the edge, for which see [argument_lost_in_oehb]. *)
Theorem oehb_implements_registered_queue e0 s es : steady sameToken e0 es →
  runFrom oehb (oehb_reset e0 s) es
    = Ok (machine_trace registeredFifo [] (e0 :: map final es)).
Proof. intros Ht. destruct (oehb_reset_settled e0 s) as (s0 & Hr & Hs). eapply runFrom_refines; eauto with typeclass_instances. Qed.

(** Without data, both buffers implement the same queues of control
    tokens. *)
Theorem dataless_buffers_implement_queues e0 s t es :
  steady keepsToken e0 es → steady sameToken e0 es →
  runFrom tehb_dl (tehb_dl_reset e0 s) es
    = Ok (machine_trace bypassFifo [] (e0 :: map final es))
  ∧ runFrom oehb_dl (oehb_dl_reset e0 t) es
    = Ok (machine_trace registeredFifo [] (e0 :: map final es)).
Proof.
  intros Hk Hk'. destruct (tehb_dl_reset_settled e0 s) as (s0 & Hr & Hs).
  destruct (oehb_dl_reset_settled e0 t) as (t0 & Ht & Hts).
  split; eapply runFrom_refines; eauto with typeclass_instances.
Qed.

(** Neither buffer loses, duplicates, corrupts or reorders a token: over
    any run from reset, the tokens accepted are, in order, the tokens delivered
    followed by at most one token still in the slot. *)
Theorem buffers_lossless e0 s t es :
  steady keepsToken e0 es → steady sameToken e0 es →
  ∃ os os' rest rest',
    runFrom tehb (tehb_reset e0 s) es = Ok os
    ∧ runFrom oehb (oehb_reset e0 t) es = Ok os'
    ∧ (length rest ≤ 1)%nat ∧ (length rest' ≤ 1)%nat
    ∧ accepted (e0 :: map final es) os = delivered (e0 :: map final es) os ++ rest
    ∧ accepted (e0 :: map final es) os' = delivered (e0 :: map final es) os' ++ rest'.
Proof.
  intros Hk Hk'. destruct (tehb_reset_settled e0 s) as (s0 & Hr & Hs).
  destruct (oehb_reset_settled e0 t) as (t0 & Ht & Hts).
  exists (machine_trace bypassFifo [] (e0 :: map final es)),
    (machine_trace registeredFifo [] (e0 :: map final es)),
    (machine_run bypassFifo [] (e0 :: map final es)),
    (machine_run registeredFifo [] (e0 :: map final es)).
  split; [eapply runFrom_refines; eauto with typeclass_instances|].
  split; [eapply runFrom_refines; eauto with typeclass_instances|].
  repeat split.
  - apply (fifo_run_bound (cap := 1)). simpl; lia.
  - apply (fifo_run_bound (cap := 1)). simpl; lia.
  - apply (fifo_lossless (cap := 1) (m := bypassFifo) _ []). simpl; lia.
  - apply (fifo_lossless (cap := 1) (m := registeredFifo) _ []). simpl; lia.
Qed.

End Buffers.

Section Fork.
Context {IL : APIntLib} {FL : APFloatLib}.

(** What surrounds a fork: its producer's signals and each consumer's ready. *)
Record ForkEnv := mkForkEnv { fe_valid : bool; fe_data : Data; fe_readys : nat → bool }.

(** The fork's ready, and what each output offers. *)
Record ForkObs := mkForkObs { fo_ready : bool; fo_tokens : list (option Data) }.

Record ForkState := mkForkState { fs : ForkSupport; fs_ready : bool; fs_outs : list ProducerRW }.

(** The output views, with the consumers' current readies. *)
Definition withReady (r : nat → bool) (outs : list ProducerRW) : list ProducerRW :=
  imap (λ i o, mkProducerRW (p_valid o) (r i) (p_chan o)) outs.

Definition forkIns (e : ForkEnv) (s : ForkState) : ConsumerRW :=
  mkConsumerRW (fe_valid e) (fs_ready s) (Some (fe_data e)).

Definition forkResult (r : res (ForkSupport * ConsumerRW * list ProducerRW)) : res ForkState :=
  let* (f, ins, outs) := r in Ok (mkForkState f (c_ready ins) outs).

Definition forkTokens (outs : list ProducerRW) : list (option Data) :=
  map (λ o, if p_valid o then p_chan o else None) outs.

Definition fork : component ForkState ForkEnv ForkObs := mkComponent
  (λ clk e s, forkResult (ForkSupport_exec clk (fs s) (forkIns e s)
                (withReady (fe_readys e) (fs_outs s)) (Some (fe_data e))))
  (λ s, mkForkObs (fs_ready s) (forkTokens (fs_outs s))).

Definition fork_reset (e : ForkEnv) (s : ForkState) : res ForkState :=
  forkResult (ForkSupport_reset (fs s) (forkIns e s)
    (withReady (fe_readys e) (fs_outs s)) (Some (fe_data e))).

(** * Specification *)

(** The outputs that still owe the current token and whose consumer does not
    take it in this cycle. *)
Definition blocked (r : nat → bool) (pend : list bool) : list bool :=
  imap (λ i t, negb (r i) && t) pend.

(** The state of the specification is, per output, whether it still owes the
    token at the input. *)
Definition forkSpec : machine ForkEnv ForkObs (list bool) := mkMachine
  (λ pend e,
    if fe_valid e && or_n (blocked (fe_readys e) pend) then blocked (fe_readys e) pend
    else replicate (length pend) true)
  (λ pend e, mkForkObs (negb (or_n (blocked (fe_readys e) pend)))
    (map (λ t : bool, if t && fe_valid e then Some (fe_data e) else None) pend)).

(** * The loop, in closed form *)

Lemma execLoop_eq clk bp v outs : ∀ ts ks bs,
  length ts = length outs → length ks = length outs → length bs = length outs →
  ForkSupport_execLoop clk bp v ts ks bs outs =
    Ok (zip_with (λ o t, if clk : bool then (negb (p_ready o) && t) || negb bp else t) outs ts,
        zip_with (λ o t, negb (p_ready o) && t) outs ts,
        zip_with (λ o t, negb (p_ready o) && t) outs ts,
        zip_with (λ o t, p_set_valid o
          ((if clk then (negb (p_ready o) && t) || negb bp else t) && v)) outs ts).
Proof.
  induction outs as [|o outs IH]; intros [|t ts] [|k ks] [|b bs] H1 H2 H3; simpl in *; try done.
  rewrite IH by lia. done.
Qed.

Lemma length_withReady r outs : length (withReady r outs) = length outs.
Proof. apply length_imap. Qed.

Lemma lookup_both {A B} (l : list A) (k : list B) i : length l = length k →
  (∃ x y, l !! i = Some x ∧ k !! i = Some y) ∨ (l !! i = None ∧ k !! i = None).
Proof.
  intros Hl. destruct (l !! i) as [x|] eqn:Hx.
  - destruct (lookup_lt_is_Some_2 k i) as [y Hy]; [|by eauto 6].
    apply lookup_lt_Some in Hx. lia.
  - right. split; [done|]. apply lookup_ge_None. apply lookup_ge_None in Hx. lia.
Qed.

(** Compares two lists built from [withReady r outs] and [ts] element by element. *)
Ltac pointwise Hl :=
  apply list_eq; intros i; unfold withReady, blocked;
  repeat rewrite ?lookup_zip_with, ?list_lookup_imap, ?list_lookup_fmap;
  destruct (lookup_both _ _ i Hl) as [(o & t & -> & ->)|[-> ->]]; simpl; [|done].

Lemma zip_blocked r outs ts : length outs = length ts →
  zip_with (λ o t, negb (p_ready o) && t) (withReady r outs) ts = blocked r ts.
Proof. intros Hl. by pointwise Hl. Qed.

Lemma zip_edge r bp outs ts : length outs = length ts →
  zip_with (λ o t, negb (p_ready o) && t || negb bp) (withReady r outs) ts =
    if bp : bool then blocked r ts else replicate (length ts) true.
Proof.
  intros Hl. destruct bp; simpl.
  - pointwise Hl. by rewrite orb_false_r.
  - apply list_eq; intros i.
    destruct (lookup_both _ _ i Hl) as [(o & t & Ho & Ht)|[Ho Ht]].
    + rewrite lookup_zip_with, (lookup_replicate_2 _ true i) by (by apply lookup_lt_Some in Ht).
      unfold withReady. rewrite list_lookup_imap, Ho, Ht; simpl. by rewrite orb_true_r.
    + rewrite lookup_zip_with, (proj1 (lookup_replicate_None _ true i)).
      * unfold withReady. by rewrite list_lookup_imap, Ho.
      * by apply lookup_ge_None in Ht.
Qed.

Lemma assignAll_channels d outs :
  Forall (λ o, is_Some (p_chan o)) outs →
  assignAll (Some d) outs = Ok (map (λ o, p_set_chan o (Some d)) outs).
Proof.
  unfold assignAll. induction 1 as [|o outs [x Hx] _ IH]; simpl; [done|].
  unfold ProducerData_assign at 1. rewrite Hx; simpl. by rewrite IH.
Qed.

(** * Representation *)

Definition fork_rep (pend : list bool) (s : ForkState) : Prop :=
  transmitValue (fs s) = pend
  ∧ length (keepValue (fs s)) = length pend
  ∧ length (blockStopArray (fs s)) = length pend
  ∧ length (fs_outs s) = length pend
  ∧ Forall (λ o, is_Some (p_chan o)) (fs_outs s).

Definition fork_settled (pend : list bool) (e : ForkEnv) (s : ForkState) : Prop :=
  fork_rep pend s
  ∧ backpressure (fs s) = fe_valid e && or_n (blocked (fe_readys e) pend)
  ∧ outp fork s = observe forkSpec pend e.

Lemma withReady_channels r outs :
  Forall (λ o, is_Some (p_chan o)) outs → Forall (λ o, is_Some (p_chan o)) (withReady r outs).
Proof.
  rewrite !Forall_lookup. unfold withReady. intros H i o.
  rewrite list_lookup_imap. destruct (outs !! i) as [o'|] eqn:Ho; simpl; [|done].
  intros [= <-]. exact (H i o' Ho).
Qed.

Lemma zip_set_valid_channels {B} (f : ProducerRW → B → bool) outs ts :
  Forall (λ o, is_Some (p_chan o)) outs →
  Forall (λ o, is_Some (p_chan o)) (zip_with (λ o t, p_set_valid o (f o t)) outs ts).
Proof. intros H. revert ts. induction H; intros [|t ts]; simpl; constructor; auto. Qed.

Lemma set_chan_channels d outs :
  Forall (λ o, is_Some (p_chan o)) (map (λ o, p_set_chan o (Some d)) outs).
Proof. apply Forall_map, Forall_true. simpl; eauto. Qed.

Lemma edge_pending (clk bp : bool) r outs ts : length outs = length ts →
  zip_with (λ o t, if clk then negb (p_ready o) && t || negb bp else t) (withReady r outs) ts =
    if clk then if bp then blocked r ts else replicate (length ts) true else ts.
Proof.
  intros Hl. destruct clk; [by apply zip_edge|].
  apply list_eq; intros i. unfold withReady. rewrite lookup_zip_with, list_lookup_imap.
  by destruct (lookup_both _ _ i Hl) as [(o & t & -> & ->)|[-> ->]].
Qed.

Lemma length_next (clk bp : bool) r (ts : list bool) :
  length (if clk then if bp then blocked r ts else replicate (length ts) true else ts) = length ts.
Proof. unfold blocked. destruct clk, bp; by rewrite ?length_imap, ?length_replicate. Qed.

Lemma forkTokens_out d (f : ProducerRW → bool → bool) v outs ts :
  length outs = length ts →
  forkTokens (map (λ o, p_set_chan o (Some d))
    (zip_with (λ o t, p_set_valid o (f o t && v)) outs ts))
  = map (λ t : bool, if t && v then Some d else None) (zip_with f outs ts).
Proof.
  unfold forkTokens. revert ts.
  induction outs as [|o outs IH]; intros [|t ts] Hl; simpl in *; try done.
  by rewrite IH by lia.
Qed.

(** One execution of the fork, in terms of the pending flags. *)
Lemma fork_exec_eq (clk : bool) e s pend : fork_rep pend s →
  ∃ s', exec fork clk e s = Ok s'
  ∧ fork_rep (if clk then
                if backpressure (fs s) then blocked (fe_readys e) pend
                else replicate (length pend) true
              else pend) s'
  ∧ backpressure (fs s') = fe_valid e && or_n (blocked (fe_readys e) pend)
  ∧ (clk = false → outp fork s' = observe forkSpec pend e).
Proof.
  intros (<- & Hk & Hb & Ho & Hc). simpl.
  unfold ForkSupport_exec, ForkSupport_execDataless.
  rewrite execLoop_eq by (rewrite length_withReady; congruence). simpl.
  rewrite assignAll_channels by (apply zip_set_valid_channels, withReady_channels, Hc). simpl.
  eexists; split; [reflexivity|]. rewrite zip_blocked, edge_pending by done.
  split; [|split; [done|]].
  - unfold fork_rep; simpl. rewrite length_next, length_map, length_zip_with, length_withReady.
    repeat split; [by unfold blocked; rewrite length_imap..|lia|apply set_chan_channels].
  - intros ->. simpl. f_equal. rewrite forkTokens_out by (by rewrite length_withReady).
    by rewrite (edge_pending false true).
Qed.

(** The producer's signals at an edge do not matter; the consumers' readies are those of the
    cycle before. *)
Definition sameReadys (e e' : ForkEnv) : Prop := fe_readys e' = fe_readys e.

#[export] Instance fork_refines : Refines fork forkSpec fork_rep fork_settled sameReadys.
Proof.
  split.
  - by intros q e s [].
  - intros q e s H. destruct (fork_exec_eq false e s q H) as (s' & ? & ? & ? & ?).
    exists s'. unfold fork_settled. auto.
  - intros q e e' s (H & Hbp & _) He. destruct (fork_exec_eq true e' s q H) as (s' & ? & Hr & _).
    rewrite Hbp, He in Hr. eauto.
  - by intros q e s (_ & _ & ?).
Qed.

(** * From reset *)

(** A fork between channels in arbitrary states, one per output. *)
Definition fork_circuit (datawidth : Z) (channels : list (bool * Data)) : ForkState :=
  mkForkState (ForkSupport_new (length channels) datawidth) false
    (map (λ '(v, d), mkProducerRW v false (Some d)) channels).

Lemma fork_circuit_channels l : 
  Forall (λ o, is_Some (p_chan o)) (map (λ '(v, d), mkProducerRW v false (Some d)) l).
Proof. apply Forall_map, Forall_true. intros [v d]; simpl; eauto. Qed.

Lemma blocked_all r outs n : length outs = n →
  map (λ o, negb (p_ready o)) (withReady r outs) = blocked r (replicate n true).
Proof.
  intros Hl. rewrite <-(zip_blocked r outs) by (by rewrite length_replicate).
  rewrite zip_with_replicate_r_eq by (by rewrite length_withReady).
  apply map_ext. intros o; unfold flip. by rewrite andb_true_r.
Qed.

Lemma imap_below {A} (f : A → A) (l : list A) n : length l = n →
  imap (λ i x, if (i <? n)%nat then f x else x) l = map f l.
Proof.
  intros <-. apply list_eq; intros i. rewrite list_lookup_imap, list_lookup_fmap.
  destruct (l !! i) as [x|] eqn:Hx; simpl; [|done].
  apply lookup_lt_Some in Hx. by rewrite (proj2 (Nat.ltb_lt _ _) Hx).
Qed.

Lemma forkTokens_reset d v outs n : length outs = n →
  forkTokens (map (λ o, p_set_chan o (Some d)) (map (λ o, p_set_valid o v) outs)) =
  map (λ t : bool, if t && v then Some d else None) (replicate n true).
Proof.
  intros <-. unfold forkTokens. induction outs as [|o outs IH]; simpl; [done|]. by rewrite IH.
Qed.

Lemma fork_reset_settled w channels e0 :
  ∃ s0, fork_reset e0 (fork_circuit w channels) = Ok s0
  ∧ fork_settled (replicate (length channels) true) e0 s0.
Proof.
  unfold fork_reset, ForkSupport_reset, ForkSupport_resetDataless, fork_circuit.
  pose proof (fork_circuit_channels channels) as Hc.
  set (l := map _ channels) in *. assert (length l = length channels) as Hl by apply length_map.
  simpl. rewrite length_withReady, Hl, Nat.ltb_irrefl. simpl.
  rewrite imap_below, take_ge, (blocked_all _ _ (length channels)) by (rewrite ?length_withReady; lia).
  rewrite assignAll_channels
    by (apply Forall_map; exact (withReady_channels _ _ Hc)). simpl.
  eexists; split; [reflexivity|]. repeat split; simpl.
  - unfold blocked. by rewrite length_imap.
  - unfold blocked. by rewrite length_imap.
  - by rewrite !length_map, length_withReady, length_replicate, Hl.
  - apply set_chan_channels.
  - f_equal. apply forkTokens_reset. by rewrite length_withReady.
Qed.

(** * Exactly once *)

(** The tokens output [i] delivers, and those the fork accepts, over a run. *)
Definition deliveredAt (i : nat) (es : list ForkEnv) (os : list ForkObs) : list Data :=
  concat (zip_with (λ e o,
    if fe_readys e i then match fo_tokens o !! i with Some (Some d) => [d] | _ => [] end
    else []) es os).
Definition forkAccepted (es : list ForkEnv) (os : list ForkObs) : list Data :=
  concat (zip_with (λ e o, if fe_valid e && fo_ready o then [fe_data e] else []) es os).

(** The producer keeps its token until the fork accepts it. *)
Fixpoint persistent (es : list ForkEnv) (os : list ForkObs) : Prop :=
  match es, os with
  | e :: es', o :: os' =>
      match es' with
      | e' :: _ => fe_valid e = true → fo_ready o = false →
                   fe_valid e' = true ∧ fe_data e' = fe_data e
      | [] => True
      end ∧ persistent es' os'
  | _, _ => True
  end.

Lemma blocked_lookup r pend i p : pend !! i = Some p → blocked r pend !! i = Some (negb (r i) && p).
Proof. intros H. unfold blocked. by rewrite list_lookup_imap, H. Qed.

Lemma not_blocked r pend i p : or_n (blocked r pend) = false → pend !! i = Some p →
  negb (r i) && p = false.
Proof.
  intros Hb Hp. apply or_n_false in Hb. rewrite Forall_lookup in Hb.
  eapply Hb, blocked_lookup, Hp.
Qed.

Lemma last_cons {A} (x y : A) l : List.last (y :: l) x = List.last l y.
Proof.
  revert x y. induction l as [|z l IH]; intros x y; [done|].
  change (List.last (y :: z :: l) x) with (List.last (z :: l) x).
  by rewrite (IH x z), (IH y z).
Qed.

Lemma deliveredAt_cons i e es pend p : pend !! i = Some p →
  deliveredAt i (e :: es) (machine_trace forkSpec pend (e :: es)) =
  (if fe_readys e i && (p && fe_valid e) then [fe_data e] else [])
    ++ deliveredAt i es (machine_trace forkSpec (next forkSpec pend e) es).
Proof.
  intros Hp. unfold deliveredAt. cbn -[next]. rewrite list_lookup_fmap, Hp. simpl.
  by destruct (fe_readys e i), (p && fe_valid e).
Qed.

Lemma forkAccepted_cons e es pend :
  forkAccepted (e :: es) (machine_trace forkSpec pend (e :: es)) =
  (if fe_valid e && negb (or_n (blocked (fe_readys e) pend)) then [fe_data e] else [])
    ++ forkAccepted es (machine_trace forkSpec (next forkSpec pend e) es).
Proof. done. Qed.

(** With [p] telling whether output [i] still owes the first token. *)
Lemma forkSpec_exactly_once i es : ∀ e pend p,
  pend !! i = Some p → (p = false → fe_valid e = true) →
  persistent (e :: es) (machine_trace forkSpec pend (e :: es)) →
  ∃ rest, (rest = [] ∨ rest = [fe_data (List.last es e)])
  ∧ (if p then [] else [fe_data e]) ++ deliveredAt i (e :: es) (machine_trace forkSpec pend (e :: es))
    = forkAccepted (e :: es) (machine_trace forkSpec pend (e :: es)) ++ rest.
Proof.
  induction es as [|e' es IH]; intros e pend p Hp Hv Hpers;
    rewrite (deliveredAt_cons _ _ _ _ p), forkAccepted_cons by done.
  - exists (if fe_valid e && negb (or_n (blocked (fe_readys e) pend)) then []
            else if p && negb (fe_readys e i && fe_valid e) then [] else [fe_data e]).
    destruct (or_n _) eqn:Hb; [|pose proof (not_blocked _ _ _ _ Hb Hp)];
      destruct p, (fe_valid e), (fe_readys e i); simpl in *; auto; naive_solver.
  - rewrite last_cons. destruct Hpers as [Hkeep Hpers]. simpl observe in Hkeep. simpl next in *.
    destruct (fe_valid e && or_n (blocked (fe_readys e) pend)) eqn:Hbp.
    + apply andb_true_iff in Hbp as [Hve Hb]. simpl in Hkeep. rewrite Hve, Hb in *.
      destruct Hkeep as [Hv' Hd']; [done..|].
      edestruct (IH e' _ _ (blocked_lookup (fe_readys e) _ _ _ Hp)) as (rest & Hr & Heq); [done..|].
      exists rest. split; [done|]. cbn [negb andb app]. rewrite <-Heq, Hd'. by destruct p, (fe_readys e i).
    + edestruct (IH e' (replicate (length pend) true) true) as (rest & Hr & Heq);
        [by apply lookup_replicate_2, (lookup_lt_Some _ _ _ Hp)|done|done|].
      exists rest. split; [done|].
      assert (p = true → fe_valid e = true → fe_readys e i = true) as Hr'.
      { intros -> Hve. rewrite Hve in Hbp. simpl in Hbp.
        pose proof (not_blocked _ _ _ _ Hbp Hp) as Hn. by destruct (fe_readys e i). }
      rewrite <-!app_assoc, <-Heq. destruct p; cbn [negb andb app].
      * destruct (fe_valid e); simpl in *; [rewrite Hr', Hbp by done; done|].
        by rewrite andb_false_r.
      * rewrite Hv in * by done. simpl in Hbp. rewrite Hbp, andb_false_r. done.
Qed.

(** From reset on, an eager fork with [n] outputs behaves as [n] flags, one
    per output, telling whether it still owes the current token: an output
    offers the token while its flag is up, the fork is ready when every flag
    is down or being lowered, and the flags are raised again for the next token. *)
Theorem fork_implements_flags w channels e0 es : steady sameReadys e0 es →
  runFrom fork (fork_reset e0 (fork_circuit w channels)) es
    = Ok (machine_trace forkSpec (replicate (length channels) true) (e0 :: map final es)).
Proof.
  intros Ht. destruct (fork_reset_settled w channels e0) as (s0 & Hr & Hs).
  eapply runFrom_refines; eauto with typeclass_instances.
Qed.

(** C13.  An eager fork delivers every token it accepts exactly once to each of
    its outputs, in order, provided its producer keeps a token until it is
    accepted: each output has delivered the accepted tokens, and at most the
    one not yet accepted.  Whatever the producer's signals are at a clock edge, which
    [simulate] changes for arguments; the consumers' readies are settled. *)
Theorem fork_exactly_once w channels e0 es os i : steady sameReadys e0 es →
  runFrom fork (fork_reset e0 (fork_circuit w channels)) es = Ok os →
  persistent (e0 :: map final es) os →
  (i < length channels)%nat →
  ∃ rest, (rest = [] ∨ rest = [fe_data (List.last (map final es) e0)])
  ∧ deliveredAt i (e0 :: map final es) os = forkAccepted (e0 :: map final es) os ++ rest.
Proof.
  intros Ht. destruct (fork_reset_settled w channels e0) as (s0 & Hr & Hs).
  erewrite runFrom_refines by eauto with typeclass_instances. intros [= <-] Hp Hi.
  apply (forkSpec_exactly_once i _ e0 _ true); [by apply lookup_replicate_2|done|done].
Qed.

End Fork.

#[local] Existing Instance Bits.lib.
#[local] Existing Instance Bits.flib.

(** Two outputs, the second of which takes the first token a cycle late. *)
Definition example_token (n : Z) : Data := Data_of_int (apint_make 8 n false).
Definition example_env0 : ForkEnv := mkForkEnv true (example_token 5) (λ i, (i =? 0)%nat).
Definition example_env1 : ForkEnv := mkForkEnv true (example_token 5) (λ i, (i =? 1)%nat).
(** The producer's valid is cleared at the second edge, as that of an accepted argument. *)
Definition example_envs : list (Cycle ForkEnv) :=
  [mkCycle example_env0 [] example_env1;
   mkCycle (mkForkEnv false (example_token 5) (λ i, (i =? 1)%nat)) [] (mkForkEnv true (example_token 6) (λ _, true))].
Definition example_circuit : ForkState :=
  fork_circuit 8 [(false, example_token 0); (false, example_token 0)].
Definition example_obs : list ForkObs :=
  [mkForkObs false [Some (example_token 5); Some (example_token 5)];
   mkForkObs true [None; Some (example_token 5)];
   mkForkObs true [Some (example_token 6); Some (example_token 6)]].

Lemma fork_exactly_once_witness :
  ∃ rest, (rest = [] ∨ rest = [example_token 6])
  ∧ deliveredAt 1 (example_env0 :: map final example_envs) example_obs
    = forkAccepted (example_env0 :: map final example_envs) example_obs ++ rest.
Proof.
  apply (fork_exactly_once 8 [(false, example_token 0); (false, example_token 0)]
           example_env0 example_envs example_obs 1).
  - repeat split.
  - reflexivity.
  - cbn. repeat split; intros; done.
  - simpl. lia.
Defined.

(** A producer that offers 5 and then 6, and a consumer that is ready in the last cycle.
    The producer offers 5 at the edge after the cycle in which the slot takes it. *)
Definition port (v : bool) (n : Z) (r : bool) : PortEnv Data := mkPortEnv v (example_token n) r.
Definition port_cycles : list (Cycle (PortEnv Data)) :=
  [mkCycle (port true 5 false) [] (port true 6 false); mkCycle (port true 6 false) [] (port true 6 true);
   mkCycle (port true 6 true) [port false 0 true] (port true 7 true)].
Definition tehb_start : BufState TEHBSupport Data := mkBufState _ _ (TEHBSupport_new 8) false false (example_token 0).
Definition oehb_start : BufState OEHBSupport Data := mkBufState _ _ (OEHBSupport_new 8) false false (example_token 0).

Lemma tehb_implements_bypass_queue_witness :
  runFrom tehb (tehb_reset (port true 5 false) tehb_start) port_cycles
    = Ok (machine_trace bypassFifo [] (port true 5 false :: map final port_cycles)).
Proof. apply (tehb_implements_bypass_queue (port true 5 false) tehb_start port_cycles). repeat split. Defined.

Lemma oehb_implements_registered_queue_witness :
  runFrom oehb (oehb_reset (port true 5 false) oehb_start) port_cycles
    = Ok (machine_trace registeredFifo [] (port true 5 false :: map final port_cycles)).
Proof. apply (oehb_implements_registered_queue (port true 5 false) oehb_start port_cycles). repeat split. Defined.

(** When the producer withdraws 5 between the cycle and the edge, as [simulate] does with
    an argument, the slot counts as full but holds what it held before. *)
Example tehb_loses_withdrawn_token :
  runFrom tehb (tehb_reset (port true 5 false) tehb_start)
    [mkCycle (port false 5 false) [] (port false 5 false)]
  = Ok [mkPortObs true (Some (example_token 5)); mkPortObs false (Some (example_token 0))].
Proof. reflexivity. Qed.
