(* ===== verification/SimHandshake.v ===== *)
(** The execution models of the handshake operations (BranchModel to EndModel
    of HandshakeSimulator.cpp).  A model's [reset] and [exec] take the views of
    its ports and return them with the writes made; a model with state is a
    record of its data members.  A [size] member is the number of the ports it
    counts by construction, so the loops over [0 .. size) run over the ports. *)

From S2P Require Import Prelude LLVMInterface SimSignals SimSupport.

Section Models.
Context {IL : APIntLib} {FL : APFloatLib}.

(** [getBoolValue] of a condition's data. *)
Definition conditionValue (condition : ConsumerRW) : res bool :=
  let* d := channelConsumerData condition in
  let* k := dataCastInt d in
  Ok (getBoolValue k).

(** * Branches *)

Definition BranchModel_reset (ins : ConsumerRW) (outs : ProducerRW)
    : res (ConsumerRW * ProducerRW) :=
  let outs := p_set_valid outs (c_valid ins) in
  let ins' := c_set_ready ins (p_ready outs) in
  let* outs' := ProducerData_assign outs (ConsumerData ins) in
  Ok (ins', outs').

Definition BranchModel_exec (isClkRisingEdge : bool) := BranchModel_reset.

Record CondBranchPorts := mkCondBranchPorts {
  cb_data : ConsumerRW; cb_condition : ConsumerRW;
  cb_trueOut : ProducerRW; cb_falseOut : ProducerRW }.

(** The state is the member [brInpValid].  The program gives the join a
    reference to the temporary [(falseOut->ready && !cond) || (trueOut->ready
    && cond)], which has ended when the join reads it; the model gives the join
    the temporary's value. *)
Definition CondBranchModel_reset (brInpValid : bool) (p : CondBranchPorts)
    : res (bool * CondBranchPorts) :=
  let* cond := conditionValue (cb_condition p) in
  let outsJoin := mkProducerRW brInpValid
    ((p_ready (cb_falseOut p) && negb cond) || (p_ready (cb_trueOut p) && cond)) None in
  let* (insJoin, outsJoin') := JoinSupport_exec 2 [cb_data p; cb_condition p] outsJoin in
  let* data' := at_ insJoin 0 in
  let* condition' := at_ insJoin 1 in
  let brInpValid' := p_valid outsJoin' in
  let* trueOut' := ProducerData_assign (p_set_valid (cb_trueOut p) (cond && brInpValid'))
                     (ConsumerData (cb_data p)) in
  let* falseOut' := ProducerData_assign (p_set_valid (cb_falseOut p) (negb cond && brInpValid'))
                      (ConsumerData (cb_data p)) in
  Ok (brInpValid', mkCondBranchPorts data' condition' trueOut' falseOut').

Definition CondBranchModel_exec (isClkRisingEdge : bool) := CondBranchModel_reset.

(** * Constant, sink, source, end *)

Definition ConstantModel_reset (value : Data) (ctrl : ConsumerRW) (outs : ProducerRW)
    : res (ConsumerRW * ProducerRW) :=
  let* _ := channelProducerData outs in
  let outs' := p_set_valid (p_set_chan outs (Some value)) (c_valid ctrl) in
  Ok (c_set_ready ctrl (p_ready outs'), outs').

Definition ConstantModel_exec (isClkRisingEdge : bool) := ConstantModel_reset.

Definition SinkModel_reset (ins : ConsumerRW) : ConsumerRW := c_set_ready ins true.
Definition SinkModel_exec (isClkRisingEdge : bool) := SinkModel_reset.

Definition SourceModel_reset (outs : ProducerRW) : ProducerRW := p_set_valid outs true.
Definition SourceModel_exec (isClkRisingEdge : bool) := SourceModel_reset.

(** The simulator's result members [resValid], [resReady] and [resData]. *)
Record Result := mkResult { resValid : bool; resReady : bool; resData : Data }.

Definition EndModel_reset (ins : ConsumerRW) (r : Result) : res (ConsumerRW * Result) :=
  let valid := c_valid ins in
  let ins' := c_set_ready ins (c_valid ins && resReady r) in
  let* d := channelConsumerData ins in
  Ok (ins', mkResult valid (resReady r) d).

Definition EndModel_exec (isClkRisingEdge : bool) := EndModel_reset.

(** * Forks and join *)

Definition ForkModel_reset (forkSupport : ForkSupport) (ins : ConsumerRW) (outs : list ProducerRW) :=
  ForkSupport_reset forkSupport ins outs (ConsumerData ins).

Definition ForkModel_exec (isClkRisingEdge : bool) (forkSupport : ForkSupport)
    (ins : ConsumerRW) (outs : list ProducerRW) :=
  ForkSupport_exec isClkRisingEdge forkSupport ins outs (ConsumerData ins).

Definition JoinModel_reset (size : nat) (ins : list ConsumerRW) (outs : ProducerRW) :=
  JoinSupport_exec size ins outs.

Definition JoinModel_exec (isClkRisingEdge : bool) := JoinModel_reset.

Definition LazyForkModel_reset (size : nat) (ins : ConsumerRW) (outs : list ProducerRW)
    : res (ConsumerRW * list ProducerRW) :=
  if (length outs <? size)%nat then Bad OutOfRange
  else
    let driven := take size outs in
    let outs' := imap (λ i o,
      if (i <? size)%nat
      then p_set_valid o (c_valid ins && forallb_except p_ready i 0 driven)
      else o) outs in
    let* outs'' := assignAll (ConsumerData ins) (take size outs') in
    Ok (c_set_ready ins (forallb p_ready driven), outs'' ++ drop size outs').

Definition LazyForkModel_exec (isClkRisingEdge : bool) := LazyForkModel_reset.

(** * Merges *)

(** The index of the first valid input, 0 if there is none. *)
Fixpoint firstValid (i : nat) (ins : list ConsumerRW) : option nat :=
  match ins with
  | [] => None
  | c :: ins => if c_valid c then Some i else firstValid (S i) ins
  end.

Definition setAllReady (ins : list ConsumerRW) (b : bool) : list ConsumerRW :=
  map (λ c, c_set_ready c b) ins.

Record ControlMergeModel := mkControlMergeModel {
  cm_size : nat;
  cm_indexWidth : Z;
  cMergeTEHB : TEHBSupport;
  cMergeFork : ForkSupport;
  indexTEHB : Data;
  dataAvailable : bool;
  readyToFork : bool;
  tehbOutValid : bool;
  tehbOutReady : bool }.

Definition ControlMergeModel_new (size : nat) (indexWidth : Z) (outs : ProducerRW) : ControlMergeModel :=
  mkControlMergeModel size indexWidth (TEHBSupport_new indexWidth)
    (ForkSupport_new 2 (ProducerData_dataWidth outs))
    (Data_of_int (apint_make indexWidth 0 false)) false false false false.

Record ControlMergePorts := mkControlMergePorts {
  cm_ins : list ConsumerRW; cm_outs : ProducerRW; cm_index : ProducerRW }.

(** Both [reset] and [exec]; [clk = None] is [reset], which calls the reset of
    the buffer and of the fork instead of their execution. *)
Definition ControlMergeModel_step (clk : option bool) (m : ControlMergeModel)
    (p : ControlMergePorts) : res (ControlMergeModel * ControlMergePorts) :=
  let driven := take (cm_size m) (cm_ins p) in
  let indexTEHB' := Data_of_int
    (apint_make (cm_indexWidth m) (Z.of_nat (default 0%nat (firstValid 0 driven))) false) in
  let dataAvailable' := existsb c_valid (cm_ins p) in
  (* tehb *)
  let* indexData := channelProducerData (cm_index p) in
  let insTEHB := mkConsumerRW dataAvailable' (tehbOutReady m) None in
  let outsTEHB := mkProducerRW (tehbOutValid m) (readyToFork m) None in
  let* (tehb', insTEHB', outsTEHB', indexData') :=
    match clk with
    | None => TEHBSupport_reset (cMergeTEHB m) insTEHB outsTEHB (Some indexTEHB') (Some indexData)
    | Some c => TEHBSupport_exec c (cMergeTEHB m) insTEHB outsTEHB (Some indexTEHB') (Some indexData)
    end in
  let tehbOutReady' := c_ready insTEHB' in
  let tehbOutValid' := p_valid outsTEHB' in
  let index := p_set_chan (cm_index p) indexData' in
  let ins' := setAllReady (cm_ins p) tehbOutReady' in
  (* fork dataless *)
  let insFork := mkConsumerRW tehbOutValid' (readyToFork m) None in
  let* (fork', insFork', outsFork') :=
    match clk with
    | None => ForkSupport_resetDataless (cMergeFork m) insFork [cm_outs p; index]
    | Some c => ForkSupport_execDataless c (cMergeFork m) insFork [cm_outs p; index]
    end in
  let* outs' := at_ outsFork' 0 in
  let* index' := at_ outsFork' 1 in
  let* d := channelProducerData index' in
  let* i := dataCastInt d in
  let* selected := at_ (map ConsumerData (cm_ins p)) (Z.to_nat (getZExtValue i)) in
  let* outs'' := ProducerData_assign outs' selected in
  Ok (mkControlMergeModel (cm_size m) (cm_indexWidth m) tehb' fork' indexTEHB' dataAvailable'
        (c_ready insFork') tehbOutValid' tehbOutReady',
      mkControlMergePorts ins' outs'' index').

Definition ControlMergeModel_reset := ControlMergeModel_step None.
Definition ControlMergeModel_exec (isClkRisingEdge : bool) :=
  ControlMergeModel_step (Some isClkRisingEdge).

Record MergeModel := mkMergeModel {
  mg_size : nat;
  mg_tehbValid : bool;
  mg_tehbReady : bool;
  mg_tehbDataIn : Data;
  mergeTEHB : TEHBSupport }.

Definition MergeModel_new (size : nat) (outs : ProducerRW) : MergeModel :=
  mkMergeModel size false false Data_default (TEHBSupport_new (ProducerData_dataWidth outs)).

Definition MergeModel_execDataless (m : MergeModel) (ins : list ConsumerRW)
    : MergeModel * list ConsumerRW :=
  (mkMergeModel (mg_size m) (existsb c_valid ins) (mg_tehbReady m) (mg_tehbDataIn m) (mergeTEHB m),
   setAllReady ins (mg_tehbReady m)).

Definition MergeModel_execDataFull (m : MergeModel) (ins : list ConsumerRW)
    : res (MergeModel * list ConsumerRW) :=
  let* d0 := at_ (map ConsumerData ins) 0 in
  let* d0 := of_option NullDeref d0 in
  let* (valid, d) :=
    match firstValid 0 ins with
    | Some i => let* di := at_ (map ConsumerData ins) i in
                let* di := of_option NullDeref di in Ok (true, di)
    | None => Ok (false, d0)
    end in
  Ok (mkMergeModel (mg_size m) valid (mg_tehbReady m) d (mergeTEHB m),
      setAllReady ins (mg_tehbReady m)).

(** The buffer at the output, fed through [insTEHB(tehbValid, tehbReady)]. *)
Definition MergeModel_buffer (clk : option bool) (m : MergeModel) (outs : ProducerRW)
    (insData : option Data) : res (MergeModel * ProducerRW) :=
  let insTEHB := mkConsumerRW (mg_tehbValid m) (mg_tehbReady m) None in
  let* (tehb', insTEHB', outs', outsData') :=
    match clk with
    | None => TEHBSupport_reset (mergeTEHB m) insTEHB outs insData (p_chan outs)
    | Some c => TEHBSupport_exec c (mergeTEHB m) insTEHB outs insData (p_chan outs)
    end in
  Ok (mkMergeModel (mg_size m) (mg_tehbValid m) (c_ready insTEHB') (mg_tehbDataIn m) tehb',
      p_set_chan outs' outsData').

Definition MergeModel_step (clk : option bool) (m : MergeModel) (ins : list ConsumerRW)
    (outs : ProducerRW) : res (MergeModel * list ConsumerRW * ProducerRW) :=
  if ProducerData_hasValue outs then
    let* (m1, ins') := MergeModel_execDataFull m ins in
    let* (m2, outs') := MergeModel_buffer clk m1 outs (Some (mg_tehbDataIn m1)) in
    Ok (m2, ins', outs')
  else
    let (m1, ins') := MergeModel_execDataless m ins in
    let* (m2, outs') := MergeModel_buffer clk m1 outs None in
    Ok (m2, ins', outs').

Definition MergeModel_reset := MergeModel_step None.
Definition MergeModel_exec (isClkRisingEdge : bool) := MergeModel_step (Some isClkRisingEdge).

(** * Mux *)

Record MuxModel := mkMuxModel {
  mux_size : nat;
  mux_selectWidth : Z;
  indexNum : Z;
  mux_tehbValid : bool;
  mux_tehbReady : bool;
  mux_tehbDataIn : Data;
  muxTEHB : TEHBSupport }.

Definition MuxModel_new (size : nat) (selectWidth : Z) (outs : ProducerRW) : MuxModel :=
  mkMuxModel size selectWidth 0 false false Data_default
    (TEHBSupport_new (ProducerData_dataWidth outs)).

(** The loop shared by [execDataless] and [execDataFull]: the inputs with their
    readies, and the input that is selected and valid, if any. *)
Fixpoint MuxModel_loop (i : nat) (indexNum : Z) (indexValid tehbReady : bool)
    (ins : list ConsumerRW) : list ConsumerRW * option nat :=
  match ins with
  | [] => ([], None)
  | c :: ins =>
      let indexEqual := Z.of_nat i =? indexNum in
      let selected := indexEqual && indexValid && c_valid c in
      let (ins', rest) := MuxModel_loop (S i) indexNum indexValid tehbReady ins in
      (c_set_ready c ((selected && tehbReady) || negb (c_valid c)) :: ins',
       match rest with Some j => Some j | None => if selected then Some i else None end)
  end.

Record MuxPorts := mkMuxPorts { mux_ins : list ConsumerRW; mux_index : ConsumerRW; mux_outs : ProducerRW }.

Definition MuxModel_execDataless (m : MuxModel) (p : MuxPorts) : MuxModel * MuxPorts :=
  let (ins', selected) :=
    MuxModel_loop 0 (indexNum m) (c_valid (mux_index p)) (mux_tehbReady m) (mux_ins p) in
  let selectedDataValid := bool_decide (is_Some selected) in
  let index' := c_set_ready (mux_index p)
    (negb (c_valid (mux_index p)) || (selectedDataValid && mux_tehbReady m)) in
  (mkMuxModel (mux_size m) (mux_selectWidth m) (indexNum m) selectedDataValid (mux_tehbReady m)
     (mux_tehbDataIn m) (muxTEHB m),
   mkMuxPorts ins' index' (mux_outs p)).

Definition MuxModel_execDataFull (m : MuxModel) (p : MuxPorts) : res (MuxModel * MuxPorts) :=
  let* d0 := at_ (map ConsumerData (mux_ins p)) 0 in
  let* d0 := of_option NullDeref d0 in
  let (ins', selected) :=
    MuxModel_loop 0 (indexNum m) (c_valid (mux_index p)) (mux_tehbReady m) (mux_ins p) in
  let* selectedData :=
    match selected with
    | Some i => let* di := at_ (map ConsumerData (mux_ins p)) i in of_option NullDeref di
    | None => Ok d0
    end in
  let selectedDataValid := bool_decide (is_Some selected) in
  let index' := c_set_ready (mux_index p)
    (negb (c_valid (mux_index p)) || (selectedDataValid && mux_tehbReady m)) in
  Ok (mkMuxModel (mux_size m) (mux_selectWidth m) (indexNum m) selectedDataValid (mux_tehbReady m)
        selectedData (muxTEHB m),
      mkMuxPorts ins' index' (mux_outs p)).

Definition MuxModel_buffer (clk : option bool) (m : MuxModel) (p : MuxPorts)
    (insData : option Data) : res (MuxModel * MuxPorts) :=
  let insTEHB := mkConsumerRW (mux_tehbValid m) (mux_tehbReady m) None in
  let* (tehb', insTEHB', outs', outsData') :=
    match clk with
    | None => TEHBSupport_reset (muxTEHB m) insTEHB (mux_outs p) insData (p_chan (mux_outs p))
    | Some c => TEHBSupport_exec c (muxTEHB m) insTEHB (mux_outs p) insData (p_chan (mux_outs p))
    end in
  Ok (mkMuxModel (mux_size m) (mux_selectWidth m) (indexNum m) (mux_tehbValid m)
        (c_ready insTEHB') (mux_tehbDataIn m) tehb',
      mkMuxPorts (mux_ins p) (mux_index p) (p_set_chan outs' outsData')).

Definition MuxModel_step (clk : option bool) (m : MuxModel) (p : MuxPorts) : res (MuxModel * MuxPorts) :=
  let* di := channelConsumerData (mux_index p) in
  let* i := dataCastInt di in
  let m := mkMuxModel (mux_size m) (mux_selectWidth m) (wrapU 32 (getZExtValue i)) (mux_tehbValid m)
    (mux_tehbReady m) (mux_tehbDataIn m) (muxTEHB m) in
  if ProducerData_hasValue (mux_outs p) then
    let* (m1, p1) := MuxModel_execDataFull m p in
    MuxModel_buffer clk m1 p1 (Some (mux_tehbDataIn m1))
  else
    let (m1, p1) := MuxModel_execDataless m p in
    MuxModel_buffer clk m1 p1 None.

Definition MuxModel_reset := MuxModel_step None.
Definition MuxModel_exec (isClkRisingEdge : bool) := MuxModel_step (Some isClkRisingEdge).

(** * Buffers *)

Definition OEHBModel_new (ins : ConsumerRW) : OEHBSupport := OEHBSupport_new (ConsumerData_dataWidth ins).

Definition OEHBModel_reset (oehbDl : OEHBSupport) (ins : ConsumerRW) (outs : ProducerRW)
    : res (OEHBSupport * ConsumerRW * ProducerRW) :=
  let* (s', ins', outs', d) := OEHBSupport_reset oehbDl ins outs (ConsumerData ins) (p_chan outs) in
  Ok (s', ins', p_set_chan outs' d).

Definition OEHBModel_exec (isClkRisingEdge : bool) (oehbDl : OEHBSupport) (ins : ConsumerRW)
    (outs : ProducerRW) : res (OEHBSupport * ConsumerRW * ProducerRW) :=
  let* (s', ins', outs', d) :=
    OEHBSupport_exec isClkRisingEdge oehbDl ins outs (ConsumerData ins) (p_chan outs) in
  Ok (s', ins', p_set_chan outs' d).

Definition TEHBModel_new (ins : ConsumerRW) : TEHBSupport := TEHBSupport_new (ConsumerData_dataWidth ins).

Definition TEHBModel_reset (returnTEHB : TEHBSupport) (ins : ConsumerRW) (outs : ProducerRW)
    : res (TEHBSupport * ConsumerRW * ProducerRW) :=
  let* (s', ins', outs', d) := TEHBSupport_reset returnTEHB ins outs (ConsumerData ins) (p_chan outs) in
  Ok (s', ins', p_set_chan outs' d).

Definition TEHBModel_exec (isClkRisingEdge : bool) (returnTEHB : TEHBSupport) (ins : ConsumerRW)
    (outs : ProducerRW) : res (TEHBSupport * ConsumerRW * ProducerRW) :=
  let* (s', ins', outs', d) :=
    TEHBSupport_exec isClkRisingEdge returnTEHB ins outs (ConsumerData ins) (p_chan outs) in
  Ok (s', ins', p_set_chan outs' d).

End Models.
