(* ===== verification/SimArith.v ===== *)
(** The execution models of the arithmetic operations (TruncIModel,
    SelectModel, GenericUnaryOpModel and GenericBinaryOpModel of
    HandshakeSimulator.cpp) and the functions [associateModel] gives them. *)

From S2P Require Import Prelude LLVMInterface SimSignals SimSupport.

Section Arith.
Context {IL : APIntLib} {FL : APFloatLib}.

(** * TruncI *)

Definition TruncIModel_reset (outputWidth : Z) (ins : ConsumerRW) (outs : ProducerRW)
    : res (ConsumerRW * ProducerRW) :=
  let* d := channelConsumerData ins in
  let* x := dataCastInt d in
  let* _ := channelProducerData outs in
  let outs' := p_set_valid (p_set_chan outs (Some (Data_of_int (apint_trunc outputWidth x))))
                 (c_valid ins) in
  Ok (c_set_ready ins (negb (c_valid ins) || (c_valid ins && p_ready outs')), outs').

Definition TruncIModel_exec (isClkRisingEdge : bool) := TruncIModel_reset.

(** * Select *)

Record SelectModel := mkSelectModel {
  ee : bool; validInternal : bool; sel_kill0 : bool; sel_kill1 : bool;
  antitokenStop : bool; g0 : bool; g1 : bool; anti : Antotokens }.

Definition SelectModel_new : SelectModel :=
  mkSelectModel false false false false false false false Antotokens_new.

Record SelectPorts := mkSelectPorts {
  sel_condition : ConsumerRW; sel_trueValue : ConsumerRW; sel_falseValue : ConsumerRW;
  sel_result : ProducerRW }.

Definition SelectModel_selectExec (m : SelectModel) (p : SelectPorts)
    : res (SelectModel * SelectPorts) :=
  let* dc := channelConsumerData (sel_condition p) in
  let* k := dataCastInt dc in
  let cond := getBoolValue k in
  let tv := c_valid (sel_trueValue p) in
  let fv := c_valid (sel_falseValue p) in
  let cv := c_valid (sel_condition p) in
  let rr := p_ready (sel_result p) in
  let ee' := cv && ((negb cond && fv) || (cond && tv)) in
  let validInternal' := ee' && negb (antitokenStop m) in
  let g0' := negb tv && validInternal' && rr in
  let g1' := negb fv && validInternal' && rr in
  let trueValue' := c_set_ready (sel_trueValue p)
    (negb tv || (validInternal' && rr) || sel_kill0 m) in
  let falseValue' := c_set_ready (sel_falseValue p)
    (negb fv || (validInternal' && rr) || sel_kill1 m) in
  let condition' := c_set_ready (sel_condition p) (negb cv || (validInternal' && rr)) in
  let* _ := channelProducerData (sel_result p) in
  let* d := channelConsumerData (if cond then sel_trueValue p else sel_falseValue p) in
  Ok (mkSelectModel ee' validInternal' (sel_kill0 m) (sel_kill1 m) (antitokenStop m) g0' g1' (anti m),
      mkSelectPorts condition' trueValue' falseValue'
        (p_set_chan (p_set_valid (sel_result p) validInternal') (Some d))).

(** [reset] ([clk = None]) and [exec]: the combinational part, then the
    antitokens. *)
Definition SelectModel_step (clk : option bool) (m : SelectModel) (p : SelectPorts)
    : res (SelectModel * SelectPorts) :=
  let* (m1, p1) := SelectModel_selectExec m p in
  let fv := c_valid (sel_falseValue p1) in
  let tv := c_valid (sel_trueValue p1) in
  let (anti', k) :=
    match clk with
    | None => Antotokens_reset (anti m1) fv tv (g1 m1) (g0 m1)
    | Some c => Antotokens_exec c (anti m1) fv tv (g1 m1) (g0 m1)
    end in
  Ok (mkSelectModel (ee m1) (validInternal m1) (kill0 k) (kill1 k) (stopValid k)
        (g0 m1) (g1 m1) anti', p1).

Definition SelectModel_reset := SelectModel_step None.
Definition SelectModel_exec (isClkRisingEdge : bool) := SelectModel_step (Some isClkRisingEdge).

(** * Unary operations *)

Definition UnaryCompFunc := Data → Z → res Data.

Definition GenericUnaryOpModel_reset (callback : UnaryCompFunc) (outputWidth : Z)
    (ins : ConsumerRW) (outs : ProducerRW) : res (ConsumerRW * ProducerRW) :=
  let* d := channelConsumerData ins in
  let* r := callback d outputWidth in
  let* _ := channelProducerData outs in
  let outs' := p_set_valid (p_set_chan outs (Some r)) (c_valid ins) in
  Ok (c_set_ready ins (p_ready outs'), outs').

Definition GenericUnaryOpModel_exec (isClkRisingEdge : bool) := GenericUnaryOpModel_reset.

(** * Binary operations *)

Definition BinaryCompFunc := Data → Data → res Data.

Record GenericBinaryOpModel := mkGenericBinaryOpModel {
  joinValid : bool; counter : Z; hasData : bool; tempData : Data }.

Definition GenericBinaryOpModel_new (bitwidth : Z) : GenericBinaryOpModel :=
  mkGenericBinaryOpModel false 0 false (Data_of_int (apint_make bitwidth 0 false)).

Record BinaryPorts := mkBinaryPorts { lhs : ConsumerRW; rhs : ConsumerRW; bin_result : ProducerRW }.

Definition GenericBinaryOpModel_reset (callback : BinaryCompFunc) (m : GenericBinaryOpModel)
    (p : BinaryPorts) : res (GenericBinaryOpModel * BinaryPorts) :=
  let* (insJoin, result) := JoinSupport_exec 2 [lhs p; rhs p] (bin_result p) in
  let* lhs' := at_ insJoin 0 in
  let* rhs' := at_ insJoin 1 in
  let* x := channelConsumerData (lhs p) in
  let* y := channelConsumerData (rhs p) in
  let* d := callback x y in
  let* _ := channelProducerData result in
  Ok (m, mkBinaryPorts lhs' rhs' (p_set_chan result (Some d))).

(** [unsigned] arithmetic on the latency: [latency - 1]. *)
Definition lastWait (latency : Z) : Z := wrapU 32 (latency - 1).

(** The state machine of a pipelined operation, on the rising edge. *)
Definition GenericBinaryOpModel_edge (callback : BinaryCompFunc) (latency : Z)
    (m : GenericBinaryOpModel) (lv rv : bool) (lhsData rhsData : res Data) (result : ProducerRW)
    : res (GenericBinaryOpModel * ProducerRW) :=
  if lv && rv && negb (hasData m) then
    (* collect *)
    let* x := lhsData in
    let* y := rhsData in
    let* d := callback x y in
    Ok (mkGenericBinaryOpModel (joinValid m) 1 true d, p_set_valid result false)
  else if hasData m && (counter m <? lastWait latency) then
    (* wait *)
    let counter' := wrapU 32 (counter m + 1) in
    let* result' :=
      if counter' =? lastWait latency
      then let* _ := channelProducerData result in Ok (p_set_chan result (Some (tempData m)))
      else Ok result in
    Ok (mkGenericBinaryOpModel (joinValid m) counter' (hasData m) (tempData m), result')
  else if hasData m && (lastWait latency <=? counter m) && negb (p_valid result) then
    Ok (m, p_set_valid result true)
  else if negb lv && negb rv && hasData m && p_valid result && p_ready result then
    Ok (mkGenericBinaryOpModel (joinValid m) 0 false (tempData m), p_set_valid result false)
  else Ok (m, result).

Definition GenericBinaryOpModel_exec (callback : BinaryCompFunc) (latency : Z)
    (isClkRisingEdge : bool) (m : GenericBinaryOpModel) (p : BinaryPorts)
    : res (GenericBinaryOpModel * BinaryPorts) :=
  if latency =? 0 then GenericBinaryOpModel_reset callback m p
  else
    let outsJoin := mkProducerRW (joinValid m) (p_ready (bin_result p)) None in
    let* (insJoin, outsJoin') := JoinSupport_exec 2 [lhs p; rhs p] outsJoin in
    let* lhs' := at_ insJoin 0 in
    let* rhs' := at_ insJoin 1 in
    let m1 := mkGenericBinaryOpModel (p_valid outsJoin') (counter m) (hasData m) (tempData m) in
    let* (m2, result') :=
      if isClkRisingEdge
      then GenericBinaryOpModel_edge callback latency m1 (c_valid (lhs p)) (c_valid (rhs p))
             (channelConsumerData (lhs p)) (channelConsumerData (rhs p)) (bin_result p)
      else Ok (m1, bin_result p) in
    Ok (m2, mkBinaryPorts lhs' rhs' result').

(** * The callbacks of associateModel *)

Definition intBinary (f : apint → apint → apint) : BinaryCompFunc := λ x y,
  let* a := dataCastInt x in let* b := dataCastInt y in Ok (Data_of_int (f a b)).

Definition floatBinary (f : apfloat → apfloat → apfloat) : BinaryCompFunc := λ x y,
  let* a := dataCastFloat x in let* b := dataCastFloat y in Ok (Data_of_float (f a b)).

(** [APInt comp(1, b)] *)
Definition comp (b : bool) : Data := Data_of_int (apint_make 1 (Z.b2z b) false).

Definition floatCompare (f : apfloat → apfloat → bool) : BinaryCompFunc := λ x y,
  let* a := dataCastFloat x in let* b := dataCastFloat y in Ok (comp (f a b)).

Inductive CmpFPredicate : Type :=
| cmpf_AlwaysFalse | cmpf_OEQ | cmpf_OGT | cmpf_OGE | cmpf_OLT | cmpf_OLE | cmpf_ONE | cmpf_ORD
| cmpf_UEQ | cmpf_UGT | cmpf_UGE | cmpf_ULT | cmpf_ULE | cmpf_UNE | cmpf_UNO | cmpf_AlwaysTrue.

Definition cmpFCallback (p : CmpFPredicate) : BinaryCompFunc :=
  match p with
  | cmpf_OEQ | cmpf_UEQ => floatCompare bitwiseIsEqual
  | cmpf_ONE | cmpf_UNE => floatCompare (λ a b, negb (bitwiseIsEqual a b))
  | cmpf_OLE | cmpf_ULE => floatCompare apfloat_le
  | cmpf_OLT | cmpf_ULT => floatCompare apfloat_lt
  | cmpf_OGE | cmpf_UGE => floatCompare apfloat_ge
  | cmpf_OGT | cmpf_UGT => floatCompare apfloat_gt
  | cmpf_ORD | cmpf_UNO | cmpf_AlwaysFalse => λ _ _, Ok (comp false)
  | cmpf_AlwaysTrue => λ _ _, Ok (comp true)
  end.

Inductive CmpIPredicate : Type :=
| cmpi_eq | cmpi_ne | cmpi_slt | cmpi_sle | cmpi_sgt | cmpi_sge
| cmpi_ult | cmpi_ule | cmpi_ugt | cmpi_uge.

(** [getRawData] returns the address of the words an [APInt] keeps its bits in.
    [dataCast<APInt>(lhs)] and [dataCast<APInt>(rhs)] return two copies, both
    alive while the addresses are compared: [rawDataOf k] is the address of the
    [k]-th copy, and two live objects have different addresses. *)
Definition rawDataOf (copy : nat) (a : apint) : nat := copy.

Definition intCompareZ (get : apint → Z) (f : Z → Z → bool) : BinaryCompFunc := λ x y,
  let* a := dataCastInt x in let* b := dataCastInt y in Ok (comp (f (get a) (get b))).

Definition cmpICallback (p : CmpIPredicate) : BinaryCompFunc :=
  match p with
  | cmpi_eq => λ x y,
      let* a := dataCastInt x in let* b := dataCastInt y in
      Ok (comp (rawDataOf 0 a =? rawDataOf 1 b)%nat)
  | cmpi_ne => λ x y,
      let* a := dataCastInt x in let* b := dataCastInt y in
      Ok (comp (negb (rawDataOf 0 a =? rawDataOf 1 b)%nat))
  | cmpi_uge => intCompareZ getZExtValue Z.geb
  | cmpi_sge => intCompareZ getSExtValue Z.geb
  | cmpi_ugt => intCompareZ getZExtValue Z.gtb
  | cmpi_sgt => intCompareZ getSExtValue Z.gtb
  | cmpi_ule => intCompareZ getZExtValue Z.leb
  | cmpi_sle => intCompareZ getSExtValue Z.leb
  | cmpi_ult => intCompareZ getZExtValue Z.ltb
  | cmpi_slt => intCompareZ getSExtValue Z.ltb
  end.

Definition notICallback : UnaryCompFunc := λ x _,
  let* a := dataCastInt x in Ok (Data_of_int (apint_not a)).

(** The [uint64_t] argument of the [APInt] constructor. *)
Definition asUInt64 (z : Z) : Z := wrapU 64 z.

Definition extSICallback : UnaryCompFunc := λ x outWidth,
  let* a := dataCastInt x in
  Ok (Data_of_int (apint_make outWidth (asUInt64 (getSExtValue a)) true)).

Definition extUICallback : UnaryCompFunc := λ x outWidth,
  let* a := dataCastInt x in
  Ok (Data_of_int (apint_make outWidth (asUInt64 (getZExtValue a)) true)).

Definition negFCallback : UnaryCompFunc := λ x _,
  let* a := dataCastFloat x in Ok (Data_of_float (apfloat_neg a)).

End Arith.
