(* ===== verification/Simulator.v ===== *)
(** The simulator: a circuit's values and models, the sweep that executes every
    model, and the loops of [reset] and [simulate] (class [Simulator] of
    HandshakeSimulator.cpp).

    [opModels] is a hash map keyed by pointers, so the order in which a sweep
    visits the models is not determined by the program: the state keeps the
    models in a list, in the order of one such iteration. *)

From stdpp Require Import gmap strings.
From S2P Require Import Prelude LLVMInterface SimSignals SimSupport SimHandshake SimArith.

Section Sim.
Context {IL : APIntLib} {FL : APFloatLib}.

(** * Circuits *)

Inductive OpKind : Type :=
| BranchOp | ConditionalBranchOp | ConstantOp (value : option apint) | ControlMergeOp
| ForkOp | JoinOp | LazyForkOp | MergeOp | MuxOp | NotIOp | BufferOp (isBypassDV : bool)
| SinkOp | SourceOp | AddFOp | AddIOp | AndIOp | CmpFOp (p : CmpFPredicate)
| CmpIOp (p : CmpIPredicate) | DivFOp | DivSIOp | DivUIOp | ExtSIOp | ExtUIOp
| MaximumFOp | MinimumFOp | MulFOp | MulIOp | NegFOp | OrIOp | SelectOp | ShLIOp
| ShRSIOp | ShRUIOp | SubFOp | SubIOp | TruncIOp | XOrIOp | EndOp | OtherOp.

(** An operation; operands and results are SSA values, named by numbers. *)
Record Operation := mkOperation {
  op_kind : OpKind; op_operands : list nat; op_results : list (nat * ValueType) }.

Record FuncOp := mkFuncOp { func_args : list (nat * ValueType); func_ops : list Operation }.

(** [getDataBitWidth]; a float format is identified by its size. *)
Definition dataBitWidth (t : ValueType) : Z :=
  match t with
  | ChannelType (IntegerType w _) => w
  | ChannelType (FloatType w) => w
  | _ => 0
  end.

(** * Models *)

Inductive Model : Type :=
| MBranch
| MCondBranch (brInpValid : bool)
| MConstant (value : Data)
| MControlMerge (m : ControlMergeModel)
| MFork (m : ForkSupport)
| MJoin (size : nat)
| MLazyFork (size : nat)
| MMerge (m : MergeModel)
| MMux (m : MuxModel)
| MOEHB (m : OEHBSupport)
| MTEHB (m : TEHBSupport)
| MSink
| MSource
| MEnd
| MTruncI (outputWidth : Z)
| MSelect (m : SelectModel)
| MUnary (callback : UnaryCompFunc) (outputWidth : Z)
| MBinary (callback : BinaryCompFunc) (latency : Z) (m : GenericBinaryOpModel).

Record Simulator := mkSimulator {
  opModels : list (Operation * Model);
  values : gmap nat Updater;
  simResult : Result;
  iterNum : Z;
  cyclesLimit : Z }.

(** * Registration *)

(** [associateState]: the old and the new state of a value; a value of another
    type is reported and gets none. *)
Definition associateState (t : ValueType) : option Updater :=
  match t with
  | ChannelType dt => Some (ChannelUpdater (ChannelState_new dt) (ChannelState_new dt))
  | ControlType => Some (ControlUpdater ControlState_new ControlState_new)
  | OtherValueType => None
  end.

Definition registerStates (vals : gmap nat Updater) (vs : list (nat * ValueType)) : gmap nat Updater :=
  foldl (λ vals '(v, t),
    match associateState t with
    | Some u => match vals !! v with None => <[v := u]> vals | Some _ => vals end
    | None => vals
    end) vals vs.

(** The storage of a value; an absent key yields a null pointer. *)
Definition valueOf (vals : gmap nat Updater) (v : nat) : res Updater :=
  of_option NullDeref (vals !! v).

Definition consumersOf (vals : gmap nat Updater) (vs : list nat) : res (list ConsumerRW) :=
  mapM (λ v, let* u := valueOf vals v in Ok (consumerView u)) vs.

Definition producersOf (vals : gmap nat Updater) (vs : list nat) : res (list ProducerRW) :=
  mapM (λ v, let* u := valueOf vals v in Ok (producerView u)) vs.

Definition resultWidth (op : Operation) (i : nat) : Z :=
  match op_results op !! i with Some (_, t) => dataBitWidth t | None => 0 end.

Definition binaryModel (op : Operation) (f : BinaryCompFunc) (latency : Z) : res Model :=
  Ok (MBinary f latency (GenericBinaryOpModel_new (resultWidth op 0))).

Definition unaryModel (op : Operation) (f : UnaryCompFunc) : res Model :=
  Ok (MUnary f (resultWidth op 0)).

(** [associateModel], the handshake operations. *)
Definition associateHandshakeModel (op : Operation) (ins : list ConsumerRW) (outs : list ProducerRW)
    : option (res Model) :=
  match op_kind op with
  | BranchOp => Some (Ok MBranch)
  | ConditionalBranchOp => Some (Ok (MCondBranch false))
  | ConstantOp value => Some (let* v := of_option NullDeref value in Ok (MConstant (Data_of_int v)))
  | ControlMergeOp =>
      Some (let* o := at_ outs 0 in
            Ok (MControlMerge (ControlMergeModel_new (length ins) (resultWidth op 1) o)))
  | ForkOp =>
      Some (let* i := at_ ins 0 in
            Ok (MFork (ForkSupport_new (length outs) (ConsumerData_dataWidth i))))
  | JoinOp => Some (Ok (MJoin (length ins)))
  | LazyForkOp => Some (Ok (MLazyFork (length outs)))
  | MergeOp => Some (let* o := at_ outs 0 in Ok (MMerge (MergeModel_new (length ins) o)))
  | MuxOp =>
      Some (let* i := at_ ins 0 in
            let* o := at_ outs 0 in
            Ok (MMux (MuxModel_new (length ins - 1) (ConsumerData_dataWidth i) o)))
  | NotIOp => Some (unaryModel op notICallback)
  | BufferOp isBypassDV =>
      Some (let* i := at_ ins 0 in
            Ok (if isBypassDV then MTEHB (TEHBModel_new i) else MOEHB (OEHBModel_new i)))
  | SinkOp => Some (Ok MSink)
  | SourceOp => Some (Ok MSource)
  | EndOp => Some (Ok MEnd)
  | _ => None
  end.

(** [associateModel], the arithmetic operations, with their latencies. *)
Definition associateArithModel (op : Operation) : res Model :=
  match op_kind op with
  | AddFOp => binaryModel op (floatBinary apfloat_add) 9
  | AddIOp => binaryModel op (intBinary apint_add) 0
  | AndIOp => binaryModel op (intBinary apint_and) 0
  | CmpFOp p => binaryModel op (cmpFCallback p) 4
  | CmpIOp p => binaryModel op (cmpICallback p) 0
  | DivFOp => binaryModel op (floatBinary apfloat_div) 29
  | DivSIOp => binaryModel op (intBinary apint_sdiv) 36
  | DivUIOp => binaryModel op (intBinary apint_udiv) 36
  | ExtSIOp => unaryModel op extSICallback
  | ExtUIOp => unaryModel op extUICallback
  | MaximumFOp => binaryModel op (floatBinary maxnum) 2
  | MinimumFOp => binaryModel op (floatBinary minnum) 2
  | MulFOp => binaryModel op (floatBinary apfloat_mul) 4
  | MulIOp => binaryModel op (intBinary apint_mul) 4
  | NegFOp => unaryModel op negFCallback
  | OrIOp => binaryModel op (intBinary apint_or) 0
  | SelectOp => Ok (MSelect SelectModel_new)
  | ShLIOp => binaryModel op (intBinary apint_shl) 0
  | ShRSIOp => binaryModel op (intBinary apint_ashr) 0
  | ShRUIOp => binaryModel op (intBinary apint_lshr) 0
  | SubFOp => binaryModel op (floatBinary apfloat_sub) 9
  | SubIOp => binaryModel op (intBinary apint_sub) 0
  | TruncIOp => Ok (MTruncI (resultWidth op 0))
  | XOrIOp => binaryModel op (intBinary apint_xor) 0
  | _ => Bad Unsupported
  end.

(** [associateModel]; the values of the circuit are registered before. *)
Definition associateModel (vals : gmap nat Updater) (op : Operation) : res (Operation * Model) :=
  let* ins := consumersOf vals (op_operands op) in
  let* outs := producersOf vals (map fst (op_results op)) in
  let* m := match associateHandshakeModel op ins outs with
            | Some r => r
            | None => associateArithModel op
            end in
  Ok (op, m).

(** * Executing a model *)

(** [reset] ([phase = None]) or [exec(isClkRisingEdge)] of a model, on the views
    of its operands and results. *)
Definition modelStep (phase : option bool) (m : Model) (ins : list ConsumerRW)
    (outs : list ProducerRW) (r : Result)
    : res (Model * list ConsumerRW * list ProducerRW * Result) :=
  match m, ins, outs with
  | MBranch, [i], [o] =>
      let* (i', o') := match phase with None => BranchModel_reset i o | Some c => BranchModel_exec c i o end in
      Ok (m, [i'], [o'], r)
  | MCondBranch b, [cond; data], [t; f] =>
      let p := mkCondBranchPorts data cond t f in
      let* (b', p') := match phase with None => CondBranchModel_reset b p | Some c => CondBranchModel_exec c b p end in
      Ok (MCondBranch b', [cb_condition p'; cb_data p'], [cb_trueOut p'; cb_falseOut p'], r)
  | MConstant v, [i], [o] =>
      let* (i', o') := match phase with None => ConstantModel_reset v i o | Some c => ConstantModel_exec c v i o end in
      Ok (m, [i'], [o'], r)
  | MControlMerge cm, _, [o; idx] =>
      let p := mkControlMergePorts ins o idx in
      let* (cm', p') := match phase with None => ControlMergeModel_reset cm p | Some c => ControlMergeModel_exec c cm p end in
      Ok (MControlMerge cm', cm_ins p', [cm_outs p'; cm_index p'], r)
  | MFork f, [i], _ =>
      let* (f', i', os') := match phase with None => ForkModel_reset f i outs | Some c => ForkModel_exec c f i outs end in
      Ok (MFork f', [i'], os', r)
  | MJoin n, _, [o] =>
      let* (is', o') := match phase with None => JoinModel_reset n ins o | Some c => JoinModel_exec c n ins o end in
      Ok (m, is', [o'], r)
  | MLazyFork n, [i], _ =>
      let* (i', os') := match phase with None => LazyForkModel_reset n i outs | Some c => LazyForkModel_exec c n i outs end in
      Ok (m, [i'], os', r)
  | MMerge mg, _, [o] =>
      let* (mg', is', o') := match phase with None => MergeModel_reset mg ins o | Some c => MergeModel_exec c mg ins o end in
      Ok (MMerge mg', is', [o'], r)
  | MMux mx, sel :: data, [o] =>
      let p := mkMuxPorts data sel o in
      let* (mx', p') := match phase with None => MuxModel_reset mx p | Some c => MuxModel_exec c mx p end in
      Ok (MMux mx', mux_index p' :: mux_ins p', [mux_outs p'], r)
  | MOEHB b, [i], [o] =>
      let* (b', i', o') := match phase with None => OEHBModel_reset b i o | Some c => OEHBModel_exec c b i o end in
      Ok (MOEHB b', [i'], [o'], r)
  | MTEHB b, [i], [o] =>
      let* (b', i', o') := match phase with None => TEHBModel_reset b i o | Some c => TEHBModel_exec c b i o end in
      Ok (MTEHB b', [i'], [o'], r)
  | MSink, [i], [] => Ok (m, [match phase with None => SinkModel_reset i | Some c => SinkModel_exec c i end], [], r)
  | MSource, [], [o] => Ok (m, [], [match phase with None => SourceModel_reset o | Some c => SourceModel_exec c o end], r)
  | MEnd, i :: rest, [] =>
      let* (i', r') := match phase with None => EndModel_reset i r | Some c => EndModel_exec c i r end in
      Ok (m, i' :: rest, [], r')
  | MTruncI w, [i], [o] =>
      let* (i', o') := match phase with None => TruncIModel_reset w i o | Some c => TruncIModel_exec c w i o end in
      Ok (m, [i'], [o'], r)
  | MSelect s, [cond; t; f], [o] =>
      let p := mkSelectPorts cond t f o in
      let* (s', p') := match phase with None => SelectModel_reset s p | Some c => SelectModel_exec c s p end in
      Ok (MSelect s', [sel_condition p'; sel_trueValue p'; sel_falseValue p'], [sel_result p'], r)
  | MUnary f w, [i], [o] =>
      let* (i', o') := match phase with None => GenericUnaryOpModel_reset f w i o | Some c => GenericUnaryOpModel_exec c f w i o end in
      Ok (m, [i'], [o'], r)
  | MBinary f l b, [x; y], [o] =>
      let p := mkBinaryPorts x y o in
      let* (b', p') := match phase with None => GenericBinaryOpModel_reset f b p | Some c => GenericBinaryOpModel_exec f l c b p end in
      Ok (MBinary f l b', [lhs p'; rhs p'], [bin_result p'], r)
  | _, _, _ => Bad AssertFailed
  end.

(** The order in which a model writes its operands' readies: the select of a
    mux and the condition of a branch or a select come last. *)
Definition writeOrder {A} (m : Model) (l : list A) : list A :=
  match m, l with
  | (MCondBranch _ | MMux _ | MSelect _), x :: l => l ++ [x]
  | _, _ => l
  end.

Definition putConsumers (vals : gmap nat Updater) (ws : list (nat * ConsumerRW)) : gmap nat Updater :=
  foldl (λ vals '(v, c), alter (writeConsumer c) v vals) vals ws.

Definition putProducers (vals : gmap nat Updater) (ws : list (nat * ProducerRW)) : gmap nat Updater :=
  foldl (λ vals '(v, p), alter (writeProducer p) v vals) vals ws.

(** The values and the result members, the state the models share. *)
Definition Shared : Type := gmap nat Updater * Result.

Definition execModel (phase : option bool) (om : Operation * Model) (st : Shared)
    : res ((Operation * Model) * Shared) :=
  let (op, m) := om in
  let (vals, r) := st in
  let results := map fst (op_results op) in
  let* ins := consumersOf vals (op_operands op) in
  let* outs := producersOf vals results in
  let* (m', ins', outs', r') := modelStep phase m ins outs r in
  Ok ((op, m'),
      (putProducers (putConsumers vals (writeOrder m (zip (op_operands op) ins'))) (zip results outs'),
       r')).

(** [for (auto &[op, model] : opModels) model->exec(...)] *)
Fixpoint sweep (phase : option bool) (ms : list (Operation * Model)) (st : Shared)
    : res (list (Operation * Model) * Shared) :=
  match ms with
  | [] => Ok ([], st)
  | om :: ms =>
      let* (om', st') := execModel phase om st in
      let* (ms', st'') := sweep phase ms st' in
      Ok (om' :: ms', st'')
  end.

Definition sweepSim (phase : option bool) (s : Simulator) : res Simulator :=
  let* (ms, (vals, r)) := sweep phase (opModels s) (values s, simResult s) in
  Ok (mkSimulator ms vals r (iterNum s) (cyclesLimit s)).

(** [isFin]: no updater sees a change. *)
Definition isFin (s : Simulator) : bool := forallb (λ '(_, u), Updater_check u) (map_to_list (values s)).

Definition mapValues (f : Updater → Updater) (s : Simulator) : Simulator :=
  mkSimulator (opModels s) (f <$> values s) (simResult s) (iterNum s) (cyclesLimit s).

Definition updateAll : Simulator → Simulator := mapValues Updater_update.

(** [updaters[arg]->f()] for every argument. *)
Definition onArgs (f : Updater → Updater) (args : list nat) (s : Simulator) : Simulator :=
  mkSimulator (opModels s) (foldl (λ vals v, alter f v vals) (values s) args) (simResult s)
    (iterNum s) (cyclesLimit s).

(** * Simulator::reset *)

Fixpoint resetLoop (fuel : nat) (s : Simulator) : res Simulator :=
  match fuel with
  | O => Bad NoFuel
  | S fuel =>
      let* s1 := sweepSim None s in
      if isFin s1 then Ok s1 else resetLoop fuel (updateAll s1)
  end.

Definition Simulator_reset (fuel : nat) (s : Simulator) : res Simulator :=
  let* s1 := resetLoop fuel s in Ok (updateAll s1).

(** The constructor. *)
Definition Simulator_new (fuel : nat) (f : FuncOp) (limit : Z) : res Simulator :=
  let vals := foldl registerStates (registerStates ∅ (func_args f)) (map op_results (func_ops f)) in
  let* ms := mapM (associateModel vals) (func_ops f) in
  Simulator_reset fuel (mkSimulator ms vals (mkResult false true Data_default) 0 limit).

(** * Simulator::simulate *)

(** The channel arguments and their types. *)
Definition channelArgs (f : FuncOp) : list (nat * DataType) :=
  omap (λ '(v, t), match t with ChannelType dt => Some (v, dt) | _ => None end) (func_args f).

(** Parses one input and writes it as the data of its argument. *)
Definition setInput (vals : gmap nat Updater) (arg : (nat * DataType) * string) : res (gmap nat Updater) :=
  let '((v, dt), str) := arg in
  let* u := valueOf vals v in
  let p := producerView u in
  let p' := match dt with
            | IntegerType w _ => p_set_chan p (Some (Data_of_int (apint_parse w str)))
            | FloatType sem => p_set_chan p (Some (Data_of_float (apfloat_parse sem str)))
            | OtherType => p
            end in
  Ok (<[v := Updater_update (writeProducer p' u)]> vals).

(** The inner loop: signals propagate until no value changes. *)
Fixpoint innerLoop (fuel : nat) (isClock : bool) (s : Simulator) : res Simulator :=
  match fuel with
  | O => Bad NoFuel
  | S fuel =>
      let* s1 := sweepSim (Some isClock) s in
      if isFin s1 then Ok s1 else innerLoop fuel false (updateAll s1)
  end.

(** [isa<handshake::EndOp>(op)] *)
Definition isEndOp (op : Operation) : bool :=
  match op_kind op with EndOp => true | _ => false end.

(** [endOp = *funcOp.getOps<handshake::EndOp>().begin()], and its operand 0. *)
Definition resultValue (f : FuncOp) : res nat :=
  match find isEndOp (func_ops f) with
  | Some op => at_ (op_operands op) 0
  | None => Bad NullDeref
  end.

(** The outer loop, one clock cycle per iteration; [NoCycles] is reaching the
    model's bound on their number. *)
Fixpoint outerLoop (cycles innerFuel : nat) (args : list nat) (res_ : nat) (eqStateCount : Z)
    (s : Simulator) : res Simulator :=
  match cycles with
  | O => Bad NoCycles
  | S cycles =>
      let s0 := mkSimulator (opModels s) (values s) (simResult s) (wrapU 32 (iterNum s + 1)) (cyclesLimit s) in
      let* s1 := innerLoop innerFuel true s0 in
      let* u := valueOf (values s1) res_ in
      if c_valid (consumerView u) then Ok (mapValues Updater_resetValid s1)
      else if isFin s1 then
        let eqStateCount' := wrapU 32 (eqStateCount + 1) in
        if cyclesLimit s1 <=? eqStateCount' then Ok s1
        else outerLoop cycles innerFuel args res_ eqStateCount' (onArgs Updater_resetValid args s1)
      else outerLoop cycles innerFuel args res_ 0 (onArgs Updater_resetValid args s1)
  end.

(** What precedes the first cycle: the data of the arguments, their valids, and the value
    that the result is read from. *)
Definition startSimulation (f : FuncOp) (s : Simulator) (inputArgs : list string) : res (Simulator * nat) :=
  let chans := channelArgs f in
  let channelCount := length chans in
  if (channelCount =? 0)%nat || negb (length inputArgs mod channelCount =? 0)%nat then Bad ExitOne
  else if (length inputArgs <? channelCount)%nat then Bad OutOfRange
  else
    let* vals := foldM setInput (values s) (zip chans inputArgs) in
    let s1 := mkSimulator (opModels s) vals (simResult s) (iterNum s) (cyclesLimit s) in
    let s2 := onArgs Updater_setValid (map fst (func_args f)) s1 in
    let* res_ := resultValue f in
    Ok (mkSimulator (opModels s2) (values s2) (simResult s2) 0 (cyclesLimit s2), res_).

Definition simulate (cycles innerFuel : nat) (f : FuncOp) (s : Simulator) (inputArgs : list string)
    : res Simulator :=
  let* (s1, res_) := startSimulation f s inputArgs in
  outerLoop cycles innerFuel (map fst (func_args f)) res_ 0 s1.

End Sim.
