(* ===== verification/SimulatorThms.v ===== *)
(** What the simulator's loops guarantee: the order in which a sweep visits the
    models does not matter, a loop that ends leaves a circuit whose signals are
    stable, and the number of clock cycles is bounded. *)

From stdpp Require Import gmap strings.
From S2P Require Import Prelude LLVMInterface SimSignals SimSupport SimHandshake SimArith Simulator.

Section SimThms.
Context {IL : APIntLib} {FL : APFloatLib}.

(** * Independence of the iteration order *)

Definition isEndModel (m : Model) : bool := match m with MEnd => true | _ => false end.

Definition apart (l k : list nat) : Prop := ∀ v, v ∈ l → v ∉ k.

Lemma apart_sym l k : apart l k → apart k l.
Proof. intros H v Hk Hl. exact (H v Hl Hk). Qed.

(** Two models that write different signals: no operand in common (every value
    has one user), no result in common, and not both the [end]. *)
Definition independent (a b : Operation * Model) : Prop :=
  apart (op_operands (fst a)) (op_operands (fst b))
  ∧ apart (map fst (op_results (fst a))) (map fst (op_results (fst b)))
  ∧ isEndModel (snd a) && isEndModel (snd b) = false.

Lemma independent_sym a b : independent a b → independent b a.
Proof. intros (? & ? & ?). repeat split; [by apply apart_sym..|by rewrite andb_comm]. Qed.

Definition putWrites (vals : gmap nat Updater) (ws : list (nat * (Updater → Updater))) :=
  foldl (λ vals '(v, f), alter f v vals) vals ws.

Definition consumerWrites (ws : list (nat * ConsumerRW)) := map (λ '(v, c), (v, writeConsumer c)) ws.
Definition producerWrites (ws : list (nat * ProducerRW)) := map (λ '(v, p), (v, writeProducer p)) ws.

Lemma putConsumers_writes ws : ∀ vals, putConsumers vals ws = putWrites vals (consumerWrites ws).
Proof. induction ws as [|[v c] ws IH]; intros vals; simpl; auto. Qed.

Lemma putProducers_writes ws : ∀ vals, putProducers vals ws = putWrites vals (producerWrites ws).
Proof. induction ws as [|[v p] ws IH]; intros vals; simpl; auto. Qed.

Lemma putWrites_app vals ws ws' : putWrites vals (ws ++ ws') = putWrites (putWrites vals ws) ws'.
Proof. apply foldl_app. Qed.

(** Two writes commute when they go to different values, or to different cells
    of the same value. *)
Definition commuting (w w' : nat * (Updater → Updater)) : Prop :=
  fst w ≠ fst w' ∨ ∀ u, snd w (snd w' u) = snd w' (snd w u).

Lemma alter_comm w w' (vals : gmap nat Updater) : commuting w w' →
  alter (snd w) (fst w) (alter (snd w') (fst w') vals)
  = alter (snd w') (fst w') (alter (snd w) (fst w) vals).
Proof.
  intros H. destruct (decide (fst w = fst w')) as [Heq|Hne].
  - destruct H as [H|H]; [done|]. rewrite Heq. apply map_eq; intros i.
    rewrite !lookup_alter. repeat case_decide; try done.
    destruct (vals !! w'.1); simpl; [by rewrite H|done].
  - apply map_eq; intros i. rewrite !lookup_alter. repeat case_decide; congruence.
Qed.

Lemma putWrites_comm1 w ws : Forall (commuting w) ws → ∀ vals,
  putWrites (alter (snd w) (fst w) vals) ws = alter (snd w) (fst w) (putWrites vals ws).
Proof.
  induction 1 as [|[v f] ws Hw _ IH]; intros vals; simpl; [done|].
  rewrite <-IH. f_equal. symmetry. apply (alter_comm w (v, f)). done.
Qed.

Lemma putWrites_comm ws ws' : Forall (λ w, Forall (commuting w) ws') ws → ∀ vals,
  putWrites (putWrites vals ws) ws' = putWrites (putWrites vals ws') ws.
Proof.
  induction 1 as [|[v f] ws Hw _ IH]; intros vals; simpl; [done|].
  rewrite IH. by rewrite (putWrites_comm1 (v, f)).
Qed.

(** A view does not see writes to other values or other cells. *)
Lemma view_putWrites {V} (view : Updater → V) vs ws : 
  Forall (λ w, fst w ∉ vs ∨ ∀ u, view (snd w u) = view u) ws → ∀ vals,
  mapM (λ v, let* u := valueOf (putWrites vals ws) v in Ok (view u)) vs
  = mapM (λ v, let* u := valueOf vals v in Ok (view u)) vs.
Proof.
  induction 1 as [|[x f] ws Hw _ IH]; intros vals; simpl; [done|]. rewrite IH. clear IH.
  assert (∀ v, v ∈ vs → (let* u := valueOf (alter f x vals) v in Ok (view u))
                        = (let* u := valueOf vals v in Ok (view u))) as Hv.
  { intros v Hv. unfold valueOf. destruct (decide (x = v)) as [->|Hne].
    - rewrite lookup_alter_eq. destruct Hw as [|Hw]; [done|].
      destruct (vals !! v); simpl; [by rewrite Hw|done].
    - by rewrite lookup_alter_ne. }
  clear Hw. induction vs as [|v vs IH]; simpl; [done|].
  rewrite Hv by left. rewrite IH; [done|]. intros; apply Hv; by right.
Qed.

(** The writes of one execution of a model. *)
Definition modelWrites (om : Operation * Model) (ins : list ConsumerRW) (outs : list ProducerRW) :=
  consumerWrites (writeOrder (snd om) (zip (op_operands (fst om)) ins))
    ++ producerWrites (zip (map fst (op_results (fst om))) outs).

Lemma writeOrder_elem {A} m (l : list A) x : x ∈ writeOrder m l → x ∈ l.
Proof.
  destruct m, l; simpl; try done; rewrite elem_of_app, list_elem_of_singleton, elem_of_cons; tauto.
Qed.

Lemma zip_fst_elem {A B} (l : list A) (k : list B) x y : (x, y) ∈ zip l k → x ∈ l.
Proof. apply elem_of_zip_l. Qed.

(** Every write of a model is to the ready of an operand or to the valid and
    data of a result. *)
Lemma modelWrites_spec om ins outs w : w ∈ modelWrites om ins outs →
  (fst w ∈ op_operands (fst om) ∧ ∃ c, snd w = writeConsumer c)
  ∨ (fst w ∈ map fst (op_results (fst om)) ∧ ∃ p, snd w = writeProducer p).
Proof.
  unfold modelWrites, consumerWrites, producerWrites. intros Hw.
  rewrite elem_of_app, !list_elem_of_In, !in_map_iff in Hw.
  destruct Hw as [([v c] & <- & H)|([v p] & <- & H)]; apply list_elem_of_In in H; simpl.
  - left. apply writeOrder_elem, zip_fst_elem in H. split; [done|by eexists].
  - right. apply zip_fst_elem in H. split; [done|by eexists].
Qed.

Lemma modelWrites_commuting a b ins outs ins' outs' : independent a b →
  Forall (λ w, Forall (commuting w) (modelWrites b ins' outs')) (modelWrites a ins outs).
Proof.
  intros (Ho & Hr & _). apply Forall_forall; intros w Hw. apply Forall_forall; intros w' Hw'.
  apply list_elem_of_In, modelWrites_spec in Hw. apply list_elem_of_In, modelWrites_spec in Hw'.
  unfold commuting.
  destruct Hw as [[Hv [c ->]]|[Hv [p ->]]], Hw' as [[Hv' [c' ->]]|[Hv' [p' ->]]].
  - left. intros Heq. rewrite Heq in Hv. by eapply Ho.
  - right. intros u. apply write_commute.
  - right. intros u. symmetry. apply write_commute.
  - left. intros Heq. rewrite Heq in Hv. by eapply Hr.
Qed.

Lemma consumersOf_modelWrites a b ins outs vals : independent a b →
  consumersOf (putWrites vals (modelWrites a ins outs)) (op_operands (fst b))
  = consumersOf vals (op_operands (fst b)).
Proof.
  intros (Ho & _). apply (view_putWrites consumerView). apply Forall_forall; intros w Hw.
  apply list_elem_of_In, modelWrites_spec in Hw as [[Hv _]|[_ [p ->]]].
  - left. by apply Ho.
  - right. intros u. apply consumerView_writeProducer.
Qed.

Lemma producersOf_modelWrites a b ins outs vals : independent a b →
  producersOf (putWrites vals (modelWrites a ins outs)) (map fst (op_results (fst b)))
  = producersOf vals (map fst (op_results (fst b))).
Proof.
  intros (_ & Hr & _). apply (view_putWrites producerView). apply Forall_forall; intros w Hw.
  apply list_elem_of_In, modelWrites_spec in Hw as [[_ [c ->]]|[Hv _]].
  - right. intros u. apply producerView_writeConsumer.
  - left. by apply Hr.
Qed.

(** Only the [end] reads or writes the result members. *)
Lemma modelStep_result ph m ins outs r : isEndModel m = false → ∀ m' ins' outs' r',
  modelStep ph m ins outs r = Ok (m', ins', outs', r') →
  r' = r ∧ ∀ r0, modelStep ph m ins outs r0 = Ok (m', ins', outs', r0).
Proof.
  intros He m' ins' outs' r' H.
  destruct m; try discriminate He;
    destruct ins as [|? [|? [|? [|? ?]]]]; destruct outs as [|? [|? [|? ?]]];
    simpl in *; try discriminate H.
  all: try (injection H as <- <- <- <-; by split).
  all: apply bind_ok in H as (x & Hx & H); products;
       injection H as <- <- <- <-; split; [done|]; intros r0; by rewrite Hx.
Qed.

Lemma execModel_eq ph om vals r : execModel ph om (vals, r) =
  let* ins := consumersOf vals (op_operands (fst om)) in
  let* outs := producersOf vals (map fst (op_results (fst om))) in
  let* (m', ins', outs', r') := modelStep ph (snd om) ins outs r in
  Ok ((fst om, m'), (putWrites vals (modelWrites om ins' outs'), r')).
Proof.
  destruct om as [op m]. unfold execModel, modelWrites; simpl.
  destruct (consumersOf _ _); simpl; [|done]. destruct (producersOf _ _); simpl; [|done].
  destruct (modelStep _ _ _ _ _) as [[[[? ?] ?] ?]|]; simpl; [|done].
  by rewrite putConsumers_writes, putProducers_writes, <-putWrites_app.
Qed.

(** Executing two independent models in either order comes to the same. *)
Lemma execModel_comm ph a b st a' st1 b' st2 : independent a b →
  execModel ph a st = Ok (a', st1) → execModel ph b st1 = Ok (b', st2) →
  ∃ st1', execModel ph b st = Ok (b', st1') ∧ execModel ph a st1' = Ok (a', st2).
Proof.
  destruct st as [vals r]. intros Hab Ha Hb. rewrite execModel_eq in Ha.
  apply bind_ok in Ha as (insa & Hia & Ha). apply bind_ok in Ha as (outsa & Hoa & Ha).
  apply bind_ok in Ha as ([[[ma' insa'] outsa'] ra] & Hma & Ha). injection Ha as <- <-.
  rewrite execModel_eq, consumersOf_modelWrites, producersOf_modelWrites in Hb by done.
  apply bind_ok in Hb as (insb & Hib & Hb). apply bind_ok in Hb as (outsb & Hob & Hb).
  apply bind_ok in Hb as ([[[mb' insb'] outsb'] rb] & Hmb & Hb). injection Hb as <- <-.
  assert (∃ rb', modelStep ph (snd b) insb outsb r = Ok (mb', insb', outsb', rb')
     ∧ modelStep ph (snd a) insa outsa rb' = Ok (ma', insa', outsa', rb)) as (rb' & Hmb0 & Hma0).
  { destruct Hab as (_ & _ & He). destruct (isEndModel (snd a)) eqn:Hea; simpl in He.
    - destruct (modelStep_result _ _ _ _ _ He _ _ _ _ Hmb) as [-> Hr]. eauto.
    - destruct (modelStep_result _ _ _ _ _ Hea _ _ _ _ Hma) as [-> Hr]. eauto. }
  exists (putWrites vals (modelWrites b insb' outsb'), rb').
  rewrite !execModel_eq, consumersOf_modelWrites, producersOf_modelWrites
    by by apply independent_sym.
  rewrite Hib, Hob, Hia, Hoa; simpl. rewrite Hmb0, Hma0; simpl. split; [done|].
  by rewrite (putWrites_comm (modelWrites a insa' outsa')) by by apply modelWrites_commuting.
Qed.

Lemma sweep_perm ph ms ms' : ms ≡ₚ ms' → pairwise independent ms → ∀ st rs st',
  sweep ph ms st = Ok (rs, st') →
  ∃ rs', sweep ph ms' st = Ok (rs', st') ∧ rs ≡ₚ rs'.
Proof.
  induction 1 as [|x l l' Hp IH|x y l|l l' l'' H1 IH1 H2 IH2]; intros Hi st rs st' H.
  - eauto.
  - simpl in *. res_inv. destruct a as [x' st1]. res_inv. destruct a as [rs1 st2]. res_inv.
    destruct (IH (proj2 Hi) _ _ _ Ha0) as (rs' & Hs & Hps). simplify_eq.
    exists (x' :: rs'). rewrite Ha; simpl. rewrite Hs. split; [done|by constructor].
  - simpl in Hi. destruct Hi as [Hy%Forall_inv _].
    cbn [sweep] in *.
    apply bind_ok in H as ([y' st1] & Hey & H). apply bind_ok in H as ([rs1 st3] & Hr & H).
    apply bind_ok in Hr as ([x' st2] & Hex & Hr). apply bind_ok in Hr as ([rs2 st4] & Hl & Hr).
    injection Hr as <- <-. injection H as <- <-.
    destruct (execModel_comm _ _ _ _ _ _ _ _ Hy Hey Hex) as (st1' & Hx & Hy').
    exists (x' :: y' :: rs2). rewrite Hx; simpl. rewrite Hy'; simpl. rewrite Hl; simpl.
    split; [done|constructor].
  - destruct (IH1 Hi _ _ _ H) as (rs1 & Hs1 & Hp1).
    destruct (IH2 (pairwise_perm _ _ _ independent_sym H1 Hi) _ _ _ Hs1) as (rs2 & Hs2 & Hp2).
    exists rs2. split; [done|]. by etransitivity.
Qed.

(** Two simulators that differ by the iteration order only. *)
Definition similar (s s' : Simulator) : Prop :=
  opModels s ≡ₚ opModels s' ∧ values s = values s' ∧ simResult s = simResult s'
  ∧ iterNum s = iterNum s' ∧ cyclesLimit s = cyclesLimit s'.

(** In a circuit where every value has one user, and with one [end]. *)
Definition singleUse (s : Simulator) : Prop := pairwise independent (opModels s).

Definition skeleton (om : Operation * Model) : Operation * bool := (fst om, isEndModel (snd om)).

Lemma modelStep_skeleton ph m ins outs r m' ins' outs' r' :
  modelStep ph m ins outs r = Ok (m', ins', outs', r') → isEndModel m' = isEndModel m.
Proof.
  intros H. destruct m;
    destruct ins as [|? [|? [|? [|? ?]]]]; destruct outs as [|? [|? [|? ?]]];
    simpl in *; try discriminate H.
  all: try (injection H as <- <- <- <-; done).
  all: apply bind_ok in H as (x & Hx & H); products; injection H as <- <- <- <-; done.
Qed.

Lemma sweep_skeleton ph ms : ∀ st rs st',
  sweep ph ms st = Ok (rs, st') → map skeleton rs = map skeleton ms.
Proof.
  induction ms as [|om ms IH]; intros [vals r] rs st' H; cbn [sweep] in H.
  - by injection H as <- <-.
  - apply bind_ok in H as ([om' st1] & He & H). apply bind_ok in H as ([rs1 st2] & Hs & H).
    injection H as <- <-. simpl. rewrite (IH _ _ _ Hs). f_equal.
    rewrite execModel_eq in He. res_inv. products. simplify_eq. unfold skeleton; simpl.
    f_equal. by eapply modelStep_skeleton.
Qed.

Lemma independent_skeleton a a' b b' : skeleton a = skeleton a' → skeleton b = skeleton b' →
  independent a b → independent a' b'.
Proof. unfold skeleton, independent. intros [= -> ->] [= -> ->]. done. Qed.

Lemma Forall_skeleton a a' ms ms' : skeleton a = skeleton a' → map skeleton ms = map skeleton ms' →
  Forall (independent a) ms → Forall (independent a') ms'.
Proof.
  intros Ha Hm Hf. revert ms' Hm.
  induction Hf as [|b ms Hb _ IH]; intros [|b' ms'] Hm; try discriminate Hm; constructor.
  - by eapply independent_skeleton; [done|exact (f_equal (λ l, default (skeleton b) (head l)) Hm)|].
  - apply IH. exact (f_equal tail Hm).
Qed.

Lemma pairwise_skeleton ms ms' : map skeleton ms = map skeleton ms' →
  pairwise independent ms → pairwise independent ms'.
Proof.
  revert ms'. induction ms as [|a ms IH]; intros [|a' ms'] Hm; try discriminate Hm; simpl; [done|].
  intros [Hf Hp].
  assert (skeleton a = skeleton a') by exact (f_equal (λ l, default (skeleton a) (head l)) Hm).
  assert (map skeleton ms = map skeleton ms') by exact (f_equal tail Hm).
  split; [by eapply Forall_skeleton|by apply IH].
Qed.

Lemma sweepSim_similar ph s s' r : similar s s' → singleUse s → sweepSim ph s = Ok r →
  ∃ r', sweepSim ph s' = Ok r' ∧ similar r r' ∧ singleUse r.
Proof.
  intros (Hp & Hv & Hr & Hi & Hl) Hu H. unfold sweepSim in *. rewrite <-Hv, <-Hr, <-Hi, <-Hl.
  apply bind_ok in H as ([ms [vals rr]] & Hs & H). injection H as <-.
  destruct (sweep_perm _ _ _ Hp Hu _ _ _ Hs) as (ms' & Hs' & Hp'). rewrite Hs'; simpl.
  eexists; split; [done|]. split; [done|].
  eapply pairwise_skeleton; [symmetry; by eapply sweep_skeleton|done].
Qed.

Lemma isFin_similar s s' : similar s s' → isFin s = isFin s'.
Proof. intros (_ & Hv & _). unfold isFin. by rewrite Hv. Qed.

Lemma mapValues_similar f s s' : similar s s' → similar (mapValues f s) (mapValues f s').
Proof. intros (? & Hv & ? & ? & ?). repeat split; simpl; try done. by rewrite Hv. Qed.

Lemma onArgs_similar f args s s' : similar s s' → similar (onArgs f args s) (onArgs f args s').
Proof. intros (? & Hv & ? & ? & ?). repeat split; simpl; try done. by rewrite Hv. Qed.

#[local] Hint Resolve isFin_similar mapValues_similar onArgs_similar : dyn.

Lemma innerLoop_similar fuel : ∀ clk s s' r, similar s s' → singleUse s →
  innerLoop fuel clk s = Ok r →
  ∃ r', innerLoop fuel clk s' = Ok r' ∧ similar r r' ∧ singleUse r.
Proof.
  induction fuel as [|fuel IH]; intros clk s s' r Hs Hu H; cbn [innerLoop] in *; [done|].
  apply bind_ok in H as (s1 & Hsw & H).
  destruct (sweepSim_similar _ _ _ _ Hs Hu Hsw) as (s1' & -> & Hs1 & Hu1); simpl.
  rewrite <-(isFin_similar _ _ Hs1). destruct (isFin s1).
  - injection H as <-. eauto.
  - apply (IH _ _ _ _ (mapValues_similar _ _ _ Hs1)); done.
Qed.

Lemma resetLoop_similar fuel : ∀ s s' r, similar s s' → singleUse s →
  resetLoop fuel s = Ok r → ∃ r', resetLoop fuel s' = Ok r' ∧ similar r r'.
Proof.
  induction fuel as [|fuel IH]; intros s s' r Hs Hu H; cbn [resetLoop] in *; [done|].
  apply bind_ok in H as (s1 & Hsw & H).
  destruct (sweepSim_similar _ _ _ _ Hs Hu Hsw) as (s1' & -> & Hs1 & Hu1); simpl.
  rewrite <-(isFin_similar _ _ Hs1). destruct (isFin s1).
  - injection H as <-. eauto.
  - apply (IH _ _ _ (mapValues_similar _ _ _ Hs1)); done.
Qed.

Lemma outerLoop_similar cycles fuel args v : ∀ n s s' r, similar s s' → singleUse s →
  outerLoop cycles fuel args v n s = Ok r →
  ∃ r', outerLoop cycles fuel args v n s' = Ok r' ∧ similar r r'.
Proof.
  induction cycles as [|cycles IH]; intros n s s' r Hs Hu H; cbn [outerLoop] in *; [done|].
  set (s0 := mkSimulator (opModels s) _ _ _ _) in H.
  set (s0' := mkSimulator (opModels s') _ _ _ _).
  assert (similar s0 s0') as Hs0 by (destruct Hs as (? & ? & ? & Hi & ?); repeat split; simpl; congruence).
  apply bind_ok in H as (s1 & Hin & H). apply bind_ok in H as (u & Hv & H).
  destruct (innerLoop_similar _ _ _ _ _ Hs0 Hu Hin) as (s1' & -> & Hs1 & Hu1); simpl.
  pose proof Hs1 as (_ & Hvals & _ & _ & Hlim). rewrite <-Hvals, Hv; simpl.
  rewrite <-Hlim, <-(isFin_similar _ _ Hs1).
  repeat case_match; try (injection H as <-; eexists; split; [done|]; auto with dyn; fail).
  all: by apply (IH _ _ _ _ (onArgs_similar _ _ _ _ Hs1)).
Qed.

(** Where every value has a single user, the outcome of a simulation does
    not depend on the order in which the hash map of models is iterated: any
    other order gives the same signals, result and number of cycles. *)
Theorem simulate_iteration_order cycles fuel f s s' inputs r :
  similar s s' → singleUse s →
  simulate cycles fuel f s inputs = Ok r →
  ∃ r', simulate cycles fuel f s' inputs = Ok r' ∧ similar r r'.
Proof.
  intros Hs Hu H. unfold simulate, startSimulation in *. pose proof Hs as (Hp & Hv & Hr & Hi & Hl).
  repeat case_match; try done.
  rewrite <-Hv. rewrite bind_assoc in *. apply bind_ok in H as (vals & -> & H). cbn [bind] in *.
  rewrite bind_assoc in *. apply bind_ok in H as (v & -> & H). simpl in *.
  eapply outerLoop_similar; [| |exact H]; [|done].
  repeat split; simpl; done.
Qed.

(** The same for [reset]. *)
Theorem reset_iteration_order fuel s s' r :
  similar s s' → singleUse s →
  Simulator_reset fuel s = Ok r →
  ∃ r', Simulator_reset fuel s' = Ok r' ∧ similar r r'.
Proof.
  intros Hs Hu H. unfold Simulator_reset in *. apply bind_ok in H as (s1 & H1 & [= <-]).
  destruct (resetLoop_similar _ _ _ _ Hs Hu H1) as (s1' & -> & Hs1); simpl.
  eexists; split; [done|]. by apply mapValues_similar.
Qed.

(** * Ends of loops *)

(** The old and the new signals of a value agree, data up to its hash. *)
Definition stable (s : Simulator) : Prop :=
  ∀ v u, values s !! v = Some u → Updater_check u = true.

Lemma isFin_stable s : isFin s = true ↔ stable s.
Proof.
  unfold isFin, stable. rewrite forallb_forall. split.
  - intros H v u Hv. apply (H (v, u)), list_elem_of_In, elem_of_map_to_list, Hv.
  - intros H [v u] Hin. apply (H v), elem_of_map_to_list, list_elem_of_In, Hin.
Qed.

Lemma innerLoop_stable fuel : ∀ clk s r, innerLoop fuel clk s = Ok r → isFin r = true.
Proof.
  induction fuel as [|fuel IH]; intros clk s r H; cbn [innerLoop] in H; [done|].
  apply bind_ok in H as (s1 & _ & H). destruct (isFin s1) eqn:Hf; [by injection H as <-|eauto].
Qed.

Lemma sweepSim_frame ph s r : sweepSim ph s = Ok r →
  iterNum r = iterNum s ∧ cyclesLimit r = cyclesLimit s.
Proof. 
  unfold sweepSim. intros H. apply bind_ok in H as ([ms [vals rr]] & _ & H).
  by injection H as <-.
Qed.

Lemma innerLoop_frame fuel : ∀ clk s r, innerLoop fuel clk s = Ok r →
  iterNum r = iterNum s ∧ cyclesLimit r = cyclesLimit s.
Proof.
  induction fuel as [|fuel IH]; intros clk s r H; cbn [innerLoop] in H; [done|].
  apply bind_ok in H as (s1 & [Hi Hl]%sweepSim_frame & H).
  destruct (isFin s1); [by injection H as <-|].
  destruct (IH _ _ _ H) as [E1 E2]. simpl in *. split; congruence.
Qed.

(** The number of cycles still to run when [n] have passed without a result. *)
Definition cyclesLeft (limit n : Z) : nat := Z.to_nat (Z.max 1 (limit - n)).

(** A cycle: it is counted, and signals propagate. *)
Definition runCycle (fuel : nat) (s : Simulator) : res Simulator :=
  innerLoop fuel true (mkSimulator (opModels s) (values s) (simResult s) (wrapU 32 (iterNum s + 1)) (cyclesLimit s)).

(** The state at the end of cycle [k], from 0 on, if none before it ends the simulation: the valid of
    accepted arguments is cleared between two cycles. *)
Fixpoint cycleEnd (fuel : nat) (args : list nat) (k : nat) (s : Simulator) : res Simulator :=
  let* s1 := runCycle fuel s in
  match k with O => Ok s1 | S k => cycleEnd fuel args k (onArgs Updater_resetValid args s1) end.

(** Whether the result is valid at the end of cycle [k]. *)
Definition resultAt (fuel : nat) (args : list nat) (v k : nat) (s : Simulator) : res (Simulator * bool) :=
  let* s1 := cycleEnd fuel args k s in
  let* u := valueOf (values s1) v in Ok (s1, c_valid (consumerView u)).

Lemma runCycle_frame fuel s s1 : runCycle fuel s = Ok s1 → 0 ≤ iterNum s < 2 ^ 32 - 1 →
  iterNum s1 = iterNum s + 1 ∧ cyclesLimit s1 = cyclesLimit s ∧ isFin s1 = true.
Proof.
  intros H Hi. pose proof (innerLoop_stable _ _ _ _ H). destruct (innerLoop_frame _ _ _ _ H) as [-> ->]. simpl.
  rewrite wrapU_small by lia. done.
Qed.

(** The outer loop ends in the first cycle with a valid result, or in the last cycle that
    the limit allows: every cycle without a result counts, because the inner loop only ends
    on stable signals. *)
Lemma outerLoop_spec fuel args v limit : 0 ≤ limit < 2 ^ 32 → ∀ m n s cycles,
  0 ≤ n < Z.max 1 limit → cyclesLimit s = limit → m = cyclesLeft limit n → (m ≤ cycles)%nat →
  0 ≤ iterNum s → iterNum s + Z.of_nat m < 2 ^ 32 →
  ∃ k, (k < m)%nat ∧ (∀ j, (j < k)%nat → ∃ sj, resultAt fuel args v j s = Ok (sj, false))
  ∧ match resultAt fuel args v k s with
    | Bad e => outerLoop cycles fuel args v n s = Bad e
    | Ok (sk, true) => outerLoop cycles fuel args v n s = Ok (mapValues Updater_resetValid sk) ∧ iterNum sk = iterNum s + Z.of_nat k + 1
    | Ok (sk, false) => outerLoop cycles fuel args v n s = Ok sk ∧ iterNum sk = iterNum s + Z.of_nat m ∧ S k = m
    end.
Proof.
  intros Hlim. induction m as [|m IH]; intros n s cycles Hn Hl Hm Hc Hi Hw; [unfold cyclesLeft in Hm; lia|].
  destruct cycles as [|cycles]; [lia|]. cbn [outerLoop]. fold (runCycle fuel s).
  destruct (runCycle fuel s) as [s1|e] eqn:Hrun; cbn [bind].
  2: { exists 0%nat. split; [lia|]. split; [lia|]. unfold resultAt, cycleEnd. by rewrite Hrun. }
  destruct (runCycle_frame fuel s s1 Hrun) as (Hi1 & Hl1 & Hf1); [lia|].
  destruct (valueOf (values s1) v) as [u|e] eqn:Hu; cbn [bind].
  2: { exists 0%nat. split; [lia|]. split; [lia|]. unfold resultAt, cycleEnd. rewrite Hrun. cbn [bind]. by rewrite Hu. }
  destruct (c_valid (consumerView u)) eqn:Hv.
  { exists 0%nat. split; [lia|]. split; [lia|]. unfold resultAt, cycleEnd. rewrite Hrun. cbn [bind]. rewrite Hu. cbn [bind]. rewrite Hv.
    split; [done|lia]. }
  rewrite Hf1, (wrapU_small 32 (n + 1)), Hl1, Hl by lia. destruct (Z.leb_spec limit (n + 1)) as [Hle|Hlt].
  { assert (m = 0%nat) as -> by (unfold cyclesLeft in Hm; lia). exists 0%nat. split; [lia|]. split; [lia|].
    unfold resultAt, cycleEnd. rewrite Hrun. cbn [bind]. rewrite Hu. cbn [bind]. rewrite Hv. repeat split; lia. }
  destruct (IH (n + 1) (onArgs Updater_resetValid args s1) cycles) as (k & Hk & Hbefore & Hres); simpl; try (unfold cyclesLeft in *; lia).
  exists (S k). split; [lia|].
  assert (∀ j, resultAt fuel args v (S j) s = resultAt fuel args v j (onArgs Updater_resetValid args s1)) as Hstep.
  { intros j. unfold resultAt. cbn [cycleEnd]. by rewrite Hrun. }
  split.
  - intros [|j] Hj; [|rewrite Hstep; apply Hbefore; lia]. exists s1. unfold resultAt, cycleEnd. rewrite Hrun. cbn [bind].
    rewrite Hu. cbn [bind]. by rewrite Hv.
  - rewrite Hstep. cbn [iterNum onArgs] in Hres. destruct (resultAt _ _ _ k _) as [[sk []]|]; [|..|done].
    + destruct Hres as [-> ->]. split; [done|lia].
    + destruct Hres as (-> & -> & ?). split; [done|lia].
Qed.

(** C35.  A simulation ends after at most [max 1 cyclesLimit] clock cycles, whatever the
    bound on cycles above that: in the first cycle at whose end the result is valid, and
    otherwise in the last one, with the number of cycles in [iterNum].  It fails only if the
    propagation of signals in one of these cycles fails (or does not settle), or there is no
    value to read the result from.  The count of consecutive unchanged cycles is in fact a
    count of cycles. *)
Theorem simulate_ends cycles fuel f s inputs s0 v :
  let N := Z.to_nat (Z.max 1 (cyclesLimit s)) in let args := map fst (func_args f) in
  0 ≤ cyclesLimit s < 2 ^ 32 - 1 → (N ≤ cycles)%nat → startSimulation f s inputs = Ok (s0, v) →
  ∃ k, (k < N)%nat ∧ (∀ j, (j < k)%nat → ∃ sj, resultAt fuel args v j s0 = Ok (sj, false))
  ∧ match resultAt fuel args v k s0 with
    | Bad e => simulate cycles fuel f s inputs = Bad e
    | Ok (sk, true) => simulate cycles fuel f s inputs = Ok (mapValues Updater_resetValid sk) ∧ iterNum sk = Z.of_nat k + 1
    | Ok (sk, false) => simulate cycles fuel f s inputs = Ok sk ∧ iterNum sk = Z.of_nat N ∧ S k = N
    end.
Proof.
  intros N args Hl Hc Hs. unfold simulate. rewrite Hs. cbn [bind].
  assert (cyclesLimit s0 = cyclesLimit s ∧ iterNum s0 = 0) as [Hl0 Hi0].
  { unfold startSimulation in Hs. repeat case_match; try done. apply bind_ok in Hs as (vals & _ & Hs).
    apply bind_ok in Hs as (w & _ & [= <- _]). done. }
  destruct (outerLoop_spec fuel args v (cyclesLimit s) ltac:(lia) N 0 s0 cycles) as (k & H); subst N;
    rewrite ?Hi0; unfold cyclesLeft; rewrite ?Z.sub_0_r; try lia; try done.
  exists k. rewrite Hi0 in H. exact H.
Qed.

End SimThms.

(** * Deciding single use *)

Section Decide.
Context {IL : APIntLib} {FL : APFloatLib}.

Definition apartb (l k : list nat) : bool := forallb (λ v, negb (existsb (Nat.eqb v) k)) l.

Definition independentb (a b : Operation * Model) : bool :=
  apartb (op_operands (fst a)) (op_operands (fst b))
  && apartb (map fst (op_results (fst a))) (map fst (op_results (fst b)))
  && negb (isEndModel (snd a) && isEndModel (snd b)).

Fixpoint pairwiseb {A} (f : A → A → bool) (l : list A) : bool :=
  match l with [] => true | x :: l => forallb (f x) l && pairwiseb f l end.

Definition singleUseb (s : Simulator) : bool := pairwiseb independentb (opModels s).

Lemma apartb_spec l k : apartb l k = true → apart l k.
Proof.
  unfold apartb, apart. rewrite forallb_forall. intros H v Hl%list_elem_of_In Hk%list_elem_of_In.
  specialize (H v Hl). apply negb_true_iff in H.
  assert (existsb (Nat.eqb v) k = true) by (apply existsb_exists; exists v; by rewrite Nat.eqb_refl).
  congruence.
Qed.

Lemma independentb_spec a b : independentb a b = true → independent a b.
Proof.
  unfold independentb. intros [[H1 H2]%andb_true_iff H3%negb_true_iff]%andb_true_iff.
  split; [by apply apartb_spec|]. split; [by apply apartb_spec|done].
Qed.

Lemma singleUseb_spec s : singleUseb s = true → singleUse s.
Proof.
  unfold singleUseb, singleUse. induction (opModels s) as [|om oms IH]; simpl; [done|].
  intros [H1 H2]%andb_true_iff. split; [|by apply IH].
  apply Forall_forall. intros x Hx. apply independentb_spec.
  rewrite forallb_forall in H1. by apply H1.
Qed.

End Decide.

#[local] Existing Instance Bits.lib.
#[local] Existing Instance Bits.flib.

(** [add : (i8, i8) -> i8] as a circuit: values 0 and 1 are the arguments, 2
    the sum. *)
Definition i8 : ValueType := ChannelType (IntegerType 8 false).
Definition add_circuit : FuncOp :=
  mkFuncOp [(0%nat, i8); (1%nat, i8)]
    [mkOperation AddIOp [0%nat; 1%nat] [(2%nat, i8)]; mkOperation EndOp [2%nat] []].

(** The value of a computation that succeeds. *)
Definition valueOr {A} (d : A) (r : res A) : A := match r with Ok a => a | Bad _ => d end.

Definition no_sim : Simulator := mkSimulator [] ∅ (mkResult false false Data_default) 0 0.
Definition add_sim : Simulator := valueOr no_sim (Simulator_new 10 add_circuit 3).
(** The same simulator, its hash map iterated the other way round. *)
Definition add_sim_rev : Simulator :=
  mkSimulator (reverse (opModels add_sim)) (values add_sim) (simResult add_sim) (iterNum add_sim)
    (cyclesLimit add_sim).
Definition add_inputs : list string := ["200"; "100"]%string.
Definition add_result : Simulator := valueOr no_sim (simulate 3 10 add_circuit add_sim add_inputs).

Lemma add_sim_similar : similar add_sim add_sim_rev.
Proof. repeat split. symmetry. apply reverse_Permutation. Qed.

Lemma add_sim_single_use : singleUse add_sim.
Proof. apply singleUseb_spec. vm_compute. reflexivity. Qed.

Lemma simulate_iteration_order_witness :
  ∃ r', simulate 3 10 add_circuit add_sim_rev add_inputs = Ok r' ∧ similar add_result r'.
Proof.
  apply (simulate_iteration_order 3 10 add_circuit add_sim add_sim_rev add_inputs add_result).
  - exact add_sim_similar.
  - exact add_sim_single_use.
  - reflexivity.
Defined.

Lemma reset_iteration_order_witness :
  ∃ r', Simulator_reset 10 add_sim_rev = Ok r' ∧ similar (valueOr no_sim (Simulator_reset 10 add_sim)) r'.
Proof.
  apply (reset_iteration_order 10 add_sim add_sim_rev).
  - exact add_sim_similar.
  - exact add_sim_single_use.
  - reflexivity.
Defined.

Definition add_started : Simulator * nat := valueOr (no_sim, 0%nat) (startSimulation add_circuit add_sim add_inputs).

Lemma valueOr_ok {A} (d : A) r : is_ok r = true → r = Ok (valueOr d r).
Proof. by destruct r. Qed.

Lemma simulate_ends_witness :
  ∃ k, (k < 3)%nat ∧ (∀ j, (j < k)%nat → ∃ sj, resultAt 10 [0%nat; 1%nat] (snd add_started) j (fst add_started) = Ok (sj, false))
  ∧ match resultAt 10 [0%nat; 1%nat] (snd add_started) k (fst add_started) with
    | Bad e => simulate 8 10 add_circuit add_sim add_inputs = Bad e
    | Ok (sk, true) => simulate 8 10 add_circuit add_sim add_inputs = Ok (mapValues Updater_resetValid sk) ∧ iterNum sk = Z.of_nat k + 1
    | Ok (sk, false) => simulate 8 10 add_circuit add_sim add_inputs = Ok sk ∧ iterNum sk = 3 ∧ S k = 3%nat
    end.
Proof.
  apply (simulate_ends 8 10 add_circuit add_sim add_inputs (fst add_started) (snd add_started)).
  - change (cyclesLimit add_sim) with 3. lia.
  - change (cyclesLimit add_sim) with 3. lia.
  - rewrite <-surjective_pairing. apply valueOr_ok. vm_compute. reflexivity.
Defined.

(** An argument that goes through an opaque buffer to the end: its valid is set before the
    first clock edge, where the buffer takes it without its data, which it takes only
    in a cycle whose end has seen the token. *)
Definition oehb_circuit : FuncOp :=
  mkFuncOp [(0%nat, i8)] [mkOperation (BufferOp false) [0%nat] [(1%nat, i8)]; mkOperation EndOp [1%nat] []].
Definition oehb_sim : Simulator := valueOr no_sim (Simulator_new 10 oehb_circuit 3).

(** The number a simulation returns. *)
Definition resultNumber (r : res Simulator) : res Z :=
  let* s := r in let* d := dataCastInt (resData (simResult s)) in Ok (apint_uval d).

Example argument_lost_in_oehb : resultNumber (simulate 3 10 oehb_circuit oehb_sim ["5"%string]) = Ok 0.
Proof. vm_compute. reflexivity. Qed.
