(* ===== verification/SimModelsThms.v ===== *)
(** What the component models do: the handshakes of branches, joins and lazy forks and the
    arithmetic operations in one execution; a merge takes a token from its inputs into a
    bypass queue, and a mux the token of the input its index selects, together with the
    index (HandshakeSimulator.cpp). *)

From S2P Require Import Prelude LLVMInterface Cycles SimSignals SimSupport SimHandshake SimArith.

Section ModelsThms.
Context {IL : APIntLib} {FL : APFloatLib}.

(** A transfer happens on a channel where both valid and ready are up. *)
Definition consumed (before after : ConsumerRW) : bool := c_valid before && c_ready after.
Definition produced (after : ProducerRW) : bool := p_valid after && p_ready after.

(** A port pair between which data can be copied. *)
Definition compatible (c : ConsumerRW) (p : ProducerRW) : Prop :=
  is_Some (p_chan p) → is_Some (c_chan c).

Lemma assign_compatible c p : compatible c p →
  ∃ p', ProducerData_assign p (ConsumerData c) = Ok p'
  ∧ p_valid p' = p_valid p ∧ p_ready p' = p_ready p
  ∧ (is_Some (p_chan p) → p_chan p' = c_chan c).
Proof.
  unfold compatible, ProducerData_assign, ConsumerData. destruct (p_chan p) as [d|].
  - intros [d' ->]; [by eexists|]. eexists; split; [done|]. by repeat split.
  - intros _. exists p. repeat split; by intros [].
Qed.

Lemma join2 c1 c2 o : JoinSupport_exec 2 [c1; c2] o =
  Ok ([c_set_ready c1 (p_ready o && c_valid c2); c_set_ready c2 (p_ready o && c_valid c1)],
      p_set_valid o (c_valid c1 && c_valid c2)).
Proof. unfold JoinSupport_exec; simpl. by rewrite !andb_true_r. Qed.

(** A conditional branch passes a token from its data input to exactly
    one output: a data token, a condition token and the output token chosen by
    the condition move in the same cycle or not at all, the other output stays
    idle, and the data goes with the token. *)
Theorem cond_branch_routes b p k :
  conditionValue (cb_condition p) = Ok k →
  compatible (cb_data p) (cb_trueOut p) → compatible (cb_data p) (cb_falseOut p) →
  ∃ b' p', CondBranchModel_exec false b p = Ok (b', p')
  ∧ let fire := c_valid (cb_data p) && c_valid (cb_condition p)
                && p_ready (if k then cb_trueOut p else cb_falseOut p) in
    consumed (cb_data p) (cb_data p') = fire
    ∧ consumed (cb_condition p) (cb_condition p') = fire
    ∧ produced (cb_trueOut p') = (fire && k)
    ∧ produced (cb_falseOut p') = (fire && negb k)
    ∧ (is_Some (p_chan (cb_trueOut p)) → p_chan (cb_trueOut p') = c_chan (cb_data p))
    ∧ (is_Some (p_chan (cb_falseOut p)) → p_chan (cb_falseOut p') = c_chan (cb_data p)).
Proof.
  intros Hk Ht Hf. destruct p as [d c t f]; simpl in *.
  unfold CondBranchModel_exec, CondBranchModel_reset; cbn [cb_condition cb_data cb_trueOut cb_falseOut].
  rewrite Hk; cbn [bind]. rewrite join2; simpl.
  destruct (assign_compatible d (p_set_valid t (k && (c_valid d && c_valid c)))) as (t' & -> & Ht1 & Ht2 & Ht3); [done|].
  destruct (assign_compatible d (p_set_valid f (negb k && (c_valid d && c_valid c)))) as (f' & -> & Hf1 & Hf2 & Hf3); [done|].
  simpl in *. do 2 eexists; split; [done|]. unfold consumed, produced; simpl.
  rewrite Ht1, Ht2, Hf1, Hf2. clear -Ht3 Hf3.
  destruct k, (c_valid d), (c_valid c), (p_ready t), (p_ready f); by repeat split.
Qed.

(** A join takes a token from all its inputs in the same cycle, exactly
    when its output passes one. *)
Theorem join_synchronises ins outs :
  ∃ ins' outs', JoinModel_exec false (length ins) ins outs = Ok (ins', outs')
  ∧ length ins' = length ins
  ∧ ∀ i c c', ins !! i = Some c → ins' !! i = Some c' → consumed c c' = produced outs'.
Proof.
  unfold JoinModel_exec, JoinModel_reset, JoinSupport_exec.
  rewrite Nat.ltb_irrefl. do 2 eexists; split; [done|]. rewrite length_imap. split; [done|].
  intros i c c' Hc. rewrite list_lookup_imap, Hc; simpl.
  assert (i < length ins)%nat as Hi by by eapply lookup_lt_Some.
  rewrite (proj2 (Nat.ltb_lt _ _) Hi), take_ge by lia. intros [= <-].
  unfold consumed, produced; simpl.
  rewrite andb_comm, <-(forallb_except_spec c_valid ins i 0 c Hc); simpl.
  by destruct (p_ready outs), (c_valid c), (forallb_except _ _ _ _).
Qed.

(** A lazy fork passes its token to all its outputs in the same cycle, the
    one in which its input is consumed, or to none. *)
Theorem lazy_fork_all_or_nothing ins outs :
  Forall (compatible ins) outs →
  ∃ ins' outs', LazyForkModel_exec false (length outs) ins outs = Ok (ins', outs')
  ∧ length outs' = length outs
  ∧ ∀ i o', outs' !! i = Some o' →
      produced o' = consumed ins ins' ∧ (is_Some (p_chan o') → p_chan o' = c_chan ins).
Proof.
  intros Hc. unfold LazyForkModel_exec, LazyForkModel_reset.
  rewrite Nat.ltb_irrefl, (take_ge outs) by done.
  set (outs1 := imap _ outs).
  assert (length outs1 = length outs) as Hl by apply length_imap.
  rewrite take_ge, drop_ge by lia.
  assert (∀ l, Forall (compatible ins) l → ∃ l', assignAll (ConsumerData ins) l = Ok l'
    ∧ Forall2 (λ o o', p_valid o' = p_valid o ∧ p_ready o' = p_ready o
        ∧ (is_Some (p_chan o') → p_chan o' = c_chan ins)) l l') as Hall.
  { induction 1 as [|o l Ho _ (l' & Hl' & Hf)]; [by exists []|].
    destruct (assign_compatible ins o Ho) as (o' & Ho' & Hv & Hr & Hd).
    exists (o' :: l'). unfold assignAll in *; simpl. rewrite Ho', Hl'; simpl. split; [done|].
    constructor; [|done]. repeat split; try done. 
    unfold ProducerData_assign in Ho'. destruct (p_chan o) eqn:Hp; [by intros; apply Hd; eexists|].
    injection Ho' as <-. rewrite Hp. by intros []. }
  destruct (Hall outs1) as (outs2 & -> & Hf2).
  { apply Forall_lookup. intros i o Ho. unfold outs1 in Ho. rewrite list_lookup_imap in Ho.
    destruct (outs !! i) as [o0|] eqn:Ho0; [|done]. injection Ho as <-.
    rewrite Forall_lookup in Hc. specialize (Hc i o0 Ho0). by case_match. }
  simpl. do 2 eexists; split; [done|]. rewrite app_nil_r.
  split; [by rewrite <-(Forall2_length Hf2)|].
  intros i o' Ho'. destruct (Forall2_lookup_r _ _ _ i o' Hf2 Ho') as (o1 & Ho1 & Hv & Hr & Hd).
  split; [|done]. unfold outs1 in Ho1. rewrite list_lookup_imap in Ho1.
  destruct (outs !! i) as [o0|] eqn:Ho0; [|done]. injection Ho1 as <-.
  rewrite (proj2 (Nat.ltb_lt _ _) (lookup_lt_Some _ _ _ Ho0)) in *.
  unfold produced, consumed; simpl in *. rewrite Hv, Hr.
  rewrite <-(forallb_except_spec p_ready outs i 0 o0 Ho0); simpl.
  by destruct (c_valid ins), (p_ready o0), (forallb_except _ _ _ _).
Qed.

End ModelsThms.

#[local] Existing Instance Bits.lib.
#[local] Existing Instance Bits.flib.

Definition byte (n : Z) : Data := Data_of_int (apint_make 8 n false).
Definition consumer (v : bool) (n : Z) : ConsumerRW := mkConsumerRW v false (Some (byte n)).
Definition producer (r : bool) : ProducerRW := mkProducerRW false r (Some (byte 0)).

(** A branch whose condition is 1. *)
Definition branch_ports : CondBranchPorts :=
  mkCondBranchPorts (consumer true 5) (consumer true 1) (producer true) (producer false).

Lemma cond_branch_routes_witness :
  ∃ b' p', CondBranchModel_exec false false branch_ports = Ok (b', p')
  ∧ let fire := true in
    consumed (cb_data branch_ports) (cb_data p') = fire
    ∧ consumed (cb_condition branch_ports) (cb_condition p') = fire
    ∧ produced (cb_trueOut p') = (fire && true)
    ∧ produced (cb_falseOut p') = (fire && negb true)
    ∧ (is_Some (Some (byte 0)) → p_chan (cb_trueOut p') = Some (byte 5))
    ∧ (is_Some (Some (byte 0)) → p_chan (cb_falseOut p') = Some (byte 5)).
Proof.
  apply (cond_branch_routes false branch_ports true); [reflexivity|intros _; by eexists..].
Defined.

Lemma lazy_fork_all_or_nothing_witness :
  ∃ ins' outs', LazyForkModel_exec false 2 (consumer true 5) [producer true; producer true] = Ok (ins', outs')
  ∧ length outs' = 2%nat
  ∧ ∀ i o', outs' !! i = Some o' →
      produced o' = consumed (consumer true 5) ins' ∧ (is_Some (p_chan o') → p_chan o' = Some (byte 5)).
Proof.
  apply (lazy_fork_all_or_nothing (consumer true 5) [producer true; producer true]).
  repeat constructor; intros _; by eexists.
Defined.

Section Merge.
Context {IL : APIntLib} {FL : APFloatLib}.

(** * The environment of several inputs *)

(** An input port is its valid and its data. *)
Definition portsIns (ports : list (bool * Data)) : list ConsumerRW :=
  map (λ '(v, d), mkConsumerRW v false (Some d)) ports.

(** The data of the first valid port. *)
Fixpoint firstToken (ports : list (bool * Data)) : option Data :=
  match ports with
  | [] => None
  | (v, d) :: ports => if v then Some d else firstToken ports
  end.

Definition anyValid (ports : list (bool * Data)) : bool := existsb fst ports.

Lemma firstToken_valid ports : bool_decide (is_Some (firstToken ports)) = anyValid ports.
Proof.
  by induction ports as [|[[] d] ports IH].
Qed.

Lemma firstValid_token ports : ∀ k,
  match firstValid k (portsIns ports) with
  | Some j => ∃ i d, j = (k + i)%nat ∧ portsIns ports !! i = Some (mkConsumerRW true false (Some d))
                     ∧ firstToken ports = Some d
  | None => firstToken ports = None
  end.
Proof.
  induction ports as [|[[] d] ports IH]; intros k; simpl; [done| |].
  - exists 0%nat, d. by rewrite Nat.add_0_r.
  - specialize (IH (S k)). destruct (firstValid (S k) (portsIns ports)); [|done].
    destruct IH as (i & d' & -> & Hi & Ht). exists (S i), d'. split; [lia|done].
Qed.

(** * Merge *)

Record MergeEnv := mkMergeEnv { me_first : bool * Data; me_rest : list (bool * Data); me_ready : bool }.
Definition me_ports (e : MergeEnv) : list (bool * Data) := me_first e :: me_rest e.

Record MergeObs := mkMergeObs { mo_readys : list bool; mo_token : option Data }.

(** A merge with the signals it drives. *)
Record MergeState := mkMergeState {
  ms : MergeModel; ms_readys : list bool; ms_valid : bool; ms_data : Data }.

Definition mergeResult (r : res (MergeModel * list ConsumerRW * ProducerRW)) : res MergeState :=
  let* (m, ins, outs) := r in
  let* d := of_option NullDeref (p_chan outs) in
  Ok (mkMergeState m (map c_ready ins) (p_valid outs) d).

Definition merge : component MergeState MergeEnv MergeObs := mkComponent
  (λ clk e s, mergeResult (MergeModel_exec clk (ms s) (portsIns (me_ports e))
                (mkProducerRW (ms_valid s) (me_ready e) (Some (ms_data s)))))
  (λ s, mkMergeObs (ms_readys s) (if ms_valid s then Some (ms_data s) else None)).

Definition merge_reset (e : MergeEnv) (s : MergeState) : res MergeState :=
  mergeResult (MergeModel_reset (ms s) (portsIns (me_ports e))
    (mkProducerRW (ms_valid s) (me_ready e) (Some (ms_data s)))).

(** What the merge feeds its buffer. *)
Definition mergePort (e : MergeEnv) : PortEnv Data :=
  mkPortEnv (anyValid (me_ports e))
    (default (snd (me_first e)) (firstToken (me_ports e))) (me_ready e).

Definition mergeSpec : machine MergeEnv MergeObs (list Data) := mkMachine
  (λ q e, next bypassFifo q (mergePort e))
  (λ q e, let o := observe bypassFifo q (mergePort e) in
          mkMergeObs (map (λ _, o_ready o) (me_ports e)) (o_token o)).

Lemma merge_full_eq m p ports :
  MergeModel_execDataFull m (portsIns (p :: ports)) =
  Ok (mkMergeModel (mg_size m) (anyValid (p :: ports)) (mg_tehbReady m)
        (default (snd p) (firstToken (p :: ports))) (mergeTEHB m),
      setAllReady (portsIns (p :: ports)) (mg_tehbReady m)).
Proof.
  rewrite <-firstToken_valid. unfold MergeModel_execDataFull, at_. rewrite list_lookup_fmap.
  destruct p as [v d]. simpl lookup. cbn [fmap option_fmap option_map ConsumerData c_chan of_option bind].
  pose proof (firstValid_token ((v, d) :: ports) 0) as H.
  destruct (firstValid 0 _) as [j|] eqn:Hj.
  - destruct H as (i & d' & -> & Hi & Ht). rewrite Ht.
    change (Some d :: _) with (ConsumerData <$> portsIns ((v, d) :: ports)).
    rewrite list_lookup_fmap, Nat.add_0_l, Hi. done.
  - by rewrite H.
Qed.

Lemma readys_portsIns ports b : map c_ready (setAllReady (portsIns ports) b) = map (λ _, b) ports.
Proof. unfold setAllReady, portsIns. rewrite !map_map. apply map_ext. by intros []. Qed.

Definition merge_rep (q : list Data) (s : MergeState) : Prop :=
  mg_tehbReady (ms s) = bool_decide (q = [])
  ∧ match q with
    | [] => fullReg (mergeTEHB (ms s)) = false
    | [d] => fullReg (mergeTEHB (ms s)) = true ∧ dataReg (mergeTEHB (ms s)) = d
    | _ => False
    end.

Definition merge_settled (q : list Data) (e : MergeEnv) (s : MergeState) : Prop :=
  merge_rep q s
  ∧ ms_readys s = map (λ _, bool_decide (q = [])) (me_ports e)
  ∧ tehb_outputValid (mergeTEHB (ms s)) = e_valid (mergePort e) || negb (bool_decide (q = []))
  ∧ ms_valid s = tehb_outputValid (mergeTEHB (ms s))
  ∧ ms_data s = default (e_data (mergePort e)) (head q)
  ∧ regNotFull (mergeTEHB (ms s)) = bool_decide (q = []).

(** One execution, the token of the inputs being given. *)
Lemma merge_exec_eq clk e s :
  exec merge clk e s =
  mergeResult (let m := ms s in
    let* (m2, outs') := MergeModel_buffer (Some clk)
      (mkMergeModel (mg_size m) (e_valid (mergePort e)) (mg_tehbReady m) (e_data (mergePort e)) (mergeTEHB m))
      (mkProducerRW (ms_valid s) (e_ready (mergePort e)) (Some (ms_data s))) (Some (e_data (mergePort e))) in
    Ok (m2, setAllReady (portsIns (me_ports e)) (mg_tehbReady m), outs')).
Proof.
  destruct e as [p ports r]. unfold merge; cbn [exec]. unfold MergeModel_exec, MergeModel_step, me_ports.
  cbn [me_first me_rest ProducerData_hasValue p_chan bool_decide]. rewrite merge_full_eq. done.
Qed.

(** Splits the queue, the bits of the buffer and the environment. *)
Ltac merge_cases q s :=
  destruct q as [|? [|]], s as [[? ? [] ? [? [] [] [] [] ?]] ? ? ?];
  simpl in *; destruct_and?; simplify_eq; simpl in *; try done;
  (eexists; split; [reflexivity|simpl; repeat split; rewrite ?readys_portsIns; done]).

#[export] Instance merge_refines : Refines merge mergeSpec merge_rep merge_settled eq.
Proof.
  split; unfold merge_settled, merge_rep.
  - by intros q e s [].
  - intros q e s H. rewrite merge_exec_eq. destruct (mergePort e) as [[] d []]; merge_cases q s.
  - intros q e e' s H <-. rewrite merge_exec_eq. unfold mergeSpec; cbn [next].
    destruct (mergePort e) as [[] d []]; merge_cases q s.
  - intros q e s (_ & Hr & Hv & Hov & Hd & _). unfold merge, mergeSpec; cbn [outp observe].
    rewrite Hr, Hov, Hv, Hd. destruct (mergePort e) as [[] d r], q; done.
Qed.

Lemma merge_reset_rep e s : anyValid (me_ports e) = false →
  ∃ s0, merge_reset e s = Ok s0 ∧ merge_settled [] e (mkMergeState (ms s0) (map (λ _, true) (me_ports e))
    (ms_valid s0) (ms_data s0)).
Proof.
  intros Hv. destruct e as [p ports r]. unfold merge_reset, MergeModel_reset, MergeModel_step, me_ports in *.
  cbn [me_first me_rest ProducerData_hasValue p_chan bool_decide] in *. rewrite merge_full_eq, Hv.
  eexists; split; [reflexivity|].
  unfold merge_settled, merge_rep, mergePort, me_ports; cbn [me_first me_rest e_valid e_data]. rewrite Hv. done.
Qed.

(** * Mux *)

(** The index is a channel of integers. *)
Record MuxEnv := mkMuxEnv {
  mu_indexValid : bool; mu_index : apint; mu_first : bool * Data; mu_rest : list (bool * Data);
  mu_ready : bool }.
Definition mu_ports (e : MuxEnv) : list (bool * Data) := mu_first e :: mu_rest e.

Record MuxObs := mkMuxObs { uo_index : bool; uo_readys : list bool; uo_token : option Data }.

Record MuxState := mkMuxState {
  us : MuxModel; us_index : bool; us_readys : list bool; us_valid : bool; us_data : Data }.

Definition muxPorts (e : MuxEnv) (s : MuxState) : MuxPorts :=
  mkMuxPorts (portsIns (mu_ports e))
    (mkConsumerRW (mu_indexValid e) false (Some (Data_of_int (mu_index e))))
    (mkProducerRW (us_valid s) (mu_ready e) (Some (us_data s))).

Definition muxResult (r : res (MuxModel * MuxPorts)) : res MuxState :=
  let* (m, p) := r in
  let* d := of_option NullDeref (p_chan (mux_outs p)) in
  Ok (mkMuxState m (c_ready (mux_index p)) (map c_ready (mux_ins p)) (p_valid (mux_outs p)) d).

Definition mux : component MuxState MuxEnv MuxObs := mkComponent
  (λ clk e s, muxResult (MuxModel_exec clk (us s) (muxPorts e s)))
  (λ s, mkMuxObs (us_index s) (us_readys s) (if us_valid s then Some (us_data s) else None)).

Definition mux_reset (e : MuxEnv) (s : MuxState) : res MuxState :=
  muxResult (MuxModel_reset (us s) (muxPorts e s)).

(** The token the index selects: the index is valid, in range (as the
    [unsigned] it is converted to) and its input is valid. *)
Definition indexOf (e : MuxEnv) : Z := wrapU 32 (getZExtValue (mu_index e)).
Definition selects (e : MuxEnv) (i : nat) : bool := mu_indexValid e && (Z.of_nat i =? indexOf e).
Definition selectedToken (e : MuxEnv) : option Data :=
  if mu_indexValid e
  then match mu_ports e !! Z.to_nat (indexOf e) with Some (true, d) => Some d | _ => None end
  else None.

Definition muxPort (e : MuxEnv) : PortEnv Data :=
  mkPortEnv (bool_decide (is_Some (selectedToken e)))
    (default (snd (mu_first e)) (selectedToken e)) (mu_ready e).

(** A port that offers nothing is told it is ready. *)
Definition muxSpec : machine MuxEnv MuxObs (list Data) := mkMachine
  (λ q e, next bypassFifo q (muxPort e))
  (λ q e, let o := observe bypassFifo q (muxPort e) in
          mkMuxObs (negb (mu_indexValid e) || (e_valid (muxPort e) && o_ready o))
            (imap (λ i '(v, _), negb v || (selects e i && o_ready o)) (mu_ports e))
            (o_token o)).


(** The loop over the inputs, in closed form. *)
Lemma muxLoop_eq m iv tr ports : ∀ k,
  MuxModel_loop k (Z.of_nat m) iv tr (portsIns ports) =
  (imap (λ i '(v, d), mkConsumerRW v
      (negb v || (iv && (Z.of_nat (k + i) =? Z.of_nat m) && tr)) (Some d)) ports,
   if iv && (k <=? m)%nat
   then match ports !! (m - k)%nat with Some (true, _) => Some m | _ => None end else None).
Proof.
  induction ports as [|[v d] ports IH]; intros k.
  - simpl. by destruct (iv && _).
  - cbn [MuxModel_loop portsIns map]. fold (portsIns ports). rewrite (IH (S k)).
    cbn [c_valid]. clear IH. simpl imap. f_equal.
    + f_equal.
      * unfold c_set_ready; cbn [c_valid c_chan]. rewrite Nat.add_0_r. f_equal.
        by destruct iv, v, (Z.of_nat k =? Z.of_nat m), tr.
      * apply imap_ext. intros i [v' d'] _; simpl. by rewrite Nat.add_succ_r.
    + destruct iv; cbn [andb]; [|by rewrite andb_false_r].
      destruct (Nat.leb_spec k m) as [Hk|Hk], (Nat.leb_spec (S k) m) as [Hk'|Hk']; try lia.
      * replace (m - k)%nat with (S (m - S k)) by lia. simpl lookup.
        rewrite (proj2 (Z.eqb_neq _ _)) by lia. cbn [andb]. by repeat case_match.
      * assert (k = m) as -> by lia. rewrite Nat.sub_diag, Z.eqb_refl. by destruct v.
      * by rewrite (proj2 (Z.eqb_neq _ _)) by lia.
Qed.

Lemma indexOf_nat e : indexOf e = Z.of_nat (Z.to_nat (indexOf e)).
Proof. rewrite Z2Nat.id; [done|]. unfold indexOf. apply wrapU_range. lia. Qed.

Lemma portsIns_data ports : map ConsumerData (portsIns ports) = map (λ p, Some (snd p)) ports.
Proof. unfold portsIns. rewrite map_map. apply map_ext. by intros []. Qed.

(** The readies of the inputs when the buffer's is [tr]. *)
Definition muxReadys (e : MuxEnv) (tr : bool) : list bool :=
  imap (λ i '(v, _), negb v || (selects e i && tr)) (mu_ports e).

Lemma mux_full_eq m e s : indexNum m = indexOf e →
  ∃ ins, MuxModel_execDataFull m (muxPorts e s) =
    Ok (mkMuxModel (mux_size m) (mux_selectWidth m) (indexNum m) (e_valid (muxPort e))
          (mux_tehbReady m) (e_data (muxPort e)) (muxTEHB m),
        mkMuxPorts ins
          (c_set_ready (mux_index (muxPorts e s))
             (negb (mu_indexValid e) || (e_valid (muxPort e) && mux_tehbReady m)))
          (mux_outs (muxPorts e s)))
  ∧ map c_ready ins = muxReadys e (mux_tehbReady m).
Proof.
  intros Hn. unfold MuxModel_execDataFull, muxPorts; cbn [mux_ins mux_index mux_outs c_valid].
  rewrite portsIns_data, Hn, indexOf_nat, muxLoop_eq, Nat.sub_0_r, andb_true_r. cbn [fst].
  unfold muxPort; cbn [e_valid e_data]. unfold selectedToken.
  set (ins := imap _ (mu_ports e)). exists ins.
  assert (map c_ready ins = muxReadys e (mux_tehbReady m)) as Hins.
  { unfold ins, muxReadys, selects. apply list_eq; intros i.
    rewrite list_lookup_fmap, !list_lookup_imap. destruct (mu_ports e !! i) as [[v d]|]; simpl; [|done].
    by rewrite <-indexOf_nat. }
  split; [|done]. destruct (mu_indexValid e); [|done].
  destruct (mu_ports e !! Z.to_nat (indexOf e)) as [[[] d]|] eqn:Hi; [|done..].
  unfold at_ at 2. rewrite (list_lookup_fmap (λ p, Some (snd p))), Hi. done.
Qed.

Definition mux_rep (q : list Data) (s : MuxState) : Prop :=
  mux_tehbReady (us s) = bool_decide (q = [])
  ∧ match q with
    | [] => fullReg (muxTEHB (us s)) = false
    | [d] => fullReg (muxTEHB (us s)) = true ∧ dataReg (muxTEHB (us s)) = d
    | _ => False
    end.

Definition mux_settled (q : list Data) (e : MuxEnv) (s : MuxState) : Prop :=
  mux_rep q s
  ∧ us_index s = negb (mu_indexValid e) || (e_valid (muxPort e) && bool_decide (q = []))
  ∧ us_readys s = muxReadys e (bool_decide (q = []))
  ∧ tehb_outputValid (muxTEHB (us s)) = e_valid (muxPort e) || negb (bool_decide (q = []))
  ∧ us_valid s = tehb_outputValid (muxTEHB (us s))
  ∧ us_data s = default (e_data (muxPort e)) (head q)
  ∧ regNotFull (muxTEHB (us s)) = bool_decide (q = []).


(** What both phases of a mux compute before its buffer. *)
Lemma mux_step_eq clk e s (H : dataCastInt (Data_of_int (mu_index e)) = Ok (mu_index e)) :
  ∃ ins, map c_ready ins = muxReadys e (mux_tehbReady (us s))
  ∧ MuxModel_step clk (us s) (muxPorts e s) =
    MuxModel_buffer clk
      (mkMuxModel (mux_size (us s)) (mux_selectWidth (us s)) (indexOf e) (e_valid (muxPort e))
         (mux_tehbReady (us s)) (e_data (muxPort e)) (muxTEHB (us s)))
      (mkMuxPorts ins
         (c_set_ready (mux_index (muxPorts e s))
            (negb (mu_indexValid e) || (e_valid (muxPort e) && mux_tehbReady (us s))))
         (mkProducerRW (us_valid s) (e_ready (muxPort e)) (Some (us_data s))))
      (Some (e_data (muxPort e))).
Proof.
  unfold MuxModel_step. unfold channelConsumerData at 1. unfold muxPorts at 1.
  cbn [mux_index c_chan of_option bind]. rewrite H; cbn [bind].
  change (ProducerData_hasValue _) with true. cbv iota.
  fold (indexOf e). set (m := mkMuxModel _ _ (indexOf e) _ _ _ _).
  destruct (mux_full_eq m e s eq_refl) as (ins & -> & Hins). exists ins. split; [done|]. done.
Qed.

(** Splits the queue, the bits of the buffer and the environment. *)
Ltac mux_cases q s :=
  destruct q as [|? [|]], s as [[? ? ? ? [] ? [? [] [] [] [] ?]] ? ? ? ?];
  simpl in *; destruct_and?; simplify_eq; simpl in *; try done;
  (eexists; split; [reflexivity|simpl; repeat split; done]).

#[export] Instance mux_refines : Refines mux muxSpec mux_rep mux_settled eq.
Proof.
  split; unfold mux_settled, mux_rep.
  - by intros q e s [].
  - intros q e s H. unfold mux; cbn [exec].
    destruct (mux_step_eq (Some false) e s eq_refl) as (ins & Hins & Heq).
    unfold MuxModel_exec. rewrite Heq. clear Heq. revert Hins.
    destruct (muxPort e) as [[] d []]; intros Hins; mux_cases q s.
  - intros q e e' s H <-. unfold mux, muxSpec; cbn [exec next].
    destruct (mux_step_eq (Some true) e s eq_refl) as (ins & Hins & Heq).
    unfold MuxModel_exec. rewrite Heq. clear Heq. revert Hins.
    destruct (muxPort e) as [[] d []]; intros Hins; mux_cases q s.
  - intros q e s (_ & Hi & Hr & Hv & Hov & Hd & _). unfold mux, muxSpec; cbn [outp observe].
    rewrite Hi, Hr, Hov, Hv, Hd. fold (muxReadys e (o_ready (observe bypassFifo q (muxPort e)))).
    destruct (muxPort e) as [[] d r], q; done.
Qed.


(** * From reset *)

Lemma mux_reset_rep e s : e_valid (muxPort e) = false →
  ∃ s0, mux_reset e s = Ok s0 ∧ mux_settled [] e
    (mkMuxState (us s0) (negb (mu_indexValid e)) (muxReadys e true) (us_valid s0) (us_data s0)).
Proof.
  intros Hv. unfold mux_reset, MuxModel_reset.
  destruct (mux_step_eq None e s eq_refl) as (ins & Hins & ->). rewrite Hv.
  eexists; split; [reflexivity|]. unfold mux_settled, mux_rep. rewrite Hv; simpl.
  by rewrite orb_false_r.
Qed.

(** The first cycle after a reset without tokens. *)
Lemma trace_after_reset {S E O} (c : component S E O) (m : machine E O (list Data)) Rep Settled
    `{!Refines c m Rep Settled eq} e0 s0 s0' es :
  (∀ clk e, exec c clk e s0 = exec c clk e s0') → Settled [] e0 s0' → next m [] e0 = [] → steady eq e0 es →
  trace c s0 es = Ok (machine_trace m [] (map final es)).
Proof.
  intros Hx Hs Hn Ht. rewrite <-Hn, <-(trace_refines _ _ _ es Hs Ht).
  destruct es as [|t es]; simpl; [done|]. unfold cycle. by rewrite Hx.
Qed.

(** * Tokens taken *)

(** The tokens taken from the inputs in a cycle. *)
Definition taken (ports : list (bool * Data)) (readys : list bool) : list Data :=
  concat (zip_with (λ p (r : bool), if fst p && r then [snd p] else []) ports readys).

Definition tokenOut (r : bool) (t : option Data) : list Data :=
  if r then match t with Some d => [d] | None => [] end else [].

Definition atMostOneValid (e : MergeEnv) : Prop :=
  (length (filter (λ p, fst p = true) (me_ports e)) ≤ 1)%nat.

Lemma taken_none ports (b : bool) : anyValid ports = false → taken ports (map (λ _, b) ports) = [].
Proof.
  unfold taken. induction ports as [|[[] d] ports IH]; simpl; [done|done|]. exact IH.
Qed.

Lemma taken_first ports (b : bool) d0 :
  (length (filter (λ p, fst p = true) ports) ≤ 1)%nat →
  taken ports (map (λ _, b) ports) =
    if anyValid ports && b then [default d0 (firstToken ports)] else [].
Proof.
  induction ports as [|[[] d] ports IH]; intros Hf; [done| |].
  - rewrite filter_cons_True in Hf by done. simpl in Hf.
    assert (anyValid ports = false) as Hn.
    { destruct (filter _ ports) eqn:Hfp; [|simpl in *; lia]. clear -Hfp.
      induction ports as [|[[] d'] ports IH]; simpl; [done|by rewrite filter_cons_True in Hfp|].
      apply IH. by rewrite filter_cons_False in Hfp. }
    apply (taken_none _ b) in Hn. unfold taken in *; simpl. rewrite Hn. by destruct b.
  - rewrite filter_cons_False in Hf by done. exact (IH Hf).
Qed.


Lemma merge_run e0 s es : anyValid (me_ports e0) = false → steady eq e0 es →
  ∃ s0, merge_reset e0 s = Ok s0
  ∧ trace merge s0 es = Ok (machine_trace mergeSpec [] (map final es)).
Proof.
  intros Hv Ht. destruct (merge_reset_rep e0 s Hv) as (s0 & Hr & Hs). exists s0. split; [done|].
  refine (trace_after_reset merge mergeSpec merge_rep merge_settled e0 s0 _ es _ Hs _ Ht); [by intros clk e|].
  unfold mergeSpec, mergePort; cbn [next]. rewrite Hv. by destruct (me_ready e0).
Qed.

Lemma mux_run e0 s es : e_valid (muxPort e0) = false → steady eq e0 es →
  ∃ s0, mux_reset e0 s = Ok s0
  ∧ trace mux s0 es = Ok (machine_trace muxSpec [] (map final es)).
Proof.
  intros Hv Ht. destruct (mux_reset_rep e0 s Hv) as (s0 & Hr & Hs). exists s0. split; [done|].
  refine (trace_after_reset mux muxSpec mux_rep mux_settled e0 s0 _ es _ Hs _ Ht); [by intros clk e|].
  unfold muxSpec, bypassFifo; cbn [next]. rewrite Hv. by destruct (e_ready _).
Qed.

Lemma bypassFifo_conserves (ps : list (PortEnv Data)) :
  accepted ps (machine_trace bypassFifo [] ps)
    = delivered ps (machine_trace bypassFifo [] ps) ++ machine_run bypassFifo [] ps
  ∧ (length (machine_run bypassFifo [] ps) ≤ 1)%nat.
Proof.
  split; [apply (fifo_lossless (cap := 1) (m := bypassFifo) ps [])|apply (fifo_run_bound (cap := 1))];
    simpl; lia.
Qed.

Lemma merge_taken e q : atMostOneValid e →
  taken (me_ports e) (mo_readys (observe mergeSpec q e)) =
    accepts (mergePort e) (observe bypassFifo q (mergePort e)).
Proof. exact (taken_first (me_ports e) (bool_decide (q = [])) (snd (me_first e))). Qed.



(** * Contracts *)

(** From a reset in which no input is valid, a merge behaves as a bypass
    queue of one token, into which the first of the valid inputs goes: in every
    later cycle all its inputs see the queue's ready, and its output the
    queue's token. *)
Theorem merge_implements_bypass_queue e0 s es : anyValid (me_ports e0) = false → steady eq e0 es →
  ∃ s0, merge_reset e0 s = Ok s0
  ∧ trace merge s0 es = Ok (machine_trace mergeSpec [] (map final es)).
Proof. apply merge_run. Qed.

(** If its inputs are never valid together, a merge neither loses nor
    duplicates a token: the tokens it takes are, in order, those it delivers
    and at most one it still holds. *)
Theorem merge_lossless e0 s es : anyValid (me_ports e0) = false → steady eq e0 es → Forall atMostOneValid (map final es) →
  ∃ s0 os rest, merge_reset e0 s = Ok s0 ∧ trace merge s0 es = Ok os
  ∧ concat (zip_with (λ e o, taken (me_ports e) (mo_readys o)) (map final es) os)
    = concat (zip_with (λ e o, tokenOut (me_ready e) (mo_token o)) (map final es) os) ++ rest
  ∧ (length rest ≤ 1)%nat.
Proof.
  intros Hv Hst Hone. destruct (merge_run e0 s es Hv Hst) as (s0 & Hr & Ht).
  pose (ps := map (λ te, mergePort (final te)) es). destruct (bypassFifo_conserves ps) as [Hc Hl].
  exists s0, (machine_trace mergeSpec [] (map final es)), (machine_run bypassFifo [] ps).
  repeat split; [done..| |done]. 
  etransitivity; [|etransitivity; [exact Hc|f_equal]]; clear -Hone; subst ps; generalize (@nil Data).
  - unfold accepted. induction es as [|t es IH]; intros q; [done|].
    inversion Hone; subst. cbn [map machine_trace zip_with concat]. f_equal; [by apply merge_taken|by apply IH].
  - unfold delivered. induction es as [|t es IH]; intros q; [done|].
    inversion Hone; subst. cbn [map machine_trace zip_with concat]. f_equal. by apply IH.
Qed.

(** From a reset without a selected token, a mux behaves as a bypass
    queue of one token fed with the index and the input the index selects: the
    index and that input are taken together, when the queue has room; the
    other inputs keep their tokens. *)
Theorem mux_implements_bypass_queue e0 s es : e_valid (muxPort e0) = false → steady eq e0 es →
  ∃ s0, mux_reset e0 s = Ok s0
  ∧ trace mux s0 es = Ok (machine_trace muxSpec [] (map final es)).
Proof. apply mux_run. Qed.


End Merge.

#[local] Existing Instance Bits.lib.
#[local] Existing Instance Bits.flib.

(** Two inputs, of which a merge takes one token each in consecutive cycles. *)
Definition merge_token (n : Z) : Data := Data_of_int (apint_make 8 n false).
Definition merge_idle : MergeEnv :=
  mkMergeEnv (false, merge_token 0) [(false, merge_token 0)] true.
Definition merge_env1 : MergeEnv := mkMergeEnv (true, merge_token 3) [(false, merge_token 0)] false.
Definition merge_env2 : MergeEnv := mkMergeEnv (false, merge_token 0) [(true, merge_token 4)] true.
Definition merge_envs : list (Cycle MergeEnv) :=
  [mkCycle merge_idle [] merge_env1; mkCycle merge_env1 [] merge_env2; mkCycle merge_env2 [] merge_env2].
Definition merge_start : MergeState :=
  mkMergeState (MergeModel_new 2 (mkProducerRW false false (Some (merge_token 0)))) [] false (merge_token 0).

Lemma merge_implements_bypass_queue_witness :
  ∃ s0, merge_reset merge_idle merge_start = Ok s0
  ∧ trace merge s0 merge_envs = Ok (machine_trace mergeSpec [] (map final merge_envs)).
Proof. apply (merge_implements_bypass_queue merge_idle merge_start merge_envs); [reflexivity|repeat split]. Defined.

Lemma merge_lossless_witness :
  ∃ s0 os rest, merge_reset merge_idle merge_start = Ok s0 ∧ trace merge s0 merge_envs = Ok os
  ∧ concat (zip_with (λ e o, taken (me_ports e) (mo_readys o)) (map final merge_envs) os)
    = concat (zip_with (λ e o, tokenOut (me_ready e) (mo_token o)) (map final merge_envs) os) ++ rest
  ∧ (length rest ≤ 1)%nat.
Proof.
  apply (merge_lossless merge_idle merge_start merge_envs); [reflexivity|repeat split|].
  repeat constructor.
Defined.

(** A mux whose index selects the second input, then the first. *)
Definition mux_env (n : Z) : MuxEnv :=
  mkMuxEnv true (apint_make 1 n false) (true, merge_token 7) [(true, merge_token 9)] true.
Definition mux_idle : MuxEnv :=
  mkMuxEnv false (apint_make 1 0 false) (false, merge_token 0) [(false, merge_token 0)] true.
Definition mux_envs : list (Cycle MuxEnv) :=
  [mkCycle mux_idle [] (mux_env 1); mkCycle (mux_env 1) [mux_env 1] (mux_env 0)].
Definition mux_start : MuxState :=
  mkMuxState (MuxModel_new 2 1 (mkProducerRW false false (Some (merge_token 0)))) false [] false (merge_token 0).

Lemma mux_implements_bypass_queue_witness :
  ∃ s0, mux_reset mux_idle mux_start = Ok s0
  ∧ trace mux s0 mux_envs = Ok (machine_trace muxSpec [] (map final mux_envs)).
Proof. apply (mux_implements_bypass_queue mux_idle mux_start mux_envs); [reflexivity|repeat split]. Defined.

