(* ===== verification/SimArithThms.v ===== *)
(** The arithmetic operations: the pipeline of [GenericBinaryOpModel], the
    operations without latency, and the callbacks on integers. *)

From S2P Require Import Prelude LLVMInterface WidthNum Cycles SimSignals SimSupport SimHandshake SimArith SimModelsThms.

(** * A pipelined operation and its neighbours *)

Record BinEnv (T : Type) := mkBinEnv {
  be_lv : bool; be_l : T; be_rv : bool; be_r : T; be_ready : bool }.
Arguments mkBinEnv {T}.
Arguments be_lv {T}.
Arguments be_l {T}.
Arguments be_rv {T}.
Arguments be_r {T}.
Arguments be_ready {T}.

Section ArithThms.
Context {IL : APIntLib} {FL : APFloatLib}.

Record BinObs := mkBinObs { bo_lready : bool; bo_rready : bool; bo_token : option Data }.

Record BinState := mkBinState {
  bs : GenericBinaryOpModel; bs_l : bool; bs_r : bool; bs_valid : bool; bs_data : Data }.

(** The values of type [T] on the operands' channels, and the operation. *)
Context {T : Type} (inj : T → Data) (callback : BinaryCompFunc) (g : T → T → Data) (latency : Z).

Definition binPorts (e : BinEnv T) (s : BinState) : BinaryPorts :=
  mkBinaryPorts (mkConsumerRW (be_lv e) (bs_l s) (Some (inj (be_l e))))
    (mkConsumerRW (be_rv e) (bs_r s) (Some (inj (be_r e))))
    (mkProducerRW (bs_valid s) (be_ready e) (Some (bs_data s))).

Definition binResult (r : res (GenericBinaryOpModel * BinaryPorts)) : res BinState :=
  let* (m, p) := r in
  let* d := of_option NullDeref (p_chan (bin_result p)) in
  Ok (mkBinState m (c_ready (lhs p)) (c_ready (rhs p)) (p_valid (bin_result p)) d).

Definition binop : component BinState (BinEnv T) BinObs := mkComponent
  (λ clk e s, binResult (GenericBinaryOpModel_exec callback latency clk (bs s) (binPorts e s)))
  (λ s, mkBinObs (bs_l s) (bs_r s) (if bs_valid s then Some (bs_data s) else None)).

(** The operation is idle, has counted [k] of its cycles on the result [d], or
    offers [d]. *)
Inductive OpState : Type := Idle | Busy (k : Z) (d : Data) | Done (d : Data).

Definition opSpec : machine (BinEnv T) BinObs OpState := mkMachine
  (λ q e, match q with
    | Idle => if be_lv e && be_rv e then Busy 1 (g (be_l e) (be_r e)) else Idle
    | Busy k d => if k <? latency - 1 then Busy (k + 1) d else Done d
    | Done d => if negb (be_lv e) && negb (be_rv e) && be_ready e then Idle else Done d
    end)
  (λ q e, mkBinObs (be_ready e && be_rv e) (be_ready e && be_lv e)
    (match q with Done d => Some d | _ => None end)).

Definition op_rep (q : OpState) (s : BinState) : Prop :=
  match q with
  | Idle => hasData (bs s) = false ∧ bs_valid s = false
  | Busy k d => hasData (bs s) = true ∧ counter (bs s) = k ∧ bs_valid s = false
                ∧ tempData (bs s) = d ∧ 1 ≤ k ≤ latency - 1 ∧ (k = latency - 1 → bs_data s = d)
  | Done d => hasData (bs s) = true ∧ latency - 1 ≤ counter (bs s) ∧ bs_valid s = true ∧ bs_data s = d
  end.

Definition op_settled (q : OpState) (e : BinEnv T) (s : BinState) : Prop :=
  op_rep q s ∧ bs_l s = be_ready e && be_rv e ∧ bs_r s = be_ready e && be_lv e.

Context (Hcb : ∀ x y, callback (inj x) (inj y) = Ok (g x y)) (Hlat : 3 ≤ latency < 2 ^ 32).

Lemma lastWait_eq : lastWait latency = latency - 1.
Proof. unfold lastWait. apply wrapU_small. lia. Qed.

Lemma binop_settle e s :
  exec binop false e s = Ok (mkBinState
    (mkGenericBinaryOpModel (be_lv e && be_rv e) (counter (bs s)) (hasData (bs s)) (tempData (bs s)))
    (be_ready e && be_rv e) (be_ready e && be_lv e) (bs_valid s) (bs_data s)).
Proof.
  unfold binop, GenericBinaryOpModel_exec; cbn [exec]. rewrite (proj2 (Z.eqb_neq latency 0)) by lia.
  unfold binPorts; cbn [lhs rhs bin_result]. rewrite join2. done.
Qed.

Lemma binop_edge e s : exec binop true e s =
  binResult (let* (m, r) := GenericBinaryOpModel_edge callback latency
    (mkGenericBinaryOpModel (be_lv e && be_rv e) (counter (bs s)) (hasData (bs s)) (tempData (bs s)))
    (be_lv e) (be_rv e) (Ok (inj (be_l e))) (Ok (inj (be_r e)))
    (mkProducerRW (bs_valid s) (be_ready e) (Some (bs_data s))) in
  Ok (m, mkBinaryPorts (mkConsumerRW (be_lv e) (be_ready e && be_rv e) (Some (inj (be_l e))))
    (mkConsumerRW (be_rv e) (be_ready e && be_lv e) (Some (inj (be_r e)))) r)).
Proof.
  unfold binop, GenericBinaryOpModel_exec; cbn [exec]. rewrite (proj2 (Z.eqb_neq latency 0)) by lia.
  unfold binPorts; cbn [lhs rhs bin_result]. rewrite join2. done.
Qed.

Lemma op_edge q e s : op_rep q s →
  ∃ s', exec binop true e s = Ok s' ∧ op_rep (next opSpec q e) s'.
Proof.
  rewrite binop_edge. unfold GenericBinaryOpModel_edge. rewrite lastWait_eq. unfold opSpec; cbn [next].
  destruct q as [|k d|d], s as [[j c h t] lr rr v d0]; simpl;
    [intros [-> ->]|intros (-> & -> & -> & -> & Hk0 & Hd0)|intros (-> & Hk & -> & ->)].
  - rewrite !andb_true_r, Hcb. destruct (be_lv e && be_rv e); simpl.
    + eexists; split; [reflexivity|]. simpl. repeat split; try done; lia.
    + rewrite andb_false_r. eexists; split; [reflexivity|done].
  - rewrite !andb_false_r. simpl. destruct (Z.ltb_spec k (latency - 1)) as [Hk|Hk].
    + rewrite (wrapU_small 32 (k + 1)) by lia.
      destruct (Z.eqb_spec (k + 1) (latency - 1)); eexists; (split; [reflexivity|]);
        simpl; repeat split; try done; lia.
    + rewrite (proj2 (Z.leb_le _ _)) by done. simpl. eexists; split; [reflexivity|]. simpl.
      repeat split; auto with lia.
  - rewrite !andb_false_r, (proj2 (Z.ltb_ge _ _)), andb_false_r, !andb_true_r by done. simpl.
    destruct (negb (be_lv e) && negb (be_rv e) && be_ready e); eexists; (split; [reflexivity|]); simpl; auto.
Qed.

#[local] Instance op_refines : Refines binop opSpec op_rep op_settled eq.
Proof.
  split.
  - by intros q e s [].
  - intros q e s H. rewrite binop_settle. eexists; split; [reflexivity|].
    split; [|done]. by destruct q.
  - intros q e e1 s [H _] <-. by apply op_edge.
  - intros q e s (H & Hl & Hr). unfold binop, opSpec; cbn [outp observe]. rewrite Hl, Hr.
    f_equal. destruct q; simpl in H; [destruct H as [_ ->]|destruct H as (_ & _ & -> & _)|
      destruct H as (_ & _ & -> & ->)]; done.
Qed.


(** * Timing *)





(** While one of the operands stays valid a result is offered again and again. *)
Lemma done_trace d (es : list (BinEnv T)) : Forall (λ e, be_lv e || be_rv e = true) es → ∀ e0,
  be_lv e0 || be_rv e0 = true →
  map bo_token (machine_trace opSpec (next opSpec (Done d) e0) es) = replicate (length es) (Some d).
Proof.
  induction 1 as [|e es He _ IH]; intros e0 H0; [done|]. cbn [machine_trace map replicate length].
  assert (next opSpec (Done d) e0 = Done d) as ->
    by (unfold opSpec; simpl; by destruct (be_lv e0), (be_rv e0)).
  f_equal. by apply IH.
Qed.

End ArithThms.

Section Contracts.
Context {IL : APIntLib} {FL : APFloatLib}.


(** C40.  Once a pipelined operation offers its result, it goes on offering it,
    whether or not its consumer has taken it, for as long as one of its operands
    is valid in every cycle: back-to-back operands are not computed, and the
    old result is delivered again in each cycle.  Each clock edge sees the signals its
    cycle settled on. *)
Theorem pipelined_op_repeats_result {T} (inj : T → Data) callback g L d e0 s es :
  (∀ x y, callback (inj x) (inj y) = Ok (g x y)) → 3 ≤ L < 2 ^ 32 →
  op_settled L (Done d) e0 s → steady eq e0 es → Forall (λ e, be_lv e || be_rv e = true) (e0 :: map final es) →
  ∃ os, trace (binop inj callback L) s es = Ok os
  ∧ map bo_token os = replicate (length es) (Some d).
Proof.
  intros Hcb HL Hs Hst Hv. inversion Hv; subst.
  eexists; split; [exact (trace_refines (HR := op_refines inj callback g L Hcb HL) _ _ _ es Hs Hst)|].
  rewrite (done_trace g L) by done. by rewrite length_map.
Qed.

(** An operation of latency 1 or 2 never writes its result's data in
    [exec]: such operations ([arith.maximumf] and [arith.minimumf] have latency
    2) offer whatever the channel held. *)
Theorem short_latency_never_writes_data callback L clk m p m' p' :
  L = 1 ∨ L = 2 →
  hasData m = false ∨ 1 ≤ counter m →
  GenericBinaryOpModel_exec callback L clk m p = Ok (m', p') →
  p_chan (bin_result p') = p_chan (bin_result p) ∧ (hasData m' = false ∨ 1 ≤ counter m').
Proof.
  intros HL Hm H. unfold GenericBinaryOpModel_exec in H.
  assert ((L =? 0) = false) as HL0 by (apply Z.eqb_neq; lia). rewrite HL0 in H.
  destruct p as [l r o]; cbn [lhs rhs bin_result] in *. rewrite join2 in H. cbn in H.
  destruct clk; [|injection H as <- <-; by split].
  apply bind_ok in H as ([m2 o2] & He & H). injection H as <- <-.
  unfold GenericBinaryOpModel_edge in He. cbn in He.
  assert (lastWait L = L - 1) as Hw by (unfold lastWait; apply wrapU_small; lia).
  rewrite Hw in He. destruct m as [j c h t]; cbn in *.
  destruct (c_valid l && c_valid r && negb h).
  { apply bind_ok in He as (x & _ & He). apply bind_ok in He as (y & _ & He).
    apply bind_ok in He as (d & _ & He). injection He as <- <-. split; [done|]. right; cbn; lia. }
  destruct (Z.ltb_spec c (L - 1)) as [Hc|Hc].
  { destruct h; [lia|]. cbn in He. rewrite !andb_false_r in He. cbn in He. injection He as <- <-. auto. }
  rewrite andb_false_r in He.
  repeat case_match; injection He as <- <-; auto.
Qed.

(** An operation without latency fires when both operands and its
    consumer are there, taking the operands and passing the callback's result
    in the same cycle. *)
Theorem combinational_op_fires callback clk m p x y d :
  c_chan (lhs p) = Some x → c_chan (rhs p) = Some y → is_Some (p_chan (bin_result p)) →
  callback x y = Ok d →
  ∃ p', GenericBinaryOpModel_exec callback 0 clk m p = Ok (m, p')
  ∧ p_chan (bin_result p') = Some d
  ∧ produced (bin_result p') = c_valid (lhs p) && c_valid (rhs p) && p_ready (bin_result p)
  ∧ consumed (lhs p) (lhs p') = produced (bin_result p')
  ∧ consumed (rhs p) (rhs p') = produced (bin_result p').
Proof.
  destruct p as [l r o]; cbn [lhs rhs bin_result]. intros Hx Hy [d0 Ho] Hd.
  unfold GenericBinaryOpModel_exec, GenericBinaryOpModel_reset. change (0 =? 0) with true. cbv iota.
  cbn [lhs rhs bin_result]. rewrite join2. cbn. unfold channelConsumerData, channelProducerData. rewrite Hx, Hy. cbn.
  rewrite Hd. cbn. rewrite Ho. cbn. eexists; split; [reflexivity|].
  unfold consumed, produced; cbn. destruct (c_valid l), (c_valid r), (p_ready o); done.
Qed.


(** * Integer callbacks *)

Context {AL : APIntLaws IL}.

(** What an integer comparison should say of two operands of one width. *)
Definition compares (p : CmpIPredicate) (a b : apint) : bool :=
  match p with
  | cmpi_eq => apint_uval a =? apint_uval b
  | cmpi_ne => negb (apint_uval a =? apint_uval b)
  | cmpi_slt => apint_sval a <? apint_sval b
  | cmpi_sle => apint_sval a <=? apint_sval b
  | cmpi_sgt => apint_sval b <? apint_sval a
  | cmpi_sge => apint_sval b <=? apint_sval a
  | cmpi_ult => apint_uval a <? apint_uval b
  | cmpi_ule => apint_uval a <=? apint_uval b
  | cmpi_ugt => apint_uval b <? apint_uval a
  | cmpi_uge => apint_uval b <=? apint_uval a
  end.

Lemma pow_le_64 w : w ≤ 64 → 2 ^ w ≤ 2 ^ 64.
Proof. intros. apply Z.pow_le_mono_r; lia. Qed.

Lemma sval_64 a : 0 < apint_width a ≤ 64 → - 2 ^ 63 ≤ apint_sval a < 2 ^ 63.
Proof.
  intros Hw. unfold apint_sval. pose proof (wrapS_range (apint_width a) (apint_uval a) ltac:(lia)).
  pose proof (Z.pow_le_mono_r 2 (apint_width a - 1) 63 ltac:(lia) ltac:(lia)). lia.
Qed.

Lemma getZExtValue_64 a : apint_width a ≤ 64 → getZExtValue a = apint_uval a.
Proof.
  intros Hw. apply getZExtValue_ok. pose proof (apint_uval_range a). pose proof (pow_le_64 _ Hw). lia.
Qed.

Lemma getSExtValue_64 a : 0 < apint_width a ≤ 64 → getSExtValue a = apint_sval a.
Proof. intros Hw. apply getSExtValue_ok; [lia|by apply sval_64]. Qed.

(** The ordering comparisons of integers of up to 64 bits compute what
    their predicates say; [eq] and [ne] do not look at the values, and answer
    false and true for any operands. *)
Theorem cmpi_computes p a b :
  0 < apint_width a ≤ 64 → apint_width b = apint_width a →
  cmpICallback p (Data_of_int a) (Data_of_int b) =
    Ok (comp (match p with cmpi_eq => false | cmpi_ne => true | _ => compares p a b end)).
Proof.
  intros Ha Hb. destruct p; try reflexivity; unfold cmpICallback, intCompareZ, compares;
    cbn; rewrite ?(getZExtValue_64 a), ?(getZExtValue_64 b), ?(getSExtValue_64 a),
      ?(getSExtValue_64 b), ?Z.geb_leb, ?Z.gtb_ltb by lia; done.
Qed.

(** A sign extension keeps the signed value and a zero extension the
    unsigned one, for operands of up to 63 bits and a wider result. *)
Theorem extensions_keep_value a w :
  0 < apint_width a ≤ 63 → apint_width a < w →
  ∃ s u, extSICallback (Data_of_int a) w = Ok (Data_of_int s)
  ∧ extUICallback (Data_of_int a) w = Ok (Data_of_int u)
  ∧ apint_width s = w ∧ apint_width u = w
  ∧ apint_sval s = apint_sval a ∧ apint_uval u = apint_uval a.
Proof.
  intros Ha Hw. unfold extSICallback, extUICallback, asUInt64. cbn.
  rewrite getSExtValue_64, getZExtValue_64 by lia. do 2 eexists. do 2 (split; [reflexivity|]).
  pose proof (apint_uval_range a) as Hu. pose proof (sval_64 a ltac:(lia)) as Hs64.
  pose proof (wrapS_range (apint_width a) (apint_uval a) ltac:(lia)) as Hs. fold (apint_sval a) in Hs.
  assert (2 ^ apint_width a ≤ 2 ^ (w - 1)) as Hp by (apply Z.pow_le_mono_r; lia).
  assert (2 ^ (apint_width a - 1) ≤ 2 ^ (w - 1)) as Hp1 by (apply Z.pow_le_mono_r; lia).
  assert (2 ^ apint_width a ≤ 2 ^ 63) as Hp2 by (apply Z.pow_le_mono_r; lia).
  assert (2 ^ w = 2 * 2 ^ (w - 1)) as Hp3 by (rewrite <-Z.pow_succ_r by lia; f_equal; lia).
  assert (∀ z, - 2 ^ 63 ≤ z < 2 ^ 63 → wrapS 64 (wrapU 64 z) = z) as H64
    by (intros z Hz; rewrite wrapS_wrapU; apply wrapS_small; lia).
  assert (∀ z, 0 ≤ wrapU 64 z < 2 ^ 64) as Hr by (intros z; apply wrapU_range; lia).
  assert (0 < 2 ^ (apint_width a - 1)) by (apply Z.pow_pos_nonneg; lia).
  rewrite !apint_make_width by lia. repeat split.
  - unfold apint_sval at 1. rewrite apint_make_width by lia.
    rewrite apint_make_signed; [|lia|apply Hr|rewrite H64; lia].
    rewrite H64 by lia. rewrite wrapS_wrapU. apply wrapS_small; lia.
  - rewrite apint_make_signed; [|lia|apply Hr|rewrite H64; lia].
    rewrite H64 by lia. apply wrapU_small. lia.
Qed.

(** A truncation passes the low bits of its operand, combinationally. *)
Theorem trunci_keeps_low_bits w clk ins outs a :
  c_chan ins = Some (Data_of_int a) → is_Some (p_chan outs) → 0 ≤ w ≤ apint_width a →
  ∃ ins' outs' r, TruncIModel_exec clk w ins outs = Ok (ins', outs')
  ∧ p_chan outs' = Some (Data_of_int r)
  ∧ apint_width r = w ∧ apint_uval r = wrapU w (apint_uval a)
  ∧ consumed ins ins' = produced outs'.
Proof.
  intros Hi [d Ho] Hw. unfold TruncIModel_exec, TruncIModel_reset, channelConsumerData, channelProducerData.
  rewrite Hi, Ho. cbn. do 3 eexists. split; [reflexivity|]. split; [reflexivity|].
  rewrite apint_trunc_width, apint_trunc_uval by lia. repeat split.
  unfold consumed, produced; cbn. by destruct (c_valid ins), (p_ready outs).
Qed.

End Contracts.

#[local] Existing Instance Bits.lib.
#[local] Existing Instance Bits.flib.
#[local] Existing Instance Bits.laws.

(** [arith.muli] on bytes. *)
Definition mul_inj (n : Z) : Data := byte n.
Definition mul_spec (x y : Z) : Data :=
  Data_of_int (apint_mul (apint_make 8 x false) (apint_make 8 y false)).
Definition mul_env (v : bool) : BinEnv Z := mkBinEnv v 6 v 7 true.
Definition mul_done : BinState :=
  mkBinState (mkGenericBinaryOpModel true 3 true (byte 42)) true true true (byte 42).
Definition mul_again : Cycle (BinEnv Z) := mkCycle (mul_env true) [] (mul_env true).


Lemma pipelined_op_repeats_result_witness :
  ∃ os, trace (binop mul_inj (intBinary apint_mul) 4) mul_done [mul_again; mul_again] = Ok os
  ∧ map bo_token os = replicate 2 (Some (byte 42)).
Proof.
  apply (pipelined_op_repeats_result mul_inj (intBinary apint_mul) mul_spec 4 (byte 42) (mul_env true)
    mul_done [mul_again; mul_again]).
  - reflexivity.
  - lia.
  - repeat split. simpl. lia.
  - repeat split.
  - repeat constructor.
Defined.

(** [arith.maximumf] on an idle channel that holds 0. *)
Definition max_ports : BinaryPorts :=
  mkBinaryPorts (mkConsumerRW true true (Some (Data_of_float 20)))
    (mkConsumerRW true true (Some (Data_of_float 10))) (mkProducerRW false true (Some (Data_of_float 0))).

Definition max_after : res (GenericBinaryOpModel * BinaryPorts) :=
  GenericBinaryOpModel_exec (floatBinary maxnum) 2 true (GenericBinaryOpModel_new 32) max_ports.

Lemma short_latency_never_writes_data_witness :
  ∃ m' p', max_after = Ok (m', p')
  ∧ p_chan (bin_result p') = Some (Data_of_float 0) ∧ (hasData m' = false ∨ 1 ≤ counter m').
Proof.
  do 2 eexists. split; [reflexivity|].
  refine (short_latency_never_writes_data (floatBinary maxnum) 2 true (GenericBinaryOpModel_new 32) max_ports
    _ _ (or_intror eq_refl) (or_introl eq_refl) eq_refl).
Defined.

Definition add_ports : BinaryPorts := mkBinaryPorts (consumer true 200) (consumer true 100) (producer true).

Lemma combinational_op_fires_witness :
  ∃ p', GenericBinaryOpModel_exec (intBinary apint_add) 0 false (GenericBinaryOpModel_new 8) add_ports
          = Ok (GenericBinaryOpModel_new 8, p')
  ∧ p_chan (bin_result p') = Some (Data_of_int (apint_add (apint_make 8 200 false) (apint_make 8 100 false)))
  ∧ produced (bin_result p') = true
  ∧ consumed (lhs add_ports) (lhs p') = produced (bin_result p')
  ∧ consumed (rhs add_ports) (rhs p') = produced (bin_result p').
Proof.
  apply (combinational_op_fires (intBinary apint_add) false (GenericBinaryOpModel_new 8) add_ports
    (byte 200) (byte 100)); [reflexivity|reflexivity|by eexists|reflexivity].
Defined.

Lemma cmpi_computes_witness :
  cmpICallback cmpi_slt (byte 200) (byte 100) =
    Ok (comp (compares cmpi_slt (apint_make 8 200 false) (apint_make 8 100 false))).
Proof. apply (cmpi_computes cmpi_slt (apint_make 8 200 false) (apint_make 8 100 false)); [by split|done]. Defined.

Lemma extensions_keep_value_witness :
  ∃ s u, extSICallback (byte 200) 16 = Ok (Data_of_int s)
  ∧ extUICallback (byte 200) 16 = Ok (Data_of_int u)
  ∧ apint_width s = 16 ∧ apint_width u = 16
  ∧ apint_sval s = apint_sval (apint_make 8 200 false)
  ∧ apint_uval u = apint_uval (apint_make 8 200 false).
Proof. apply (extensions_keep_value (apint_make 8 200 false) 16); [by split|done]. Defined.

Lemma trunci_keeps_low_bits_witness :
  ∃ ins' outs' r, TruncIModel_exec false 4 (consumer true 200) (producer true) = Ok (ins', outs')
  ∧ p_chan outs' = Some (Data_of_int r)
  ∧ apint_width r = 4 ∧ apint_uval r = wrapU 4 (apint_uval (apint_make 8 200 false))
  ∧ consumed (consumer true 200) ins' = produced outs'.
Proof.
  apply (trunci_keeps_low_bits 4 false (consumer true 200) (producer true) (apint_make 8 200 false));
    [reflexivity|by eexists|by split].
Defined.
