(* ===== verification/BoolExpr.v ===== *)
(** Boolean expressions: the objects, their printing, their variables, their
    evaluation and the propagation of negations (BoolExpression.h and
    BoolExpression.cpp, [dynamatic::experimental::boolean]).

    An object is one of the three classes, with the [type] member all of them
    have; a cast to a class the object is not of is the fault [BadCast], a
    method called on a null pointer [NullDeref].  An operator owns its operands
    (its destructor deletes them), so an expression is a tree: a method that
    changes it in place is a function from the tree to the changed tree. *)

From S2P Require Import Prelude StdString.

Inductive ExpressionType : Type := Variable_ | Or | And | Not | Zero | One | End_.

Inductive BoolExpression : Type :=
| nullptr
| SingleCond (type : ExpressionType) (id : string) (isNegated : bool)
| Operator (type : ExpressionType) (left right : BoolExpression)
| PlainExpression (type : ExpressionType).

#[export] Instance ExpressionType_eq_dec : EqDecision ExpressionType.
Proof. solve_decision. Defined.
#[export] Instance BoolExpression_eq_dec : EqDecision BoolExpression.
Proof. solve_decision. Defined.

Definition isNull (e : BoolExpression) : bool :=
  match e with nullptr => true | _ => false end.

Definition typeOf (e : BoolExpression) : res ExpressionType :=
  match e with
  | nullptr => Bad NullDeref
  | SingleCond t _ _ | Operator t _ _ | PlainExpression t => Ok t
  end.

(** * Construction *)

Definition boolZero : BoolExpression := SingleCond Zero "0" false.
Definition boolOne : BoolExpression := SingleCond One "1" false.
Definition boolVar (id : string) : BoolExpression := SingleCond Variable_ id false.
Definition boolAnd (exp1 exp2 : BoolExpression) : BoolExpression := Operator And exp1 exp2.
Definition boolOr (exp1 exp2 : BoolExpression) : BoolExpression := Operator Or exp1 exp2.

(** The virtual [deepCopy]: [Operator]'s and [SingleCond]'s overrides, and the
    base class's, which casts by [type]. *)
Fixpoint deepCopy (e : BoolExpression) : res BoolExpression :=
  match e with
  | nullptr => Bad NullDeref
  | SingleCond t id neg => Ok (SingleCond t id neg)
  | Operator t l r => let* l' := deepCopy l in let* r' := deepCopy r in Ok (Operator t l' r')
  | PlainExpression t =>
      match t with End_ => Ok (SingleCond End_ EmptyString false) | _ => Bad BadCast end
  end.

(** * Printing *)

(** What the switch of [toString] appends for an object of a type. *)
Definition toStringNode (e : BoolExpression) : res string :=
  match e with
  | nullptr => Bad NullDeref
  | SingleCond Variable_ id neg => Ok ((if neg then "~" else EmptyString) ++ id)%string
  | SingleCond One _ _ | Operator One _ _ | PlainExpression One => Ok "1"%string
  | SingleCond Zero _ _ | Operator Zero _ _ | PlainExpression Zero => Ok "0"%string
  | SingleCond Or _ _ | SingleCond And _ _ | PlainExpression Or | PlainExpression And => Bad BadCast
  | Operator Or _ _ => Ok " + "%string
  | Operator And _ _ => Ok " . "%string
  | Operator Variable_ _ _ | PlainExpression Variable_ => Bad BadCast
  | _ => Ok EmptyString
  end.

Definition isAndOr (t : ExpressionType) : bool :=
  match t with And | Or => true | _ => false end.

Fixpoint toString (e : BoolExpression) : res string :=
  match e with
  | Operator t l r =>
      if isAndOr t then
        let* sl := if isNull l then Ok EmptyString else toString l in
        let* s := toStringNode e in
        let* sr := if isNull r then Ok EmptyString else toString r in
        Ok (sl ++ s ++ sr)%string
      else toStringNode e
  | _ => toStringNode e
  end.

Definition sopToString : BoolExpression → res string := toString.

(** * Variables *)

(** The recursion on the left operands and the loop down the right ones. *)
Fixpoint getVariablesRec (e : BoolExpression) (s : list string) : res (list string) :=
  match e with
  | nullptr => Bad NullDeref
  | SingleCond t id _ =>
      match t with
      | Variable_ => Ok (set_insert id s)
      | And | Or => Bad BadCast
      | _ => Ok s
      end
  | Operator t l r =>
      if isAndOr t then
        let* s1 := if isNull l then Ok s else getVariablesRec l s in
        if isNull r then Ok s1 else getVariablesRec r s1
      else match t with Variable_ => Bad BadCast | _ => Ok s end
  | PlainExpression t =>
      match t with Variable_ | And | Or => Bad BadCast | _ => Ok s end
  end.

Definition getVariables (e : BoolExpression) : res (list string) := getVariablesRec e [].

(** [containsMintern] *)
Fixpoint containsMintern (e : BoolExpression) (toSearch : string) : res bool :=
  match e with
  | nullptr => Bad NullDeref
  | SingleCond t id _ =>
      match t with
      | Variable_ => Ok (String.eqb toSearch id)
      | And | Or => Bad BadCast
      | _ => Ok false
      end
  | Operator t l r =>
      if isAndOr t then
        let* a := containsMintern l toSearch in
        if a : bool then Ok true else containsMintern r toSearch
      else match t with Variable_ => Bad BadCast | _ => Ok false end
  | PlainExpression t =>
      match t with Variable_ | And | Or => Bad BadCast | _ => Ok false end
  end.

(** * Evaluation *)

(** [row[id]] of a [std::map<std::string, bool>]: false for an absent key. *)
Definition rowValue (row : gmap string bool) (id : string) : bool := default false (row !! id).

Fixpoint evaluate (e : BoolExpression) (row : gmap string bool) : res bool :=
  match e with
  | nullptr => Bad NullDeref
  | SingleCond t id neg =>
      match t with
      | Variable_ => Ok ((neg && negb (rowValue row id)) || (negb neg && rowValue row id))
      | One => Ok true
      | Or | And | Not => Bad BadCast
      | _ => Ok false
      end
  | Operator t l r =>
      match t with
      | Variable_ => Bad BadCast
      | One => Ok true
      | Or =>
          let* a := if isNull l then Ok false else evaluate l row in
          let* b := if isNull r then Ok false else evaluate r row in
          Ok (a || b)
      | And =>
          let* a := if isNull l then Ok true else evaluate l row in
          let* b := if isNull r then Ok true else evaluate r row in
          Ok (a && b)
      | Not => let* b := evaluate r row in Ok (negb b)
      | _ => Ok false
      end
  | PlainExpression t =>
      match t with
      | One => Ok true
      | Variable_ | Or | And | Not => Bad BadCast
      | _ => Ok false
      end
  end.

(** * Propagation of negations *)

(** The constants a negation exchanges. *)
Definition flipConstant (t : ExpressionType) : ExpressionType :=
  match t with One => Zero | Zero => One | _ => t end.

Fixpoint propagateNegation (e : BoolExpression) (negated : bool) : res BoolExpression :=
  match e with
  | nullptr => Bad NullDeref
  | SingleCond t id neg =>
      match t with
      | Not | And | Or => Bad BadCast
      | Variable_ => Ok (SingleCond Variable_ id (if negated then negb neg else neg))
      | _ => Ok (SingleCond (if negated then flipConstant t else t) id neg)
      end
  | Operator t l r =>
      match t with
      | Not => if isNull r then Ok e else propagateNegation r (negb negated)
      | And | Or =>
          let t' := if negated then match t with And => Or | _ => And end else t in
          let* l' := if isNull l then Ok l else propagateNegation l negated in
          let* r' := if isNull r then Ok r else propagateNegation r negated in
          Ok (Operator t' l' r')
      | Variable_ => if negated then Bad BadCast else Ok e
      | _ => Ok (Operator (if negated then flipConstant t else t) l r)
      end
  | PlainExpression t =>
      match t with
      | Not | And | Or => Bad BadCast
      | Variable_ => if negated then Bad BadCast else Ok e
      | _ => Ok (PlainExpression (if negated then flipConstant t else t))
      end
  end.

Definition boolNegate (e : BoolExpression) : res BoolExpression := propagateNegation e true.

(** * Well-formed expressions and what they denote *)

(** The objects the library builds: operators with operands and leaves of a
    class that fits their type; a negation has no left operand. *)
Fixpoint wf (e : BoolExpression) : bool :=
  match e with
  | nullptr => false
  | SingleCond t _ _ => match t with Variable_ | Zero | One => true | _ => false end
  | PlainExpression t => match t with Zero | One => true | _ => false end
  | Operator t l r =>
      match t with
      | And | Or => wf l && wf r
      | Not => isNull l && wf r
      | _ => false
      end
  end.

(** No negation but those of the variables. *)
Fixpoint nnf (e : BoolExpression) : bool :=
  match e with
  | Operator t l r => negb (bool_decide (t = Not)) && nnf l && nnf r
  | _ => true
  end.

(** The value of an expression under an assignment. *)
Fixpoint den (ρ : string → bool) (e : BoolExpression) : bool :=
  match e with
  | nullptr => false
  | SingleCond Variable_ id neg => xorb neg (ρ id)
  | SingleCond t _ _ | PlainExpression t => bool_decide (t = One)
  | Operator Or l r => den ρ l || den ρ r
  | Operator And l r => den ρ l && den ρ r
  | Operator Not _ r => negb (den ρ r)
  | Operator _ _ _ => false
  end.

(** The variables of an expression, in any order. *)
Fixpoint occurs (x : string) (e : BoolExpression) : Prop :=
  match e with
  | SingleCond Variable_ id _ => x = id
  | Operator _ l r => occurs x l ∨ occurs x r
  | _ => False
  end.

Lemma wf_not_null e : wf e = true → isNull e = false.
Proof. by destruct e. Qed.

(** Splits the operands of a well-formed operator. *)
Ltac wf_inv := repeat match goal with
  | H : _ && _ = true |- _ => apply andb_true_iff in H as [? ?]
  | H : negb (bool_decide (_ = _)) = true |- _ => apply negb_true_iff, bool_decide_eq_false in H
  | H : isNull ?e = true |- _ => destruct e; try discriminate H; clear H
  | H : wf ?e = true |- context [isNull ?e] => rewrite (wf_not_null e H)
  end.

Lemma evaluate_den e row : wf e = true → evaluate e row = Ok (den (rowValue row) e).
Proof.
  induction e as [|t id neg|t l IHl r IHr|t]; simpl; intros Hw; try done.
  - destruct t; try done. by destruct neg, (rowValue row id).
  - destruct t; try done; wf_inv.
    + by rewrite IHl, IHr.
    + by rewrite IHl, IHr.
    + by rewrite IHr.
  - by destruct t.
Qed.

Lemma den_ext ρ ρ' e : (∀ x, occurs x e → ρ x = ρ' x) → den ρ e = den ρ' e.
Proof.
  induction e as [|t id neg|t l IHl r IHr|t]; simpl; intros H; try done.
  - destruct t; try done. by rewrite H.
  - destruct t; try done; rewrite ?IHl, ?IHr by auto; done.
Qed.

(** What [getVariablesRec] adds to the set. *)
Lemma getVariablesRec_spec e : wf e = true → nnf e = true → ∀ s, ordered s →
  ∃ s', getVariablesRec e s = Ok s' ∧ ordered s' ∧ ∀ x, x ∈ s' ↔ occurs x e ∨ x ∈ s.
Proof.
  induction e as [|t id neg|t l IHl r IHr|t]; simpl; intros Hw Hn s Hs; try done.
  - destruct t; try done; eexists; (split; [done|]); (split; [auto with dyn|]); intros x;
      rewrite ?set_insert_elem; naive_solver.
  - wf_inv. destruct t; try done; simpl; wf_inv.
    all: destruct (IHl ltac:(assumption) ltac:(assumption) s Hs) as (s1 & -> & Hs1 & H1'); simpl.
    all: destruct (IHr ltac:(assumption) ltac:(assumption) s1 Hs1) as (s2 & -> & Hs2 & H2'); eexists; split; [done|]; split; [done|].
    all: intros x; rewrite H2', H1'; naive_solver.
  - destruct t; try done; eexists; (split; [done|]); split; naive_solver.
Qed.

Lemma getVariables_spec e : wf e = true → nnf e = true →
  ∃ vars, getVariables e = Ok vars ∧ ordered vars ∧ ∀ x, x ∈ vars ↔ occurs x e.
Proof.
  intros Hw Hn. destruct (getVariablesRec_spec e Hw Hn []) as (s & Hs & Ho & He); [constructor|].
  exists s. repeat split; try done; intros H; [apply He in H as [|H]; [done|by inversion H]|by apply He; left].
Qed.

(** On a well-formed expression without [Not] nodes, [evaluate] succeeds,
    and its value depends on the variables [getVariables] lists and on no other. *)
Theorem evaluate_by_variables e row row' :
  wf e = true → nnf e = true →
  ∃ vars v, getVariables e = Ok vars ∧ evaluate e row = Ok v
  ∧ ((∀ x, x ∈ vars → rowValue row x = rowValue row' x) → evaluate e row' = Ok v).
Proof.
  intros Hw Hn. destruct (getVariables_spec e Hw Hn) as (vars & Hv & _ & Ho).
  exists vars, (den (rowValue row) e). split; [done|]. rewrite !evaluate_den by done. split; [done|].
  intros H. f_equal. apply den_ext. intros x Hx. symmetry. by apply H, Ho.
Qed.

Lemma evaluate_by_variables_witness :
  ∃ vars v, getVariables (Operator And (boolVar "a") (boolVar "b")) = Ok vars
  ∧ evaluate (Operator And (boolVar "a") (boolVar "b")) {["a"%string := true]} = Ok v
  ∧ ((∀ x, x ∈ vars → rowValue {["a"%string := true]} x = rowValue {["a"%string := true; "c"%string := true]} x) →
     evaluate (Operator And (boolVar "a") (boolVar "b")) {["a"%string := true; "c"%string := true]} = Ok v).
Proof. apply evaluate_by_variables; reflexivity. Defined.

Lemma propagateNegation_spec e : wf e = true → ∀ b,
  ∃ e', propagateNegation e b = Ok e' ∧ wf e' = true ∧ nnf e' = true
  ∧ ∀ ρ, den ρ e' = xorb b (den ρ e).
Proof.
  induction e as [|t id neg|t l IHl r IHr|t]; simpl; intros Hw b; try done.
  - destruct t; try done; eexists; (split; [done|]); destruct b; repeat split; intros ρ; simpl; try done.
    by destruct neg, (ρ id).
  - destruct t; try done; wf_inv.
    + destruct (IHl H b) as (l' & -> & Hwl & Hnl & Hl), (IHr H0 b) as (r' & -> & Hwr & Hnr & Hr).
      simpl. eexists; split; [done|]. destruct b; simpl; rewrite Hwl, Hnl, Hwr, Hnr; repeat split;
        intros ρ; rewrite Hl, Hr; simpl; by destruct (den ρ l), (den ρ r).
    + destruct (IHl H b) as (l' & -> & Hwl & Hnl & Hl), (IHr H0 b) as (r' & -> & Hwr & Hnr & Hr).
      simpl. eexists; split; [done|]. destruct b; simpl; rewrite Hwl, Hnl, Hwr, Hnr; repeat split;
        intros ρ; rewrite Hl, Hr; simpl; by destruct (den ρ l), (den ρ r).
    + destruct (IHr H0 (negb b)) as (r' & -> & Hwr & Hnr & Hr).
      eexists; split; [done|]. repeat split; try done. intros ρ. rewrite Hr. by destruct b, (den ρ r).
  - destruct t; try done; eexists; (split; [done|]); by destruct b.
Qed.

(** C39.  Propagating negations leaves no [Not] node and no ill-formed object, and
    keeps the value of the expression, complemented if [negated]. *)
Theorem propagateNegation_correct e b row : wf e = true →
  ∃ e' v, propagateNegation e b = Ok e' ∧ wf e' = true ∧ nnf e' = true
  ∧ evaluate e row = Ok v ∧ evaluate e' row = Ok (xorb b v).
Proof.
  intros Hw. destruct (propagateNegation_spec e Hw b) as (e' & He & Hw' & Hn' & Hd).
  exists e', (den (rowValue row) e). by rewrite !evaluate_den, Hd by done.
Qed.

Lemma propagateNegation_correct_witness :
  ∃ e' v, propagateNegation (Operator And (boolVar "a") (Operator Not nullptr (boolVar "b"))) true = Ok e'
  ∧ wf e' = true ∧ nnf e' = true
  ∧ evaluate (Operator And (boolVar "a") (Operator Not nullptr (boolVar "b"))) {["a"%string := true]} = Ok v
  ∧ evaluate e' {["a"%string := true]} = Ok (xorb true v).
Proof. apply propagateNegation_correct. reflexivity. Defined.
