(* ===== verification/BoolParser.v ===== *)
(** The lexer and the operator-precedence parser of boolean expressions
    (Lexer.cpp, Parser.cpp and [BoolExpression::parseSop]).  A failed parse is
    the null pointer, as in the program; a fault is an exception or undefined
    behaviour. *)

From stdpp Require Import relations.
From Stdlib Require Import Ascii.
From S2P Require Import Prelude StdString BoolExpr.

(** * Lexer *)

Inductive TokenType : Type :=
| NOT_TOKEN | AND_TOKEN | OR_TOKEN | LPAREN_TOKEN | RPAREN_TOKEN | VARIABLE_TOKEN | END_TOKEN.

#[export] Instance TokenType_eq_dec : EqDecision TokenType.
Proof. solve_decision. Defined.

Record Token := mkToken { lexeme : string; tokenType : TokenType }.

(** The default constructor. *)
Definition Token_default : Token := mkToken EmptyString END_TOKEN.

Record LexicalAnalyzer := mkLexer { tokenList : list Token; lex_index : nat; expression : string }.

Definition LexicalAnalyzer_new (exp : string) : LexicalAnalyzer := mkLexer [] 0 exp.

Definition code (c : Ascii.ascii) : N := Ascii.N_of_ascii c.

(** The classes of [ctype.h] in the C locale. *)
Definition isspace (c : Ascii.ascii) : bool :=
  (code c =? 32)%N || ((9 <=? code c)%N && (code c <=? 13)%N).
Definition isdigit (c : Ascii.ascii) : bool := (48 <=? code c)%N && (code c <=? 57)%N.
Definition isalpha (c : Ascii.ascii) : bool :=
  ((65 <=? code c)%N && (code c <=? 90)%N) || ((97 <=? code c)%N && (code c <=? 122)%N).

(** The digits at the head of a string, and what follows them. *)
Fixpoint spanDigits (s : string) : string * string :=
  match s with
  | String c s' => if isdigit c then let (a, b) := spanDigits s' in (String c a, b) else (EmptyString, s)
  | EmptyString => (EmptyString, EmptyString)
  end.

(** The switch on a character that is neither a space nor a letter. *)
Definition symbolType (c : Ascii.ascii) : option TokenType :=
  match c with
  | "."%char | "&"%char => Some AND_TOKEN
  | "+"%char | "|"%char => Some OR_TOKEN
  | "~"%char | "!"%char => Some NOT_TOKEN
  | "("%char => Some LPAREN_TOKEN
  | ")"%char => Some RPAREN_TOKEN
  | "0"%char | "1"%char => Some VARIABLE_TOKEN
  | _ => None
  end.

(** The loop of [tokenize] over what is left of the expression; [None] is
    [failure()]. *)
Fixpoint tokenizeLoop (fuel : nat) (s : string) : res (option (list Token)) :=
  match fuel with
  | O => Bad NoFuel
  | S fuel =>
      match s with
      | EmptyString => Ok (Some [])
      | String c s' =>
          if isspace c then tokenizeLoop fuel s'
          else if isalpha c then
            let (digits, rest) := spanDigits s' in
            let* ts := tokenizeLoop fuel rest in
            Ok (cons (mkToken (String c digits) VARIABLE_TOKEN) <$> ts)
          else
            match symbolType c with
            | Some t =>
                let* ts := tokenizeLoop fuel s' in
                Ok (cons (mkToken (String c EmptyString) t) <$> ts)
            | None => Ok None
            end
      end
  end.

(** [tokenize], the success being the lexer with its tokens. *)
Definition tokenize (l : LexicalAnalyzer) : res (option LexicalAnalyzer) :=
  let* ts := tokenizeLoop (S (String.length (expression l))) (expression l) in
  Ok (match ts with
      | Some ts => Some (mkLexer (tokenList l ++ ts ++ [Token_default]) (lex_index l) (expression l))
      | None => None
      end).

Definition getToken (l : LexicalAnalyzer) : Token * LexicalAnalyzer :=
  match tokenList l !! lex_index l with
  | Some t => (t, mkLexer (tokenList l) (S (lex_index l)) (expression l))
  | None => (Token_default, l)
  end.

(** [peek(i)], [i] at least 1. *)
Definition peek (l : LexicalAnalyzer) (i : nat) : Token :=
  default Token_default (tokenList l !! (lex_index l + i - 1)%nat).

(** * Parser *)

(** An expression, or a token and no expression. *)
Record StackNode := mkStackNode { sn_expr : BoolExpression; sn_term : option Token }.

Definition constructTermStackNode (t : Token) : StackNode := mkStackNode nullptr (Some t).
Definition exprStackNode (e : BoolExpression) : StackNode := mkStackNode e None.

(** [term.value()] *)
Definition termOf (s : StackNode) : res Token := of_option NullDeref (sn_term s).

Inductive Compare : Type := LESS_THAN | GREATER_THAN | EQUAL | ERROR | ACCEPT.

#[export] Instance Compare_eq_dec : EqDecision Compare.
Proof. solve_decision. Defined.

Definition PRECEDENCE_TABLE : list (list Compare) :=
  [[GREATER_THAN; GREATER_THAN; GREATER_THAN; LESS_THAN; GREATER_THAN; LESS_THAN; GREATER_THAN];
   [LESS_THAN; GREATER_THAN; GREATER_THAN; LESS_THAN; GREATER_THAN; LESS_THAN; GREATER_THAN];
   [LESS_THAN; LESS_THAN; GREATER_THAN; LESS_THAN; GREATER_THAN; LESS_THAN; GREATER_THAN];
   [LESS_THAN; LESS_THAN; LESS_THAN; LESS_THAN; EQUAL; LESS_THAN; ERROR];
   [GREATER_THAN; GREATER_THAN; GREATER_THAN; ERROR; GREATER_THAN; ERROR; GREATER_THAN];
   [GREATER_THAN; GREATER_THAN; GREATER_THAN; ERROR; GREATER_THAN; ERROR; GREATER_THAN];
   [LESS_THAN; LESS_THAN; LESS_THAN; LESS_THAN; ERROR; LESS_THAN; ACCEPT]].

(** [static_cast<int>(tokenType)] *)
Definition tokenIndex (t : TokenType) : nat :=
  match t with
  | NOT_TOKEN => 0 | AND_TOKEN => 1 | OR_TOKEN => 2 | LPAREN_TOKEN => 3 | RPAREN_TOKEN => 4
  | VARIABLE_TOKEN => 5 | END_TOKEN => 6
  end.

Definition precedence (t1 t2 : TokenType) : Compare :=
  nth (tokenIndex t2) (nth (tokenIndex t1) PRECEDENCE_TABLE []) ERROR.

Definition constructNodeOperator (operate s1 s2 : StackNode) : res BoolExpression :=
  let* t := termOf operate in
  let oo := if bool_decide (tokenType t = AND_TOKEN) then And else Or in
  Ok (Operator oo (sn_expr s1) (sn_expr s2)).

Definition constructNodeNegator (s1 : StackNode) : BoolExpression := Operator Not nullptr (sn_expr s1).

Definition constructOperatorStackNode (operate s1 s2 : StackNode) : res StackNode :=
  let* e := constructNodeOperator operate s1 s2 in Ok (exprStackNode e).

Definition constructNegatorStackNode (s1 : StackNode) : StackNode := exprStackNode (constructNodeNegator s1).

Definition termToExpr (s : StackNode) : res StackNode :=
  let* t := termOf s in
  let ty := if String.eqb (lexeme t) "0" then Zero else Variable_ in
  let ty := if String.eqb (lexeme t) "1" then One else ty in
  Ok (exprStackNode (SingleCond ty (lexeme t) false)).

(** [!s->expr && s->term.value().tokenType == t] *)
Definition isTerm (s : StackNode) (t : TokenType) : res bool :=
  if isNull (sn_expr s)
  then let* k := termOf s in Ok (bool_decide (tokenType k = t))
  else Ok false.

(** The stack given to [reduce], its top first; [None] is the null pointer. *)
Definition reduce (stack : list StackNode) : res (option StackNode) :=
  match stack with
  | [a; b; c] =>
      let* lp := isTerm a LPAREN_TOKEN in
      if lp : bool then
        let* rp := isTerm c RPAREN_TOKEN in
        Ok (if rp : bool then Some b else None)
      else let* n := constructOperatorStackNode b a c in Ok (Some n)
  | [a; b] =>
      let* neg := isTerm a NOT_TOKEN in
      Ok (if neg : bool then Some (constructNegatorStackNode b) else None)
  | [a] =>
      let* t := termOf a in
      if bool_decide (tokenType t = VARIABLE_TOKEN)
      then let* n := termToExpr a in Ok (Some n)
      else Ok None
  | _ => Ok None
  end.

(** The parser's stack, its back first. *)
Definition terminalPeek (stack : list StackNode) : res (option StackNode) :=
  let* a := at_ stack 0 in
  if isNull (sn_expr a) then Ok (Some a)
  else
    let* b := at_ stack 1 in
    if isNull (sn_expr b) then Ok (Some b) else Ok None.

(** The loop that pops the right-hand side, pushing it on [rhs]. *)
Fixpoint popLoop (stack : list StackNode) (lastPoppedTerminal : StackNode) (rhs : list StackNode)
    : res (list StackNode * list StackNode) :=
  match stack with
  | [] => Bad OutOfRange
  | s :: stack' =>
      let* continue :=
        if isNull (sn_expr s) then
          let* t := termOf s in
          let* l := termOf lastPoppedTerminal in
          Ok (negb (bool_decide (precedence (tokenType t) (tokenType l) = LESS_THAN)))
        else Ok true in
      if continue : bool
      then popLoop stack' (if isNull (sn_expr s) then s else lastPoppedTerminal) (s :: rhs)
      else Ok (stack, rhs)
  end.

(** One iteration of the parser's loop: it goes on with a new stack and lexer, or
    returns an expression, null if there is a syntax error. *)
Inductive ParserStep : Type :=
| Continue (stack : list StackNode) (lexer : LexicalAnalyzer)
| Return (e : BoolExpression).

Definition parserStep (stack : list StackNode) (lexer : LexicalAnalyzer) : res ParserStep :=
  let t1 := peek lexer 1 in
  let* s2 := terminalPeek stack in
  match s2 with
  | None => Ok (Return nullptr)
  | Some s2 =>
      let* t2 := termOf s2 in
      match precedence (tokenType t2) (tokenType t1) with
      | LESS_THAN | EQUAL =>
          let (t3, lexer') := getToken lexer in
          Ok (Continue (constructTermStackNode t3 :: stack) lexer')
      | GREATER_THAN =>
          let* (stack', rhs) := popLoop stack s2 [] in
          let* reduced := reduce rhs in
          match reduced with
          | Some n => Ok (Continue (n :: stack') lexer)
          | None => Ok (Return nullptr)
          end
      | ACCEPT =>
          let* root := at_ (reverse stack) 1 in Ok (Return (sn_expr root))
      | ERROR => Ok (Return nullptr)
      end
  end.

Fixpoint parseLoop (fuel : nat) (stack : list StackNode) (lexer : LexicalAnalyzer) : res BoolExpression :=
  match fuel with
  | O => Bad NoFuel
  | S fuel =>
      let* s := parserStep stack lexer in
      match s with
      | Continue stack' lexer' => parseLoop fuel stack' lexer'
      | Return e => Ok e
      end
  end.

(** Enough iterations for a lexer's tokens: each one shifts a token or takes a
    terminal off the stack. *)
Definition parserFuel (l : LexicalAnalyzer) : nat := 2 * length (tokenList l) + 2.

(** [Parser::parseSop] *)
Definition Parser_parseSop (s : string) : res BoolExpression :=
  let* l := tokenize (LexicalAnalyzer_new s) in
  match l with
  | None => Ok nullptr
  | Some l => parseLoop (parserFuel l) [constructTermStackNode Token_default] l
  end.

(** [BoolExpression::parseSop] *)
Definition parseSop (strSop : string) : res BoolExpression :=
  let* exp := Parser_parseSop strSop in
  if isNull exp then Ok nullptr else propagateNegation exp false.

Example parse_precedence :
  parseSop "c0 . c2 + ~(c1 | !c2)" =
    Ok (boolOr (boolAnd (boolVar "c0") (boolVar "c2"))
          (boolAnd (SingleCond Variable_ "c1" true) (boolVar "c2"))).
Proof. reflexivity. Qed.

(** * The invariant of the parser *)

(** The terminals that can stand to the left of an expression on the stack, and
    those that can follow one. *)
Definition opens (t : TokenType) : bool :=
  match t with RPAREN_TOKEN | VARIABLE_TOKEN => false | _ => true end.
Definition follows (t : TokenType) : bool :=
  match t with LPAREN_TOKEN | VARIABLE_TOKEN => false | _ => true end.

Definition shifts (t u : TokenType) : Prop := precedence t u = LESS_THAN ∨ precedence t u = EQUAL.

Definition optExpr (oe : option BoolExpression) : list StackNode :=
  match oe with Some e => [exprStackNode e] | None => [] end.
Definition optWf (oe : option BoolExpression) : bool :=
  match oe with Some e => wf e | None => true end.

(** A stack whose top is a terminal, of the given type: terminals, each of which
    was shifted over the one below, with at most an expression between two. *)
Inductive tstack : TokenType → list StackNode → Prop :=
| ts_base : tstack END_TOKEN [constructTermStackNode Token_default]
| ts_push t st oe tok : tstack t st → shifts t (tokenType tok) → optWf oe = true →
    (is_Some oe → opens t = true ∧ follows (tokenType tok) = true) →
    tstack (tokenType tok) (constructTermStackNode tok :: optExpr oe ++ st).

(** The stack and the next token between two iterations. *)
Definition inv (stack : list StackNode) (next : TokenType) : Prop :=
  ∃ t st oe, stack = optExpr oe ++ st ∧ tstack t st ∧ optWf oe = true
  ∧ (is_Some oe → opens t = true ∧ follows next = true).

Definition terminals (stack : list StackNode) : nat :=
  length (filter (λ s, isNull (sn_expr s) = true) stack).

Definition tokensLeft (l : LexicalAnalyzer) : nat := length (tokenList l) - lex_index l.
Definition measure (stack : list StackNode) (l : LexicalAnalyzer) : nat :=
  2 * tokensLeft l + terminals stack.

Definition nextType (l : LexicalAnalyzer) : TokenType := tokenType (peek l 1).

Lemma nextType_lookup l : nextType l ≠ END_TOKEN →
  ∃ tok, tokenList l !! lex_index l = Some tok ∧ tokenType tok = nextType l ∧ peek l 1 = tok.
Proof.
  unfold nextType, peek. replace (lex_index l + 1 - 1)%nat with (lex_index l) by lia.
  destruct (tokenList l !! lex_index l) as [tok|]; [|done]. intros _. by exists tok.
Qed.

Lemma tstack_top t st : tstack t st →
  ∃ tok st', st = constructTermStackNode tok :: st' ∧ tokenType tok = t.
Proof. destruct 1; [by eexists _, []|by eexists _, _]. Qed.

Lemma terminalPeek_inv t st oe : tstack t st → optWf oe = true →
  ∃ tok, terminalPeek (optExpr oe ++ st) = Ok (Some (constructTermStackNode tok)) ∧ tokenType tok = t.
Proof.
  intros (tok & st' & -> & <-)%tstack_top Hw. exists tok. split; [|done].
  destruct oe as [e|]; [|done]. unfold terminalPeek; simpl. by rewrite (wf_not_null e Hw).
Qed.

Lemma terminals_optExpr oe st : optWf oe = true → terminals (optExpr oe ++ st) = terminals st.
Proof.
  destruct oe as [e|]; [|done]. intros Hw. unfold terminals; simpl.
  rewrite filter_cons_False; [done|]. simpl. by rewrite (wf_not_null e Hw).
Qed.

Lemma terminals_term tok st : terminals (constructTermStackNode tok :: st) = S (terminals st).
Proof. done. Qed.

(** Popping an expression, a terminal that goes on, and one that stops. *)
Lemma popLoop_expr e st last rhs : wf e = true →
  popLoop (exprStackNode e :: st) last rhs = popLoop st last (exprStackNode e :: rhs).
Proof. intros Hw. simpl. by rewrite (wf_not_null e Hw). Qed.

Lemma popLoop_optExpr oe st last rhs : optWf oe = true →
  popLoop (optExpr oe ++ st) last rhs = popLoop st last (optExpr oe ++ rhs).
Proof. destruct oe; [apply popLoop_expr|done]. Qed.

Lemma popLoop_term tok st last rhs : 
  popLoop (constructTermStackNode tok :: st) (constructTermStackNode last) rhs =
    if bool_decide (precedence (tokenType tok) (tokenType last) = LESS_THAN)
    then Ok (constructTermStackNode tok :: st, rhs)
    else popLoop st (constructTermStackNode tok) (constructTermStackNode tok :: rhs).
Proof. simpl. by destruct (bool_decide _). Qed.

Lemma popLoop_stop t st last rhs : tstack t st → precedence t (tokenType last) = LESS_THAN →
  popLoop st (constructTermStackNode last) rhs = Ok (st, rhs).
Proof.
  intros (tok & st' & -> & <-)%tstack_top Hp. rewrite popLoop_term. by rewrite bool_decide_eq_true_2.
Qed.

(** A shift by equality is a closing parenthesis over an opening one. *)
Lemma shifts_equal t u : shifts t u → precedence t u ≠ LESS_THAN → t = LPAREN_TOKEN ∧ u = RPAREN_TOKEN.
Proof. destruct t, u; unfold shifts; simpl; naive_solver. Qed.

Lemma less_opens t u : precedence t u = LESS_THAN → opens t = true.
Proof. by destruct t, u. Qed.

Lemma greater_follows t u : precedence t u = GREATER_THAN → follows u = true.
Proof. by destruct t, u. Qed.

(** What [reduce] makes of a handle with one terminal. *)
Lemma reduce_one oa ob tok : optWf oa = true → optWf ob = true →
  ∃ r, reduce (optExpr oa ++ constructTermStackNode tok :: optExpr ob) = Ok r
  ∧ match r with None => True | Some n => ∃ e, n = exprStackNode e ∧ wf e = true end.
Proof.
  intros Ha Hb. destruct oa as [a|], ob as [b|]; simpl in *; unfold isTerm; simpl.
  - rewrite (wf_not_null a Ha). eexists; split; [reflexivity|]. eexists; split; [reflexivity|].
    simpl. rewrite Ha, Hb. by destruct (bool_decide _).
  - rewrite (wf_not_null a Ha). by eexists.
  - eexists; split; [reflexivity|]. destruct (bool_decide _); [|done].
    eexists; split; [reflexivity|]. done.
  - destruct (bool_decide _); eexists; (split; [reflexivity|]); [|done].
    eexists; split; [reflexivity|]. simpl.
    destruct (String.eqb (lexeme tok) "1"), (String.eqb (lexeme tok) "0"); done.
Qed.

(** And of a parenthesised expression. *)
Lemma reduce_parens lp rp ob : tokenType lp = LPAREN_TOKEN → tokenType rp = RPAREN_TOKEN →
  optWf ob = true →
  ∃ r, reduce (constructTermStackNode lp :: optExpr ob ++ [constructTermStackNode rp]) = Ok r
  ∧ match r with None => True | Some n => ∃ e, n = exprStackNode e ∧ wf e = true end.
Proof.
  intros Hl Hr Hb. destruct ob as [b|]; simpl in *; unfold isTerm; simpl; rewrite Hl, ?Hr; simpl.
  - eexists; split; [reflexivity|]. by eexists.
  - by eexists.
Qed.

Lemma inv_expr t st e next : tstack t st → opens t = true → follows next = true → wf e = true →
  inv (exprStackNode e :: st) next.
Proof. intros Ht Ho Hf Hw. by exists t, st, (Some e). Qed.

(** The reduction of the handle above a terminal-topped stack. *)
Lemma reduce_step t st oe next s2 :
  tstack t st → optWf oe = true → (is_Some oe → opens t = true ∧ follows next = true) →
  precedence t next = GREATER_THAN → terminalPeek (optExpr oe ++ st) = Ok (Some s2) →
  ∃ st' rhs r, popLoop (optExpr oe ++ st) s2 [] = Ok (st', rhs) ∧ reduce rhs = Ok r
  ∧ match r with
    | None => True
    | Some n => sn_term n = None ∧ inv (n :: st') next ∧ (terminals (n :: st') < terminals (optExpr oe ++ st))%nat
    end.
Proof.
  intros Ht Hw Ho Hp Hs2. destruct (terminalPeek_inv t st oe Ht Hw) as (tok2 & Hs2' & Htok2).
  rewrite Hs2' in Hs2. injection Hs2 as <-. rewrite popLoop_optExpr, terminals_optExpr, app_nil_r by done.
  destruct Ht as [|t0 st0 oe0 tok Ht0 Hsh Hw0 Ho0]; [by destruct next|].
  rewrite popLoop_term, Htok2, bool_decide_eq_false_2 by (intros H; by destruct (tokenType tok), next).
  rewrite popLoop_optExpr, terminals_term, terminals_optExpr by done.
  pose proof (greater_follows _ _ Hp) as Hf.
  destruct (decide (precedence t0 (tokenType tok) = LESS_THAN)) as [Hl|Hl].
  - rewrite (popLoop_stop t0) by done.
    destruct (reduce_one oe0 oe tok Hw0 Hw) as (r & Hr & Hn).
    eexists _, _, r. split; [reflexivity|]. split; [exact Hr|]. destruct r as [n|]; [|done].
    destruct Hn as (e & -> & He). split; [done|]. split; [by eapply inv_expr; [|eapply less_opens| |]|].
    change (exprStackNode e :: st0) with (optExpr (Some e) ++ st0). rewrite terminals_optExpr by done. lia.
  - destruct (shifts_equal _ _ Hsh Hl) as [-> Htok].
    destruct oe as [e|]; [rewrite Htok in Ho; by destruct Ho|].
    inversion Ht0 as [|t1 st1 oe1 tok1 Ht1 Hsh1 Hw1 Ho1 Hlp]; subst.
    destruct oe1 as [e|]; [rewrite Hlp in Ho1; by destruct Ho1|]. simpl optExpr in *. simpl app in *.
    rewrite popLoop_term, Hlp, Htok. rewrite bool_decide_eq_false_2 by done.
    assert (precedence t1 (tokenType tok1) = LESS_THAN) as Hl1.
    { destruct (decide (precedence t1 (tokenType tok1) = LESS_THAN)) as [|Hn]; [done|].
      destruct (shifts_equal _ _ Hsh1 Hn) as [_ Hx]. congruence. }
    rewrite (popLoop_stop t1) by done.
    destruct (reduce_parens tok1 tok oe0 Hlp Htok Hw0) as (r & Hr & Hn).
    eexists _, _, r. split; [reflexivity|]. split; [exact Hr|]. destruct r as [n|]; [|done].
    destruct Hn as (e & -> & He). split; [done|]. split; [by eapply inv_expr; [|eapply less_opens| |]|].
    change (exprStackNode e :: st1) with (optExpr (Some e) ++ st1). rewrite terminals_optExpr by done.
    rewrite terminals_term. lia.
Qed.

Definition startStack : list StackNode := [constructTermStackNode Token_default].

Lemma tstack_end t st : tstack t st → t = END_TOKEN → st = startStack.
Proof.
  destruct 1 as [|t st oe tok _ Hsh]; [done|]. intros Hend. rewrite Hend in Hsh.
  destruct t, Hsh; discriminate.
Qed.

Lemma getToken_next l : nextType l ≠ END_TOKEN →
  ∃ tok l', getToken l = (tok, l') ∧ tokenType tok = nextType l ∧ (tokensLeft l' < tokensLeft l)%nat.
Proof.
  intros (tok & Htok & Hty & _)%nextType_lookup. unfold getToken. rewrite Htok.
  eexists _, _. split; [done|]. split; [done|]. apply lookup_lt_Some in Htok.
  unfold tokensLeft; simpl. lia.
Qed.

(** One iteration keeps the invariant and makes progress; the one fault is an
    input without tokens. *)
Lemma parserStep_inv stack l : inv stack (nextType l) →
  (stack = startStack ∧ nextType l = END_TOKEN ∧ parserStep stack l = Bad OutOfRange)
  ∨ ∃ s, parserStep stack l = Ok s
    ∧ match s with
      | Return e => e = nullptr ∨ wf e = true
      | Continue stack' l' =>
          inv stack' (nextType l') ∧ (measure stack' l' < measure stack l)%nat ∧ stack' ≠ startStack
      end.
Proof.
  intros (t & st & oe & -> & Ht & Hw & Ho). unfold parserStep.
  destruct (terminalPeek_inv t st oe Ht Hw) as (tok2 & Hs2 & Htok2). rewrite Hs2; simpl.
  rewrite Htok2. fold (nextType l).
  assert (shifts t (nextType l) →
    ∃ tok l', getToken l = (tok, l') ∧ inv (constructTermStackNode tok :: optExpr oe ++ st) (nextType l')
    ∧ (measure (constructTermStackNode tok :: optExpr oe ++ st) l' < measure (optExpr oe ++ st) l)%nat
    ∧ constructTermStackNode tok :: optExpr oe ++ st ≠ startStack) as Hshift.
  { intros Hsh. destruct (getToken_next l) as (tok & l' & Hg & Hty & Hl).
    { intros Hend. rewrite Hend in Hsh. by destruct t, Hsh. }
    exists tok, l'. split; [done|]. split; [|split].
    - exists (tokenType tok), (constructTermStackNode tok :: optExpr oe ++ st), None.
      split; [done|]. rewrite <-Hty in Hsh, Ho. split; [by econstructor|]. split; [done|]. by intros [].
    - unfold measure. rewrite terminals_term. lia.
    - destruct (tstack_top _ _ Ht) as (? & ? & -> & _). by destruct oe. }
  destruct (precedence t (nextType l)) eqn:Hp.
  - right. destruct Hshift as (tok & l' & -> & Hi & Hm & Hne); [by left|]. by eexists.
  - right. destruct (reduce_step t st oe (nextType l) _ Ht Hw Ho Hp Hs2)
      as (st' & rhs & r & -> & Hr & Hn); simpl. rewrite Hr; simpl.
    destruct r as [n|]; eexists; (split; [done|]); [|by left].
    destruct Hn as (Hne & Hi & Hlt). split; [done|]. split; [unfold measure; lia|].
    intros Heq. injection Heq as -> _. discriminate Hne.
  - right. destruct Hshift as (tok & l' & -> & Hi & Hm & Hne); [by right|]. by eexists.
  - right. eexists; split; [done|]. by left.
  - assert (t = END_TOKEN ∧ nextType l = END_TOKEN) as [Hend Hnext] by (by destruct t, (nextType l)).
    rewrite (tstack_end _ _ Ht Hend). destruct oe as [e|]; [right|left]; simpl.
    + eexists; split; [done|]. by right.
    + done.
Qed.

Lemma parseLoop_total fuel : ∀ stack l, inv stack (nextType l) → (measure stack l < fuel)%nat →
  (stack = startStack ∧ nextType l = END_TOKEN ∧ parseLoop fuel stack l = Bad OutOfRange)
  ∨ ∃ e, parseLoop fuel stack l = Ok e ∧ (e = nullptr ∨ wf e = true).
Proof.
  induction fuel as [|fuel IH]; intros stack l Hi Hm; [lia|]. cbn [parseLoop].
  destruct (parserStep_inv stack l Hi) as [(-> & Hn & ->)|(s & -> & Hs)]; [by left|right].
  destruct s as [stack' l'|e]; simpl; [|by eexists].
  destruct Hs as (Hi' & Hlt & Hne). destruct (IH stack' l' Hi' ltac:(lia)) as [(? & _)|He]; done.
Qed.

Fixpoint string_forall (f : ascii → bool) (s : string) : bool :=
  match s with EmptyString => true | String c s => f c && string_forall f s end.

Lemma spanDigits_length s : (String.length (snd (spanDigits s)) ≤ String.length s)%nat.
Proof.
  induction s as [|c s IH]; simpl; [lia|]. destruct (isdigit c); simpl; [|lia].
  destruct (spanDigits s); simpl in *. lia.
Qed.

Lemma tokenizeLoop_total fuel : ∀ s, (String.length s < fuel)%nat →
  ∃ ots, tokenizeLoop fuel s = Ok ots
  ∧ match ots with
    | Some [] => string_forall isspace s = true
    | _ => string_forall isspace s = false
    end
  ∧ match ots with Some (t :: _) => tokenType t ≠ END_TOKEN | _ => True end.
Proof.
  induction fuel as [|fuel IH]; intros s Hs; [lia|]. destruct s as [|c s]; simpl in *; [by eexists|].
  destruct (isspace c); simpl; [apply IH; lia|]. destruct (isalpha c).
  - destruct (spanDigits s) as [digits rest] eqn:Hd. pose proof (spanDigits_length s) as Hl.
    rewrite Hd in Hl; simpl in Hl. destruct (IH rest ltac:(lia)) as (ots & -> & _); simpl.
    eexists; split; [done|]. by destruct ots.
  - destruct (symbolType c) as [t|] eqn:Ht; [|by eexists].
    destruct (IH s ltac:(lia)) as (ots & -> & _); simpl. eexists; split; [done|].
    destruct ots; simpl; [|done]. split; [done|]. intros ->. clear -Ht. unfold symbolType in Ht.
    repeat case_match; discriminate Ht.
Qed.

Lemma start_inv next : inv startStack next.
Proof. exists END_TOKEN, startStack, None. repeat split; [constructor|by destruct H..]. Qed.

Lemma Parser_parseSop_total s :
  if string_forall isspace s then Parser_parseSop s = Bad OutOfRange
  else ∃ e, Parser_parseSop s = Ok e ∧ (e = nullptr ∨ wf e = true).
Proof.
  unfold Parser_parseSop, tokenize, LexicalAnalyzer_new; cbn [expression tokenList lex_index].
  destruct (tokenizeLoop_total (S (String.length s)) s ltac:(lia)) as (ots & -> & Hs & Ht).
  cbn [bind]. destruct ots as [ts|]; [|rewrite Hs; eexists; split; [done|]; by left].
  set (l := mkLexer _ _ _).
  destruct (parseLoop_total (parserFuel l) startStack l (start_inv _)) as [(_ & Hn & Hp)|(e & Hp & He)].
  - unfold measure, tokensLeft, parserFuel. change (terminals startStack) with 1%nat. lia.
  - destruct ts as [|t ts]; [by rewrite Hs|]. exfalso. apply Ht. done.
  - destruct ts as [|t ts]; [discriminate Hp|]. rewrite Hs. eauto.
Qed.

(** The parser returns on every input: a well-formed expression without
    [Not] nodes, or the null pointer for a syntax error, except on an input
    without tokens, on which it reads past the end of its stack. *)
Theorem parseSop_total s :
  if string_forall isspace s then parseSop s = Bad OutOfRange
  else ∃ e, parseSop s = Ok e ∧ (e = nullptr ∨ wf e = true ∧ nnf e = true).
Proof.
  pose proof (Parser_parseSop_total s) as H. unfold parseSop. destruct (string_forall isspace s).
  - by rewrite H.
  - destruct H as (e & -> & [->|He]); simpl; [eauto|]. rewrite (wf_not_null e He).
    destruct (propagateNegation_spec e He false) as (e' & -> & ? & ? & _). eauto.
Qed.

(** * Parsing what the grammar derives *)

(** A lexeme of one character. *)
Definition char (c : ascii) : string := String c EmptyString.

(** Concrete syntax, with the lexemes as written. *)
Inductive syntax : Type :=
| SVar (lex : string)
| SNot (c : ascii) (a : syntax)
| SPar (a : syntax)
| SAnd (c : ascii) (a b : syntax)
| SOr (c : ascii) (a b : syntax).

Fixpoint tokens (s : syntax) : list Token :=
  match s with
  | SVar lex => [mkToken lex VARIABLE_TOKEN]
  | SNot c a => mkToken (char c) NOT_TOKEN :: tokens a
  | SPar a => mkToken "(" LPAREN_TOKEN :: tokens a ++ [mkToken ")" RPAREN_TOKEN]
  | SAnd c a b => tokens a ++ mkToken (char c) AND_TOKEN :: tokens b
  | SOr c a b => tokens a ++ mkToken (char c) OR_TOKEN :: tokens b
  end.

(** The leaf of a variable token. *)
Definition leaf (lex : string) : BoolExpression :=
  SingleCond (if String.eqb lex "1" then One else if String.eqb lex "0" then Zero else Variable_) lex false.

Fixpoint tree (s : syntax) : BoolExpression :=
  match s with
  | SVar lex => leaf lex
  | SNot _ a => Operator Not nullptr (tree a)
  | SPar a => tree a
  | SAnd _ a b => Operator And (tree a) (tree b)
  | SOr _ a b => Operator Or (tree a) (tree b)
  end.

(** How tightly the outermost operator binds. *)
Definition level (s : syntax) : nat :=
  match s with SOr _ _ _ => 0 | SAnd _ _ _ => 1 | SNot _ _ => 2 | _ => 3 end.

(** Negation binds tightest and applies to a variable or to parentheses, [And]
    binds tighter than [Or], and both associate to the left. *)
Fixpoint derivable (s : syntax) : bool :=
  match s with
  | SVar _ => true
  | SNot _ a => derivable a && (3 <=? level a)%nat
  | SPar a => derivable a
  | SAnd _ a b => derivable a && (1 <=? level a)%nat && derivable b && (2 <=? level b)%nat
  | SOr _ a b => derivable a && derivable b && (1 <=? level b)%nat
  end.

(** The terminals under which an expression of a level is parsed, and those that
    end it. *)
Definition admits (t : TokenType) (n : nat) : bool :=
  match t with
  | END_TOKEN | LPAREN_TOKEN => true
  | OR_TOKEN => (1 <=? n)%nat
  | AND_TOKEN => (2 <=? n)%nat
  | NOT_TOKEN => (3 <=? n)%nat
  | _ => false
  end.
Definition closes (t : TokenType) (n : nat) : bool :=
  match t with
  | END_TOKEN | RPAREN_TOKEN | OR_TOKEN => true
  | AND_TOKEN => (1 <=? n)%nat
  | _ => false
  end.

Definition Config : Type := list StackNode * LexicalAnalyzer.
Definition continues (c c' : Config) : Prop := parserStep (fst c) (snd c) = Ok (Continue (fst c') (snd c')).

(** The tokens not yet read. *)
Definition ahead (l : LexicalAnalyzer) : list Token := drop (lex_index l) (tokenList l).

Lemma ahead_cons l tok ts : ahead l = tok :: ts →
  peek l 1 = tok ∧ ∃ l', getToken l = (tok, l') ∧ ahead l' = ts.
Proof.
  unfold ahead, peek, getToken. intros H. replace (lex_index l + 1 - 1)%nat with (lex_index l) by lia.
  assert (tokenList l !! lex_index l = Some tok) as Hl.
  { rewrite <-(Nat.add_0_r (lex_index l)), <-lookup_drop, H. done. }
  rewrite Hl. split; [done|]. eexists; split; [done|]. simpl.
  rewrite (drop_S _ _ _ Hl) in H. by injection H.
Qed.

Lemma step_shift tok st l tok' ts : ahead l = tok' :: ts → shifts (tokenType tok) (tokenType tok') →
  ∃ l', continues (constructTermStackNode tok :: st, l)
                  (constructTermStackNode tok' :: constructTermStackNode tok :: st, l') ∧ ahead l' = ts.
Proof.
  intros (Hp & l' & Hg & Ha)%ahead_cons Hs. exists l'. split; [|done].
  unfold continues, parserStep; simpl. rewrite Hp, Hg. by destruct Hs as [->| ->].
Qed.

Lemma step_shift_expr tok e st l tok' ts : wf e = true →
  ahead l = tok' :: ts → shifts (tokenType tok) (tokenType tok') →
  ∃ l', continues (exprStackNode e :: constructTermStackNode tok :: st, l)
                  (constructTermStackNode tok' :: exprStackNode e :: constructTermStackNode tok :: st, l')
  ∧ ahead l' = ts.
Proof.
  intros Hw (Hp & l' & Hg & Ha)%ahead_cons Hs. exists l'. split; [|done].
  unfold continues, parserStep, terminalPeek; simpl. rewrite (wf_not_null e Hw); simpl.
  rewrite Hp, Hg. by destruct Hs as [->| ->].
Qed.

(** A reduction of a handle with one terminal [tok], over the terminal [tok0]. *)
Lemma step_reduce tok0 st oa tok ob l n :
  optWf oa = true → optWf ob = true →
  precedence (tokenType tok) (tokenType (peek l 1)) = GREATER_THAN →
  precedence (tokenType tok) (tokenType tok) ≠ LESS_THAN →
  precedence (tokenType tok0) (tokenType tok) = LESS_THAN →
  reduce (optExpr oa ++ constructTermStackNode tok :: optExpr ob) = Ok (Some n) →
  continues (optExpr ob ++ constructTermStackNode tok :: optExpr oa ++ constructTermStackNode tok0 :: st, l)
            (n :: constructTermStackNode tok0 :: st, l).
Proof.
  intros Ha Hb Hg Htt Hl Hr. unfold continues, parserStep.
  assert (terminalPeek (fst (optExpr ob ++ constructTermStackNode tok :: optExpr oa
    ++ constructTermStackNode tok0 :: st, l)) = Ok (Some (constructTermStackNode tok))) as ->.
  { destruct ob as [b|]; [|done]. unfold terminalPeek; simpl. by rewrite (wf_not_null b Hb). }
  cbn [bind fst snd termOf of_option sn_term constructTermStackNode]. rewrite Hg.
  fold (constructTermStackNode tok).
  rewrite popLoop_optExpr, app_nil_r, popLoop_term, bool_decide_eq_false_2, popLoop_optExpr by done.
  rewrite popLoop_term, bool_decide_eq_true_2 by done. cbn [bind]. by rewrite Hr.
Qed.

Lemma tree_wf s : wf (tree s) = true.
Proof.
  induction s as [lex|c a IH|a IH|c a IHa b IHb|c a IHa b IHb]; simpl; rewrite ?IHa, ?IHb; try done.
  by destruct (String.eqb lex "1"), (String.eqb lex "0").
Qed.

Lemma step_parens tok0 st lp e rp l :
  wf e = true → tokenType lp = LPAREN_TOKEN → tokenType rp = RPAREN_TOKEN →
  precedence RPAREN_TOKEN (tokenType (peek l 1)) = GREATER_THAN →
  precedence (tokenType tok0) LPAREN_TOKEN = LESS_THAN →
  continues (constructTermStackNode rp :: exprStackNode e :: constructTermStackNode lp
               :: constructTermStackNode tok0 :: st, l)
            (exprStackNode e :: constructTermStackNode tok0 :: st, l).
Proof.
  intros Hw Hlp Hrp Hg Hl. unfold continues, parserStep.
  cbn [fst snd terminalPeek at_ lookup list_lookup of_option bind sn_expr constructTermStackNode isNull
       termOf sn_term]. rewrite Hrp, Hg.
  fold (constructTermStackNode rp) (constructTermStackNode lp) (constructTermStackNode tok0).
  rewrite popLoop_term, Hrp, bool_decide_eq_false_2 by done.
  rewrite popLoop_expr, popLoop_term, Hlp, Hrp, bool_decide_eq_false_2 by done.
  rewrite popLoop_term, Hlp, bool_decide_eq_true_2 by done. cbn [bind].
  unfold reduce, isTerm; cbn. by rewrite Hlp, Hrp.
Qed.

#[local] Arguments Nat.leb : simpl never.

(** The parser turns the tokens of a derivable expression into its tree. *)
Lemma parse_syntax s : derivable s = true → ∀ tok st l r ts,
  admits (tokenType tok) (level s) = true → closes (tokenType r) (level s) = true →
  ahead l = tokens s ++ r :: ts →
  ∃ l', rtc continues (constructTermStackNode tok :: st, l)
                      (exprStackNode (tree s) :: constructTermStackNode tok :: st, l')
  ∧ ahead l' = r :: ts.
Proof.
  induction s as [lex|c a IH|a IH|c a IHa b IHb|c a IHa b IHb]; simpl; intros Hd tok st l r ts Ht Hr Ha.
  - destruct (step_shift tok st l _ _ Ha) as (l1 & Hs1 & Ha1); [left; by destruct (tokenType tok)|].
    exists l1. split; [|done]. eapply rtc_l; [exact Hs1|]. apply rtc_once.
    destruct (ahead_cons _ _ _ Ha1) as [Hp _].
    apply (step_reduce tok st None (mkToken lex VARIABLE_TOKEN) None); rewrite ?Hp; simpl; unfold leaf;
      first [done | by destruct (tokenType r) | by destruct (tokenType tok)
             | by destruct (String.eqb lex "1"), (String.eqb lex "0")].
  - apply andb_true_iff in Hd as [Hd Hl%Nat.leb_le].
    destruct (step_shift tok st l _ _ Ha) as (l1 & Hs1 & Ha1); [left; by destruct (tokenType tok)|].
    destruct (IH Hd (mkToken (char c) NOT_TOKEN) (constructTermStackNode tok :: st) l1 r ts)
      as (l2 & Hs2 & Ha2); simpl; [by apply Nat.leb_le|destruct (tokenType r); try done; apply Nat.leb_le; lia|done|].
    exists l2. split; [|done]. eapply rtc_l; [exact Hs1|]. eapply rtc_r; [exact Hs2|].
    destruct (ahead_cons _ _ _ Ha2) as [Hp _].
    apply (step_reduce tok st None (mkToken (char c) NOT_TOKEN) (Some (tree a))); rewrite ?Hp; simpl;
      first [apply tree_wf | done | by destruct (tokenType r) | by destruct (tokenType tok)].
  - destruct (step_shift tok st l _ _ Ha) as (l1 & Hs1 & Ha1); [left; by destruct (tokenType tok)|].
    rewrite <-app_assoc in Ha1.
    destruct (IH Hd (mkToken "(" LPAREN_TOKEN) (constructTermStackNode tok :: st) l1
      (mkToken ")" RPAREN_TOKEN) (r :: ts)) as (l2 & Hs2 & Ha2); [done..|].
    destruct (step_shift_expr (mkToken "(" LPAREN_TOKEN) (tree a) (constructTermStackNode tok :: st) l2 _ _
      (tree_wf a) Ha2) as (l3 & Hs3 & Ha3); [by right|].
    exists l3. split; [|done]. eapply rtc_l; [exact Hs1|]. eapply rtc_r; [eapply rtc_r; [exact Hs2|exact Hs3]|].
    destruct (ahead_cons _ _ _ Ha3) as [Hp _].
    apply step_parens; [apply tree_wf|done|done|rewrite Hp; by destruct (tokenType r)|by destruct (tokenType tok)].
  - wf_inv. rewrite <-app_assoc in Ha. simpl in Ha.
    destruct (IHa ltac:(assumption) tok st l (mkToken (char c) AND_TOKEN) (tokens b ++ r :: ts)) as (l1 & Hs1 & Ha1);
      [destruct (tokenType tok); try done; apply Nat.leb_le in Ht; lia|done|done|].
    destruct (step_shift_expr tok (tree a) st l1 _ _ (tree_wf a) Ha1) as (l2 & Hs2 & Ha2);
      [left; by destruct (tokenType tok)|].
    destruct (IHb ltac:(assumption) (mkToken (char c) AND_TOKEN)
      (exprStackNode (tree a) :: constructTermStackNode tok :: st) l2 r ts) as (l3 & Hs3 & Ha3);
      [done|destruct (tokenType r); try done; apply Nat.leb_le; apply Nat.leb_le in H0; lia|done|].
    exists l3. split; [|done]. etrans; [exact Hs1|]. eapply rtc_l; [exact Hs2|].
    eapply rtc_r; [exact Hs3|]. destruct (ahead_cons _ _ _ Ha3) as [Hp _].
    apply (step_reduce tok st (Some (tree a)) (mkToken (char c) AND_TOKEN) (Some (tree b)));
      rewrite ?Hp; simpl; unfold isTerm; simpl; rewrite ?(wf_not_null _ (tree_wf a));
      first [apply tree_wf | done | by destruct (tokenType r) | by destruct (tokenType tok)].
  - wf_inv. rewrite <-app_assoc in Ha. simpl in Ha.
    destruct (IHa ltac:(assumption) tok st l (mkToken (char c) OR_TOKEN) (tokens b ++ r :: ts)) as (l1 & Hs1 & Ha1);
      [by destruct (tokenType tok)|done|done|].
    destruct (step_shift_expr tok (tree a) st l1 _ _ (tree_wf a) Ha1) as (l2 & Hs2 & Ha2);
      [left; by destruct (tokenType tok)|].
    destruct (IHb ltac:(assumption) (mkToken (char c) OR_TOKEN)
      (exprStackNode (tree a) :: constructTermStackNode tok :: st) l2 r ts) as (l3 & Hs3 & Ha3);
      [done|by destruct (tokenType r)|done|].
    exists l3. split; [|done]. etrans; [exact Hs1|]. eapply rtc_l; [exact Hs2|].
    eapply rtc_r; [exact Hs3|]. destruct (ahead_cons _ _ _ Ha3) as [Hp _].
    apply (step_reduce tok st (Some (tree a)) (mkToken (char c) OR_TOKEN) (Some (tree b)));
      rewrite ?Hp; simpl; unfold isTerm; simpl; rewrite ?(wf_not_null _ (tree_wf a));
      first [apply tree_wf | done | by destruct (tokenType r) | by destruct (tokenType tok)].
Qed.

(** * From strings *)

Lemma parseLoop_continues c c' fuel : rtc continues c c' → 
  parseLoop fuel (fst c) (snd c) ≠ Bad NoFuel →
  ∃ fuel', parseLoop fuel (fst c) (snd c) = parseLoop fuel' (fst c') (snd c').
Proof.
  intros Hr. revert fuel. induction Hr as [c|c c1 c' Hs _ IH]; intros fuel Hf; [by exists fuel|].
  destruct fuel as [|fuel]; [done|]. cbn [parseLoop] in *. rewrite Hs in *. cbn [bind] in *.
  by apply IH.
Qed.

Definition lex (s : string) : res (option (list Token)) := tokenizeLoop (S (String.length s)) s.

Lemma Parser_derivable s txt : derivable s = true → lex txt = Ok (Some (tokens s)) →
  Parser_parseSop txt = Ok (tree s).
Proof.
  intros Hd Hl. pose proof (Parser_parseSop_total txt) as Htot.
  unfold Parser_parseSop, tokenize, LexicalAnalyzer_new in *; cbn [expression tokenList lex_index] in *.
  unfold lex in Hl. rewrite Hl in *. cbn [bind] in *. set (l := mkLexer _ _ _) in *.
  destruct (parse_syntax s Hd Token_default [] l Token_default []) as (l' & Hr & Ha); [done..|].
  assert (parseLoop (parserFuel l) startStack l ≠ Bad NoFuel) as Hf.
  { unfold startStack. destruct (string_forall isspace txt); [by rewrite Htot|].
    by destruct Htot as (e & -> & _). }
  destruct (parseLoop_continues (startStack, l) _ _ Hr Hf) as (fuel & Heq); cbn [fst snd] in Heq.
  unfold startStack in *. rewrite Heq in *. destruct fuel as [|fuel]; [done|].
  cbn [parseLoop]. unfold parserStep, terminalPeek; simpl.
  rewrite (wf_not_null _ (tree_wf s)); simpl. destruct (ahead_cons _ _ _ Ha) as [-> _]. done.
Qed.

Lemma tokenizeLoop_fuel n : ∀ s m, (String.length s < n)%nat → (n ≤ m)%nat →
  tokenizeLoop m s = tokenizeLoop n s.
Proof.
  induction n as [|n IH]; intros s m Hs Hm; [lia|]. destruct m as [|m]; [lia|].
  destruct s as [|c s]; simpl in *; [done|]. rewrite (IH s m) by lia.
  pose proof (spanDigits_length s) as Hd. destruct (spanDigits s) as [d rest]; simpl in Hd.
  by rewrite (IH rest m) by lia.
Qed.

Lemma tokenizeLoop_cons fuel c s : tokenizeLoop (S fuel) (String c s) =
  if isspace c then tokenizeLoop fuel s
  else if isalpha c then
    let (digits, rest) := spanDigits s in
    let* ts := tokenizeLoop fuel rest in Ok (cons (mkToken (String c digits) VARIABLE_TOKEN) <$> ts)
  else match symbolType c with
       | Some t => let* ts := tokenizeLoop fuel s in Ok (cons (mkToken (String c EmptyString) t) <$> ts)
       | None => Ok None
       end.
Proof. done. Qed.

(** The lexer's equations. *)
Lemma lex_cons c s : lex (String c s) =
  if isspace c then lex s
  else if isalpha c then
    let (digits, rest) := spanDigits s in
    let* ts := lex rest in Ok (cons (mkToken (String c digits) VARIABLE_TOKEN) <$> ts)
  else match symbolType c with
       | Some t => let* ts := lex s in Ok (cons (mkToken (String c EmptyString) t) <$> ts)
       | None => Ok None
       end.
Proof.
  unfold lex. cbn [String.length]. rewrite tokenizeLoop_cons. pose proof (spanDigits_length s) as Hd.
  destruct (spanDigits s) as [d rest]; simpl in Hd.
  by rewrite (tokenizeLoop_fuel (S (String.length rest)) rest (S (String.length s))) by lia.
Qed.

(** A variable's name: a letter, then digits. *)
Definition validId (id : string) : bool :=
  match id with String c s => isalpha c && string_forall isdigit s | EmptyString => false end.

Definition headNotDigit (s : string) : bool :=
  match s with String c _ => negb (isdigit c) | EmptyString => true end.

(** The text [s] yields the tokens [ts], whatever follows it. *)
Definition lexesTo (s : string) (ts : list Token) : Prop :=
  ∀ rest, headNotDigit rest = true → lex (s ++ rest) = let* o := lex rest in Ok (app ts <$> o).

Lemma spanDigits_app d rest : string_forall isdigit d = true → headNotDigit rest = true →
  spanDigits (d ++ rest) = (d, rest).
Proof.
  intros Hd Hr. induction d as [|c d IH]; simpl in *.
  - destruct rest as [|c rest]; [done|]. simpl in *. by apply negb_true_iff in Hr as ->.
  - apply andb_true_iff in Hd as [-> Hd]. by rewrite IH.
Qed.

Lemma isalpha_not_space c : isalpha c = true → isspace c = false.
Proof.
  unfold isalpha, isspace. rewrite orb_true_iff, !andb_true_iff, orb_false_iff, andb_false_iff.
  rewrite !N.leb_le, N.eqb_neq, !N.leb_gt. lia.
Qed.

Lemma string_app_cons c s s' : (String c s ++ s')%string = String c (s ++ s').
Proof. done. Qed.

Lemma string_app_assoc s1 s2 s3 : ((s1 ++ s2) ++ s3)%string = (s1 ++ s2 ++ s3)%string.
Proof. induction s1 as [|c s1 IH]; [done|]. by rewrite !string_app_cons, IH. Qed.

Lemma string_app_nil s : (s ++ EmptyString)%string = s.
Proof. induction s as [|c s IH]; [done|]. by rewrite string_app_cons, IH. Qed.

Lemma lexesTo_var id : validId id = true → lexesTo id [mkToken id VARIABLE_TOKEN].
Proof.
  destruct id as [|c d]; [done|]. simpl. intros [Hc Hd]%andb_true_iff rest Hr. rewrite string_app_cons, lex_cons, (isalpha_not_space c Hc), Hc, (spanDigits_app d rest Hd Hr).
  by destruct (lex rest) as [[]|].
Qed.

(** A symbol can be followed by anything. *)
Lemma lexesTo_symbol c t s ts : isspace c = false → isalpha c = false → symbolType c = Some t →
  lexesTo s ts → lexesTo (String c s) (mkToken (char c) t :: ts).
Proof.
  intros Hs Ha Ht Hts rest Hr. rewrite string_app_cons, lex_cons, Hs, Ha, Ht, Hts by done.
  by destruct (lex rest) as [[]|].
Qed.

Lemma lexesTo_app s1 s2 ts1 ts2 : headNotDigit s2 = true → s2 ≠ EmptyString →
  lexesTo s1 ts1 → lexesTo s2 ts2 → lexesTo (s1 ++ s2) (ts1 ++ ts2).
Proof.
  intros Hd Hne H1 H2 rest Hr. rewrite string_app_assoc, H1, H2 by (by destruct s2).
  destruct (lex rest) as [[ts|]|]; simpl; [by rewrite app_assoc|done..].
Qed.

Lemma lexesTo_space s ts : lexesTo s ts → lexesTo (String " " s) ts.
Proof. intros H rest Hr. rewrite string_app_cons, lex_cons. by apply H. Qed.

Lemma lexesTo_lex s ts : lexesTo s ts → lex s = Ok (Some ts).
Proof.
  intros H. specialize (H EmptyString eq_refl). rewrite string_app_nil in H. rewrite H. simpl.
  by rewrite app_nil_r.
Qed.

(** * Texts *)

Definition sep (space : bool) (s : string) : string := if space then String " " s else s.

(** The text of an expression, with or without spaces around [And] and [Or]. *)
Fixpoint text (sa so : bool) (s : syntax) : string :=
  match s with
  | SVar lex => lex
  | SNot c a => String c (text sa so a)
  | SPar a => String "(" (text sa so a ++ ")")
  | SAnd c a b => (text sa so a ++ sep sa (String c (sep sa (text sa so b))))%string
  | SOr c a b => (text sa so a ++ sep so (String c (sep so (text sa so b))))%string
  end.

Definition validLeaf (lex : string) : bool :=
  validId lex || String.eqb lex "0" || String.eqb lex "1".

(** Lexemes the lexer knows. *)
Fixpoint validLexemes (s : syntax) : bool :=
  match s with
  | SVar lex => validLeaf lex
  | SNot c a => bool_decide (symbolType c = Some NOT_TOKEN) && validLexemes a
  | SPar a => validLexemes a
  | SAnd c a b => bool_decide (symbolType c = Some AND_TOKEN) && validLexemes a && validLexemes b
  | SOr c a b => bool_decide (symbolType c = Some OR_TOKEN) && validLexemes a && validLexemes b
  end.

Lemma symbol_classes c t : symbolType c = Some t → t ≠ VARIABLE_TOKEN →
  isspace c = false ∧ isalpha c = false ∧ isdigit c = false.
Proof.
  intros Hs Ht. unfold symbolType in Hs. repeat case_match; try discriminate Hs; subst; try done.
  all: injection Hs as <-; done.
Qed.

Lemma lexesTo_sep b s ts : lexesTo s ts → lexesTo (sep b s) ts.
Proof. destruct b; [apply lexesTo_space|done]. Qed.

Lemma headNotDigit_sep b c s : isdigit c = false → headNotDigit (sep b (String c s)) = true.
Proof. destruct b; simpl; [done|]. by intros ->. Qed.

Lemma lexesTo_nil : lexesTo EmptyString [].
Proof. intros rest _. change ((EmptyString ++ rest)%string) with rest. by destruct (lex rest) as [[]|]. Qed.

Lemma lexesTo_leaf lex : validLeaf lex = true → lexesTo lex [mkToken lex VARIABLE_TOKEN].
Proof.
  unfold validLeaf. intros [[Hv|H0%String.eqb_eq]%orb_true_iff|H1%String.eqb_eq]%orb_true_iff.
  - by apply lexesTo_var.
  - subst. by apply (lexesTo_symbol "0"%char VARIABLE_TOKEN EmptyString []), lexesTo_nil.
  - subst. by apply (lexesTo_symbol "1"%char VARIABLE_TOKEN EmptyString []), lexesTo_nil.
Qed.

(** A binary operator, between two texts. *)
Lemma lexesTo_binary b c t s1 s2 ts1 ts2 : symbolType c = Some t → t ≠ VARIABLE_TOKEN →
  lexesTo s1 ts1 → lexesTo s2 ts2 →
  lexesTo (s1 ++ sep b (String c (sep b s2))) (ts1 ++ mkToken (char c) t :: ts2).
Proof.
  intros Hc Ht H1 H2. destruct (symbol_classes c t Hc Ht) as (Hs & Ha & Hd).
  apply lexesTo_app; [by apply headNotDigit_sep|by destruct b|done|].
  by apply lexesTo_sep, lexesTo_symbol, lexesTo_sep.
Qed.

Lemma lexesTo_text sa so s : validLexemes s = true → lexesTo (text sa so s) (tokens s).
Proof.
  induction s as [lex|c a IH|a IH|c a IHa b IHb|c a IHa b IHb]; simpl; intros Hv.
  - by apply lexesTo_leaf.
  - apply andb_true_iff in Hv as [Hc%bool_decide_eq_true Hv].
    destruct (symbol_classes c _ Hc ltac:(done)) as (Hs & Ha & Hd). by apply lexesTo_symbol; auto.
  - change (mkToken "(" LPAREN_TOKEN) with (mkToken (char "(") LPAREN_TOKEN).
    apply lexesTo_symbol; [done..|]. apply lexesTo_app; [done..|by apply IH|].
    change (mkToken ")" RPAREN_TOKEN) with (mkToken (char ")") RPAREN_TOKEN).
    by apply lexesTo_symbol, lexesTo_nil.
  - apply andb_true_iff in Hv as [[Hc%bool_decide_eq_true Hva]%andb_true_iff Hvb].
    by apply lexesTo_binary; auto.
  - apply andb_true_iff in Hv as [[Hc%bool_decide_eq_true Hva]%andb_true_iff Hvb].
    by apply lexesTo_binary; auto.
Qed.

Lemma Parser_text sa so s : derivable s = true → validLexemes s = true →
  Parser_parseSop (text sa so s) = Ok (tree s).
Proof. intros Hd Hv. apply Parser_derivable; [done|]. by apply lexesTo_lex, lexesTo_text. Qed.

(** What a concrete expression means: negation binds tightest, then [And]. *)
Fixpoint meaning (ρ : string → bool) (s : syntax) : bool :=
  match s with
  | SVar lex => if String.eqb lex "1" then true else if String.eqb lex "0" then false else ρ lex
  | SNot _ a => negb (meaning ρ a)
  | SPar a => meaning ρ a
  | SAnd _ a b => meaning ρ a && meaning ρ b
  | SOr _ a b => meaning ρ a || meaning ρ b
  end.

Lemma den_tree ρ s : den ρ (tree s) = meaning ρ s.
Proof.
  induction s as [lex|c a IH|a IH|c a IHa b IHb|c a IHa b IHb]; simpl; rewrite ?IH, ?IHa, ?IHb; try done.
  destruct (String.eqb lex "1"), (String.eqb lex "0"); done.
Qed.

(** C31.  The text of any expression of the grammar (variables of a letter and
    digits, constants, negations of those and of parentheses, conjunctions,
    disjunctions), with or without spaces, parses to an expression with the
    value the grammar gives it. *)
Theorem parseSop_meaning sa so s row : derivable s = true → validLexemes s = true →
  ∃ e, parseSop (text sa so s) = Ok e ∧ wf e = true ∧ nnf e = true
  ∧ evaluate e row = Ok (meaning (rowValue row) s).
Proof.
  intros Hd Hv. unfold parseSop. rewrite (Parser_text sa so s Hd Hv). cbn [bind].
  rewrite (wf_not_null _ (tree_wf s)).
  destruct (propagateNegation_spec (tree s) (tree_wf s) false) as (e & He & Hw & Hn & Hden).
  exists e. rewrite evaluate_den, Hden, den_tree, xorb_false_l by done. done.
Qed.

(** * Printing, then parsing *)

(** The concrete syntax [toString] prints. *)
Fixpoint printed (e : BoolExpression) : syntax :=
  match e with
  | SingleCond Variable_ id neg => if neg then SNot "~" (SVar id) else SVar id
  | SingleCond One _ _ | PlainExpression One => SVar "1"
  | SingleCond _ _ _ | PlainExpression _ | nullptr => SVar "0"
  | Operator And l r => SAnd "." (printed l) (printed r)
  | Operator _ l r => SOr "+" (printed l) (printed r)
  end.

(** The leaves of [boolVar], [boolZero], [boolOne] and [parseSop]. *)
Fixpoint plainLeaves (e : BoolExpression) : bool :=
  match e with
  | SingleCond Variable_ id _ => validId id
  | SingleCond One id neg => String.eqb id "1" && negb neg
  | SingleCond Zero id neg => String.eqb id "0" && negb neg
  | Operator _ l r => plainLeaves l && plainLeaves r
  | _ => false
  end.

(** A sum of products, both associated to the left. *)
Definition leftSop (e : BoolExpression) : bool :=
  wf e && nnf e && plainLeaves e && derivable (printed e).

Lemma validId_not_constant id : validId id = true → String.eqb id "0" = false ∧ String.eqb id "1" = false.
Proof.
  intros H. split; apply String.eqb_neq; intros ->; discriminate H.
Qed.

Lemma toString_text e : wf e = true → nnf e = true → toString e = Ok (text true true (printed e)).
Proof.
  induction e as [|t id neg|t l IHl r IHr|t]; intros Hw Hn; simpl in *; try done.
  - destruct t; try done. by destruct neg.
  - wf_inv. destruct t; try done; simpl; wf_inv.
    all: rewrite IHl, IHr by done; done.
  - by destruct t.
Qed.

Lemma printed_valid e : wf e = true → nnf e = true → plainLeaves e = true → validLexemes (printed e) = true.
Proof.
  induction e as [|t id neg|t l IHl r IHr|t]; intros Hw Hn Hp; simpl in *; try done.
  - destruct t; try done. destruct neg; simpl; unfold validLeaf; by rewrite Hp.
  - wf_inv. destruct t; try done; wf_inv; simpl; by rewrite IHl, IHr.
Qed.

Lemma propagate_printed e : wf e = true → nnf e = true → plainLeaves e = true →
  propagateNegation (tree (printed e)) false = Ok e.
Proof.
  induction e as [|t id neg|t l IHl r IHr|t]; intros Hw Hn Hp; simpl in *; try done.
  - destruct t; try done.
    + destruct (validId_not_constant id Hp) as [H0 H1].
      destruct neg; simpl; unfold leaf; by rewrite H0, H1.
    + apply andb_true_iff in Hp as [->%String.eqb_eq Hneg]. by destruct neg.
    + apply andb_true_iff in Hp as [->%String.eqb_eq Hneg]. by destruct neg.
  - wf_inv. destruct t; try done; wf_inv; simpl;
      rewrite (wf_not_null _ (tree_wf (printed l))), (wf_not_null _ (tree_wf (printed r))), IHl, IHr by done;
      done.
Qed.

(** C37.  [parseSop] reads back what [toString] prints, for sums of products
    associated to the left. *)
Theorem parse_print_roundtrip e : leftSop e = true →
  ∃ s, sopToString e = Ok s ∧ parseSop s = Ok e.
Proof.
  unfold leftSop. intros [[[Hw Hn]%andb_true_iff Hp]%andb_true_iff Hd]%andb_true_iff.
  exists (text true true (printed e)). split; [by apply toString_text|].
  unfold parseSop. rewrite (Parser_text true true _ Hd) by by apply printed_valid.
  cbn [bind]. rewrite (wf_not_null _ (tree_wf (printed e))). by apply propagate_printed.
Qed.

(** Not all the parser accepts belongs to the grammar: where an operator is
    missing before a negation it reads a disjunction and drops the negation,
    while a double negation is a syntax error. *)
Theorem missing_operator_before_negation :
  parseSop "a ~b" = Ok (boolOr (boolVar "a") (boolVar "b"))
  ∧ parseSop "a . ~b c" = Ok nullptr
  ∧ parseSop "~~a" = Ok nullptr.
Proof. repeat split. Qed.

(** * Examples *)

Definition example_sop : BoolExpression :=
  boolOr (boolAnd (boolAnd (boolVar "c0") (SingleCond Variable_ "c2" true)) boolOne) (boolVar "c15").

Lemma parse_print_roundtrip_witness :
  ∃ s, sopToString example_sop = Ok s ∧ parseSop s = Ok example_sop.
Proof. apply (parse_print_roundtrip example_sop). reflexivity. Defined.

Definition example_syntax : syntax :=
  SOr "|" (SPar (SAnd "&" (SVar "a") (SNot "!" (SVar "b")))) (SNot "~" (SPar (SVar "c7"))).

Lemma parseSop_meaning_witness :
  text false true example_syntax = "(a&!b) | ~(c7)"%string
  ∧ ∃ e, parseSop (text false true example_syntax) = Ok e ∧ wf e = true ∧ nnf e = true
    ∧ evaluate e ∅ = Ok (meaning (rowValue ∅) example_syntax).
Proof. split; [reflexivity|]. apply (parseSop_meaning false true example_syntax ∅); reflexivity. Defined.
