(* ===== verification/BoolTables.v ===== *)
(** Truth tables of boolean expressions: row by row, all rows at once, and from
    the minterms of a sum of products (BoolExpression.cpp). *)

From stdpp Require Import strings gmap pretty.
From Stdlib Require Import Ascii.
From S2P Require Import StdString BoolExpr Prelude.

(** * llvm::BitVector *)

(** [BitVector(n, v)] is [replicate n v]. *)
Fixpoint bv_or (a b : list bool) : list bool :=
  match a, b with
  | [], _ => b
  | _, [] => a
  | x :: a, y :: b => (x || y) :: bv_or a b
  end.

(** The bits of [a] beyond the size of [b] are reset. *)
Fixpoint bv_and (a b : list bool) : list bool :=
  match a, b with
  | [], _ => []
  | _ :: a, [] => false :: bv_and a []
  | x :: a, y :: b => (x && y) :: bv_and a b
  end.

Definition bv_flip (a : list bool) : list bool := map negb a.

(** * Evaluation on all rows *)

(** [values] is the row vector of the sum whose right operands the loop goes
    down, [None] outside such a loop. *)
Fixpoint evaluateRowsIn (columns : gmap string (list bool)) (numOfRows : nat)
    (values : option (list bool)) (e : BoolExpression) : res (list bool) :=
  match e with
  | Operator Or l r =>
      let values := default (replicate numOfRows false) values in
      let* values :=
        if isNull l then Ok values
        else let* v := evaluateRowsIn columns numOfRows None l in Ok (bv_or values v) in
      if isNull r then Ok values else evaluateRowsIn columns numOfRows (Some values) r
  | _ =>
      let* v :=
        match e with
        | nullptr => Bad NullDeref
        | SingleCond Variable_ id neg =>
            let values := default (replicate numOfRows false) (columns !! id) in
            Ok (if neg then bv_flip values else values)
        | SingleCond One _ _ | Operator One _ _ | PlainExpression One => Ok (replicate numOfRows true)
        | Operator And l r =>
            let* values := if isNull l then Ok (replicate numOfRows true)
                           else evaluateRowsIn columns numOfRows None l in
            if isNull r then Ok values
            else let* v := evaluateRowsIn columns numOfRows None r in Ok (bv_and values v)
        | Operator Not _ r =>
            let* values := evaluateRowsIn columns numOfRows None r in Ok (bv_flip values)
        | SingleCond (Or | And | Not) _ _ | PlainExpression (Variable_ | Or | And | Not)
        | Operator Variable_ _ _ => Bad BadCast
        | _ => Ok (replicate numOfRows false)
        end in
      Ok (match values with None => v | Some values => bv_or values v end)
  end.

Definition evaluateRows (e : BoolExpression) (columns : gmap string (list bool)) (numOfRows : nat)
    : res (list bool) := evaluateRowsIn columns numOfRows None e.

(** * Truth table, row by row *)

(** Bit [j] of the row number [i]: [(i >> j) & 1]. *)
Definition bit (i j : nat) : bool := Nat.testbit i j.

(** The assignment of row [i]: the variable of index [j] takes bit [j]. *)
Fixpoint rowFrom (i j : nat) (variables : list string) (row : gmap string bool) : gmap string bool :=
  match variables with
  | [] => row
  | v :: variables => rowFrom i (S j) variables (<[v := bit i j]> row)
  end.

Definition rowAt (variables : list string) (i : nat) : gmap string bool := rowFrom i 0 variables ∅.

(** [int numOfRows = pow(2, variables.size())] must fit an [int]. *)
Definition generateTruthTable (e : BoolExpression) : res (list (gmap string bool * bool)) :=
  let* variables := getVariables e in
  if (31 <=? length variables)%nat then Bad Overflow
  else mapM (λ i, let row := rowAt variables i in let* v := evaluate e row in Ok (row, v))
         (seq 0 (2 ^ length variables)).

(** * Espresso's input *)

Definition MAX_TRUTH_TABLE_VARIABLES : nat := 24.

Definition checkTruthTableSize (numVariables : nat) : res unit :=
  if (numVariables <=? MAX_TRUTH_TABLE_VARIABLES)%nat then Ok tt else Bad FatalError.

(** The columns of [runEspresso]: the values of each variable on all rows. *)
Fixpoint columnsFrom (numOfRows j : nat) (vars : list string) (columns : gmap string (list bool))
    : gmap string (list bool) :=
  match vars with
  | [] => columns
  | v :: vars =>
      columnsFrom numOfRows (S j) vars (<[v := map (λ i, bit i j) (seq 0 numOfRows)]> columns)
  end.

Definition newline : string := String "010" EmptyString.

Definition concatStrings (l : list string) : string := foldr String.append EmptyString l.

Definition to_string (n : nat) : string := pretty (N.of_nat n).

(** The head of the input: the numbers of inputs and outputs and their names. *)
Definition espressoHeader (vars : list string) : string :=
  (".i " ++ to_string (length vars) ++ newline ++ ".o 1" ++ newline ++ ".ilb "
   ++ concatStrings (map (λ v, v ++ " ") vars) ++ newline ++ ".ob f" ++ newline)%string.

(** The line of row [i], of result [b]. *)
Definition espressoRow (numVars i : nat) (b : bool) : string :=
  (concatStrings (map (λ j, if bit i j then "1 " else "0 ") (seq 0 numVars))
   ++ (if b then "1" else "0") ++ newline)%string.

Definition espressoInput (e : BoolExpression) : res string :=
  let* vars := getVariables e in
  let* _ := checkTruthTableSize (length vars) in
  let numOfRows := (2 ^ length vars)%nat in
  let* results := evaluateRows e (columnsFrom numOfRows 0 vars ∅) numOfRows in
  Ok (espressoHeader vars
      ++ concatStrings (imap (λ i b, espressoRow (length vars) i b) (take numOfRows results)))%string.

(** * Minterms *)

(** Strings of '0', '1', 'd' (don't care) and 'n' (void), as lists of characters. *)
Definition findChar (c : ascii) (s : list ascii) : option nat :=
  fst <$> list_find (λ x, x = c) s.

Fixpoint replaceDontCaresRec (fuel : nat) (s : list ascii) (minterms : list string) : res (list string) :=
  match fuel with
  | O => Bad NoFuel
  | S fuel =>
      match findChar "d" s with
      | None => Ok (set_insert (String.string_of_list_ascii s) minterms)
      | Some dontCareIndex =>
          let* m := replaceDontCaresRec fuel (<[dontCareIndex := "0"%char]> s) minterms in
          replaceDontCaresRec fuel (<[dontCareIndex := "1"%char]> s) m
      end
  end.

Definition replaceDontCares (minterms : list string) : res (list string) :=
  foldM (λ out s, let l := String.list_ascii_of_string s in replaceDontCaresRec (S (length l)) l out) [] minterms.

(** The position of a variable in a set: [varIndex[id]], 0 if it is absent. *)
Definition varIndex (variables : list string) (id : string) : nat :=
  default 0%nat (fst <$> list_find (λ v, v = id) variables).

(** The value a literal gives to the character of its variable. *)
Definition mintermChar (isNegated : bool) (c : ascii) : ascii :=
  match c with
  | "d"%char => if isNegated then "0"%char else "1"%char
  | "0"%char => if isNegated then "0"%char else "n"%char
  | "1"%char => if isNegated then "n"%char else "1"%char
  | _ => c
  end.

Definition generateMintermVariable (variables : list string) (id : string) (isNegated : bool)
    (s : list ascii) : res (list ascii) :=
  let i := varIndex variables id in
  let* c := at_ s i in Ok (<[i := mintermChar isNegated c]> s).

Fixpoint generateMintermAnd (variables : list string) (e : BoolExpression) (s : list ascii)
    : res (list ascii) :=
  match e with
  | nullptr => Bad NullDeref
  | SingleCond Variable_ id neg => generateMintermVariable variables id neg s
  | SingleCond Zero _ _ | Operator Zero _ _ | PlainExpression Zero =>
      let* _ := at_ s 0 in Ok (<[0%nat := "n"%char]> s)
  | Operator (And | Or) l r =>
      let* s1 := if isNull l then Ok s else generateMintermAnd variables l s in
      if isNull r then Ok s1 else generateMintermAnd variables r s1
  | SingleCond (And | Or) _ _ | PlainExpression (Variable_ | And | Or) | Operator Variable_ _ _ => Bad BadCast
  | _ => Ok s
  end.

Fixpoint generateMintermsOr (variables : list string) (e : BoolExpression) (minterms : list string)
    : res (list string) :=
  match e with
  | nullptr => Bad NullDeref
  | Operator Or l r =>
      let* m := if isNull l then Ok minterms else generateMintermsOr variables l minterms in
      if isNull r then Ok m else generateMintermsOr variables r m
  | SingleCond One _ _ | Operator One _ _ | PlainExpression One =>
      Ok (set_insert (String.string_of_list_ascii (replicate (length variables) "d"%char)) minterms)
  | SingleCond And _ _ | PlainExpression And | SingleCond Or _ _ | PlainExpression Or => Bad BadCast
  | Operator And _ _ =>
      let* s := generateMintermAnd variables e (replicate (length variables) "d"%char) in
      match findChar "n" s with
      | None => Ok (set_insert (String.string_of_list_ascii s) minterms)
      | Some _ => Ok minterms
      end
  | _ => Ok minterms
  end.

Definition generateTruthTableSop (e : BoolExpression) : res (list string) :=
  let* variables := getVariables e in
  let* minterms := generateMintermsOr variables e [] in
  let* mintermsWithoutDontCares := replaceDontCares minterms in
  let* rows := replaceDontCares [String.string_of_list_ascii (replicate (length variables) "d"%char)] in
  Ok (foldl (λ table row,
        set_insert (row ++ (if set_mem row mintermsWithoutDontCares then "1" else "0"))%string table)
      [] rows).

Definition espressoInputSop (e : BoolExpression) : res string :=
  let* vars := getVariables e in
  let* _ := checkTruthTableSize (length vars) in
  let* truthTable := generateTruthTableSop e in
  Ok (espressoHeader vars ++ concatStrings (map (λ row, row ++ newline) truthTable))%string.

Example sop_table_example :
  generateTruthTableSop (boolOr (boolAnd (boolVar "a") (boolVar "b")) (boolAnd boolOne (SingleCond Variable_ "a" true)))
    = Ok ["001"; "011"; "100"; "111"]%string.
Proof. reflexivity. Qed.

(** * All rows at once *)

(** The row vector of a function of the row. *)
Definition rowsOf (n : nat) (f : nat → bool) : list bool := map f (seq 0 n).

Lemma bv_or_rows n f g : bv_or (rowsOf n f) (rowsOf n g) = rowsOf n (λ i, f i || g i).
Proof. unfold rowsOf. generalize 0%nat. induction n as [|n IH]; intros k; simpl; [done|]. by rewrite IH. Qed.

Lemma bv_and_rows n f g : bv_and (rowsOf n f) (rowsOf n g) = rowsOf n (λ i, f i && g i).
Proof. unfold rowsOf. generalize 0%nat. induction n as [|n IH]; intros k; simpl; [done|]. by rewrite IH. Qed.

Lemma bv_flip_rows n f : bv_flip (rowsOf n f) = rowsOf n (λ i, negb (f i)).
Proof. unfold bv_flip, rowsOf. by rewrite map_map. Qed.

Lemma replicate_rows n b : replicate n b = rowsOf n (λ _, b).
Proof. unfold rowsOf. generalize 0%nat. induction n as [|n IH]; intros k; simpl; [done|]. by rewrite <-IH. Qed.

Lemma rowsOf_ext n f g : (∀ i, f i = g i) → rowsOf n f = rowsOf n g.
Proof. intros H. by apply map_ext. Qed.

Lemma rowsOf_lookup l : l = rowsOf (length l) (λ i, default false (l !! i)).
Proof.
  apply list_eq. intros i. unfold rowsOf. change (map ?f ?l) with (f <$> l). rewrite list_lookup_fmap.
  destruct (l !! i) as [b|] eqn:Hi.
  - rewrite lookup_seq_lt by by eapply lookup_lt_Some. simpl. by rewrite Hi.
  - by rewrite lookup_seq_ge by by apply lookup_ge_None.
Qed.

(** The value of a variable on a row. *)
Definition colVal (columns : gmap string (list bool)) (i : nat) (id : string) : bool :=
  match columns !! id with Some col => default false (col !! i) | None => false end.

(** Every column has [n] rows. *)
Definition columnsOf (n : nat) (columns : gmap string (list bool)) : Prop :=
  ∀ id col, columns !! id = Some col → length col = n.

Lemma column_rows n columns id : columnsOf n columns →
  default (replicate n false) (columns !! id) = rowsOf n (λ i, colVal columns i id).
Proof.
  intros Hc. unfold colVal. destruct (columns !! id) as [col|] eqn:Hid; simpl; [|apply replicate_rows].
  rewrite <-(Hc id col Hid). apply rowsOf_lookup.
Qed.

Lemma evaluateRowsIn_spec n columns e : columnsOf n columns → wf e = true → ∀ acc : option (nat → bool),
  evaluateRowsIn columns n (rowsOf n <$> acc) e =
    Ok (rowsOf n (λ i, match acc with Some f => f i | None => false end || den (colVal columns i) e)).
Proof.
  intros Hc. induction e as [|t id neg|t l IHl r IHr|t]; intros Hw acc; try done.
  - assert (evaluateRowsIn columns n None (SingleCond t id neg)
      = Ok (rowsOf n (λ i, den (colVal columns i) (SingleCond t id neg)))) as Hn.
    { simpl in *. destruct t; try done; simpl; rewrite ?column_rows by done; rewrite ?replicate_rows; try done.
      destruct neg; rewrite ?bv_flip_rows; simpl; do 2 f_equal; apply rowsOf_ext; intros i; by destruct (colVal _ _ _). }
    destruct acc as [f|]; [|exact Hn]. simpl in *. destruct t; try done; simpl in *;
      injection Hn as Hn; rewrite Hn, ?bv_or_rows; done.
  - simpl in Hw. destruct t; try done; wf_inv.
    all: try (pose proof (IHl ltac:(assumption) None) as Hl; cbn [fmap option_fmap option_map] in Hl).
    all: pose proof (λ g : nat → bool, IHr ltac:(assumption) (Some g)) as Hrs; pose proof (IHr ltac:(assumption) None) as Hr;
      cbn [fmap option_fmap option_map] in Hr, Hrs.
    + cbn [evaluateRowsIn]. rewrite (wf_not_null l), (wf_not_null r) by done.
      assert (default (replicate n false) (rowsOf n <$> acc)
        = rowsOf n (λ i, match acc with Some f => f i | None => false end)) as ->
        by (destruct acc; [done|apply replicate_rows]).
      rewrite Hl. cbn [bind]. rewrite bv_or_rows.
      rewrite Hrs. f_equal. apply rowsOf_ext. intros i. simpl. by rewrite orb_assoc.
    + cbn [evaluateRowsIn]. rewrite (wf_not_null l), (wf_not_null r) by done.
      rewrite Hl. cbn [bind]. rewrite Hr. cbn [bind].
      rewrite bv_and_rows. simpl. destruct acc as [f|]; simpl; [by rewrite bv_or_rows|done].
    + cbn [evaluateRowsIn]. rewrite Hr. cbn [bind]. rewrite bv_flip_rows. simpl.
      destruct acc as [f|]; simpl; [by rewrite bv_or_rows|done].
  - simpl in *. destruct t; try done; simpl; rewrite replicate_rows; destruct acc; simpl; by rewrite ?bv_or_rows.
Qed.

Lemma evaluateRows_spec n columns e : columnsOf n columns → wf e = true →
  evaluateRows e columns n = Ok (rowsOf n (λ i, den (colVal columns i) e)).
Proof. intros Hc Hw. exact (evaluateRowsIn_spec n columns e Hc Hw None). Qed.

(** Evaluating an expression on all rows at once gives, on each row, what
    evaluating it on that row alone gives. *)
Theorem evaluateRows_agrees n columns e : columnsOf n columns → wf e = true →
  ∃ values, evaluateRows e columns n = Ok values ∧ length values = n
  ∧ ∀ i v, values !! i = Some v →
      evaluate e ((λ col, default false (col !! i)) <$> columns) = Ok v.
Proof.
  intros Hc Hw. eexists. split; [by apply evaluateRows_spec|]. unfold rowsOf.
  split; [by rewrite length_map, length_seq|]. intros i v Hi.
  change (map ?f ?l) with (f <$> l) in Hi. rewrite list_lookup_fmap in Hi.
  destruct (seq 0 n !! i) as [k|] eqn:Hk; [|done]. apply lookup_seq in Hk as [-> Hk].
  injection Hi as <-. rewrite evaluate_den by done. f_equal. apply den_ext. intros x _.
  unfold rowValue, colVal. rewrite lookup_fmap. by destruct (columns !! x).
Qed.

(** * The table given to Espresso *)

Lemma length_rowsOf n f : length (rowsOf n f) = n.
Proof. unfold rowsOf. by rewrite length_map, length_seq. Qed.

Lemma columnsFrom_of n vars : ∀ j columns, columnsOf n columns → columnsOf n (columnsFrom n j vars columns).
Proof.
  induction vars as [|v vars IH]; intros j columns Hc; simpl; [done|]. apply IH.
  intros id col. destruct (decide (id = v)) as [->|Hne].
  - rewrite lookup_insert_eq. intros [= <-]. apply length_rowsOf.
  - rewrite lookup_insert_ne by done. apply Hc.
Qed.

(** On each row, the columns give the variables the values of the row's map. *)
Lemma columnsFrom_row n i x vars : (i < n)%nat → ∀ j columns row,
  colVal columns i x = rowValue row x →
  colVal (columnsFrom n j vars columns) i x = rowValue (rowFrom i j vars row) x.
Proof.
  intros Hi. induction vars as [|v vars IH]; intros j columns row Hx; simpl; [done|]. apply IH.
  unfold colVal, rowValue in *. destruct (decide (x = v)) as [->|Hne].
  - rewrite !lookup_insert_eq. simpl. change (map ?f ?l) with (f <$> l).
    rewrite list_lookup_fmap, lookup_seq_lt by done. done.
  - by rewrite !lookup_insert_ne by done.
Qed.

Definition tableRow (e : BoolExpression) (vars : list string) (i : nat) : gmap string bool * bool :=
  (rowAt vars i, den (rowValue (rowAt vars i)) e).

Lemma generateTruthTable_spec e vars : wf e = true → getVariables e = Ok vars → (length vars < 31)%nat →
  generateTruthTable e = Ok (map (tableRow e vars) (seq 0 (2 ^ length vars))).
Proof.
  intros Hw Hv Hl. unfold generateTruthTable. rewrite Hv. cbn [bind].
  rewrite (proj2 (Nat.leb_gt _ _)) by lia. apply mapM_map. intros i. by rewrite evaluate_den.
Qed.

(** The table [runEspresso] gives to Espresso, of which the expression is
    evaluated on all rows at once, is that of [generateTruthTable]; beyond 24
    variables the program stops. *)
Theorem espressoInput_is_truth_table e : wf e = true → nnf e = true →
  ∃ vars, getVariables e = Ok vars
  ∧ if (length vars <=? 24)%nat
    then ∃ table, generateTruthTable e = Ok table
         ∧ length table = (2 ^ length vars)%nat
         ∧ espressoInput e = Ok (espressoHeader vars
             ++ concatStrings (imap (λ i r, espressoRow (length vars) i (snd r)) table))%string
    else espressoInput e = Bad FatalError.
Proof.
  intros Hw Hn. destruct (getVariables_spec e Hw Hn) as (vars & Hv & _). exists vars. split; [done|].
  unfold espressoInput, checkTruthTableSize, MAX_TRUTH_TABLE_VARIABLES. rewrite Hv. cbn [bind].
  destruct (Nat.leb_spec (length vars) 24) as [Hl|Hl]; [|done]. cbn [bind].
  rewrite (generateTruthTable_spec e vars) by (done || lia).
  eexists; split; [done|]. split; [by rewrite length_map, length_seq|].
  generalize (2 ^ length vars)%nat as n; intros n.
  rewrite evaluateRows_spec by (done || apply columnsFrom_of; intros id col; by rewrite lookup_empty).
  cbn [bind]. rewrite take_ge by by rewrite length_rowsOf. do 4 f_equal.
  change (map ?f ?l) with (f <$> l). rewrite imap_fmap. unfold rowsOf.
  change (map ?f ?l) with (f <$> l). rewrite imap_fmap. apply imap_ext. intros i k Hk.
  apply lookup_seq in Hk as [-> Hk]. simpl. f_equal. apply den_ext. intros x _.
  apply columnsFrom_row; [done|]. unfold colVal, rowValue. by rewrite !lookup_empty.
Qed.

(** * Completeness of the table *)

(** The number of the row of an assignment. *)
Fixpoint rowIndex (vars : list string) (ρ : string → bool) : nat :=
  match vars with
  | [] => 0
  | v :: vars => Nat.b2n (ρ v) + 2 * rowIndex vars ρ
  end.

Lemma rowIndex_lt vars ρ : (rowIndex vars ρ < 2 ^ length vars)%nat.
Proof. induction vars as [|v vars IH]; simpl; [lia|]. destruct (ρ v); simpl; lia. Qed.

Lemma rowIndex_bit vars ρ : ∀ k x, vars !! k = Some x → bit (rowIndex vars ρ) k = ρ x.
Proof.
  unfold bit. induction vars as [|v vars IH]; intros k x Hk; [done|]. cbn [rowIndex].
  destruct k as [|k]; cbn [lookup list_lookup] in Hk.
  - injection Hk as ->. by rewrite Nat.add_b2n_double_bit0.
  - rewrite <-(IH k x Hk), Nat.add_comm. destruct (ρ v); cbn [Nat.b2n].
    + apply Nat.testbit_odd_succ. lia.
    + rewrite Nat.add_0_r. apply Nat.testbit_even_succ. lia.
Qed.

Lemma rowFrom_other i x vars : x ∉ vars → ∀ j row, rowValue (rowFrom i j vars row) x = rowValue row x.
Proof.
  induction vars as [|v vars IH]; intros Hx j row; simpl; [done|].
  apply not_elem_of_cons in Hx as [Hne Hx]. rewrite IH by done.
  unfold rowValue. by rewrite lookup_insert_ne.
Qed.

Lemma rowFrom_bit i vars : NoDup vars → ∀ j row k x, vars !! k = Some x →
  rowValue (rowFrom i j vars row) x = bit i (j + k).
Proof.
  induction 1 as [|v vars Hv _ IH]; intros j row k x Hk; [done|]. simpl.
  destruct k as [|k]; simpl in Hk.
  - injection Hk as ->. rewrite rowFrom_other by done. unfold rowValue. rewrite lookup_insert_eq.
    by rewrite Nat.add_0_r.
  - rewrite (IH (S j) _ k x Hk). f_equal. lia.
Qed.

Lemma bits_bounded n i j : (i < 2 ^ n)%nat → (n ≤ j)%nat → Nat.testbit i j = false.
Proof.
  intros Hi Hj. destruct (decide (i = 0)%nat) as [->|Hne]; [apply Nat.bits_0|].
  apply Nat.bits_above_log2. apply Nat.lt_le_trans with n; [|done]. by apply Nat.log2_lt_pow2; [lia|].
Qed.

(** The truth table of an expression has, for every assignment of its
    variables, exactly one row that makes this assignment, and its result is the
    value of the expression under it. *)
Theorem truth_table_complete e vars ρ :
  wf e = true → nnf e = true → getVariables e = Ok vars → (length vars < 31)%nat →
  ∃ table i row, generateTruthTable e = Ok table ∧ table !! i = Some (row, den ρ e)
  ∧ (∀ x, x ∈ vars → rowValue row x = ρ x)
  ∧ ∀ i' row' v', table !! i' = Some (row', v') → (∀ x, x ∈ vars → rowValue row' x = ρ x) → i' = i.
Proof.
  intros Hw Hn Hv Hl. destruct (getVariables_spec e Hw Hn) as (vars' & Hv' & Ho & Helem).
  rewrite Hv in Hv'. injection Hv' as <-. apply ordered_NoDup in Ho.
  rewrite (generateTruthTable_spec e vars) by done.
  assert (∀ x, x ∈ vars → rowValue (rowAt vars (rowIndex vars ρ)) x = ρ x) as Hrow.
  { intros x Hx. apply list_elem_of_lookup in Hx as [k Hk]. unfold rowAt.
    rewrite (rowFrom_bit _ _ Ho 0 ∅ k x Hk). by apply rowIndex_bit. }
  eexists _, (rowIndex vars ρ), (rowAt vars (rowIndex vars ρ)). split; [done|].
  change (map ?f ?l) with (f <$> l). split; [|split; [done|]].
  - rewrite list_lookup_fmap, lookup_seq_lt by apply rowIndex_lt. simpl. unfold tableRow.
    do 2 f_equal. apply den_ext. intros x Hx. by apply Hrow, Helem.
  - intros i' row' v'. rewrite list_lookup_fmap.
    destruct (seq 0 (2 ^ length vars) !! i') as [k|] eqn:Hk; [|done].
    apply lookup_seq in Hk as [-> Hlt]. intros [= <- _] Hagree. simpl in *.
    apply Nat.bits_inj. intros j. destruct (decide (j < length vars)%nat) as [Hj|Hj].
    + destruct (lookup_lt_is_Some_2 vars j Hj) as [x Hx].
      specialize (Hagree x (list_elem_of_lookup_2 _ _ _ Hx)). unfold rowAt in Hagree.
      rewrite (rowFrom_bit _ _ Ho 0 ∅ j x Hx) in Hagree. simpl in Hagree. unfold bit in Hagree.
      rewrite Hagree. symmetry. by apply rowIndex_bit.
    + rewrite (bits_bounded (length vars) i'), (bits_bounded (length vars) (rowIndex vars ρ));
        [done|apply rowIndex_lt|lia|done|lia].
Qed.

(** * Don't cares *)

Definition toStr : list ascii → string := String.string_of_list_ascii.
Definition ofStr : string → list ascii := String.list_ascii_of_string.

Lemma ofStr_toStr l : ofStr (toStr l) = l.
Proof. apply String.list_ascii_of_string_of_list_ascii. Qed.

Lemma toStr_ofStr s : toStr (ofStr s) = s.
Proof. apply String.string_of_list_ascii_of_string. Qed.

Lemma toStr_inj l l' : toStr l = toStr l' → l = l'.
Proof. intros H. by rewrite <-(ofStr_toStr l), H, ofStr_toStr. Qed.

(** A character fits a character of a pattern. *)
Definition fits (c x : ascii) : Prop := if decide (c = "d"%char) then x = "0"%char ∨ x = "1"%char else x = c.

Definition fitsPattern (p l : list ascii) : Prop := Forall2 fits p l.

Lemma fitsPattern_none p l : "d"%char ∉ p → fitsPattern p l ↔ l = p.
Proof.
  intros Hd. split.
  - intros H. revert Hd. induction H as [|c x p l Hc H IH]; intros Hd; [done|].
    apply not_elem_of_cons in Hd as [Hne Hd]. unfold fits in Hc. rewrite decide_False in Hc by done.
    subst. by rewrite IH.
  - intros ->. induction p as [|c p IH]; constructor.
    + apply not_elem_of_cons in Hd as [Hne Hd]. unfold fits. by rewrite decide_False.
    + apply IH. by apply not_elem_of_cons in Hd as [_ Hd].
Qed.

(** Splitting a pattern at a don't care. *)
Lemma fitsPattern_split p1 p2 l :
  fitsPattern (p1 ++ "d"%char :: p2) l ↔
  fitsPattern (p1 ++ "0"%char :: p2) l ∨ fitsPattern (p1 ++ "1"%char :: p2) l.
Proof.
  unfold fitsPattern. split.
  - intros (l1 & l2 & H1 & H2 & ->)%Forall2_app_inv_l. inversion H2 as [|? x ? l2' Hx H2']; subst.
    unfold fits in Hx. rewrite decide_True in Hx by done.
    destruct Hx as [->| ->]; [left|right]; apply Forall2_app; done || (constructor; done).
  - intros [(l1 & l2 & H1 & H2 & ->)%Forall2_app_inv_l|(l1 & l2 & H1 & H2 & ->)%Forall2_app_inv_l];
      inversion H2 as [|? x ? l2' Hx H2']; subst; unfold fits in Hx; rewrite decide_False in Hx by done; subst;
      (apply Forall2_app; [done|]); constructor; try done; unfold fits; rewrite decide_True by done; auto.
Qed.

Definition dontCares (p : list ascii) : nat := length (filter (λ c, c = "d"%char) p).

Lemma findChar_split c p i : findChar c p = Some i →
  ∃ p1 p2, p = p1 ++ c :: p2 ∧ length p1 = i ∧ c ∉ p1.
Proof.
  unfold findChar. destruct (list_find _ p) as [[j x]|] eqn:Hf; [|done]. intros [= <-].
  apply list_find_Some in Hf as (Hj & -> & Hbefore).
  exists (take j p), (drop (S j) p). split; [|split].
  - symmetry. by apply take_drop_middle.
  - rewrite length_take. apply lookup_lt_Some in Hj. lia.
  - intros (k & Hk)%list_elem_of_lookup. rewrite lookup_take_Some in Hk. destruct Hk as [Hk Hlt].
    by apply (Hbefore k c).
Qed.

Lemma findChar_none c p : findChar c p = None → c ∉ p.
Proof.
  unfold findChar. destruct (list_find _ p) as [[j x]|] eqn:Hf; [done|]. intros _ Hin.
  apply list_find_None in Hf. rewrite Forall_elem in Hf. by eapply Hf.
Qed.

Lemma replaceDontCaresRec_spec fuel : ∀ p m, (dontCares p < fuel)%nat → ordered m →
  ∃ m', replaceDontCaresRec fuel p m = Ok m' ∧ ordered m'
  ∧ ∀ x, x ∈ m' ↔ x ∈ m ∨ fitsPattern p (ofStr x).
Proof.
  induction fuel as [|fuel IH]; intros p m Hf Ho; [lia|]. cbn [replaceDontCaresRec].
  destruct (findChar "d" p) as [i|] eqn:Hi.
  - destruct (findChar_split _ _ _ Hi) as (p1 & p2 & -> & <- & _).
    rewrite !insert_app_r_alt, Nat.sub_diag by lia. simpl.
    unfold dontCares in *. rewrite list.filter_app, filter_cons_True, length_app in Hf by done. simpl in Hf.
    destruct (IH (p1 ++ "0"%char :: p2) m) as (m1 & -> & Ho1 & H1); [|done|].
    { rewrite list.filter_app, filter_cons_False, length_app by done. lia. }
    cbn [bind]. destruct (IH (p1 ++ "1"%char :: p2) m1) as (m2 & -> & Ho2 & H2); [|done|].
    { rewrite list.filter_app, filter_cons_False, length_app by done. lia. }
    exists m2. split; [done|]. split; [done|]. intros x. rewrite H2, H1, fitsPattern_split. tauto.
  - eexists; split; [done|]. split; [by apply set_insert_ordered|]. intros x.
    rewrite set_insert_elem, fitsPattern_none by by apply findChar_none. fold (toStr p).
    split; [intros [->|?]; [right; apply ofStr_toStr|by left]|].
    intros [?|Hx]; [by right|]. left. by rewrite <-Hx, toStr_ofStr.
Qed.

Lemma dontCares_le p : (dontCares p ≤ length p)%nat.
Proof. unfold dontCares. induction p as [|c p IH]; [done|]. rewrite filter_cons. case_decide; simpl; lia. Qed.

Lemma replaceDontCares_spec ms : ∃ out, replaceDontCares ms = Ok out ∧ ordered out
  ∧ ∀ x, x ∈ out ↔ ∃ p, p ∈ ms ∧ fitsPattern (ofStr p) (ofStr x).
Proof.
  unfold replaceDontCares.
  assert (∀ acc, ordered acc → ∃ out, foldM (λ out s, let l := String.list_ascii_of_string s in
      replaceDontCaresRec (S (length l)) l out) acc ms = Ok out ∧ ordered out
    ∧ ∀ x, x ∈ out ↔ x ∈ acc ∨ ∃ p, p ∈ ms ∧ fitsPattern (ofStr p) (ofStr x)) as H.
  { induction ms as [|s ms IH]; intros acc Ho; simpl.
    - exists acc. split; [done|]. split; [done|]. intros x. split; [by left|].
      intros [?|(p & Hp & _)]; [done|by inversion Hp].
    - destruct (replaceDontCaresRec_spec (S (length (ofStr s))) (ofStr s) acc) as (m & Hm & Hom & Hx);
        [pose proof (dontCares_le (ofStr s)); lia|done|].
      unfold ofStr in Hm at 1 2. simpl in Hm. rewrite Hm. cbn [bind].
      destruct (IH m Hom) as (out & Hout & Hoo & Hxo). exists out. split; [exact Hout|]. split; [done|].
      intros x. rewrite Hxo, Hx. setoid_rewrite elem_of_cons. naive_solver. }
  destruct (H [] ltac:(constructor)) as (out & Hout & Ho & Hx). exists out. split; [done|]. split; [done|].
  intros x. rewrite Hx. split; [intros [Hn|?]; [by inversion Hn|done]|by right].
Qed.

(** Replacing the don't cares of a set of minterms terminates and gives
    exactly the strings that fit one of them, each 'd' standing for '0' or '1'. *)
Theorem replaceDontCares_correct ms : ∃ out, replaceDontCares ms = Ok out ∧ NoDup out
  ∧ ∀ x, x ∈ out ↔ ∃ p, p ∈ ms ∧ fitsPattern (ofStr p) (ofStr x).
Proof.
  destruct (replaceDontCares_spec ms) as (out & Hout & Ho & Hx). exists out. auto with dyn.
Qed.

(** * The table of a sum of products *)

(** A product of literals and constants. *)
Fixpoint isProduct (e : BoolExpression) : bool :=
  match e with
  | Operator And l r => isProduct l && isProduct r
  | SingleCond (Variable_ | Zero | One) _ _ | PlainExpression (Zero | One) => true
  | _ => false
  end.

(** A sum of products, each of them a conjunction or a constant. *)
Fixpoint isSop (e : BoolExpression) : bool :=
  match e with
  | Operator Or l r => isSop l && isSop r
  | Operator And l r => isProduct l && isProduct r
  | SingleCond (Zero | One) _ _ | PlainExpression (Zero | One) => true
  | _ => false
  end.

(** What a character of a minterm asks of its variable. *)
Definition charHolds (b : bool) (c : ascii) : bool :=
  match c with "d"%char => true | "1"%char => b | "0"%char => negb b | _ => false end.

Definition mintermChars (p : list ascii) : Prop :=
  Forall (λ c, c = "d"%char ∨ c = "0"%char ∨ c = "1"%char ∨ c = "n"%char) p.

(** An assignment satisfies a minterm. *)
Definition holds (vars : list string) (ρ : string → bool) (p : list ascii) : Prop :=
  Forall2 (λ x c, charHolds (ρ x) c = true) vars p.

Lemma mintermChar_holds neg b c : c = "d"%char ∨ c = "0"%char ∨ c = "1"%char ∨ c = "n"%char →
  charHolds b (mintermChar neg c) = charHolds b c && xorb neg b
  ∧ (mintermChar neg c = "d"%char ∨ mintermChar neg c = "0"%char
     ∨ mintermChar neg c = "1"%char ∨ mintermChar neg c = "n"%char).
Proof. intros [->|[->|[->| ->]]]; destruct neg, b; simpl; auto. Qed.

Lemma holds_insert vars ρ p i x c c' b : vars !! i = Some x → p !! i = Some c →
  charHolds (ρ x) c' = charHolds (ρ x) c && b →
  holds vars ρ (<[i := c']> p) ↔ holds vars ρ p ∧ b = true.
Proof.
  intros Hx Hc Hb. unfold holds. rewrite !Forall2_same_length_lookup, length_insert.
  split.
  - intros [Hl Hall].
    assert (charHolds (ρ x) c' = true) as Hc'.
    { apply (Hall i x c' Hx). apply list_lookup_insert_eq. by eapply lookup_lt_Some. }
    rewrite Hb in Hc'. apply andb_true_iff in Hc' as [Hh Hbt]. split; [|done]. split; [done|].
    intros j y d Hy Hd. destruct (decide (i = j)) as [<-|Hne].
    + by simplify_eq.
    + apply (Hall j y d Hy). by rewrite list_lookup_insert_ne.
  - intros [[Hl Hall] Hbt]. split; [done|]. intros j y d Hy Hd.
    destruct (decide (i = j)) as [<-|Hne].
    + rewrite list_lookup_insert_eq in Hd by by eapply lookup_lt_Some. injection Hd as <-.
      rewrite Hx in Hy. injection Hy as <-. by rewrite Hb, (Hall i x c Hx Hc), Hbt.
    + rewrite list_lookup_insert_ne in Hd by done. by apply (Hall j).
Qed.

Lemma varIndex_lookup vars id : id ∈ vars → vars !! varIndex vars id = Some id.
Proof.
  intros Hin. unfold varIndex. destruct (list_find (λ v, v = id) vars) as [[i x]|] eqn:Hf; simpl.
  - by apply list_find_Some in Hf as (Hi & -> & _).
  - apply list_find_None in Hf. rewrite Forall_elem in Hf. by destruct (Hf id Hin).
Qed.

Section Minterms.
Context (vars : list string) (Hne : vars ≠ []).

Definition mintermOf (p : list ascii) : Prop := length p = length vars ∧ mintermChars p.

Lemma minterm_insert p i c : mintermOf p → c = "d"%char ∨ c = "0"%char ∨ c = "1"%char ∨ c = "n"%char →
  mintermOf (<[i := c]> p).
Proof.
  intros [Hl Hc] Hd. split; [by rewrite length_insert|]. unfold mintermChars.
  by apply Forall_insert.
Qed.

Lemma generateMintermAnd_spec e : isProduct e = true → (∀ x, occurs x e → x ∈ vars) → ∀ p, mintermOf p →
  ∃ p', generateMintermAnd vars e p = Ok p' ∧ mintermOf p'
  ∧ ∀ ρ, holds vars ρ p' ↔ holds vars ρ p ∧ den ρ e = true.
Proof.
  induction e as [|t id neg|t l IHl r IHr|t]; simpl; intros Hp Hv p Hm; try done.
  - destruct t; try done.
    + unfold generateMintermVariable. pose proof (varIndex_lookup vars id (Hv id eq_refl)) as Hx.
      destruct (lookup_lt_is_Some_2 p (varIndex vars id)) as [c Hc].
      { destruct Hm as [-> _]. by eapply lookup_lt_Some. }
      unfold at_. rewrite Hc. cbn [of_option bind]. eexists; split; [done|].
      assert (c = "d"%char ∨ c = "0"%char ∨ c = "1"%char ∨ c = "n"%char) as Hcc.
      { destruct Hm as [_ Hm]. unfold mintermChars in Hm. rewrite Forall_lookup in Hm. by eapply Hm. }
      split; [by apply minterm_insert; [|eapply (mintermChar_holds neg true c)]|].
      intros ρ. eapply holds_insert; [done..|]. by apply mintermChar_holds.
    + destruct (lookup_lt_is_Some_2 p 0) as [c Hc]; [destruct Hm as [-> _], vars; simpl; [done|lia]|].
      unfold at_. rewrite Hc. cbn [of_option bind]. eexists; split; [done|].
      split; [by apply minterm_insert; auto|]. intros ρ.
      destruct vars as [|x vs] eqn:Hvs; [done|].
      eapply (holds_insert _ _ _ 0 x); [done..|]. simpl. by rewrite andb_false_r.
    + exists p. split; [done|]. split; [done|]. intros ρ. by split; [intros|intros []].
  - destruct t; try done. wf_inv.
    assert (isNull l = false ∧ isNull r = false) as [-> ->] by by destruct l, r.
    destruct (IHl ltac:(done) ltac:(auto) p Hm) as (p1 & -> & Hm1 & H1). cbn [bind].
    destruct (IHr ltac:(done) ltac:(auto) p1 Hm1) as (p2 & -> & Hm2 & H2). exists p2.
    split; [done|]. split; [done|]. intros ρ. rewrite H2, H1, andb_true_iff. tauto.
  - destruct t; try done.
    + destruct (lookup_lt_is_Some_2 p 0) as [c Hc]; [destruct Hm as [-> _], vars; simpl; [done|lia]|].
      unfold at_. rewrite Hc. cbn [of_option bind]. eexists; split; [done|].
      split; [by apply minterm_insert; auto|]. intros ρ.
      destruct vars as [|x vs] eqn:Hvs; [done|].
      eapply (holds_insert _ _ _ 0 x); [done..|]. simpl. by rewrite andb_false_r.
    + exists p. split; [done|]. split; [done|]. intros ρ. by split; [intros|intros []].
Qed.

Definition allDontCares : list ascii := replicate (length vars) "d"%char.

Lemma allDontCares_minterm : mintermOf allDontCares.
Proof. unfold mintermOf, allDontCares. rewrite length_replicate. split; [done|]. apply Forall_replicate. auto. Qed.

Lemma allDontCares_holds ρ : holds vars ρ allDontCares.
Proof. unfold holds, allDontCares. clear. induction vars; simpl; constructor; auto. Qed.

(** The minterms kept: no void character. *)
Definition validMinterm (m : string) : Prop :=
  length (ofStr m) = length vars ∧ Forall (λ c, c = "d"%char ∨ c = "0"%char ∨ c = "1"%char) (ofStr m).

Definition validMinterms (M : list string) : Prop := ordered M ∧ ∀ m, m ∈ M → validMinterm m.

Definition covers (M : list string) (ρ : string → bool) : Prop := ∃ m, m ∈ M ∧ holds vars ρ (ofStr m).

Lemma covers_insert M p ρ : covers (set_insert (toStr p) M) ρ ↔ covers M ρ ∨ holds vars ρ p.
Proof.
  unfold covers. setoid_rewrite set_insert_elem. split.
  - intros (m & [->|Hm] & Hh); [right; by rewrite ofStr_toStr in Hh|left; eauto].
  - intros [(m & Hm & Hh)|Hh]; [eauto|]. exists (toStr p). rewrite ofStr_toStr. auto.
Qed.

Lemma validMinterms_insert M p : validMinterms M → mintermOf p → "n"%char ∉ p →
  validMinterms (set_insert (toStr p) M).
Proof.
  intros [Ho Hv] [Hl Hc] Hn. split; [by apply set_insert_ordered|].
  intros m [->|Hm]%set_insert_elem; [|by apply Hv]. unfold validMinterm. rewrite ofStr_toStr.
  split; [done|]. apply Forall_elem. intros c Hin. unfold mintermChars in Hc. rewrite Forall_elem in Hc.
  destruct (Hc c Hin) as [->|[->|[->| ->]]]; auto; done.
Qed.

Lemma void_not_holds p ρ : "n"%char ∈ p → ¬ holds vars ρ p.
Proof.
  intros (i & Hi)%list_elem_of_lookup Hh. destruct (Forall2_lookup_r _ _ _ _ _ Hh Hi) as (x & _ & Hx). done.
Qed.

Lemma all_covers M ρ : covers (set_insert (toStr allDontCares) M) ρ.
Proof. apply covers_insert. right. apply allDontCares_holds. Qed.

Lemma no_void_all : "n"%char ∉ allDontCares.
Proof. unfold allDontCares. by intros [? _]%elem_of_replicate. Qed.

Lemma generateMintermsOr_spec e : isSop e = true → (∀ x, occurs x e → x ∈ vars) → ∀ M, validMinterms M →
  ∃ M', generateMintermsOr vars e M = Ok M' ∧ validMinterms M'
  ∧ ∀ ρ, covers M' ρ ↔ covers M ρ ∨ den ρ e = true.
Proof.
  assert (∀ M, validMinterms M → validMinterms (set_insert (toStr allDontCares) M)) as Hall.
  { intros M HM. apply validMinterms_insert; [done|apply allDontCares_minterm|apply no_void_all]. }
  induction e as [|t id neg|t l IHl r IHr|t]; simpl; intros Hp Hv M HM; try done.
  - destruct t; try done; eexists; (split; [done|]); (split; [auto|]); intros ρ; simpl.
    + split; [auto|]. by intros [].
    + split; [auto|]. intros _. apply all_covers.
  - destruct t; try done; wf_inv.
    + assert (isNull l = false ∧ isNull r = false) as [-> ->] by by destruct l, r.
      destruct (IHl ltac:(done) ltac:(auto) M HM) as (M1 & -> & HM1 & H1). cbn [bind].
      destruct (IHr ltac:(done) ltac:(auto) M1 HM1) as (M2 & -> & HM2 & H2). exists M2.
      split; [done|]. split; [done|]. intros ρ. rewrite H2, H1, orb_true_iff. tauto.
    + destruct (generateMintermAnd_spec (Operator And l r)) with (p := allDontCares)
        as (p & Hg & Hm & Hh); [by simpl; rewrite H, H0|done|apply allDontCares_minterm|].
      cbn [generateMintermAnd] in Hg. fold allDontCares. rewrite Hg. cbn [bind].
      destruct (findChar "n" p) as [i|] eqn:Hn.
      * exists M. split; [done|]. split; [done|]. intros ρ. split; [auto|]. intros [?|Hd]; [done|].
        destruct (findChar_split _ _ _ Hn) as (p1 & p2 & -> & _).
        destruct (void_not_holds (p1 ++ "n"%char :: p2) ρ).
        { apply elem_of_app. right. by left. }
        apply Hh. split; [apply allDontCares_holds|done].
      * eexists; split; [done|]. split; [apply validMinterms_insert; [done..|by apply findChar_none]|].
        intros ρ. fold (toStr p). rewrite covers_insert, Hh. pose proof (allDontCares_holds ρ). simpl. tauto.
  - destruct t; try done; eexists; (split; [done|]); (split; [auto|]); intros ρ; simpl.
    + split; [auto|]. by intros [].
    + split; [auto|]. intros _. apply all_covers.
Qed.

(** ** Rows as strings *)

Definition bitChar (b : bool) : ascii := if b then "1"%char else "0"%char.

(** The row in which the variables take the values [bits]. *)
Definition rowString (bits : list bool) : list ascii := map bitChar bits.

Definition assignment (bits : list bool) (x : string) : bool := default false (bits !! varIndex vars x).

Lemma fits_bitChar c b : c = "d"%char ∨ c = "0"%char ∨ c = "1"%char → fits c (bitChar b) ↔ charHolds b c = true.
Proof.
  unfold fits. intros [->|[->| ->]]; simpl;
    destruct b; simpl; naive_solver.
Qed.

Lemma varIndex_unique : NoDup vars → ∀ i x, vars !! i = Some x → varIndex vars x = i.
Proof.
  intros Hnd i x Hi. eapply (NoDup_lookup vars); [done| |exact Hi].
  apply varIndex_lookup. by eapply list_elem_of_lookup_2.
Qed.

Lemma fitsPattern_row m bits : NoDup vars → validMinterm m → length bits = length vars →
  fitsPattern (ofStr m) (rowString bits) ↔ holds vars (assignment bits) (ofStr m).
Proof.
  intros Hnd [Hl Hc] Hb. unfold fitsPattern, holds, rowString. rewrite !Forall2_same_length_lookup.
  rewrite length_map, Hl, Hb. split; intros [_ H]; (split; [done|]).
  - intros i x c Hx Hi. rewrite Forall_lookup in Hc. specialize (Hc i c Hi).
    destruct (lookup_lt_is_Some_2 bits i) as [b Hbi]; [rewrite Hb; by eapply lookup_lt_Some|].
    unfold assignment. rewrite (varIndex_unique Hnd i x Hx), Hbi. simpl.
    apply fits_bitChar; [done|]. apply (H i); [done|]. change (map ?f ?l) with (f <$> l).
    by rewrite list_lookup_fmap, Hbi.
  - intros i c y Hi Hy. rewrite Forall_lookup in Hc. specialize (Hc i c Hi).
    change (map ?f ?l) with (f <$> l) in Hy. rewrite list_lookup_fmap in Hy.
    destruct (bits !! i) as [b|] eqn:Hbi; [|done]. injection Hy as <-.
    destruct (lookup_lt_is_Some_2 vars i) as [x Hx]; [rewrite <-Hb; by eapply lookup_lt_Some|].
    apply fits_bitChar; [done|]. specialize (H i x c Hx Hi). unfold assignment in H.
    by rewrite (varIndex_unique Hnd i x Hx), Hbi in H.
Qed.

Lemma fitsPattern_all l : fitsPattern allDontCares l ↔ ∃ bits, length bits = length vars ∧ l = rowString bits.
Proof.
  unfold fitsPattern, allDontCares, rowString. generalize (length vars) as n. clear. intros n. revert l.
  induction n as [|n IH]; intros l; simpl.
  - split; [intros H; inversion H; by exists []|]. intros (bits & Hl & ->). destruct bits; [constructor|done].
  - split.
    + intros H. inversion H as [|? x ? l' Hx Hl]; subst. apply IH in Hl as (bits & Hb & ->).
      unfold fits in Hx. rewrite decide_True in Hx by done.
      destruct Hx as [->| ->]; [exists (false :: bits)|exists (true :: bits)]; simpl; by rewrite Hb.
    + intros (bits & Hl & ->). destruct bits as [|b bits]; [done|]. constructor.
      * unfold fits. rewrite decide_True by done. destruct b; auto.
      * apply IH. exists bits. by injection Hl.
Qed.

End Minterms.

(** * The table *)

Lemma isSop_wf e : isSop e = true → wf e = true ∧ nnf e = true.
Proof.
  assert (∀ e, isProduct e = true → wf e = true ∧ nnf e = true) as Hprod.
  { clear. intros e. induction e as [|t id neg|t l IHl r IHr|t]; simpl; intros H; try done; destruct t; try done.
    wf_inv. destruct (IHl ltac:(done)) as [-> ->], (IHr ltac:(done)) as [-> ->]. done. }
  induction e as [|t id neg|t l IHl r IHr|t]; simpl; intros H; try done; destruct t; try done; wf_inv.
  - destruct (IHl ltac:(done)) as [-> ->], (IHr ltac:(done)) as [-> ->]. done.
  - destruct (Hprod l ltac:(done)) as [-> ->], (Hprod r ltac:(done)) as [-> ->]. done.
Qed.

(** A line of the table. *)
Definition tableLine (bits : list bool) (v : bool) : string := toStr (rowString bits ++ [bitChar v]).

Lemma tableLine_inj bits v bits' v' : tableLine bits v = tableLine bits' v' → bits = bits' ∧ v = v'.
Proof.
  intros [Hb Hv]%toStr_inj%app_inj_tail. split.
  - revert bits' Hb. induction bits as [|b bits IH]; intros [|b' bits'] Hb; try discriminate Hb; [done|].
    simpl in Hb. injection Hb as Hc Hb. f_equal; [by destruct b, b'|by apply IH].
  - by destruct v, v'.
Qed.

Lemma toStr_snoc l c : (toStr l ++ String c EmptyString)%string = toStr (l ++ [c]).
Proof. unfold toStr. induction l as [|a l IH]; [done|]. simpl. by rewrite <-IH. Qed.

Lemma fold_lines (f : string → string) rows : ∀ acc x,
  x ∈ foldl (λ t row, set_insert (f row) t) acc rows ↔ x ∈ acc ∨ ∃ row, row ∈ rows ∧ x = f row.
Proof.
  induction rows as [|row rows IH]; intros acc x; simpl.
  - split; [auto|]. intros [?|(? & Hr & _)]; [done|by inversion Hr].
  - rewrite IH, set_insert_elem. setoid_rewrite elem_of_cons. naive_solver.
Qed.

(** The table [generateTruthTableSop] builds from the minterms of a sum of
    products, each product a conjunction, is the truth table of the expression:
    it has, for every row of values of the variables, the line with the value of
    the expression on it, and no other line. *)
Theorem sop_table_correct e vars : isSop e = true → getVariables e = Ok vars → vars ≠ [] →
  ∃ table, generateTruthTableSop e = Ok table
  ∧ ∀ x, x ∈ table ↔ ∃ bits, length bits = length vars ∧ x = tableLine bits (den (assignment vars bits) e).
Proof.
  intros Hs Hv Hne. destruct (isSop_wf e Hs) as [Hw Hn].
  destruct (getVariables_spec e Hw Hn) as (vars' & Hv' & Ho & Hocc). rewrite Hv in Hv'. injection Hv' as <-.
  apply ordered_NoDup in Ho. unfold generateTruthTableSop. rewrite Hv. cbn [bind].
  destruct (generateMintermsOr_spec vars Hne e Hs (λ x, proj2 (Hocc x)) []) as (M & -> & [_ HM] & Hcov).
  { split; [constructor|]. intros m Hm. by inversion Hm. }
  cbn [bind]. destruct (replaceDontCares_spec M) as (M' & -> & _ & HM'). cbn [bind].
  fold (toStr (replicate (length vars) "d"%char)). fold (allDontCares vars).
  destruct (replaceDontCares_spec [toStr (allDontCares vars)]) as (rows & -> & _ & Hrows). cbn [bind].
  eexists; split; [done|]. intros x. rewrite fold_lines.
  assert (∀ bits, length bits = length vars →
    set_mem (toStr (rowString bits)) M' = den (assignment vars bits) e) as Hflag.
  { intros bits Hb. apply eq_true_iff_eq. rewrite set_mem_spec, HM'. rewrite ofStr_toStr.
    etransitivity; [|etransitivity; [apply (Hcov (assignment vars bits))|]].
    - unfold covers. split; intros (m & Hm & Hf); exists m; (split; [done|]);
        by apply (fitsPattern_row vars Hne m bits Ho (HM m Hm) Hb).
    - split; [|by right]. intros [(m & Hm & _)|?]; [by inversion Hm|done]. }
  assert (∀ row, row ∈ rows ↔ ∃ bits, length bits = length vars ∧ row = toStr (rowString bits)) as Hr.
  { intros row. rewrite Hrows. split.
    - intros (p & Hp & Hf). apply list_elem_of_singleton in Hp as ->. rewrite ofStr_toStr in Hf.
      apply fitsPattern_all in Hf as (bits & Hb & Hrow). exists bits. split; [done|].
      by rewrite <-Hrow, toStr_ofStr.
    - intros (bits & Hb & ->). exists (toStr (allDontCares vars)). split; [by left|].
      rewrite !ofStr_toStr. apply fitsPattern_all. eauto. }
  split.
  - intros [Hx|(row & Hrow & ->)]; [by inversion Hx|]. apply Hr in Hrow as (bits & Hb & ->).
    exists bits. split; [done|]. rewrite (Hflag bits Hb). unfold tableLine. rewrite <-toStr_snoc.
    by destruct (den _ e).
  - intros (bits & Hb & ->). right. exists (toStr (rowString bits)). split; [apply Hr; eauto|].
    rewrite (Hflag bits Hb). unfold tableLine. rewrite <-toStr_snoc. by destruct (den _ e).
Qed.

(** A product that is a single literal contributes no minterm: the table of
    the variable [a], or of [a + b . c], is false where only [a] is true. *)
Theorem sop_table_ignores_single_literals :
  generateTruthTableSop (boolVar "a") = Ok ["00"; "10"]%string
  ∧ evaluate (boolVar "a") {["a"%string := true]} = Ok true
  ∧ (let e := boolOr (boolVar "a") (boolAnd (boolVar "b") (boolVar "c")) in
     generateTruthTableSop e
       = Ok ["0000"; "0010"; "0100"; "0111"; "1000"; "1010"; "1100"; "1111"]%string
     ∧ evaluate e {["a"%string := true]} = Ok true).
Proof. repeat split. Qed.

(** * Witnesses *)

Definition table_sop : BoolExpression :=
  boolOr boolZero (boolAnd (boolAnd boolOne (boolVar "c1")) (SingleCond Variable_ "c2" true)).
Definition table_columns : gmap string (list bool) :=
  {["c1"%string := [true; true; false]; "c2"%string := [true; false; false]]}.

Lemma evaluateRows_agrees_witness :
  ∃ values, evaluateRows table_sop table_columns 3 = Ok values ∧ length values = 3%nat
  ∧ ∀ i v, values !! i = Some v →
      evaluate table_sop ((λ col, default false (col !! i)) <$> table_columns) = Ok v.
Proof.
  apply (evaluateRows_agrees 3 table_columns table_sop); [|reflexivity].
  intros id col. unfold table_columns. rewrite lookup_insert_Some, lookup_singleton_Some. naive_solver.
Defined.

Lemma espressoInput_is_truth_table_witness :
  ∃ vars, getVariables table_sop = Ok vars
  ∧ if (length vars <=? 24)%nat
    then ∃ table, generateTruthTable table_sop = Ok table
         ∧ length table = (2 ^ length vars)%nat
         ∧ espressoInput table_sop = Ok (espressoHeader vars
             ++ concatStrings (imap (λ i r, espressoRow (length vars) i (snd r)) table))%string
    else espressoInput table_sop = Bad FatalError.
Proof. apply (espressoInput_is_truth_table table_sop); reflexivity. Defined.

Lemma truth_table_complete_witness :
  ∃ table i row, generateTruthTable table_sop = Ok table
  ∧ table !! i = Some (row, den (String.eqb "c1") table_sop)
  ∧ (∀ x, x ∈ ["c1"; "c2"]%string → rowValue row x = String.eqb "c1" x)
  ∧ ∀ i' row' v', table !! i' = Some (row', v') →
      (∀ x, x ∈ ["c1"; "c2"]%string → rowValue row' x = String.eqb "c1" x) → i' = i.
Proof.
  apply (truth_table_complete table_sop ["c1"; "c2"]%string (String.eqb "c1"));
    [reflexivity|reflexivity|reflexivity|simpl; lia].
Defined.

Lemma sop_table_correct_witness :
  ∃ table, generateTruthTableSop table_sop = Ok table
  ∧ ∀ x, x ∈ table ↔ ∃ bits, length bits = 2%nat
      ∧ x = tableLine bits (den (assignment ["c1"; "c2"]%string bits) table_sop).
Proof. apply (sop_table_correct table_sop ["c1"; "c2"]%string); [reflexivity|reflexivity|done]. Defined.
