(* ===== verification/BoolBDD.v ===== *)
(** Minimization of boolean expressions by Espresso and binary decision diagrams
    (runEspresso, boolMinimize of BoolExpression.cpp; BDD.cpp).  Espresso is a
    parameter: [run_espresso] is its reply to an input. *)

From stdpp Require Import strings gmap.
From Stdlib Require Import Ascii.
From S2P Require Import StdString BoolExpr BoolParser BoolTables Prelude.

(** * The reply's text *)

(** [(int) s.find(c)]: -1 if there is none. *)
Definition findZ (c : ascii) (s : string) : Z :=
  match findChar c (ofStr s) with Some i => Z.of_nat i | None => -1 end.

(** [s.substr(pos, len)]: a negative length is a huge [size_t]. *)
Definition substr (s : string) (pos len : Z) : res string :=
  if (pos <? 0) || (Z.of_nat (String.length s) <? pos) then Bad OutOfRange
  else let rest := drop (Z.to_nat pos) (ofStr s) in
       Ok (toStr (if len <? 0 then rest else take (Z.to_nat len) rest)).

(** What follows the first [=], up to the first [;]. *)
Definition equationBody (result : string) : res string :=
  let start := findZ "=" result in
  let end_ := findZ ";" result in
  substr result (start + 1) (end_ - start - 1).

(** * Restriction *)

(** [restrict] changes the expression in place. *)
Fixpoint restrict (e : BoolExpression) (var : string) (expressionValue : bool) : res BoolExpression :=
  match e with
  | nullptr => Bad NullDeref
  | SingleCond t id neg =>
      match t with
      | Variable_ =>
          if String.eqb id var
          then Ok (SingleCond (if neg then (if expressionValue then Zero else One)
                               else (if expressionValue then One else Zero)) id neg)
          else Ok e
      | And | Or => Bad BadCast
      | _ => Ok e
      end
  | Operator t l r =>
      if isAndOr t then
        let* l' := if isNull l then Ok l else restrict l var expressionValue in
        let* r' := if isNull r then Ok r else restrict r var expressionValue in
        Ok (Operator t l' r')
      else match t with Variable_ => Bad BadCast | _ => Ok e end
  | PlainExpression t =>
      match t with Variable_ | And | Or => Bad BadCast | _ => Ok e end
  end.

Definition update (ρ : string → bool) (x : string) (b : bool) (y : string) : bool :=
  if String.eqb y x then b else ρ y.

Lemma restrict_spec e var b : wf e = true → nnf e = true →
  ∃ e', restrict e var b = Ok e' ∧ wf e' = true ∧ nnf e' = true
  ∧ (∀ ρ, den ρ e' = den (update ρ var b) e)
  ∧ ∀ x, occurs x e' → occurs x e.
Proof.
  induction e as [|t id neg|t l IHl r IHr|t]; simpl; intros Hw Hn; try done.
  - destruct t; try done; try by eexists. unfold update.
    destruct (String.eqb_spec id var) as [->|Hne]; eexists; (split; [done|]).
    + split; [by destruct neg, b|]. split; [done|]. split; [intros ρ; by destruct neg, b|].
      intros x. simpl. by destruct neg, b.
    + split; [done|]. split; [done|]. split; [|done]. intros ρ. simpl.
      by destruct (String.eqb_spec id var).
  - wf_inv. destruct t; try done; simpl; wf_inv;
      destruct (IHl ltac:(assumption) ltac:(assumption)) as (l' & -> & Hwl & Hnl & Hdl & Hol);
      destruct (IHr ltac:(assumption) ltac:(assumption)) as (r' & -> & Hwr & Hnr & Hdr & Hor); simpl;
      (eexists; split; [done|]); simpl; rewrite Hwl, Hnl, Hwr, Hnr; (split; [done|]); (split; [done|]);
      (split; [intros ρ; by rewrite Hdl, Hdr|naive_solver]).
  - destruct t; try done; by eexists.
Qed.

(** Restricting a variable gives an expression with the value the original
    has when the variable takes that value. *)
Theorem restrict_correct e var b row : wf e = true → nnf e = true →
  ∃ e' v, restrict e var b = Ok e' ∧ evaluate e' row = Ok v ∧ evaluate e (<[var := b]> row) = Ok v.
Proof.
  intros Hw Hn. destruct (restrict_spec e var b Hw Hn) as (e' & He & Hw' & _ & Hd & _).
  exists e', (den (update (rowValue row) var b) e). rewrite !evaluate_den, Hd by done.
  split; [done|]. split; [done|]. f_equal. apply den_ext. intros x _. unfold update, rowValue.
  destruct (String.eqb_spec x var) as [->|Hne]; [by rewrite lookup_insert_eq|by rewrite lookup_insert_ne].
Qed.

Lemma restrict_correct_witness :
  ∃ e' v, restrict (Operator And (boolVar "a") (boolVar "b")) "a" true = Ok e'
  ∧ evaluate e' {["b"%string := true]} = Ok v
  ∧ evaluate (Operator And (boolVar "a") (boolVar "b")) (<["a"%string := true]> {["b"%string := true]}) = Ok v.
Proof. apply restrict_correct; reflexivity. Defined.

(** * Minimization *)

Section Espresso.
Context (run_espresso : string → string).

Definition espressoResult (result : string) : res string :=
  if String.eqb result "Failed to Minimize" then Ok result else equationBody result.

Definition runEspresso (e : BoolExpression) : res string :=
  let* input := espressoInput e in espressoResult (run_espresso input).

Definition runEspressoSop (e : BoolExpression) : res string :=
  let* input := espressoInputSop e in espressoResult (run_espresso input).

(** What both minimizations do with the text. *)
Definition fromEspresso (e : BoolExpression) (espressoResult : string) : res BoolExpression :=
  if String.eqb espressoResult "Failed to minimize" then Ok e
  else if String.eqb espressoResult " " then Ok (PlainExpression Zero)
  else if String.eqb espressoResult " ()" then Ok (PlainExpression One)
  else parseSop espressoResult.

Definition boolMinimize (e : BoolExpression) : res BoolExpression :=
  let* r := runEspresso e in fromEspresso e r.

Definition boolMinimizeSop (e : BoolExpression) : res BoolExpression :=
  let* r := runEspressoSop e in fromEspresso e r.

(** * Binary decision diagrams *)

Inductive BDD : Type :=
| BDD_leaf (boolVariable : BoolExpression)
| BDD_node (ni pi : BDD) (boolVariable : BoolExpression).

(** The first of the listed variables that is in the set, and what follows it. *)
Fixpoint nextVariable (variables variableList : list string) : option (string * list string) :=
  match variableList with
  | [] => None
  | v :: vs => if set_mem v variables then Some (v, vs) else nextVariable variables vs
  end.

Definition isLeafType (t : ExpressionType) : bool :=
  match t with Variable_ | Zero | One => true | _ => false end.

(** A cofactor: a copy, restricted and minimized. *)
Definition cofactor (e : BoolExpression) (var : string) (b : bool) : res BoolExpression :=
  let* copy := deepCopy e in
  let* restricted := restrict copy var b in
  boolMinimize restricted.

Fixpoint buildBDDFrom (fuel : nat) (e : BoolExpression) (variableList : list string) : res BDD :=
  match fuel with
  | O => Bad NoFuel
  | S fuel =>
      let* t := typeOf e in
      if isLeafType t then Ok (BDD_leaf e)
      else
        let* variables := getVariables e in
        match nextVariable variables variableList with
        | None => Ok (BDD_leaf e)
        | Some (var, subList) =>
            let* restrictedNegative := cofactor e var false in
            let* restrictedPositive := cofactor e var true in
            let* negativeInput := buildBDDFrom fuel restrictedNegative subList in
            let* positiveInput := buildBDDFrom fuel restrictedPositive subList in
            Ok (BDD_node negativeInput positiveInput (boolVar var))
        end
  end.

(** A call's list is shorter than its caller's. *)
Definition buildBDD (e : BoolExpression) (variableList : list string) : res BDD :=
  buildBDDFrom (S (length variableList)) e variableList.

(** * Copies *)

(** No object of the base class. *)
Fixpoint noPlain (e : BoolExpression) : bool :=
  match e with
  | Operator _ l r => noPlain l && noPlain r
  | PlainExpression _ => false
  | _ => true
  end.

Lemma deepCopy_same e : wf e = true → nnf e = true → noPlain e = true → deepCopy e = Ok e.
Proof.
  induction e as [|t id neg|t l IHl r IHr|t]; simpl; intros Hw Hn Hp; try done.
  wf_inv. destruct t; try done; wf_inv; by rewrite IHl, IHr.
Qed.

Lemma restrict_noPlain e var b e' : noPlain e = true → restrict e var b = Ok e' → noPlain e' = true.
Proof.
  revert e'. induction e as [|t id neg|t l IHl r IHr|t]; simpl; intros e' Hp H; try done.
  - destruct t; try discriminate H; try (by injection H as <-).
    destruct (String.eqb id var); by injection H as <-.
  - wf_inv. destruct (isAndOr t); [|destruct t; try discriminate H; injection H as <-; simpl; by rewrite H0, H1].
    apply bind_ok in H as (l' & Hl & H). apply bind_ok in H as (r' & Hr & H). injection H as <-. simpl.
    apply andb_true_iff. split.
    + destruct (isNull l); [by injection Hl as <-|by eapply IHl].
    + destruct (isNull r); [by injection Hr as <-|by eapply IHr].
Qed.

Lemma propagate_noPlain e : noPlain e = true → ∀ b e', propagateNegation e b = Ok e' → noPlain e' = true.
Proof.
  induction e as [|t id neg|t l IHl r IHr|t]; simpl; intros Hp b e' H; try done.
  - destruct t; try discriminate H; by injection H as <-.
  - wf_inv. destruct t.
    + destruct b; [discriminate H|]. injection H as <-. simpl. by rewrite H0, H1.
    + apply bind_ok in H as (l' & Hl & H). apply bind_ok in H as (r' & Hr & H). injection H as <-. simpl.
      apply andb_true_iff. split;
        [destruct (isNull l); [by injection Hl as <-|by eapply IHl]
        |destruct (isNull r); [by injection Hr as <-|by eapply IHr]].
    + apply bind_ok in H as (l' & Hl & H). apply bind_ok in H as (r' & Hr & H). injection H as <-. simpl.
      apply andb_true_iff. split;
        [destruct (isNull l); [by injection Hl as <-|by eapply IHl]
        |destruct (isNull r); [by injection Hr as <-|by eapply IHr]].
    + destruct (isNull r); [injection H as <-; simpl; by rewrite H0, H1|by eapply IHr].
    + injection H as <-. simpl. by rewrite H0, H1.
    + injection H as <-. simpl. by rewrite H0, H1.
    + injection H as <-. simpl. by rewrite H0, H1.
Qed.

Lemma tree_noPlain s : noPlain (tree s) = true.
Proof.
  induction s as [lex|c a IH|a IH|c a IHa b IHb|c a IHa b IHb]; simpl; by rewrite ?IH, ?IHa, ?IHb.
Qed.

(** * What Espresso promises *)

(** The input for a table of results [bits] over [vars]. *)
Definition espressoInputOf (vars : list string) (bits : list bool) : string :=
  (espressoHeader vars ++ concatStrings (imap (λ i b, espressoRow (length vars) i b) bits))%string.

Fixpoint syntaxVars (s : syntax) : list string :=
  match s with
  | SVar lex => [lex]
  | SNot _ a | SPar a => syntaxVars a
  | SAnd _ a b | SOr _ a b => syntaxVars a ++ syntaxVars b
  end.

(** A reply to a table: an equation whose right-hand side is blank if no row is
    true, [ ()] if all are, and otherwise reads as an expression over the
    variables that has the result of every row. *)
Definition replies (vars : list string) (bits : list bool) (reply : string) : Prop :=
  reply ≠ "Failed to Minimize"%string
  ∧ ∃ t, equationBody reply = Ok t
  ∧ ((t = " "%string ∧ ∀ i, bits !! i ≠ Some true)
     ∨ (t = " ()"%string ∧ ∀ i, bits !! i ≠ Some false)
     ∨ (t ∉ ["Failed to minimize"; " "; " ()"]%string
        ∧ ∃ s, derivable s = true ∧ lex t = Ok (Some (tokens s))
          ∧ (∀ x, x ∈ syntaxVars s → x ∈ vars ∨ x = "0"%string ∨ x = "1"%string)
          ∧ ∀ i v, bits !! i = Some v → meaning (rowValue (rowAt vars i)) s = v)).

(** The results of an expression on the rows of its table. *)
Definition tableBits (e : BoolExpression) (vars : list string) : list bool :=
  rowsOf (2 ^ length vars) (λ i, den (rowValue (rowAt vars i)) e).

Lemma espressoInput_eq e vars : wf e = true → nnf e = true → getVariables e = Ok vars →
  (length vars ≤ 24)%nat → espressoInput e = Ok (espressoInputOf vars (tableBits e vars)).
Proof.
  intros Hw Hn Hv Hl. unfold espressoInput, checkTruthTableSize, MAX_TRUTH_TABLE_VARIABLES.
  rewrite Hv. cbn [bind]. rewrite (proj2 (Nat.leb_le _ _)) by done. cbn [bind].
  rewrite evaluateRows_spec by (done || apply columnsFrom_of; intros id col; by rewrite lookup_empty).
  cbn [bind]. rewrite take_ge by by rewrite length_rowsOf. unfold espressoInputOf, tableBits. do 4 f_equal.
  unfold rowsOf. apply map_ext_in. intros i Hi%in_seq. apply den_ext. intros x _.
  apply columnsFrom_row; [lia|]. unfold colVal, rowValue. by rewrite !lookup_empty.
Qed.

Lemma meaning_ext ρ ρ' s : (∀ x, x ∈ syntaxVars s → x ≠ "0"%string → x ≠ "1"%string → ρ x = ρ' x) →
  meaning ρ s = meaning ρ' s.
Proof.
  induction s as [lex|c a IH|a IH|c a IHa b IHb|c a IHa b IHb]; simpl; intros H.
  - destruct (String.eqb_spec lex "1"); [done|]. destruct (String.eqb_spec lex "0"); [done|].
    apply H; [by left|done..].
  - by rewrite IH.
  - by rewrite IH.
  - rewrite IHa, IHb; [done|..]; intros x Hx; apply H, elem_of_app; auto.
  - rewrite IHa, IHb; [done|..]; intros x Hx; apply H, elem_of_app; auto.
Qed.

(** Every assignment is that of a row. *)
Lemma row_of_assignment vars ρ : NoDup vars →
  ∃ i, (i < 2 ^ length vars)%nat ∧ ∀ x, x ∈ vars → rowValue (rowAt vars i) x = ρ x.
Proof.
  intros Hnd. exists (rowIndex vars ρ). split; [apply rowIndex_lt|].
  intros x (k & Hk)%list_elem_of_lookup. unfold rowAt. rewrite (rowFrom_bit _ _ Hnd 0 ∅ k x Hk).
  by apply rowIndex_bit.
Qed.

Lemma tableBits_lookup e vars i : (i < 2 ^ length vars)%nat →
  tableBits e vars !! i = Some (den (rowValue (rowAt vars i)) e).
Proof.
  intros Hi. unfold tableBits, rowsOf. change (map ?f ?l) with (f <$> l).
  by rewrite list_lookup_fmap, lookup_seq_lt.
Qed.

(** The variables of a derivable expression's tree are those of its tokens. *)
Lemma occurs_tree x s : occurs x (tree s) → x ∈ syntaxVars s ∧ x ≠ "0"%string ∧ x ≠ "1"%string.
Proof.
  induction s as [lex|c a IH|a IH|c a IHa b IHb|c a IHa b IHb]; simpl.
  - destruct (String.eqb_spec lex "1"); [done|]. destruct (String.eqb_spec lex "0"); [done|].
    intros ->. repeat split; [by left|done..].
  - intros [[]|H]. auto.
  - auto.
  - intros [H|H]; [destruct (IHa H)|destruct (IHb H)]; (split; [apply elem_of_app; auto|done]).
  - intros [H|H]; [destruct (IHa H)|destruct (IHb H)]; (split; [apply elem_of_app; auto|done]).
Qed.

Lemma propagate_occurs e : ∀ b e', propagateNegation e b = Ok e' → ∀ x, occurs x e' → occurs x e.
Proof.
  induction e as [|t id neg|t l IHl r IHr|t]; intros b e' H x Hx; simpl in *; try done.
  - destruct t; try discriminate H; injection H as <-; try done; by destruct b.
  - assert (∀ t', (let* l' := if isNull l then Ok l else propagateNegation l b in
        let* r' := if isNull r then Ok r else propagateNegation r b in Ok (Operator t' l' r')) = Ok e' →
        occurs x l ∨ occurs x r) as Hop.
    { clear H. intros t' H. apply bind_ok in H as (l' & Hl & H). apply bind_ok in H as (r' & Hr & H).
      injection H as <-. simpl in Hx. destruct Hx as [Hx|Hx].
      - left. destruct (isNull l); [by injection Hl as <-|by eapply IHl].
      - right. destruct (isNull r); [by injection Hr as <-|by eapply IHr]. }
    destruct t; try (by eapply Hop).
    + destruct b; [discriminate H|]. by injection H as <-.
    + destruct (isNull r); [by injection H as <-|]. right. by eapply IHr.
    + by injection H as <-.
    + by injection H as <-.
    + by injection H as <-.
  - destruct t; try discriminate H; try (by injection H as <-). destruct b; [discriminate H|by injection H as <-].
Qed.

(** Minimization: a well-formed expression of the same value, over the same variables. *)
Lemma boolMinimize_spec e vars : wf e = true → nnf e = true → getVariables e = Ok vars →
  (length vars ≤ 24)%nat → replies vars (tableBits e vars) (run_espresso (espressoInputOf vars (tableBits e vars))) →
  ∃ e', boolMinimize e = Ok e' ∧ wf e' = true ∧ nnf e' = true
  ∧ (∀ ρ, den ρ e' = den ρ e) ∧ (∀ x, occurs x e' → x ∈ vars)
  ∧ (noPlain e' = true ∨ ∃ t, e' = PlainExpression t).
Proof.
  intros Hw Hn Hv Hl (Hnf & t & Ht & Hcase). unfold boolMinimize, runEspresso.
  rewrite (espressoInput_eq e vars Hw Hn Hv Hl). cbn [bind]. unfold espressoResult.
  rewrite (proj2 (String.eqb_neq _ _) Hnf), Ht. cbn [bind].
  destruct (getVariables_spec e Hw Hn) as (vars' & Hv' & Ho & Hocc). rewrite Hv in Hv'. injection Hv' as <-.
  apply ordered_NoDup in Ho.
  assert (∀ ρ, ∃ i, (i < 2 ^ length vars)%nat ∧ (∀ x, x ∈ vars → rowValue (rowAt vars i) x = ρ x)
    ∧ tableBits e vars !! i = Some (den ρ e)) as Hrow.
  { intros ρ. destruct (row_of_assignment vars ρ Ho) as (i & Hi & Hag). exists i. split; [done|].
    split; [done|]. rewrite tableBits_lookup by done. f_equal. apply den_ext. intros x Hx.
    by apply Hag, Hocc. }
  destruct Hcase as [(-> & Hno)|[(-> & Hno)|(Hspec & s & Hd & Hlex & Hvars & Hmean)]].
  - exists (PlainExpression Zero). repeat split; try done; [|eauto].
    intros ρ. destruct (Hrow ρ) as (i & _ & _ & Hi). simpl.
    destruct (den ρ e); [by destruct (Hno i)|done].
  - exists (PlainExpression One). repeat split; try done; [|eauto].
    intros ρ. destruct (Hrow ρ) as (i & _ & _ & Hi). simpl.
    destruct (den ρ e); [done|by destruct (Hno i)].
  - rewrite !not_elem_of_cons in Hspec. destruct Hspec as (H1 & H2 & H3 & _). unfold fromEspresso.
    rewrite !(proj2 (String.eqb_neq _ _)) by done. unfold parseSop.
    rewrite (Parser_derivable s t Hd Hlex). cbn [bind]. rewrite (wf_not_null _ (tree_wf s)).
    destruct (propagateNegation_spec (tree s) (tree_wf s) false) as (e' & He & Hw' & Hn' & Hd').
    exists e'. rewrite He. repeat split; try done.
    + intros ρ. rewrite Hd', xorb_false_l, den_tree. destruct (Hrow ρ) as (i & _ & Hag & Hi).
      rewrite <-(Hmean i _ Hi). apply meaning_ext. intros x Hx Hx0 Hx1. symmetry.
      destruct (Hvars x Hx) as [?|[?|?]]; [by apply Hag|done..].
    + intros x Hx. eapply propagate_occurs in Hx; [|exact He]. apply occurs_tree in Hx as (Hx & Hx0 & Hx1).
      by destruct (Hvars x Hx) as [?|[?|?]].
    + left. eapply propagate_noPlain; [apply tree_noPlain|exact He].
Qed.

(** * Contracts of minimization and diagrams *)

(** Espresso replies to every table over at most 24 variables. *)
Definition espressoReplies : Prop :=
  ∀ vars bits, Forall (λ v, validId v = true) vars → NoDup vars → (length vars ≤ 24)%nat →
    length bits = (2 ^ length vars)%nat → replies vars bits (run_espresso (espressoInputOf vars bits)).

(** A small expression over valid names. *)
Definition minimizable (e : BoolExpression) : Prop :=
  wf e = true ∧ nnf e = true ∧ (∀ x, occurs x e → validId x = true)
  ∧ ∃ vars, NoDup vars ∧ (length vars ≤ 24)%nat ∧ ∀ x, occurs x e → x ∈ vars.

Lemma minimizable_vars e : minimizable e →
  ∃ vars, getVariables e = Ok vars ∧ NoDup vars ∧ (length vars ≤ 24)%nat
  ∧ Forall (λ v, validId v = true) vars ∧ ∀ x, x ∈ vars ↔ occurs x e.
Proof.
  intros (Hw & Hn & Hid & vs & Hnd & Hl & Hvs).
  destruct (getVariables_spec e Hw Hn) as (vars & Hv & Ho%ordered_NoDup & Hocc).
  exists vars. repeat split; try done.
  - etransitivity; [|exact Hl]. apply submseteq_length, NoDup_submseteq; [done|].
    intros x Hx. by apply Hvs, Hocc.
  - apply Forall_elem. intros x Hx. by apply Hid, Hocc.
  - apply Hocc.
  - apply Hocc.
Qed.

(** C33.  Given that Espresso replies to the table it is given by a sum that has the
    table's results, [boolMinimize] returns a well-formed expression without
    [Not] nodes, over no new variable, with the value of the original under
    every assignment. *)
Theorem boolMinimize_correct e row : espressoReplies → minimizable e →
  ∃ e' v, boolMinimize e = Ok e' ∧ wf e' = true ∧ nnf e' = true
  ∧ (∀ x, occurs x e' → occurs x e)
  ∧ evaluate e row = Ok v ∧ evaluate e' row = Ok v.
Proof.
  intros HE Hm. pose proof Hm as (Hw & Hn & _).
  destruct (minimizable_vars e Hm) as (vars & Hv & Hnd & Hl & Hid & Hocc).
  destruct (boolMinimize_spec e vars Hw Hn Hv Hl) as (e' & He & Hw' & Hn' & Hd & Ho & _).
  { apply HE; try done. apply length_rowsOf. }
  exists e', (den (rowValue row) e). rewrite !evaluate_den, Hd by done.
  repeat split; try done. intros x Hx. by apply Hocc, Ho.
Qed.

(** The value of a diagram. *)
Fixpoint bddValue (ρ : string → bool) (b : BDD) : bool :=
  match b with
  | BDD_leaf e => den ρ e
  | BDD_node ni pi (SingleCond Variable_ v _) => if ρ v then bddValue ρ pi else bddValue ρ ni
  | BDD_node _ _ _ => false
  end.

(** The variables of the nodes on each path follow the list's order, and each
    occurs in the expression. *)
Inductive follows_order (e : BoolExpression) : list string → BDD → Prop :=
| fo_leaf l b : follows_order e l (BDD_leaf b)
| fo_node l1 v l2 ni pi : occurs v e → follows_order e l2 ni → follows_order e l2 pi →
    follows_order e (l1 ++ v :: l2) (BDD_node ni pi (boolVar v)).

Lemma nextVariable_some variables l v vs : nextVariable variables l = Some (v, vs) →
  v ∈ variables ∧ ∃ l1, l = l1 ++ v :: vs.
Proof.
  induction l as [|x l IH]; simpl; [done|]. destruct (set_mem x variables) eqn:Hx.
  - intros [= <- <-]. split; [by apply set_mem_spec|]. by exists [].
  - intros (Hv & l1 & ->)%IH. split; [done|]. by exists (x :: l1).
Qed.

Lemma follows_order_weaken e e' l b : (∀ x, occurs x e → occurs x e') →
  follows_order e l b → follows_order e' l b.
Proof. intros Ho. induction 1; constructor; auto. Qed.

Lemma cofactor_spec e v b : espressoReplies → minimizable e → noPlain e = true →
  ∃ e', cofactor e v b = Ok e' ∧ minimizable e' ∧ (noPlain e' = true ∨ ∃ t, e' = PlainExpression t)
  ∧ (∀ ρ, den ρ e' = den (update ρ v b) e) ∧ ∀ x, occurs x e' → occurs x e.
Proof.
  intros HE (Hw & Hn & Hid & vs & Hnd & Hl & Hvs) Hp. unfold cofactor.
  rewrite (deepCopy_same e Hw Hn Hp). cbn [bind].
  destruct (restrict_spec e v b Hw Hn) as (e1 & He1 & Hw1 & Hn1 & Hd1 & Ho1). rewrite He1. cbn [bind].
  assert (minimizable e1) as Hm1 by (repeat split; [done|done|auto|exists vs; auto]).
  destruct (minimizable_vars e1 Hm1) as (vars & Hv & Hnd1 & Hl1 & Hid1 & Hocc).
  destruct (boolMinimize_spec e1 vars Hw1 Hn1 Hv Hl1) as (e' & He' & Hw' & Hn' & Hd' & Ho' & Hp').
  { apply HE; try done. apply length_rowsOf. }
  assert (∀ x, occurs x e' → occurs x e) as Hoe by (intros x Hx; by apply Ho1, Hocc, Ho').
  exists e'. repeat split; try done.
  - intros x Hx. by apply Hid, Hoe.
  - exists vs. repeat split; try done. intros x Hx. by apply Hvs, Hoe.
  - intros ρ. by rewrite Hd', Hd1.
Qed.

Lemma update_same ρ v e : den (update ρ v (ρ v)) e = den ρ e.
Proof. apply den_ext. intros x _. unfold update. by destruct (String.eqb_spec x v) as [->|]. Qed.

Lemma typeOf_wf e : wf e = true → ∃ t, typeOf e = Ok t.
Proof. destruct e; simpl; try done; eauto. Qed.

Lemma buildBDDFrom_spec fuel : espressoReplies → ∀ e l, minimizable e →
  (noPlain e = true ∨ ∃ t, e = PlainExpression t) → (length l < fuel)%nat →
  ∃ b, buildBDDFrom fuel e l = Ok b ∧ (∀ ρ, bddValue ρ b = den ρ e) ∧ follows_order e l b.
Proof.
  intros HE. induction fuel as [|fuel IH]; intros e l Hm Hp Hl; [lia|]. cbn [buildBDDFrom].
  pose proof Hm as (Hw & Hn & _). destruct (typeOf_wf e Hw) as [t Ht]. rewrite Ht. cbn [bind].
  destruct (isLeafType t) eqn:Hleaf; [eexists; split; [done|]; split; [done|constructor]|].
  destruct Hp as [Hp|[t' ->]]; [|injection Ht as <-; by destruct t'].
  destruct (minimizable_vars e Hm) as (vars & -> & _ & _ & _ & Hocc). cbn [bind].
  destruct (nextVariable vars l) as [[v vs]|] eqn:Hnext;
    [|eexists; split; [done|]; split; [done|constructor]].
  destruct (nextVariable_some _ _ _ _ Hnext) as (Hv%Hocc & l1 & ->).
  rewrite length_app in Hl. simpl in Hl.
  destruct (cofactor_spec e v false HE Hm Hp) as (en & -> & Hmn & Hpn & Hdn & Hon). cbn [bind].
  destruct (cofactor_spec e v true HE Hm Hp) as (ep & -> & Hmp & Hpp & Hdp & Hop). cbn [bind].
  destruct (IH en vs Hmn Hpn ltac:(lia)) as (bn & -> & Hbn & Hfn). cbn [bind].
  destruct (IH ep vs Hmp Hpp ltac:(lia)) as (bp & -> & Hbp & Hfp). cbn [bind].
  eexists; split; [done|]. split.
  - intros ρ. simpl. rewrite <-(update_same ρ v e). destruct (ρ v); [by rewrite Hbp|by rewrite Hbn].
  - constructor; [done|exact (follows_order_weaken en e vs bn Hon Hfn)|exact (follows_order_weaken ep e vs bp Hop Hfp)].
Qed.

(** C12.  The diagram [buildBDD] makes of an expression terminates in leaves with
    the value of the expression: deciding on the variables along a path gives
    the expression's value under every assignment. The variables decided on
    along a path follow the given order, each at most once, and are variables
    of the expression. *)
Theorem buildBDD_correct e l : espressoReplies → minimizable e → noPlain e = true →
  ∃ b, buildBDD e l = Ok b ∧ (∀ ρ, bddValue ρ b = den ρ e) ∧ follows_order e l b.
Proof. intros HE Hm Hp. apply buildBDDFrom_spec; auto. Qed.

(** When Espresso fails, minimization is meant to return the expression as it
    is; the message it looks for is spelled differently, so that the message
    itself is parsed, and the result is the null pointer. *)
Theorem boolMinimize_failure_is_null e vars : wf e = true → nnf e = true → getVariables e = Ok vars →
  (length vars ≤ 24)%nat →
  run_espresso (espressoInputOf vars (tableBits e vars)) = "Failed to Minimize"%string →
  boolMinimize e = Ok nullptr.
Proof.
  intros Hw Hn Hv Hl Hr. unfold boolMinimize, runEspresso.
  rewrite (espressoInput_eq e vars Hw Hn Hv Hl). cbn [bind]. rewrite Hr. reflexivity.
Qed.

End Espresso.
