(* ===== verification/BoolEspresso.v ===== *)
(** A reference minimizer that satisfies what [BoolBDD] asks of Espresso: it reads
    a truth table back from its text and replies with the sum of its true rows.
    It shows that the hypothesis on Espresso can hold, and instantiates it in
    the witnesses. *)

From stdpp Require Import strings gmap pretty.
From Stdlib Require Import Ascii.
From S2P Require Import StdString BoolExpr BoolParser BoolTables BoolBDD Prelude.

(** * Reading a table *)

Fixpoint splitOn (c : ascii) (s : list ascii) : list (list ascii) :=
  match s with
  | [] => [[]]
  | x :: s =>
      if Ascii.eqb x c then [] :: splitOn c s
      else match splitOn c s with w :: ws => (x :: w) :: ws | [] => [[x]] end
  end.

Definition nl : ascii := "010"%char.

Definition nonEmpty (l : list (list ascii)) : list (list ascii) :=
  filter (λ w, w ≠ []) l.

Definition readVars (input : string) : list string :=
  map toStr (nonEmpty (tail (splitOn " " (nth 2 (splitOn nl (ofStr input)) [])))).

Definition readBits (input : string) : list bool :=
  map (λ w, Ascii.eqb (List.last w "0"%char) "1") (nonEmpty (drop 4 (splitOn nl (ofStr input)))).

(** * Replying *)

Definition literal (v : string) (b : bool) : syntax := if b then SVar v else SNot "!" (SVar v).

Fixpoint conj (s : syntax) (l : list syntax) : syntax :=
  match l with [] => s | x :: l => conj (SAnd "&" s x) l end.
Fixpoint disj (s : syntax) (l : list syntax) : syntax :=
  match l with [] => s | x :: l => disj (SOr "|" s x) l end.

(** The product of row [i]. *)
Definition rowProduct (vars : list string) (i : nat) : syntax :=
  match imap (λ j v, literal v (bit i j)) vars with
  | [] => SVar "1"
  | l :: ls => SPar (conj l ls)
  end.

Definition trueRows (bits : list bool) : list nat :=
  filter (λ i, bits !! i = Some true) (seq 0 (length bits)).

Definition replyBody (vars : list string) (bits : list bool) : string :=
  match trueRows bits with
  | [] => " "
  | i :: others =>
      if forallb id bits then " ()"
      else String " " (text false true (disj (rowProduct vars i) (map (rowProduct vars) others)))
  end.

Definition replyOf (vars : list string) (bits : list bool) : string :=
  ("f =" ++ replyBody vars bits ++ ";" ++ newline ++ newline)%string.

Definition referenceMinimizer (input : string) : string := replyOf (readVars input) (readBits input).

(** * Reading back what was written *)

Lemma splitOn_cons c w l : c ∉ w → splitOn c (w ++ c :: l) = w :: splitOn c l.
Proof.
  induction w as [|x w IH]; simpl; intros Hc.
  - by rewrite Ascii.eqb_refl.
  - apply not_elem_of_cons in Hc as [Hne Hc]. rewrite IH by done.
    destruct (Ascii.eqb_spec x c) as [->|]; done.
Qed.

Lemma ofStr_app s1 s2 : ofStr (s1 ++ s2) = ofStr s1 ++ ofStr s2.
Proof. induction s1 as [|c s1 IH]; [done|]. rewrite string_app_cons. simpl. by rewrite <-IH. Qed.

Lemma ofStr_concat l : ofStr (concatStrings l) = concat (map ofStr l).
Proof. induction l as [|s l IH]; simpl; [done|]. by rewrite ofStr_app, IH. Qed.

Lemma validId_chars v c : validId v = true → c ∈ ofStr v → isalpha c = true ∨ isdigit c = true.
Proof.
  destruct v as [|a v]; [done|]. simpl. intros [Ha Hd]%andb_true_iff [->|Hc]%elem_of_cons; [auto|right].
  revert Hc. clear Ha. induction v as [|b v IH]; simpl; intros Hc; [by inversion Hc|].
  simpl in Hd. apply andb_true_iff in Hd as [Hb Hd]. apply elem_of_cons in Hc as [->|Hc]; auto.
Qed.

Lemma validId_not_char v c : validId v = true → isalpha c = false → isdigit c = false → c ∉ ofStr v.
Proof. intros Hv Ha Hd Hc. destruct (validId_chars v c Hv Hc); congruence. Qed.

Lemma to_string_no_newline n : (n ≤ 24)%nat → nl ∉ ofStr (to_string n).
Proof.
  intros Hn. assert (Forall (λ n, nl ∉ ofStr (to_string n)) (seq 0 25)) as H.
  { apply (bool_decide_unpack _). vm_compute. done. }
  rewrite Forall_elem in H. apply H. apply elem_of_seq. lia.
Qed.

Lemma splitOn_words vars : Forall (λ v, validId v = true) vars →
  splitOn " " (ofStr (concatStrings (map (λ v, v ++ " ")%string vars))) = map ofStr vars ++ [[]].
Proof.
  induction 1 as [|v vars Hv _ IH]; [done|]. simpl. rewrite !ofStr_app, <-app_assoc. simpl.
  rewrite splitOn_cons by (by apply validId_not_char). by rewrite IH.
Qed.

Lemma nonEmpty_vars vars : Forall (λ v, validId v = true) vars →
  map toStr (nonEmpty (map ofStr vars ++ [[]])) = vars.
Proof.
  unfold nonEmpty. induction 1 as [|v vars Hv _ IH]; simpl.
  - done.
  - rewrite filter_cons_True by (destruct v; done). simpl. by rewrite toStr_ofStr, IH.
Qed.

(** The lines of the input. *)
Definition rowLine (n i : nat) (b : bool) : list ascii :=
  ofStr (concatStrings (map (λ j, if bit i j then "1 " else "0 ")%string (seq 0 n))) ++ [bitChar b].

Lemma no_newline_in_row n i b : nl ∉ rowLine n i b.
Proof.
  unfold rowLine. rewrite not_elem_of_app. split; [|destruct b; intros H%list_elem_of_singleton; done].
  rewrite ofStr_concat. intros H. induction (seq 0 n) as [|j l IH]; simpl in *; [by inversion H|].
  apply elem_of_app in H as [H|H]; [|by apply IH]. destruct (bit i j); simpl in H;
    repeat (apply elem_of_cons in H as [H|H]; [discriminate H|]); by inversion H.
Qed.

Lemma ofStr_row n i b : ofStr (espressoRow n i b) = rowLine n i b ++ [nl].
Proof. unfold espressoRow, rowLine. rewrite !ofStr_app, <-app_assoc. by destruct b. Qed.

Lemma splitOn_rows n bits : ∀ k,
  splitOn nl (ofStr (concatStrings (imap (λ i b, espressoRow n (k + i) b) bits)))
    = imap (λ i b, rowLine n (k + i) b) bits ++ [[]].
Proof.
  induction bits as [|b bits IH]; intros k; [done|]. rewrite !imap_cons. simpl.
  rewrite ofStr_app, ofStr_row, <-app_assoc. simpl. rewrite splitOn_cons by apply no_newline_in_row.
  f_equal. specialize (IH (S k)).
  rewrite (imap_ext _ (λ i b, espressoRow n (S k + i) b)) by (intros i x _; simpl; by rewrite Nat.add_succ_r).
  rewrite IH. f_equal. apply imap_ext. intros i x _; simpl. by rewrite Nat.add_succ_r.
Qed.

Lemma input_lines vars bits : Forall (λ v, validId v = true) vars → (length vars ≤ 24)%nat →
  splitOn nl (ofStr (espressoInputOf vars bits)) =
    [ofStr ".i " ++ ofStr (to_string (length vars)); ofStr ".o 1";
     ofStr ".ilb " ++ ofStr (concatStrings (map (λ v, v ++ " ")%string vars)); ofStr ".ob f"]
    ++ imap (λ i b, rowLine (length vars) i b) bits ++ [[]].
Proof.
  intros Hv Hl. unfold espressoInputOf, espressoHeader. rewrite !ofStr_app.
  change (ofStr newline) with [nl].
  set (rows := ofStr (concatStrings (imap _ bits))).
  set (names := ofStr (concatStrings (map _ vars))). 
  assert (nl ∉ names) as Hnames.
  { unfold names. clear -Hv. rewrite ofStr_concat. intros H.
    induction Hv as [|v vars Hv _ IH]; simpl in H; [by inversion H|].
    rewrite ofStr_app, !elem_of_app in H. destruct H as [[H|H]|H]; [|by apply list_elem_of_singleton in H|auto].
    by apply (validId_not_char v nl) in H. }
  assert (nl ∉ ofStr ".i " ++ ofStr (to_string (length vars))) as H1.
  { rewrite not_elem_of_app. split; [|by apply to_string_no_newline].
    apply (bool_decide_unpack _). vm_compute. done. }
  assert (nl ∉ ofStr ".ilb " ++ names) as H3.
  { rewrite not_elem_of_app. split; [|done]. apply (bool_decide_unpack _). vm_compute. done. }
  assert (nl ∉ ofStr ".o 1" ∧ nl ∉ ofStr ".ob f") as [H2 H4]
    by (split; apply (bool_decide_unpack _); vm_compute; done).
  assert (splitOn nl rows = imap (λ i b, rowLine (length vars) i b) bits ++ [[]]) as H5
    by apply (splitOn_rows (length vars) bits 0).
  revert H1 H2 H3 H4 H5. generalize (ofStr ".i ") (ofStr ".o 1") (ofStr ".ilb ") (ofStr ".ob f").
  intros l1 l2 l3 l4 H1 H2 H3 H4 H5. rewrite <-!app_assoc. simpl app.
  rewrite (app_assoc l1), splitOn_cons by done. rewrite splitOn_cons by done.
  rewrite (app_assoc l3), splitOn_cons by done. rewrite splitOn_cons by done. by rewrite H5.
Qed.

Lemma readVars_input vars bits : Forall (λ v, validId v = true) vars → (length vars ≤ 24)%nat →
  readVars (espressoInputOf vars bits) = vars.
Proof.
  intros Hv Hl. unfold readVars. rewrite input_lines by done. cbn [nth app].
  change (ofStr ".ilb " ++ ?l) with (ofStr ".ilb" ++ " "%char :: l).
  rewrite splitOn_cons by (simpl; rewrite !not_elem_of_cons; repeat split; try done; apply not_elem_of_nil).
  cbn [tail]. rewrite splitOn_words by done. by apply nonEmpty_vars.
Qed.

Lemma readBits_input vars bits : Forall (λ v, validId v = true) vars → (length vars ≤ 24)%nat →
  readBits (espressoInputOf vars bits) = bits.
Proof.
  intros Hv Hl. unfold readBits. rewrite input_lines by done. cbn [drop app].
  unfold nonEmpty. generalize (length vars) as n; intros n. clear.
  cut (∀ k, map (λ w, Ascii.eqb (List.last w "0"%char) "1")
    (filter (λ w, w ≠ []) (imap (λ i b, rowLine n (k + i) b) bits ++ [[]])) = bits); [intros H; exact (H 0%nat)|].
  induction bits as [|b bits IH]; intros k; [done|]. rewrite imap_cons. simpl app.
  rewrite filter_cons_True by (unfold rowLine; by destruct (ofStr _)).
  cbn [map]. f_equal.
  - unfold rowLine. rewrite List.last_last. by destruct b.
  - etransitivity; [|exact (IH (S k))]. do 3 f_equal. apply imap_ext. intros i x _; simpl. by rewrite Nat.add_succ_r.
Qed.

(** * The reply *)

Lemma findChar_first c p1 p2 : c ∉ p1 → findChar c (p1 ++ c :: p2) = Some (length p1).
Proof.
  intros Hc. unfold findChar.
  assert (list_find (λ x, x = c) (p1 ++ c :: p2) = Some (length p1, c)) as ->; [|done].
  apply list_find_Some. split; [by rewrite lookup_app_r, Nat.sub_diag|]. split; [done|].
  intros j y Hj Hlt ->. apply Hc. rewrite lookup_app_l in Hj by done. by eapply list_elem_of_lookup_2.
Qed.

Lemma equationBody_reply body : ";"%char ∉ ofStr body →
  equationBody ("f =" ++ body ++ ";" ++ newline ++ newline) = Ok body.
Proof.
  intros Hc. unfold equationBody, findZ.
  assert (ofStr ("f =" ++ body ++ ";" ++ newline ++ newline)
    = ["f"; " "; "="]%char ++ ofStr body ++ ";"%char :: [nl; nl]) as He by by rewrite !ofStr_app.
  rewrite He.
  assert (findChar "=" (["f"; " "; "="]%char ++ ofStr body ++ ";"%char :: [nl; nl]) = Some 2%nat) as ->
    by (apply (findChar_first "=" ["f"; " "]%char);
        rewrite !not_elem_of_cons; repeat split; try done; apply not_elem_of_nil).
  rewrite app_assoc, (findChar_first ";").
  2: { rewrite not_elem_of_app. split; [|done].
       rewrite !not_elem_of_cons; repeat split; try done; apply not_elem_of_nil. }
  rewrite length_app. cbn [length]. unfold substr.
  assert (String.length ("f =" ++ body ++ ";" ++ newline ++ newline)
    = (6 + length (ofStr body))%nat) as ->.
  { transitivity (length (ofStr ("f =" ++ body ++ ";" ++ newline ++ newline))).
    - generalize ("f =" ++ body ++ ";" ++ newline ++ newline)%string. intros s.
      induction s as [|c s IH]; [done|]. simpl. by rewrite IH.
    - rewrite He, !length_app. simpl. lia. }
  rewrite He. replace (_ || _) with false by (symmetry; apply orb_false_iff; split; apply Z.ltb_ge; lia).
  replace (Z.of_nat (3 + length (ofStr body)) - Z.of_nat 2 - 1) with (Z.of_nat (length (ofStr body))) by lia.
  rewrite (proj2 (Z.ltb_ge _ _)) by lia. rewrite Nat2Z.id.
  change (Z.to_nat (Z.of_nat 2 + 1)) with 3%nat.
  assert (∀ l, drop 3 (["f"; " "; "="]%char ++ l) = l) as -> by done.
  by rewrite take_app_length, toStr_ofStr.
Qed.

(** ** Its text *)

Lemma literal_ok v b : validId v = true →
  derivable (literal v b) = true ∧ validLexemes (literal v b) = true
  ∧ (2 <= level (literal v b))%nat ∧ syntaxVars (literal v b) = [v]
  ∧ ∀ ρ, meaning ρ (literal v b) = Bool.eqb (ρ v) b.
Proof.
  intros Hv. destruct (validId_not_constant v Hv) as [H0 H1].
  assert (validLeaf v = true) as Hl by (unfold validLeaf; by rewrite Hv).
  destruct b; simpl; rewrite ?Hl; repeat split; try lia; intros ρ; rewrite H0, H1; by destruct (ρ v).
Qed.

Definition goodLiteral (s : syntax) : Prop :=
  derivable s = true ∧ validLexemes s = true ∧ (2 <= level s)%nat.

Lemma conj_ok l : Forall goodLiteral l → ∀ s, derivable s = true → validLexemes s = true → (1 <= level s)%nat →
  derivable (conj s l) = true ∧ validLexemes (conj s l) = true
  ∧ (∀ ρ, meaning ρ (conj s l) = meaning ρ s && forallb (meaning ρ) l)
  ∧ ∀ x, x ∈ syntaxVars (conj s l) → x ∈ syntaxVars s ∨ ∃ a, a ∈ l ∧ x ∈ syntaxVars a.
Proof.
  induction 1 as [|a l (Ha & Hva & Hla) _ IH]; intros s Hs Hvs Hls; simpl.
  - repeat split; try done; [intros ρ; by rewrite andb_true_r|auto].
  - destruct (IH (SAnd "&" s a)) as (H1 & H2 & H3 & H4).
    + cbn [derivable]. by rewrite Hs, Ha, (proj2 (Nat.leb_le _ _) Hls), (proj2 (Nat.leb_le _ _) Hla).
    + simpl. by rewrite Hvs, Hva.
    + simpl. lia.
    + repeat split; try done; [intros ρ; rewrite H3; simpl; by rewrite andb_assoc|].
      intros x Hx. destruct (H4 x Hx) as [Hx'|(b & Hb & Hx')]; [|right; exists b; split; [by right|done]].
      simpl in Hx'. apply elem_of_app in Hx' as [?|?]; [by left|]. right. exists a. split; [by left|done].
Qed.

Definition goodProduct (s : syntax) : Prop :=
  derivable s = true ∧ validLexemes s = true ∧ (1 <= level s)%nat.

Lemma disj_ok l : Forall goodProduct l → ∀ s, derivable s = true → validLexemes s = true →
  derivable (disj s l) = true ∧ validLexemes (disj s l) = true
  ∧ (∀ ρ, meaning ρ (disj s l) = meaning ρ s || existsb (meaning ρ) l)
  ∧ ∀ x, x ∈ syntaxVars (disj s l) → x ∈ syntaxVars s ∨ ∃ a, a ∈ l ∧ x ∈ syntaxVars a.
Proof.
  induction 1 as [|a l (Ha & Hva & Hla) _ IH]; intros s Hs Hvs; simpl.
  - repeat split; try done; [intros ρ; by rewrite orb_false_r|auto].
  - destruct (IH (SOr "|" s a)) as (H1 & H2 & H3 & H4).
    + cbn [derivable]. by rewrite Hs, Ha, (proj2 (Nat.leb_le _ _) Hla).
    + simpl. by rewrite Hvs, Hva.
    + repeat split; try done; [intros ρ; rewrite H3; simpl; by rewrite orb_assoc|].
      intros x Hx. destruct (H4 x Hx) as [Hx'|(b & Hb & Hx')]; [|right; exists b; split; [by right|done]].
      simpl in Hx'. apply elem_of_app in Hx' as [?|?]; [by left|]. right. exists a. split; [by left|done].
Qed.

Lemma literals_agree ρ vars i : Forall (λ v, validId v = true) vars → ∀ k,
  forallb (meaning ρ) (imap (λ j v, literal v (bit i (k + j))) vars) = true ↔
  ∀ j v, vars !! j = Some v → ρ v = bit i (k + j).
Proof.
  induction 1 as [|v vars Hv _ IH]; intros k; [done|]. rewrite imap_cons. simpl.
  rewrite (imap_ext _ (λ j v, literal v (bit i (S k + j)))) by (intros j x _; simpl; by rewrite Nat.add_succ_r).
  rewrite andb_true_iff, (IH (S k)), Nat.add_0_r.
  destruct (literal_ok v (bit i k) Hv) as (_ & _ & _ & _ & Hm). rewrite Hm, Bool.eqb_true_iff. split.
  - intros [H0 Hr] [|j] x Hx; simpl in Hx; [injection Hx as <-; by rewrite Nat.add_0_r|].
    rewrite (Hr j x Hx). f_equal. lia.
  - intros H. split; [rewrite (H 0%nat v eq_refl); f_equal; lia|].
    intros j x Hx. rewrite (H (S j) x Hx). f_equal. lia.
Qed.

Lemma rowProduct_ok vars i : Forall (λ v, validId v = true) vars → vars ≠ [] →
  goodProduct (rowProduct vars i) ∧ (∃ a, rowProduct vars i = SPar a)
  ∧ (∀ x, x ∈ syntaxVars (rowProduct vars i) → x ∈ vars)
  ∧ ∀ ρ, meaning ρ (rowProduct vars i) = true ↔ ∀ j v, vars !! j = Some v → ρ v = bit i j.
Proof.
  intros Hv Hne. unfold rowProduct. destruct vars as [|v vars]; [done|]. pose proof Hv as Hv'.
  inversion Hv as [|? ? Hv1 Hvs]; subst. rewrite imap_cons.
  destruct (literal_ok v (bit i 0) Hv1) as (H1 & H2 & H3 & H4 & H5).
  set (ls := imap _ vars).
  assert (∀ a, a ∈ ls → ∃ x b, a = literal x b ∧ x ∈ vars ∧ validId x = true) as Hls.
  { intros a (k & Hk)%list_elem_of_lookup. unfold ls in Hk. rewrite list_lookup_imap in Hk.
    destruct (vars !! k) as [x|] eqn:Hx; [|done]. injection Hk as <-.
    exists x, (bit i (S k)). split; [done|]. apply list_elem_of_lookup_2 in Hx. split; [done|].
    rewrite Forall_elem in Hvs. by apply Hvs. }
  assert (Forall goodLiteral ls) as Hgood.
  { apply Forall_elem. intros a (x & b & -> & _ & Hx)%Hls. destruct (literal_ok x b Hx) as (? & ? & ? & _). done. }
  destruct (conj_ok ls Hgood (literal v (bit i 0)) H1 H2 ltac:(lia)) as (C1 & C2 & C3 & C4).
  split; [repeat split; simpl; try done; lia|]. split; [by eexists|]. simpl. split.
  - intros x [Hx|(a & Ha & Hx)]%C4.
    + rewrite H4 in Hx. apply list_elem_of_singleton in Hx as ->. by left.
    + destruct (Hls a Ha) as (y & b & -> & Hy & Hyv). destruct (literal_ok y b Hyv) as (_ & _ & _ & E & _).
      rewrite E in Hx. apply list_elem_of_singleton in Hx as ->. by right.
  - intros ρ. rewrite C3. rewrite <-(literals_agree ρ (v :: vars) i Hv' 0). rewrite imap_cons. done.
Qed.

Lemma tokens_nonempty s : tokens s ≠ [].
Proof. induction s; simpl; try done; intros H; by apply app_eq_nil in H as [_ H]. Qed.

Lemma tokens_disj l : ∀ s, ∃ rest, tokens (disj s l) = tokens s ++ rest.
Proof.
  induction l as [|a l IH]; intros s; simpl; [exists []; by rewrite app_nil_r|].
  destruct (IH (SOr "|" s a)) as [rest ->]. simpl. rewrite <-app_assoc. by eexists.
Qed.

Lemma text_no_semicolon s : validLexemes s = true → ";"%char ∉ ofStr (text false true s).
Proof.
  assert (∀ c t, symbolType c = Some t → c ≠ ";"%char) as Hsym by (intros c t Hc ->; discriminate Hc).
  induction s as [lex|c a IH|a IH|c a IHa b IHb|c a IHa b IHb]; simpl; intros Hv.
  - unfold validLeaf in Hv. rewrite !orb_true_iff, !String.eqb_eq in Hv.
    destruct Hv as [[Hv| ->]| ->]; [by apply validId_not_char|..];
      simpl; rewrite not_elem_of_cons; (split; [done|apply not_elem_of_nil]).
  - apply andb_true_iff in Hv as [Hc%bool_decide_eq_true Hv]. rewrite not_elem_of_cons.
    split; [|by apply IH]. intros <-. by eapply Hsym.
  - rewrite not_elem_of_cons. split; [done|]. fold (ofStr (text false true a ++ ")")).
    rewrite ofStr_app, not_elem_of_app. split; [by apply IH|].
    simpl. rewrite not_elem_of_cons. split; [done|apply not_elem_of_nil].
  - apply andb_true_iff in Hv as [[Hc%bool_decide_eq_true Hva]%andb_true_iff Hvb].
    rewrite ofStr_app, not_elem_of_app. split; [by apply IHa|]. simpl. rewrite not_elem_of_cons.
    split; [|by apply IHb]. intros <-. by eapply Hsym.
  - apply andb_true_iff in Hv as [[Hc%bool_decide_eq_true Hva]%andb_true_iff Hvb].
    rewrite ofStr_app, not_elem_of_app. split; [by apply IHa|]. simpl. rewrite !not_elem_of_cons.
    split; [done|]. split; [|split; [done|by apply IHb]]. intros <-. by eapply Hsym.
Qed.

Lemma trueRows_elem bits i : i ∈ trueRows bits ↔ bits !! i = Some true.
Proof.
  unfold trueRows. rewrite list_elem_of_filter, elem_of_seq. split; [by intros []|].
  intros Hi. split; [done|]. apply lookup_lt_Some in Hi. lia.
Qed.

(** Rows are told apart by the values of the variables. *)
Lemma rows_agree vars i k : (i < 2 ^ length vars)%nat → (k < 2 ^ length vars)%nat → NoDup vars →
  (∀ j v, vars !! j = Some v → rowValue (rowAt vars k) v = bit i j) → k = i.
Proof.
  intros Hi Hk Hnd H. apply Nat.bits_inj. intros j. destruct (decide (j < length vars)%nat) as [Hj|Hj].
  - destruct (lookup_lt_is_Some_2 vars j Hj) as [v Hv]. specialize (H j v Hv). unfold rowAt in H.
    rewrite (rowFrom_bit _ _ Hnd 0 ∅ j v Hv) in H. exact H.
  - by rewrite (bits_bounded (length vars) i), (bits_bounded (length vars) k) by (done || lia).
Qed.

(** The sum of the true rows. *)
Lemma sum_ok vars bits i others : Forall (λ v, validId v = true) vars → NoDup vars → vars ≠ [] →
  length bits = (2 ^ length vars)%nat → trueRows bits = i :: others →
  let s := disj (rowProduct vars i) (map (rowProduct vars) others) in
  derivable s = true ∧ validLexemes s = true
  ∧ (∀ x, x ∈ syntaxVars s → x ∈ vars)
  ∧ ∀ k v, bits !! k = Some v → meaning (rowValue (rowAt vars k)) s = v.
Proof.
  intros Hv Hnd Hne Hl Ht s.
  assert (∀ k, goodProduct (rowProduct vars k) ∧ (∃ a, rowProduct vars k = SPar a)
    ∧ (∀ x, x ∈ syntaxVars (rowProduct vars k) → x ∈ vars)
    ∧ ∀ ρ, meaning ρ (rowProduct vars k) = true ↔ ∀ j v, vars !! j = Some v → ρ v = bit k j) as Hp
    by (intros k; by apply rowProduct_ok).
  destruct (disj_ok (map (rowProduct vars) others)) with (s := rowProduct vars i) as (D1 & D2 & D3 & D4).
  { apply Forall_elem. intros a (k & -> & _)%list_elem_of_fmap. apply Hp. }
  { apply Hp. } { apply Hp. }
  split; [done|]. split; [done|]. split.
  - intros x [Hx|(a & Ha & Hx)]%D4; [by eapply Hp|].
    apply list_elem_of_fmap in Ha as (k & -> & _). by eapply Hp.
  - intros k v Hk. unfold s. rewrite D3.
    assert (k < 2 ^ length vars)%nat as Hklt by (rewrite <-Hl; by eapply lookup_lt_Some).
    assert (∀ i', i' ∈ trueRows bits → meaning (rowValue (rowAt vars k)) (rowProduct vars i') = true → k = i') as Huniq.
    { intros i' Hi' Hm. destruct (Hp i') as (_ & _ & _ & Hpm).
      pose proof (proj1 (Hpm _) Hm) as Hag. clear Hm. rename Hag into Hm. eapply rows_agree; [|done..|exact Hm].
      apply trueRows_elem in Hi'. rewrite <-Hl. by eapply lookup_lt_Some. }
    assert (meaning (rowValue (rowAt vars k)) (rowProduct vars k) = true) as Hself.
    { destruct (Hp k) as (_ & _ & _ & Hpm). apply (proj2 (Hpm _)). intros j x Hx. unfold rowAt. by apply (rowFrom_bit _ _ Hnd 0 ∅ j x). }
    change (meaning ?ρ (rowProduct vars i) || existsb (meaning ?ρ) (map ?f others))
      with (existsb (meaning ρ) (map f (i :: others))). rewrite <-Ht.
    apply eq_true_iff_eq. rewrite existsb_exists. split.
    + intros (a & Ha%list_elem_of_In & Hm). apply list_elem_of_fmap in Ha as (i' & -> & Hi').
      rewrite <-(Huniq i' Hi' Hm) in Hi'. apply trueRows_elem in Hi'. congruence.
    + intros ->. exists (rowProduct vars k). split; [|done]. apply list_elem_of_In, list_elem_of_fmap.
      exists k. split; [done|]. by apply trueRows_elem.
Qed.

(** A text of three tokens is none of the replies that stand for constants. *)
Lemma not_blank t ts : lex (String " " t) = Ok (Some ts) → (3 <= length ts)%nat →
  String " " t ∉ ["Failed to minimize"; " "; " ()"]%string.
Proof.
  rewrite !not_elem_of_cons. intros Hl Hts. repeat split; try apply not_elem_of_nil; intros E; try discriminate E;
    rewrite E in Hl; vm_compute in Hl; injection Hl as <-; simpl in Hts; lia.
Qed.

(** The reference minimizer replies to every table. *)
Lemma referenceMinimizer_replies : espressoReplies referenceMinimizer.
Proof.
  intros vars bits Hv Hnd Hl24 Hl. unfold referenceMinimizer. rewrite readVars_input, readBits_input by done.
  unfold replyOf. split; [intros H; discriminate H|]. exists (replyBody vars bits).
  unfold replyBody. destruct (trueRows bits) as [|i others] eqn:Ht.
  { split; [reflexivity|]. left. split; [done|]. intros k Hk%trueRows_elem. rewrite Ht in Hk. by inversion Hk. }
  destruct (forallb id bits) eqn:Hall.
  { split; [reflexivity|]. right; left. split; [done|]. intros k Hk. rewrite forallb_forall in Hall.
    by specialize (Hall false (proj1 (list_elem_of_In _ _) (list_elem_of_lookup_2 _ _ _ Hk))). }
  assert (vars ≠ []) as Hne.
  { intros ->. destruct bits as [|b [|]]; try discriminate Hl. destruct b; [done|].
    assert (i ∈ trueRows [false]) as Hi by (rewrite Ht; by left). by apply trueRows_elem in Hi as ?; destruct i as [|[]]. }
  destruct (sum_ok vars bits i others Hv Hnd Hne Hl Ht) as (D1 & D2 & D3 & D4).
  set (s := disj _ _) in *.
  assert (lex (String " " (text false true s)) = Ok (Some (tokens s))) as Hlex
    by by apply lexesTo_lex, lexesTo_space, lexesTo_text.
  split. { apply equationBody_reply. simpl. rewrite not_elem_of_cons. split; [done|]. by apply text_no_semicolon. }
  right; right. split.
  - apply (not_blank _ _ Hlex).
    destruct (tokens_disj (map (rowProduct vars) others) (rowProduct vars i)) as [rest Hr].
    destruct (rowProduct_ok vars i Hv Hne) as (_ & (a & Ha) & _). unfold s. rewrite Hr, Ha. simpl.
    pose proof (tokens_nonempty a). rewrite !length_app. destruct (tokens a); [done|simpl; lia].
  - exists s. repeat split; try done. intros x Hx. left. by apply D3.
Qed.

(** * Witnesses *)

(** [a & ~b | c] *)
Definition sample : BoolExpression :=
  Operator Or (Operator And (boolVar "a") (SingleCond Variable_ "b" true)) (boolVar "c").

Lemma sample_minimizable : minimizable sample.
Proof.
  split; [done|]. split; [done|]. split.
  - simpl. intros x [[->| ->]| ->]; reflexivity.
  - exists ["a"; "b"; "c"]%string. split; [apply (bool_decide_unpack _); vm_compute; done|].
    split; [simpl; lia|]. simpl. intros x [[->| ->]| ->]; rewrite !elem_of_cons; tauto.
Qed.

Lemma boolMinimize_correct_witness :
  boolMinimize referenceMinimizer sample ≠ Bad NoFuel
  ∧ ∃ e' v, boolMinimize referenceMinimizer sample = Ok e' ∧ wf e' = true ∧ nnf e' = true
  ∧ (∀ x, occurs x e' → occurs x sample)
  ∧ evaluate sample ∅ = Ok v ∧ evaluate e' ∅ = Ok v.
Proof.
  split; [vm_compute; discriminate|].
  apply (boolMinimize_correct referenceMinimizer sample ∅ referenceMinimizer_replies sample_minimizable).
Defined.

Lemma buildBDD_correct_witness :
  ∃ b, buildBDD referenceMinimizer sample ["c"; "b"; "a"]%string = Ok b
  ∧ (∀ ρ, bddValue ρ b = den ρ sample) ∧ follows_order sample ["c"; "b"; "a"]%string b.
Proof.
  apply (buildBDD_correct referenceMinimizer sample); [apply referenceMinimizer_replies|apply sample_minimizable|reflexivity].
Defined.

Lemma boolMinimize_failure_is_null_witness :
  boolMinimize (λ _, "Failed to Minimize"%string) sample = Ok nullptr.
Proof.
  apply (boolMinimize_failure_is_null _ sample ["a"; "b"; "c"]%string); [reflexivity..|simpl; lia|reflexivity].
Defined.
