(* ===== verification/ArithIR.v ===== *)
(** The part of MLIR the arithmetic analyses look at: values with a type and a
    definition, the operations of the [arith] dialect they match, and the
    structure of the [scf] and [cf] control flow around blocks.  MLIR is a git
    submodule: these are the data its accessors return ([getDefiningOp],
    [getParentOp], [getTerminator], ...), with the constructors the code tests
    for. *)

From stdpp Require Import gmap.
From S2P Require Import LLVMInterface Prelude.

Notation Value := nat.

(** * Types *)

Inductive MLIRType : Type :=
| IntegerType (width : Z)
| IndexType
| FloatType
| OtherType.

(** [isa<IntegerType, IndexType>] *)
Definition isIntOrIndex (t : MLIRType) : bool :=
  match t with IntegerType _ | IndexType => true | _ => false end.

(** The bits of an integer: an index is stored on 64. *)
Definition bitWidth (t : MLIRType) : Z :=
  match t with IntegerType w => w | IndexType => 64 | _ => 0 end.

(** * Operations *)

Inductive CmpIPredicate : Type :=
| cmp_eq | cmp_ne | cmp_slt | cmp_sle | cmp_sgt | cmp_sge | cmp_ult | cmp_ule | cmp_ugt | cmp_uge.

Section IR.
Context {IL : APIntLib} {FL : APFloatLib}.

Inductive TypedAttr : Type :=
| IntegerAttr (v : apint)
| FloatAttr (v : apfloat)
| OtherAttr.

Inductive Operation : Type :=
| arith_ConstantOp (value : TypedAttr)
| arith_AddIOp (lhs rhs : Value)
| arith_AddFOp (lhs rhs : Value)
| arith_SubIOp (lhs rhs : Value)
| arith_MulIOp (lhs rhs : Value)
| arith_ShLIOp (lhs rhs : Value)
| arith_XOrIOp (lhs rhs : Value)
| arith_CmpIOp (predicate : CmpIPredicate) (lhs rhs : Value)
| otherOp (name : nat) (operands : list Value).

Inductive Definition_ : Type :=
| OpResult (op : Operation)
| BlockArgument (block : nat) (argIdx : nat).

Record ValueInfo := mkValue { v_type : MLIRType; v_def : Definition_ }.

(** ** Regions *)

Inductive Terminator : Type :=
| cf_BranchOp (operands : list Value)
| cf_CondBranchOp (condition : Value) (trueDest : nat) (trueOperands : list Value)
    (falseDest : nat) (falseOperands : list Value)
| otherTerminator.

(** The operation a block is nested in. *)
Inductive ParentOp : Type :=
| noParent
| scf_WhileOp (before : nat) (operands yieldOperands : list Value) (condition : Value) (conditionArgs : list Value)
| scf_ForOp (inductionVar lowerBound upperBound : Value) (initArgs yieldOperands : list Value)
| otherParent.

(** A block: its parent, and the terminators of its predecessors. *)
Record Block := mkBlock { parentOp : ParentOp; predecessors : list Terminator }.

Record IR := mkIR { values : gmap Value ValueInfo; blocks : gmap nat Block }.

Definition infoOf (ir : IR) (v : Value) : res ValueInfo := of_option NullDeref (values ir !! v).

(** [getDefiningOp]: null for a block argument. *)
Definition getDefiningOp (ir : IR) (v : Value) : res (option Operation) :=
  let* i := infoOf ir v in
  Ok (match v_def i with OpResult op => Some op | BlockArgument _ _ => None end).

(** [dyn_cast_or_null<arith::CmpIOp>] of a value's definition. *)
Definition definingCmpI (ir : IR) (v : Value) : res (option (CmpIPredicate * Value * Value)) :=
  let* op := getDefiningOp ir v in
  Ok (match op with Some (arith_CmpIOp p l r) => Some (p, l, r) | _ => None end).

Lemma infoOf_fuelless ir v : fuelless (infoOf ir v).
Proof. unfold infoOf. auto with dyn. Qed.

Lemma definingCmpI_fuelless ir v : fuelless (definingCmpI ir v).
Proof. unfold definingCmpI, getDefiningOp. fuelless. apply infoOf_fuelless. Qed.

End IR.

#[export] Hint Resolve infoOf_fuelless definingCmpI_fuelless : dyn.

(** * The integers of the arith dialect *)

(** [x] is the signed reading of an integer of [w] bits. *)
Definition fits (w x : Z) : Prop := 0 < w ∧ - 2 ^ (w - 1) ≤ x < 2 ^ (w - 1).

(** [arith.cmpi] on the signed readings of its operands. *)
Definition cmpi (p : CmpIPredicate) (w x y : Z) : bool :=
  match p with
  | cmp_eq => x =? y
  | cmp_ne => negb (x =? y)
  | cmp_slt => x <? y
  | cmp_sle => x <=? y
  | cmp_sgt => y <? x
  | cmp_sge => y <=? x
  | cmp_ult => wrapU w x <? wrapU w y
  | cmp_ule => wrapU w x <=? wrapU w y
  | cmp_ugt => wrapU w y <? wrapU w x
  | cmp_uge => wrapU w y <=? wrapU w x
  end.

Lemma wrapS_fits w z : 0 < w → fits w (wrapS w z).
Proof.
  intros Hw. split; [done|]. unfold wrapS, wrapU.
  assert (2 ^ w = 2 * 2 ^ (w - 1)) as Hp by (rewrite <-Z.pow_succ_r by lia; f_equal; lia).
  pose proof (Z.mod_pos_bound z (2 ^ w) ltac:(lia)).
  destruct (Z.ltb_spec (2 * (z `mod` 2 ^ w)) (2 ^ w)); lia.
Qed.

Lemma wrapS_id w z : fits w z → wrapS w z = z.
Proof. intros [Hw Hz]. by apply wrapS_small. Qed.

Lemma wrapU_fits w z : fits w z → 0 ≤ z → wrapU w z = z.
Proof.
  intros [Hw Hz] H0. apply wrapU_small.
  assert (2 ^ w = 2 * 2 ^ (w - 1)) as Hp by (rewrite <-Z.pow_succ_r by lia; f_equal; lia). lia.
Qed.
