(* ===== verification/NumericRange.v ===== *)
(** Numeric ranges (NumericRange of NumericAnalysis.h/.cpp): closed, half-open or
    open intervals with [int64_t] or [double] bounds behind a type-erased
    handle.  [Bound] is the interface the template of a range's model asks of its
    bounds. *)

From Stdlib Require Import SpecFloat.
From S2P Require Import LLVMInterface ArithIR Prelude.

(** * Bounds *)

Class Bound (T : Type) := {
  b_zero : T;
  b_add : T → T → res T;
  b_lt : T → T → bool;
  b_ge : T → T → bool;
  b_eq : T → T → bool
}.

(** [std::max], [std::min] *)
Definition b_max {T} `{Bound T} (a b : T) : T := if b_lt a b then b else a.
Definition b_min {T} `{Bound T} (a b : T) : T := if b_lt b a then b else a.

Definition int64_ok (z : Z) : bool := (- 2 ^ 63 <=? z) && (z <? 2 ^ 63).

(** A signed 64-bit result: out of range, the C++ is undefined. *)
Definition int64 (z : Z) : res Z := if int64_ok z then Ok z else Bad Overflow.

#[export] Instance IntBound : Bound Z := {|
  b_zero := 0; b_add x y := int64 (x + y); b_lt := Z.ltb; b_ge x y := y <=? x; b_eq := Z.eqb
|}.

(** [double]: IEEE binary64. *)
#[export] Instance FloatBound : Bound spec_float := {|
  b_zero := S754_zero false; b_add x y := Ok (SFadd 53 1024 x y);
  b_lt := SFltb; b_ge x y := SFleb y x; b_eq := SFeqb
|}.

(** * The model of a range *)

Record NumericRangeModel (T : Type) := mkRange { lb : option T; ub : option T }.
Arguments mkRange {T}. Arguments lb {T}. Arguments ub {T}.

Section Model.
Context {T : Type} `{Bound T}.

(** [==] of [std::optional]s *)
Definition optional_eq (a b : option T) : bool :=
  match a, b with
  | Some x, Some y => b_eq x y
  | None, None => true
  | _, _ => false
  end.

Definition model_isPositive (r : NumericRangeModel T) : bool :=
  match lb r with Some l => b_ge l b_zero | None => false end.

Definition model_invert (r : NumericRangeModel T) : NumericRangeModel T :=
  match lb r, ub r with
  | Some l, _ => mkRange None (Some l)
  | None, Some u => mkRange (Some u) None
  | None, None => mkRange None None
  end.

Definition addBounds (a b : option T) : res (option T) :=
  match a, b with
  | Some x, Some y => let* z := b_add x y in Ok (Some z)
  | _, _ => Ok None
  end.

Definition model_add (r rhs : NumericRangeModel T) : res (NumericRangeModel T) :=
  let* newLb := addBounds (lb r) (lb rhs) in
  let* newUb := addBounds (ub r) (ub rhs) in
  Ok (mkRange newLb newUb).

(** The most restrictive of two bounds. *)
Definition tighter (f : T → T → T) (a b : option T) : option T :=
  match a, b with
  | None, b => b
  | a, None => a
  | Some x, Some y => Some (f x y)
  end.

(** The least restrictive of two bounds. *)
Definition looser (f : T → T → T) (a b : option T) : option T :=
  match a, b with Some x, Some y => Some (f x y) | _, _ => None end.

Definition model_setIntersect (r rhs : NumericRangeModel T) : res (NumericRangeModel T) :=
  Ok (mkRange (tighter b_max (lb r) (lb rhs)) (tighter b_min (ub r) (ub rhs))).

Definition model_setUnion (r rhs : NumericRangeModel T) : res (NumericRangeModel T) :=
  Ok (mkRange (looser b_min (lb r) (lb rhs)) (looser b_max (ub r) (ub rhs))).

Definition model_lt (r rhs : NumericRangeModel T) : bool :=
  match ub r, lb rhs with Some u, Some l => b_lt u l | _, _ => false end.

Definition model_eq (r rhs : NumericRangeModel T) : bool :=
  optional_eq (lb r) (lb rhs) && optional_eq (ub r) (ub rhs).

End Model.

(** * The type-erased range *)

Inductive NumericRange : Type :=
| Uninitialized
| IntRange (r : NumericRangeModel Z)
| FloatRange (r : NumericRangeModel spec_float).

Definition isPositive (r : NumericRange) : res bool :=
  match r with
  | Uninitialized => Bad AssertFailed
  | IntRange m => Ok (model_isPositive m)
  | FloatRange m => Ok (model_isPositive m)
  end.

Definition invert (r : NumericRange) : res NumericRange :=
  match r with
  | Uninitialized => Bad AssertFailed
  | IntRange m => Ok (IntRange (model_invert m))
  | FloatRange m => Ok (FloatRange (model_invert m))
  end.

(** Calls a binary method on a pair of initialized ranges: the other range is
    cast to the class of the receiving one. *)
Definition onModels (f : ∀ T, Bound T → NumericRangeModel T → NumericRangeModel T → res (NumericRangeModel T))
    (r other : NumericRange) : res NumericRange :=
  match r, other with
  | IntRange a, IntRange b => let* c := f Z IntBound a b in Ok (IntRange c)
  | FloatRange a, FloatRange b => let* c := f spec_float FloatBound a b in Ok (FloatRange c)
  | Uninitialized, _ | _, Uninitialized => Bad AssertFailed
  | _, _ => Bad BadCast
  end.

(** [add], [rangeIntersect] and [rangeUnion]: an uninitialized range is neutral. *)
Definition combine (f : ∀ T, Bound T → NumericRangeModel T → NumericRangeModel T → res (NumericRangeModel T))
    (lhs rhs : NumericRange) : res NumericRange :=
  match lhs, rhs with
  | Uninitialized, _ => Ok rhs
  | _, Uninitialized => Ok lhs
  | _, _ => onModels f lhs rhs
  end.

Definition add : NumericRange → NumericRange → res NumericRange := combine (@model_add).
Definition rangeIntersect : NumericRange → NumericRange → res NumericRange := combine (@model_setIntersect).
Definition rangeUnion : NumericRange → NumericRange → res NumericRange := combine (@model_setUnion).

(** A comparison of two initialized ranges. *)
Definition compareModels (f : ∀ T, Bound T → NumericRangeModel T → NumericRangeModel T → bool)
    (r other : NumericRange) : res bool :=
  match r, other with
  | IntRange a, IntRange b => Ok (f Z IntBound a b)
  | FloatRange a, FloatRange b => Ok (f spec_float FloatBound a b)
  | Uninitialized, _ | _, Uninitialized => Bad AssertFailed
  | _, _ => Bad BadCast
  end.

Definition range_lt : NumericRange → NumericRange → res bool := compareModels (@model_lt).
Definition range_eq : NumericRange → NumericRange → res bool := compareModels (@model_eq).
Definition range_le (r other : NumericRange) : res bool :=
  let* a := range_lt r other in if a : bool then Ok true else range_eq r other.

(** [getLb<int64_t>], [getUb<int64_t>] *)
Definition getRangeInt (r : NumericRange) : res (NumericRangeModel Z) :=
  match r with
  | Uninitialized => Bad AssertFailed
  | IntRange m => Ok m
  | FloatRange _ => Bad BadCast
  end.
Definition getLbInt (r : NumericRange) : res (option Z) := let* m := getRangeInt r in Ok (lb m).
Definition getUbInt (r : NumericRange) : res (option Z) := let* m := getRangeInt r in Ok (ub m).

(** * Ranges of a type or an attribute *)

Definition unbounded (t : MLIRType) : res NumericRange :=
  match t with
  | IntegerType _ | IndexType => Ok (IntRange (mkRange None None))
  | FloatType => Ok (FloatRange (mkRange None None))
  | OtherType => Bad AssertFailed
  end.

Definition positive (t : MLIRType) : res NumericRange :=
  match t with
  | IntegerType _ | IndexType => Ok (IntRange (mkRange (Some 0) None))
  | FloatType => Ok (FloatRange (mkRange (Some (S754_zero false)) None))
  | OtherType => Bad AssertFailed
  end.

Section Attr.
Context {IL : APIntLib} {FL : APFloatLib}.

(** [(int64_t)] of a [uint64_t] *)
Definition toInt64 (z : Z) : Z := wrapS 64 z.

Definition exactValue (attr : TypedAttr) : res NumericRange :=
  match attr with
  | IntegerAttr ap =>
      let val := if isNegative ap then getSExtValue ap else toInt64 (getZExtValue ap) in
      Ok (IntRange (mkRange (Some val) (Some val)))
  | FloatAttr ap =>
      let val := convertToDouble ap in Ok (FloatRange (mkRange (Some val) (Some val)))
  | OtherAttr => Bad AssertFailed
  end.

End Attr.

(** * What integer ranges contain *)

Definition above (l : option Z) (z : Z) : Prop := match l with Some l => l ≤ z | None => True end.
Definition below (u : option Z) (z : Z) : Prop := match u with Some u => z ≤ u | None => True end.
Definition within (m : NumericRangeModel Z) (z : Z) : Prop := above (lb m) z ∧ below (ub m) z.

(** The integers in a range: none in the uninitialized one. *)
Definition contains (r : NumericRange) (z : Z) : Prop :=
  match r with IntRange m => within m z | _ => False end.

(** Case analysis on the bounds of the ranges in sight. *)
Ltac bounds := repeat match goal with
  | m : NumericRangeModel Z |- _ => destruct m as [[] []]
  | o : option Z |- _ => destruct o
  end; simpl in *.

Ltac range_cases := unfold within, above, below, b_max, b_min in *; simpl in *;
  repeat match goal with |- context [if ?b then _ else _] => destruct b eqn:? end;
  repeat match goal with H : context [if ?b then _ else _] |- _ => destruct b eqn:? end;
  rewrite ?Z.ltb_lt, ?Z.ltb_ge in *; try lia.

Lemma int64_inv z r : int64 z = Ok r → r = z ∧ - 2 ^ 63 ≤ z < 2 ^ 63.
Proof.
  unfold int64, int64_ok. destruct (Z.leb_spec (- 2 ^ 63) z), (Z.ltb_spec z (2 ^ 63)); simpl; try done.
  by intros [= ->].
Qed.

Lemma model_add_within a b c x y : model_add a b = Ok c → within a x → within b y → within c (x + y).
Proof.
  unfold model_add. intros H Ha Hb.
  apply bind_ok in H as (l & Hl & H). apply bind_ok in H as (u & Hu & H). injection H as <-.
  destruct a as [la ua], b as [lb ub]; simpl in *. split; simpl.
  - destruct la, lb; simpl in Hl; try (injection Hl as <-; done).
    apply bind_ok in Hl as (? & Hz & [= <-]). apply int64_inv in Hz as [-> _]. range_cases.
  - destruct ua, ub; simpl in Hu; try (injection Hu as <-; done).
    apply bind_ok in Hu as (? & Hz & [= <-]). apply int64_inv in Hz as [-> _]. range_cases.
Qed.

Lemma model_setIntersect_within a b c z : model_setIntersect a b = Ok c →
  within c z ↔ within a z ∧ within b z.
Proof. intros [= <-]. bounds; range_cases. Qed.

(** The union's bounds are those of the hull. *)
Lemma model_setUnion_within a b c : model_setUnion a b = Ok c → ∀ z, within a z ∨ within b z → within c z.
Proof. intros [= <-] z. bounds; range_cases. Qed.

(** A constraint that does not exclude [z]: a range of another kind, which cannot
    be intersected with one of integers, excludes nothing. *)
Definition allows (r : NumericRange) (z : Z) : Prop := ∀ m, r = IntRange m → within m z.

Lemma rangeUnion_contains a b c z : rangeUnion a b = Ok c → contains a z ∨ contains b z → contains c z.
Proof.
  destruct a as [|ma|], b as [|mb|]; simpl; try done; intros H Hz; try (injection H as <-; tauto).
  injection H as <-. by eapply model_setUnion_within.
Qed.

Lemma rangeIntersect_contains a b c z :
  rangeIntersect a b = Ok c → contains a z → allows b z → contains c z.
Proof.
  destruct a as [|ma|], b as [|mb|]; simpl; try done; intros H Hz Hb; injection H as <-; [done|].
  simpl. apply (model_setIntersect_within ma mb _ z eq_refl). split; [done|by apply Hb].
Qed.

Lemma add_contains a b c x y : add a b = Ok c → contains a x → contains b y → contains c (x + y).
Proof.
  destruct a as [|ma|], b as [|mb|]; simpl; try done. intros H Hx Hy.
  apply bind_ok in H as (m & Hm & [= <-]). simpl. by eapply model_add_within.
Qed.

Lemma unbounded_contains t r z : unbounded t = Ok r → isIntOrIndex t = true → contains r z.
Proof. destruct t; simpl; try done; by intros [= <-] _. Qed.

Lemma contains_allows r z : contains r z → allows r z.
Proof. by intros H m ->. Qed.

Lemma int64_fuelless z : fuelless (int64 z).
Proof. unfold int64. by destruct (int64_ok z). Qed.
Lemma unbounded_fuelless t : fuelless (unbounded t).
Proof. by destruct t. Qed.
Lemma invert_fuelless r : fuelless (invert r).
Proof. by destruct r. Qed.
Lemma exactValue_fuelless `{APIntLib} `{APFloatLib} a : fuelless (exactValue a).
Proof. by destruct a. Qed.
Lemma combine_fuelless f a b : (∀ T B x y, fuelless (f T B x y)) → fuelless (combine f a b).
Proof. intros Hf. destruct a, b; simpl; try done; by apply fuelless_bind. Qed.
Lemma rangeUnion_fuelless a b : fuelless (rangeUnion a b).
Proof. by apply combine_fuelless. Qed.
Lemma rangeIntersect_fuelless a b : fuelless (rangeIntersect a b).
Proof. by apply combine_fuelless. Qed.
Lemma add_fuelless a b : fuelless (add a b).
Proof.
  unfold add. destruct a as [|ma|ma], b as [|mb|mb]; simpl; try done; apply fuelless_bind; try done;
    unfold model_add; repeat (apply fuelless_bind; [|intros ?]); try done;
    unfold addBounds; destruct (lb ma), (lb mb), (ub ma), (ub mb); simpl; try done;
    apply fuelless_bind; try done; apply int64_fuelless.
Qed.
Lemma getRangeInt_fuelless r : fuelless (getRangeInt r).
Proof. by destruct r. Qed.

#[export] Hint Resolve int64_fuelless unbounded_fuelless invert_fuelless exactValue_fuelless
  rangeUnion_fuelless rangeIntersect_fuelless add_fuelless getRangeInt_fuelless : dyn.
