(* ===== verification/NumericAnalysis.v ===== *)
(** The numeric analysis (NumericAnalysis.cpp): the range of a value, estimated
    by following its definition backwards.  The analysis keeps a map of the
    ranges it knows ([rangeMap]) and threads a set of the values on its path,
    copied where the code copies it. *)

From stdpp Require Import gmap.
From S2P Require Import LLVMInterface ArithIR NumericRange Prelude.

Notation VisitSet := (gset Value).

Section Analysis.
Context {IL : APIntLib} {FL : APFloatLib}.

(** * State *)

Record State := mkState { rangeMap : gmap Value NumericRange; visited : VisitSet }.

Definition setRange (v : Value) (r : NumericRange) (st : State) : State :=
  mkState (<[v := r]> (rangeMap st)) (visited st).

(** A recursive call on the caller's own set, or on a copy [copy] of one. *)
Definition Query : Type := Value → State → res (NumericRange * State).

Definition onCopy (query : State → res (NumericRange * State)) (copy : VisitSet) (st : State)
    : res (NumericRange * State) :=
  let* (r, st') := query (mkState (rangeMap st) copy) in
  Ok (r, mkState (rangeMap st') (visited st)).

Section Body.
Context (ir : IR) (getRange : Query).

(** * Comparisons *)

(** The bounds [*lb] and [*ub] of the other operand: an empty [std::optional]
    is dereferenced as the code does. *)
Definition lowFrom (b : option Z) (offset : Z) : res NumericRange :=
  let* l := of_option NullDeref b in let* l := int64 (l + offset) in
  Ok (IntRange (mkRange (Some l) None)).
Definition highTo (b : option Z) (offset : Z) : res NumericRange :=
  let* u := of_option NullDeref b in let* u := int64 (u + offset) in
  Ok (IntRange (mkRange None (Some u))).
Definition zeroTo (b : option Z) (offset : Z) : res NumericRange :=
  let* u := of_option NullDeref b in let* u := int64 (u + offset) in
  Ok (IntRange (mkRange (Some 0) (Some u))).

Definition cmpRangeOf (predicate : CmpIPredicate) (isLhs : bool) (otherRange : NumericRange) : res NumericRange :=
  let* lb := getLbInt otherRange in
  let* ub := getUbInt otherRange in
  match predicate with
  | cmp_eq => Ok otherRange
  | cmp_ne => invert otherRange
  | cmp_ult => if isLhs then zeroTo ub (-1) else lowFrom lb 1
  | cmp_ule => if isLhs then zeroTo ub 0 else lowFrom lb 0
  | cmp_slt => if isLhs then highTo ub (-1) else lowFrom lb 1
  | cmp_sle => if isLhs then highTo ub 0 else lowFrom lb 0
  | cmp_ugt => if isLhs then lowFrom lb 1 else zeroTo ub (-1)
  | cmp_uge => if isLhs then lowFrom lb 0 else zeroTo ub 0
  | cmp_sgt => if isLhs then lowFrom lb 1 else highTo ub (-1)
  | cmp_sge => if isLhs then lowFrom lb 0 else highTo ub 0
  end.

Definition fromCmp (val : Value) (cmpOp : CmpIPredicate * Value * Value) (st : State)
    : res (NumericRange * State) :=
  let '(predicate, lhs, rhs) := cmpOp in
  if bool_decide (val = lhs) then
    let* (otherRange, st) := getRange rhs st in
    let* r := cmpRangeOf predicate true otherRange in Ok (r, st)
  else if bool_decide (val = rhs) then
    let* (otherRange, st) := getRange lhs st in
    let* r := cmpRangeOf predicate false otherRange in Ok (r, st)
  else
    let* i := infoOf ir lhs in
    let* r := unbounded (v_type i) in Ok (r, st).

(** * Block arguments *)

(** A value that reaches a block argument through a conditional branch, tightened
    by the branch's comparison ([updateRangeCond]). *)
Definition updateRangeCond (block argIdx : nat) (successor : nat) (operands : list Value) (cond : Value)
    (brDest : bool) (range : NumericRange) (st : State) : res (NumericRange * State) :=
  if negb (successor =? block)%nat then Ok (range, st)
  else
    let* brArg := at_ operands argIdx in
    let* (brArgRange, st) := onCopy (getRange brArg) (visited st) st in
    let* cmp := definingCmpI ir cond in
    let* (brArgRange, st) :=
      match cmp with
      | Some cmpOp =>
          let* (cmpRange, st) := onCopy (fromCmp brArg cmpOp) (visited st) st in
          let* cmpRange := if brDest then Ok cmpRange else invert cmpRange in
          let* r := rangeIntersect brArgRange cmpRange in Ok (r, st)
      | None => Ok (brArgRange, st)
      end in
    let* range := rangeUnion range brArgRange in
    Ok (range, st).

(** The loop over the predecessors. *)
Fixpoint unionOfPredecessors (argType : MLIRType) (block argIdx : nat) (preds : list Terminator)
    (range : NumericRange) (st : State) : res (NumericRange * State) :=
  match preds with
  | [] => Ok (range, st)
  | pred :: preds =>
      match pred with
      | cf_BranchOp operands =>
          let* v := at_ operands argIdx in
          let* (r, st) := onCopy (getRange v) (visited st) st in
          let* range := rangeUnion range r in
          unionOfPredecessors argType block argIdx preds range st
      | cf_CondBranchOp cond trueDest trueOperands falseDest falseOperands =>
          let* (range, st) := updateRangeCond block argIdx trueDest trueOperands cond true range st in
          let* (range, st) := updateRangeCond block argIdx falseDest falseOperands cond false range st in
          unionOfPredecessors argType block argIdx preds range st
      | otherTerminator => let* r := unbounded argType in Ok (r, st)
      end
  end.

Definition whileArgument (block argIdx before : nat) (operands yieldOperands : list Value)
    (condition : Value) (conditionArgs : list Value) (st : State) : res (NumericRange * State) :=
  if (block =? before)%nat then
    let visitedYield := visited st in
    let* v := at_ operands argIdx in
    let* (r1, st) := getRange v st in
    let* y := at_ yieldOperands argIdx in
    let* (r2, st) := onCopy (getRange y) visitedYield st in
    let* r := rangeUnion r1 r2 in Ok (r, st)
  else
    let* yieldArg := at_ conditionArgs argIdx in
    let* cmp := definingCmpI ir condition in
    match cmp with
    | Some cmpOp =>
        let* (cmpRange, st) := onCopy (fromCmp yieldArg cmpOp) (visited st) st in
        let* (r, st) := getRange yieldArg st in
        let* r := rangeIntersect r cmpRange in Ok (r, st)
    | None => getRange yieldArg st
    end.

Definition forArgument (arg : Value) (argIdx : nat) (inductionVar lowerBound upperBound : Value)
    (initArgs yieldOperands : list Value) (st : State) : res (NumericRange * State) :=
  if bool_decide (arg = inductionVar) then
    let visitedUb := visited st in
    let* (upRange, st) := getRange upperBound st in
    let* ub := getUbInt upRange in
    let* ub := match ub with Some u => let* u := int64 (u - 1) in Ok (Some u) | None => Ok None end in
    let* (lowRange, st) := onCopy (getRange lowerBound) visitedUb st in
    let* lb := getLbInt upRange in
    let* r := rangeUnion lowRange (IntRange (mkRange lb ub)) in Ok (r, st)
  else
    let* v := at_ initArgs argIdx in
    let* (r1, st) := getRange v st in
    let* y := at_ yieldOperands argIdx in
    let* (r2, st) := getRange y st in
    let* r := rangeUnion r1 r2 in Ok (r, st).

Definition getRangeOfBlockArg (arg : Value) (argType : MLIRType) (block argIdx : nat) (st : State)
    : res (NumericRange * State) :=
  let* b := of_option NullDeref (blocks ir !! block) in
  match parentOp b with
  | noParent => Ok (Uninitialized, st)
  | scf_WhileOp before operands yieldOperands condition conditionArgs =>
      whileArgument block argIdx before operands yieldOperands condition conditionArgs st
  | scf_ForOp inductionVar lowerBound upperBound initArgs yieldOperands =>
      forArgument arg argIdx inductionVar lowerBound upperBound initArgs yieldOperands st
  | otherParent =>
      match predecessors b with
      | [] => let* r := unbounded argType in Ok (r, st)
      | preds => unionOfPredecessors argType block argIdx preds Uninitialized st
      end
  end.

(** * Values *)

(** The range of a value by its definition. *)
Definition rangeOfDefinition (val : Value) (i : ValueInfo) (st : State) : res (NumericRange * State) :=
  match v_def i with
  | BlockArgument block argIdx => getRangeOfBlockArg val (v_type i) block argIdx st
  | OpResult (arith_ConstantOp attr) => let* r := exactValue attr in Ok (r, st)
  | OpResult (arith_AddIOp a b | arith_AddFOp a b) =>
      let visitedRhs := visited st in
      let* (r1, st) := getRange a st in
      let* (r2, st) := onCopy (getRange b) visitedRhs st in
      let* r := add r1 r2 in Ok (r, st)
  | _ => let* r := unbounded (v_type i) in Ok (r, st)
  end.

Definition getRangeBody (val : Value) (st : State) : res (NumericRange * State) :=
  let* i := infoOf ir val in
  let* _ := assert_ (isIntOrIndex (v_type i) || match v_type i with FloatType => true | _ => false end) in
  if bool_decide (val ∈ visited st) then let* r := unbounded (v_type i) in Ok (r, st)
  else
    let st := mkState (rangeMap st) ({[val]} ∪ visited st) in
    match rangeMap st !! val with
    | Some r => Ok (r, st)
    | None =>
        let* (r, st) := rangeOfDefinition val i st in
        Ok (r, setRange val r st)
    end.

End Body.

(** The recursion: each call visits a value its callers have not. *)
Fixpoint getRangeRec (ir : IR) (fuel : nat) (val : Value) (st : State) : res (NumericRange * State) :=
  match fuel with
  | O => Bad NoFuel
  | S fuel => getRangeBody ir (getRangeRec ir fuel) val st
  end.

Definition rangeFuel (ir : IR) : nat := S (size (values ir)).

(** The public queries: a map of known ranges in, a range and the new map out. *)
Definition getRange (ir : IR) (val : Value) (known : gmap Value NumericRange)
    : res (NumericRange * gmap Value NumericRange) :=
  match known !! val with
  | Some r => Ok (r, known)
  | None =>
      let* (r, st) := getRangeRec ir (rangeFuel ir) val (mkState known ∅) in
      Ok (r, rangeMap st)
  end.

Definition analysisIsPositive (ir : IR) (val : Value) (known : gmap Value NumericRange)
    : res (bool * gmap Value NumericRange) :=
  let* (r, known) := getRange ir val known in
  let* p := isPositive r in Ok (p, known).

End Analysis.
