(* ===== verification/RangeSound.v ===== *)
(** Correctness of the numeric analysis: it ends on every program, and the range
    it gives a value contains every integer the value can take.  What a value
    can take is [takes], the collecting semantics of the [arith], [scf] and [cf]
    operations the analysis follows. *)

From stdpp Require Import gmap.
From S2P Require Import LLVMInterface ArithIR NumericRange NumericAnalysis Prelude.

Section Soundness.
Context {IL : APIntLib} {FL : APFloatLib} {LAWS : APIntLaws IL}.

(** * The integers a value can take *)

Section Semantics.
Context (ir : IR).

(** The comparison behind the condition of an edge, and its outcome there. *)
Definition edgeOf (cond : Value) (outcome : bool) : option (CmpIPredicate * Value * Value * bool) :=
  match definingCmpI ir cond with
  | Ok (Some (p, l, r)) => Some (p, l, r, outcome)
  | _ => None
  end.

Definition argumentOf (v : Value) (t : MLIRType) (block argIdx : nat) (b : Block) : Prop :=
  values ir !! v = Some (mkValue t (BlockArgument block argIdx)) ∧ blocks ir !! block = Some b.

(** A block argument receives an operand over an edge. *)
Inductive flows (v : Value) : Value → option (CmpIPredicate * Value * Value * bool) → Prop :=
| flow_while_operand t b i ps before ops ys c args o :
    argumentOf v t b i (mkBlock (scf_WhileOp before ops ys c args) ps) → b = before →
    ops !! i = Some o → flows v o None
| flow_while_yield t b i ps before ops ys c args o :
    argumentOf v t b i (mkBlock (scf_WhileOp before ops ys c args) ps) → b = before →
    ys !! i = Some o → flows v o None
| flow_while_body t b i ps before ops ys c args o :
    argumentOf v t b i (mkBlock (scf_WhileOp before ops ys c args) ps) → b ≠ before →
    args !! i = Some o → flows v o (edgeOf c true)
| flow_for_init t b i ps iv lo hi inits ys o :
    argumentOf v t b (S i) (mkBlock (scf_ForOp iv lo hi inits ys) ps) → v ≠ iv →
    inits !! i = Some o → flows v o None
| flow_for_yield t b i ps iv lo hi inits ys o :
    argumentOf v t b (S i) (mkBlock (scf_ForOp iv lo hi inits ys) ps) → v ≠ iv →
    ys !! i = Some o → flows v o None
| flow_branch t b i ps ops o :
    argumentOf v t b i (mkBlock otherParent ps) → cf_BranchOp ops ∈ ps →
    ops !! i = Some o → flows v o None
| flow_true t b i ps c ops fd fops o :
    argumentOf v t b i (mkBlock otherParent ps) → cf_CondBranchOp c b ops fd fops ∈ ps →
    ops !! i = Some o → flows v o (edgeOf c true)
| flow_false t b i ps c td tops ops o :
    argumentOf v t b i (mkBlock otherParent ps) → cf_CondBranchOp c td tops b ops ∈ ps →
    ops !! i = Some o → flows v o (edgeOf c false).

Definition widthOf (v : Value) : Z :=
  match values ir !! v with Some i => bitWidth (v_type i) | None => 0 end.

(** The comparison of an edge has the edge's outcome on integers its operands
    take; an operand that is itself passed along the edge has the value passed. *)
Inductive outcomeHolds (took : Value → Z → Prop) (o : Value) (z : Z) :
    option (CmpIPredicate * Value * Value * bool) → Prop :=
| outcome_none : outcomeHolds took o z None
| outcome_some p l r outcome x y : took l x → took r y → (o = l → x = z) → (o = r → y = z) →
    cmpi p (widthOf l) x y = outcome → outcomeHolds took o z (Some (p, l, r, outcome)).

(** Operations that say nothing of their result. *)
Definition opaqueOp (op : Operation) : bool :=
  match op with arith_ConstantOp _ | arith_AddIOp _ _ | arith_AddFOp _ _ => false | _ => true end.

Inductive takes : Value → Z → Prop :=
| takes_constant v t a :
    values ir !! v = Some (mkValue t (OpResult (arith_ConstantOp (IntegerAttr a)))) →
    isIntOrIndex t = true → takes v (apint_sval a)
| takes_addi v t a b x y :
    values ir !! v = Some (mkValue t (OpResult (arith_AddIOp a b))) → isIntOrIndex t = true →
    takes a x → takes b y → takes v (wrapS (bitWidth t) (x + y))
| takes_opaque v t op z :
    values ir !! v = Some (mkValue t (OpResult op)) → isIntOrIndex t = true → opaqueOp op = true →
    fits (bitWidth t) z → takes v z
| takes_flow v o edge t d z :
    flows v o edge → values ir !! v = Some (mkValue t d) → isIntOrIndex t = true →
    takes o z → outcomeHolds takes o z edge → takes v z
| takes_induction v t b i ps lo hi inits ys x y z :
    argumentOf v t b i (mkBlock (scf_ForOp v lo hi inits ys) ps) → isIntOrIndex t = true →
    takes lo x → takes hi y → x ≤ z < y → takes v z
| takes_entry v t b i z :
    argumentOf v t b i (mkBlock otherParent []) → isIntOrIndex t = true → fits (bitWidth t) z → takes v z
| takes_unsupported v t b i ps z :
    argumentOf v t b i (mkBlock otherParent ps) → otherTerminator ∈ ps →
    isIntOrIndex t = true → fits (bitWidth t) z → takes v z
| takes_detached v t b i ps z :
    argumentOf v t b i (mkBlock noParent ps) → isIntOrIndex t = true → fits (bitWidth t) z → takes v z.

(** ** Programs on which ranges are right *)

Definition isConstant (v : Value) : bool :=
  match values ir !! v with
  | Some (mkValue _ (OpResult (arith_ConstantOp (IntegerAttr _)))) => true
  | _ => false
  end.

Definition isUnsigned (p : CmpIPredicate) : bool :=
  match p with cmp_ult | cmp_ule | cmp_ugt | cmp_uge => true | _ => false end.

(** A comparison that says of the operand passed along the edge what
    [fromCmp] reads from it. *)
Definition safeEdge (o : Value) (p : CmpIPredicate) (l r : Value) (outcome : bool) : Prop :=
  (o = l ∨ o = r) →
  (isUnsigned p = true → ∀ v z, v = l ∨ v = r → takes v z → 0 ≤ z < 2 ^ widthOf l)
  ∧ (if outcome then p ≠ cmp_ne
     else isUnsigned p = false ∧ p ≠ cmp_eq ∧ isConstant (if bool_decide (o = l) then r else l) = true).

Record analysable : Prop := {
  constants_fit v t a :
    values ir !! v = Some (mkValue t (OpResult (arith_ConstantOp (IntegerAttr a)))) →
    0 < apint_width a ∧ - 2 ^ 63 ≤ apint_sval a < 2 ^ 63;
  additions_fit v t a b x y :
    values ir !! v = Some (mkValue t (OpResult (arith_AddIOp a b))) →
    takes a x → takes b y → fits (bitWidth t) (x + y);
  edges_safe v o p l r outcome : flows v o (Some (p, l, r, outcome)) → safeEdge o p l r outcome;
  blocks_attached b blk : blocks ir !! b = Some blk → parentOp blk ≠ noParent;
  no_carried_values v t b i ps iv lo hi inits ys :
    argumentOf v t b i (mkBlock (scf_ForOp iv lo hi inits ys) ps) → v = iv
}.

End Semantics.

(** * The range a comparison gives *)

Definition sideHolds (p : CmpIPredicate) (w : Z) (isLhs : bool) (z other : Z) : bool :=
  if isLhs then cmpi p w z other else cmpi p w other z.

Lemma lowFrom_ok b k r : lowFrom b k = Ok r → ∃ l, b = Some l ∧ r = IntRange (mkRange (Some (l + k)) None).
Proof.
  unfold lowFrom. intros H. res_inv. apply int64_inv in Ha0 as [-> _]. eauto.
Qed.
Lemma highTo_ok b k r : highTo b k = Ok r → ∃ u, b = Some u ∧ r = IntRange (mkRange None (Some (u + k))).
Proof.
  unfold highTo. intros H. res_inv. apply int64_inv in Ha0 as [-> _]. eauto.
Qed.
Lemma zeroTo_ok b k r : zeroTo b k = Ok r → ∃ u, b = Some u ∧ r = IntRange (mkRange (Some 0) (Some (u + k))).
Proof.
  unfold zeroTo. intros H. res_inv. apply int64_inv in Ha0 as [-> _]. eauto.
Qed.

(** The bounds of a comparison's range, if it has one. *)
Ltac cmp_ranges := repeat match goal with
  | H : lowFrom _ _ = Ok _ |- _ => apply lowFrom_ok in H as (? & ? & ->)
  | H : highTo _ _ = Ok _ |- _ => apply highTo_ok in H as (? & ? & ->)
  | H : zeroTo _ _ = Ok _ |- _ => apply zeroTo_ok in H as (? & ? & ->)
  end; simpl in *.

(** The comparison holds. *)
Lemma cmpRangeOf_true p w isLhs other z o rc :
  contains other o → (isUnsigned p = true → 0 ≤ z < 2 ^ w ∧ 0 ≤ o < 2 ^ w) →
  sideHolds p w isLhs z o = true → p ≠ cmp_ne →
  cmpRangeOf p isLhs other = Ok rc → allows rc z.
Proof.
  intros Ho Hu Hs Hne Hrc. destruct other as [|[l u]|]; simpl in Ho; try done.
  unfold cmpRangeOf, getLbInt, getUbInt in Hrc. simpl in Hrc.
  destruct p, isLhs; simpl in *; try done;
    try (destruct (Hu eq_refl); rewrite ?wrapU_small in Hs by done);
    cmp_ranges; try (injection Hrc as <-); intros m [= <-];
    unfold within, above, below in *; simpl in *; subst; simpl in *;
    rewrite ?Z.eqb_eq, ?Z.ltb_lt, ?Z.leb_le in Hs; subst; first [done|lia].
Qed.

(** The comparison with a constant fails. *)
Lemma cmpRangeOf_false p w isLhs other z o rc rc' :
  other = IntRange (mkRange (Some o) (Some o)) ∨ other = IntRange (mkRange None None) →
  isUnsigned p = false → sideHolds p w isLhs z o = false → p ≠ cmp_eq →
  cmpRangeOf p isLhs other = Ok rc → invert rc = Ok rc' → allows rc' z.
Proof.
  intros Ho Hu Hs Hne Hrc Hi. destruct Ho as [-> | ->];
  unfold cmpRangeOf, getLbInt, getUbInt in Hrc; simpl in Hrc;
  destruct p, isLhs; simpl in *; try done; cmp_ranges; try (injection Hrc as <-); simplify_eq; simpl in *; simplify_eq; intros m [= <-];
    unfold within, above, below in *; simpl in *;
    rewrite ?negb_false_iff, ?Z.eqb_eq, ?Z.ltb_ge, ?Z.leb_gt in Hs; subst; lia.
Qed.

Lemma cmpRangeOf_fuelless p isLhs r : fuelless (cmpRangeOf p isLhs r).
Proof.
  unfold cmpRangeOf, getLbInt, getUbInt, lowFrom, highTo, zeroTo. destruct p, isLhs; fuelless.
Qed.

Lemma exactValue_sval a : 0 < apint_width a → - 2 ^ 63 ≤ apint_sval a < 2 ^ 63 →
  (if isNegative a then getSExtValue a else toInt64 (getZExtValue a)) = apint_sval a.
Proof.
  intros Hw Hf. rewrite isNegative_ok. destruct (Z.ltb_spec (apint_sval a) 0); [by apply getSExtValue_ok|].
  assert (apint_uval a = apint_sval a) as Hu.
  { unfold apint_sval, wrapS in *. pose proof (apint_uval_range a).
    rewrite (wrapU_small (apint_width a) (apint_uval a)) in * by done.
    destruct (2 * apint_uval a <? 2 ^ apint_width a); lia. }
  rewrite getZExtValue_ok by (rewrite Hu; lia). rewrite Hu. unfold toInt64. apply wrapS_small; lia.
Qed.

(** * Queries *)

Section Queries.
Context (ir : IR).

(** What the analysis claims of a range: it contains what the value can take, and
    a constant's is exact (or nothing is known of it yet). *)
Definition describes (v : Value) (r : NumericRange) : Prop :=
  analysable ir →
  (∀ z, takes ir v z → contains r z)
  ∧ ∀ t a, values ir !! v = Some (mkValue t (OpResult (arith_ConstantOp (IntegerAttr a)))) →
    isIntOrIndex t = true → r = IntRange (mkRange (Some (apint_sval a)) (Some (apint_sval a))) ∨ r = IntRange (mkRange None None).

Definition known (m : gmap Value NumericRange) : Prop := ∀ v r, m !! v = Some r → describes v r.

(** A query from [st] ends, forgets no visited value, keeps the map right, and
    its range satisfies [P]. *)
Definition answers (P : NumericRange → Prop) (st : State) (m : res (NumericRange * State)) : Prop :=
  safe m (λ '(r, st'), visited st ⊆ visited st' ∧ (known (rangeMap st) → known (rangeMap st') ∧ P r)).

#[local] Arguments answers : simpl never.

Lemma answers_ok (P : NumericRange → Prop) st r : P r → answers P st (Ok (r, st)).
Proof. intros HP. by split. Qed.

Lemma answers_pure P st m : fuelless m → (∀ r, m = Ok r → P r) →
  answers P st (let* r := m in Ok (r, st)).
Proof. intros Hm HP. apply safe_bind, safe_fuelless; [done|]. intros r Hr. by apply answers_ok, HP. Qed.

Lemma answers_skip {A} P st (m : res A) k : fuelless m → (∀ a, m = Ok a → answers P st (k a)) →
  answers P st (bind m k).
Proof. intros Hm HP. by apply safe_bind, safe_fuelless. Qed.

Lemma answers_call P Q st m k : answers P st m →
  (∀ r st', visited st ⊆ visited st' → answers (λ r', P r → Q r') st' (k r st')) →
  answers Q st (let* (r, st') := m in k r st').
Proof.
  intros Hm Hk. apply safe_bind. eapply safe_mono; [exact Hm|]. intros [r st'] [Hv Hp].
  eapply safe_mono; [exact (Hk r st' Hv)|]. intros [r' st''] [Hv' Hp']. split; [set_solver|].
  intros Hst. destruct (Hp Hst) as [Hst' HP]. destruct (Hp' Hst') as [? HQ]. split; [done|by apply HQ].
Qed.

Lemma answers_mono (P Q : NumericRange → Prop) st m : answers P st m → (∀ r, P r → Q r) → answers Q st m.
Proof. intros Hm H. eapply safe_mono; [exact Hm|]. intros [r st'] [? Hp]. split; [done|]. naive_solver. Qed.

Lemma answers_onCopy P st copy q : answers P (mkState (rangeMap st) copy) (q (mkState (rangeMap st) copy)) →
  answers P st (onCopy q copy st).
Proof.
  intros Hq. apply safe_bind. eapply safe_mono; [exact Hq|]. intros [r st'] [Hv Hp]. by split.
Qed.

Definition measure (s : VisitSet) : nat := size (dom (values ir) ∖ s).

Lemma measure_mono s s' : s ⊆ s' → (measure s' ≤ measure s)%nat.
Proof. intros H. unfold measure. apply subseteq_size. set_solver. Qed.

Lemma measure_visit s v : v ∉ s → v ∈ dom (values ir) → (measure ({[v]} ∪ s) < measure s)%nat.
Proof. intros Hs Hv. unfold measure. apply subset_size. set_solver. Qed.

(** The queries a call may make: of fewer unvisited values than [n]. *)
Definition good (n : nat) (q : Query) : Prop :=
  ∀ v st, (measure (visited st) < n)%nat → answers (describes v) st (q v st).

(** * Each case of the analysis *)

Section Cases.
Context (n : nat) (q : Query) (Hq : good n q).

(** What [fromCmp] says of [o], by the outcome of the comparison. *)
Definition cmpDescribes (o : Value) (p : CmpIPredicate) (l r : Value) (rc : NumericRange) : Prop :=
  analysable ir → ∀ z outcome, safeEdge ir o p l r outcome →
    outcomeHolds ir (takes ir) o z (Some (p, l, r, outcome)) →
    if outcome then allows rc z else ∀ rc', invert rc = Ok rc' → allows rc' z.

Lemma constant_range v r : isConstant ir v = true → analysable ir → describes v r → ∀ z, takes ir v z →
  r = IntRange (mkRange (Some z) (Some z)) ∨ r = IntRange (mkRange None None).
Proof.
  unfold isConstant. intros Hc Ha Hd z Hz. destruct (Hd Ha) as [_ He].
  destruct (values ir !! v) as [[t [op|]]|] eqn:Hv; try done. destruct op; try done. destruct value; try done.
  inversion Hz; subst; simplify_eq; try by eapply He.
  all: repeat match goal with
    | H : argumentOf _ _ _ _ _ _ |- _ => destruct H; simplify_eq
    | H : flows _ _ _ _ |- _ => inversion H; clear H; subst
    end.
Qed.

Lemma fromCmp_answers o p l r st : (measure (visited st) < n)%nat →
  answers (cmpDescribes o p l r) st (fromCmp ir q o (p, l, r) st).
Proof.
  intros Hm. unfold fromCmp.
  assert (∀ v (isLhs : bool), (if isLhs then o = l ∧ v = r else o ≠ l ∧ o = r ∧ v = l) →
    answers (cmpDescribes o p l r) st
      (let* (otherRange, st') := q v st in let* rc := cmpRangeOf p isLhs otherRange in Ok (rc, st'))) as Hside.
  { intros v isLhs Hv. eapply answers_call; [by apply Hq|]. intros other st' _.
    apply answers_pure; [apply cmpRangeOf_fuelless|]. intros rc Hrc Hd Ha z outcome Hsafe Ho.
    destruct (Hd Ha) as [Hcont _]. inversion Ho as [|? ? ? ? x y Hx Hy Hl Hr Hcmp]; subst.
    destruct Hsafe as [Hu Hsafe]; [destruct isLhs; naive_solver|].
    assert (sideHolds p (widthOf ir l) isLhs z (if isLhs then y else x) = cmpi p (widthOf ir l) x y) as Hs
      by (destruct isLhs; simpl; [by rewrite Hl by apply Hv|by rewrite Hr by apply Hv]).
    assert (takes ir v (if isLhs then y else x)) as Hother
      by (destruct isLhs; [by destruct Hv as [_ ->]|by destruct Hv as (_ & _ & ->)]).
    destruct (cmpi p (widthOf ir l) x y).
    - eapply (cmpRangeOf_true p _ isLhs other z); [by apply Hcont|..|exact Hs|done|done].
      intros Hus. assert (takes ir o z) as Hz
        by (destruct isLhs; [destruct Hv as [-> _]; by rewrite <-Hl|destruct Hv as (_ & -> & _); by rewrite <-Hr]).
      split; [apply (Hu Hus o); [destruct isLhs; naive_solver|done]
             |apply (Hu Hus v); [destruct isLhs; naive_solver|done]].
    - destruct Hsafe as (Hus & Hne & Hconst). intros rc' Hrc'.
      eapply (cmpRangeOf_false p _ isLhs other z); [|exact Hus|exact Hs|done..].
      apply (constant_range v); try done. destruct isLhs.
      + destruct Hv as [-> ->]. by rewrite bool_decide_eq_true_2 in Hconst.
      + destruct Hv as (Hn & -> & ->). by rewrite bool_decide_eq_false_2 in Hconst. }
  case_bool_decide as Hl; [by apply (Hside r true)|]. case_bool_decide as Hr; [by apply (Hside l false)|].
  apply answers_skip; [auto with dyn|]. intros i _.
  apply answers_pure; [auto with dyn|]. intros rc Hrc _ z outcome _ _.
  destruct (v_type i); simpl in Hrc; try done; injection Hrc as <-; (destruct outcome; [by intros m [= <-]|]);
    intros rc' [= <-] m Hm'; by simplify_eq.
Qed.

(** An operand's values, where the edge's comparison has its outcome. *)
Definition arrives (o : Value) (edge : option (CmpIPredicate * Value * Value * bool)) (z : Z) : Prop :=
  takes ir o z ∧ outcomeHolds ir (takes ir) o z edge.

Lemma edgeOf_cmp cond outcome c : definingCmpI ir cond = Ok c →
  edgeOf ir cond outcome = match c with Some (p, l, r) => Some (p, l, r, outcome) | None => None end.
Proof. unfold edgeOf. intros ->. by destruct c as [[[p l] r]|]. Qed.

(** An edge's constraint, intersected with the range of the value passed. *)
Lemma tighten (o v : Value) p l r outcome ro rc rc' out : analysable ir →
  flows ir v o (Some (p, l, r, outcome)) → describes o ro → cmpDescribes o p l r rc →
  (if outcome : bool then rc' = rc else invert rc = Ok rc') → rangeIntersect ro rc' = Ok out →
  ∀ z, arrives o (Some (p, l, r, outcome)) z → contains out z.
Proof.
  intros Ha Hf Hro Hrc Hrc' Hout z [Hz Hoz]. destruct (Hro Ha) as [Hc _].
  eapply rangeIntersect_contains; [exact Hout|by apply Hc|].
  specialize (Hrc Ha z outcome (edges_safe _ Ha _ _ _ _ _ _ Hf) Hoz).
  destruct outcome; [by subst|by apply Hrc].
Qed.

Lemma updateRangeCond_answers v block argIdx successor operands cond brDest range st :
  (measure (visited st) < n)%nat →
  (successor = block → ∀ o, operands !! argIdx = Some o → flows ir v o (edgeOf ir cond brDest)) →
  answers (λ r, analysable ir → (∀ z, contains range z → contains r z)
      ∧ (successor = block → ∀ o z, operands !! argIdx = Some o → arrives o (edgeOf ir cond brDest) z → contains r z))
    st (updateRangeCond ir q block argIdx successor operands cond brDest range st).
Proof.
  intros Hm Hf. unfold updateRangeCond. destruct (Nat.eqb_spec successor block) as [Hb|Hb]; simpl.
  2: { refine (answers_ok _ _ _ _). intros _. by split. }
  apply answers_skip; [auto with dyn|]. intros o Ho%at_ok. specialize (Hf Hb o Ho).
  eapply answers_call; [by apply answers_onCopy, Hq|]. intros ro st1 Hst1.
  apply answers_skip; [auto with dyn|]. intros c Hc. rewrite (edgeOf_cmp _ _ _ Hc) in *.
  eapply answers_call with (P := λ ro', describes o ro → analysable ir → ∀ z,
    arrives o (match c with Some (p, l, r) => Some (p, l, r, brDest) | None => None end) z → contains ro' z).
  { destruct c as [[[p l] r]|].
    - eapply answers_call; [apply answers_onCopy, fromCmp_answers; pose proof (measure_mono _ _ Hst1); simpl; lia|].
      intros rc st2 _. apply answers_skip; [by destruct brDest; auto with dyn|]. intros rc' Hrc'.
      apply answers_pure; [auto with dyn|]. intros out Hout Hrc Hro Ha z Hz.
      eapply (tighten o v p l r brDest); try done. destruct brDest; [by injection Hrc'|done].
    - refine (answers_ok _ _ _ _). intros Hro Ha z [Hz _]. by apply Hro. }
  intros ro' st2 _. apply answers_pure; [auto with dyn|]. intros out Hout Hro' Hro Ha.
  split; [intros z Hz; eapply rangeUnion_contains; [exact Hout|by left]|].
  intros _ o' z Ho' Hz. simplify_eq. eapply rangeUnion_contains; [exact Hout|right]. by apply Hro'.
Qed.

(** A predecessor passes [o] to argument [i] of block [b]. *)
Definition passes (b i : nat) (pred : Terminator) (o : Value)
    (edge : option (CmpIPredicate * Value * Value * bool)) : Prop :=
  match pred with
  | cf_BranchOp ops => ops !! i = Some o ∧ edge = None
  | cf_CondBranchOp c td tops fd fops =>
      (td = b ∧ tops !! i = Some o ∧ edge = edgeOf ir c true)
      ∨ (fd = b ∧ fops !! i = Some o ∧ edge = edgeOf ir c false)
  | otherTerminator => False
  end.

Lemma unionOfPredecessors_answers v t b i all preds range st :
  argumentOf ir v t b i (mkBlock otherParent all) → (∀ x, x ∈ preds → x ∈ all) →
  (measure (visited st) < n)%nat →
  answers (λ r, analysable ir → isIntOrIndex t = true → ∀ z,
      contains range z ∨ otherTerminator ∈ preds
      ∨ (∃ pred o edge, pred ∈ preds ∧ passes b i pred o edge ∧ arrives o edge z) → contains r z)
    st (unionOfPredecessors ir q t b i preds range st).
Proof.
  intros Harg. revert range st. induction preds as [|pred preds IH]; intros range st Hall Hm; simpl.
  { refine (answers_ok _ _ _ _). intros _ _ z [Hz|[Hz|(? & ? & ? & Hz & _)]]; [done|by inversion Hz..]. }
  assert (pred ∈ all) as Hin by (apply Hall; by left).
  assert (∀ x, x ∈ preds → x ∈ all) as Hall' by (intros x Hx; apply Hall; by right).
  destruct pred as [ops|c td tops fd fops|].
  - apply answers_skip; [auto with dyn|]. intros o Ho%at_ok.
    eapply answers_call; [by apply answers_onCopy, Hq|]. intros ro st1 Hst1.
    apply answers_skip; [auto with dyn|]. intros range' Hr.
    eapply answers_mono; [apply IH; [done|pose proof (measure_mono _ _ Hst1); lia]|].
    intros r Hrec Hro Ha Ht z Hz. apply Hrec; try done.
    destruct Hz as [Hz|[Hz|(pred & o' & edge & Hpred & Hpass & Hz)]].
    + left. eapply rangeUnion_contains; [exact Hr|by left].
    + right; left. by apply elem_of_cons in Hz as [Hz|Hz].
    + apply elem_of_cons in Hpred as [->|Hpred]; [|right; right; by eauto 6].
      left. eapply rangeUnion_contains; [exact Hr|right]. simpl in Hpass.
      destruct Hpass as [Ho' ->]. simplify_eq. by apply Hro, Hz.
  - eapply answers_call; [apply (updateRangeCond_answers v); [done|]|].
    { intros -> o Ho. by eapply flow_true. }
    intros range1 st1 Hst1. pose proof (measure_mono _ _ Hst1).
    eapply answers_call; [apply (updateRangeCond_answers v); [lia|]|].
    { intros -> o Ho. by eapply flow_false. }
    intros range2 st2 Hst2. pose proof (measure_mono _ _ Hst2).
    eapply answers_mono; [apply IH; [done|lia]|].
    intros r Hrec H2 H1 Ha Ht z Hz. destruct (H1 Ha) as [H1r H1p], (H2 Ha) as [H2r H2p].
    apply Hrec; try done.
    destruct Hz as [Hz|[Hz|(pred & o' & edge & Hpred & Hpass & Hz)]].
    + left. auto.
    + right; left. by apply elem_of_cons in Hz as [Hz|Hz].
    + apply elem_of_cons in Hpred as [->|Hpred]; [|right; right; by eauto 6].
      left. simpl in Hpass. destruct Hpass as [(-> & Ho & ->)|(-> & Ho & ->)]; [apply H2r|]; eauto.
  - apply answers_pure; [auto with dyn|]. intros r Hr _ Ht z _. by eapply unbounded_contains.
Qed.

(** What a block argument can take, by the kind of its block. *)
Definition mayTake (v : Value) (b i : nat) (blk : Block) (z : Z) : Prop :=
  match parentOp blk with
  | noParent => True
  | scf_WhileOp before ops ys c args =>
      if (b =? before)%nat then ∃ o, (ops !! i = Some o ∨ ys !! i = Some o) ∧ takes ir o z
      else ∃ o, args !! i = Some o ∧ arrives o (edgeOf ir c true) z
  | scf_ForOp iv lo hi inits ys =>
      v = iv → ∃ x y, takes ir lo x ∧ takes ir hi y ∧ x ≤ z < y
  | otherParent =>
      predecessors blk = [] ∨ otherTerminator ∈ predecessors blk
      ∨ ∃ pred o edge, pred ∈ predecessors blk ∧ passes b i pred o edge ∧ arrives o edge z
  end.

Lemma takes_argument v t b i blk z : argumentOf ir v t b i blk → takes ir v z →
  isIntOrIndex t = true ∧ mayTake v b i blk z.
Proof.
  intros [Hv Hb] Hz. unfold mayTake.
  inversion Hz; subst; repeat match goal with H : argumentOf _ _ _ _ _ _ |- _ => destruct H end;
    simplify_eq; (split; [done|]); simpl.
  - match goal with H : flows _ _ _ _ |- _ => destruct H end;
      repeat match goal with H : argumentOf _ _ _ _ _ _ |- _ => destruct H end; simplify_eq; simpl.
    + rewrite Nat.eqb_refl. eauto.
    + rewrite Nat.eqb_refl. eauto.
    + rewrite (proj2 (Nat.eqb_neq _ _)) by done. eexists. split; [done|by split].
    + done.
    + done.
    + right; right. eexists _, _, _. split; [done|]. split; [by split|by split].
    + right; right. eexists _, _, _. split; [done|]. split; [by left|by split].
    + right; right. eexists _, _, _. split; [done|]. split; [by right|by split].
  - eauto.
  - by left.
  - by right; left.
  - done.
Qed.

Lemma whileArgument_answers v t b i ps before ops ys c args st :
  argumentOf ir v t b i (mkBlock (scf_WhileOp before ops ys c args) ps) → (measure (visited st) < n)%nat →
  answers (λ r, analysable ir → ∀ z,
      mayTake v b i (mkBlock (scf_WhileOp before ops ys c args) ps) z → contains r z)
    st (whileArgument ir q b i before ops ys c args st).
Proof.
  intros Harg Hm. unfold whileArgument, mayTake. simpl. destruct (Nat.eqb_spec b before) as [->|Hne].
  - apply answers_skip; [auto with dyn|]. intros o Ho%at_ok.
    eapply answers_call; [by apply Hq|]. intros r1 st1 _.
    apply answers_skip; [auto with dyn|]. intros y Hy%at_ok.
    eapply answers_call; [by apply answers_onCopy, Hq|]. intros r2 st2 _.
    apply answers_pure; [auto with dyn|]. intros r Hr H2 H1 Ha z (o' & Ho' & Hz).
    eapply rangeUnion_contains; [exact Hr|]. destruct Ho' as [Ho'|Ho']; simplify_eq; [left; by apply H1|right; by apply H2].
  - apply answers_skip; [auto with dyn|]. intros o Ho%at_ok.
    apply answers_skip; [auto with dyn|]. intros cmp Hc. rewrite (edgeOf_cmp _ _ _ Hc).
    assert (flows ir v o (edgeOf ir c true)) as Hf by by eapply flow_while_body.
    rewrite (edgeOf_cmp _ _ _ Hc) in Hf. destruct cmp as [[[p l] r']|].
    + eapply answers_call; [by apply answers_onCopy, fromCmp_answers|]. intros rc st1 Hst1.
      eapply answers_call; [apply Hq; pose proof (measure_mono _ _ Hst1); lia|]. intros ro st2 _.
      apply answers_pure; [auto with dyn|]. intros out Hout Hro Hrc Ha z (o' & Ho' & Hz). simplify_eq.
      by eapply (tighten o v p l r' true).
    + eapply answers_mono; [by apply Hq|]. intros r Hr Ha z (o' & Ho' & Hz & _). simplify_eq. by apply Hr.
Qed.

Lemma forArgument_answers v t b i ps iv lo hi inits ys st :
  argumentOf ir v t b i (mkBlock (scf_ForOp iv lo hi inits ys) ps) → (measure (visited st) < n)%nat →
  answers (λ r, analysable ir → ∀ z,
      mayTake v b i (mkBlock (scf_ForOp iv lo hi inits ys) ps) z → contains r z)
    st (forArgument q v i iv lo hi inits ys st).
Proof.
  intros Harg Hm. unfold forArgument, mayTake. simpl. case_bool_decide as Hiv.
  - eapply answers_call; [by apply Hq|]. intros up st1 _.
    apply answers_skip; [unfold getUbInt; fuelless|]. intros u Hu.
    apply answers_skip; [destruct u; fuelless|]. intros u' Hu'.
    eapply answers_call; [by apply answers_onCopy, Hq|]. intros low st2 _.
    apply answers_skip; [unfold getLbInt; fuelless|]. intros l Hl.
    apply answers_pure; [auto with dyn|]. intros r Hr Hlow Hup Ha z Hz.
    destruct (Hz Hiv) as (x & y & Hx & Hy & Hxy). destruct (Hup Ha) as [Hc _], (Hlow Ha) as [Hc' _].
    specialize (Hc y Hy). specialize (Hc' x Hx). unfold getUbInt, getLbInt in *. destruct up as [|[l0 u0]|]; try done.
    destruct low as [|[l1 u1]|]; try done. simpl in *. simplify_eq.
    destruct u as [u|].
    + apply bind_ok in Hu' as (? & [-> _]%int64_inv & [= <-]). destruct l as [l|], l1, u1;
        unfold within, above, below, b_max, b_min in *; simpl in *; range_cases.
    + injection Hu' as <-. destruct l as [l|], l1, u1;
        unfold within, above, below, b_max, b_min in *; simpl in *; range_cases.
  - apply answers_skip; [auto with dyn|]. intros o _.
    eapply answers_call; [by apply Hq|]. intros r1 st1 Hst1.
    apply answers_skip; [auto with dyn|]. intros y _.
    eapply answers_call; [apply Hq; pose proof (measure_mono _ _ Hst1); lia|]. intros r2 st2 _.
    apply answers_pure; [auto with dyn|]. intros r _ _ _ Ha. by destruct (no_carried_values _ Ha _ _ _ _ _ _ _ _ _ _ Harg).
Qed.

Lemma getRangeOfBlockArg_answers v t b i st :
  values ir !! v = Some (mkValue t (BlockArgument b i)) → (measure (visited st) < n)%nat →
  answers (λ r, analysable ir → ∀ z, takes ir v z → contains r z) st (getRangeOfBlockArg ir q v t b i st).
Proof.
  intros Hv Hm. unfold getRangeOfBlockArg.
  apply answers_skip; [auto with dyn|]. intros blk Hb%of_option_ok.
  assert (argumentOf ir v t b i blk) as Harg by by split.
  assert (∀ m, answers (λ r, analysable ir → isIntOrIndex t = true → ∀ z, mayTake v b i blk z → contains r z) st m →
    answers (λ r, analysable ir → ∀ z, takes ir v z → contains r z) st m) as Hred.
  { intros m Hm'. eapply answers_mono; [exact Hm'|]. intros r Hr Ha z Hz.
    destruct (takes_argument _ _ _ _ _ _ Harg Hz). auto. }
  apply Hred. destruct blk as [par preds]. simpl. destruct par.
  - refine (answers_ok _ _ _ _). intros Ha. by destruct (blocks_attached _ Ha _ _ Hb).
  - eapply answers_mono; [by eapply whileArgument_answers|]. auto.
  - eapply answers_mono; [by eapply forArgument_answers|]. auto.
  - destruct preds as [|pred preds].
    + apply answers_pure; [auto with dyn|]. intros r Hr _ Ht z _. by eapply unbounded_contains.
    + eapply (answers_mono _ _ _ _ (unionOfPredecessors_answers v t b i (pred :: preds) (pred :: preds)
        Uninitialized st Harg (λ x Hx, Hx) Hm)).
      intros r Hr Ha Ht z [Hz|Hz]; [done|]. apply Hr; try done. by right.
Qed.

Lemma rangeOfDefinition_answers v i st :
  values ir !! v = Some i → (measure (visited st) < n)%nat →
  answers (describes v) st (rangeOfDefinition ir q v i st).
Proof.
  intros Hv Hm. destruct i as [t d]. unfold rangeOfDefinition. simpl.
  assert (∀ op, d = OpResult op → opaqueOp op = true →
    answers (describes v) st (let* r := unbounded t in Ok (r, st))) as Hop.
  { intros op -> Hop. apply answers_pure; [auto with dyn|]. intros r Hr _. split.
    - intros z Hz. eapply unbounded_contains; [exact Hr|]. inversion Hz; subst;
        repeat match goal with H : argumentOf _ _ _ _ _ _ |- _ => destruct H end; by simplify_eq.
    - intros t' a Ha. by simplify_eq. }
  destruct d as [op|b i].
  2: { eapply answers_mono; [by apply getRangeOfBlockArg_answers|]. intros r Hr Ha.
       split; [by apply Hr|]. intros t' a Ha'. by simplify_eq. }
  destruct op; try (by eapply Hop).
  - apply answers_pure; [auto with dyn|]. intros r Hr Ha.
    destruct value as [a| |]; try done.
    + assert (r = IntRange (mkRange (Some (apint_sval a)) (Some (apint_sval a)))) as ->.
      { destruct (constants_fit _ Ha _ _ _ Hv) as [Hw Hf]. injection Hr as <-.
        by rewrite (exactValue_sval a Hw Hf). }
      split; [|intros t' a' Ha' _; simplify_eq; by left].
      intros z Hz. inversion Hz; subst; repeat match goal with
        | H : argumentOf _ _ _ _ _ _ |- _ => destruct H
        | H : flows _ _ _ _ |- _ => destruct H end; simplify_eq; simpl; unfold within; simpl; lia.
    + injection Hr as <-. split; [|intros t' a' Ha'; by simplify_eq]. intros z Hz.
      inversion Hz; subst; repeat match goal with
        | H : argumentOf _ _ _ _ _ _ |- _ => destruct H
        | H : flows _ _ _ _ |- _ => destruct H end; by simplify_eq.
  - eapply answers_call; [by apply Hq|]. intros r1 st1 _.
    eapply answers_call; [by apply answers_onCopy, Hq|]. intros r2 st2 _.
    apply answers_pure; [auto with dyn|]. intros r Hr H2 H1 Ha.
    split; [|intros t' a' Ha'; by simplify_eq]. intros z Hz.
    inversion Hz as [|? ? ? ? x y ? ? Hx Hy| | | | | |]; subst; repeat match goal with
        | H : argumentOf _ _ _ _ _ _ |- _ => destruct H
        | H : flows _ _ _ _ |- _ => destruct H end; simplify_eq; try done.
    rewrite wrapS_id by by eapply additions_fit. eapply add_contains; [exact Hr|by apply H1|by apply H2].
  - eapply answers_call; [by apply Hq|]. intros r1 st1 _.
    eapply answers_call; [by apply answers_onCopy, Hq|]. intros r2 st2 _.
    apply answers_pure; [auto with dyn|]. intros r Hr H2 H1 Ha.
    split; [|intros t' a' Ha'; by simplify_eq]. intros z Hz.
    inversion Hz; subst; repeat match goal with
        | H : argumentOf _ _ _ _ _ _ |- _ => destruct H
        | H : flows _ _ _ _ |- _ => destruct H end; by simplify_eq.
Qed.

End Cases.

(** * The recursion *)

Lemma describes_unbounded v t d r : values ir !! v = Some (mkValue t d) → unbounded t = Ok r → describes v r.
Proof.
  intros Hv Hr _. split.
  - intros z Hz. eapply unbounded_contains; [exact Hr|]. inversion Hz; subst;
      repeat match goal with H : argumentOf _ _ _ _ _ _ |- _ => destruct H end; by simplify_eq.
  - intros t' a Ha Ht. simplify_eq. right. destruct t; simpl in *; try done; by injection Hr as <-.
Qed.

Lemma known_insert v r m : known m → describes v r → known (<[v := r]> m).
Proof. intros Hm Hr v' r' [[<- <-]|[_ H]]%lookup_insert_Some; [done|by apply Hm]. Qed.

Lemma getRangeBody_answers n q v st : good n q → (measure (visited st) < S n)%nat →
  answers (describes v) st (getRangeBody ir q v st).
Proof.
  intros Hq Hm. unfold getRangeBody.
  apply answers_skip; [auto with dyn|]. intros i Hi%of_option_ok.
  apply answers_skip; [by destruct (isIntOrIndex _ || _)|]. intros _ _.
  case_bool_decide as Hvis.
  { apply answers_pure; [auto with dyn|]. intros r Hr. destruct i as [t d]. by eapply describes_unbounded. }
  set (st' := mkState (rangeMap st) ({[v]} ∪ visited st)).
  assert (measure (visited st') < n)%nat as Hm'.
  { assert (v ∈ dom (values ir)) as Hdom by (apply elem_of_dom; by eexists).
    pose proof (measure_visit (visited st) v Hvis Hdom). simpl. lia. }
  simpl. destruct (rangeMap st !! v) as [r|] eqn:Hr.
  { split; [simpl; set_solver|]. intros Hk. split; [done|by apply Hk]. }
  pose proof (rangeOfDefinition_answers n q Hq v i st' Hi Hm') as Hdef.
  apply safe_bind. eapply safe_mono; [exact Hdef|]. intros [r st''] [Hv' Hp]. simpl in *.
  split; [set_solver|]. intros Hk. destruct (Hp Hk) as [Hk' Hd]. split; [by apply known_insert|done].
Qed.

Lemma getRangeRec_good n : good n (getRangeRec ir n).
Proof.
  induction n as [|n IH]; intros v st Hm; [lia|]. simpl. by eapply getRangeBody_answers.
Qed.

Lemma getRange_answers v m :
  safe (getRange ir v m) (λ '(r, m'), known m → known m' ∧ describes v r).
Proof.
  unfold getRange. destruct (m !! v) as [r|] eqn:Hr; [intros Hk; split; [done|by apply Hk]|].
  apply safe_bind. assert (measure (visited (mkState m ∅)) < rangeFuel ir)%nat as Hm.
  { unfold rangeFuel, measure. simpl. rewrite difference_empty_L, size_dom. lia. }
  eapply safe_mono; [exact (getRangeRec_good _ v _ Hm)|]. intros [r st'] [_ Hp]. exact Hp.
Qed.

End Queries.

(** C34.  A query ends on every program, whatever cycles its definitions form and
    whatever ranges are known: the fuel, one more than the number of values, is
    never used up. *)
Theorem getRange_terminates ir v m : getRange ir v m ≠ Bad NoFuel.
Proof. apply (safe_is_fuelless _ _ (getRange_answers ir v m)). Qed.

(** C1.  On programs without the defects listed in [analysable], the range
    [getRange] gives a value contains every integer the value can take, and the
    map of known ranges stays right from one query to the next. *)
Theorem getRange_sound ir v m r m' : analysable ir → known ir m → getRange ir v m = Ok (r, m') →
  (∀ z, takes ir v z → contains r z) ∧ known ir m'.
Proof.
  intros Ha Hk Hr. destruct (safe_ok _ _ _ (getRange_answers ir v m) Hr Hk) as [Hk' Hd].
  split; [by apply Hd|done].
Qed.

End Soundness.
