(* ===== verification/RangeExamples.v ===== *)
(** The numeric analysis on concrete programs: a counting loop on which its range
    is right, and programs on which it is undefined or excludes a value that is
    taken. *)

From stdpp Require Import gmap.
From S2P Require Import LLVMInterface ArithIR NumericRange NumericAnalysis RangeSound Prelude.

#[local] Existing Instances Bits.lib Bits.flib Bits.laws.

Definition i32 : MLIRType := IntegerType 32.
Definition i32_constant (z : Z) : ValueInfo :=
  mkValue i32 (OpResult (arith_ConstantOp (IntegerAttr (Bits.mk 32 z)))).
Definition program (vs : list (Value * ValueInfo)) (bs : list (nat * Block)) : IR :=
  mkIR (list_to_map vs) (list_to_map bs).

(** Block 1 counts: its argument is 0 at first, then itself plus 1 as long as
    that is below 10. *)
Definition counter : IR :=
  program
    [(0%nat, mkValue i32 (BlockArgument 1 0)); (1%nat, i32_constant 0); (2%nat, i32_constant 10);
     (3%nat, mkValue i32 (OpResult (arith_AddIOp 0 5)));
     (4%nat, mkValue (IntegerType 1) (OpResult (arith_CmpIOp cmp_slt 3 2))); (5%nat, i32_constant 1)]
    [(1%nat, mkBlock otherParent [cf_BranchOp [1%nat]; cf_CondBranchOp 4 1 [3%nat] 2 []])].

Lemma list_to_map_lookup {A} (l : list (nat * A)) k a :
  (list_to_map l : gmap nat A) !! k = Some a → (k, a) ∈ l.
Proof. apply elem_of_list_to_map_2. Qed.

(** Finds a value of a concrete program among its list. *)
Ltac find_entry H := apply list_to_map_lookup in H; rewrite !elem_of_cons, elem_of_nil in H;
  destruct_or? H; try done;
  unfold i32_constant in *; simplify_eq.

(** Splits what is known of a value by where the program defines it. *)
Ltac by_program := repeat match goal with
  | H : argumentOf _ _ _ _ _ _ |- _ => destruct H
  | H : values _ !! _ = Some _ |- _ => find_entry H
  | H : blocks _ !! _ = Some _ |- _ => find_entry H
  end.

Lemma counter_takes_one x : takes counter 5 x → x = 1.
Proof.
  inversion 1; subst; try match goal with H : flows _ _ _ _ |- _ => destruct H end; by by_program.
Qed.

Lemma counter_takes_constant v c x : (v, c) ∈ [(1%nat, 0); (2%nat, 10); (5%nat, 1)] → takes counter v x → x = c.
Proof.
  rewrite !elem_of_cons, elem_of_nil. intros Hv H.
  destruct_or? Hv; try done; simplify_eq; inversion H; subst;
    try match goal with H : flows _ _ _ _ |- _ => destruct H end; by by_program.
Qed.

Lemma counter_takes_sum x : takes counter 3 x → fits 32 x.
Proof.
  inversion 1; subst; try match goal with H : flows _ _ _ _ |- _ => destruct H end; by_program.
  by apply wrapS_fits.
Qed.

(** Cases on the edges of a concrete program. *)
Ltac by_edges := by_program; unfold edgeOf in *;
  repeat match goal with H : _ ∈ _ |- _ => rewrite !elem_of_cons, elem_of_nil in H; destruct_or? H end;
  try done; simplify_eq; try done;
  repeat match goal with H : context [definingCmpI ?ir ?c] |- _ =>
    let x := eval vm_compute in (definingCmpI ir c) in change (definingCmpI ir c) with x in H end;
  simpl in *; simplify_eq.

(** The comparison of the back edge. *)
Lemma counter_edges v o p l r outcome : flows counter v o (Some (p, l, r, outcome)) →
  o = 3%nat ∧ p = cmp_slt ∧ l = 3%nat ∧ r = 2%nat ∧ outcome = true.
Proof.
  intros Hf. inversion Hf; subst; by by_edges.
Qed.

Lemma counter_bounded x : takes counter 0 x → - 2 ^ 31 ≤ x < 10.
Proof.
  intros H. inversion H as [| | |? o edge ? ? ? Hf Hv Ht Ho He| | | |]; subst; try by by_edges.
  destruct edge as [[[[p l] r] outcome]|].
  - destruct (counter_edges _ _ _ _ _ _ Hf) as (-> & -> & -> & -> & ->).
    inversion He as [|? ? ? ? a b Ha Hb Hl Hr Hc]; subst.
    apply (counter_takes_constant 2 10) in Hb as ->; [|rewrite !elem_of_cons; auto].
    rewrite Hl in Hc by done. simpl in Hc. apply Z.ltb_lt in Hc.
    apply counter_takes_sum in Ho as [_ Ho]. lia.
  - assert (o = 1%nat) as ->.
    { inversion Hf; subst; by by_edges. }
    apply (counter_takes_constant 1 0) in Ho as ->; [lia|rewrite !elem_of_cons; auto].
Qed.

Lemma counter_analysable : analysable counter.
Proof.
  split.
  - intros v t a Hv. find_entry Hv; (split; [reflexivity|split; [vm_compute; discriminate|reflexivity]]).
  - intros v t a b x y Hv Hx Hy. find_entry Hv. apply counter_takes_one in Hy as ->.
    apply counter_bounded in Hx. split; simpl; lia.
  - intros v o p l r outcome (-> & -> & -> & -> & ->)%counter_edges _. split; [done|]. done.
  - intros b blk Hb. by find_entry Hb.
  - intros v t b i ps iv lo hi inits ys [_ Hb]. by find_entry Hb.
Qed.

Lemma getRange_sound_witness :
  getRange counter 0 ∅ =
    Ok (IntRange (mkRange None (Some 9)),
        match getRange counter 0 ∅ with Ok (_, m) => m | Bad _ => ∅ end)
  ∧ ∀ z, takes counter 0 z → contains (IntRange (mkRange None (Some 9))) z.
Proof.
  assert (getRange counter 0 ∅ =
    Ok (IntRange (mkRange None (Some 9)),
        match getRange counter 0 ∅ with Ok (_, m) => m | Bad _ => ∅ end)) as Hr by reflexivity.
  split; [exact Hr|].
  apply (getRange_sound counter 0 ∅ _ _ counter_analysable) in Hr as [Hz _]; [exact Hz|].
  intros v r H. by rewrite lookup_empty in H.
Defined.

Lemma getRange_terminates_witness : getRange counter 0 ∅ ≠ Bad NoFuel.
Proof. apply (getRange_terminates counter 0 ∅). Defined.

(** * Programs the analysis gets wrong *)

(** [while (i < n)] of a function's argument [n]: value 0 is the argument of the
    loop's before block 1, value 1 that of its after block 2; 2 is [n], the
    argument of the function's entry block 3; 3 is 0, the initial value, and 4
    the comparison of value 0 with [n]. *)
Definition while_below : Block :=
  mkBlock (scf_WhileOp 1 [3%nat] [1%nat] 4 [0%nat]) [].
Definition bounded_by_argument : IR :=
  program
    [(0%nat, mkValue i32 (BlockArgument 1 0)); (1%nat, mkValue i32 (BlockArgument 2 0));
     (2%nat, mkValue i32 (BlockArgument 3 0)); (3%nat, i32_constant 0);
     (4%nat, mkValue (IntegerType 1) (OpResult (arith_CmpIOp cmp_slt 0 2)))]
    [(1%nat, while_below); (2%nat, while_below); (3%nat, mkBlock otherParent [])].

(** The range of the loop's value cannot be computed: [fromCmp] dereferences the
    bound of [n], which has none. *)
Theorem comparison_with_unbounded_is_undefined : getRange bounded_by_argument 1 ∅ = Bad NullDeref.
Proof. reflexivity. Qed.

(** An [if (x == 5)] whose else branch passes [x], the argument of the entry
    block 1, to block 2. *)
Definition not_five : IR :=
  program
    [(0%nat, mkValue i32 (BlockArgument 1 0)); (1%nat, i32_constant 5);
     (2%nat, mkValue (IntegerType 1) (OpResult (arith_CmpIOp cmp_eq 0 1)));
     (3%nat, mkValue i32 (BlockArgument 2 0))]
    [(1%nat, mkBlock otherParent []); (2%nat, mkBlock otherParent [cf_CondBranchOp 2 3 [] 2 [0%nat]])].

(** The else branch can see 6, which the range it is given, up to 5, excludes:
    the inverse of a closed range keeps what is below it only. *)
Theorem inverted_equality_excludes_a_value :
  takes not_five 3 6
  ∧ ∃ r m, getRange not_five 3 ∅ = Ok (IntRange r, m) ∧ r = mkRange None (Some 5) ∧ ¬ within r 6.
Proof.
  split.
  - apply (takes_flow _ 3 0 (Some (cmp_eq, 0%nat, 1%nat, false)) i32 (BlockArgument 2 0)); [|done|done|..].
    + apply (flow_false not_five 3 i32 2 0 [cf_CondBranchOp 2 3 [] 2 [0%nat]] 2 3 [] [0%nat] 0); [done|by left|done].
    + apply (takes_entry not_five 0 i32 1 0); [done|done|split; simpl; lia].
    + apply (outcome_some _ _ _ _ _ _ _ _ 6 5); [|change 5 with (apint_sval (Bits.mk 32 5)); by eapply takes_constant|done|done|done].
      apply (takes_entry not_five 0 i32 1 0); [done|done|split; simpl; lia].
  - eexists (mkRange None (Some 5)), _. split; [reflexivity|]. split; [reflexivity|].
    unfold within, above, below. cbn [lb ub]. lia.
Qed.

(** [2147483647 + 1] on 32 bits. *)
Definition overflow_sum : IR :=
  program
    [(0%nat, mkValue i32 (OpResult (arith_AddIOp 1 2))); (1%nat, i32_constant 2147483647); (2%nat, i32_constant 1)] [].

(** A sum's range ignores that the sum wraps around. *)
Theorem wrapped_sum_is_excluded :
  takes overflow_sum 0 (- 2 ^ 31)
  ∧ ∃ r m, getRange overflow_sum 0 ∅ = Ok (IntRange r, m) ∧ r = mkRange (Some (2 ^ 31)) (Some (2 ^ 31)) ∧ ¬ within r (- 2 ^ 31).
Proof.
  split.
  - apply (takes_addi overflow_sum 0 i32 1 2 2147483647 1); [done|done|..].
    + change 2147483647 with (apint_sval (Bits.mk 32 2147483647)). by eapply takes_constant.
    + change 1 with (apint_sval (Bits.mk 32 1)). by eapply takes_constant.
  - eexists (mkRange (Some (2 ^ 31)) (Some (2 ^ 31))), _. split; [reflexivity|]. split; [reflexivity|].
    unfold within, above, below. cbn [lb ub]. lia.
Qed.

(** [for] from 0 to 10 with one carried value, 0 at first: value 1, the second
    argument of the body. *)
Definition carrying_loop : IR :=
  program
    [(0%nat, mkValue IndexType (BlockArgument 1 0)); (1%nat, mkValue i32 (BlockArgument 1 1));
     (2%nat, mkValue IndexType (OpResult (arith_ConstantOp (IntegerAttr (Bits.mk 64 0)))));
     (3%nat, mkValue IndexType (OpResult (arith_ConstantOp (IntegerAttr (Bits.mk 64 10)))));
     (4%nat, i32_constant 0)]
    [(1%nat, mkBlock (scf_ForOp 0 2 3 [4%nat] [1%nat]) [])].

(** The induction variable is bounded; the carried value's initial value is
    looked up past the end of the initial values. *)
Theorem carried_value_is_out_of_range :
  (∃ m, getRange carrying_loop 0 ∅ = Ok (IntRange (mkRange (Some 0) (Some 9)), m))
  ∧ getRange carrying_loop 1 ∅ = Bad OutOfRange.
Proof. split; [eexists; reflexivity|reflexivity]. Qed.
