(* ===== verification/Rewriter.v ===== *)
(** Straight-line code and the rewriter that changes it: a block is the list of
    its operations in order, with the values its surroundings use; a new
    operation goes before the rewriter's insertion point.  [run] is the meaning
    of a block: the integers its values take. *)

From stdpp Require Import gmap.
From S2P Require Import LLVMInterface ArithIR Prelude.

Notation Env := (gmap Value Z).

Section Rewriter.
Context {IL : APIntLib} {FL : APFloatLib}.

(** * Operations and blocks *)

Definition operands (o : Operation) : list Value :=
  match o with
  | arith_ConstantOp _ => []
  | arith_AddIOp a b | arith_AddFOp a b | arith_SubIOp a b | arith_MulIOp a b
  | arith_ShLIOp a b | arith_XOrIOp a b | arith_CmpIOp _ a b => [a; b]
  | otherOp _ l => l
  end.

Definition mapOperands (f : Value → Value) (o : Operation) : Operation :=
  match o with
  | arith_ConstantOp c => arith_ConstantOp c
  | arith_AddIOp a b => arith_AddIOp (f a) (f b)
  | arith_AddFOp a b => arith_AddFOp (f a) (f b)
  | arith_SubIOp a b => arith_SubIOp (f a) (f b)
  | arith_MulIOp a b => arith_MulIOp (f a) (f b)
  | arith_ShLIOp a b => arith_ShLIOp (f a) (f b)
  | arith_XOrIOp a b => arith_XOrIOp (f a) (f b)
  | arith_CmpIOp p a b => arith_CmpIOp p (f a) (f b)
  | otherOp n l => otherOp n (map f l)
  end.

(** An operation with its result, of type [o_type]. *)
Record Op := mkOp { o_result : Value; o_type : MLIRType; o_op : Operation }.

(** A block, the values used after it, and the next name of a value. *)
Record OpBlock := mkOpBlock { ops : list Op; used : list Value; nextValue : Value }.

Definition definingOp (blk : OpBlock) (v : Value) : option Op :=
  find (λ o, bool_decide (o_result o = v)) (ops blk).

(** * The rewriter *)

Fixpoint insertBefore (anchor : Value) (o : Op) (l : list Op) : list Op :=
  match l with
  | [] => []
  | x :: l => if bool_decide (o_result x = anchor) then o :: x :: l else x :: insertBefore anchor o l
  end.

(** A new operation before the one of [anchor]. *)
Definition insertNew (anchor : Value) (t : MLIRType) (o : Operation) (blk : OpBlock) : Value * OpBlock :=
  (nextValue blk, mkOpBlock (insertBefore anchor (mkOp (nextValue blk) t o) (ops blk)) (used blk) (S (nextValue blk))).

Definition subst (old new : Value) (v : Value) : Value := if bool_decide (v = old) then new else v.

Definition substOp (old new : Value) (o : Op) : Op :=
  mkOp (o_result o) (o_type o) (mapOperands (subst old new) (o_op o)).

(** Every use of the result becomes one of [new], and the operation is erased. *)
Definition replaceUses (old new : Value) (blk : OpBlock) : OpBlock :=
  mkOpBlock (map (substOp old new) (filter (λ o, o_result o ≠ old) (ops blk)))
    (map (subst old new) (used blk)) (nextValue blk).

(** MLIR's rewriter: [create] is [Op::create] with the insertion point before the
    operation of [anchor].  Its laws are what MLIR documents of the two. *)
Class PatternRewriter := {
  create : Value → MLIRType → Operation → OpBlock → Value * OpBlock;
  replaceOp : Value → Value → OpBlock → OpBlock
}.

Class PatternRewriterLaws (R : PatternRewriter) := {
  create_inserts anchor t o blk : create anchor t o blk = insertNew anchor t o blk;
  replaceOp_replaces old new blk : replaceOp old new blk = replaceUses old new blk
}.

(** A rewriter with these laws. *)
Definition referenceRewriter : PatternRewriter := {| create := insertNew; replaceOp := replaceUses |}.

Lemma referenceRewriter_laws : PatternRewriterLaws referenceRewriter.
Proof. by split. Qed.

(** * Meaning *)

Section Meaning.
(** What an operation other than integer arithmetic computes from its operands. *)
Context (other : Operation → MLIRType → list Z → res Z).

Definition operandValue (env : Env) (v : Value) : res Z := of_option UseBeforeDef (env !! v).

(** The integers of [w] bits are read as unsigned. *)
Definition compute (o : Operation) (t : MLIRType) (xs : list Z) : res Z :=
  let w := bitWidth t in
  match o, xs with
  | arith_ConstantOp (IntegerAttr a), [] => Ok (apint_uval a)
  | arith_AddIOp _ _, [x; y] => Ok (wrapU w (x + y))
  | arith_SubIOp _ _, [x; y] => Ok (wrapU w (x - y))
  | arith_MulIOp _ _, [x; y] => Ok (wrapU w (x * y))
  | arith_ShLIOp _ _, [x; y] => if y <? w then Ok (wrapU w (x * 2 ^ y)) else Bad Poison
  | arith_XOrIOp _ _, [x; y] => Ok (Z.lxor x y)
  | o, xs => other (mapOperands (λ _, 0%nat) o) t xs
  end.

Definition exec (env : Env) (o : Op) : res Env :=
  let* xs := mapM (operandValue env) (operands (o_op o)) in
  let* z := compute (o_op o) (o_type o) xs in
  Ok (<[o_result o := z]> env).

Definition run (env : Env) (l : list Op) : res Env := foldM exec env l.

(** What the surroundings see of a block. *)
Definition results (env : Env) (blk : OpBlock) : res (list Z) :=
  let* env := run env (ops blk) in mapM (operandValue env) (used blk).

(** [blk'] may replace [blk]. *)
Definition refines (env : Env) (blk blk' : OpBlock) : Prop :=
  ∀ zs, results env blk = Ok zs → results env blk' = Ok zs.

(** ** Environments that agree up to a renaming of values *)

Definition agree (σ : Value → Value) (env env' : Env) : Prop :=
  ∀ v z, env !! v = Some z → env' !! σ v = Some z.

Lemma operands_map f o : operands (mapOperands f o) = map f (operands o).
Proof. by destruct o. Qed.

Lemma compute_map f o t xs : compute (mapOperands f o) t xs = compute o t xs.
Proof.
  destruct o as [[]|a b|a b|a b|a b|a b|a b|p a b|k l]; try (by destruct xs as [|? [|? []]]); simpl.
  by rewrite map_map.
Qed.

Lemma mapM_agree σ env env' l zs : agree σ env env' →
  mapM (operandValue env) l = Ok zs → mapM (operandValue env') (map σ l) = Ok zs.
Proof.
  intros Ha. revert zs. induction l as [|v l IH]; intros zs H; simpl in *; [done|].
  apply bind_ok in H as (x & Hx%of_option_ok & H). apply bind_ok in H as (xs & Hxs & [= <-]).
  unfold operandValue at 1. rewrite (Ha _ _ Hx). simpl. by rewrite (IH xs Hxs).
Qed.

Lemma exec_agree σ env env' o env1 : agree σ env env' → exec env o = Ok env1 →
  (∀ v z, env !! v = Some z → v ≠ o_result o → σ v ≠ o_result o) → σ (o_result o) = o_result o →
  ∃ env1', exec env' (mkOp (o_result o) (o_type o) (mapOperands σ (o_op o))) = Ok env1' ∧ agree σ env1 env1'.
Proof.
  intros Ha H Hσ Hr. unfold exec in *. apply bind_ok in H as (xs & Hxs & H).
  apply bind_ok in H as (z & Hz & [= <-]). simpl.
  rewrite operands_map, (mapM_agree _ _ _ _ _ Ha Hxs). simpl. rewrite compute_map, Hz. simpl.
  eexists; split; [done|]. intros v z' [[<- <-]|[Hne Hv]]%lookup_insert_Some.
  - rewrite Hr. apply lookup_insert_eq.
  - rewrite lookup_insert_ne; [by apply Ha|]. intros E. by eapply Hσ.
Qed.

Lemma run_app env l1 l2 : run env (l1 ++ l2) = let* env1 := run env l1 in run env1 l2.
Proof. apply foldM_app. Qed.

(** ** Well-formed blocks *)

Definition defs (l : list Op) : list Value := map o_result l.

Lemma defs_in o l : o ∈ l → o_result o ∈ defs l.
Proof. intros Ho. apply list_elem_of_fmap. by exists o. Qed.

(** Each value has one definition, and no name is in use that is still to be given. *)
Record wfBlock (env : Env) (blk : OpBlock) : Prop := {
  wf_nodup : NoDup (defs (ops blk));
  wf_inputs v : v ∈ defs (ops blk) → env !! v = None;
  wf_fresh v : v ∈ defs (ops blk) → (v < nextValue blk)%nat;
  wf_fresh_env v z : env !! v = Some z → (v < nextValue blk)%nat
}.

Lemma exec_defs env o env1 v z : exec env o = Ok env1 → env1 !! v = Some z →
  env !! v = Some z ∨ v = o_result o.
Proof.
  unfold exec. intros H Hv. apply bind_ok in H as (xs & _ & H). apply bind_ok in H as (y & _ & [= <-]).
  apply lookup_insert_Some in Hv as [[<- _]|[_ Hv]]; auto.
Qed.

Lemma run_cons env o l env1 : run env (o :: l) = Ok env1 ↔ ∃ env0, exec env o = Ok env0 ∧ run env0 l = Ok env1.
Proof. unfold run. simpl. apply bind_ok. Qed.

Lemma run_app_ok env l1 l2 env2 : run env (l1 ++ l2) = Ok env2 ↔ ∃ env1, run env l1 = Ok env1 ∧ run env1 l2 = Ok env2.
Proof. rewrite run_app. apply bind_ok. Qed.

Lemma run_defs env l env1 v z : run env l = Ok env1 → env1 !! v = Some z → env !! v = Some z ∨ v ∈ defs l.
Proof.
  revert env. induction l as [|o l IH]; intros env H Hv; [injection H as <-; auto|].
  apply run_cons in H as (env0 & Ho & H). apply IH in H as [H|H]; [|by right; right|done].
  eapply exec_defs in Ho as [Ho| ->]; [by left|right; by left|done].
Qed.

Lemma exec_keeps env o env1 v : exec env o = Ok env1 → v ≠ o_result o → env1 !! v = env !! v.
Proof.
  unfold exec. intros H Hv. apply bind_ok in H as (xs & _ & H). apply bind_ok in H as (y & _ & [= <-]).
  by rewrite lookup_insert_ne.
Qed.

Lemma run_keeps env l env1 v : run env l = Ok env1 → v ∉ defs l → env1 !! v = env !! v.
Proof.
  revert env. induction l as [|o l IH]; intros env H Hv; [by injection H as <-|].
  apply not_elem_of_cons in Hv as [Hne Hv]. apply run_cons in H as (env0 & Ho & H).
  rewrite (IH _ H Hv). by eapply exec_keeps.
Qed.

(** The value of a constant after it was run. *)
Lemma run_constant env l env1 v t c : run env l = Ok env1 → NoDup (defs l) →
  mkOp v t (arith_ConstantOp (IntegerAttr c)) ∈ l → env1 !! v = Some (apint_uval c).
Proof.
  revert env. induction l as [|o l IH]; intros env H Hnd Hin; [by inversion Hin|].
  apply run_cons in H as (env0 & Ho & H). inversion Hnd as [|? ? Hnot Hnd']; subst.
  apply elem_of_cons in Hin as [<-|Hin]; [|by eapply IH].
  rewrite (run_keeps _ _ _ v H) by done. injection Ho as <-. apply lookup_insert_eq.
Qed.

Lemma run_agree σ l : ∀ env env' env1, agree σ env env' → run env l = Ok env1 →
  (∀ v z, (env !! v = Some z ∨ v ∈ defs l) → σ v ≠ v → σ v ∉ defs l) →
  (∀ v, v ∈ defs l → σ v = v) →
  ∃ env1', run env' (map (λ o, mkOp (o_result o) (o_type o) (mapOperands σ (o_op o))) l) = Ok env1' ∧ agree σ env1 env1'.
Proof.
  induction l as [|o l IH]; intros env env' env1 Ha H Hσ Hid; [injection H as <-; by exists env'|].
  apply run_cons in H as (env0 & Ho & H).
  destruct (exec_agree σ env env' o env0 Ha Ho) as (env0' & Ho' & Ha').
  { intros v z Hv Hne E. destruct (decide (σ v = v)); [congruence|].
    apply (Hσ v z); [by left|done|rewrite E; by left]. }
  { apply Hid. by left. }
  destruct (IH env0 env0' env1 Ha' H) as (env1' & H' & Ha1).
  { intros v z Hv Hne Hin. apply (Hσ v z); [|done|by right].
    destruct Hv as [Hv|Hv]; [|by right; right]. eapply exec_defs in Ho as [Ho| ->]; [by left|by right; left|done]. }
  { intros v Hv. apply Hid. by right. }
  exists env1'. split; [|done]. apply run_cons. eauto.
Qed.

(** A substitution changes nothing where the old value is not defined. *)
Lemma run_subst_absent env l env1 old new : run env l = Ok env1 → env !! old = None → old ∉ defs l →
  run env (map (substOp old new) l) = Ok env1.
Proof.
  revert env. induction l as [|o l IH]; intros env H Hold Hnot; [done|].
  apply not_elem_of_cons in Hnot as [Hne Hnot]. apply run_cons in H as (env0 & Ho & H).
  apply run_cons. exists env0. split; [|apply IH; [done| |done]].
  - unfold exec in *. apply bind_ok in Ho as (xs & Hxs & Ho). simpl.
    rewrite operands_map, (mapM_agree (subst old new) env env _ xs); [|..|done].
    { simpl. by rewrite compute_map. }
    intros v z Hv. unfold subst. case_bool_decide as E; [congruence|done].
  - rewrite (exec_keeps _ _ _ _ Ho) by done. done.
Qed.

(** ** Replacing an operation *)

Lemma insertBefore_at anchor o l1 x l2 : o_result x = anchor → anchor ∉ defs l1 →
  insertBefore anchor o (l1 ++ x :: l2) = l1 ++ o :: x :: l2.
Proof.
  intros Hx. induction l1 as [|y l1 IH]; simpl; intros Hnot.
  - by rewrite bool_decide_eq_true_2.
  - apply not_elem_of_cons in Hnot as [Hne Hnot]. rewrite bool_decide_eq_false_2 by done. by rewrite IH.
Qed.

Lemma filter_defs old l : old ∉ defs l → filter (λ o, o_result o ≠ old) l = l.
Proof.
  induction l as [|o l IH]; intros Hnot; [done|]. apply not_elem_of_cons in Hnot as [Hne Hnot].
  rewrite filter_cons_True by done. by rewrite IH.
Qed.

Lemma replaceUses_ops old new l1 o l2 us n : o_result o = old → old ∉ defs l1 → old ∉ defs l2 →
  ops (replaceUses old new (mkOpBlock (l1 ++ o :: l2) us n)) = map (substOp old new) (l1 ++ l2).
Proof.
  intros Ho H1 H2. simpl. rewrite list.filter_app, filter_cons_False by auto. by rewrite !filter_defs.
Qed.

(** Operations [news], inserted after [pre], compute the result of [o], [mid]
    later, as [new]: the block in which [new] replaces the result of [o] refines
    the original one. *)
Lemma replace_refines env blk pre mid o post news new nextValue' :
  wfBlock env blk → ops blk = pre ++ mid ++ o :: post →
  (∀ v, v ∈ defs news → (nextValue blk <= v)%nat) → new ∉ defs (pre ++ mid ++ o :: post) →
  (∀ env1, run env pre = Ok env1 → ∀ env2 env3, run env1 mid = Ok env2 → exec env2 o = Ok env3 →
    ∃ env1', run env1 news = Ok env1' ∧ env1' !! new = env3 !! o_result o) →
  refines env blk (replaceUses (o_result o) new
    (mkOpBlock (pre ++ news ++ mid ++ o :: post) (used blk) nextValue')).
Proof.
  intros Hwf Hops Hnews Hnew Hcomp zs H. set (old := o_result o) in *.
  unfold results in H. rewrite Hops in H. apply bind_ok in H as (envf & Hrun & Hused).
  apply run_app_ok in Hrun as (env1 & Hpre & Hrun). apply run_app_ok in Hrun as (env2 & Hmid & Hrun).
  apply run_cons in Hrun as (env3 & Ho & Hpost).
  destruct (Hcomp env1 Hpre env2 env3 Hmid Ho) as (env1' & Hrun' & Hval).
  destruct Hwf as [Hnd Hin Hfr Hfe]. rewrite Hops in *. unfold defs in Hnd. rewrite !map_app, map_cons in Hnd.
  apply list.NoDup_app in Hnd as (_ & Hd1 & Hnd). apply list.NoDup_app in Hnd as (_ & Hd2 & Hnd).
  apply list.NoDup_cons in Hnd as [Hd3 _].
  assert (old ∉ defs pre) as Hp by (intros E; apply (Hd1 old E); apply elem_of_app; right; by left).
  assert (old ∉ defs mid) as Hm by (intros E; apply (Hd2 old E); by left).
  assert (∀ v, v ∈ defs (pre ++ mid ++ o :: post) → v ∉ defs news) as Hdis.
  { intros v Hv E. specialize (Hfr v Hv). specialize (Hnews v E). lia. }
  assert (old ∈ defs (pre ++ mid ++ o :: post)) as Hold
    by (unfold defs; rewrite !map_app, !elem_of_app; right; right; by left).
  assert (env !! old = None) as He by by apply Hin.
  assert (env1 !! old = None) as He1 by by rewrite (run_keeps _ _ _ _ Hpre Hp).
  assert (old ∉ defs news) as Hn by by apply Hdis.
  unfold results. replace (pre ++ news ++ mid ++ o :: post) with ((pre ++ news ++ mid) ++ o :: post)
    by by rewrite <-!app_assoc.
  rewrite replaceUses_ops; [|done| |done].
  2: { unfold defs. rewrite !map_app, !not_elem_of_app. done. }
  rewrite <-!app_assoc, !map_app.
  assert (∀ v z, env1 !! v = Some z → env1' !! v = Some z) as Hsub.
  { intros v z Hv. rewrite (run_keeps _ _ _ v Hrun'); [done|]. intros E. specialize (Hnews v E).
    apply (run_defs _ _ _ _ _ Hpre) in Hv as [Hv|Hv]; [specialize (Hfe v z Hv); lia|].
    assert (v ∈ defs (pre ++ mid ++ o :: post)) as Hv' by (unfold defs; rewrite map_app; apply elem_of_app; by left).
    specialize (Hfr v Hv'). lia. }
  assert (agree (subst old new) env1 env1') as Ha1.
  { intros v z Hv. unfold subst. case_bool_decide as E; [congruence|by apply Hsub]. }
  assert (∀ l, (∀ v, v ∈ defs l → v ∈ defs (pre ++ mid ++ o :: post)) → old ∉ defs l →
    (∀ v, v ∈ defs l → subst old new v = v)
    ∧ (∀ v, subst old new v ≠ v → subst old new v ∉ defs l)) as Hσ.
  { intros l Hl Hol. unfold subst. split; intros v; case_bool_decide as E; subst; try done.
    intros _ Hv. by apply Hnew, Hl. }
  destruct (Hσ mid) as [Hσ1 Hσ2]; [intros v Hv; unfold defs in *; rewrite !map_app, !elem_of_app; auto|done|].
  destruct (Hσ post) as [Hσ3 Hσ4]; [intros v Hv; unfold defs in *; rewrite !map_app, map_cons, !elem_of_app, elem_of_cons; auto|done|].
  destruct (run_agree (subst old new) mid env1 env1' env2 Ha1 Hmid) as (env2' & Hmid' & Ha2); [auto|done|].
  assert (agree (subst old new) env3 env2') as Ha3.
  { assert (env2' !! new = env3 !! old) as Hnv.
    { rewrite <-Hval. eapply run_keeps; [exact Hmid'|]. unfold defs. rewrite map_map. simpl. intros E.
      apply Hnew. unfold defs. rewrite !map_app, !elem_of_app. auto. }
    intros v z Hv. unfold subst. case_bool_decide as E; [subst v; congruence|].
    rewrite (exec_keeps _ _ _ _ Ho) in Hv by done. specialize (Ha2 v z Hv). unfold subst in Ha2.
    by rewrite bool_decide_eq_false_2 in Ha2. }
  destruct (run_agree (subst old new) post env3 env2' envf Ha3 Hpost) as (envf' & Hpost' & Haf); [auto|done|].
  assert (run env (map (substOp old new) pre ++ map (substOp old new) news ++
    map (substOp old new) mid ++ map (substOp old new) post) = Ok envf') as ->.
  { apply run_app_ok. exists env1. split; [by apply run_subst_absent|].
    apply run_app_ok. exists env1'. split; [by apply run_subst_absent|].
    apply run_app_ok. by exists env2'. }
  simpl. by eapply mapM_agree.
Qed.

End Meaning.
End Rewriter.
