(* ===== verification/ReduceStrength.v ===== *)
(** Arithmetic strength reduction (ArithReduceStrength.h/.cpp): operation trees
    and their construction in the IR, multiplications by constants as trees of
    shifts and additions, multiplications by -1 absorbed by their users, and
    signed comparisons of positive values made unsigned. *)

From stdpp Require Import gmap.
From S2P Require Import LLVMInterface ArithIR NumericRange NumericAnalysis Rewriter Prelude.

(** * Operation trees *)

Inductive OpType : Type := ADD | SUB | SHIFT_LEFT.

#[export] Instance OpType_eq_dec : EqDecision OpType.
Proof. solve_decision. Defined.

(** A tree operand.  A tree is held by a shared pointer: [id] is its address;
    the other fields are those its constructor computes. *)
Inductive OpTreeOperand : Type :=
| TreeOperand (id : nat) (opType : OpType) (left right : OpTreeOperand) (depth adderDepth numNodes : Z)
| ValueOperand (v : Value)
| ConstOperand (c : Z).

Definition getOperandDepth (operand : OpTreeOperand) : Z :=
  match operand with TreeOperand _ _ _ _ d _ _ => d | _ => 0 end.
Definition getOperandAdderDepth (operand : OpTreeOperand) : Z :=
  match operand with TreeOperand _ _ _ _ _ d _ => d | _ => 0 end.
Definition getOperandNumNodes (operand : OpTreeOperand) : Z :=
  match operand with TreeOperand _ _ _ _ _ _ n => n | _ => 0 end.

(** [opType == OpType::ADD || OpType::SUB]: the second operand is the constant 1. *)
Definition countsAsAdder (opType : OpType) : bool := bool_decide (opType = ADD) || true.

Definition OpTree_new (id : nat) (opType : OpType) (left right : OpTreeOperand) : OpTreeOperand :=
  TreeOperand id opType left right
    (Z.max (getOperandDepth left) (getOperandDepth right) + 1)
    (Z.max (getOperandDepth left) (getOperandDepth right) + (if countsAsAdder opType then 1 else 0))
    (getOperandNumNodes left + getOperandNumNodes right + 1).

Section Patterns.
Context {IL : APIntLib} {FL : APFloatLib} {RW : PatternRewriter}.

(** ** Building a tree *)

Record BuildState := mkBuild {
  building : OpBlock;
  cstCache : gmap Z Value;
  resultCache : gmap nat Value
}.

Definition treeOp (opType : OpType) : Value → Value → Operation :=
  match opType with ADD => arith_AddIOp | SUB => arith_SubIOp | SHIFT_LEFT => arith_ShLIOp end.

Definition createIn (anchor : Value) (t : MLIRType) (o : Operation) (st : BuildState) : Value * BuildState :=
  let (v, blk) := create anchor t o (building st) in (v, mkBuild blk (cstCache st) (resultCache st)).

(** [rewriter.getIntegerAttr(type, value)] *)
Definition getIntegerAttr (t : MLIRType) (value : Z) : TypedAttr := IntegerAttr (apint_make (bitWidth t) value false).

(** [buildTreeOperand] and [buildTreeRecursive]: the operations go before [anchor],
    with results of type [t]; an operand's operations come before its tree's. *)
Fixpoint buildTreeOperand (anchor : Value) (t : MLIRType) (operand : OpTreeOperand) (st : BuildState)
    : Value * BuildState :=
  match operand with
  | TreeOperand id opType l r _ _ _ =>
      match resultCache st !! id with
      | Some v => (v, st)
      | None =>
          let (leftVal, st) := buildTreeOperand anchor t l st in
          let (rightVal, st) := buildTreeOperand anchor t r st in
          let (res, st) := createIn anchor t (treeOp opType leftVal rightVal) st in
          (res, mkBuild (building st) (cstCache st) (<[id := res]> (resultCache st)))
      end
  | ConstOperand c =>
      match cstCache st !! c with
      | Some v => (v, st)
      | None =>
          let (v, st) := createIn anchor t (arith_ConstantOp (getIntegerAttr t c)) st in
          (v, mkBuild (building st) (<[c := v]> (cstCache st)) (resultCache st))
      end
  | ValueOperand v => (v, st)
  end.

Definition buildTreeRecursive (anchor : Value) (t : MLIRType) (opType : OpType) (l r : OpTreeOperand)
    (st : BuildState) : Value * BuildState :=
  let (leftVal, st) := buildTreeOperand anchor t l st in
  let (rightVal, st) := buildTreeOperand anchor t r st in
  createIn anchor t (treeOp opType leftVal rightVal) st.

(** [OpTree::buildTree], of the root of a tree. *)
Definition buildTree (anchor : Value) (t : MLIRType) (root : OpTreeOperand) (blk : OpBlock)
    : res (Value * OpBlock) :=
  match root with
  | TreeOperand _ opType l r _ _ _ =>
      let (v, st) := buildTreeRecursive anchor t opType l r (mkBuild blk ∅ ∅) in Ok (v, building st)
  | _ => Bad AssertFailed
  end.

(** * Multiplications by a constant *)

(** The loop runs until no bit is left, at most 64 times. *)
Fixpoint oneBitPositionsFrom (fuel : nat) (pos value : Z) : list Z :=
  match fuel with
  | O => []
  | S fuel =>
      if value =? 0 then []
      else
        let rest := oneBitPositionsFrom fuel (pos + 1) (Z.shiftr value 1) in
        if negb (Z.land value 1 =? 0) then pos :: rest else rest
  end.

Definition getOneBitPositions (value : Z) : list Z := oneBitPositionsFrom 64 0 value.

Definition getPosConstantOperand (blk : OpBlock) (mulOperand : Value) : option apint :=
  match definingOp blk mulOperand with
  | Some (mkOp _ _ (arith_ConstantOp (IntegerAttr c))) => if isStrictlyPositive c then Some c else None
  | _ => None
  end.

(** A shift of the operand for each 1-bit, none for the lowest; [id] is the next
    address. *)
Fixpoint shiftLeaves (id : nat) (mulOperand : Value) (positions : list Z) : list OpTreeOperand :=
  match positions with
  | [] => []
  | pos :: positions =>
      (if negb (pos =? 0) then OpTree_new id SHIFT_LEFT (ValueOperand mulOperand) (ConstOperand pos)
       else ValueOperand mulOperand) :: shiftLeaves (S id) mulOperand positions
  end.

(** The binary tree of additions over a list, halved until one operand is left;
    the fuel is the length of the list. *)
Fixpoint adderTree (fuel : nat) (id : nat) (vals : list OpTreeOperand) : res (OpTreeOperand * nat) :=
  match fuel with
  | O => Bad NoFuel
  | S fuel =>
      match vals with
      | [v] => Ok (v, id)
      | _ =>
          let mid := (length vals / 2)%nat in
          let* (lhs, id) := adderTree fuel id (take mid vals) in
          let* (rhs, id) := adderTree fuel id (drop mid vals) in
          Ok (OpTree_new id ADD lhs rhs, S id)
      end
  end.

Definition getBitwiseAdderTree (maxAdderDepth : Z) (cst : apint) (mulOperand : Value)
    : res (option OpTreeOperand) :=
  let onePositions := getOneBitPositions (getZExtValue cst) in
  let numBits := Z.of_nat (length onePositions) in
  let numBitsAP := apint_make 8 numBits false in
  let log2 := logBase2 numBitsAP in
  let isPow2 := isPowerOf2 numBitsAP in
  let treeDepth := if isPow2 then log2 else log2 + 1 in
  if maxAdderDepth <? treeDepth then Ok None
  else if treeDepth =? 0 then
    let* pos := at_ onePositions 0 in
    Ok (Some (OpTree_new 0 SHIFT_LEFT (ValueOperand mulOperand) (ConstOperand pos)))
  else
    let floorPow2 := Z.shiftl 1 log2 in
    let maxLeafAdders := Z.shiftl 1 (treeDepth - 1) in
    let numLeafAdders := if isPow2 then Z.shiftr numBits 1 else numBits - floorPow2 in
    let* _ := assert_ ((0 <? numLeafAdders) && (numLeafAdders <=? maxLeafAdders)) in
    let leaves := shiftLeaves 0 mulOperand onePositions in
    let* (tree, _) := adderTree (length leaves) (length leaves) leaves in
    match tree with
    | TreeOperand _ _ _ _ _ _ _ => Ok (Some tree)
    | _ => Bad AssertFailed
    end.

(** The factor that is a positive constant, the left one first, and the other one. *)
Definition constantFactor (blk : OpBlock) (lhs rhs : Value) : option (apint * Value) :=
  match getPosConstantOperand blk lhs with
  | Some c => Some (c, rhs)
  | None =>
      match getPosConstantOperand blk rhs with
      | Some c => Some (c, lhs)
      | None => None
      end
  end.

(** [MulReduceStrength::matchAndRewrite] of the multiplication [mul]; no result
    if the pattern does not apply. *)
Definition mulReduceStrength (maxAdderDepth : Z) (mul : Value) (blk : OpBlock) : res (option OpBlock) :=
  match definingOp blk mul with
  | Some (mkOp _ t (arith_MulIOp lhs rhs)) =>
      match constantFactor blk lhs rhs with
      | None => Ok None
      | Some (cst, otherOperand) =>
          let* bitwise := getBitwiseAdderTree maxAdderDepth cst otherOperand in
          match bitwise with
          | None => Ok None
          | Some tree =>
              let* (newMulResult, blk) := buildTree mul t tree blk in
              Ok (Some (replaceOp mul newMulResult blk))
          end
      end
  | _ => Bad BadCast
  end.

(** * Multiplications by -1 *)

Definition isConstantNegOne (blk : OpBlock) (val : Value) : bool :=
  match definingOp blk val with
  | Some (mkOp _ _ (arith_ConstantOp (IntegerAttr c))) => getSExtValue c =? -1
  | _ => false
  end.

Definition isMulTimesNegOne (blk : OpBlock) (mul0 mul1 : Value) : option Value :=
  if isConstantNegOne blk mul0 then Some mul1
  else if isConstantNegOne blk mul1 then Some mul0 else None.

Definition getMaskAllOnes (dataType : MLIRType) : apint :=
  let dataWidth := bitWidth dataType in
  let numElems := Z.shiftr dataWidth 6 + 1 in
  apint_of_words dataWidth (replicate (Z.to_nat numElems) (2 ^ 64 - 1)).

(** One user of the product [mulRes] of [oprd] and -1. *)
Definition replaceUser (mulRes oprd user : Value) (blk : OpBlock) : res (bool * OpBlock) :=
  match definingOp blk user with
  | None => Bad UseAfterErase
  | Some (mkOp _ t (arith_AddIOp lhs rhs)) =>
      let newLhs := if bool_decide (mulRes = lhs) then rhs else lhs in
      let (sub, blk) := create mulRes t (arith_SubIOp newLhs oprd) blk in
      Ok (true, replaceOp user sub blk)
  | Some (mkOp _ t (arith_SubIOp lhs rhs)) =>
      if bool_decide (mulRes = rhs) then
        let (sum, blk) := create mulRes t (arith_AddIOp lhs oprd) blk in
        Ok (true, replaceOp user sum blk)
      else
        let (addRes, blk) := create mulRes t (arith_AddIOp oprd rhs) blk in
        let (mask, blk) := create mulRes t (arith_ConstantOp (IntegerAttr (getMaskAllOnes t))) blk in
        let (xor, blk) := create mulRes t (arith_XOrIOp addRes mask) blk in
        let (cstOne, blk) := create mulRes t (arith_ConstantOp (getIntegerAttr t 1)) blk in
        let (negAdd, blk) := create mulRes t (arith_AddIOp xor cstOne) blk in
        Ok (true, replaceOp user negAdd blk)
  | Some _ => Ok (false, blk)
  end.

Fixpoint replaceUsers (mulRes oprd : Value) (mulUsers : list Value) (anyChange : bool) (blk : OpBlock)
    : res (bool * OpBlock) :=
  match mulUsers with
  | [] => Ok (anyChange, blk)
  | user :: mulUsers =>
      let* (changed, blk) := replaceUser mulRes oprd user blk in
      replaceUsers mulRes oprd mulUsers (anyChange || changed) blk
  end.

(** The users of a value in a block: one entry per use, in the order [useOrder]
    puts them. *)
Definition usersOf (blk : OpBlock) (v : Value) : list Value :=
  concat (map (λ o, map (λ _, o_result o) (filter (λ w, w = v) (operands (o_op o)))) (ops blk)).

(** [ReplaceMulNegOneUsers::matchAndRewrite] *)
Definition replaceMulNegOneUsers (useOrder : list Value → list Value) (mul : Value) (blk : OpBlock)
    : res (option OpBlock) :=
  match definingOp blk mul with
  | Some (mkOp _ _ (arith_MulIOp mul0 mul1)) =>
      match isMulTimesNegOne blk mul0 mul1 with
      | None => Ok None
      | Some oprd =>
          let* (anyChange, blk) := replaceUsers mul oprd (useOrder (usersOf blk mul)) false blk in
          Ok (if anyChange : bool then Some blk else None)
      end
  | _ => Bad BadCast
  end.

(** * Signed comparisons of positive values *)

Definition newPredicate (p : CmpIPredicate) : option CmpIPredicate :=
  match p with
  | cmp_slt => Some cmp_ult
  | cmp_sle => Some cmp_ule
  | cmp_sgt => Some cmp_ugt
  | cmp_sge => Some cmp_uge
  | _ => None
  end.

Definition isPromotionPossible (ir : IR) (lhs rhs : Value) : res bool :=
  let* (l, known) := analysisIsPositive ir lhs ∅ in
  if l : bool then let* (r, _) := analysisIsPositive ir rhs known in Ok r else Ok false.

(** [PromoteSignedCmp::matchAndRewrite]: the comparison's new predicate. *)
Definition promoteSignedCmp (ir : IR) (p : CmpIPredicate) (lhs rhs : Value) : res (option CmpIPredicate) :=
  match newPredicate p with
  | None => Ok None
  | Some p' =>
      let* possible := isPromotionPossible ir lhs rhs in
      Ok (if possible : bool then Some p' else None)
  end.

End Patterns.
