(* ===== verification/ReduceStrengthThms.v ===== *)
(** Correctness of strength reduction: the operations built for a tree compute
    what the tree denotes, the tree built for a constant denotes the
    multiplication by it within the allowed depth, and the rewritten block
    computes what the block computed.  Concrete blocks at the end. *)

From stdpp Require Import gmap.
From S2P Require Import LLVMInterface ArithIR NumericRange NumericAnalysis RangeSound Rewriter ReduceStrength Prelude.

Section Thms.
Context {IL : APIntLib} {FL : APFloatLib} {LAWS : APIntLaws IL}.
Context {RW : PatternRewriter} {RWLAWS : PatternRewriterLaws RW}.
Context (other : Operation → MLIRType → list Z → res Z).

#[local] Notation run := (run other).
#[local] Notation exec := (exec other).

(** * What a tree denotes *)

Fixpoint denote (w : Z) (env : Env) (t : OpTreeOperand) : Z :=
  match t with
  | TreeOperand _ ADD l r _ _ _ => wrapU w (denote w env l + denote w env r)
  | TreeOperand _ SUB l r _ _ _ => wrapU w (denote w env l - denote w env r)
  | TreeOperand _ SHIFT_LEFT l r _ _ _ => wrapU w (denote w env l * 2 ^ denote w env r)
  | ValueOperand v => default 0 (env !! v)
  | ConstOperand c => wrapU w c
  end.

(** Its values are defined, its constants and shifts fit. *)
Fixpoint computable (w : Z) (env : Env) (t : OpTreeOperand) : Prop :=
  match t with
  | TreeOperand _ op l r _ _ _ =>
      computable w env l ∧ computable w env r ∧ (op = SHIFT_LEFT → denote w env r < w)
  | ValueOperand v => is_Some (env !! v)
  | ConstOperand c => 0 ≤ c < 2 ^ w ∧ c < 2 ^ 64
  end.

Definition isTree (t : OpTreeOperand) : Prop := match t with TreeOperand _ _ _ _ _ _ _ => True | _ => False end.

(** The addresses of its nodes. *)
Fixpoint ids (t : OpTreeOperand) : list nat :=
  match t with TreeOperand i _ l r _ _ _ => i :: ids l ++ ids r | _ => [] end.

Lemma denote_mono w env env' t : env ⊆ env' → computable w env t →
  denote w env' t = denote w env t ∧ computable w env' t.
Proof.
  intros Hsub. induction t as [i op l IHl r IHr d a n|v|c]; simpl; [|intros [z Hz]|done].
  - intros (Hl & Hr & Hs). destruct (IHl Hl) as [-> ?], (IHr Hr) as [-> ?]. by destruct op.
  - rewrite (lookup_weaken _ _ _ _ Hz Hsub), Hz. split; [done|by eexists].
Qed.

(** * Building a tree *)

Definition cacheOk (w : Z) (env : Env) (cache : gmap Z Value) : Prop :=
  ∀ c v, cache !! c = Some v → env !! v = Some (wrapU w c).

Definition bounded (env : Env) (n : Value) : Prop := ∀ v z, env !! v = Some z → (v < n)%nat.

Lemma cacheOk_mono w env env' cache : env ⊆ env' → cacheOk w env cache → cacheOk w env' cache.
Proof. intros Hs Hc c v Hv. by eapply lookup_weaken; [apply Hc|]. Qed.

Lemma bounded_insert env n z : bounded env n → env ⊆ <[n := z]> env ∧ bounded (<[n := z]> env) (S n).
Proof.
  intros Hb. split.
  - apply insert_subseteq. destruct (env !! n) eqn:E; [|done]. apply Hb in E. lia.
  - intros v y [[<- _]|[_ Hv]]%lookup_insert_Some; [lia|]. apply Hb in Hv. lia.
Qed.

(** The block holds [news] between [l1] and the anchor, whose operation starts [l2]. *)
Definition holds (anchor : Value) (l1 l2 : list Op) (news : list Op) (us : list Value) (blk : OpBlock) : Prop :=
  ops blk = l1 ++ news ++ l2 ∧ used blk = us ∧ (anchor < nextValue blk)%nat
  ∧ anchor ∉ defs (l1 ++ news) ∧ ∃ x rest, l2 = x :: rest ∧ o_result x = anchor.

Lemma create_holds anchor l1 l2 news us blk t o v blk' :
  holds anchor l1 l2 news us blk → create anchor t o blk = (v, blk') →
  v = nextValue blk ∧ nextValue blk' = S (nextValue blk) ∧ holds anchor l1 l2 (news ++ [mkOp v t o]) us blk'.
Proof.
  rewrite create_inserts. intros (Ho & Hu & Hf & Hn & x & rest & -> & Hx) [= <- <-]. split; [done|]. split; [done|].
  split; [|split; [done|split; [simpl; lia|split]]].
  - simpl. rewrite Ho, app_assoc, insertBefore_at by done. by rewrite <-!app_assoc.
  - unfold defs in *. rewrite !map_app, !not_elem_of_app in *. destruct Hn as [? ?].
    repeat split; try done. simpl. rewrite list_elem_of_singleton. lia.
  - eauto.
Qed.

Lemma exec_create env t o n xs z :
  mapM (operandValue env) (operands o) = Ok xs → compute other o t xs = Ok z →
  run env [mkOp n t o] = Ok (<[n := z]> env).
Proof. intros Hx Hz. unfold Rewriter.run, foldM, Rewriter.exec. simpl. by rewrite Hx; simpl; rewrite Hz. Qed.

Lemma getIntegerAttr_uval t c : 0 ≤ bitWidth t → 0 ≤ c < 2 ^ bitWidth t → c < 2 ^ 64 →
  ∃ a, getIntegerAttr t c = IntegerAttr a ∧ apint_uval a = c.
Proof. intros Hw Hc H64. eexists. split; [done|]. apply apint_make_unsigned; lia. Qed.

Lemma buildTreeOperand_ok anchor t l1 l2 us tree : 0 < bitWidth t → ∀ st news env0 env,
  holds anchor l1 l2 news us (building st) → run env0 news = Ok env → bounded env (nextValue (building st)) →
  cacheOk (bitWidth t) env (cstCache st) → computable (bitWidth t) env tree →
  NoDup (ids tree) → (∀ i, i ∈ ids tree → resultCache st !! i = None) →
  ∃ v st' news' env', buildTreeOperand anchor t tree st = (v, st')
  ∧ holds anchor l1 l2 (news ++ news') us (building st') ∧ run env0 (news ++ news') = Ok env'
  ∧ env ⊆ env' ∧ bounded env' (nextValue (building st')) ∧ cacheOk (bitWidth t) env' (cstCache st')
  ∧ env' !! v = Some (denote (bitWidth t) env tree)
  ∧ (nextValue (building st) <= nextValue (building st'))%nat ∧ (∀ u, u ∈ defs news' → (nextValue (building st) <= u)%nat)
  ∧ (isTree tree → (nextValue (building st) <= v)%nat)
  ∧ ∀ i, i ∉ ids tree → resultCache st !! i = None → resultCache st' !! i = None.
Proof.
  intros Hw. induction tree as [i op l IHl r IHr d a n|v|c]; intros st news env0 env Hh Hrun Hb Hc Hcomp Hnd Hid.
  - simpl in *. rewrite (Hid i) by by left. destruct Hcomp as (Hcl & Hcr & Hs).
    apply list.NoDup_cons in Hnd as [Hi Hnd]. apply list.NoDup_app in Hnd as (Hndl & Hdis & Hndr).
    rewrite not_elem_of_app in Hi. destruct Hi as [Hil Hir].
    destruct (IHl st news env0 env) as (vl & st1 & n1 & env1 & -> & Hh1 & Hrun1 & Hs1 & Hb1 & Hc1 & Hv1 & Hf1 & Hd1 & _ & Hr1);
      try done; [intros j Hj; apply Hid; right; apply elem_of_app; by left|].
    destruct (denote_mono _ _ _ r Hs1 Hcr) as [Her Hcr1].
    destruct (IHr st1 (news ++ n1) env0 env1) as (vr & st2 & n2 & env2 & -> & Hh2 & Hrun2 & Hs2 & Hb2 & Hc2 & Hv2 & Hf2 & Hd2 & _ & Hr2);
      try done; [intros j Hj; apply Hr1; [intros E; by apply (Hdis j)|apply Hid; right; apply elem_of_app; by right]|].
    unfold createIn. destruct (create anchor t (treeOp op vl vr) (building st2)) as [v blk] eqn:Hcr2.
    destruct (create_holds _ _ _ _ _ _ _ _ _ _ Hh2 Hcr2) as (-> & Hf3 & Hh3).
    set (z := denote (bitWidth t) env (TreeOperand i op l r d a n)).
    assert (run env2 [mkOp (nextValue (building st2)) t (treeOp op vl vr)] = Ok (<[nextValue (building st2) := z]> env2)) as Hrun3.
    { apply (exec_create env2 t (treeOp op vl vr) (nextValue (building st2)) [denote (bitWidth t) env l; denote (bitWidth t) env r]).
      - assert (env2 !! vl = Some (denote (bitWidth t) env l)) as Hvl by by eapply lookup_weaken.
        rewrite Her in Hv2. destruct op; simpl; unfold operandValue; by rewrite Hvl, Hv2.
      - destruct op; simpl; try done. rewrite (proj2 (Z.ltb_lt _ _)); [done|by apply Hs]. }
    destruct (bounded_insert env2 _ z Hb2) as [Hs3 Hb3].
    exists (nextValue (building st2)), (mkBuild blk (cstCache st2) (<[i := nextValue (building st2)]> (resultCache st2))),
      (n1 ++ n2 ++ [mkOp (nextValue (building st2)) t (treeOp op vl vr)]), (<[nextValue (building st2) := z]> env2).
    split; [done|]. cbn [building cstCache resultCache]. rewrite Hf3. rewrite !app_assoc. split; [exact Hh3|].
    split; [apply run_app_ok; eauto|].
    split; [etransitivity; [exact Hs1|]; by etransitivity|]. split; [done|].
    split; [by eapply cacheOk_mono|]. split; [by rewrite lookup_insert_eq|]. split; [lia|]. split.
    + intros u. unfold defs. rewrite !map_app, !elem_of_app. simpl. rewrite list_elem_of_singleton.
      intros [[Hu|Hu]| ->]; [by apply Hd1|apply Hd2 in Hu; lia|lia].
    + split; [intros _; lia|]. intros j [Hji [Hjl Hjr]%not_elem_of_app]%not_elem_of_cons Hj. rewrite lookup_insert_ne by done. auto.
  - exists v, st, [], env. rewrite app_nil_r. destruct Hcomp as [z Hz]. simpl. rewrite Hz.
    do 8 (split; [first [done|reflexivity|lia]|]). split; [|by split]. intros u Hu. by inversion Hu.
  - simpl in *. destruct (cstCache st !! c) as [v|] eqn:Hcc.
    + exists v, st, [], env. rewrite app_nil_r, (Hc c v Hcc).
      do 8 (split; [first [done|reflexivity|lia]|]). split; [|by split]. intros u Hu. by inversion Hu.
    + unfold createIn. destruct (create anchor t (arith_ConstantOp (getIntegerAttr t c)) (building st)) as [v blk] eqn:Hcr.
      destruct (create_holds _ _ _ _ _ _ _ _ _ _ Hh Hcr) as (-> & Hf & Hh').
      destruct Hcomp as [Hc1 Hc2]. destruct (getIntegerAttr_uval t c) as (a & Ha & Hua); [lia|done|done|].
      assert (wrapU (bitWidth t) c = c) as Hcw by by apply wrapU_small.
      destruct (bounded_insert env _ c Hb) as [Hs3 Hb3].
      exists (nextValue (building st)), (mkBuild blk (<[c := nextValue (building st)]> (cstCache st)) (resultCache st)),
        [mkOp (nextValue (building st)) t (arith_ConstantOp (getIntegerAttr t c))], (<[nextValue (building st) := c]> env).
      split; [done|]. cbn [building cstCache resultCache]. rewrite Hf.
      split; [done|]. split.
      { apply run_app_ok. exists env. split; [done|]. rewrite Ha. eapply exec_create; [done|]. simpl. by rewrite Hua. }
      split; [done|]. split; [done|]. split.
      { intros c' v' [[<- <-]|[_ Hv']]%lookup_insert_Some; [by rewrite lookup_insert_eq, Hcw|].
        eapply lookup_weaken; [by apply Hc|done]. }
      split; [by rewrite lookup_insert_eq, Hcw|]. split; [lia|]. split; [|by split].
      intros u Hu%list_elem_of_singleton. simpl in Hu. lia.
Qed.

(** * The tree of a constant *)

Definition total (l : list Z) : Z := foldr Z.add 0 l.

Lemma total_app l1 l2 : total (l1 ++ l2) = total l1 + total l2.
Proof. induction l1 as [|x l1 IH]; simpl; [done|]. rewrite IH. lia. Qed.

(** ** Its 1-bits *)

Lemma oneBits_total fuel : ∀ pos v, 0 ≤ pos → 0 ≤ v < 2 ^ Z.of_nat fuel →
  total (map (λ p, 2 ^ p) (oneBitPositionsFrom fuel pos v)) = v * 2 ^ pos.
Proof.
  induction fuel as [|fuel IH]; intros pos v Hpos Hv.
  { change (2 ^ Z.of_nat 0) with 1 in Hv. simpl. lia. }
  cbn [oneBitPositionsFrom]. destruct (Z.eqb_spec v 0) as [->|Hv0]; [done|].
  rewrite Nat2Z.inj_succ, Z.pow_succ_r in Hv by lia.
  assert (Z.shiftr v 1 = v / 2) as Hs by (by rewrite Z.shiftr_div_pow2 by lia).
  assert (Z.land v 1 = v `mod` 2) as Hl by (by change (Z.land v 1) with (Z.land v (Z.ones 1)); rewrite Z.land_ones by lia).
  pose proof (Z.div_mod v 2 ltac:(lia)) as Hdm. pose proof (Z.mod_pos_bound v 2 ltac:(lia)) as Hm.
  specialize (IH (pos + 1) (v / 2) ltac:(lia)). rewrite Hs, Hl.
  rewrite Z.pow_add_r, Z.pow_1_r in IH by lia.
  assert (0 ≤ v / 2 < 2 ^ Z.of_nat fuel) as Hd by (split; [apply Z.div_pos|apply Z.div_lt_upper_bound]; lia).
  specialize (IH Hd). destruct (Z.eqb_spec (v `mod` 2) 0); simpl in *; rewrite IH; nia.
Qed.

Lemma oneBits_range fuel : ∀ pos v p, p ∈ oneBitPositionsFrom fuel pos v → pos ≤ p < pos + Z.of_nat fuel.
Proof.
  induction fuel as [|fuel IH]; intros pos v p; cbn [oneBitPositionsFrom]; [by intros H; inversion H|].
  destruct (v =? 0); [by intros H; inversion H|]. destruct (negb _).
  - intros [->|H%IH]%elem_of_cons; lia.
  - intros H%IH. lia.
Qed.

Lemma oneBits_length fuel : ∀ pos v, (length (oneBitPositionsFrom fuel pos v) <= fuel)%nat.
Proof.
  induction fuel as [|fuel IH]; intros pos v; cbn [oneBitPositionsFrom]; [done|].
  specialize (IH (pos + 1) (Z.shiftr v 1)). destruct (v =? 0); simpl; [lia|]. destruct (negb _); simpl; lia.
Qed.

Lemma total_term l p : p ∈ l → (∀ x, x ∈ l → 0 ≤ x) → 2 ^ p ≤ total (map (λ p, 2 ^ p) l).
Proof.
  intros Hp Hl. induction l as [|x l IH]; [by inversion Hp|]. simpl.
  assert (0 ≤ total (map (λ p, 2 ^ p) l)) as Ht.
  { clear. induction l; simpl; [done|]. pose proof (Z.pow_nonneg 2 a). lia. }
  pose proof (Z.pow_nonneg 2 x). apply elem_of_cons in Hp as [->|Hp]; [lia|].
  specialize (IH Hp). assert (2 ^ p ≤ total (map (λ p, 2 ^ p) l)) by (apply IH; intros y Hy; apply Hl; by right). lia.
Qed.

(** ** Its depth *)

(** The longest chain of additions and subtractions. *)
Fixpoint adderChain (t : OpTreeOperand) : Z :=
  match t with
  | TreeOperand _ op l r _ _ _ =>
      Z.max (adderChain l) (adderChain r) + (if bool_decide (op = SHIFT_LEFT) then 0 else 1)
  | _ => 0
  end.

(** The number of terms a tree of additions sums. *)
Fixpoint summands (t : OpTreeOperand) : Z :=
  match t with TreeOperand _ ADD l r _ _ _ => summands l + summands r | _ => 1 end.

Lemma adderChain_nonneg t : 0 ≤ adderChain t.
Proof. induction t as [i op l IHl r IHr d a n| |]; simpl; try lia. case_bool_decide; lia. Qed.

(** No tree of that many terms has a shorter chain. *)
Lemma summands_chain t : summands t ≤ 2 ^ adderChain t.
Proof.
  induction t as [i op l IHl r IHr d a n| |]; simpl; try done.
  pose proof (adderChain_nonneg l). pose proof (adderChain_nonneg r).
  destruct op; simpl.
  - rewrite Z.pow_add_r by lia.
    assert (2 ^ adderChain l ≤ 2 ^ Z.max (adderChain l) (adderChain r)) by (apply Z.pow_le_mono_r; lia).
    assert (2 ^ adderChain r ≤ 2 ^ Z.max (adderChain l) (adderChain r)) by (apply Z.pow_le_mono_r; lia).
    change (2 ^ 1) with 2. lia.
  - assert (0 < 2 ^ (Z.max (adderChain l) (adderChain r) + 1)) by lia. lia.
  - assert (0 < 2 ^ (Z.max (adderChain l) (adderChain r) + 0)) by lia. lia.
Qed.

Lemma wrapU_add w a b : wrapU w (wrapU w a + wrapU w b) = wrapU w (a + b).
Proof. unfold wrapU. symmetry. destruct (decide (2 ^ w = 0)) as [->|]; [by rewrite !Zmod_0_r|]. by apply Z.add_mod. Qed.

Lemma wrapU_twice w a : wrapU w (wrapU w a) = wrapU w a.
Proof. unfold wrapU. destruct (decide (2 ^ w = 0)) as [->|]; [by rewrite !Zmod_0_r|]. by apply Z.mod_mod. Qed.

(** The balanced tree of additions over a list. *)
Lemma adderTree_ok w env fuel : ∀ id vals k, (0 < length vals <= fuel)%nat →
  Forall (computable w env) vals → Forall (λ t, adderChain t = 0) vals → Forall (λ t, summands t = 1) vals →
  NoDup (concat (map ids vals)) → (∀ i, i ∈ concat (map ids vals) → (i < id)%nat) →
  0 ≤ k → Z.of_nat (length vals) ≤ 2 ^ k →
  ∃ t id', adderTree fuel id vals = Ok (t, id')
  ∧ wrapU w (denote w env t) = wrapU w (total (map (denote w env) vals))
  ∧ computable w env t ∧ adderChain t ≤ k ∧ summands t = Z.of_nat (length vals)
  ∧ ((1 < length vals)%nat → isTree t ∧ denote w env t = wrapU w (denote w env t))
  ∧ (id <= id')%nat ∧ NoDup (ids t)
  ∧ ∀ i, i ∈ ids t → i ∈ concat (map ids vals) ∨ (id <= i < id')%nat.
Proof.
  induction fuel as [|fuel IH]; intros id vals k Hlen Hc Hch Hs Hnd Hid Hk Hlk; [lia|].
  destruct vals as [|v [|v2 rest]]; [simpl in Hlen; lia| |].
  - inversion Hc; inversion Hch; inversion Hs; subst. simpl in *. rewrite app_nil_r in *.
    exists v, id. rewrite Z.add_0_r. repeat split; try done; try lia. auto.
  - set (vals := v :: v2 :: rest) in *. assert (2 <= length vals)%nat as H2 by (simpl; lia).
    cbn [adderTree]. change (match vals with [v] => Ok (v, id) | _ => ?x end) with x.
    clearbody vals. clear v v2 rest. set (mid := (length vals / 2)%nat).
    assert (0 < mid < length vals)%nat as Hmid.
    { unfold mid. split; [apply Nat.div_str_pos; lia|apply Nat.div_lt; lia]. }
    assert (2 * mid <= length vals <= 2 * mid + 1)%nat as Hhalf.
    { unfold mid. pose proof (Nat.div_mod_eq (length vals) 2). pose proof (Nat.mod_upper_bound (length vals) 2). lia. }
    assert (0 < k) as Hk0. { destruct (decide (k = 0)) as [->|]; [change (2 ^ 0) with 1 in Hlk; lia|lia]. }
    assert (2 ^ k = 2 * 2 ^ (k - 1)) as Hpk by (rewrite <-Z.pow_succ_r by lia; f_equal; lia).
    assert (concat (map ids vals) = concat (map ids (take mid vals)) ++ concat (map ids (drop mid vals))) as Hids
      by (by rewrite <-concat_app, <-map_app, take_drop).
    rewrite Hids in *. apply list.NoDup_app in Hnd as (Hnd1 & Hdis & Hnd2).
    destruct (IH id (take mid vals) (k - 1)) as (t1 & id1 & -> & Hd1 & Hc1 & Hch1 & Hs1 & _ & Hi1 & Hn1 & Hin1);
      try (by apply Forall_take); try done; try lia.
    { rewrite length_take. lia. } { intros i Hi. apply Hid, elem_of_app. by left. }
    { rewrite length_take. lia. }
    cbn [bind]. destruct (IH id1 (drop mid vals) (k - 1)) as (t2 & id2 & -> & Hd2 & Hc2 & Hch2 & Hs2 & _ & Hi2 & Hn2 & Hin2);
      try (by apply Forall_drop); try done; try lia.
    { rewrite length_drop. lia. }
    { intros i Hi. assert (i < id)%nat by (apply Hid, elem_of_app; by right). lia. }
    { rewrite length_drop. lia. }
    cbn [bind]. exists (OpTree_new id2 ADD t1 t2), (S id2). split; [done|].
    assert (denote w env (OpTree_new id2 ADD t1 t2) = wrapU w (denote w env t1 + denote w env t2)) as Hden by done.
    split. { rewrite Hden, wrapU_twice, <-wrapU_add, Hd1, Hd2, wrapU_add, <-total_app, <-map_app. by rewrite take_drop. }
    split; [by split|]. split; [simpl; lia|].
    split; [simpl; rewrite Hs1, Hs2, length_take, length_drop; lia|].
    split; [intros _; split; [done|by rewrite Hden, wrapU_twice]|]. split; [lia|]. simpl. split.
    + apply list.NoDup_cons. split.
      * rewrite not_elem_of_app. split; intros [Hi|Hi]%Hin1 || intros [Hi|Hi]%Hin2; try lia.
        -- assert (id2 < id)%nat by (apply Hid, elem_of_app; by left). lia.
        -- assert (id2 < id)%nat by (apply Hid, elem_of_app; by right). lia.
      * apply list.NoDup_app. split; [done|]. split; [|done]. intros i Hi1' Hi2'.
        destruct (Hin1 i Hi1') as [Ha|Ha], (Hin2 i Hi2') as [Hb|Hb]; try lia.
        -- by apply (Hdis i).
        -- assert (i < id)%nat by (apply Hid, elem_of_app; by left). lia.
        -- assert (i < id)%nat by (apply Hid, elem_of_app; by right). lia.
    + intros i [->|[Hi|Hi]%elem_of_app]%elem_of_cons; [right; lia| |].
      * destruct (Hin1 i Hi) as [Ha|Ha]; [left; apply elem_of_app; by left|right; lia].
      * destruct (Hin2 i Hi) as [Ha|Ha]; [left; apply elem_of_app; by right|right; lia].
Qed.

(** ** Its leaves *)

Lemma shift_ok w env v p : 0 < w → 0 ≤ p < w → p < 64 → is_Some (env !! v) → ∀ i,
  computable w env (OpTree_new i SHIFT_LEFT (ValueOperand v) (ConstOperand p))
  ∧ denote w env (OpTree_new i SHIFT_LEFT (ValueOperand v) (ConstOperand p)) = wrapU w (default 0 (env !! v) * 2 ^ p).
Proof.
  intros Hw Hp H64 Hv i. assert (w < 2 ^ w) by (apply Z.pow_gt_lin_r; lia).
  assert (wrapU w p = p) as Hwp by (apply wrapU_small; lia). simpl. rewrite Hwp.
  split; [|done]. split; [done|]. split; [|lia]. split; [lia|]. assert (64 < 2 ^ 64) by lia. lia.
Qed.

Lemma shiftLeaves_ok w env v ps : 0 < w → is_Some (env !! v) → (∀ p, p ∈ ps → 0 ≤ p < w ∧ p < 64) → ∀ id,
  let vals := shiftLeaves id v ps in
  length vals = length ps ∧ Forall (computable w env) vals ∧ Forall (λ t, adderChain t = 0) vals
  ∧ Forall (λ t, summands t = 1) vals ∧ NoDup (concat (map ids vals))
  ∧ (∀ i, i ∈ concat (map ids vals) → (id <= i < id + length ps)%nat)
  ∧ wrapU w (total (map (denote w env) vals)) = wrapU w (default 0 (env !! v) * total (map (λ p, 2 ^ p) ps)).
Proof.
  intros Hw Hv Hps. induction ps as [|p ps IH]; intros id; simpl.
  - rewrite Z.mul_0_r. repeat split; try constructor; inversion H.
  - destruct (Hps p) as [Hp H64]; [by left|].
    destruct (IH (λ q Hq, Hps q (list_elem_of_further _ _ _ Hq)) (S id)) as (H1 & H2 & H3 & H4 & H5 & H6 & H7).
    destruct (shift_ok w env v p Hw Hp H64 Hv id) as [Hc Hd].
    set (leaf := if negb (p =? 0) then _ else _).
    assert (computable w env leaf ∧ adderChain leaf = 0 ∧ summands leaf = 1
      ∧ wrapU w (denote w env leaf) = wrapU w (default 0 (env !! v) * 2 ^ p)
      ∧ (ids leaf = [] ∨ ids leaf = [id])) as (L1 & L2 & L3 & L4 & L5).
    { unfold leaf. destruct (Z.eqb_spec p 0) as [->|]; simpl.
      - rewrite Z.mul_1_r. by auto 10.
      - split; [done|]. simpl in Hd. rewrite Hd, wrapU_twice. by auto 10. }
    split; [by rewrite H1|]. do 3 (split; [by constructor|]).
    split; [|split].
    + destruct L5 as [-> | ->]; simpl; [done|]. apply list.NoDup_cons. split; [|done].
      intros Hi%H6. lia.
    + intros i. rewrite elem_of_app. intros [Hi|Hi%H6]; [|lia]. destruct L5 as [E|E]; rewrite E in Hi; [by inversion Hi|].
      apply list_elem_of_singleton in Hi as ->. lia.
    + rewrite <-wrapU_add, L4, H7, wrapU_add. f_equal. lia.
Qed.

(** ** The number of additions in sequence *)

Lemma treeDepth_log2_up n : 0 < n < 256 →
  (if isPowerOf2 (apint_make 8 n false) then logBase2 (apint_make 8 n false)
   else logBase2 (apint_make 8 n false) + 1) = Z.log2_up n.
Proof.
  intros Hn. assert (apint_uval (apint_make 8 n false) = n) as Hu by (apply apint_make_unsigned; lia).
  rewrite logBase2_ok by (rewrite Hu; lia). rewrite Hu.
  destruct (isPowerOf2 (apint_make 8 n false)) eqn:Hp.
  - apply isPowerOf2_ok in Hp as (k & Hk & E). apply Z.log2_log2_up_exact; [lia|]. exists k. lia.
  - pose proof (Z.le_log2_log2_up n). pose proof (Z.le_log2_up_succ_log2 n).
    destruct (decide (Z.log2 n = Z.log2_up n)) as [E|]; [|lia].
    apply Z.log2_log2_up_exact in E as [k E]; [|lia].
    assert (isPowerOf2 (apint_make 8 n false) = true); [|congruence].
    apply isPowerOf2_ok. exists k. rewrite Hu. split; [|done].
    destruct (decide (0 ≤ k)); [done|]. rewrite Z.pow_neg_r in E by lia. lia.
Qed.

(** The assertion on the number of additions of leaves never fails. *)
Lemma leafAdders_ok n : 1 < n < 256 →
  let leafAdders := if isPowerOf2 (apint_make 8 n false) then Z.shiftr n 1
                    else n - Z.shiftl 1 (logBase2 (apint_make 8 n false)) in
  (0 <? leafAdders) && (leafAdders <=? Z.shiftl 1 (Z.log2_up n - 1)) = true.
Proof.
  intros Hn. assert (apint_uval (apint_make 8 n false) = n) as Hu by (apply apint_make_unsigned; lia).
  pose proof (treeDepth_log2_up n ltac:(lia)) as Hk. rewrite logBase2_ok in * by (rewrite Hu; lia). rewrite Hu in *.
  assert (0 < Z.log2_up n) as Hpos by (apply Z.log2_up_pos; lia).
  assert (0 < Z.log2 n) as Hpos' by (apply Z.log2_pos; lia).
  pose proof (Z.log2_spec n ltac:(lia)) as Hlog.
  rewrite !Z.shiftl_mul_pow2, !Z.mul_1_l by lia. rewrite andb_true_iff, Z.ltb_lt, Z.leb_le.
  destruct (isPowerOf2 (apint_make 8 n false)) eqn:Hp.
  - apply isPowerOf2_ok in Hp as (k & Hk0 & E). rewrite Hu in E. subst n. rewrite Z.log2_pow2 in * by done.
    rewrite <-Hk, Z.shiftr_div_pow2 by lia.
    assert (2 ^ k = 2 ^ (k - 1) * 2 ^ 1) as -> by (rewrite <-Z.pow_add_r by lia; f_equal; lia).
    rewrite Z.div_mul by done. lia.
  - rewrite <-Hk. replace (Z.log2 n + 1 - 1) with (Z.log2 n) by lia. unfold Z.succ in Hlog.
    rewrite Z.pow_add_r in Hlog by lia. change (2 ^ 1) with 2 in Hlog.
    destruct (decide (n = 2 ^ Z.log2 n)) as [E|]; [|lia].
    assert (isPowerOf2 (apint_make 8 n false) = true); [|congruence].
    apply isPowerOf2_ok. exists (Z.log2 n). rewrite Hu. split; [lia|done].
Qed.

(** What the tree of a positive constant is. *)
Definition multiplies (w : Z) (env : Env) (v : Value) (c k : Z) (t : OpTreeOperand) : Prop :=
  isTree t ∧ NoDup (ids t) ∧ computable w env t ∧ adderChain t = k
  ∧ denote w env t = wrapU w (default 0 (env !! v) * c).

Lemma bitPositions_ok w c : 0 < w ≤ 64 → 0 < c → 2 * c < 2 ^ w →
  total (map (λ p, 2 ^ p) (getOneBitPositions c)) = c
  ∧ (∀ p, p ∈ getOneBitPositions c → 0 ≤ p < w ∧ p < 64)
  ∧ 0 < Z.of_nat (length (getOneBitPositions c)) < 256.
Proof.
  intros Hw Hc Hhalf. assert (2 ^ w ≤ 2 ^ 64) as Hw64 by (apply Z.pow_le_mono_r; lia).
  unfold getOneBitPositions.
  assert (total (map (λ p, 2 ^ p) (oneBitPositionsFrom 64 0 c)) = c) as Htot
    by (rewrite oneBits_total; [lia|lia|change (Z.of_nat 64) with 64; lia]).
  pose proof (oneBits_length 64 0 c) as Hl. pose proof (oneBits_range 64 0 c) as Hr. revert Htot Hl Hr.
  generalize (oneBitPositionsFrom 64 0 c) as ps. intros ps Htot Hl Hr. split; [done|]. split.
  - assert (∀ p, p ∈ ps → 0 ≤ p) as Hnn by (intros p Hp%Hr; lia).
    intros p Hp. pose proof (total_term ps p Hp Hnn) as Ht. rewrite Htot in Ht.
    assert (p < w); [|split; [split; [by apply Hnn|done]|lia]].
    destruct (decide (p < w)); [done|]. assert (2 ^ w ≤ 2 ^ p) by (apply Z.pow_le_mono_r; lia). lia.
  - split; [|lia]. destruct ps; [simpl in Htot; lia|simpl; lia].
Qed.

(** The additions in sequence that the product by a constant takes. *)
Definition additionsFor (c : apint) : Z := Z.log2_up (Z.of_nat (length (getOneBitPositions (apint_uval c)))).

Lemma getBitwiseAdderTree_ok w env v cst max : 0 < w ≤ 64 → apint_width cst = w → 0 < apint_sval cst →
  is_Some (env !! v) → 
  if max <? additionsFor cst then getBitwiseAdderTree max cst v = Ok None
  else ∃ t, getBitwiseAdderTree max cst v = Ok (Some t) ∧ multiplies w env v (apint_uval cst) (additionsFor cst) t
    ∧ summands t = Z.of_nat (length (getOneBitPositions (apint_uval cst))).
Proof.
  intros Hw Hcw Hpos Hv. pose proof (apint_uval_range cst) as Hr. rewrite Hcw in Hr.
  assert (0 < apint_uval cst ∧ 2 * apint_uval cst < 2 ^ w) as [Hc0 Hhalf].
  { unfold apint_sval, wrapS in *. rewrite Hcw in *. rewrite (wrapU_small w (apint_uval cst)) in * by done.
    destruct (Z.ltb_spec (2 * apint_uval cst) (2 ^ w)); lia. }
  assert (2 ^ w ≤ 2 ^ 64) as Hw64 by (apply Z.pow_le_mono_r; lia).
  destruct (bitPositions_ok w (apint_uval cst) Hw Hc0 Hhalf) as (Htot & Hps & Hn).
  unfold getBitwiseAdderTree, additionsFor. rewrite getZExtValue_ok by lia. revert Htot Hps Hn.
  generalize (getOneBitPositions (apint_uval cst)) as ps. generalize (apint_uval cst) as c.
  intros c ps Htot Hps Hn. cbv zeta. rewrite treeDepth_log2_up by done.
  destruct (max <? Z.log2_up (Z.of_nat (length ps))); [done|].
  destruct (Z.eqb_spec (Z.log2_up (Z.of_nat (length ps))) 0) as [H0|H0].
  - apply Z.log2_up_null in H0. destruct ps as [|p [|]]; try (simpl in *; lia). simpl.
    destruct (Hps p) as [Hp H64]; [by left|]. eexists; split; [done|].
    destruct (shift_ok w env v p ltac:(lia) Hp H64 Hv 0) as [Hc Hd].
    split; [|done]. split; [done|]. split; [simpl; apply list.NoDup_singleton|]. split; [done|]. split; [done|].
    rewrite Hd. simpl in Htot. f_equal. lia.
  - assert (1 < Z.of_nat (length ps)) as Hn1.
    { destruct (decide (1 < Z.of_nat (length ps))); [done|]. by rewrite Z.log2_up_eqn0 in H0 by lia. }
    rewrite leafAdders_ok by lia. cbn [assert_ bind].
    destruct (shiftLeaves_ok w env v ps ltac:(lia) Hv Hps 0) as (H1 & H2 & H3 & H4 & H5 & H6 & H7).
    revert H1 H2 H3 H4 H5 H6 H7. generalize (shiftLeaves 0 v ps) as leaves. intros leaves H1 H2 H3 H4 H5 H6 H7.
    destruct (adderTree_ok w env (length leaves) (length leaves) leaves (Z.log2_up (Z.of_nat (length ps))))
      as (t & id' & -> & Hd & Hc & Hch & Hs & Htree & _ & Hnd & _); try done; try lia.
    { intros i Hi%H6. lia. } { apply Z.log2_up_nonneg. } { rewrite H1. apply Z.log2_up_spec. lia. }
    cbn [bind]. destruct Htree as [Htree Hden]; [lia|].
    exists t. split; [by destruct t|]. split; [|by rewrite Hs, H1]. split; [done|]. split; [done|]. split; [done|]. split.
    + apply Z.le_antisymm; [done|]. pose proof (summands_chain t) as Hsc. rewrite Hs, H1 in Hsc.
      apply Z.log2_up_le_pow2; [lia|done].
    + by rewrite Hden, Hd, H7, Htot.
Qed.

(** * The rewritten blocks *)

Lemma definingOp_split env blk v o : wfBlock env blk → definingOp blk v = Some o →
  o_result o = v ∧ ∃ pre post, ops blk = pre ++ o :: post ∧ v ∉ defs pre ∧ v ∉ defs post.
Proof.
  intros Hwf H. unfold definingOp in H. apply find_some in H as [Hin Hv%bool_decide_eq_true].
  split; [done|]. apply list_elem_of_In, list_elem_of_split in Hin as (pre & post & Hops).
  exists pre, post. split; [done|]. destruct Hwf as [Hnd _ _ _]. rewrite Hops in Hnd. unfold defs in *.
  rewrite map_app in Hnd. apply list.NoDup_app in Hnd as (_ & Hdis & Hnd).
  apply list.NoDup_cons in Hnd as [Hnot _]. subst v. split; [|done]. intros E. apply (Hdis _ E). by left.
Qed.

Lemma definingOp_in blk v o : definingOp blk v = Some o → o ∈ ops blk ∧ o_result o = v.
Proof.
  unfold definingOp. intros [Hin Hv%bool_decide_eq_true]%find_some. split; [by apply list_elem_of_In|done].
Qed.

(** The value of an operand that a constant defines. *)
Lemma constant_value env blk pre rest env1 v u t c y : wfBlock env blk → ops blk = pre ++ rest →
  run env pre = Ok env1 → definingOp blk v = Some (mkOp u t (arith_ConstantOp (IntegerAttr c))) →
  env1 !! v = Some y → y = apint_uval c.
Proof.
  intros [Hnd Hin _ _] Hops Hrun Hdef Hy. apply definingOp_in in Hdef as [Ho Hv]. simpl in Hv. subst u.
  assert (v ∈ defs (ops blk)) as Hvd by exact (defs_in _ _ Ho).
  destruct (run_defs _ _ _ _ _ _ Hrun Hy) as [He|Hp]; [by rewrite (Hin v Hvd) in He|].
  rewrite Hops in *. unfold defs in *. rewrite map_app in Hnd. apply list.NoDup_app in Hnd as (Hnd1 & Hdis & Hnd2).
  apply elem_of_app in Ho as [Ho|Ho].
  - rewrite (run_constant _ _ _ _ _ _ _ Hrun Hnd1 Ho) in Hy. congruence.
  - exfalso. apply (Hdis v Hp). exact (defs_in _ _ Ho).
Qed.

Lemma buildTree_operand anchor t tree blk v st' : isTree tree →
  buildTreeOperand anchor t tree (mkBuild blk ∅ ∅) = (v, st') → buildTree anchor t tree blk = Ok (v, building st').
Proof.
  destruct tree as [i op l r d a n| |]; try done. intros _. unfold buildTree, buildTreeRecursive.
  cbn [buildTreeOperand resultCache]. rewrite lookup_empty.
  destruct (buildTreeOperand anchor t l _) as [vl st1], (buildTreeOperand anchor t r st1) as [vr st2].
  destruct (createIn _ _ _ _) as [res st3]. by intros [= <- <-].
Qed.

Lemma buildTree_ok anchor t tree blk l1 x rest env : 0 < bitWidth t →
  holds anchor l1 (x :: rest) [] (used blk) blk → bounded env (nextValue blk) →
  isTree tree → computable (bitWidth t) env tree → NoDup (ids tree) →
  ∃ v news n env', buildTree anchor t tree blk = Ok (v, mkOpBlock (l1 ++ news ++ x :: rest) (used blk) n)
  ∧ (∀ u, u ∈ defs news → (nextValue blk <= u)%nat) ∧ (nextValue blk <= v)%nat
  ∧ run env news = Ok env' ∧ env' !! v = Some (denote (bitWidth t) env tree).
Proof.
  intros Hw Hh Hb Ht Hc Hnd.
  destruct (buildTreeOperand_ok anchor t l1 (x :: rest) (used blk) tree Hw (mkBuild blk ∅ ∅) [] env env)
    as (v & st' & news & env' & Hbuild & Hh' & Hrun & _ & _ & _ & Hv & _ & Hnews & Hnew & _); try done.
  exists v, news, (nextValue (building st')), env'. split; [|split; [done|split; [by apply Hnew|done]]].
  rewrite (buildTree_operand _ _ _ _ _ _ Ht Hbuild). destruct Hh' as (Hops & Hu & _).
  destruct (building st'); simpl in *. by subst.
Qed.

(** Constants that are factors have the width of the product. *)
Definition typedConstants (blk : OpBlock) : Prop :=
  ∀ v t c m t' l r, mkOp v t (arith_ConstantOp (IntegerAttr c)) ∈ ops blk →
    mkOp m t' (arith_MulIOp l r) ∈ ops blk → v = l ∨ v = r →
    apint_width c = bitWidth t' ∧ 0 < bitWidth t' ≤ 64.

Lemma getPosConstantOperand_ok blk v c : getPosConstantOperand blk v = Some c →
  ∃ u t, definingOp blk v = Some (mkOp u t (arith_ConstantOp (IntegerAttr c))) ∧ 0 < apint_sval c.
Proof.
  unfold getPosConstantOperand. destruct (definingOp blk v) as [[u t op]|]; [|done].
  destruct op as [attr| | | | | | | |]; try done. destruct attr; try done.
  destruct (isStrictlyPositive v0) eqn:Hp; [|done]. intros [= <-].
  exists u, t. split; [done|]. rewrite isStrictlyPositive_ok in Hp. by apply Z.ltb_lt.
Qed.

(** The factors: the constant, with its defining operation, and the other. *)
Lemma constantFactor_ok blk l r c v : constantFactor blk l r = Some (c, v) →
  ∃ k u t, (k = l ∧ v = r ∨ k = r ∧ v = l)
  ∧ definingOp blk k = Some (mkOp u t (arith_ConstantOp (IntegerAttr c))) ∧ 0 < apint_sval c.
Proof.
  unfold constantFactor. destruct (getPosConstantOperand blk l) as [c1|] eqn:H1.
  - intros [= <- <-]. apply getPosConstantOperand_ok in H1 as (u & t & ? & ?). exists l, u, t. auto.
  - destruct (getPosConstantOperand blk r) as [c2|] eqn:H2; [|done].
    intros [= <- <-]. apply getPosConstantOperand_ok in H2 as (u & t & ? & ?). exists r, u, t. auto.
Qed.

Lemma exec_mul env o t l r m env1 : exec env (mkOp m t (arith_MulIOp l r)) = Ok env1 → o = m →
  ∃ x y, env !! l = Some x ∧ env !! r = Some y ∧ env1 !! o = Some (wrapU (bitWidth t) (x * y)).
Proof.
  intros H ->. apply bind_ok in H as (xs & Hxs & H). apply bind_ok in Hxs as (x & Hx%of_option_ok & Hxs).
  apply bind_ok in Hxs as (ys & Hys & [= <-]). apply bind_ok in Hys as (y & Hy%of_option_ok & [= <-]).
  apply bind_ok in H as (z & [= <-] & [= <-]). exists x, y. split; [done|]. split; [done|]. apply lookup_insert_eq.
Qed.

Lemma run_bounded env blk pre rest env1 : wfBlock env blk → ops blk = pre ++ rest → run env pre = Ok env1 →
  bounded env1 (nextValue blk).
Proof.
  intros [_ _ Hf He] Hops Hrun v z Hv. destruct (run_defs _ _ _ _ _ _ Hrun Hv) as [H|H]; [by eapply He|].
  apply Hf. rewrite Hops. unfold defs in *. rewrite map_app. apply elem_of_app. by left.
Qed.

(** The tree of the other factor, in place of the product. *)
Lemma product_refines env blk mul t l r c v max tree new blk' : wfBlock env blk → typedConstants blk →
  definingOp blk mul = Some (mkOp mul t (arith_MulIOp l r)) → constantFactor blk l r = Some (c, v) →
  getBitwiseAdderTree max c v = Ok (Some tree) → buildTree mul t tree blk = Ok (new, blk') →
  refines other env blk (replaceOp mul new blk').
Proof.
  intros Hwf Htyped Hmul Hfac Htree Hbuild. rewrite replaceOp_replaces. intros zs Hres.
  destruct (definingOp_split _ _ _ _ Hwf Hmul) as (_ & pre & post & Hops & Hpre & _).
  destruct (constantFactor_ok _ _ _ _ _ Hfac) as (k & u & tc & Hk & Hdef & Hpos).
  destruct (definingOp_in _ _ _ Hdef) as [Hin Hu]. simpl in Hu. subst u.
  destruct (definingOp_in _ _ _ Hmul) as [Hinm _].
  destruct (Htyped _ _ _ _ _ _ _ Hin Hinm) as [Hcw Hw]; [naive_solver|].
  pose proof Hres as Hres'. unfold results in Hres'. rewrite Hops in Hres'.
  apply bind_ok in Hres' as (envf & Hrun & _). apply run_app_ok in Hrun as (env1 & Hrun & Hrest).
  apply run_cons in Hrest as (env2 & Hexec & _).
  destruct (exec_mul _ _ _ _ _ _ _ Hexec eq_refl) as (x & y & Hx & Hy & _).
  assert (is_Some (env1 !! v)) as Hv by (destruct Hk as [[_ ->]|[_ ->]]; by eexists).
  pose proof (getBitwiseAdderTree_ok (bitWidth t) env1 v c max Hw Hcw Hpos Hv) as Hspec.
  destruct (max <? _); [congruence|]. destruct Hspec as (tree' & Htree' & Hmult & _).
  rewrite Htree in Htree'. injection Htree' as <-. destruct Hmult as (Hist & Hnd & Hcomp & _ & Hden).
  pose proof (run_bounded _ _ _ _ _ Hwf Hops Hrun) as Hbound.
  destruct (buildTree_ok mul t tree blk pre (mkOp mul t (arith_MulIOp l r)) post env1 ltac:(lia))
    as (new' & news & n & env1' & Hbuild' & Hnews & Hnew & Hrun' & Hval); try done.
  { split; [done|]. split; [done|]. split; [apply (wf_fresh _ _ Hwf); apply (defs_in _ _ Hinm)|].
    rewrite app_nil_r. split; [done|]. eauto. }
  rewrite Hbuild in Hbuild'. injection Hbuild' as <- ->.
  apply (replace_refines other env blk pre [] (mkOp mul t (arith_MulIOp l r)) post news new n Hwf Hops Hnews); [|..|done].
  { intros E. pose proof (wf_fresh _ _ Hwf new) as F. rewrite Hops in F. specialize (F E). lia. }
  intros env1a Hrun1 env2a env3 [= <-] Hexec3. rewrite Hrun in Hrun1. injection Hrun1 as <-.
  exists env1'. split; [done|]. rewrite Hval, Hden.
  destruct (exec_mul _ _ _ _ _ _ _ Hexec3 eq_refl) as (x' & y' & Hx' & Hy' & Hz). simpl. rewrite Hz.
  do 2 f_equal. destruct Hk as [[-> ->]|[-> ->]].
  - rewrite (constant_value _ _ _ _ _ _ _ _ _ _ Hwf Hops Hrun Hdef Hx'), Hy'. simpl. lia.
  - rewrite (constant_value _ _ _ _ _ _ _ _ _ _ Hwf Hops Hrun Hdef Hy'), Hx'. done.
Qed.

(** C11.  On a well-formed block, [MulReduceStrength] ends. If it rewrites the
    product, the new block computes what the block computed, whatever its
    inputs; if it does not, neither factor is a positive constant, or its
    1-bits take more additions in sequence than allowed. *)
Theorem mulReduceStrength_correct env blk mul t l r max : wfBlock env blk → typedConstants blk →
  definingOp blk mul = Some (mkOp mul t (arith_MulIOp l r)) →
  match mulReduceStrength max mul blk with
  | Ok (Some blk') => refines other env blk blk'
  | Ok None => ∀ c v, constantFactor blk l r = Some (c, v) → max < additionsFor c
  | Bad _ => False
  end.
Proof.
  intros Hwf Htyped Hmul. unfold mulReduceStrength. rewrite Hmul.
  destruct (constantFactor blk l r) as [[c v]|] eqn:Hfac; [|done].
  destruct (constantFactor_ok _ _ _ _ _ Hfac) as (k & u & tc & Hk & Hdef & Hpos).
  destruct (definingOp_in _ _ _ Hdef) as [Hin Hu]. simpl in Hu. subst u.
  destruct (definingOp_in _ _ _ Hmul) as [Hinm _].
  destruct (Htyped _ _ _ _ _ _ _ Hin Hinm) as [Hcw Hw]; [naive_solver|].
  pose proof (getBitwiseAdderTree_ok (bitWidth t) {[v := 0]} v c max Hw Hcw Hpos) as Hspec.
  destruct (Z.ltb_spec max (additionsFor c)) as [Hlt|].
  - rewrite Hspec by (rewrite lookup_singleton_eq; by eexists). simpl. by intros c' v' [= <- <-].
  - destruct Hspec as (tree & Htree & (Hist & _) & _); [rewrite lookup_singleton_eq; by eexists|].
    rewrite Htree. cbn [bind]. destruct (buildTree mul t tree blk) as [[new blk']|] eqn:Hbuild.
    + cbn [bind]. by eapply product_refines.
    + unfold buildTree in Hbuild. destruct tree; try done. by destruct (buildTreeRecursive _ _ _ _ _ _).
Qed.

(** C38.  For a positive constant, the tree built for the product sums its 1-bits, with
    no more additions in sequence than are allowed and no more than any tree of that
    many terms has, and denotes the product.  When none is built, no tree of that many
    terms has few enough additions in sequence. *)
Theorem getBitwiseAdderTree_minimal w env v cst max : 0 < w ≤ 64 → apint_width cst = w → 0 < apint_sval cst →
  is_Some (env !! v) →
  let ones := Z.of_nat (length (getOneBitPositions (apint_uval cst))) in
  match getBitwiseAdderTree max cst v with
  | Ok (Some t) => adderChain t ≤ max ∧ summands t = ones ∧ (∀ t', summands t' = ones → adderChain t ≤ adderChain t')
      ∧ denote w env t = wrapU w (default 0 (env !! v) * apint_uval cst)
  | Ok None => ∀ t', summands t' = ones → max < adderChain t'
  | Bad _ => False
  end.
Proof.
  intros Hw Hcw Hpos Hv ones. pose proof (getBitwiseAdderTree_ok w env v cst max Hw Hcw Hpos Hv) as H.
  assert (∀ t', summands t' = ones → additionsFor cst ≤ adderChain t') as Hleast.
  { intros t' Ht'. unfold additionsFor. fold ones. rewrite <-Ht'. pose proof (summands_chain t') as Hs.
    apply Z.log2_up_le_mono in Hs. by rewrite Z.log2_up_pow2 in Hs by apply adderChain_nonneg. }
  destruct (Z.ltb_spec max (additionsFor cst)).
  - rewrite H. intros t' Ht'. specialize (Hleast t' Ht'). lia.
  - destruct H as (t & -> & (_ & _ & _ & Hch & Hden) & Hs). rewrite Hch. repeat split; done.
Qed.

End Thms.

#[local] Existing Instances Bits.lib Bits.flib Bits.laws.
#[local] Existing Instances referenceRewriter referenceRewriter_laws.

(** No other operation. *)
Definition no_other (_ : Operation) (_ : MLIRType) (_ : list Z) : res Z := Bad Unsupported.

Definition ten : apint := Bits.mk 32 10.

(** [x * 10] on 32 bits; [x] is value 0. *)
Definition times_ten : OpBlock :=
  mkOpBlock
    [mkOp 1 (IntegerType 32) (arith_ConstantOp (IntegerAttr ten));
     mkOp 2 (IntegerType 32) (arith_MulIOp 0 1)]
    [2%nat] 3.

Definition input : Env := {[0%nat := 7]}.

(** Splits membership in a concrete list. *)
Ltac by_elements := repeat match goal with
  | H : _ ∈ _ |- _ => cbn in H; rewrite ?elem_of_cons, ?elem_of_nil in H; destruct_or? H; try done; simplify_eq
  end.

Lemma times_ten_wf : wfBlock input times_ten.
Proof.
  split.
  - apply (bool_decide_unpack _). vm_compute. done.
  - intros v Hv. by_elements; done.
  - intros v Hv. by_elements; simpl; lia.
  - unfold input. intros v z [<- <-]%lookup_singleton_Some. simpl. lia.
Qed.

Lemma times_ten_typed : typedConstants times_ten.
Proof. intros v t c m t' l r Hv Hm Hlr. by_elements. split; [done|simpl; lia]. Qed.

(** 10 is [8 + 2]: the product becomes one addition of two shifts. *)
Lemma mulReduceStrength_correct_witness :
  (match mulReduceStrength 1 2 times_ten with
   | Ok (Some blk') => results no_other input blk' = Ok [70]
   | _ => False
   end)
  ∧ match mulReduceStrength 1 2 times_ten with
    | Ok (Some blk') => refines no_other input times_ten blk'
    | Ok None => ∀ c v, constantFactor times_ten 0 1 = Some (c, v) → 1 < additionsFor c
    | Bad _ => False
    end.
Proof.
  split; [reflexivity|].
  apply (mulReduceStrength_correct no_other input times_ten 2 (IntegerType 32) 0 1 1);
    [apply times_ten_wf|apply times_ten_typed|reflexivity].
Defined.

Lemma getBitwiseAdderTree_minimal_witness :
  is_ok (getBitwiseAdderTree 1 ten 0) = true ∧
  match getBitwiseAdderTree 1 ten 0 with
  | Ok (Some t) => adderChain t ≤ 1 ∧ summands t = 2 ∧ (∀ t', summands t' = 2 → adderChain t ≤ adderChain t')
      ∧ denote 32 input t = wrapU 32 (default 0 (input !! 0%nat) * apint_uval ten)
  | Ok None => ∀ t', summands t' = 2 → 1 < adderChain t'
  | Bad _ => False
  end.
Proof.
  split; [reflexivity|].
  apply (getBitwiseAdderTree_minimal 32 input 0%nat ten 1); [lia|reflexivity|reflexivity|by eexists].
Defined.
