(* ===== verification/LinearPrograms.v ===== *)
(** Linear programs as the passes write them (ConstraintProgramming.h and
    ConstraintProgramming.cpp): variables, linear and quadratic expressions with the
    operators that build them, constraints, and the state of a solver.  What a solver
    finds is a parameter of the passes; [feasible] is what its solutions satisfy.
    Coefficients are the rationals the doubles stand for; rounding is not modelled. *)

From stdpp Require Import strings gmap.
From Stdlib Require Import QArith Lqa.
From Stdlib Require String Ascii.
From S2P Require Import Prelude.

Inductive VarType := REAL | INTEGER | BOOLEAN.

(** [None] is an infinite bound. *)
Record CPVar := mkCPVar { varName : string; varType : VarType; lowerBound : option Q; upperBound : option Q }.

#[export] Instance VarType_eq_dec : EqDecision VarType.
Proof. solve_decision. Defined.
#[export] Instance Q_eq_dec : EqDecision Q.
Proof. solve_decision. Defined.
#[export] Instance CPVar_eq_dec : EqDecision CPVar.
Proof. solve_decision. Defined.

(** [isalnum(c) || c == '_'] *)
Definition isNameChar (c : Ascii.ascii) : bool :=
  let n := Ascii.nat_of_ascii c in
  ((48 <=? n) && (n <=? 57) || (65 <=? n) && (n <=? 90) || (97 <=? n) && (n <=? 122) || (n =? 95))%nat.

Definition CPVar_new (name : string) (type : VarType) (lb ub : option Q) : res CPVar :=
  if String.eqb name EmptyString || negb (forallb isNameChar (String.list_ascii_of_string name)) then Bad FatalError
  else Ok (mkCPVar name type lb ub).

(** The keys of the maps are compared by their names. *)
Record LinExpr := mkLinExpr { terms : gmap string Q; constant : Q }.

#[export] Instance LinExpr_eq_dec : EqDecision LinExpr.
Proof. solve_decision. Defined.

Definition LinExpr_empty : LinExpr := mkLinExpr ∅ 0.
Definition LinExpr_of (v : CPVar) : LinExpr := mkLinExpr {[ varName v := 1%Q ]} 0.
Definition LinExpr_const (value : Q) : LinExpr := mkLinExpr ∅ value.

(** [terms[key] += coeff] *)
Definition addTerm {K} `{Countable K} (key : K) (coeff : Q) (m : gmap K Q) : gmap K Q :=
  <[key := (default 0 (m !! key) + coeff)%Q]> m.
(** The loops over the terms of the other operand. *)
Definition addTerms {K} `{Countable K} (m other : gmap K Q) : gmap K Q :=
  foldl (λ m '(key, coeff), addTerm key coeff m) m (map_to_list other).
Definition subTerms {K} `{Countable K} (m other : gmap K Q) : gmap K Q :=
  foldl (λ m '(key, coeff), addTerm key (- coeff)%Q m) m (map_to_list other).

Definition LinExpr_neg (e : LinExpr) : LinExpr := mkLinExpr (Qopp <$> terms e) (- constant e).
Definition addVarConst (left : CPVar) (right : Q) : LinExpr := mkLinExpr (terms (LinExpr_of left)) right.
Definition subVarConst (left : CPVar) (right : Q) : LinExpr := mkLinExpr (terms (LinExpr_of left)) (- right).
Definition subConstVar (left : Q) (right : CPVar) : LinExpr := LinExpr_neg (subVarConst right left).
Definition mulVarConst (left : CPVar) (right : Q) : LinExpr :=
  let e := LinExpr_of left in
  mkLinExpr (<[varName left := (default 0 (terms e !! varName left) * right)%Q]> (terms e)) (constant e * right).
Definition addVarVar (left right : CPVar) : LinExpr :=
  mkLinExpr (addTerm (varName right) 1 (terms (LinExpr_of left))) 0.
Definition subVarVar (left right : CPVar) : LinExpr :=
  mkLinExpr (addTerm (varName right) (-1)%Q (terms (LinExpr_of left))) 0.
Definition addLinConst (left : LinExpr) (right : Q) : LinExpr := mkLinExpr (terms left) (constant left + right).
Definition addLin (left right : LinExpr) : LinExpr :=
  mkLinExpr (addTerms (terms left) (terms right)) (constant left + constant right).
Definition subLin (left right : LinExpr) : LinExpr :=
  mkLinExpr (subTerms (terms left) (terms right)) (constant left - constant right).
Definition scaleLin (c : Q) (e : LinExpr) : LinExpr := mkLinExpr (Qmult c <$> terms e) (constant e * c).

Record QuadExpr := mkQuadExpr { linexpr : LinExpr; quadTerms : gmap (string * string) Q }.

Definition QuadExpr_of (e : LinExpr) : QuadExpr := mkQuadExpr e ∅.

Definition makeSortedPair (a b : string) : string * string := if String.ltb a b then (a, b) else (b, a).

Definition mulLin (lhs rhs : LinExpr) : QuadExpr :=
  let quad := foldl (λ m '(l, lc), foldl (λ m '(r, rc), addTerm (makeSortedPair l r) (lc * rc)%Q m) m (map_to_list (terms rhs)))
    ∅ (map_to_list (terms lhs)) in
  let lin := foldl (λ m '(v, c), addTerm v (c * constant rhs)%Q m) ∅ (map_to_list (terms lhs)) in
  let lin := foldl (λ m '(v, c), addTerm v (c * constant lhs)%Q m) lin (map_to_list (terms rhs)) in
  mkQuadExpr (mkLinExpr lin (constant lhs * constant rhs)) quad.
Definition scaleQuad (lhs : Q) (rhs : QuadExpr) : QuadExpr :=
  mkQuadExpr (mkLinExpr ((λ c, (c * lhs)%Q) <$> terms (linexpr rhs)) (constant (linexpr rhs)))
    ((λ c, (c * lhs)%Q) <$> quadTerms rhs).
Definition addQuad (lhs rhs : QuadExpr) : QuadExpr :=
  mkQuadExpr (addLin (linexpr lhs) (linexpr rhs)) (addTerms (quadTerms lhs) (quadTerms rhs)).
Definition subQuad (lhs rhs : QuadExpr) : QuadExpr :=
  mkQuadExpr (subLin (linexpr lhs) (linexpr rhs)) (subTerms (quadTerms lhs) (quadTerms rhs)).

Inductive Predicate := LE | EQ.

(** The constraint [expr pred 0]. *)
Record TempConstr := mkTempConstr { expr : QuadExpr; pred : Predicate }.

#[export] Instance QuadExpr_eq_dec : EqDecision QuadExpr.
Proof. solve_decision. Defined.
#[export] Instance Predicate_eq_dec : EqDecision Predicate.
Proof. solve_decision. Defined.
#[export] Instance TempConstr_eq_dec : EqDecision TempConstr.
Proof. solve_decision. Defined.

Definition constrLe (lhs rhs : QuadExpr) : TempConstr := mkTempConstr (subQuad lhs rhs) LE.
Definition constrGe (lhs rhs : QuadExpr) : TempConstr := constrLe rhs lhs.
Definition constrEq (lhs rhs : QuadExpr) : TempConstr := mkTempConstr (subQuad lhs rhs) EQ.

(** The operators take linear expressions where quadratic ones are expected. *)
Definition linLe (lhs rhs : LinExpr) : TempConstr := constrLe (QuadExpr_of lhs) (QuadExpr_of rhs).
Definition linGe (lhs rhs : LinExpr) : TempConstr := constrGe (QuadExpr_of lhs) (QuadExpr_of rhs).
Definition linEq (lhs rhs : LinExpr) : TempConstr := constrEq (QuadExpr_of lhs) (QuadExpr_of rhs).

Inductive Status := OPTIMAL | NONOPTIMAL | INFEASIBLE | UNBOUNDED | UNKNOWN | ERROR | NOSOLUTION.

#[export] Instance Status_eq_dec : EqDecision Status.
Proof. solve_decision. Defined.

Record CPSolver := mkCPSolver {
  variables : list CPVar; constraints : list (string * TempConstr); maxObjective : LinExpr }.

#[export] Instance CPSolver_eq_dec : EqDecision CPSolver.
Proof. solve_decision. Defined.

Definition CPSolver_new : CPSolver := mkCPSolver [] [] LinExpr_empty.

Definition addVar (name : string) (type : VarType) (lb ub : option Q) (s : CPSolver) : res (CPVar * CPSolver) :=
  let* v := CPVar_new name type lb ub in
  if bool_decide (name ∈ map varName (variables s)) then Bad FatalError
  else Ok (v, mkCPSolver (variables s ++ [v]) (constraints s) (maxObjective s)).
Definition addConstr (c : TempConstr) (name : string) (s : CPSolver) : res CPSolver :=
  if bool_decide (quadTerms (expr c) = ∅) then Ok (mkCPSolver (variables s) (constraints s ++ [(name, c)]) (maxObjective s))
  else Bad FatalError.
Definition setMaximizeObjective (e : LinExpr) (s : CPSolver) : CPSolver := mkCPSolver (variables s) (constraints s) e.

(** * What expressions and constraints mean *)

Section Values.
Context (value : string → Q).

Definition weigh {K} (w : K → Q) (l : list (K * Q)) : Q := foldr (λ kc s, (snd kc * w (fst kc) + s)%Q) 0%Q l.
Definition evalTerms {K} `{Countable K} (w : K → Q) (m : gmap K Q) : Q := weigh w (map_to_list m).

Definition evalLin (e : LinExpr) : Q := evalTerms value (terms e) + constant e.
Definition evalQuad (e : QuadExpr) : Q := evalTerms (λ p, value (fst p) * value (snd p))%Q (quadTerms e) + evalLin (linexpr e).

Definition holds (c : TempConstr) : Prop :=
  match pred c with LE => (evalQuad (expr c) <= 0)%Q | EQ => (evalQuad (expr c) == 0)%Q end.

Definition isInteger (q : Q) : Prop := ∃ z, (q == inject_Z z)%Q.

Definition inBounds (v : CPVar) : Prop :=
  (∀ lb, lowerBound v = Some lb → (lb <= value (varName v))%Q) ∧ (∀ ub, upperBound v = Some ub → (value (varName v) <= ub)%Q).

Definition ofType (v : CPVar) : Prop :=
  match varType v with
  | REAL => True
  | INTEGER => isInteger (value (varName v))
  | BOOLEAN => (value (varName v) == 0)%Q ∨ (value (varName v) == 1)%Q
  end.

(** The values are a solution of the program. *)
Definition feasible (s : CPSolver) : Prop :=
  Forall (λ v, inBounds v ∧ ofType v) (variables s) ∧ Forall (λ c, holds (snd c)) (constraints s).

End Values.

(** The values are a solution, and none has a greater objective. *)
Definition optimal (s : CPSolver) (value : string → Q) : Prop :=
  feasible value s ∧ ∀ other, feasible other s → (evalLin other (maxObjective s) <= evalLin value (maxObjective s))%Q.

(** * The operators compute on expressions what they say *)

Section Eval.
Context {K : Type} `{Countable K} (w : K → Q).

Lemma weigh_app l l' : (weigh w (l ++ l') == weigh w l + weigh w l')%Q.
Proof. induction l as [|[k c] l IH]; simpl; [ring|]. rewrite IH. ring. Qed.

Lemma weigh_perm l l' : l ≡ₚ l' → (weigh w l == weigh w l')%Q.
Proof.
  induction 1 as [|[k c] l l' Hp IH|[k c] [k' c'] l|l l' l'' H1 IH1 H2 IH2]; simpl; [reflexivity| | |].
  - rewrite IH. reflexivity.
  - ring.
  - rewrite IH1. exact IH2.
Qed.

Lemma evalTerms_empty : evalTerms w ∅ = 0%Q.
Proof. unfold evalTerms. by rewrite map_to_list_empty. Qed.

Lemma evalTerms_insert m k c : m !! k = None → (evalTerms w (<[k := c]> m) == c * w k + evalTerms w m)%Q.
Proof. intros Hk. unfold evalTerms. rewrite (weigh_perm _ ((k, c) :: map_to_list m)); [reflexivity|]. by apply map_to_list_insert. Qed.

Lemma evalTerms_addTerm m k c : (evalTerms w (addTerm k c m) == c * w k + evalTerms w m)%Q.
Proof.
  unfold addTerm. destruct (m !! k) as [d|] eqn:Hk; simpl; [|rewrite evalTerms_insert by done; ring].
  assert (m = <[k := d]> (delete k m)) as Hm by (by rewrite insert_delete_id).
  rewrite <-insert_delete_eq, evalTerms_insert by apply lookup_delete_eq. rewrite Hm at 2.
  rewrite evalTerms_insert by apply lookup_delete_eq. ring.
Qed.

(** The loops that add terms to a map. *)
Lemma evalTerms_fold {X} (key : X → K) (coeff : X → Q) l : ∀ m,
  (evalTerms w (foldl (λ m x, addTerm (key x) (coeff x) m) m l) ==
   evalTerms w m + foldr (λ x s, coeff x * w (key x) + s) 0 l)%Q.
Proof.
  induction l as [|x l IH]; intros m; simpl; [ring|]. rewrite IH, evalTerms_addTerm. ring.
Qed.

Lemma foldl_pair {X Y S} (h : S → X → Y → S) l s : foldl (λ s '(x, y), h s x y) s l = foldl (λ s p, h s p.1 p.2) s l.
Proof. revert s. induction l as [|[x y] l IH]; intros s; simpl; auto. Qed.

Lemma evalTerms_addTerms m m' : (evalTerms w (addTerms m m') == evalTerms w m + evalTerms w m')%Q.
Proof. unfold addTerms. rewrite foldl_pair, (evalTerms_fold fst snd). reflexivity. Qed.

Lemma weigh_scale (h : Q → Q) (z : Q) l :
  (∀ c, h c == z * c)%Q → (foldr (λ kc s, h (snd kc) * w (fst kc) + s) 0 l == z * weigh w l)%Q.
Proof. intros Hh. induction l as [|[k c] l IH]; simpl; [ring|]. rewrite IH, Hh. ring. Qed.

Lemma evalTerms_subTerms m m' : (evalTerms w (subTerms m m') == evalTerms w m - evalTerms w m')%Q.
Proof.
  unfold subTerms. rewrite foldl_pair, (evalTerms_fold fst (λ p, - snd p)%Q), (weigh_scale Qopp (-1)); [|intros; ring].
  unfold evalTerms. ring.
Qed.

Lemma evalTerms_fmap (h : Q → Q) (z : Q) m : (∀ c, h c == z * c)%Q → (evalTerms w (h <$> m) == z * evalTerms w m)%Q.
Proof.
  intros Hh. unfold evalTerms. rewrite map_to_list_fmap, <-(weigh_scale h) by done.
  induction (map_to_list m) as [|[k c] l IH]; simpl; [reflexivity|]. rewrite IH. reflexivity.
Qed.

Lemma subTerms_empty (m : gmap K Q) : subTerms m ∅ = m.
Proof. unfold subTerms. by rewrite map_to_list_empty. Qed.

End Eval.

Section Operators.
Context (value : string → Q).
Notation "⟦ e ⟧" := (evalLin value e).

Lemma eval_var v : (⟦ LinExpr_of v ⟧ == value (varName v))%Q.
Proof. unfold evalLin, LinExpr_of; simpl. rewrite <-insert_empty, evalTerms_insert, evalTerms_empty by done. ring. Qed.

Lemma eval_const q : (⟦ LinExpr_const q ⟧ == q)%Q.
Proof. unfold evalLin; simpl. rewrite evalTerms_empty. ring. Qed.

Lemma eval_empty : (⟦ LinExpr_empty ⟧ == 0)%Q.
Proof. unfold evalLin; simpl. rewrite evalTerms_empty. ring. Qed.

Lemma eval_neg e : (⟦ LinExpr_neg e ⟧ == - ⟦ e ⟧)%Q.
Proof. unfold evalLin; simpl. rewrite (evalTerms_fmap _ _ (-1)) by (intros; ring). ring. Qed.

Lemma eval_addLin e f : (⟦ addLin e f ⟧ == ⟦ e ⟧ + ⟦ f ⟧)%Q.
Proof. unfold evalLin; simpl. rewrite evalTerms_addTerms. ring. Qed.

Lemma eval_subLin e f : (⟦ subLin e f ⟧ == ⟦ e ⟧ - ⟦ f ⟧)%Q.
Proof. unfold evalLin; simpl. rewrite evalTerms_subTerms. ring. Qed.

Lemma eval_scaleLin c e : (⟦ scaleLin c e ⟧ == c * ⟦ e ⟧)%Q.
Proof. unfold evalLin; simpl. rewrite (evalTerms_fmap _ _ c) by (intros; reflexivity). ring. Qed.

Lemma eval_addLinConst e c : (⟦ addLinConst e c ⟧ == ⟦ e ⟧ + c)%Q.
Proof. unfold evalLin; simpl. ring. Qed.

Lemma eval_addVarConst v c : (⟦ addVarConst v c ⟧ == value (varName v) + c)%Q.
Proof. rewrite <-(eval_var v). unfold evalLin; simpl. ring. Qed.

Lemma eval_subConstVar c v : (⟦ subConstVar c v ⟧ == c - value (varName v))%Q.
Proof. unfold subConstVar. rewrite eval_neg, <-(eval_var v). unfold evalLin; simpl. ring. Qed.

Lemma eval_mulVarConst v c : (⟦ mulVarConst v c ⟧ == c * value (varName v))%Q.
Proof.
  unfold evalLin, mulVarConst; simpl. rewrite lookup_singleton_eq, insert_singleton_eq. simpl.
  rewrite <-insert_empty, evalTerms_insert, evalTerms_empty by done. ring.
Qed.

Lemma eval_addVarVar u v : (⟦ addVarVar u v ⟧ == value (varName u) + value (varName v))%Q.
Proof. unfold addVarVar. rewrite <-(eval_var u). unfold evalLin; simpl. rewrite evalTerms_addTerm. ring. Qed.

Lemma eval_subVarVar u v : (⟦ subVarVar u v ⟧ == value (varName u) - value (varName v))%Q.
Proof. unfold subVarVar. rewrite <-(eval_var u). unfold evalLin; simpl. rewrite evalTerms_addTerm. ring. Qed.

Lemma eval_addQuad e f : (evalQuad value (addQuad e f) == evalQuad value e + evalQuad value f)%Q.
Proof. unfold evalQuad; simpl. rewrite evalTerms_addTerms, eval_addLin. ring. Qed.

Lemma eval_subQuad e f : (evalQuad value (subQuad e f) == evalQuad value e - evalQuad value f)%Q.
Proof. unfold evalQuad; simpl. rewrite evalTerms_subTerms, eval_subLin. ring. Qed.

Lemma eval_QuadExpr_of e : (evalQuad value (QuadExpr_of e) == ⟦ e ⟧)%Q.
Proof. unfold evalQuad; simpl. rewrite evalTerms_empty. ring. Qed.

(** The product by a number keeps the constant of the linear part as it is. *)
Lemma eval_scaleQuad c e :
  (evalQuad value (scaleQuad c e) == c * evalQuad value e - (c - 1) * constant (linexpr e))%Q.
Proof.
  unfold evalQuad, evalLin; simpl. rewrite !(evalTerms_fmap _ _ c) by (intros; ring). ring.
Qed.

Lemma pair_value a b : (value (fst (makeSortedPair a b)) * value (snd (makeSortedPair a b)) == value a * value b)%Q.
Proof. unfold makeSortedPair. destruct (String.ltb a b); simpl; ring. Qed.

Lemma eval_mulLin e f : (evalQuad value (mulLin e f) == ⟦ e ⟧ * ⟦ f ⟧)%Q.
Proof.
  set (w := λ p : string * string, (value (fst p) * value (snd p))%Q).
  assert (∀ l lc fl m, evalTerms w (foldl (λ m '(r, rc), addTerm (makeSortedPair l r) (lc * rc)%Q m) m fl)
            == evalTerms w m + lc * value l * weigh value fl)%Q as Hin.
  { intros l lc fl m. rewrite foldl_pair, (evalTerms_fold w (λ p, makeSortedPair l (fst p)) (λ p, lc * snd p)%Q).
    enough (foldr (λ x s, lc * snd x * w (makeSortedPair l (fst x)) + s) 0 fl == lc * value l * weigh value fl)%Q as -> by ring.
    induction fl as [|[r rc] fl IH]; simpl; [ring|]. rewrite IH. unfold w. rewrite pair_value. ring. }
  assert (∀ el fl m, evalTerms w (foldl (λ m '(l, lc), foldl (λ m '(r, rc), addTerm (makeSortedPair l r) (lc * rc)%Q m) m fl) m el)
            == evalTerms w m + weigh value el * weigh value fl)%Q as Hout.
  { induction el as [|[l lc] el IH]; intros fl m; simpl; [ring|]. rewrite IH, Hin. ring. }
  assert (∀ (z : Q) l m, evalTerms value (foldl (λ m '(v, c), addTerm v (c * z)%Q m) m l)
            == evalTerms value m + z * weigh value l)%Q as Hl.
  { intros z l m. rewrite foldl_pair, (evalTerms_fold value fst (λ p, snd p * z)%Q).
    rewrite (weigh_scale value (λ c, c * z)%Q z) by (intros; ring). ring. }
  unfold evalQuad, mulLin, evalLin; simpl. fold w. rewrite Hout, !Hl, !evalTerms_empty. unfold evalTerms. ring.
Qed.

Lemma linLe_holds e f : holds value (linLe e f) ↔ (⟦ e ⟧ <= ⟦ f ⟧)%Q.
Proof. unfold holds; simpl. rewrite eval_subQuad, !eval_QuadExpr_of. split; lra. Qed.

Lemma linGe_holds e f : holds value (linGe e f) ↔ (⟦ f ⟧ <= ⟦ e ⟧)%Q.
Proof. apply linLe_holds. Qed.

Lemma linEq_holds e f : holds value (linEq e f) ↔ (⟦ e ⟧ == ⟦ f ⟧)%Q.
Proof. unfold holds; simpl. rewrite eval_subQuad, !eval_QuadExpr_of. split; lra. Qed.

End Operators.

Lemma lin_no_quad e f : quadTerms (expr (linLe e f)) = ∅ ∧ quadTerms (expr (linGe e f)) = ∅ ∧ quadTerms (expr (linEq e f)) = ∅.
Proof. simpl. by rewrite subTerms_empty. Qed.

(** * Programs that are built step by step *)

(** What a step adds to a program: its solutions are those of before that satisfy [P]. *)
Definition restricts (s s' : CPSolver) (P : (string → Q) → Prop) : Prop :=
  ∀ value, feasible value s' ↔ feasible value s ∧ P value.

Lemma restricts_trans s s' s'' P P' P'' : restricts s s' P → restricts s' s'' P' → (∀ value, P'' value ↔ P value ∧ P' value) →
  restricts s s'' P''.
Proof. intros H H' HP value. rewrite (H' value), (H value), (HP value). tauto. Qed.

(** Names and objective of the program after a step that adds variables [names] and leaves the objective. *)
Definition extends (s s' : CPSolver) (names : list string) : Prop :=
  map varName (variables s') = map varName (variables s) ++ names ∧ maxObjective s' = maxObjective s.

Lemma extends_refl s : extends s s [].
Proof. split; [by rewrite app_nil_r|done]. Qed.

Lemma extends_trans s s' s'' l l' : extends s s' l → extends s' s'' l' → extends s s'' (l ++ l').
Proof. intros [H1 H2] [H3 H4]. split; [by rewrite H3, H1, app_assoc|congruence]. Qed.

Lemma addConstr_lin c name s : quadTerms (expr c) = ∅ →
  ∃ s', addConstr c name s = Ok s' ∧ restricts s s' (λ value, holds value c) ∧ extends s s' [].
Proof.
  intros Hc. unfold addConstr. rewrite bool_decide_true by done. eexists. split; [done|]. split.
  - intros value. unfold feasible; simpl. rewrite Forall_app, Forall_singleton. tauto.
  - split; simpl; [by rewrite app_nil_r|done].
Qed.

Definition nameOk (name : string) : Prop :=
  name ≠ EmptyString ∧ Forall (λ c, isNameChar c = true) (String.list_ascii_of_string name).

Lemma CPVar_new_ok name type lb ub : nameOk name → CPVar_new name type lb ub = Ok (mkCPVar name type lb ub).
Proof.
  intros [Hn Hc]. unfold CPVar_new. destruct (String.eqb_spec name EmptyString); [done|]. simpl.
  destruct (forallb isNameChar (String.list_ascii_of_string name)) eqn:E; simpl; [done|].
  rewrite (proj2 (forallb_forall _ _)) in E; [done|]. intros c Hin. apply Forall_elem with (x := c) in Hc; [done|].
  by apply list_elem_of_In.
Qed.

Lemma addVar_ok name type lb ub s : nameOk name → name ∉ map varName (variables s) →
  ∃ s', addVar name type lb ub s = Ok (mkCPVar name type lb ub, s') ∧
    restricts s s' (λ value, inBounds value (mkCPVar name type lb ub) ∧ ofType value (mkCPVar name type lb ub)) ∧
    extends s s' [name].
Proof.
  intros Hn Hs. unfold addVar. rewrite CPVar_new_ok by done. simpl. rewrite bool_decide_false by done. eexists.
  split; [done|]. split.
  - intros value. unfold feasible; simpl. rewrite Forall_app, Forall_singleton. tauto.
  - split; simpl; [by rewrite map_app|done].
Qed.

(** A variable is added only under a new name. *)
Lemma addVar_inv name type lb ub s v s' : addVar name type lb ub s = Ok (v, s') →
  nameOk name ∧ name ∉ map varName (variables s).
Proof.
  unfold addVar, CPVar_new. destruct (String.eqb_spec name EmptyString); simpl; [done|].
  destruct (forallb isNameChar (String.list_ascii_of_string name)) eqn:E; simpl; [|done].
  case_bool_decide; [done|]. intros _. split; [split; [done|]|done]. apply Forall_elem. intros c Hc.
  by apply (proj1 (forallb_forall _ _) E), list_elem_of_In.
Qed.
