(* ===== verification/LpFormat.v ===== *)
(** The CBC and Gurobi back-ends (ConstraintProgramming.cpp): the linear program that the
    CBC back-end writes to a file, with the digits it keeps of every number, what its
    solution file says, and the statuses of both back-ends.  The solvers are parameters:
    CBC takes a file to a solution file, Gurobi a program to a status and values. *)

From stdpp Require Import strings gmap.
From Stdlib Require Import QArith Qround Qpower Lqa.
From Stdlib Require String.
From S2P Require Import LinearPrograms Prelude.

(** * Decimal numbers *)

(** The nearest integer, the even one of two. *)
Definition roundHalfEven (q : Q) : Z :=
  let f := Qfloor q in
  match (q - inject_Z f ?= 1 # 2)%Q with
  | Lt => f
  | Gt => f + 1
  | Eq => if Z.even f then f else f + 1
  end.

(** The largest exponent from [e] down whose power of ten is at most [q]. *)
Fixpoint exponentFrom (fuel : nat) (e : Z) (q : Q) : Z :=
  match fuel with
  | O => e
  | S fuel => if Qle_bool (Qpower 10 e) q then e else exponentFrom fuel (e - 1) q
  end.

(** The exponent of the first digit of a positive number. *)
Definition exponent10 (q : Q) : Z :=
  let hi := Z.log2 (Qnum q) + 1 in
  let lo := Z.log2 (Zpos (Qden q)) + 1 in
  exponentFrom (Z.to_nat (hi + lo)) hi q.

(** A positive number as a stream prints it by default, with six significant digits. *)
Definition sixDigits (q : Q) : Q :=
  let u := Qpower 10 (exponent10 q - 5) in
  (inject_Z (roundHalfEven (q / u)) * u)%Q.

(** A number printed with six decimals ([std::fixed], [%.6f]). *)
Definition sixDecimals (q : Q) : Q := (inject_Z (roundHalfEven (q * 1000000)) / 1000000)%Q.

(** * Files *)

Inductive Sense := AtMost | AtLeast | Equal.

Record LpRow := mkLpRow { rowTerms : list (string * Q); rowSense : Sense; rowRhs : Q }.

Record LpFile := mkLpFile {
  lpMaximize : list (string * Q); lpOffset : Q; lpRows : list LpRow; lpBinary : list string; lpGeneral : list string }.

#[export] Instance Sense_eq_dec : EqDecision Sense.
Proof. solve_decision. Defined.
#[export] Instance LpRow_eq_dec : EqDecision LpRow.
Proof. solve_decision. Defined.
#[export] Instance LpFile_eq_dec : EqDecision LpFile.
Proof. solve_decision. Defined.

(** [formatCoeffAndName], after the sign: a coefficient of 1 is left out. *)
Definition formatCoeff (coeff : Q) : Q := if Qle_bool 0 coeff then sixDigits coeff else (- sixDigits (- coeff))%Q.

(** Terms with coefficient 0 are skipped. *)
Definition writeTerms (m : gmap string Q) : list (string * Q) :=
  map (λ '(term, coeff), (term, formatCoeff coeff)) (List.filter (λ '(_, coeff), negb (Qeq_bool coeff 0)) (map_to_list m)).

(** [TempConstr::writeLp], of a constraint without quadratic terms: the constant goes to
    the other side. *)
Definition writeConstr (c : TempConstr) : LpRow :=
  let e := linexpr (expr c) in
  mkLpRow (writeTerms (terms e)) (match LinearPrograms.pred c with LE => AtMost | EQ => Equal end)
    (if negb (Qle_bool (constant e) 0) then - sixDecimals (constant e) else sixDecimals (- constant e)).

(** The bounds are written in the section of the constraints, those of a binary variable are not. *)
Definition writeBounds (v : CPVar) : list LpRow :=
  match varType v with
  | BOOLEAN => []
  | _ =>
      match upperBound v with Some ub => [mkLpRow [(varName v, 1%Q)] AtMost (sixDecimals ub)] | None => [] end ++
      match lowerBound v with Some lb => [mkLpRow [(varName v, 1%Q)] AtLeast (sixDecimals lb)] | None => [] end
  end.

Definition namesOf (type : VarType) (s : CPSolver) : list string :=
  map varName (filter (λ v, varType v = type) (variables s)).

(** The constant of the objective, after its terms. *)
Definition writeOffset (q : Q) : Q :=
  if Qeq_bool q 0 then 0%Q else if negb (Qle_bool q 0) then sixDecimals q else (- sixDecimals (- q))%Q.

(** [CbcSolver::writeLp] *)
Definition writeLp (s : CPSolver) : LpFile :=
  mkLpFile (writeTerms (terms (maxObjective s))) (writeOffset (constant (maxObjective s)))
    (map (λ c, writeConstr (snd c)) (constraints s) ++ concat (map writeBounds (variables s)))
    (namesOf BOOLEAN s) (namesOf INTEGER s).

(** ** What a file means, in the LP format *)

Section Meaning.
Context (value : string → Q).

Definition rowHolds (r : LpRow) : bool :=
  let lhs := weigh value (rowTerms r) in
  match rowSense r with
  | AtMost => Qle_bool lhs (rowRhs r)
  | AtLeast => Qle_bool (rowRhs r) lhs
  | Equal => Qeq_bool lhs (rowRhs r)
  end.

Definition isBit (q : Q) : bool := Qeq_bool q 0 || Qeq_bool q 1.
Definition isIntegral (q : Q) : bool := Qnum q mod Zpos (Qden q) =? 0.

(** A variable without a lower bound is not negative. *)
Definition lpFeasible (file : LpFile) : bool :=
  forallb (λ '(x, _), Qle_bool 0 (value x)) (lpMaximize file ++ concat (map rowTerms (lpRows file)))
  && forallb rowHolds (lpRows file)
  && forallb (λ x, isBit (value x)) (lpBinary file)
  && forallb (λ x, isIntegral (value x)) (lpGeneral file).

End Meaning.

(** The objective and every row has a term: other files are malformed. *)
Definition lpWellFormed (file : LpFile) : bool :=
  negb (bool_decide (lpMaximize file = []))
  && forallb (λ r, negb (bool_decide (rowTerms r = []))) (lpRows file).

(** * Solution files *)

(** The first line, and the names and values of the other lines. *)
Record SolFile := mkSolFile { statusLine : string; assignments : list (string * Q) }.

Definition containsText (sub s : string) : bool :=
  match String.index 0 sub s with Some _ => true | None => false end.

(** The status that [parseSolverOutput] reads from the first line. *)
Definition lineStatus (line : string) : Status :=
  if String.prefix "Optimal" line then OPTIMAL
  else if String.prefix "Infeasible" line then INFEASIBLE
  else if String.prefix "Unbounded" line then UNBOUNDED
  else if String.prefix "Stopped on" line && containsText "(no integer solution" line then NOSOLUTION
  else if String.prefix "Stopped on time" line then NONOPTIMAL
  else UNKNOWN.

(** [results[varName] = value], line by line. *)
Definition parseSolverOutput (sol : SolFile) : Status * gmap string Q :=
  (lineStatus (statusLine sol), foldl (λ m '(x, q), <[x := q]> m) ∅ (assignments sol)).

(** [CbcSolver::getValue]: a variable the file does not list is 0. *)
Definition getValue (results : gmap string Q) (x : string) : Q := default 0%Q (results !! x).

(** [CbcSolver::optimize]: the status and the values. *)
Definition CbcSolver_optimize (cbc : LpFile → SolFile) (s : CPSolver) : Status * (string → Q) :=
  let (status, results) := parseSolverOutput (cbc (writeLp s)) in (status, getValue results).

(** * Gurobi *)

Inductive GRBStatus :=
  GRB_OPTIMAL | GRB_SUBOPTIMAL | GRB_TIME_LIMIT | GRB_UNBOUNDED | GRB_INF_OR_UNBD | GRB_INFEASIBLE | GRB_OTHER.

(** The status and the number of solutions Gurobi ends with, and the values. *)
Definition GurobiSolver_optimize (gurobi : CPSolver → GRBStatus * nat * (string → Q)) (s : CPSolver)
    : Status * (string → Q) :=
  let '(status, solCount, value) := gurobi s in
  (match status with
   | GRB_OPTIMAL => OPTIMAL
   | GRB_SUBOPTIMAL | GRB_TIME_LIMIT => if (0 <? solCount)%nat then NONOPTIMAL else NOSOLUTION
   | GRB_UNBOUNDED | GRB_INF_OR_UNBD => UNBOUNDED
   | GRB_INFEASIBLE => INFEASIBLE
   | GRB_OTHER => ERROR
   end, value).

(** [CPSolver::SolverKind], but for [DEFAULT], which no extraction accepts. *)
Inductive SolverKind := GUROBI | CBC.

Definition optimize (gurobi : CPSolver → GRBStatus * nat * (string → Q)) (cbc : LpFile → SolFile) (kind : SolverKind)
    : CPSolver → Status * (string → Q) :=
  match kind with GUROBI => GurobiSolver_optimize gurobi | CBC => CbcSolver_optimize cbc end.

(** What is asked of the solvers: an answer they call optimal is a solution of what they
    were given, for CBC of a file it can read. *)
Definition gurobiExact (gurobi : CPSolver → GRBStatus * nat * (string → Q)) : Prop :=
  ∀ s count value, gurobi s = (GRB_OPTIMAL, count, value) → feasible value s.

Definition cbcExact (cbc : LpFile → SolFile) : Prop :=
  ∀ file, lpWellFormed file = true → fst (parseSolverOutput (cbc file)) = OPTIMAL →
    lpFeasible (getValue (snd (parseSolverOutput (cbc file)))) file = true.

(** * Numbers that are written as they are *)

Lemma roundHalfEven_int q z : (q == inject_Z z)%Q → roundHalfEven q = z.
Proof.
  intros Hq. unfold roundHalfEven. assert (Qfloor q = z) as -> by (rewrite Hq; apply Qfloor_Z).
  assert ((q - inject_Z z ?= 1 # 2) = Lt)%Q as ->; [|done]. apply (proj1 (Qlt_alt _ _)). rewrite Hq.
  unfold Qminus. rewrite Qplus_opp_r. done.
Qed.

Lemma sixDecimals_int q z : (q == inject_Z z)%Q → (sixDecimals q == q)%Q.
Proof.
  intros Hq. unfold sixDecimals. rewrite (roundHalfEven_int _ (z * 1000000)).
  - rewrite inject_Z_mult, <-Hq. field.
  - rewrite Hq, inject_Z_mult. reflexivity.
Qed.

Lemma exponentFrom_bound fuel q : ∀ e, exponentFrom fuel e q = e - Z.of_nat fuel ∨
  (Qpower 10 (exponentFrom fuel e q) <= q)%Q.
Proof.
  induction fuel as [|fuel IH]; intros e; cbn [exponentFrom]; [left; lia|].
  destruct (Qle_bool (Qpower 10 e) q) eqn:E; [right; by apply Qle_bool_iff|].
  destruct (IH (e - 1)) as [H|H]; [left; lia|by right].
Qed.

Lemma Qpower_10 e : 0 ≤ e → (Qpower 10 e == inject_Z (10 ^ e))%Q.
Proof. intros He. rewrite Zpower_Qpower by done. reflexivity. Qed.

Lemma exponent10_million q : (q < 1000000)%Q → exponent10 q ≤ 5.
Proof.
  intros Hq. unfold exponent10. set (hi := Z.log2 (Qnum q) + 1). set (lo := Z.log2 (Zpos (Qden q)) + 1).
  assert (0 ≤ hi ∧ 0 ≤ lo) as [Hhi Hlo] by (pose proof (Z.log2_nonneg (Qnum q)); pose proof (Z.log2_nonneg (Zpos (Qden q))); lia).
  destruct (exponentFrom_bound (Z.to_nat (hi + lo)) q hi) as [->|H]; [lia|].
  set (e := exponentFrom _ _ _) in *. destruct (Z.le_gt_cases e 5); [done|]. exfalso.
  rewrite Qpower_10 in H by lia.
  assert (inject_Z (10 ^ e) < inject_Z (10 ^ 6))%Q as H6 by (eapply Qle_lt_trans; [exact H|exact Hq]).
  rewrite <-Zlt_Qlt in H6. apply (Z.pow_lt_mono_r_iff 10) in H6; lia.
Qed.

Lemma sixDigits_int q z : (q == inject_Z z)%Q → z < 10 ^ 6 → (sixDigits q == q)%Q.
Proof.
  intros Hq Hz. unfold sixDigits. assert (exponent10 q ≤ 5) as He.
  { apply exponent10_million. rewrite Hq. change 1000000%Q with (inject_Z (10 ^ 6)). by rewrite <-Zlt_Qlt. }
  set (e := exponent10 q) in *. replace (e - 5) with (- (5 - e)) by lia. cbv zeta.
  assert (¬ (Qpower 10 (5 - e) == 0)%Q) as Hne by (by apply Qpower_not_0).
  rewrite (roundHalfEven_int _ (z * 10 ^ (5 - e))); rewrite inject_Z_mult, <-Qpower_10, <-Hq, Qpower_opp by lia; by field.
Qed.

Lemma formatCoeff_int q z : (q == inject_Z z)%Q → Z.abs z < 10 ^ 6 → (formatCoeff q == q)%Q.
Proof.
  intros Hq Hz. unfold formatCoeff. destruct (Qle_bool 0 q); [apply (sixDigits_int _ z); [done|lia]|].
  rewrite (sixDigits_int _ (- z)); [ring|by rewrite Hq, inject_Z_opp|lia].
Qed.

(** A written number may be another one: six digits of seven. *)
Lemma formatCoeff_rounds : (formatCoeff 1230002 == 1230000)%Q.
Proof. reflexivity. Qed.

(** * Programs that are written as they are *)

(** The values that give a coefficient: 1 for one variable, 0 for the others. *)
Definition unitAt (x y : string) : Q := if decide (y = x) then 1%Q else 0%Q.
Definition zeros (_ : string) : Q := 0%Q.

(** The numbers whose six digits are all their digits. *)
Definition short (q : Q) : Prop := ∃ z, (q == inject_Z z)%Q ∧ Z.abs z < 10 ^ 6.

#[export] Instance short_proper : Proper (Qeq ==> iff) short.
Proof. intros q q' Hq. unfold short. by setoid_rewrite Hq. Qed.

Record exactConstr (c : TempConstr) : Prop := {
  ec_linear : quadTerms (expr c) = ∅;
  ec_coeffs : ∀ x, short (evalQuad (unitAt x) (expr c) - evalQuad zeros (expr c));
  ec_constant : isInteger (evalQuad zeros (expr c));
  ec_term : ∃ v v', ¬ (evalQuad v (expr c) == evalQuad v' (expr c))%Q }.

Definition exactVar (v : CPVar) : Prop :=
  match varType v with
  | BOOLEAN => (∀ lb, lowerBound v = Some lb → (lb <= 0)%Q) ∧ (∀ ub, upperBound v = Some ub → (1 <= ub)%Q)
  | _ => (∀ lb, lowerBound v = Some lb → isInteger lb) ∧ (∀ ub, upperBound v = Some ub → isInteger ub)
  end.

Definition exactProgram (s : CPSolver) : Prop :=
  Forall exactVar (variables s) ∧ Forall (λ c, exactConstr (snd c)) (constraints s).

Lemma evalTerms_zeros m : (evalTerms zeros m == 0)%Q.
Proof. unfold evalTerms, zeros. induction (map_to_list m) as [|[x c] l IH]; simpl; [done|]. rewrite IH. ring. Qed.

Lemma evalTerms_unitAt x (m : gmap string Q) : (evalTerms (unitAt x) m == default 0 (m !! x))%Q.
Proof.
  induction m as [|y c m Hy IH] using map_ind; [by rewrite evalTerms_empty, lookup_empty|].
  rewrite evalTerms_insert, IH by done. unfold unitAt. case_decide as Hyx.
  - subst y. rewrite lookup_insert_eq, Hy. simpl. ring.
  - rewrite lookup_insert_ne by done. ring.
Qed.

Lemma evalQuad_linear value (e : QuadExpr) : quadTerms e = ∅ →
  (evalQuad value e == evalTerms value (terms (linexpr e)) + constant (linexpr e))%Q.
Proof. intros He. unfold evalQuad, evalLin. rewrite He, evalTerms_empty. ring. Qed.

Lemma exactConstr_terms c x q : exactConstr c → terms (linexpr (expr c)) !! x = Some q → short q.
Proof.
  intros [Hl Hc _ _] Hx. specialize (Hc x). rewrite !(evalQuad_linear _ _ Hl), evalTerms_zeros, evalTerms_unitAt, Hx in Hc.
  simpl in Hc. eapply short_proper; [|exact Hc]. ring.
Qed.

Lemma exactConstr_constant c : exactConstr c → isInteger (constant (linexpr (expr c))).
Proof.
  intros [Hl _ [z Hz] _]. rewrite (evalQuad_linear _ _ Hl), evalTerms_zeros in Hz. exists z. rewrite <-Hz. ring.
Qed.

Lemma weigh_written value m : (∀ x q, m !! x = Some q → short q) →
  (weigh value (writeTerms m) == evalTerms value m)%Q.
Proof.
  intros Hm. unfold evalTerms, writeTerms.
  assert (∀ x q, (x, q) ∈ map_to_list m → short q) as Hl by (intros x q Hin%elem_of_map_to_list; by eapply Hm).
  revert Hl. generalize (map_to_list m) as l. induction l as [|[x q] l IH]; intros Hl; simpl; [done|].
  specialize (IH (λ y p Hp, Hl y p ltac:(by right))). destruct (Qeq_bool q 0) eqn:E; simpl.
  - apply Qeq_bool_iff in E. rewrite IH, E. ring.
  - destruct (Hl x q ltac:(left)) as (z & Hq & Hz). rewrite IH, (formatCoeff_int q z) by done. done.
Qed.

Lemma written_none value m : writeTerms m = [] → (evalTerms value m == 0)%Q.
Proof.
  unfold evalTerms, writeTerms. generalize (map_to_list m) as l. induction l as [|[x q] l IH]; simpl; [done|].
  destruct (Qeq_bool q 0) eqn:E; simpl; [|done]. intros Hl. apply Qeq_bool_iff in E. rewrite IH, E by done. ring.
Qed.

Lemma writeConstr_holds value c : exactConstr c → rowHolds value (writeConstr c) = true → holds value c.
Proof.
  intros Hc. unfold rowHolds, writeConstr, holds. simpl. pose proof (evalQuad_linear value _ (ec_linear _ Hc)) as He.
  pose proof (weigh_written value _ (λ x q Hx, exactConstr_terms c x q Hc Hx)) as Hw.
  destruct (exactConstr_constant c Hc) as [z Hz]. set (k := constant (linexpr (expr c))) in *.
  assert ((if negb (Qle_bool k 0) then - sixDecimals k else sixDecimals (- k)) == - k)%Q as Hk.
  { destruct (negb _); [by rewrite (sixDecimals_int _ z)|]. rewrite (sixDecimals_int _ (- z)); [done|].
    by rewrite Hz, inject_Z_opp. }
  destruct (LinearPrograms.pred c); [intros H%Qle_bool_iff|intros H%Qeq_bool_iff]; rewrite Hw, Hk in H;
    rewrite He; fold k; lra.
Qed.

Lemma writeConstr_terms c : exactConstr c → rowTerms (writeConstr c) ≠ [].
Proof.
  intros Hc H. destruct (ec_term _ Hc) as (v & v' & Hne). apply Hne.
  rewrite !(evalQuad_linear _ _ (ec_linear _ Hc)). rewrite !(written_none _ _ H). done.
Qed.

Lemma isIntegral_isInteger q : isIntegral q = true → isInteger q.
Proof.
  unfold isIntegral, isInteger. intros H%Z.eqb_eq. exists (Qnum q / Zpos (Qden q)). unfold Qeq. simpl.
  rewrite Z.mul_1_r, Z.mul_comm. rewrite (Z.div_mod (Qnum q) (Zpos (Qden q))) at 1 by done. lia.
Qed.

Lemma writeBounds_hold value v : exactVar v → varType v ≠ BOOLEAN →
  (∀ r, r ∈ writeBounds v → rowHolds value r = true) → inBounds value v.
Proof.
  unfold exactVar, writeBounds. intros Hv Hb Hr.
  assert (∀ q z, (q == inject_Z z)%Q → (sixDecimals q == q)%Q) as Hd by (intros; by eapply sixDecimals_int).
  assert ((∀ lb, lowerBound v = Some lb → isInteger lb) ∧ (∀ ub, upperBound v = Some ub → isInteger ub)) as [Hl Hu]
    by (by destruct (varType v)).
  assert (∀ r, r ∈ match upperBound v with Some ub => [mkLpRow [(varName v, 1%Q)] AtMost (sixDecimals ub)] | None => [] end ++
      match lowerBound v with Some lb => [mkLpRow [(varName v, 1%Q)] AtLeast (sixDecimals lb)] | None => [] end →
      rowHolds value r = true) as Hr' by (by destruct (varType v)).
  split.
  - intros lb Hlb. destruct (Hl lb Hlb) as [z Hz]. rewrite Hlb in Hr'.
    specialize (Hr' _ (proj2 (elem_of_app _ _ _) (or_intror (list_elem_of_here _ _)))). unfold rowHolds in Hr'. simpl in Hr'.
    apply Qle_bool_iff in Hr'. rewrite (Hd _ z Hz) in Hr'. lra.
  - intros ub Hub. destruct (Hu ub Hub) as [z Hz]. rewrite Hub in Hr'.
    specialize (Hr' _ (proj2 (elem_of_app _ _ _) (or_introl (list_elem_of_here _ _)))). unfold rowHolds in Hr'. simpl in Hr'.
    apply Qle_bool_iff in Hr'. rewrite (Hd _ z Hz) in Hr'. lra.
Qed.

Lemma namesOf_elem v s : v ∈ variables s → varName v ∈ namesOf (varType v) s.
Proof. intros Hv. apply list_elem_of_fmap. exists v. split; [done|]. by apply list_elem_of_filter. Qed.

(** A solution of the file is one of the program. *)
Lemma writeLp_feasible value s : exactProgram s → lpFeasible value (writeLp s) = true → feasible value s.
Proof.
  intros [Hvars Hcs] H. unfold lpFeasible in H. simpl in H. rewrite !andb_true_iff, !forallb_forall in H.
  setoid_rewrite <-list_elem_of_In in H. destruct H as (((_ & Hrows) & Hbin) & Hgen).
  setoid_rewrite elem_of_app in Hrows. split; apply Forall_elem.
  - intros v Hv. pose proof (proj1 (Forall_elem _ _) Hvars v Hv) as Hx. unfold ofType.
    pose proof (namesOf_elem v s Hv) as Hn.
    assert (∀ r, r ∈ writeBounds v → rowHolds value r = true) as Hb.
    { intros r Hr. apply Hrows. right. apply list_elem_of_In, in_concat. exists (writeBounds v).
      split; [apply in_map, list_elem_of_In; done|by apply list_elem_of_In]. }
    destruct (varType v) eqn:E.
    + split; [apply writeBounds_hold; [done|congruence|done]|done].
    + split; [apply writeBounds_hold; [done|congruence|done]|]. by apply isIntegral_isInteger, Hgen.
    + specialize (Hbin _ Hn). unfold isBit in Hbin. apply orb_true_iff in Hbin. rewrite !Qeq_bool_iff in Hbin.
      split; [|done]. unfold exactVar in Hx. rewrite E in Hx. destruct Hx as [Hl Hu].
      split; [intros lb Hlb; specialize (Hl lb Hlb)|intros ub Hub; specialize (Hu ub Hub)]; destruct Hbin; lra.
  - intros c Hc. apply writeConstr_holds; [by apply (proj1 (Forall_elem _ _) Hcs)|]. apply Hrows. left.
    apply list_elem_of_fmap. eauto.
Qed.

Lemma writeLp_wellFormed s : exactProgram s → (∃ v v', ¬ (evalLin v (maxObjective s) == evalLin v' (maxObjective s))%Q) →
  lpWellFormed (writeLp s) = true.
Proof.
  intros [_ Hcs] (v & v' & Hne). unfold lpWellFormed. simpl. rewrite andb_true_iff, forallb_forall. split.
  - rewrite bool_decide_false; [done|]. intros H. apply Hne. unfold evalLin. by rewrite !(written_none _ _ H).
  - intros r Hr%list_elem_of_In. rewrite bool_decide_false; [done|]. apply elem_of_app in Hr as [Hr|Hr].
    + apply list_elem_of_fmap in Hr as (c & -> & Hc). apply writeConstr_terms. by apply (proj1 (Forall_elem _ _) Hcs).
    + apply list_elem_of_In, in_concat in Hr as (rows & Hrows & Hr). apply in_map_iff in Hrows as (u & <- & _).
      apply list_elem_of_In in Hr. unfold writeBounds in Hr.
      destruct (varType u), (upperBound u), (lowerBound u); simpl in Hr; set_solver.
Qed.

(** What an answer of the back-ends is worth. *)
Lemma optimize_feasible gurobi cbc kind s : gurobiExact gurobi → cbcExact cbc →
  (kind = CBC → exactProgram s ∧ ∃ v v', ¬ (evalLin v (maxObjective s) == evalLin v' (maxObjective s))%Q) →
  fst (optimize gurobi cbc kind s) = OPTIMAL → feasible (snd (optimize gurobi cbc kind s)) s.
Proof.
  intros Hg Hc Hs. destruct kind; simpl.
  - unfold GurobiSolver_optimize. destruct (gurobi s) as [[status count] value] eqn:E.
    destruct status; simpl; try done; [intros _; by eapply Hg|destruct (0 <? count)%nat; done..].
  - destruct (Hs eq_refl) as [Hx Ho]. unfold CbcSolver_optimize. intros Hst.
    specialize (Hc (writeLp s) (writeLp_wellFormed s Hx Ho)).
    apply writeLp_feasible; [done|]. by apply Hc.
Qed.
