(* ===== verification/CFDFC.v ===== *)
(** Choice-free circuits (CFDFC.h, CFDFC.cpp, and [getCFDFCs] of HandshakePlaceBuffers.cpp):
    their extraction with linear programs, the circuit of a cycle of blocks, and the unions
    of the circuits that share blocks. *)

From stdpp Require Import strings gmap pretty.
From Stdlib Require Import QArith.
From S2P Require Import CircuitIR CFG LSQGraph LinearPrograms Prelude.

(** An arch between two blocks, traversed [numTrans] times (StdProfiler.h). *)
Record ArchBB := mkArchBB { srcBB : nat; dstBB : nat; numTrans : Z; isBackEdge : bool }.

#[export] Instance ArchBB_eq_dec : EqDecision ArchBB.
Proof. solve_decision. Defined.

(** [SetVector::insert] *)
Definition setInsert {A} `{EqDecision A} (x : A) (l : list A) : list A := if decide (x ∈ l) then l else l ++ [x].
Definition setInsertAll {A} `{EqDecision A} (xs l : list A) : list A := foldl (λ l x, setInsert x l) l xs.

(** * The linear program of an extraction *)

(** Archs are known by their positions in the array that holds them; the map [archs]
    goes through them in that order, the map [bbs] in that of the blocks. *)
Record MILPVars := mkMILPVars { vArchs : list (nat * CPVar); vBBs : list (nat * CPVar); vNumExecs : CPVar }.

(** [vars.bbs[bb] = v] *)
Fixpoint insertBB (bb : nat) (v : CPVar) (l : list (nat * CPVar)) : list (nat * CPVar) :=
  match l with
  | [] => [(bb, v)]
  | (b, u) :: l => if (bb <? b)%nat then (bb, v) :: (b, u) :: l
                   else if (bb =? b)%nat then (bb, v) :: l else (b, u) :: insertBB bb v l
  end.

Definition bbName (bb : nat) : string := "sBB_" +:+ pretty bb.
Definition archName (a : ArchBB) : string := "sArc_" +:+ pretty (srcBB a) +:+ "_" +:+ pretty (dstBB a).

Definition maxNumTrans (archs : list ArchBB) : Z := foldl (λ m a, Z.max m (numTrans a)) 0 archs.

Definition initMILPVariables (archs : list ArchBB) (bbs : list nat) (s : CPSolver) : res (MILPVars * CPSolver) :=
  let* (vbbs, s) := foldM (λ '(vbbs, s) bb,
    let* (v, s) := addVar (bbName bb) BOOLEAN (Some 0%Q) (Some 1%Q) s in Ok (insertBB bb v vbbs, s)) ([], s) bbs in
  let* (varchs, s) := foldM (λ '(varchs, s) '(i, a),
    let* (v, s) := addVar (archName a) BOOLEAN (Some 0%Q) (Some 1%Q) s in Ok (varchs ++ [(i, v)], s))
    ([], s) (imap pair archs) in
  let* (numExecs, s) := addVar "varMaxExecs" INTEGER (Some 0%Q) (Some (inject_Z (maxNumTrans archs))) s in
  Ok (mkMILPVars varchs vbbs numExecs, s).

Definition bigM : Q := 10000.

Definition setObjective (vars : MILPVars) (s : CPSolver) : res CPSolver :=
  let numExecs := LinExpr_of (vNumExecs vars) in
  let* (objExpr, s) := foldM (λ '(objExpr, s) '(_, var),
    let* (times, s) := addVar ("numExec_times_" +:+ varName var) INTEGER (Some 0%Q) None s in
    let* s := addConstr (linLe (LinExpr_of times) numExecs) "" s in
    let* s := addConstr (linGe (LinExpr_of times) (subLin numExecs (scaleLin bigM (subConstVar 1 var)))) "" s in
    let* s := addConstr (linLe (LinExpr_of times) (mulVarConst var bigM)) "" s in
    Ok (addLin objExpr (LinExpr_of times), s)) (LinExpr_const 0, s) (vArchs vars) in
  Ok (setMaximizeObjective objExpr s).

Definition setEdgeConstraints (archs : list ArchBB) (vars : MILPVars) (maxExecs : Z) (s : CPSolver) : res CPSolver :=
  let* (backedgeConstraint, s) := foldM (λ '(back, s) '(i, var),
    let* a := at_ archs i in
    let name := "arch_" +:+ pretty (srcBB a) +:+ "_" +:+ pretty (dstBB a) in
    let* s := addConstr (linLe (LinExpr_of (vNumExecs vars))
        (addLin (mulVarConst var (inject_Z (numTrans a))) (scaleLin (inject_Z maxExecs) (subConstVar 1 var)))) name s in
    Ok (if isBackEdge a then addLin back (LinExpr_of var) else back, s)) (LinExpr_empty, s) (vArchs vars) in
  addConstr (linEq backedgeConstraint (LinExpr_const 1)) "oneBackedge" s.

Definition getPredArchVars (archs : list ArchBB) (bb : nat) (vars : MILPVars) : list CPVar :=
  omap (λ '(i, var), match archs !! i with Some a => if (dstBB a =? bb)%nat then Some var else None | None => None end)
    (vArchs vars).
Definition getSuccArchVars (archs : list ArchBB) (bb : nat) (vars : MILPVars) : list CPVar :=
  omap (λ '(i, var), match archs !! i with Some a => if (srcBB a =? bb)%nat then Some var else None | None => None end)
    (vArchs vars).

Definition sumVars (l : list CPVar) : LinExpr := foldl (λ e var, addLin e (LinExpr_of var)) LinExpr_empty l.

Definition setBBConstraints (archs : list ArchBB) (vars : MILPVars) (s : CPSolver) : res CPSolver :=
  foldM (λ s '(bb, varBB),
    let* s := addConstr (linEq (sumVars (getPredArchVars archs bb vars)) (LinExpr_of varBB)) ("in" +:+ pretty bb) s in
    addConstr (linEq (sumVars (getSuccArchVars archs bb vars)) (LinExpr_of varBB)) ("out" +:+ pretty bb) s) s (vBBs vars).

(** The program before it is solved. *)
Definition extractionModel (archs : list ArchBB) (bbs : list nat) : res (MILPVars * CPSolver) :=
  let* (vars, s) := initMILPVariables archs bbs CPSolver_new in
  let* s := setObjective vars s in
  let* s := setEdgeConstraints archs vars (maxNumTrans archs) s in
  let* s := setBBConstraints archs vars s in
  Ok (vars, s).

(** [static_cast<unsigned>(d)] *)
Definition toUnsigned (q : Q) : res Z :=
  let z := Z.quot (Qnum q) (Zpos (Qden q)) in if (0 <=? z) && (z <? 2 ^ 32) then Ok z else Bad Overflow.

(** What a solver answers: its status and, where there is one, the solution. *)
Notation Solver := (CPSolver → Status * (string → Q)).

(** The selected archs, the number of executions and the archs afterwards; [None] on failure. *)
Definition extractCFDFC (solve : Solver) (archs : list ArchBB) (bbs : list nat)
    : res (option (list nat * Z * list ArchBB)) :=
  let* (vars, s) := extractionModel archs bbs in
  let (status, value) := solve s in
  if negb (bool_decide (status = OPTIMAL)) then Ok None
  else
    let* numExecs := toUnsigned (value (varName (vNumExecs vars))) in
    if numExecs =? 0 then Ok (Some ([], 0, archs))
    else
      let selected := omap (λ '(i, var), if negb (Qle_bool (value (varName var)) 0) then Some i else None) (vArchs vars) in
      Ok (Some (selected, numExecs, imap (λ i a, if decide (i ∈ selected)
        then mkArchBB (srcBB a) (dstBB a) (wrapU 32 (numTrans a - numExecs)) (isBackEdge a) else a) archs)).

(** * The circuit of a cycle *)

(** [bufferOccupancy] and [channelOccupancy] are filled when buffers are placed. *)
Record CFDFC := mkCFDFC {
  cycle : list nat; units : list OpId; channels : list Value; backedges : list Value; numExecs : Z;
  bufferOccupancy : gmap OpId Q; channelOccupancy : gmap Value Q }.

Fixpoint findStart (uniqueBlocks : list nat) (archs : list ArchBB) : option nat :=
  match archs with
  | [] => None
  | a :: archs =>
      if decide (srcBB a ∈ uniqueBlocks) then Some (srcBB a)
      else
        let uniqueBlocks := srcBB a :: uniqueBlocks in
        if decide (dstBB a ∈ uniqueBlocks) then Some (dstBB a) else findStart (dstBB a :: uniqueBlocks) archs
  end.

(** One round of the loop that forms the cycle. *)
Definition followArch (archs : list ArchBB) (st : list nat * nat) : list nat * nat :=
  let '(cycle, currentBB) := st in
  match list_find (λ a, srcBB a = currentBB) archs with
  | Some (_, a) => (setInsert (dstBB a) cycle, dstBB a)
  | None => st
  end.

Definition formCycle (archs : list ArchBB) : res (list nat) :=
  match findStart [] archs with
  | None => Bad AssertFailed
  | Some startBB =>
      let cycle := fst (Nat.iter (length archs - 1) (followArch archs) ([startBB], startBB)) in
      let* _ := assert_ (length cycle =? length archs)%nat in Ok cycle
  end.

(** The blocks follow one another in the cycle: [isCFGCompliant], and the loop of the constructor. *)
Definition isCFGCompliant (cycle : list nat) (srcBB dstBB : nat) : bool := consecutive cycle srcBB dstBB.

Section Circuit.
Context (f : FuncOp) (fuel : nat).

(** A result of an operation of block [srcBB]: the channels and backedges with what it adds to them. *)
Definition addResultToCFDFC (backwardChannels : option (gset Value)) (cycle : list nat) (srcBB : nat)
    (st : list Value * list Value) (v : Value) : res (list Value * list Value) :=
  let '(channels, backedges) := st in
  let* user := singleUser f v in
  let* optBB := getLogicBB f user in
  match optBB with
  | None => Ok st
  | Some dstBB =>
      let withBackedge :=
        let* back := isCFDFCBackedge f fuel v in
        Ok (setInsert v channels, if back : bool then setInsert v backedges else backedges) in
      match backwardChannels with
      | Some backward =>
          if negb (bool_decide (dstBB ∈ cycle)) then Ok st
          else if negb (bool_decide (v ∈ backward)) then Ok (setInsert v channels, backedges)
          else Ok (if isCFGCompliant cycle srcBB dstBB then setInsert v channels else channels, setInsert v backedges)
      | None =>
          if negb (bool_decide (srcBB = dstBB)) then
            if consecutive cycle srcBB dstBB then withBackedge else Ok st
          else if (length cycle =? 1)%nat then withBackedge
          else
            let* (back, _) := isBackedgeOf f fuel v false in
            if negb back then Ok (setInsert v channels, backedges) else Ok st
      end
  end.

Definition CFDFC_new (archs : list ArchBB) (numExec : Z) (backwardChannels : option (gset Value)) : res CFDFC :=
  let* cycle := formCycle archs in
  let* (units, channels, backedges) := foldM (λ '(units, channels, backedges) '(i, op),
    match logicBB op with
    | None => Ok (units, channels, backedges)
    | Some srcBB =>
        if negb (bool_decide (srcBB ∈ cycle)) then Ok (units, channels, backedges)
        else
          let* (channels, backedges) :=
            foldM (addResultToCFDFC backwardChannels cycle srcBB) (channels, backedges) (results op) in
          Ok (setInsert i units, channels, backedges)
    end) ([], [], []) (imap pair (ops f)) in
  Ok (mkCFDFC cycle units channels backedges numExec ∅ ∅).

(** * All circuits of a function *)

(** The loop of [getCFDFCs]; [None] when an extraction fails. *)
Fixpoint extractLoop (solve : Solver) (firstCFDFC : bool) (backwardChannels : option (gset Value)) (bbs : list nat)
    (rounds : nat) (archs : list ArchBB) (cfdfcs : list CFDFC) : res (option (list CFDFC * list ArchBB)) :=
  match rounds with
  | O => Bad NoFuel
  | S rounds =>
      let* extracted := extractCFDFC solve archs bbs in
      match extracted with
      | None => Ok None
      | Some (selected, numExecs, archs') =>
          if numExecs =? 0 then Ok (Some (cfdfcs, archs'))
          else
            let* cf := CFDFC_new (omap (archs !!.) selected) numExecs backwardChannels in
            if firstCFDFC then Ok (Some (cfdfcs ++ [cf], archs'))
            else extractLoop solve firstCFDFC backwardChannels bbs rounds archs' (cfdfcs ++ [cf])
      end
  end.

Definition blocksOf (archs : list ArchBB) : list nat := foldl (λ bbs a, setInsert (dstBB a) (setInsert (srcBB a) bbs)) [] archs.

(** [backward] are the channels [findBackwardChannelPerCyclicRegion] finds, if the circuit is
    in fast token delivery. *)
Definition getCFDFCs (solve : Solver) (firstCFDFC ftd : bool) (backward : gset Value) (rounds : nat) (archs : list ArchBB)
    : res (option (list CFDFC)) :=
  let backwardChannels := if ftd && negb (bool_decide (backward = ∅)) then Some backward else None in
  let* r := extractLoop solve firstCFDFC backwardChannels (blocksOf archs) rounds archs [] in
  Ok (fst <$> r).

End Circuit.

(** * Unions of circuits *)

Record CFDFCUnion := mkCFDFCUnion {
  cfdfcs : list CFDFC; uBlocks : list nat; uUnits : list OpId; uChannels : list Value; uBackedges : list Value }.

Definition CFDFCUnion_new (l : list CFDFC) : CFDFCUnion :=
  foldl (λ u cf, mkCFDFCUnion (cfdfcs u ++ [cf]) (setInsertAll (cycle cf) (uBlocks u)) (setInsertAll (units cf) (uUnits u))
    (setInsertAll (channels cf) (uChannels u)) (setInsertAll (backedges cf) (uBackedges u))) (mkCFDFCUnion [] [] [] [] []) l.

Record DisjointSetInfo := mkDisjointSetInfo { parent : nat; rank : nat }.

Notation DisjointSets := (list DisjointSetInfo).

Definition setParent (i p : nat) (sets : DisjointSets) : DisjointSets := alter (λ s, mkDisjointSetInfo p (rank s)) i sets.
Definition setRank (i r : nat) (sets : DisjointSets) : DisjointSets := alter (λ s, mkDisjointSetInfo (parent s) r) i sets.

(** The loop of [find], which halves the path it follows. *)
Fixpoint find (steps : nat) (i : nat) (sets : DisjointSets) : res (nat * DisjointSets) :=
  match steps with
  | O => Bad NoFuel
  | S steps =>
      let* s := at_ sets i in
      if (parent s =? i)%nat then Ok (i, sets)
      else
        let* p := at_ sets (parent s) in
        find steps (parent p) (setParent i (parent p) sets)
  end.

Definition setUnion (steps : nat) (i j : nat) (sets : DisjointSets) : res DisjointSets :=
  let* (i, sets) := find steps i sets in
  let* (j, sets) := find steps j sets in
  if (i =? j)%nat then Ok sets
  else
    let* si := at_ sets i in
    let* sj := at_ sets j in
    let (top, sub) := if (rank si <? rank sj)%nat then (j, i) else (i, j) in
    let sets := setParent sub top sets in
    Ok (if (rank si =? rank sj)%nat then setRank i (S (rank si)) sets else sets).

(** The cycles have a block in common. *)
Definition shareBlock (cf cf' : CFDFC) : bool := existsb (λ bb, bool_decide (bb ∈ cycle cf')) (cycle cf).

(** [setIndices], a [std::set]. *)
Fixpoint insertSorted (i : nat) (l : list nat) : list nat :=
  match l with
  | [] => [i]
  | j :: l => if (i <? j)%nat then i :: j :: l else if (i =? j)%nat then j :: l else j :: insertSorted i l
  end.

(** The positions of the circuits of every union. *)
Definition disjointIndices (steps : nat) (l : list CFDFC) : res (list (list nat)) :=
  let numCFDFC := length l in
  let sets := map (λ idx, mkDisjointSetInfo idx 0) (seq 0 numCFDFC) in
  let* sets := foldM (λ sets i, foldM (λ sets j,
      let* ci := at_ l i in
      let* cj := at_ l j in
      if shareBlock ci cj then setUnion steps i j sets else Ok sets) sets (seq 0 i)) sets (seq 0 numCFDFC) in
  let* (setIndices, sets) := foldM (λ '(setIndices, sets) idx,
      let* (r, sets) := find steps idx sets in Ok (insertSorted r setIndices, sets)) ([], sets) (seq 0 numCFDFC) in
  let* (unions, _) := foldM (λ '(unions, sets) setIdx,
      let* (cfUnion, sets) := foldM (λ '(cfUnion, sets) idx,
          let* (r, sets) := find steps idx sets in Ok (if (r =? setIdx)%nat then cfUnion ++ [idx] else cfUnion, sets))
        ([], sets) (seq 0 numCFDFC) in
      Ok (unions ++ [cfUnion], sets)) ([], sets) setIndices in
  Ok unions.

Definition getDisjointBlockUnions (steps : nat) (l : list CFDFC) : res (list CFDFCUnion) :=
  let* unions := disjointIndices steps l in
  Ok (map (λ idxs, CFDFCUnion_new (omap (l !!.) idxs)) unions).
