(* ===== verification/CFDFCModel.v ===== *)
(** The linear program of an extraction (CFDFC.cpp): it can be built for every list of
    archs between distinct pairs of blocks, what its solutions are, and what one extraction
    gives: the archs a solution selects form cycles of blocks, with one backedge in all,
    and each was executed often enough. *)

From stdpp Require Import strings gmap pretty.
From Stdlib Require Import QArith Lqa.
From Stdlib Require String Ascii.
From S2P Require Import CFDFC LinearPrograms Prelude.

(** * Names *)

Notation chars := String.list_ascii_of_string.

Definition isDigit (c : Ascii.ascii) : Prop := (48 ≤ Ascii.nat_of_ascii c ≤ 57)%nat.

Lemma chars_append s s' : chars (s +:+ s') = chars s ++ chars s'.
Proof. induction s as [|c s IH]; simpl; [done|]. by f_equal. Qed.

Lemma chars_inj s s' : chars s = chars s' → s = s'.
Proof. intros H. by rewrite <-(String.string_of_list_ascii_of_string s), H, String.string_of_list_ascii_of_string. Qed.

Lemma pretty_N_char_digit x : (x < 10)%N → isDigit (pretty_N_char x).
Proof.
  intros H. assert (x = 0 ∨ x = 1 ∨ x = 2 ∨ x = 3 ∨ x = 4 ∨ x = 5 ∨ x = 6 ∨ x = 7 ∨ x = 8 ∨ x = 9)%N as Hx by lia.
  unfold isDigit. decompose [or] Hx; subst; vm_compute; lia.
Qed.

Lemma pretty_N_go_digits x : ∀ s, Forall isDigit (chars s) → Forall isDigit (chars (pretty_N_go x s)).
Proof.
  induction (N.lt_wf_0 x) as [x _ IH]. intros s Hs. destruct (decide (0 < x)%N).
  - rewrite pretty_N_go_step by done. apply IH; [apply N.div_lt; lia|]. simpl. constructor; [|done].
    apply pretty_N_char_digit. by apply N.mod_lt.
  - replace x with 0%N by lia. by rewrite pretty_N_go_0.
Qed.

Lemma pretty_digits (n : nat) : Forall isDigit (chars (pretty n)).
Proof.
  change (pretty n) with (pretty (N.of_nat n)). unfold pretty, pretty_N. case_decide; [|by apply pretty_N_go_digits].
  simpl. repeat constructor; vm_compute; lia.
Qed.

Lemma split_digits (l1 l2 r1 r2 : list Ascii.ascii) c : ¬ isDigit c → Forall isDigit l1 → Forall isDigit l2 →
  l1 ++ c :: r1 = l2 ++ c :: r2 → l1 = l2 ∧ r1 = r2.
Proof.
  intros Hc H1. revert l2. induction H1 as [|d l1 Hd _ IH]; intros l2 H2 H; destruct H2 as [|e l2 He H2]; simpl in H.
  - by injection H.
  - injection H as <- _. done.
  - injection H as -> _. done.
  - injection H as -> H. apply IH in H as [-> ->]; done.
Qed.

Lemma archName_inj a b : archName a = archName b → srcBB a = srcBB b ∧ dstBB a = dstBB b.
Proof.
  intros H. unfold archName in H. apply (f_equal chars) in H. rewrite !chars_append in H. simpl in H. injection H as H.
  destruct (λ Hc, split_digits _ _ _ _ _ Hc (pretty_digits _) (pretty_digits _) H) as [H1 H2]; [unfold isDigit; vm_compute; lia|].
  split; apply (inj (pretty : nat → string)); by apply chars_inj.
Qed.

Lemma bbName_inj b b' : bbName b = bbName b' → b = b'.
Proof. intros H. unfold bbName in H. simpl in H. injection H as H. by apply (inj (pretty : nat → string)). Qed.

Lemma isNameChar_digit c : isDigit c → isNameChar c = true.
Proof.
  unfold isDigit, isNameChar. intros [H1 H2]. rewrite (proj2 (Nat.leb_le _ _) H1), (proj2 (Nat.leb_le _ _) H2). done.
Qed.

Lemma digits_ok (n : nat) : Forall (λ c, isNameChar c = true) (chars (pretty n)).
Proof. eapply List.Forall_impl; [intros c; apply isNameChar_digit|apply pretty_digits]. Qed.

Lemma bbName_ok bb : nameOk (bbName bb).
Proof. split; [done|]. simpl. repeat (constructor; [done|]). apply digits_ok. Qed.

Lemma archName_chars a : Forall (λ c, isNameChar c = true) (chars (archName a)).
Proof.
  unfold archName. rewrite !chars_append. repeat (apply Forall_app; split); try apply digits_ok; repeat constructor.
Qed.

Lemma archName_ok a : nameOk (archName a).
Proof. split; [done|apply archName_chars]. Qed.

Definition timesName (name : string) : string := "numExec_times_" +:+ name.

Lemma timesName_ok a : nameOk (timesName (archName a)).
Proof. split; [done|]. unfold timesName. rewrite chars_append. apply Forall_app. split; [repeat constructor|apply archName_chars]. Qed.

Lemma timesName_inj s s' : timesName s = timesName s' → s = s'.
Proof. intros H. unfold timesName in H. simpl in H. by injection H. Qed.

(** * Loops that extend a program *)

Lemma foldM_restricts {A X} (step : A * CPSolver → X → res (A * CPSolver)) (upd : A → X → A)
    (P : X → (string → Q) → Prop) (names : X → list string) l :
  (∀ acc s x, x ∈ l → (∀ n, n ∈ names x → n ∉ map varName (variables s)) →
     ∃ s', step (acc, s) x = Ok (upd acc x, s') ∧ restricts s s' (P x) ∧ extends s s' (names x)) →
  NoDup (concat (map names l)) →
  ∀ acc s, (∀ n, n ∈ concat (map names l) → n ∉ map varName (variables s)) →
  ∃ s', foldM step (acc, s) l = Ok (foldl upd acc l, s') ∧ restricts s s' (λ value, ∀ x, x ∈ l → P x value) ∧
    extends s s' (concat (map names l)).
Proof.
  induction l as [|x l IH]; intros Hstep Hnd acc s Hs; simpl.
  { exists s. split; [done|]. split; [|apply extends_refl]. intros value. split; [|tauto].
    intros H. split; [done|]. intros x Hx. by apply elem_of_nil in Hx. }
  simpl in Hnd, Hs. apply list.NoDup_app in Hnd as (Hx & Hd & Hnd).
  destruct (Hstep acc s x) as (s1 & H1 & R1 & E1); [left|intros n Hn; apply Hs, elem_of_app; by left|]. rewrite H1. simpl.
  destruct (IH) with (acc := upd acc x) (s := s1) as (s2 & H2 & R2 & E2); [|done| |].
  { intros acc' s' y Hy. apply Hstep. by right. }
  { intros n Hn. rewrite (proj1 E1). intros [Hin|Hin]%elem_of_app; [|by apply (Hd n)].
    apply (Hs n); [apply elem_of_app; by right|done]. }
  exists s2. split; [done|]. split; [|by eapply extends_trans].
  eapply restricts_trans; [exact R1|exact R2|]. intros value. setoid_rewrite elem_of_cons. naive_solver.
Qed.

(** The same where the step only adds constraints. *)
Lemma foldM_constraints {X} (step : CPSolver → X → res CPSolver) (P : X → (string → Q) → Prop) l :
  (∀ s x, x ∈ l → ∃ s', step s x = Ok s' ∧ restricts s s' (P x) ∧ extends s s' []) →
  ∀ s, ∃ s', foldM step s l = Ok s' ∧ restricts s s' (λ value, ∀ x, x ∈ l → P x value) ∧ extends s s' [].
Proof.
  induction l as [|x l IH]; intros Hstep s; simpl.
  { exists s. split; [done|]. split; [|apply extends_refl]. intros value. split; [|tauto].
    intros H. split; [done|]. intros x Hx. by apply elem_of_nil in Hx. }
  destruct (Hstep s x) as (s1 & H1 & R1 & E1); [left|]. rewrite H1. simpl.
  destruct IH with (s := s1) as (s2 & H2 & R2 & E2); [intros s' y Hy; apply Hstep; by right|].
  exists s2. split; [done|]. split; [|by eapply (extends_trans _ _ _ [] [])].
  eapply restricts_trans; [exact R1|exact R2|]. intros value. setoid_rewrite elem_of_cons. naive_solver.
Qed.

Lemma concat_singles {A B} (h : A → B) l : concat (map (λ x, [h x]) l) = map h l.
Proof. induction l as [|x l IH]; simpl; [done|]. by rewrite IH. Qed.

Lemma concat_nils {A B} (l : list A) : concat (map (λ _, @nil B) l) = [].
Proof. by induction l. Qed.

(** * The program *)

Definition archVar (a : ArchBB) : CPVar := mkCPVar (archName a) BOOLEAN (Some 0%Q) (Some 1%Q).
Definition bbVar (bb : nat) : CPVar := mkCPVar (bbName bb) BOOLEAN (Some 0%Q) (Some 1%Q).
Definition numVar (archs : list ArchBB) : CPVar :=
  mkCPVar "varMaxExecs" INTEGER (Some 0%Q) (Some (inject_Z (maxNumTrans archs))).
Definition timesVar (a : ArchBB) : CPVar := mkCPVar (timesName (archName a)) INTEGER (Some 0%Q) None.

Definition wellTyped (v : CPVar) (value : string → Q) : Prop := inBounds value v ∧ ofType value v.

Definition bbVars (bbs : list nat) : list (nat * CPVar) := foldl (λ l bb, insertBB bb (bbVar bb) l) [] bbs.
Definition archVars (archs : list ArchBB) : list (nat * CPVar) := map (λ '(i, a), (i, archVar a)) (imap pair archs).

Definition theVars (archs : list ArchBB) (bbs : list nat) : MILPVars := mkMILPVars (archVars archs) (bbVars bbs) (numVar archs).

Lemma insertBB_elem bb v l x : bb ∉ map fst l → x ∈ insertBB bb v l ↔ x = (bb, v) ∨ x ∈ l.
Proof.
  induction l as [|[b u] l IH]; simpl; intros Hn; [by rewrite list_elem_of_singleton; split; [left|intros [|?%elem_of_nil]]|].
  apply not_elem_of_cons in Hn as [Hne Hn]. simpl in Hne. destruct (bb <? b)%nat; [by rewrite elem_of_cons|].
  destruct (Nat.eqb_spec bb b); [done|]. rewrite !elem_of_cons, IH by done. tauto.
Qed.

Lemma bbVars_elem bbs x : NoDup bbs → x ∈ bbVars bbs ↔ ∃ bb, bb ∈ bbs ∧ x = (bb, bbVar bb).
Proof.
  unfold bbVars.
  assert (∀ l, NoDup bbs → (∀ bb, bb ∈ bbs → bb ∉ map fst l) →
    x ∈ foldl (λ l bb, insertBB bb (bbVar bb) l) l bbs ↔ x ∈ l ∨ ∃ bb, bb ∈ bbs ∧ x = (bb, bbVar bb)) as H.
  { induction bbs as [|bb bbs IH]; intros l Hnd Hl; simpl.
    { split; [by left|]. intros [|(bb & Hb%elem_of_nil & _)]; done. }
    apply list.NoDup_cons in Hnd as [Hb Hnd]. rewrite IH; [|done|].
    - rewrite insertBB_elem by (apply Hl; left). setoid_rewrite elem_of_cons. naive_solver.
    - intros bb' Hb'. intros ((b, v) & -> & Hin)%list_elem_of_fmap.
      apply insertBB_elem in Hin as [[= -> ->]|Hin]; [done| |apply Hl; left].
      apply (Hl b); [by right|]. apply list_elem_of_fmap. by exists (b, v). }
  intros Hnd. rewrite H; [|done|by intros ? _ ?%elem_of_nil]. split; [by intros [?%elem_of_nil|]|by right].
Qed.

Lemma archVars_elem archs i v : (i, v) ∈ archVars archs ↔ ∃ a, archs !! i = Some a ∧ v = archVar a.
Proof.
  unfold archVars. rewrite list_elem_of_fmap. split.
  - intros ((j, a) & [= -> ->] & Hin). apply list_elem_of_lookup in Hin as [k Hk]. rewrite list_lookup_imap in Hk.
    apply fmap_Some in Hk as (b & Hb & [= -> ->]). eauto.
  - intros (a & Ha & ->). exists (i, a). split; [done|]. apply list_elem_of_lookup. exists i. by rewrite list_lookup_imap, Ha.
Qed.

Lemma imap_pair_snd {A} (l : list A) : map snd (imap pair l) = l.
Proof. apply list_eq. intros i. rewrite list_lookup_fmap, list_lookup_imap. by destruct (l !! i). Qed.

Lemma imap_pair_names archs (h : ArchBB → string) : map (λ p : nat * ArchBB, h (snd p)) (imap pair archs) = map h archs.
Proof. rewrite <-(map_map snd h), imap_pair_snd. done. Qed.

Definition distinctArchs (archs : list ArchBB) : Prop := NoDup (map (λ a, (srcBB a, dstBB a)) archs).

Lemma NoDup_names archs (h : string → string) : Inj (=) (=) h → distinctArchs archs → NoDup (map (λ a, h (archName a)) archs).
Proof.
  intros Hh. unfold distinctArchs. induction archs as [|a archs IH]; intros H; simpl in *; [constructor|].
  apply list.NoDup_cons in H as [Ha H]. constructor; [|by apply IH].
  intros (b & Hb%Hh & Hin)%list_elem_of_fmap. apply archName_inj in Hb as [H1 H2]. apply Ha, list_elem_of_fmap.
  exists b. split; [congruence|done].
Qed.

Lemma NoDup_bbNames bbs : NoDup bbs → NoDup (map bbName bbs).
Proof.
  induction 1 as [|bb bbs Hb _ IH]; simpl; [constructor|]. constructor; [|done].
  by intros (b & ->%bbName_inj & Hin)%list_elem_of_fmap.
Qed.

Lemma maxNumTrans_ge archs : ∀ m, m ≤ foldl (λ m a, Z.max m (numTrans a)) m archs ∧
  ∀ a, a ∈ archs → numTrans a ≤ foldl (λ m a, Z.max m (numTrans a)) m archs.
Proof.
  induction archs as [|a archs IH]; intros m; simpl; [split; [lia|by intros ? ?%elem_of_nil]|].
  destruct (IH (Z.max m (numTrans a))) as [H1 H2]. split; [lia|]. intros b [-> |Hb]%elem_of_cons; [lia|by apply H2].
Qed.

Lemma maxNumTrans_lt archs z : 0 < z → (∀ a, a ∈ archs → numTrans a < z) → maxNumTrans archs < z.
Proof.
  intros Hz. unfold maxNumTrans. assert (∀ m, m < z → (∀ a, a ∈ archs → numTrans a < z) →
    foldl (λ m a, Z.max m (numTrans a)) m archs < z) as H; [|by apply H].
  induction archs as [|a archs IH]; intros m Hm Ha; simpl; [done|].
  assert (numTrans a < z) by (apply Ha; left). apply IH; [lia|]. intros b Hb. apply Ha. by right.
Qed.

Lemma initMILPVariables_spec archs bbs : distinctArchs archs → NoDup bbs →
  ∃ s, initMILPVariables archs bbs CPSolver_new = Ok (theVars archs bbs, s) ∧
    restricts CPSolver_new s (λ value, (∀ bb, bb ∈ bbs → wellTyped (bbVar bb) value) ∧
      (∀ a, a ∈ archs → wellTyped (archVar a) value) ∧ wellTyped (numVar archs) value) ∧
    extends CPSolver_new s (map bbName bbs ++ map archName archs ++ ["varMaxExecs"]).
Proof.
  intros Ha Hb. unfold initMILPVariables.
  destruct (foldM_restricts (λ '(vbbs, s) bb, let* (v, s) := addVar (bbName bb) BOOLEAN (Some 0%Q) (Some 1%Q) s in
      Ok (insertBB bb v vbbs, s)) (λ l bb, insertBB bb (bbVar bb) l) (λ bb, wellTyped (bbVar bb)) (λ bb, [bbName bb]) bbs)
    with (acc := @nil (nat * CPVar)) (s := CPSolver_new) as (s1 & -> & R1 & E1).
  { intros acc s bb _ Hn. destruct (addVar_ok (bbName bb) BOOLEAN (Some 0%Q) (Some 1%Q) s) as (s' & -> & R & E);
      [apply bbName_ok|apply Hn; left|]. by exists s'. }
  { rewrite concat_singles. by apply NoDup_bbNames. }
  { intros n _ ?%elem_of_nil. done. }
  simpl. rewrite concat_singles in E1. destruct E1 as [E1 O1]. simpl in E1.
  destruct (foldM_restricts (λ '(varchs, s) '(i, a), let* (v, s) := addVar (archName a) BOOLEAN (Some 0%Q) (Some 1%Q) s in
      Ok (varchs ++ [(i, v)], s)) (λ l p, l ++ [(fst p, archVar (snd p))]) (λ p, wellTyped (archVar (snd p)))
      (λ p, [archName (snd p)]) (imap pair archs)) with (acc := @nil (nat * CPVar)) (s := s1) as (s2 & -> & R2 & E2).
  { intros acc s [i a] _ Hn. destruct (addVar_ok (archName a) BOOLEAN (Some 0%Q) (Some 1%Q) s) as (s' & -> & R & E);
      [apply archName_ok|apply Hn; left|]. by exists s'. }
  { rewrite concat_singles, imap_pair_names. apply (NoDup_names archs (λ s, s)); [by intros ?? ?|done]. }
  { rewrite concat_singles, imap_pair_names, E1. intros n (a & -> & _)%list_elem_of_fmap (b & Hb' & _)%list_elem_of_fmap. done. }
  simpl. rewrite concat_singles, imap_pair_names in E2. destruct E2 as [E2 O2].
  destruct (addVar_ok "varMaxExecs" INTEGER (Some 0%Q) (Some (inject_Z (maxNumTrans archs))) s2) as (s3 & -> & R3 & E3).
  { split; [done|repeat constructor]. }
  { rewrite E2, E1, elem_of_app. intros [(b & Hb' & _)%list_elem_of_fmap|(a & Ha' & _)%list_elem_of_fmap]; done. }
  simpl. exists s3. assert (foldl (λ l p, l ++ [(fst p, archVar (snd p))]) [] (imap pair archs) = archVars archs) as ->.
  { unfold archVars. generalize (imap pair archs). intros l.
    assert (∀ acc, foldl (λ l p, l ++ [(fst p, archVar (snd p))]) acc l = acc ++ map (λ '(i, a), (i, archVar a)) l) as H.
    { induction l as [|[i a] l IH]; intros acc; simpl; [by rewrite app_nil_r|]. by rewrite IH, <-app_assoc. }
    apply H. }
  split; [done|]. split.
  - intros value. rewrite (R3 value), (R2 value), (R1 value).
    assert ((∀ p, p ∈ imap pair archs → wellTyped (archVar (snd p)) value) ↔ ∀ a, a ∈ archs → wellTyped (archVar a) value) as ->;
      [|unfold wellTyped; tauto].
    split; intros H.
    + intros a Ha'. rewrite <-(imap_pair_snd archs) in Ha'. apply list_elem_of_fmap in Ha' as (p & -> & Hp). by apply H.
    + intros p Hp. apply H. rewrite <-(imap_pair_snd archs). apply list_elem_of_fmap. eauto.
  - split; [|destruct E3; congruence]. rewrite (proj1 E3), E2, E1, <-app_assoc. done.
Qed.

Section Sum.
Context {A : Type}.
Implicit Types (h : A → Q) (l : list A).

Definition sumQ h l : Q := foldr (λ x s, (h x + s)%Q) 0%Q l.

Lemma sumQ_app h l l' : (sumQ h (l ++ l') == sumQ h l + sumQ h l')%Q.
Proof. induction l as [|x l IH]; simpl; [ring|]. rewrite IH. ring. Qed.

Lemma sumQ_ext h h' l : (∀ x, x ∈ l → h x == h' x)%Q → (sumQ h l == sumQ h' l)%Q.
Proof.
  induction l as [|x l IH]; intros H; simpl; [reflexivity|]. rewrite (H x), IH; [reflexivity| |left].
  intros y Hy. apply H. by right.
Qed.

(** A sum formed by a loop over expressions. *)
Lemma eval_sum value (e : A → LinExpr) l : ∀ e0,
  (evalLin value (foldl (λ acc x, addLin acc (e x)) e0 l) == evalLin value e0 + sumQ (λ x, evalLin value (e x)) l)%Q.
Proof. induction l as [|x l IH]; intros e0; simpl; [ring|]. rewrite IH, eval_addLin. ring. Qed.

End Sum.

Lemma sumQ_map {A B} (k : A → B) (h : B → Q) l : sumQ h (map k l) = sumQ (λ x, h (k x)) l.
Proof. induction l as [|x l IH]; simpl; [done|]. by rewrite IH. Qed.

(** The product of the number of executions and of an arch. *)
Definition linked (value : string → Q) (name : string) : Prop :=
  let n := value "varMaxExecs" in let t := value (timesName name) in let v := value name in
  (t <= n ∧ n - bigM * (1 - v) <= t ∧ t <= bigM * v)%Q.

Definition productOf (var : CPVar) : CPVar := mkCPVar (timesName (varName var)) INTEGER (Some 0%Q) None.

Lemma sumQ_archVars archs (h : string → Q) : sumQ (λ p, h (varName (snd p))) (archVars archs) = sumQ (λ a, h (archName a)) archs.
Proof.
  unfold archVars. rewrite sumQ_map. trans (sumQ (λ p : nat * ArchBB, h (archName (snd p))) (imap pair archs)).
  - induction (imap pair archs) as [|[i a] l IH]; simpl; [done|]. by rewrite IH.
  - rewrite <-(imap_pair_snd archs) at 2. by rewrite sumQ_map.
Qed.

Lemma setObjective_spec archs bbs s : distinctArchs archs →
  map varName (variables s) = map bbName bbs ++ map archName archs ++ ["varMaxExecs"] →
  ∃ s', setObjective (theVars archs bbs) s = Ok s' ∧
    restricts s s' (λ value, ∀ a, a ∈ archs → wellTyped (timesVar a) value ∧ linked value (archName a)) ∧
    ∀ value, (evalLin value (maxObjective s') == sumQ (λ a, value (timesName (archName a))) archs)%Q.
Proof.
  intros Hd Hs. unfold setObjective. simpl.
  set (step := λ '(objExpr, s) '(_, var), _).
  destruct (foldM_restricts step (λ e p, addLin e (LinExpr_of (productOf (snd p))))
      (λ p value, wellTyped (productOf (snd p)) value ∧ linked value (varName (snd p)))
      (λ p, [timesName (varName (snd p))]) (archVars archs)) with (acc := LinExpr_const 0) (s := s) as (s1 & -> & R1 & E1).
  - intros acc s0 [i var] Hin Hn. apply archVars_elem in Hin as (a & Ha & ->). unfold step. cbv beta iota.
    destruct (addVar_ok (timesName (archName a)) INTEGER (Some 0%Q) None s0) as (s1 & H1 & R1 & E1);
      [apply timesName_ok|apply Hn; left|].
    change ("numExec_times_" +:+ varName (archVar a)) with (timesName (archName a)). rewrite H1. cbn [bind].
    edestruct (addConstr_lin (linLe (LinExpr_of (timesVar a)) (LinExpr_of (numVar archs))) "" s1) as (s2 & H2 & R2 & E2);
      [apply (lin_no_quad _ _)|]. unfold timesVar in H2. cbn [bind]. rewrite H2. cbn [bind].
    edestruct (addConstr_lin (linGe (LinExpr_of (timesVar a)) (subLin (LinExpr_of (numVar archs)) (scaleLin bigM (subConstVar 1 (archVar a))))) "" s2)
      as (s3 & H3 & R3 & E3); [apply (lin_no_quad _ _)|]. unfold timesVar in H3. cbn [bind]. rewrite H3. cbn [bind].
    edestruct (addConstr_lin (linLe (LinExpr_of (timesVar a)) (mulVarConst (archVar a) bigM)) "" s3) as (s4 & H4 & R4 & E4);
      [apply (lin_no_quad _ _)|]. unfold timesVar in H4. cbn [bind]. rewrite H4. cbn [bind].
    exists s4. split; [done|]. split.
    + intros value. rewrite (R4 value), (R3 value), (R2 value), (R1 value), !linLe_holds, linGe_holds.
      rewrite eval_subLin, eval_scaleLin, eval_subConstVar, eval_mulVarConst, !eval_var. simpl.
      unfold wellTyped, productOf, linked. simpl. tauto.
    + destruct E1 as [E1 O1], E2 as [E2 O2], E3 as [E3 O3], E4 as [E4 O4].
      split; [by rewrite E4, E3, E2, E1, !app_nil_r|congruence].
  - rewrite concat_singles. unfold archVars. rewrite map_map.
    rewrite (map_ext _ (λ p : nat * ArchBB, timesName (archName (snd p)))) by (by intros []).
    rewrite (imap_pair_names archs (λ a, timesName (archName a))). apply NoDup_names; [|done]. intros ?? H. by apply timesName_inj.
  - rewrite concat_singles, Hs. intros n ((i, var) & -> & Hin)%list_elem_of_fmap.
    apply archVars_elem in Hin as (a & Ha & ->). rewrite !elem_of_app. intros [H|[H|H]].
    + by apply list_elem_of_fmap in H as (? & ? & _).
    + by apply list_elem_of_fmap in H as (? & ? & _).
    + by apply list_elem_of_singleton in H.
  - simpl. eexists. split; [done|]. split.
    + intros value. etransitivity; [|etransitivity; [apply (R1 value)|]]; [done|].
      assert ((∀ p, p ∈ archVars archs → wellTyped (productOf (snd p)) value ∧ linked value (varName (snd p))) ↔
        ∀ a, a ∈ archs → wellTyped (timesVar a) value ∧ linked value (archName a)) as ->; [|done].
      split.
      * intros H a Ha. apply list_elem_of_lookup in Ha as [i Ha]. apply (H (i, archVar a)), archVars_elem. eauto.
      * intros H [i var] (a & Ha & ->)%archVars_elem. apply H. by eapply list_elem_of_lookup_2.
    + intros value. simpl. rewrite (eval_sum value (λ p, LinExpr_of (productOf (snd p)))), eval_const.
      rewrite (sumQ_ext _ (λ p, value (timesName (varName (snd p))))) by (intros; apply eval_var).
      rewrite (sumQ_archVars archs (λ n, value (timesName n))). ring.
Qed.

(** A sum over the variables of the archs is a sum over the archs. *)
Lemma sumQ_archs archs (k : nat * CPVar → Q) (h : ArchBB → Q) :
  (∀ i a, archs !! i = Some a → k (i, archVar a) == h a)%Q → (sumQ k (archVars archs) == sumQ h archs)%Q.
Proof.
  intros H. unfold archVars. rewrite sumQ_map. rewrite <-(imap_pair_snd archs) at 2. rewrite sumQ_map.
  apply sumQ_ext. intros [i a] Hin. apply list_elem_of_lookup in Hin as [j Hj]. rewrite list_lookup_imap in Hj.
  apply fmap_Some in Hj as (b & Hb & [= -> ->]). by apply H.
Qed.

Definition limited (archs : list ArchBB) (value : string → Q) (a : ArchBB) : Prop :=
  (value "varMaxExecs" <= inject_Z (numTrans a) * value (archName a) + inject_Z (maxNumTrans archs) * (1 - value (archName a)))%Q.

Definition weightIf (value : string → Q) (P : ArchBB → bool) (archs : list ArchBB) : Q :=
  sumQ (λ a, if P a then value (archName a) else 0%Q) archs.

Lemma setEdgeConstraints_spec archs bbs s :
  ∃ s', setEdgeConstraints archs (theVars archs bbs) (maxNumTrans archs) s = Ok s' ∧
    restricts s s' (λ value, (∀ a, a ∈ archs → limited archs value a) ∧ (weightIf value isBackEdge archs == 1)%Q) ∧ extends s s' [].
Proof.
  unfold setEdgeConstraints. simpl. set (step := λ '(back, s) '(i, var), _).
  destruct (foldM_restricts step (λ e p, match archs !! (fst p) with
      | Some a => if isBackEdge a then addLin e (LinExpr_of (snd p)) else e | None => e end)
      (λ p value, ∀ a, archs !! (fst p) = Some a → limited archs value a) (λ _, []) (archVars archs))
    with (acc := LinExpr_empty) (s := s) as (s1 & -> & R1 & E1).
  - intros acc s0 [i var] Hin _. apply archVars_elem in Hin as (a & Ha & ->). unfold step. cbv beta iota.
    unfold at_. rewrite Ha. cbn [of_option bind].
    edestruct (addConstr_lin (linLe (LinExpr_of (numVar archs)) (addLin (mulVarConst (archVar a) (inject_Z (numTrans a)))
      (scaleLin (inject_Z (maxNumTrans archs)) (subConstVar 1 (archVar a)))))) as (s2 & H2 & R2 & E2); [apply (lin_no_quad _ _)|].
    rewrite H2. cbn [bind]. exists s2. split; [simpl; by rewrite Ha|]. split; [|done].
    intros value. rewrite (R2 value), linLe_holds, eval_addLin, eval_scaleLin, eval_subConstVar, eval_mulVarConst, !eval_var.
    unfold limited. simpl. rewrite Ha. naive_solver.
  - rewrite concat_nils. constructor.
  - rewrite concat_nils. by intros n ?%elem_of_nil.
  - cbn [bind]. rewrite concat_nils in E1.
    set (back := foldl _ _ _). destruct (addConstr_lin (linEq back (LinExpr_const 1)) "oneBackedge" s1) as (s2 & -> & R2 & E2);
      [apply (lin_no_quad _ _)|].
    exists s2. split; [done|]. split; [|destruct E1 as [E1 O1], E2 as [E2 O2]; split; [by rewrite E2, E1, !app_nil_r|congruence]].
    intros value. rewrite (R2 value), (R1 value), linEq_holds, eval_const.
    assert (evalLin value back == weightIf value isBackEdge archs)%Q as ->.
    { set (k := λ p : nat * CPVar, match archs !! (fst p) with
        | Some a => if isBackEdge a then value (varName (snd p)) else 0%Q | None => 0%Q end).
      trans (sumQ k (archVars archs)); [|apply sumQ_archs; intros i a Ha; unfold k; simpl; rewrite Ha; reflexivity].
      trans (evalLin value LinExpr_empty + sumQ k (archVars archs))%Q; [|rewrite eval_empty; ring].
      unfold back. clear. generalize LinExpr_empty.
      induction (archVars archs) as [|[i var] l IH]; intros e; simpl; [ring|]. rewrite IH. unfold k at 2. simpl.
      destruct (archs !! i) as [a|]; [destruct (isBackEdge a)|]; rewrite ?eval_addLin, ?eval_var; ring. }
    assert ((∀ x, x ∈ archVars archs → ∀ a, archs !! x.1 = Some a → limited archs value a) ↔
      ∀ a, a ∈ archs → limited archs value a) as ->; [|tauto].
    split; [|intros H x _ a Ha; by eapply H, list_elem_of_lookup_2].
    intros H a Ha. apply list_elem_of_lookup in Ha as [i Ha]. apply (H (i, archVar a)); [apply archVars_elem; eauto|done].
Qed.

Lemma eval_sumVars value l : (evalLin value (sumVars l) == sumQ (λ var, value (varName var)) l)%Q.
Proof.
  unfold sumVars. rewrite (eval_sum value LinExpr_of), eval_empty, (sumQ_ext _ (λ var, value (varName var))); [ring|].
  intros; apply eval_var.
Qed.

Lemma sumQ_omap {A B} (k : A → option B) (h : B → Q) l :
  (sumQ h (omap k l) == sumQ (λ x, match k x with Some y => h y | None => 0 end) l)%Q.
Proof. induction l as [|x l IH]; simpl; [reflexivity|]. destruct (k x); simpl; rewrite IH; ring. Qed.

Lemma eval_pred_succ archs bbs bb value :
  (evalLin value (sumVars (getPredArchVars archs bb (theVars archs bbs))) == weightIf value (λ a, dstBB a =? bb)%nat archs)%Q ∧
  (evalLin value (sumVars (getSuccArchVars archs bb (theVars archs bbs))) == weightIf value (λ a, srcBB a =? bb)%nat archs)%Q.
Proof.
  split; rewrite eval_sumVars; unfold getPredArchVars, getSuccArchVars; simpl; rewrite sumQ_omap; apply sumQ_archs;
    intros i a Ha; rewrite Ha; simpl; if_case; reflexivity.
Qed.

Definition balanced (archs : list ArchBB) (value : string → Q) (bb : nat) : Prop :=
  (weightIf value (λ a, dstBB a =? bb)%nat archs == value (bbName bb) ∧
   weightIf value (λ a, srcBB a =? bb)%nat archs == value (bbName bb))%Q.

Lemma setBBConstraints_spec archs bbs s : NoDup bbs →
  ∃ s', setBBConstraints archs (theVars archs bbs) s = Ok s' ∧
    restricts s s' (λ value, ∀ bb, bb ∈ bbs → balanced archs value bb) ∧ extends s s' [].
Proof.
  intros Hb. unfold setBBConstraints. simpl.
  destruct (foldM_constraints (λ s '(bb, varBB),
    let* s := addConstr (linEq (sumVars (getPredArchVars archs bb (theVars archs bbs))) (LinExpr_of varBB)) ("in" +:+ pretty bb) s in
    addConstr (linEq (sumVars (getSuccArchVars archs bb (theVars archs bbs))) (LinExpr_of varBB)) ("out" +:+ pretty bb) s)
    (λ p value, balanced archs value (fst p)) (bbVars bbs)) with (s := s) as (s' & H & R & E).
  - intros s0 x (bb & _ & ->)%bbVars_elem; [|done].
    edestruct (addConstr_lin (linEq (sumVars (getPredArchVars archs bb (theVars archs bbs))) (LinExpr_of (bbVar bb))))
      as (s1 & H1 & R1 & E1); [apply (lin_no_quad _ _)|]. rewrite H1. cbn [bind].
    edestruct (addConstr_lin (linEq (sumVars (getSuccArchVars archs bb (theVars archs bbs))) (LinExpr_of (bbVar bb))))
      as (s2 & H2 & R2 & E2); [apply (lin_no_quad _ _)|]. exists s2. split; [exact H2|]. split.
    + intros value. rewrite (R2 value), (R1 value), !linEq_holds, eval_var.
      rewrite (proj1 (eval_pred_succ _ _ _ _)), (proj2 (eval_pred_succ _ _ _ _)). unfold balanced. simpl. tauto.
    + destruct E1 as [E1 O1], E2 as [E2 O2]. split; [by rewrite E2, E1, !app_nil_r|congruence].
  - exists s'. split; [exact H|]. split; [|done]. intros value. rewrite (R value).
    assert ((∀ x, x ∈ bbVars bbs → balanced archs value x.1) ↔ ∀ bb, bb ∈ bbs → balanced archs value bb) as ->; [|done].
    split; [intros H' bb Hin; apply (H' (bb, bbVar bb)), bbVars_elem; eauto|].
    intros H' x (bb & Hin & ->)%bbVars_elem; [by apply H'|done].
Qed.

(** The solutions of the program. *)
Record solution (archs : list ArchBB) (bbs : list nat) (value : string → Q) : Prop := {
  sol_bb : ∀ bb, bb ∈ bbs → wellTyped (bbVar bb) value;
  sol_arch : ∀ a, a ∈ archs → wellTyped (archVar a) value;
  sol_num : wellTyped (numVar archs) value;
  sol_times : ∀ a, a ∈ archs → wellTyped (timesVar a) value ∧ linked value (archName a);
  sol_limited : ∀ a, a ∈ archs → limited archs value a;
  sol_backedge : (weightIf value isBackEdge archs == 1)%Q;
  sol_balanced : ∀ bb, bb ∈ bbs → balanced archs value bb }.

Lemma extractionModel_spec archs bbs : distinctArchs archs → NoDup bbs →
  ∃ s, extractionModel archs bbs = Ok (theVars archs bbs, s) ∧
    (∀ value, feasible value s ↔ solution archs bbs value) ∧
    ∀ value, (evalLin value (maxObjective s) == sumQ (λ a, value (timesName (archName a))) archs)%Q.
Proof.
  intros Ha Hb. unfold extractionModel.
  destruct (initMILPVariables_spec archs bbs Ha Hb) as (s1 & -> & R1 & E1). cbn [bind].
  destruct (setObjective_spec archs bbs s1 Ha) as (s2 & -> & R2 & O2); [by rewrite (proj1 E1)|]. cbn [bind].
  destruct (setEdgeConstraints_spec archs bbs s2) as (s3 & -> & R3 & E3). cbn [bind].
  destruct (setBBConstraints_spec archs bbs s3 Hb) as (s4 & -> & R4 & E4). cbn [bind].
  exists s4. split; [done|]. split; [|intros value; by rewrite (proj2 E4), (proj2 E3)].
  intros value. rewrite (R4 value), (R3 value), (R2 value), (R1 value).
  split; [intros [[[[_ (?&?&?)] ?] [? ?]] ?]; by split|].
  intros [? ? ? ? ? ? ?]. split; [|done]. split; [|done]. split; [|done]. split; [split; constructor|done].
Qed.

(** The archs that a solution selects. *)
Definition chosen (value : string → Q) (a : ArchBB) : bool := negb (Qle_bool (value (archName a)) 0).
Definition chosenArchs (value : string → Q) (archs : list ArchBB) : list ArchBB := filter (λ a, chosen value a = true) archs.

(** Each block is the source of as many of the archs as it is the destination of, of one at most,
    and one of the archs is a backedge. *)
Record circuit (S : list ArchBB) : Prop := {
  circuit_src : NoDup (map srcBB S);
  circuit_dst : NoDup (map dstBB S);
  circuit_same : ∀ bb, bb ∈ map srcBB S ↔ bb ∈ map dstBB S;
  circuit_backedge : ∃ a, filter (λ a, isBackEdge a = true) S = [a] }.

Lemma inject_le z z' : (inject_Z z <= inject_Z z')%Q ↔ z ≤ z'.
Proof. by rewrite <-Zle_Qle. Qed.

Lemma inject_eq z z' : (inject_Z z == inject_Z z')%Q ↔ z = z'.
Proof. unfold Qeq. simpl. lia. Qed.

Lemma length_filter_le_1 {A B} `{EqDecision B} (h : A → B) (l : list A) :
  (∀ b, b ∈ map h l → (length (filter (λ x, h x = b) l) ≤ 1)%nat) → NoDup (map h l).
Proof.
  induction l as [|x l IH]; intros H; simpl; [constructor|]. constructor.
  - intros (y & Hy & Hin)%list_elem_of_fmap. specialize (H (h x)). rewrite filter_cons_True in H by done. simpl in H.
    destruct (filter (λ y, h y = h x) l) eqn:E; simpl in H; [|specialize (H ltac:(left)); lia].
    assert (y ∈ filter (λ y, h y = h x) l) as Hf by (by apply list_elem_of_filter). rewrite E in Hf. by apply elem_of_nil in Hf.
  - apply IH. intros b Hb. etransitivity; [|apply (H b); by right]. rewrite filter_cons. case_decide; simpl; lia.
Qed.

(** A sum of bits counts the archs that are chosen. *)
Lemma weightIf_bits value archs (P : ArchBB → bool) :
  (∀ a, a ∈ archs → value (archName a) == if chosen value a then 1 else 0)%Q →
  (weightIf value P archs == inject_Z (Z.of_nat (length (filter (λ a, P a = true) (chosenArchs value archs)))))%Q.
Proof.
  intros Hc. unfold weightIf, chosenArchs. induction archs as [|a l IH]; simpl; [reflexivity|].
  rewrite IH by (intros b Hb; apply Hc; by right). rewrite (filter_cons _ a).
  specialize (Hc a ltac:(left)). destruct (chosen value a) eqn:E.
  - rewrite decide_True, filter_cons by done. destruct (P a) eqn:EP.
    + rewrite decide_True by done. cbn [length]. rewrite Hc, Nat2Z.inj_succ, <-Z.add_1_l, inject_Z_plus. ring.
    + rewrite decide_False by done. ring.
  - rewrite decide_False by done. destruct (P a); [rewrite Hc|]; ring.
Qed.


Lemma filter_eqb {B} (h : B → nat) (n : nat) (l : list B) : filter (λ x, (h x =? n)%nat = true) l = filter (λ x, h x = n) l.
Proof. apply list_filter_iff. intros x. apply Nat.eqb_eq. Qed.

Lemma in_map_filter {A B} `{EqDecision B} (h : A → B) b l : b ∈ map h l ↔ (0 < length (filter (λ x, h x = b) l))%nat.
Proof.
  rewrite list_elem_of_fmap. split.
  - intros (x & -> & Hx). assert (x ∈ filter (λ y, h y = h x) l) as Hf by (by apply list_elem_of_filter).
    destruct (filter (λ y, h y = h x) l); [by apply elem_of_nil in Hf|simpl; lia].
  - destruct (filter (λ x, h x = b) l) as [|x l'] eqn:E; simpl; [lia|]. intros _.
    assert (x ∈ filter (λ x, h x = b) l) as Hx by (rewrite E; left). apply list_elem_of_filter in Hx as [<- Hx]. eauto.
Qed.

Section Solution.
Context (archs : list ArchBB) (bbs : list nat) (value : string → Q).
Context (Hsol : solution archs bbs value).
Context (Hbbs : ∀ a, a ∈ archs → srcBB a ∈ bbs ∧ dstBB a ∈ bbs).

Lemma chosen_value a : a ∈ archs → (value (archName a) == if chosen value a then 1 else 0)%Q.
Proof.
  intros Ha. destruct (sol_arch _ _ _ Hsol a Ha) as [_ Ht]. unfold ofType in Ht. simpl in Ht. unfold chosen.
  destruct (Qle_bool (value (archName a)) 0) eqn:E; simpl.
  - apply Qle_bool_iff in E. destruct Ht as [|Ht]; [done|]. lra.
  - destruct Ht as [Ht|]; [|done]. exfalso. rewrite <-not_true_iff_false in E. apply E, Qle_bool_iff. lra.
Qed.

Lemma weightIf_count (P : ArchBB → bool) :
  (weightIf value P archs == inject_Z (Z.of_nat (length (filter (λ a, P a = true) (chosenArchs value archs)))))%Q.
Proof. apply weightIf_bits, chosen_value. Qed.

Lemma block_bit bb : bb ∈ bbs → (value (bbName bb) == 0)%Q ∨ (value (bbName bb) == 1)%Q.
Proof. intros Hb. destruct (sol_bb _ _ _ Hsol bb Hb) as [_ Ht]. exact Ht. Qed.

Lemma degrees bb : bb ∈ bbs →
  length (filter (λ a, dstBB a = bb) (chosenArchs value archs)) = length (filter (λ a, srcBB a = bb) (chosenArchs value archs)) ∧
  (length (filter (λ a, dstBB a = bb) (chosenArchs value archs)) ≤ 1)%nat.
Proof.
  intros Hb. destruct (sol_balanced _ _ _ Hsol bb Hb) as [Hd Hs]. rewrite weightIf_count in Hd, Hs.
  rewrite filter_eqb in Hd, Hs.
  split; [apply Nat2Z.inj, inject_eq; by rewrite Hd, Hs|]. apply Nat2Z.inj_le, inject_le. rewrite Hd.
  destruct (block_bit bb Hb) as [-> | ->]; unfold Qle; simpl; lia.
Qed.

Lemma chosen_in a : a ∈ chosenArchs value archs → a ∈ archs ∧ chosen value a = true.
Proof. intros H. by apply list_elem_of_filter in H as [? ?]. Qed.

Lemma chosen_circuit : circuit (chosenArchs value archs).
Proof.
  split.
  - apply length_filter_le_1. intros bb (a & -> & [Ha _]%chosen_in)%list_elem_of_fmap.
    destruct (degrees (srcBB a)) as [<- H]; [by apply Hbbs|done].
  - apply length_filter_le_1. intros bb (a & -> & [Ha _]%chosen_in)%list_elem_of_fmap. apply degrees. by apply Hbbs.
  - intros bb. rewrite !in_map_filter. destruct (decide (bb ∈ bbs)) as [Hb|Hb]; [by destruct (degrees bb Hb) as [-> _]|].
    rewrite <-!in_map_filter. split; intros (a & -> & [Ha _]%chosen_in)%list_elem_of_fmap; exfalso; apply Hb, Hbbs, Ha.
  - pose proof (sol_backedge _ _ _ Hsol) as Hb. rewrite weightIf_count in Hb.
    change 1%Q with (inject_Z 1) in Hb. apply (proj1 (inject_eq _ _)) in Hb.
    destruct (filter (λ a, isBackEdge a = true) (chosenArchs value archs)) as [|a [|]]; [done|by exists a|].
    cbn [length] in Hb. lia.
Qed.

(** The number of executions. *)
Lemma executions : ∃ n, (value "varMaxExecs" == inject_Z n)%Q ∧ 0 ≤ n ≤ maxNumTrans archs ∧ n ≤ 10000 ∧
  ∀ a, a ∈ chosenArchs value archs → n ≤ numTrans a.
Proof.
  destruct (sol_num _ _ _ Hsol) as [[Hl Hu] [n Hn]]. simpl in Hl, Hu, Hn. specialize (Hl _ eq_refl). specialize (Hu _ eq_refl).
  rewrite Hn in Hl, Hu. exists n. split; [done|]. split; [split; by apply inject_le|].
  assert (∀ a, a ∈ chosenArchs value archs → (inject_Z n <= inject_Z (numTrans a))%Q ∧ n ≤ 10000) as H.
  { intros a [Ha Hc]%chosen_in. pose proof (sol_limited _ _ _ Hsol a Ha) as Hlim. destruct (sol_times _ _ _ Hsol a Ha) as [_ Ht].
    unfold limited in Hlim. unfold linked in Ht. rewrite (chosen_value a Ha), Hc in Hlim, Ht. rewrite Hn in Hlim, Ht.
    split; [lra|]. apply inject_le. destruct Ht as (_ & H1 & H2). unfold bigM in *. change (inject_Z 10000) with 10000%Q. lra. }
  split; [|intros a Ha; by apply inject_le, H].
  destruct (circuit_backedge _ chosen_circuit) as [a Ha].
  assert (a ∈ filter (λ a, isBackEdge a = true) (chosenArchs value archs)) as Hin by (rewrite Ha; left).
  apply list_elem_of_filter in Hin as [_ Hin]. by apply (H a).
Qed.

End Solution.
