(* ===== verification/CFDFCFiles.v ===== *)
(** The file that the CBC back-end writes of an extraction: with fewer than a million
    transitions on every arch and a backedge, it is the program that CFDFC.cpp builds. *)

From stdpp Require Import strings gmap pretty.
From Stdlib Require Import QArith Qround Lqa.
From S2P Require Import CFDFC LinearPrograms LpFormat CFDFCModel Prelude.

(** * Constraints *)

Section Constraints.
Context (l r : LinExpr) (h : (string → Q) → Q).
Context (Hh : ∀ value, (evalLin value l - evalLin value r == h value)%Q).
Context (Hcoeffs : ∀ x, short (h (unitAt x) - h zeros)) (Hconst : isInteger (h zeros)).
Context (Hterm : ∃ v v', ¬ (h v == h v')%Q).

Lemma eval_difference value : (evalQuad value (subQuad (QuadExpr_of l) (QuadExpr_of r)) == h value)%Q.
Proof using Hh. by rewrite eval_subQuad, !eval_QuadExpr_of. Qed.

Lemma exact_difference p : exactConstr (mkTempConstr (subQuad (QuadExpr_of l) (QuadExpr_of r)) p).
Proof using Hh Hcoeffs Hconst Hterm.
  split; simpl.
  - by rewrite subTerms_empty.
  - intros x. by rewrite !eval_difference.
  - destruct Hconst as [z Hz]. exists z. by rewrite eval_difference.
  - destruct Hterm as (v & v' & Hne). exists v, v'. by rewrite !eval_difference.
Qed.

Lemma exact_linLe : exactConstr (linLe l r).
Proof using Hh Hcoeffs Hconst Hterm. apply exact_difference. Qed.

Lemma exact_linEq : exactConstr (linEq l r).
Proof using Hh Hcoeffs Hconst Hterm. apply exact_difference. Qed.

End Constraints.

Lemma addConstr_exact c name s s' : addConstr c name s = Ok s' → exactConstr c → exactProgram s → exactProgram s'.
Proof.
  unfold addConstr. case_bool_decide; [|done]. intros [= <-] Hc [Hv Hcs]. split; simpl; [done|].
  apply Forall_app. split; [done|]. by constructor.
Qed.

Lemma addVar_exact name type lb ub s v s' : addVar name type lb ub s = Ok (v, s') → exactVar (mkCPVar name type lb ub) →
  exactProgram s → exactProgram s' ∧ v = mkCPVar name type lb ub.
Proof.
  unfold addVar, CPVar_new. destruct (_ || _); [done|]. cbn [bind]. case_bool_decide; [done|].
  intros [= <- <-] Hv [Hvs Hcs]. split; [|done]. split; simpl; [|done]. apply Forall_app. split; [done|]. by constructor.
Qed.

(** ** Coefficients *)

Lemma short_int q z : (q == inject_Z z)%Q → Z.abs z < 10 ^ 6 → short q.
Proof. intros. by exists z. Qed.

Lemma isInteger_Z z : isInteger (inject_Z z).
Proof. by exists z. Qed.

Lemma isInteger_proper q q' : (q == q')%Q → isInteger q → isInteger q'.
Proof. intros Hq [z Hz]. exists z. by rewrite <-Hq. Qed.

Lemma sumQ_zero {A} (h : A → Q) l : (∀ x, x ∈ l → h x == 0)%Q → (sumQ h l == 0)%Q.
Proof.
  induction l as [|x l IH]; intros H; simpl; [done|]. rewrite (H x ltac:(left)), IH; [ring|]. intros y Hy. apply H. by right.
Qed.

(** At the values that give a coefficient, a sum over distinct archs is 0 or 1. *)
Lemma weightIf_unit x P archs : distinctArchs archs →
  (weightIf (unitAt x) P archs == 0)%Q ∨ (weightIf (unitAt x) P archs == 1)%Q.
Proof.
  intros Hd. pose proof (NoDup_names archs (λ s, s) (λ _ _ H, H) Hd) as Hnd. clear Hd. unfold weightIf.
  induction archs as [|a archs IH]; simpl; [by left|]. simpl in Hnd. apply list.NoDup_cons in Hnd as [Ha Hnd].
  unfold unitAt at 1 3. destruct (decide (archName a = x)) as [<-|_].
  - assert (sumQ (λ b, if P b then unitAt (archName a) (archName b) else 0) archs == 0)%Q as ->.
    { apply sumQ_zero. intros b Hb. destruct (P b); [|done]. unfold unitAt. rewrite decide_False; [done|].
      intros E. apply Ha. rewrite <-E. apply list_elem_of_fmap. eauto. }
    destruct (P a); [right|left]; ring.
  - destruct (IH Hnd) as [H|H]; rewrite H; [left|right]; destruct (P a); ring.
Qed.

Lemma weightIf_zeros P archs : (weightIf zeros P archs == 0)%Q.
Proof.
  apply sumQ_zero. intros a _. by destruct (P a).
Qed.

Lemma weightIf_one P archs a : a ∈ archs → P a = true → distinctArchs archs →
  (weightIf (unitAt (archName a)) P archs == 1)%Q.
Proof.
  intros Ha HP Hd. destruct (weightIf_unit (archName a) P archs Hd) as [H|]; [exfalso|done].
  assert (∀ l, (0 <= sumQ (λ b, if P b then unitAt (archName a) (archName b) else 0) l)%Q) as Hpos.
  { induction l as [|b l IH]; simpl; [done|]. unfold unitAt at 1. destruct (P b); [case_decide|]; lra. }
  unfold weightIf in H. apply list_elem_of_split in Ha as (l1 & l2 & ->).
  rewrite sumQ_app in H. simpl in H. rewrite HP in H. unfold unitAt at 2 in H. rewrite decide_True in H by done.
  pose proof (Hpos l1). pose proof (Hpos l2). lra.
Qed.

Lemma unitAt_bit x y : unitAt x y = 0%Q ∨ unitAt x y = 1%Q.
Proof. unfold unitAt. case_decide; auto. Qed.

(** A number without variables is short. *)
Ltac closed_short :=
  match goal with |- short ?q => let z := eval vm_compute in (Qfloor q) in exists z; split; [reflexivity|lia] end.

(** * The steps that build the program *)

Lemma exact_binary name : exactVar (mkCPVar name BOOLEAN (Some 0%Q) (Some 1%Q)).
Proof. by split; intros ? [= <-]. Qed.

Lemma exact_times name : exactVar (mkCPVar name INTEGER (Some 0%Q) None).
Proof. split; [intros ? [= <-]; by exists 0|done]. Qed.

Lemma initMILPVariables_exact archs bbs s vars s' : initMILPVariables archs bbs s = Ok (vars, s') →
  exactProgram s → exactProgram s'.
Proof.
  unfold initMILPVariables. intros H Hs. apply bind_ok in H as ([vbbs s1] & H1 & H).
  assert (exactProgram s1) as Hs1.
  { refine (foldM_keeps _ (λ st, exactProgram st.2) _ _ _ _ H1 Hs). intros bb [l t] st Hst Ht.
    apply bind_ok in Hst as ([v t'] & Hv & [= <-]). simpl. eapply addVar_exact; [exact Hv|apply exact_binary|done]. }
  apply bind_ok in H as ([varchs s2] & H2 & H). assert (exactProgram s2) as Hs2.
  { refine (foldM_keeps _ (λ st, exactProgram st.2) _ _ _ _ H2 Hs1). intros [i a] [l t] st Hst Ht.
    apply bind_ok in Hst as ([v t'] & Hv & [= <-]). simpl. eapply addVar_exact; [exact Hv|apply exact_binary|done]. }
  apply bind_ok in H as ([v s3] & H3 & [= _ <-]). eapply addVar_exact; [exact H3| |done].
  split; [intros ? [= <-]; by exists 0|intros ? [= <-]; apply isInteger_Z].
Qed.

Section Steps.
Context (archs : list ArchBB) (bbs : list nat).

Lemma setObjective_exact s s' : setObjective (theVars archs bbs) s = Ok s' → exactProgram s → exactProgram s'.
Proof.
  unfold setObjective. intros H Hs. apply bind_ok in H as ([obj s1] & H1 & [= <-]).
  change (exactProgram s1).
  refine (foldM_keeps_in _ (λ st, exactProgram st.2) _ _ _ _ H1 Hs). clear.
  intros [i var] [e t] st (a & _ & ->)%archVars_elem Hst Ht. cbn [theVars vNumExecs vArchs] in Hst.
  apply bind_ok in Hst as ([v t1] & Hv & Hst). apply addVar_exact in Hv as [Ht1 ->]; [|apply exact_times|done].
  change ("numExec_times_" +:+ varName (archVar a)) with (timesName (archName a)) in Hst.
  apply bind_ok in Hst as (t2 & H2 & Hst). apply bind_ok in Hst as (t3 & H3 & Hst). apply bind_ok in Hst as (t4 & H4 & [= <-]).
  simpl. set (T := timesName (archName a)) in *. set (N := "varMaxExecs"). set (A := archName a).
  assert (T ≠ A ∧ T ≠ N ∧ A ≠ N) as (HTA & HTN & HAN) by (split; [done|split; done]).
  eapply addConstr_exact; [exact H4| |eapply addConstr_exact; [exact H3| |eapply addConstr_exact; [exact H2| |done]]].
  - apply (exact_linLe _ _ (λ v, v T - bigM * v A)%Q).
    + intros v. rewrite eval_mulVarConst, eval_var. done.
    + intros x. unfold zeros, bigM. destruct (unitAt_bit x T) as [-> | ->], (unitAt_bit x A) as [-> | ->]; closed_short.
    + by exists 0.
    + exists (unitAt T), zeros. unfold unitAt, zeros. rewrite decide_True, decide_False by done. done.
  - apply (exact_linLe _ _ (λ v, v N - bigM * (1 - v A) - v T)%Q).
    + intros v. rewrite eval_subLin, eval_scaleLin, eval_subConstVar, !eval_var. done.
    + intros x. unfold zeros, bigM.
      destruct (unitAt_bit x T) as [-> | ->], (unitAt_bit x A) as [-> | ->], (unitAt_bit x N) as [-> | ->]; closed_short.
    + by exists (-10000).
    + exists (unitAt T), zeros. unfold unitAt, zeros. rewrite decide_False, decide_False, decide_True by done. done.
  - apply (exact_linLe _ _ (λ v, v T - v N)%Q).
    + intros v. rewrite !eval_var. done.
    + intros x. unfold zeros. destruct (unitAt_bit x T) as [-> | ->], (unitAt_bit x N) as [-> | ->]; closed_short.
    + by exists 0.
    + exists (unitAt T), zeros. unfold unitAt, zeros. rewrite decide_True, decide_False by done. done.
Qed.

(** A backedge, and fewer than a million transitions on every arch. *)
Definition fewTransitions : Prop :=
  distinctArchs archs ∧ (∀ a, a ∈ archs → 0 ≤ numTrans a < 10 ^ 6) ∧ ∃ a, a ∈ archs ∧ isBackEdge a = true.

Context (Hfew : fewTransitions).

Lemma limit_exact a : a ∈ archs →
  exactConstr (linLe (LinExpr_of (numVar archs)) (addLin (mulVarConst (archVar a) (inject_Z (numTrans a)))
    (scaleLin (inject_Z (maxNumTrans archs)) (subConstVar 1 (archVar a))))).
Proof using Hfew.
  destruct Hfew as (_ & Hr & _). intros Ha. pose proof (Hr a Ha) as Hn.
  assert (numTrans a ≤ maxNumTrans archs < 10 ^ 6) as Hm.
  { split; [by apply (proj2 (maxNumTrans_ge archs 0))|]. apply maxNumTrans_lt; [lia|]. intros b Hb. by apply Hr. }
  set (N := "varMaxExecs"). set (A := archName a). assert (A ≠ N) as HAN by done.
  set (n := numTrans a) in *. set (m := maxNumTrans archs) in *.
  apply (exact_linLe _ _ (λ v, v N - (inject_Z n * v A + inject_Z m * (1 - v A)))%Q).
  - intros v. rewrite eval_addLin, eval_scaleLin, eval_subConstVar, eval_mulVarConst, !eval_var. done.
  - intros x. unfold zeros, unitAt. case_decide as HN; [rewrite decide_False by congruence|case_decide as HA].
    + apply (short_int _ 1); [|lia]. unfold inject_Z. ring.
    + apply (short_int _ (m - n)); [|lia]. unfold Z.sub. rewrite inject_Z_plus, inject_Z_opp. ring.
    + apply (short_int _ 0); [ring|lia].
  - unfold zeros. apply (isInteger_proper (inject_Z (- m))); [|apply isInteger_Z]. rewrite inject_Z_opp. ring.
  - exists (unitAt N), zeros. unfold unitAt, zeros. rewrite decide_True, decide_False by done. intros H.
    assert (1 == 0)%Q as E; [|done]. lra.
Qed.

Lemma setEdgeConstraints_exact s s' : setEdgeConstraints archs (theVars archs bbs) (maxNumTrans archs) s = Ok s' →
  exactProgram s → exactProgram s'.
Proof using Hfew.
  intros H Hs. unfold setEdgeConstraints in H. cbn [theVars vArchs vNumExecs] in H. apply bind_ok in H as ([back s1] & H1 & H).
  assert (exactProgram s1) as Hs1.
  { refine (foldM_keeps_in _ (λ st, exactProgram st.2) _ _ _ _ H1 Hs).
    intros [i var] [e t] st (a & Ha & ->)%archVars_elem Hst Ht. unfold at_ in Hst. rewrite Ha in Hst. cbn [of_option bind] in Hst.
    apply bind_ok in Hst as (t1 & Ht1 & [= <-]). simpl. eapply addConstr_exact; [exact Ht1| |done].
    apply limit_exact. by eapply list_elem_of_lookup_2. }
  eapply addConstr_exact; [exact H| |done]. clear H.
  assert (∀ value, evalLin value back == weightIf value isBackEdge archs)%Q as Hback.
  { set (k := λ value (p : nat * CPVar), match archs !! (fst p) with
      | Some a => if isBackEdge a then value (varName (snd p)) else 0%Q | None => 0%Q end).
    intros value. trans (sumQ (k value) (archVars archs)); [|apply sumQ_archs; intros i a Ha; unfold k; simpl; by rewrite Ha].
    trans (evalLin value LinExpr_empty + sumQ (k value) (archVars archs))%Q; [|rewrite eval_empty; ring].
    clear Hs Hs1. revert H1. generalize LinExpr_empty, s. induction (archVars archs) as [|[i var] l IH]; intros e t H1; cbn [foldM] in H1.
    - injection H1 as <- <-. simpl. ring.
    - apply bind_ok in H1 as ([e' t'] & Hst & H1). apply bind_ok in Hst as (a & Ha & Hst). unfold at_ in Ha.
      apply of_option_ok in Ha. apply bind_ok in Hst as (t1 & _ & [= <- <-]). rewrite (IH _ _ H1). cbn [sumQ foldr].
      assert (k value (i, var) = if isBackEdge a then value (varName var) else 0%Q) as -> by (unfold k; simpl; by rewrite Ha).
      unfold sumQ. destruct (isBackEdge a); rewrite ?eval_addLin, ?eval_var; ring. }
  destruct Hfew as (Hd & _ & a & Ha & Hb).
  apply (exact_linEq _ _ (λ v, weightIf v isBackEdge archs - 1)%Q).
  - intros v. by rewrite Hback, eval_const.
  - intros x. rewrite weightIf_zeros. destruct (weightIf_unit x isBackEdge archs Hd) as [E|E]; rewrite E; closed_short.
  - apply (isInteger_proper (inject_Z (-1))); [|apply isInteger_Z]. rewrite weightIf_zeros. done.
  - exists (unitAt (archName a)), zeros. rewrite (weightIf_one isBackEdge archs a Ha Hb Hd), weightIf_zeros. done.
Qed.

Lemma setBBConstraints_exact s s' : NoDup bbs → setBBConstraints archs (theVars archs bbs) s = Ok s' →
  exactProgram s → exactProgram s'.
Proof using Hfew.
  intros Hnd H Hs. unfold setBBConstraints in H. cbn [theVars vBBs] in H. destruct Hfew as (Hd & _ & _).
  refine (foldM_keeps_in _ exactProgram _ _ _ _ H Hs). clear s s' H Hs.
  intros x s s' (bb & _ & ->)%bbVars_elem H Hs; [|done]. apply bind_ok in H as (s1 & H1 & H2).
  assert (∀ P e, (∀ value, evalLin value e == weightIf value P archs)%Q → exactConstr (linEq e (LinExpr_of (bbVar bb)))) as Hrow.
  { intros P e He. apply (exact_linEq _ _ (λ v, weightIf v P archs - v (bbName bb))%Q).
    - intros v. by rewrite He, eval_var.
    - intros x. rewrite weightIf_zeros. unfold zeros.
      destruct (weightIf_unit x P archs Hd) as [E|E]; rewrite E; destruct (unitAt_bit x (bbName bb)) as [-> | ->]; closed_short.
    - apply (isInteger_proper (inject_Z 0)); [|apply isInteger_Z]. rewrite weightIf_zeros. done.
    - exists (unitAt (bbName bb)), zeros. rewrite weightIf_zeros.
      assert (weightIf (unitAt (bbName bb)) P archs == 0)%Q as ->.
      { apply sumQ_zero. intros b _. unfold unitAt. rewrite decide_False by done. by destruct (P b). }
      unfold unitAt, zeros. rewrite decide_True by done. done. }
  eapply addConstr_exact; [exact H2|eapply Hrow; intros; apply eval_pred_succ|].
  eapply addConstr_exact; [exact H1|eapply Hrow; intros; apply eval_pred_succ|done].
Qed.

End Steps.

(** The program of an extraction is written as it is. *)
Lemma extractionModel_exact archs bbs vars s : fewTransitions archs → NoDup bbs → extractionModel archs bbs = Ok (vars, s) →
  exactProgram s ∧ ∃ v v', ¬ (evalLin v (maxObjective s) == evalLin v' (maxObjective s))%Q.
Proof.
  intros Hfew Hb Hm. pose proof Hfew as (Hd & _ & a & Ha & _).
  destruct (extractionModel_spec archs bbs Hd Hb) as (s' & Hm' & _ & Hobj). rewrite Hm in Hm'. injection Hm' as -> ->. split.
  - unfold extractionModel in Hm. destruct (initMILPVariables_spec archs bbs Hd Hb) as (s1 & H1 & _).
    rewrite H1 in Hm. cbn [bind] in Hm. apply bind_ok in Hm as (s2 & H2 & Hm). apply bind_ok in Hm as (s3 & H3 & Hm).
    apply bind_ok in Hm as (s4 & H4 & [= <-]).
    eapply setBBConstraints_exact; [done|done|exact H4|]. eapply setEdgeConstraints_exact; [done|exact H3|].
    eapply setObjective_exact; [exact H2|]. eapply initMILPVariables_exact; [exact H1|]. by split.
  - exists (λ _, 1%Q), zeros. rewrite !Hobj. rewrite (sumQ_zero (λ a, zeros _)) by done.
    assert (∀ l, (0 <= sumQ (λ _ : ArchBB, 1%Q) l)%Q) as Hpos by (induction l as [|x l IH]; simpl; [done|lra]).
    destruct archs as [|b archs]; [by apply elem_of_nil in Ha|]. simpl. specialize (Hpos archs). lra.
Qed.
