(* ===== verification/BlockCycles.v ===== *)
(** The cycle of blocks of a choice-free circuit (CFDFC.cpp, [formCycle]): archs that form
    cycles with a single backedge in all form one cycle, which the constructor finds. *)

From stdpp Require Import list sets.
From S2P Require Import LSQGraph CFDFC CFDFCModel Prelude.

(** * Orbits of an injective function on a finite set *)

Section Orbits.
Context {A : Type} {EqA : EqDecision A} (g : A → A) (B : list A).
Context (Hg : ∀ x, x ∈ B → g x ∈ B) (Hinj : ∀ x y, x ∈ B → y ∈ B → g x = g y → x = y).

Definition orbit (k : nat) (x : A) : list A := map (λ i, Nat.iter i g x) (seq 0 k).

Lemma iter_in i x : x ∈ B → Nat.iter i g x ∈ B.
Proof using EqA Hg. intros Hx. induction i as [|i IH]; simpl; [done|]. by apply Hg. Qed.

Lemma iter_plus i j x : Nat.iter (i + j) g x = Nat.iter i g (Nat.iter j g x).
Proof. induction i as [|i IH]; simpl; [done|]. by rewrite IH. Qed.

Lemma iter_inj i x y : x ∈ B → y ∈ B → Nat.iter i g x = Nat.iter i g y → x = y.
Proof using EqA Hg Hinj. intros Hx Hy. induction i as [|i IH]; simpl; [done|]. intros H. apply IH, Hinj; auto using iter_in. Qed.

Lemma iter_back i j x : x ∈ B → (i ≤ j)%nat → Nat.iter i g x = Nat.iter j g x → Nat.iter (j - i) g x = x.
Proof using EqA Hg Hinj.
  intros Hx Hij H. replace j with (i + (j - i))%nat in H by lia. rewrite iter_plus in H.
  symmetry. apply (iter_inj i); auto using iter_in.
Qed.

Lemma orbit_elem k x y : y ∈ orbit k x ↔ ∃ i, (i < k)%nat ∧ y = Nat.iter i g x.
Proof.
  unfold orbit. rewrite list_elem_of_fmap. split.
  - intros (i & -> & Hi%elem_of_seq). exists i. split; [lia|done].
  - intros (i & Hi & ->). exists i. split; [done|]. apply elem_of_seq. lia.
Qed.

Lemma orbit_length k x : length (orbit k x) = k.
Proof. unfold orbit. by rewrite length_map, length_seq. Qed.

Lemma orbit_lookup k x i : (i < k)%nat → orbit k x !! i = Some (Nat.iter i g x).
Proof. intros Hi. unfold orbit. rewrite list_lookup_fmap, lookup_seq_lt by done. done. Qed.

Lemma orbit_snoc k x : orbit (S k) x = orbit k x ++ [Nat.iter k g x].
Proof. unfold orbit. by rewrite seq_S, map_app. Qed.

Lemma orbit_NoDup k x : x ∈ B → (∀ i, (0 < i < k)%nat → Nat.iter i g x ≠ x) → NoDup (orbit k x).
Proof using EqA Hg Hinj.
  intros Hx Hk. apply NoDup_fmap_2_strong; [|apply NoDup_seq]. intros i j Hi%elem_of_seq Hj%elem_of_seq H.
  destruct (Nat.lt_trichotomy i j) as [Hl|[->|Hl]]; [|done|]; exfalso.
  - apply (Hk (j - i)%nat); [lia|]. apply iter_back; [done|lia|done].
  - apply (Hk (i - j)%nat); [lia|]. by apply iter_back; [|lia|].
Qed.

Lemma orbit_subset k x : x ∈ B → orbit k x ⊆ B.
Proof using EqA Hg. intros Hx y (i & _ & ->)%orbit_elem. by apply iter_in. Qed.

Lemma orbit_closes x : x ∈ B → ∃ k, (0 < k ≤ length B)%nat ∧ Nat.iter k g x = x ∧ NoDup (orbit k x).
Proof using EqA Hg Hinj.
  intros Hx. destruct (list_find (λ k, Nat.iter k g x = x) (seq 1 (length B))) as [[i k]|] eqn:E.
  - apply list_find_Some in E as (Hi & Hk & Hmin). apply lookup_seq in Hi as [-> Hi]. exists (1 + i)%nat.
    split; [lia|]. split; [done|]. apply orbit_NoDup; [done|]. intros j Hj. apply (Hmin (j - 1)%nat); [|lia].
    apply lookup_seq. split; lia.
  - exfalso. assert (NoDup (orbit (S (length B)) x)) as Hnd.
    { apply orbit_NoDup; [done|]. intros i Hi Hx'. apply list_find_None in E.
      apply Forall_elem with (x := i) in E; [done|]. apply elem_of_seq. lia. }
    apply NoDup_submseteq with (k := B) in Hnd; [|by apply orbit_subset].
    apply submseteq_length in Hnd. rewrite orbit_length in Hnd. lia.
Qed.

(** Two orbits that do not start in one another have nothing in common. *)
Lemma orbits_disjoint k x y j : x ∈ B → y ∈ B → (0 < k)%nat → Nat.iter k g x = x → y ∉ orbit k x → Nat.iter j g y ∉ orbit k x.
Proof using EqA Hg Hinj.
  intros Hx Hy Hk Hkx Hn. induction j as [|j IH]; simpl; [done|]. intros (i & Hi & H)%orbit_elem. apply IH, orbit_elem.
  destruct i as [|i]; simpl in H.
  - exists (k - 1)%nat. split; [lia|]. apply Hinj; auto using iter_in. rewrite H.
    transitivity (Nat.iter k g x); [done|]. destruct k as [|k]; [lia|]. simpl. by rewrite Nat.sub_0_r.
  - exists i. split; [lia|]. apply Hinj; auto using iter_in.
Qed.

End Orbits.

(** * One cycle *)

(** The archs follow one another, and the last one leads to the first. *)
Definition closedWalk (l : list ArchBB) : Prop :=
  l ≠ [] ∧ ∀ i a, l !! i = Some a → ∃ b, l !! (S i mod length l)%nat = Some b ∧ dstBB a = srcBB b.

(** The arch is one of the list, whatever its number of transitions. *)
Definition sameArch (a b : ArchBB) : Prop := srcBB a = srcBB b ∧ dstBB a = dstBB b ∧ isBackEdge a = isBackEdge b.
Definition among (archs : list ArchBB) (a : ArchBB) : Prop := ∃ b, b ∈ archs ∧ sameArch a b.

(** Every cycle of archs has a backedge: what the profiler's backedges, archs to a block that
    dominates their source, give in a reducible graph. *)
Definition backedgesCut (archs : list ArchBB) : Prop :=
  ∀ l, closedWalk l → (∀ a, a ∈ l → among archs a) → ∃ a, a ∈ l ∧ isBackEdge a = true.

Definition nextBB (S : list ArchBB) (b : nat) : nat :=
  match list_find (λ a, srcBB a = b) S with Some (_, a) => dstBB a | None => b end.

(** [c] is the cycle that the archs form. *)
Record cycleOf (S : list ArchBB) (c : list nat) : Prop := {
  cycle_NoDup : NoDup c;
  cycle_length : length c = length S;
  cycle_nonempty : c ≠ [];
  cycle_blocks : ∀ bb, bb ∈ c ↔ bb ∈ map srcBB S;
  cycle_steps : ∀ s d, consecutive c s d = true ↔ ∃ a, a ∈ S ∧ srcBB a = s ∧ dstBB a = d }.

Lemma findStart_none u l : findStart u l = None →
  (∀ a, a ∈ l → srcBB a ∉ u ∧ dstBB a ∉ u) ∧ ∀ a a', a ∈ l → a' ∈ l → srcBB a ≠ dstBB a'.
Proof.
  revert u. induction l as [|a l IH]; intros u H; simpl in H; [split; [by intros ? ?%elem_of_nil|by intros ? ? ?%elem_of_nil]|].
  destruct (decide (srcBB a ∈ u)) as [|Hs]; [done|]. destruct (decide (dstBB a ∈ srcBB a :: u)) as [|Hd]; [done|].
  apply IH in H as [H1 H2]. apply not_elem_of_cons in Hd as [Hne Hd]. split.
  - intros b [-> |Hb]%elem_of_cons; [done|]. destruct (H1 b Hb) as [H3 H4]. set_solver.
  - intros b b' [-> |Hb]%elem_of_cons [-> |Hb']%elem_of_cons.
    + done.
    + destruct (H1 b' Hb') as [_ H4]. set_solver.
    + destruct (H1 b Hb) as [H3 _]. set_solver.
    + by apply H2.
Qed.

Lemma findStart_some u l s : findStart u l = Some s → s ∈ map srcBB l ∨ s ∈ map dstBB l.
Proof.
  revert u. induction l as [|a l IH]; intros u H; simpl in *; [done|].
  destruct (decide (srcBB a ∈ u)); [injection H as <-; set_solver|].
  destruct (decide (dstBB a ∈ srcBB a :: u)); [injection H as <-; set_solver|]. apply IH in H. set_solver.
Qed.

Lemma consecutive_spec c s d : consecutive c s d = true ↔
  ∃ i, (i < length c)%nat ∧ c !! i = Some s ∧ c !! (if (i =? length c - 1)%nat then 0%nat else S i) = Some d.
Proof.
  unfold consecutive. rewrite existsb_exists. split.
  - intros (i & Hi%list_elem_of_In%elem_of_seq & H). apply andb_true_iff in H as [H1%bool_decide_eq_true H2%bool_decide_eq_true].
    exists i. split; [lia|done].
  - intros (i & Hi & H1 & H2). exists i. split; [apply list_elem_of_In, elem_of_seq; lia|].
    by rewrite !bool_decide_true.
Qed.

Section Circuit.
Context (S : list ArchBB) (HS : circuit S).
Notation B := (map srcBB S).

Lemma next_arch b : b ∈ B → ∃ a, a ∈ S ∧ srcBB a = b ∧ nextBB S b = dstBB a ∧ list_find (λ a, srcBB a = b) S ≠ None.
Proof using Type.
  intros (a & -> & Ha)%list_elem_of_fmap. unfold nextBB. destruct (list_find _ S) as [[i a']|] eqn:E.
  - apply list_find_Some in E as (Hi & Hs & _). exists a'. split; [by eapply list_elem_of_lookup_2|]. done.
  - apply list_find_None in E. by apply Forall_elem with (x := a) in E.
Qed.

Lemma same_arch a a' : a ∈ S → a' ∈ S → srcBB a = srcBB a' → a = a'.
Proof using HS.
  intros Ha Ha' H. pose proof (circuit_src _ HS) as Hn. apply list_elem_of_lookup in Ha as [i Hi]. apply list_elem_of_lookup in Ha' as [j Hj].
  assert (i = j) as ->; [|congruence].
  eapply (NoDup_lookup B i j (srcBB a)); [done|by rewrite list_lookup_fmap, Hi|]. rewrite list_lookup_fmap, Hj. by rewrite H.
Qed.

Lemma next_is a : a ∈ S → nextBB S (srcBB a) = dstBB a.
Proof using HS.
  intros Ha. destruct (next_arch (srcBB a)) as (a' & Ha' & Hs & -> & _); [apply list_elem_of_fmap; eauto|].
  f_equal. by apply same_arch.
Qed.

Lemma next_in b : b ∈ B → nextBB S b ∈ B.
Proof using HS.
  intros Hb. destruct (next_arch b Hb) as (a & Ha & _ & -> & _). apply (circuit_same _ HS), list_elem_of_fmap. eauto.
Qed.

Lemma next_inj b b' : b ∈ B → b' ∈ B → nextBB S b = nextBB S b' → b = b'.
Proof using HS.
  intros Hb Hb' H. destruct (next_arch b Hb) as (a & Ha & <- & Hn & _). destruct (next_arch b' Hb') as (a' & Ha' & <- & Hn' & _).
  rewrite Hn, Hn' in H. apply list_elem_of_lookup in Ha as [i Hi]. apply list_elem_of_lookup in Ha' as [j Hj].
  assert (i = j) as ->; [|congruence].
  eapply (NoDup_lookup (map dstBB S) i j (dstBB a)); [apply (circuit_dst _ HS)|by rewrite list_lookup_fmap, Hi|].
  rewrite list_lookup_fmap, Hj. by rewrite H.
Qed.

(** A closed orbit is a cycle of archs. *)
Lemma orbit_backedge k b : backedgesCut S → b ∈ B → (0 < k)%nat → Nat.iter k (nextBB S) b = b →
  ∃ a, a ∈ S ∧ isBackEdge a = true ∧ srcBB a ∈ orbit (nextBB S) k b.
Proof using HS.
  intros Hcut Hb Hk Hkb.
  assert (∃ l, length l = k ∧ ∀ i, (i < k)%nat → ∃ a, l !! i = Some a ∧ a ∈ S ∧ srcBB a = Nat.iter i (nextBB S) b) as (l & Hl & Hla).
  { clear Hk Hkb. induction k as [|k (l & Hl & IH)]; [exists []; split; [done|lia]|].
    destruct (next_arch (Nat.iter k (nextBB S) b)) as (a & Ha & Hs & _); [apply iter_in; [apply next_in|done]|].
    exists (l ++ [a]). split; [rewrite length_app; simpl; lia|]. intros i Hi. destruct (decide (i = k)) as [->|Hne].
    - exists a. split; [|done]. by apply lookup_snoc_Some; right.
    - destruct (IH i) as (a' & Ha' & ?); [lia|]. exists a'. split; [|done]. rewrite lookup_app_l by lia. done. }
  destruct (Hcut l) as (a & Ha & Hback).
  - split; [intros ->; simpl in Hl; lia|]. intros i a Hi. assert (i < k)%nat as Hik by (rewrite <-Hl; by eapply lookup_lt_Some).
    destruct (Hla i Hik) as (a' & Ha' & HaS & Hs). assert (a' = a) as -> by congruence.
    destruct (Hla ((i + 1) mod k)%nat) as (c & Hc & _ & Hcs); [apply Nat.mod_upper_bound; lia|].
    exists c. rewrite Hl. replace (Datatypes.S i) with (i + 1)%nat by lia. split; [done|]. rewrite Hcs, <-next_is, Hs by done.
    destruct (decide (i + 1 = k)%nat) as [He|Hne].
    + rewrite He, Nat.Div0.mod_same by lia. simpl. rewrite <-Hkb at 2. replace k with (Datatypes.S i) by lia. done.
    + rewrite Nat.mod_small by lia. by rewrite Nat.add_comm.
  - intros a Ha. apply list_elem_of_lookup in Ha as [i Hi]. assert (i < k)%nat as Hik by (rewrite <-Hl; by eapply lookup_lt_Some).
    destruct (Hla i Hik) as (a' & Ha' & HaS & _). exists a. split; [congruence|done].
  - apply list_elem_of_lookup in Ha as [i Hi]. assert (i < k)%nat as Hik by (rewrite <-Hl; by eapply lookup_lt_Some).
    destruct (Hla i Hik) as (a' & Ha' & HaS & Hs). assert (a' = a) as -> by congruence.
    exists a. split; [done|]. split; [done|]. apply orbit_elem. exists i. done.
Qed.

(** The orbit of a block goes through all blocks. *)
Lemma orbit_all b : backedgesCut S → b ∈ B →
  Nat.iter (length S) (nextBB S) b = b ∧ NoDup (orbit (nextBB S) (length S) b).
Proof using HS.
  intros Hcut Hb. destruct (orbit_closes (nextBB S) B next_in next_inj b Hb) as (k & [Hk Hkl] & Hkb & Hnd).
  rewrite length_map in Hkl. destruct (decide (k = length S)) as [->|Hne]; [done|]. exfalso.
  destruct (decide (Exists (λ y, y ∉ orbit (nextBB S) k b) B)) as [Hy|Hy].
  - apply Exists_exists in Hy as (y & Hy%list_elem_of_In & Hn).
    destruct (orbit_closes (nextBB S) B next_in next_inj y Hy) as (k' & [Hk' _] & Hky & _).
    destruct (orbit_backedge k b Hcut Hb Hk Hkb) as (a & Ha & Hba & Hs).
    destruct (orbit_backedge k' y Hcut Hy Hk' Hky) as (a' & Ha' & Hba' & (i & Hi & Hs')%orbit_elem).
    destruct (circuit_backedge _ HS) as [c Hc].
    assert (∀ x, x ∈ S → isBackEdge x = true → x = c) as Huniq.
    { intros x Hx Hbx. apply list_elem_of_singleton. rewrite <-Hc. by apply list_elem_of_filter. }
    rewrite (Huniq a), <-(Huniq a'), Hs' in Hs by done.
    by eapply (orbits_disjoint (nextBB S) B next_in next_inj k b y i).
  - apply not_Exists_Forall in Hy; [|apply _]. assert (B ⊆ orbit (nextBB S) k b) as Hsub.
    { intros x Hx. apply dec_stable. by apply (proj1 (Forall_elem _ _) Hy x). }
    apply NoDup_submseteq in Hsub; [|apply (circuit_src _ HS)]. apply submseteq_length in Hsub.
    rewrite length_map, orbit_length in Hsub. lia.
Qed.

Lemma followArch_step c b : b ∈ B → followArch S (c, b) = (setInsert (nextBB S b) c, nextBB S b).
Proof using Type.
  intros Hb. destruct (next_arch b Hb) as (_ & _ & _ & _ & Hf). unfold followArch, nextBB.
  by destruct (list_find _ S) as [[i a]|].
Qed.

Lemma followArch_iter b j : b ∈ B → NoDup (orbit (nextBB S) (Datatypes.S j) b) →
  Nat.iter j (followArch S) ([b], b) = (orbit (nextBB S) (Datatypes.S j) b, Nat.iter j (nextBB S) b).
Proof using HS.
  intros Hb. induction j as [|j IH]; intros Hnd; [done|]. rewrite orbit_snoc in Hnd.
  apply list.NoDup_app in Hnd as (Hnd & Hn & _). cbn [Nat.iter nat_rect]. unfold Nat.iter in IH |- *. simpl.
  rewrite IH by done. rewrite followArch_step by (apply (iter_in (nextBB S)); [apply next_in|done]).
  f_equal. rewrite (orbit_snoc _ (Datatypes.S j)). unfold setInsert. rewrite decide_False; [done|].
  intros Hin. apply (Hn _ Hin). apply list_elem_of_singleton. done.
Qed.

Lemma orbit_cycle b : backedgesCut S → b ∈ B → cycleOf S (orbit (nextBB S) (length S) b).
Proof using HS.
  intros Hcut Hb. destruct (orbit_all b Hcut Hb) as [Hclose Hnd].
  assert (0 < length S)%nat as Hpos by (apply list_elem_of_fmap in Hb as (a & _ & Ha); destruct S; [by apply elem_of_nil in Ha|simpl; lia]).
  assert (∀ x, x ∈ orbit (nextBB S) (length S) b ↔ x ∈ B) as Hsame.
  { intros x. split; [by apply orbit_subset; [apply next_in|]|]. intros Hx.
    assert (B ≡ₚ orbit (nextBB S) (length S) b) as <-; [|done]. symmetry. apply submseteq_length_Permutation.
    - apply NoDup_submseteq; [done|]. by apply orbit_subset; [apply next_in|].
    - by rewrite length_map, orbit_length. }
  assert (∀ i, (i < length S)%nat → orbit (nextBB S) (length S) b !!
    (if (i =? length S - 1)%nat then 0%nat else Datatypes.S i) = Some (nextBB S (Nat.iter i (nextBB S) b))) as Hnext.
  { intros i Hi. destruct (Nat.eqb_spec i (length S - 1)) as [->|Hne].
    - rewrite orbit_lookup by lia. simpl. f_equal. rewrite <-Hclose at 1.
      destruct (length S) as [|n]; [lia|]. simpl. by rewrite Nat.sub_0_r.
    - by rewrite orbit_lookup by lia. }
  split; [done|apply orbit_length| |done|].
  - intros Hnil. apply (f_equal length) in Hnil. rewrite orbit_length in Hnil. simpl in Hnil. lia.
  - intros s d. rewrite consecutive_spec, orbit_length. split.
    + intros (i & Hi & H1 & H2). rewrite Hnext in H2 by done. rewrite orbit_lookup in H1 by done. injection H1 as <-. injection H2 as <-.
      destruct (next_arch (Nat.iter i (nextBB S) b)) as (a & Ha & Hs & Hn & _); [by apply iter_in; [apply next_in|]|]. eauto.
    + intros (a & Ha & <- & <-). assert (srcBB a ∈ orbit (nextBB S) (length S) b) as Hs by (apply Hsame, list_elem_of_fmap; eauto).
      apply orbit_elem in Hs as (i & Hi & Hs). exists i. split; [done|]. rewrite orbit_lookup, Hnext by done.
      by rewrite <-Hs, next_is.
Qed.

(** The constructor finds the cycle. *)
Lemma formCycle_cycle : backedgesCut S → ∃ c, formCycle S = Ok c ∧ cycleOf S c.
Proof using HS.
  intros Hcut. unfold formCycle. destruct (findStart [] S) as [s|] eqn:E.
  - assert (s ∈ B) as Hs by (apply findStart_some in E as [|]; [done|by apply (circuit_same _ HS)]).
    destruct (orbit_all s Hcut Hs) as [_ Hnd].
    assert (0 < length S)%nat as Hpos by (apply list_elem_of_fmap in Hs as (a & _ & Ha); destruct S; [by apply elem_of_nil in Ha|simpl; lia]).
    replace (length S) with (Datatypes.S (length S - 1)) in Hnd by lia.
    rewrite followArch_iter by done. cbn [fst].
    replace (Datatypes.S (length S - 1)) with (length S) by lia. rewrite orbit_length, Nat.eqb_refl. simpl.
    eexists. split; [done|]. by apply orbit_cycle.
  - exfalso. apply findStart_none in E as [_ E]. destruct (circuit_backedge _ HS) as [a Ha].
    assert (a ∈ filter (λ a, isBackEdge a = true) S) as Hin by (rewrite Ha; left).
    apply list_elem_of_filter in Hin as [_ Hin].
    assert (srcBB a ∈ map dstBB S) as Hd by (apply (circuit_same _ HS), list_elem_of_fmap; eauto).
    apply list_elem_of_fmap in Hd as (a' & Hd & Ha'). by apply (E a a').
Qed.

End Circuit.
