(* ===== verification/CFDFCThms.v ===== *)
(** The extraction of choice-free circuits (CFDFC.cpp, [getCFDFCs]): every extraction gives
    one cycle of blocks, the loop ends, and when it stops no cycle of archs with
    transitions left and a single backedge remains: such a cycle is a solution of the
    program, with a better objective than that of no execution. *)

From stdpp Require Import strings gmap pretty.
From Stdlib Require Import QArith Lqa.
From S2P Require Import CircuitIR CFG LSQGraph CFDFC LinearPrograms LpFormat CFDFCModel CFDFCFiles BlockCycles Sums Prelude.

(** * One extraction *)

(** What is asked of the archs: distinct ends, counts of 32 bits. *)
Record archsOk (archs : list ArchBB) (bbs : list nat) : Prop := {
  archs_distinct : distinctArchs archs;
  archs_range : ∀ a, a ∈ archs → 0 ≤ numTrans a < 2 ^ 32;
  bbs_NoDup : NoDup bbs;
  bbs_ends : ∀ a, a ∈ archs → srcBB a ∈ bbs ∧ dstBB a ∈ bbs }.

(** The archs after one of the circuits they form was executed [n] times. *)
Definition spend (S : list ArchBB) (n : Z) (a : ArchBB) : ArchBB :=
  if decide ((srcBB a, dstBB a) ∈ map (λ a, (srcBB a, dstBB a)) S)
  then mkArchBB (srcBB a) (dstBB a) (numTrans a - n) (isBackEdge a) else a.

(** A circuit that can be extracted from the archs. *)
Record extracted (archs S : list ArchBB) (n : Z) : Prop := {
  ext_circuit : circuit S;
  ext_in : ∀ a, a ∈ S → a ∈ archs ∧ n ≤ numTrans a;
  ext_execs : 0 < n ≤ 10000 }.

Lemma toUnsigned_inject q n : (q == inject_Z n)%Q → 0 ≤ n < 2 ^ 32 → toUnsigned q = Ok n.
Proof.
  intros Hq Hn. unfold toUnsigned. assert (Z.quot (Qnum q) (Zpos (Qden q)) = n) as ->.
  { unfold Qeq in Hq. simpl in Hq. rewrite Z.mul_1_r in Hq. rewrite Hq. by apply Z.quot_mul. }
  destruct (Z.leb_spec 0 n), (Z.ltb_spec n (2 ^ 32)); simpl; (done || lia).
Qed.

Lemma same_ends archs a b : distinctArchs archs → a ∈ archs → b ∈ archs → srcBB a = srcBB b → dstBB a = dstBB b → a = b.
Proof.
  intros Hd Ha Hb Hs He. apply list_elem_of_lookup in Ha as [i Hi]. apply list_elem_of_lookup in Hb as [j Hj].
  assert (i = j) as ->; [|congruence].
  eapply (NoDup_lookup _ i j (srcBB a, dstBB a) Hd); rewrite list_lookup_fmap; [by rewrite Hi|rewrite Hj; by rewrite Hs, He].
Qed.

(** The positions of the selected archs are those of [chosenArchs]. *)
Lemma selected_elem archs value i : i ∈ omap (λ '(i, var), if negb (Qle_bool (value (varName var)) 0) then Some i else None) (archVars archs) ↔
  ∃ a, archs !! i = Some a ∧ chosen value a = true.
Proof.
  rewrite list_elem_of_omap. split.
  - intros ((j, v) & Hin & H). apply archVars_elem in Hin as (a & Ha & ->). simpl in H.
    destruct (negb (Qle_bool (value (archName a)) 0)) eqn:E; [|done]. injection H as ->. by exists a.
  - intros (a & Ha & Hc). exists (i, archVar a). split; [apply archVars_elem; eauto|]. simpl. unfold chosen in Hc. by rewrite Hc.
Qed.

Lemma selected_archs archs value :
  omap (archs !!.) (omap (λ '(i, var), if negb (Qle_bool (value (varName var)) 0) then Some i else None) (archVars archs)) =
  chosenArchs value archs.
Proof.
  unfold archVars, chosenArchs.
  assert (∀ pre l, archs = pre ++ l →
    omap (archs !!.) (omap (λ '(i, var), if negb (Qle_bool (value (varName var)) 0) then Some i else None)
      (map (λ '(i, a), (i, archVar a)) (imap (λ i a, (length pre + i, a)%nat) l))) = filter (λ a, chosen value a = true) l) as H.
  { intros pre l. revert pre. induction l as [|a l IH]; intros pre Hl; [done|]. simpl. rewrite filter_cons.
    assert (imap ((λ (i : nat) (a0 : ArchBB), ((length pre + i)%nat, a0)) ∘ S) l = imap (λ i a0, (length (pre ++ [a]) + i, a0)%nat) l) as ->.
    { apply imap_ext. intros j x _. simpl. f_equal. rewrite length_app. simpl. lia. }
    specialize (IH (pre ++ [a])). rewrite <-app_assoc in IH. specialize (IH Hl).
    destruct (decide (chosen value a = true)) as [Hc|Hc].
    - unfold chosen in Hc. rewrite Hc. simpl. rewrite Nat.add_0_r.
      replace (archs !! length pre) with (Some a) by (rewrite Hl; by rewrite list_lookup_middle). f_equal. exact IH.
    - apply not_true_iff_false in Hc. unfold chosen in Hc. rewrite Hc. exact IH. }
  by apply (H [] archs).
Qed.

Section Extraction.
Context (solve : Solver) (archs : list ArchBB) (bbs : list nat).
Context (Hok : archsOk archs bbs).

(** The answer is a failure, the end, or a circuit whose executions are taken off its archs. *)
Lemma extractCFDFC_spec vars s : extractionModel archs bbs = Ok (vars, s) →
  (fst (solve s) = OPTIMAL → feasible (snd (solve s)) s) →
  (extractCFDFC solve archs bbs = Ok None ∧ fst (solve s) ≠ OPTIMAL) ∨
  (extractCFDFC solve archs bbs = Ok (Some ([], 0, archs)) ∧ fst (solve s) = OPTIMAL ∧ (snd (solve s) "varMaxExecs" == 0)%Q) ∨
  ∃ selected n, extractCFDFC solve archs bbs = Ok (Some (selected, n, map (spend (omap (archs !!.) selected) n) archs)) ∧
    extracted archs (omap (archs !!.) selected) n.
Proof.
  intros Hm Hsolve. destruct Hok as [Hd Hr Hb He]. destruct (extractionModel_spec archs bbs Hd Hb) as (s' & Hm' & Hf & _).
  rewrite Hm in Hm'. injection Hm' as -> ->. unfold extractCFDFC. rewrite Hm. cbn [bind].
  destruct (solve s') as [status value]; cbn [fst snd] in *. case_bool_decide as Hst; cbn [negb]; [|by left].
  right. specialize (Hsolve Hst). apply Hf in Hsolve as Hsol.
  destruct (executions archs bbs value Hsol He) as (n & Hn & Hn0 & Hn1 & Hna).
  rewrite (toUnsigned_inject _ n); [|exact Hn|].
  2: { split; [lia|]. destruct Hn0 as [_ Hn0]. eapply Z.le_lt_trans; [exact Hn0|].
       apply maxNumTrans_lt; [lia|]. intros a Ha. by apply Hr. }
  cbn [bind]. destruct (Z.eqb_spec n 0) as [->|Hne]; [left|right].
  - split; [done|]. split; [done|]. by rewrite Hn.
  - eexists _, n. split.
    + do 4 f_equal. apply list_eq. intros i. rewrite list_lookup_imap, list_lookup_fmap.
      destruct (archs !! i) as [a|] eqn:Ha; [|done]. cbn [fmap option_fmap option_map]. f_equal. unfold spend.
      rewrite selected_archs. assert (a ∈ archs) as Hin by (by eapply list_elem_of_lookup_2).
      assert ((srcBB a, dstBB a) ∈ map (λ a, (srcBB a, dstBB a)) (chosenArchs value archs) ↔ chosen value a = true) as Hiff.
      { split.
        - intros (b & [= Hs' Hd'] & [Hb' Hc]%chosen_in)%list_elem_of_fmap. by rewrite (same_ends archs a b).
        - intros Hc. apply list_elem_of_fmap. exists a. split; [done|]. by apply list_elem_of_filter. }
      destruct (decide (chosen value a = true)) as [Hc|Hc].
      * rewrite decide_True by (apply selected_elem; eauto). rewrite decide_True by (by apply Hiff). f_equal. apply wrapU_small.
        assert (a ∈ chosenArchs value archs) as Hca by (by apply list_elem_of_filter). specialize (Hna a Hca).
        specialize (Hr a Hin). lia.
      * rewrite decide_False by (intros Hi; apply selected_elem in Hi as (b & Hb' & Hc'); congruence).
        by rewrite decide_False by (by rewrite Hiff).
    + rewrite selected_archs. split; [by apply (chosen_circuit archs bbs)| |lia].
      intros a Ha. split; [by apply (chosen_in archs value)|by apply Hna].
Qed.

End Extraction.

(** * The circuit of a cycle *)

Lemma setInsert_elem {A} `{EqDecision A} (x y : A) l : y ∈ setInsert x l ↔ y = x ∨ y ∈ l.
Proof. unfold setInsert. case_decide; [naive_solver|]. rewrite elem_of_app, list_elem_of_singleton. tauto. Qed.

Lemma consecutive_blocks c s d : consecutive c s d = true → s ∈ c ∧ d ∈ c.
Proof. intros (i & _ & H1 & H2)%consecutive_spec. split; by eapply list_elem_of_lookup_2. Qed.

Section Circuit.
Context (f : FuncOp) (fuel : nat) (backward : option (gset Value)).

(** Every value has a single user, and whether it is a backedge is defined. *)
Definition channelsKnown : bool :=
  forallb (λ o, forallb (λ v, is_ok (singleUser f v) && is_ok (isCFDFCBackedge f fuel v) && is_ok (isBackedgeOf f fuel v false))
    (results o)) (ops f).

(** The operation is in one of the blocks. *)
Definition inBlocks (c : list nat) (i : OpId) : Prop :=
  ∃ o bb, ops f !! i = Some o ∧ logicBB o = Some bb ∧ bb ∈ c.

(** Whether a channel between two blocks belongs to the circuit of the cycle. *)
Definition channelIn (c : list nat) (s d : nat) (v : Value) : Prop :=
  match backward with
  | Some B => d ∈ c ∧ (v ∈ B → consecutive c s d = true)
  | None => if decide (s = d) then length c = 1%nat ∨ ∃ e, isBackedgeOf f fuel v false = Ok (false, e)
            else consecutive c s d = true
  end.

(** A result of an operation of the cycle that the circuit has as a channel. *)
Definition cycleChannel (c : list nat) (v : Value) : Prop :=
  ∃ i o s u d, ops f !! i = Some o ∧ v ∈ results o ∧ logicBB o = Some s ∧ s ∈ c ∧
    singleUser f v = Ok u ∧ getLogicBB f u = Ok (Some d) ∧ channelIn c s d v.

Definition resultKnown (v : Value) : Prop :=
  ∃ u bb back e b, singleUser f v = Ok u ∧ getLogicBB f u = Ok bb ∧ isCFDFCBackedge f fuel v = Ok back ∧
    isBackedgeOf f fuel v false = Ok (b, e).

Lemma singleUser_logicBB v u : singleUser f v = Ok u → ∃ bb, getLogicBB f u = Ok bb.
Proof using Type.
  unfold singleUser. destruct (getUsers f v) as [|u' [|]] eqn:E; [done| |done]. intros [= <-].
  assert (u' ∈ getUsers f v) as Hu by (rewrite E; left). apply getUsers_elem in Hu as (o & Ho & _).
  unfold getLogicBB, opAt. rewrite Ho. simpl. by eexists.
Qed.

Lemma known_result o v : channelsKnown = true → o ∈ ops f → v ∈ results o → resultKnown v.
Proof using Type.
  intros H Ho Hv. unfold channelsKnown in H. rewrite forallb_forall in H. specialize (H o (proj1 (list_elem_of_In _ _) Ho)).
  rewrite forallb_forall in H. specialize (H v (proj1 (list_elem_of_In _ _) Hv)).
  apply andb_true_iff in H as [[H1 H2]%andb_true_iff H3].
  destruct (singleUser f v) as [u|] eqn:Eu; [|done]. destruct (singleUser_logicBB v u Eu) as [bb Hbb].
  destruct (isCFDFCBackedge f fuel v) as [b|] eqn:Eb; [|done].
  destruct (isBackedgeOf f fuel v false) as [[b' e]|] eqn:Eb'; [|done]. by exists u, bb, b, e, b'.
Qed.

(** A channel that a result adds, and the backedges it may add. *)
Lemma addResult_spec c s st v : resultKnown v →
  ∃ ch be, addResultToCFDFC f fuel backward c s st v = Ok (ch, be) ∧
    (∀ w, w ∈ ch ↔ w ∈ fst st ∨ (w = v ∧ ∃ u d, singleUser f v = Ok u ∧ getLogicBB f u = Ok (Some d) ∧ channelIn c s d v)) ∧
    (backward = None → (∀ w, w ∈ snd st → w ∈ fst st) → ∀ w, w ∈ be → w ∈ ch).
Proof using Type.
  intros (u & bb & back & e & b & Hu & Hbb & Hc & Hb). destruct st as [ch be]. unfold addResultToCFDFC. rewrite Hu. cbn [bind].
  rewrite Hbb. cbn [bind]. destruct bb as [d|].
  2: { exists ch, be. split; [done|]. split; [|done]. intros w. cbn [fst]. split; [by left|].
       intros [|(_ & u' & d & Hu' & Hd & _)]; [done|]. congruence. }
  assert (∀ P : Prop, (channelIn c s d v ↔ P) → ∀ w, (w ∈ ch ∨ (w = v ∧ ∃ u' d, Ok u = Ok u' ∧
      getLogicBB f u' = Ok (Some d) ∧ channelIn c s d v)) ↔ (w ∈ ch ∨ w = v ∧ P)) as Hiff.
  { intros P HP w. split; intros [|[-> H]]; [by left| |by left|].
    - right. split; [done|]. destruct H as (u' & d' & Hu' & Hd' & H). apply HP. congruence.
    - right. split; [done|]. exists u, d. split; [done|]. split; [done|]. by apply HP. }
  cbn [fst snd]. destruct backward as [B|] eqn:EB.
  - case_bool_decide as Hdc; cbn [negb].
    + case_bool_decide as HvB; cbn [negb].
      * do 2 eexists. split; [done|]. split; [|done]. intros w. rewrite (Hiff (consecutive c s d = true)) by (unfold channelIn; rewrite EB; tauto).
        unfold isCFGCompliant. destruct (consecutive c s d); [rewrite setInsert_elem; tauto|]. naive_solver.
      * do 2 eexists. split; [done|]. split; [|done]. intros w. rewrite (Hiff True) by (unfold channelIn; rewrite EB; tauto). rewrite setInsert_elem. tauto.
    + do 2 eexists. split; [done|]. split; [|done]. intros w. rewrite (Hiff False) by (unfold channelIn; rewrite EB; tauto). tauto.
  - case_bool_decide as Hsd; cbn [negb].
    + destruct (Nat.eqb_spec (length c) 1).
      * rewrite Hc. cbn [bind]. do 2 eexists. split; [done|]. split.
        -- intros w. rewrite (Hiff True), setInsert_elem by (unfold channelIn; rewrite EB, decide_True by done; tauto). tauto.
        -- intros _ Hin w. rewrite setInsert_elem. destruct back; [rewrite setInsert_elem|]; naive_solver.
      * rewrite Hb. cbn [bind]. destruct b; cbn [negb].
        -- do 2 eexists. split; [done|]. split; [|auto]. intros w. rewrite (Hiff False); [tauto|].
           unfold channelIn. rewrite EB, decide_True by done. split; [|done]. intros [|[e' He]]; [done|congruence].
        -- do 2 eexists. split; [done|]. split; [|intros _ Hin w Hw; rewrite setInsert_elem; naive_solver].
           intros w. rewrite (Hiff True), setInsert_elem; [tauto|]. unfold channelIn. rewrite EB, decide_True by done. split; [done|]. intros _. right. by exists e.
    + destruct (consecutive c s d) eqn:Econ.
      * rewrite Hc. cbn [bind]. do 2 eexists. split; [done|]. split.
        -- intros w. rewrite (Hiff True), setInsert_elem by (unfold channelIn; rewrite EB, decide_False by done; tauto). tauto.
        -- intros _ Hin w. rewrite setInsert_elem. destruct back; [rewrite setInsert_elem|]; naive_solver.
      * do 2 eexists. split; [done|]. split; [|auto]. intros w. rewrite (Hiff False); [tauto|]. unfold channelIn. rewrite EB, decide_False by done. split; [congruence|done].
Qed.

Lemma addResults_spec c s vs : (∀ v, v ∈ vs → resultKnown v) → ∀ st,
  ∃ ch be, foldM (addResultToCFDFC f fuel backward c s) st vs = Ok (ch, be) ∧
    (∀ w, w ∈ ch ↔ w ∈ fst st ∨ (w ∈ vs ∧ ∃ u d, singleUser f w = Ok u ∧ getLogicBB f u = Ok (Some d) ∧ channelIn c s d w)) ∧
    (backward = None → (∀ w, w ∈ snd st → w ∈ fst st) → ∀ w, w ∈ be → w ∈ ch).
Proof using Type.
  induction vs as [|v vs IH]; intros Hk st; simpl.
  { destruct st as [ch be]. exists ch, be. split; [done|]. split; [|auto]. intros w. split; [by left|]. by intros [|[?%elem_of_nil _]]. }
  destruct (addResult_spec c s st v) as (ch & be & H1 & H2 & H3); [apply Hk; left|]. rewrite H1. cbn [bind].
  destruct (IH ltac:(intros; apply Hk; by right) (ch, be)) as (ch' & be' & H4 & H5 & H6).
  exists ch', be'. split; [done|]. split; [|intros Hn Hin w; apply H6; [done|by apply H3]].
  intros w. rewrite H5. cbn [fst]. rewrite H2, elem_of_cons. split; [|naive_solver].
  intros [[?|[-> H]]|[? H]]; [by left|right; split; [by left|done]|right; split; [by right|done]].
Qed.

(** What the constructor makes of a cycle of blocks. *)
Record circuitOf (c : list nat) (cf : CFDFC) : Prop := {
  cf_units : ∀ i, i ∈ units cf ↔ inBlocks c i;
  cf_channels : ∀ v, v ∈ channels cf ↔ cycleChannel c v;
  cf_backedges : backward = None → ∀ v, v ∈ backedges cf → v ∈ channels cf }.

Lemma CFDFC_new_spec archs n c : channelsKnown = true → formCycle archs = Ok c →
  ∃ cf, CFDFC_new f fuel archs n backward = Ok cf ∧ cycle cf = c ∧ numExecs cf = n ∧ circuitOf c cf.
Proof using Type.
  intros Hk Hc. unfold CFDFC_new. rewrite Hc. cbn [bind]. set (step := λ '(us, ch, be) '(i, op), _).
  assert (∀ l pre, ops f = pre ++ l → ∀ us ch be, ∃ us' ch' be',
    foldM step (us, ch, be) (imap (λ i o, (length pre + i, o)%nat) l) = Ok (us', ch', be') ∧
    (∀ i, i ∈ us' ↔ i ∈ us ∨ (length pre ≤ i)%nat ∧ inBlocks c i) ∧
    (∀ v, v ∈ ch' ↔ v ∈ ch ∨ ∃ i o s u d, (length pre ≤ i)%nat ∧ ops f !! i = Some o ∧ v ∈ results o ∧ logicBB o = Some s ∧ s ∈ c ∧
       singleUser f v = Ok u ∧ getLogicBB f u = Ok (Some d) ∧ channelIn c s d v) ∧
    (backward = None → (∀ v, v ∈ be → v ∈ ch) → ∀ v, v ∈ be' → v ∈ ch')) as H.
  2: { destruct (H (ops f) [] eq_refl [] [] []) as (us & ch & be & H1 & H2 & H3 & H4). simpl in H1.
       change (imap pair (ops f)) with (imap (λ (i : nat) (o : Operation), (i, o)) (ops f)). rewrite H1. cbn [bind]. eexists. split; [done|]. split; [done|]. split; [done|]. split; simpl.
       - intros i. rewrite H2. split; [intros [?%elem_of_nil|[_ ?]]; done|]. right. split; [simpl; lia|done].
       - intros v. rewrite H3. unfold cycleChannel. split; [intros [?%elem_of_nil|(i & o & s & u & d & _ & H5)]; [done|]; by exists i, o, s, u, d|].
         intros (i & o & s & u & d & H5). right. exists i, o, s, u, d. split; [simpl; lia|done].
       - intros Hn. apply H4; [done|]. by intros v ?%elem_of_nil. }
  induction l as [|o l IH]; intros pre Hl us ch be; [|rewrite imap_cons]; cbn [foldM imap].
  { assert (∀ i o, ops f !! i = Some o → (i < length pre)%nat) as Hlt by (intros i o Hi; rewrite Hl, app_nil_r in Hi; by eapply lookup_lt_Some).
    exists us, ch, be. split; [done|]. split; [|split; [|done]].
    - intros i. split; [by left|]. intros [|(Hi & o & bb & Ho & _)]; [done|]. apply Hlt in Ho. lia.
    - intros v. split; [by left|]. intros [|(i & o & s & u & d & Hi & Ho & _)]; [done|]. apply Hlt in Ho. lia. }
  assert (ops f !! length pre = Some o) as Ho by (rewrite Hl; by rewrite list_lookup_middle).
  assert (∀ i, (length pre ≤ i)%nat ↔ i = length pre ∨ (length (pre ++ [o]) ≤ i)%nat) as Hsplit by (intros i; rewrite length_app; simpl; lia).
  assert (imap ((λ (i : nat) (o0 : Operation), ((length pre + i)%nat, o0)) ∘ S) l = imap (λ i o0, (length (pre ++ [o]) + i, o0)%nat) l) as ->
    by (apply imap_ext; intros j x _; simpl; f_equal; rewrite length_app; simpl; lia).
  assert (∃ us1 ch1 be1, step (us, ch, be) ((length pre + 0)%nat, o) = Ok (us1, ch1, be1) ∧
    (∀ i, i ∈ us1 ↔ i ∈ us ∨ i = length pre ∧ inBlocks c i) ∧
    (∀ v, v ∈ ch1 ↔ v ∈ ch ∨ ∃ s u d, v ∈ results o ∧ logicBB o = Some s ∧ s ∈ c ∧
       singleUser f v = Ok u ∧ getLogicBB f u = Ok (Some d) ∧ channelIn c s d v) ∧
    (backward = None → (∀ v, v ∈ be → v ∈ ch) → ∀ v, v ∈ be1 → v ∈ ch1)) as (us1 & ch1 & be1 & E1 & E2 & E3 & E4).
  { rewrite Nat.add_0_r. unfold step. destruct (logicBB o) as [s|] eqn:Es.
    2: { exists us, ch, be. split; [done|]. split; [|split; [|done]].
         - intros i. split; [by left|]. intros [|(-> & o' & bb & Ho' & Hbb & _)]; [done|]. congruence.
         - intros v. split; [by left|]. intros [|(s & _ & _ & _ & Hs & _)]; done. }
    case_bool_decide as Hsc; cbn [negb].
    2: { exists us, ch, be. split; [done|]. split; [|split; [|done]].
         - intros i. split; [by left|]. intros [|(-> & o' & bb & Ho' & Hbb & ?)]; [done|]. congruence.
         - intros v. split; [by left|]. intros [|(s' & _ & _ & _ & Hs & ? & _)]; [done|]. congruence. }
    destruct (addResults_spec c s (results o)) with (st := (ch, be)) as (ch1 & be1 & H1 & H2 & H3).
    { intros v Hv. eapply known_result; [done|by eapply list_elem_of_lookup_2|done]. }
    rewrite H1. cbn [bind]. exists (setInsert (length pre) us), ch1, be1. split; [done|]. split; [|split; [|done]].
    - intros i. rewrite setInsert_elem. split; [|tauto]. intros [->|]; [|by left]. right. split; [done|]. by exists o, s.
    - intros v. rewrite H2. cbn [fst]. split; [intros [|(? & u & d & ?)]; [by left|right; by exists s, u, d]|].
      intros [|(s' & u & d & ? & [= <-] & _ & ?)]; [by left|]. right. split; [done|]. by exists u, d. }
  rewrite E1. cbn [bind]. destruct (IH (pre ++ [o])) with (us := us1) (ch := ch1) (be := be1) as (us2 & ch2 & be2 & F1 & F2 & F3 & F4);
    [by rewrite <-app_assoc|].
  exists us2, ch2, be2. split; [done|]. split; [|split; [|intros Hn Hin; apply F4; [done|by apply E4]]].
  - intros i. rewrite F2, E2, Hsplit. tauto.
  - intros v. rewrite F3, E3. split.
    + intros [[|(s & u & d & H)]|(i & o' & s & u & d & Hi & H)]; [by left| |]; right.
      * exists (length pre), o, s, u, d. split; [lia|]. by split.
      * exists i, o', s, u, d. split; [apply Hsplit; by right|done].
    + intros [|(i & o' & s & u & d & Hi & H)]; [by do 2 left|]. apply Hsplit in Hi as [->|Hi].
      * left. right. destruct H as [Ho' H]. assert (o' = o) as -> by congruence. by exists s, u, d.
      * right. by exists i, o', s, u, d.
Qed.

(** Both ends of a channel of the circuit are units of it. *)
Lemma circuit_closed c cf v : circuitOf c cf → v ∈ channels cf →
  (∃ i o, ops f !! i = Some o ∧ v ∈ results o ∧ i ∈ units cf) ∧ ∃ u, singleUser f v = Ok u ∧ u ∈ units cf.
Proof using Type.
  intros [Hu Hc _] Hv. apply Hc in Hv as (i & o & s & u & d & Ho & Hr & Hs & Hsc & Hus & Hd & Hin).
  split; [exists i, o; split; [done|]; split; [done|]; apply Hu; by exists o, s|].
  exists u. split; [done|]. apply Hu. unfold getLogicBB, opAt in Hd. destruct (ops f !! u) as [ou|] eqn:Eu; [|done].
  simpl in Hd. injection Hd as Hd. exists ou, d. split; [done|]. split; [done|].
  unfold channelIn in Hin. destruct backward; [by destruct Hin|]. destruct (decide (s = d)) as [<-|]; [done|].
  by eapply consecutive_blocks.
Qed.

End Circuit.

(** * All extractions *)

Definition backTrans (archs : list ArchBB) : Z := sumOver (λ a, if isBackEdge a then numTrans a else 0) archs.

Lemma spend_same S n a : sameArch (spend S n a) a.
Proof. unfold spend. by case_decide. Qed.

Lemma spend_notin S n a : (srcBB a, dstBB a) ∉ map (λ a, (srcBB a, dstBB a)) S → spend S n a = a.
Proof. intros H. unfold spend. by rewrite decide_False. Qed.

Section Spent.
Context (archs S : list ArchBB) (bbs : list nat) (n : Z).
Context (Hok : archsOk archs bbs) (HS : extracted archs S n).

Lemma spend_in a : a ∈ archs → (srcBB a, dstBB a) ∈ map (λ a, (srcBB a, dstBB a)) S → a ∈ S.
Proof using Hok HS.
  intros Ha (b & [= Hs Hd] & Hb)%list_elem_of_fmap. rewrite (same_ends archs a b); try done; [apply Hok|].
  by apply (ext_in _ _ _ HS).
Qed.

Lemma spend_bounds a : a ∈ archs → 0 ≤ numTrans (spend S n a) ≤ numTrans a.
Proof using Hok HS.
  intros Ha. pose proof (archs_range _ _ Hok a Ha) as Hr. unfold spend. case_decide as H; [|lia]. simpl.
  destruct (ext_in _ _ _ HS a (spend_in a Ha H)). destruct (ext_execs _ _ _ HS). lia.
Qed.

Lemma spend_ok : archsOk (map (spend S n) archs) bbs.
Proof using Hok HS.
  destruct Hok as [Hd Hr Hb He]. split; [| |done|].
  - unfold distinctArchs in *. rewrite map_map. erewrite map_ext; [exact Hd|]. intros a.
    destruct (spend_same S n a) as (-> & -> & _). done.
  - intros a (b & -> & Hin)%list_elem_of_fmap. pose proof (spend_bounds b Hin). specialize (Hr b Hin). lia.
  - intros a (b & -> & Hin)%list_elem_of_fmap. destruct (spend_same S n b) as (-> & -> & _). by apply He.
Qed.

Lemma among_spend a : among (map (spend S n) archs) a ↔ among archs a.
Proof using Type.
  clear Hok HS. unfold among. split.
  - intros (b & (c & -> & Hc)%list_elem_of_fmap & H). exists c. split; [done|].
    destruct (spend_same S n c) as (H1 & H2 & H3). destruct H as (H4 & H5 & H6). split; [congruence|]. split; congruence.
  - intros (b & Hb & H). exists (spend S n b). split; [apply list_elem_of_fmap; eauto|].
    destruct (spend_same S n b) as (H1 & H2 & H3). destruct H as (H4 & H5 & H6). split; [congruence|]. split; congruence.
Qed.

Lemma backTrans_spend : backTrans (map (spend S n) archs) ≤ backTrans archs - n.
Proof using Hok HS.
  destruct (circuit_backedge _ (ext_circuit _ _ _ HS)) as [b Hb].
  assert (b ∈ filter (λ a, isBackEdge a = true) S) as Hin by (rewrite Hb; left). apply list_elem_of_filter in Hin as [Hback HbS].
  destruct (ext_in _ _ _ HS b HbS) as [Hba _].
  assert (∀ l, (∀ a, a ∈ l → a ∈ archs) → sumOver (λ a, if isBackEdge a then numTrans a else 0) (map (spend S n) l) ≤
    sumOver (λ a, if isBackEdge a then numTrans a else 0) l - if decide (b ∈ l) then n else 0) as H.
  2: { unfold backTrans. specialize (H archs ltac:(done)). by rewrite decide_True in H. }
  induction l as [|a l IH]; intros Hl; simpl.
  { destruct (decide (b ∈ [])) as [?%elem_of_nil|]; [done|lia]. }
  specialize (IH ltac:(intros; apply Hl; by right)). pose proof (spend_bounds a (Hl a ltac:(left))) as Hs.
  destruct (spend_same S n a) as (_ & _ & ->). destruct (decide (a = b)) as [->|Hne].
  - rewrite decide_True by left. rewrite Hback. assert (spend S n b = mkArchBB (srcBB b) (dstBB b) (numTrans b - n) (isBackEdge b)) as ->.
    { unfold spend. rewrite decide_True; [done|]. apply list_elem_of_fmap. eauto. }
    destruct (ext_execs _ _ _ HS). simpl. destruct (decide (b ∈ l)); lia.
  - destruct (decide (b ∈ l)).
    + rewrite decide_True by (by right). destruct (isBackEdge a); lia.
    + rewrite decide_False by (intros [|]%elem_of_cons; congruence). destruct (isBackEdge a); lia.
Qed.

End Spent.

(** The archs after the executions of the circuits were taken off those they go along. *)
Definition spentOn (cfs : list CFDFC) (a : ArchBB) : Z :=
  sumOver (λ cf, if consecutive (cycle cf) (srcBB a) (dstBB a) then numExecs cf else 0) cfs.

Definition leftOf (cfs : list CFDFC) (a : ArchBB) : ArchBB :=
  mkArchBB (srcBB a) (dstBB a) (numTrans a - spentOn cfs a) (isBackEdge a).

Lemma backTrans_nonneg archs bbs : archsOk archs bbs → 0 ≤ backTrans archs.
Proof.
  intros [_ Hr _ _]. unfold backTrans. induction archs as [|a archs IH]; simpl; [done|].
  assert (0 ≤ sumOver (λ a, if isBackEdge a then numTrans a else 0) archs) by (apply IH; intros; apply Hr; by right).
  specialize (Hr a ltac:(left)). destruct (isBackEdge a); lia.
Qed.

Lemma circuit_cut archs S n : extracted archs S n → backedgesCut archs → backedgesCut S.
Proof.
  intros HS Hcut l Hl Hin. apply Hcut; [done|]. intros a Ha. destruct (Hin a Ha) as (b & Hb & Hs).
  exists b. split; [by apply (ext_in _ _ _ HS)|done].
Qed.

(** Taking off one more circuit. *)
Lemma spend_leftOf archs bbs S n c cf : archsOk archs bbs → extracted archs S n → cycleOf S c → cycle cf = c → numExecs cf = n →
  map (spend S n) archs = map (leftOf [cf]) archs.
Proof.
  intros Hok HS Hc Hcf Hn. apply map_ext_in. intros a Ha%list_elem_of_In. unfold spend, leftOf, spentOn. simpl. rewrite Hcf, Hn.
  assert (consecutive c (srcBB a) (dstBB a) = true ↔ (srcBB a, dstBB a) ∈ map (λ a, (srcBB a, dstBB a)) S) as Hiff.
  { rewrite (cycle_steps _ _ Hc), list_elem_of_fmap. split; intros (b & H); exists b; [destruct H as (? & -> & ->)|destruct H as ([= -> ->] & ?)]; done. }
  case_decide as Hin; [rewrite (proj2 Hiff) by done; f_equal; lia|].
  destruct (consecutive c (srcBB a) (dstBB a)); [exfalso; by apply Hin, Hiff|]. destruct a. simpl. f_equal. lia.
Qed.

Lemma leftOf_leftOf cfs cfs' archs : map (leftOf cfs') (map (leftOf cfs) archs) = map (leftOf (cfs ++ cfs')) archs.
Proof.
  rewrite map_map. apply map_ext. intros a. unfold leftOf, spentOn. simpl. rewrite sumOver_app. f_equal. lia.
Qed.

Section Loop.
Context (f : FuncOp) (fuel : nat) (backward : option (gset Value)) (bbs : list nat) (solve : Solver).
Context (Hknown : channelsKnown f fuel = true).

(** The solver's optimal solutions of the programs of some archs are solutions. *)
Definition sound (inScope : list ArchBB → Prop) : Prop :=
  ∀ archs vars s, inScope archs → extractionModel archs bbs = Ok (vars, s) → fst (solve s) = OPTIMAL → feasible (snd (solve s)) s.

(** The archs stay in scope when a circuit is extracted. *)
Definition kept (inScope : list ArchBB → Prop) : Prop :=
  ∀ archs S n, archsOk archs bbs → extracted archs S n → inScope archs → inScope (map (spend S n) archs).

(** A circuit for archs among those given. *)
Definition goodCircuit (archs : list ArchBB) (cf : CFDFC) : Prop :=
  ∃ S, circuit S ∧ (∀ a, a ∈ S → among archs a) ∧ cycleOf S (cycle cf) ∧ 0 < numExecs cf ≤ 10000 ∧ circuitOf f fuel backward (cycle cf) cf.

Lemma extractLoop_spec inScope first : sound inScope → kept inScope → ∀ rounds archs cfs, inScope archs → archsOk archs bbs → backedgesCut archs → backTrans archs < Z.of_nat rounds →
  ∃ r, extractLoop f fuel solve first backward bbs rounds archs cfs = Ok r ∧
    ∀ cfs' archs', r = Some (cfs', archs') → ∃ new, cfs' = cfs ++ new ∧ Forall (goodCircuit archs) new ∧
      archs' = map (leftOf new) archs ∧ archsOk archs' bbs ∧ backedgesCut archs' ∧
      (first = false → ∃ vars s, extractionModel archs' bbs = Ok (vars, s) ∧ fst (solve s) = OPTIMAL ∧ (snd (solve s) "varMaxExecs" == 0)%Q).
Proof using Hknown.
  intros Hsolve Hkept. induction rounds as [|rounds IH]; intros archs cfs Hscope Hok Hcut Hr.
  { pose proof (backTrans_nonneg _ _ Hok). lia. }
  cbn [extractLoop]. destruct (extractionModel_spec archs bbs) as (s & Hm & _); [apply Hok|apply Hok|].
  destruct (extractCFDFC_spec solve archs bbs Hok _ s Hm (Hsolve _ _ _ Hscope Hm)) as [[-> _]|[(-> & Hst & Hz)|(sel & n & -> & HS)]]; cbn [bind].
  - exists None. split; [done|]. by intros.
  - exists (Some (cfs, archs)). split; [done|]. intros cfs' archs' [= <- <-]. exists []. rewrite app_nil_r.
    split; [done|]. split; [constructor|]. split; [|split; [done|split; [done|eauto]]].
    rewrite <-(map_id archs) at 1. apply map_ext. intros []. unfold leftOf, spentOn. simpl. f_equal. lia.
  - set (S := omap (archs !!.) sel) in *.
    destruct (Z.eqb_spec n 0) as [->|_]; [by destruct (ext_execs _ _ _ HS)|].
    destruct (formCycle_cycle S (ext_circuit _ _ _ HS) (circuit_cut _ _ _ HS Hcut)) as (c & Hc & Hcyc).
    destruct (CFDFC_new_spec f fuel backward S n c Hknown Hc) as (cf & -> & Hcf & Hn & Hcirc). cbn [bind].
    assert (goodCircuit archs cf) as Hgood.
    { exists S. rewrite Hcf, Hn. split; [apply HS|]. split; [|split; [done|split; [apply HS|done]]].
      intros a Ha. exists a. split; [by apply (ext_in _ _ _ HS)|done]. }
    assert (archsOk (map (spend S n) archs) bbs) as Hok' by (by eapply spend_ok).
    assert (backedgesCut (map (spend S n) archs)) as Hcut'.
    { intros l Hl Hin. apply Hcut; [done|]. intros a Ha. by eapply among_spend, Hin. }
    pose proof (spend_leftOf _ _ _ _ _ _ Hok HS Hcyc Hcf Hn) as Hleft.
    destruct first.
    + eexists. split; [done|]. intros cfs' archs' [= <- <-]. exists [cf]. split; [done|]. split; [by constructor|]. by split.
    + destruct (IH (map (spend S n) archs) (cfs ++ [cf]) (Hkept _ _ _ Hok HS Hscope) Hok' Hcut') as (r & Hrun & Hspec).
      { pose proof (backTrans_spend _ _ _ _ Hok HS). destruct (ext_execs _ _ _ HS). lia. }
      exists r. split; [exact Hrun|]. intros cfs' archs' Hres. destruct (Hspec _ _ Hres) as (new & -> & Hnew & -> & Hrest).
      exists (cf :: new). split; [by rewrite <-app_assoc|]. split; [|split; [by rewrite Hleft, leftOf_leftOf|done]].
      constructor; [done|]. eapply List.Forall_impl; [|exact Hnew]. intros cf' (S' & H1 & H2 & H3). exists S'.
      split; [done|]. split; [|done]. intros a Ha. by eapply among_spend, H2.
Qed.

End Loop.

Lemma fewTransitions_kept bbs kind : kept bbs (λ archs, kind = CBC → fewTransitions archs).
Proof.
  intros archs S n Hok HS Hfew Hkind. destruct (Hfew Hkind) as (_ & Hr & a & Ha & Hb).
  pose proof (spend_ok _ _ _ _ Hok HS) as Hok'. split; [apply Hok'|]. split.
  - intros b Hin. pose proof (archs_range _ _ Hok' b Hin) as Hr'. split; [lia|].
    apply list_elem_of_fmap in Hin as (c & -> & Hc). specialize (Hr c Hc).
    pose proof (spend_bounds _ _ _ _ Hok HS c Hc). lia.
  - exists (spend S n a). split; [apply list_elem_of_fmap; eauto|]. destruct (spend_same S n a) as (_ & _ & ->). done.
Qed.

(** A cycle that goes through no block twice, whose archs all have transitions left. *)
Record executedCycle (archs l : list ArchBB) : Prop := {
  ec_closed : closedWalk l;
  ec_simple : NoDup (map srcBB l);
  ec_left : ∀ a, a ∈ l → a ∈ archs ∧ 0 < numTrans a;
  ec_backedge : ∃ b, filter (λ a, isBackEdge a = true) l = [b] }.

Lemma filter_one {A B} `{EqDecision B} (h : A → B) b l : NoDup (map h l) →
  length (filter (λ x, h x = b) l) = if decide (b ∈ map h l) then 1%nat else 0%nat.
Proof.
  intros Hn. destruct (decide (b ∈ map h l)) as [Hb|Hb].
  - apply in_map_filter in Hb as Hpos. enough (length (filter (λ x, h x = b) l) ≤ 1)%nat by lia. clear Hb Hpos.
    induction l as [|x l IH]; simpl; [lia|]. apply list.NoDup_cons in Hn as [Hx Hn]. rewrite filter_cons.
    case_decide as Hhx; [|by apply IH]. simpl. enough (filter (λ x, h x = b) l = []) as -> by done. apply filter_none, Forall_elem.
    intros y Hy Hhy. apply Hx, list_elem_of_fmap. exists y. split; [congruence|done].
  - rewrite in_map_filter in Hb. lia.
Qed.

(** The blocks the archs of a cycle lead to are those they come from. *)
Lemma closed_blocks l : closedWalk l → NoDup (map srcBB l) → map dstBB l ≡ₚ map srcBB l.
Proof.
  intros [Hne Hl] Hn. apply submseteq_length_Permutation; [|by rewrite !length_map]. apply NoDup_submseteq.
  - apply NoDup_alt. intros i j b Hi Hj. rewrite list_lookup_fmap in Hi, Hj.
    destruct (l !! i) as [a|] eqn:Ea; [|done]. destruct (l !! j) as [a'|] eqn:Ea'; [|done]. simpl in Hi, Hj.
    destruct (Hl i a Ea) as (c & Hc & Hd). destruct (Hl j a' Ea') as (c' & Hc' & Hd').
    assert (i < length l ∧ j < length l)%nat as [Hil Hjl] by (split; by eapply lookup_lt_Some).
    assert (S i mod length l = S j mod length l)%nat as Hm.
    { eapply (NoDup_lookup _ _ _ (srcBB c) Hn); rewrite list_lookup_fmap; [by rewrite Hc|rewrite Hc'; simpl; congruence]. }
    destruct (decide (S i = length l)) as [Hi'|Hi'], (decide (S j = length l)) as [Hj'|Hj']; [lia| | |].
    + rewrite Hi', Nat.Div0.mod_same, Nat.mod_small in Hm by lia. lia.
    + rewrite Hj', Nat.Div0.mod_same, Nat.mod_small in Hm by lia. lia.
    + rewrite !Nat.mod_small in Hm by lia. lia.
  - intros b (a & -> & Ha)%list_elem_of_fmap. apply list_elem_of_lookup in Ha as [i Hi]. destruct (Hl i a Hi) as (c & Hc & ->).
    apply list_elem_of_fmap. exists c. split; [done|]. by eapply list_elem_of_lookup_2.
Qed.

Section Cycle.
Context (archs l : list ArchBB) (bbs : list nat).
Context (Hok : archsOk archs bbs) (Hl : executedCycle archs l).

(** The solution that selects the cycle for one execution. *)
Definition selects : list string :=
  "varMaxExecs" :: map archName l ++ map bbName (map srcBB l) ++ map (λ a, timesName (archName a)) l.
Definition selectCycle (s : string) : Q := if decide (s ∈ selects) then 1 else 0.

Lemma selects_arch a : a ∈ archs → archName a ∈ selects ↔ a ∈ l.
Proof using Hok Hl.
  intros Ha. unfold selects. rewrite elem_of_cons, !elem_of_app. split.
  - intros [|[(b & [Hs Hd]%archName_inj & Hb)%list_elem_of_fmap|[(b & Hb & _)%list_elem_of_fmap|(b & Hb & _)%list_elem_of_fmap]]]; try done.
    rewrite (same_ends archs a b); try done; [apply Hok|by apply (ec_left _ _ Hl)].
  - intros Hin. right. left. apply list_elem_of_fmap. eauto.
Qed.

Lemma selects_times a : a ∈ archs → timesName (archName a) ∈ selects ↔ a ∈ l.
Proof using Hok Hl.
  intros Ha. unfold selects. rewrite elem_of_cons, !elem_of_app. split.
  - intros [|[(b & Hb & _)%list_elem_of_fmap|[(b & Hb & _)%list_elem_of_fmap|(b & Hn & Hb)%list_elem_of_fmap]]]; try done.
    apply timesName_inj, archName_inj in Hn as [Hs Hd].
    rewrite (same_ends archs a b); try done; [apply Hok|by apply (ec_left _ _ Hl)].
  - intros Hin. right. right. right. apply list_elem_of_fmap. eauto.
Qed.

Lemma selects_bb bb : bbName bb ∈ selects ↔ bb ∈ map srcBB l.
Proof using Type.
  unfold selects. rewrite elem_of_cons, !elem_of_app. split.
  - intros [|[(b & Hb & _)%list_elem_of_fmap|[(b & ->%bbName_inj & Hb)%list_elem_of_fmap|(b & Hb & _)%list_elem_of_fmap]]]; done.
  - intros Hin. right. right. left. apply list_elem_of_fmap. eauto.
Qed.

Lemma select_num : selectCycle "varMaxExecs" = 1%Q.
Proof using Type. unfold selectCycle. rewrite decide_True; [done|]. left. Qed.

Lemma select_bit s : selectCycle s = 0%Q ∨ selectCycle s = 1%Q.
Proof using Type. unfold selectCycle. case_decide; auto. Qed.

Lemma bit_integer s : isInteger (selectCycle s).
Proof using Type. destruct (select_bit s) as [-> | ->]; [by exists 0|by exists 1]. Qed.

Lemma select_arch a : a ∈ archs → selectCycle (archName a) = if decide (a ∈ l) then 1%Q else 0%Q.
Proof using Hok Hl. intros Ha. unfold selectCycle. pose proof (selects_arch a Ha). repeat case_decide; tauto. Qed.

Lemma select_times a : a ∈ archs → selectCycle (timesName (archName a)) = if decide (a ∈ l) then 1%Q else 0%Q.
Proof using Hok Hl. intros Ha. unfold selectCycle. pose proof (selects_times a Ha). repeat case_decide; tauto. Qed.

Lemma chosen_select a : a ∈ archs → chosen selectCycle a = true ↔ a ∈ l.
Proof using Hok Hl. intros Ha. unfold chosen. rewrite select_arch by done. case_decide; done. Qed.

Lemma chosen_perm : chosenArchs selectCycle archs ≡ₚ l.
Proof using Hok Hl.
  assert (NoDup archs) as Hna by (apply (NoDup_fmap_1 (λ a, (srcBB a, dstBB a))), Hok).
  assert (NoDup l) as Hnl by (apply (NoDup_fmap_1 srcBB), Hl).
  apply NoDup_Permutation; [by apply list.NoDup_filter|done|]. intros a. unfold chosenArchs. rewrite list_elem_of_filter. split.
  - intros [Hc Ha]. by apply chosen_select.
  - intros Hin. assert (a ∈ archs) by (by apply (ec_left _ _ Hl)). split; [by apply chosen_select|done].
Qed.

Lemma select_weight (P : ArchBB → bool) :
  (weightIf selectCycle P archs == inject_Z (Z.of_nat (length (filter (λ a, P a = true) l))))%Q.
Proof using Hok Hl.
  rewrite weightIf_bits.
  - by rewrite chosen_perm.
  - intros a Ha. rewrite select_arch by done. pose proof (chosen_select a Ha) as Hc.
    destruct (chosen selectCycle a); case_decide as Hin; try reflexivity; exfalso; [apply Hin, Hc; done|].
    by apply Hc in Hin.
Qed.

Lemma select_degree bb : (inject_Z (Z.of_nat (if decide (bb ∈ map srcBB l) then 1%nat else 0%nat)) == selectCycle (bbName bb))%Q.
Proof using Type. unfold selectCycle. pose proof (selects_bb bb). repeat case_decide; try tauto; reflexivity. Qed.

Lemma cycle_is_solution : solution archs bbs selectCycle.
Proof using Hok Hl.
  assert (∀ s, 0 <= selectCycle s ∧ selectCycle s <= 1)%Q as Hbits by (intros s; destruct (select_bit s) as [-> | ->]; split; done).
  assert (0 < maxNumTrans archs) as Hmax.
  { destruct (ec_backedge _ _ Hl) as [b Hb]. assert (b ∈ filter (λ a, isBackEdge a = true) l) as Hin by (rewrite Hb; left).
    apply list_elem_of_filter in Hin as [_ Hin]. destruct (ec_left _ _ Hl b Hin) as [Hba Hpos].
    pose proof (proj2 (maxNumTrans_ge archs 0) b Hba). unfold maxNumTrans. lia. }
  assert (∀ s ub, wellTyped (mkCPVar s BOOLEAN (Some 0%Q) ub) selectCycle ↔ ∀ u, ub = Some u → (selectCycle s <= u)%Q) as Hbool.
  { intros s ub. unfold wellTyped, inBounds, ofType. simpl. destruct (Hbits s). split; [tauto|]. intros Hu.
    split; [split; [by intros ? [= <-]|done]|]. destruct (select_bit s) as [-> | ->]; [by left|by right]. }
  split.
  - intros bb _. apply Hbool. intros u [= <-]. apply Hbits.
  - intros a _. apply Hbool. intros u [= <-]. apply Hbits.
  - split; [split; simpl; intros ? [= <-]; [apply Hbits|]|apply bit_integer]. rewrite select_num. change 1%Q with (inject_Z 1).
    rewrite inject_le. lia.
  - intros a Ha. split; [split; [split; simpl; [intros ? [= <-]; apply Hbits|done]|apply bit_integer]|].
    unfold linked. rewrite select_num, select_times, select_arch by done. unfold bigM. case_decide; repeat split; lra.
  - intros a Ha. unfold limited. rewrite select_num, select_arch by done. case_decide as Hin.
    + destruct (ec_left _ _ Hl a Hin) as [_ Hpos]. assert (inject_Z 1 <= inject_Z (numTrans a))%Q as H by (apply inject_le; lia).
      change (inject_Z 1) with 1%Q in H. lra.
    + assert (inject_Z 1 <= inject_Z (maxNumTrans archs))%Q as H by (apply inject_le; lia). change (inject_Z 1) with 1%Q in H. lra.
  - rewrite select_weight. destruct (ec_backedge _ _ Hl) as [b ->]. reflexivity.
  - intros bb _. unfold balanced. rewrite !select_weight, !filter_eqb.
    pose proof (closed_blocks l (ec_closed _ _ Hl) (ec_simple _ _ Hl)) as Hp.
    rewrite (filter_one srcBB) by apply Hl. rewrite (filter_one dstBB) by (rewrite Hp; apply Hl).
    rewrite <-select_degree. split; [|reflexivity].
    assert (bb ∈ map dstBB l ↔ bb ∈ map srcBB l) as Hiff by (by rewrite Hp). clear - Hiff.
    destruct (decide (bb ∈ map dstBB l)), (decide (bb ∈ map srcBB l)); (reflexivity || tauto).
Qed.

(** Its objective is that of an execution. *)
Lemma cycle_objective : (0 < sumQ (λ a, selectCycle (timesName (archName a))) archs)%Q.
Proof using Hok Hl.
  destruct (ec_backedge _ _ Hl) as [b Hb]. assert (b ∈ filter (λ a, isBackEdge a = true) l) as Hin by (rewrite Hb; left).
  apply list_elem_of_filter in Hin as [_ Hin]. destruct (ec_left _ _ Hl b Hin) as [Hba _].
  assert (selectCycle (timesName (archName b)) = 1%Q) as H1 by (rewrite select_times by done; by rewrite decide_True).
  clear Hok Hl Hb. revert Hba. induction archs as [|a as_ IH]; intros Hba; [by apply elem_of_nil in Hba|]. simpl.
  assert (0 <= sumQ (λ a, selectCycle (timesName (archName a))) as_)%Q as Hpos.
  { clear. induction as_ as [|x as_ IH]; simpl; [lra|]. destruct (select_bit (timesName (archName x))) as [-> | ->]; lra. }
  apply elem_of_cons in Hba as [<-|Hba]; [rewrite H1; lra|]. specialize (IH Hba).
  destruct (select_bit (timesName (archName a))) as [-> | ->]; lra.
Qed.

End Cycle.

(** Without executions the objective is that of nothing. *)
Lemma no_execution archs bbs value : solution archs bbs value → (value "varMaxExecs" == 0)%Q →
  (sumQ (λ a, value (timesName (archName a))) archs <= 0)%Q.
Proof.
  intros Hs Hz. pose proof (sol_times _ _ _ Hs) as Ht. clear Hs. induction archs as [|a archs IH]; simpl; [lra|].
  destruct (Ht a ltac:(left)) as [_ (H & _)]. cbv zeta in H. rewrite Hz in H.
  specialize (IH ltac:(intros b Hb; apply Ht; by right)). lra.
Qed.

(** A solver that says so has solved the program: no cycle is left. *)
Lemma nothing_left archs bbs vars s (solve : Solver) : archsOk archs bbs → extractionModel archs bbs = Ok (vars, s) →
  optimal s (snd (solve s)) → (snd (solve s) "varMaxExecs" == 0)%Q → ∀ l, ¬ executedCycle archs l.
Proof.
  intros Hok Hm [Hf Hbest] Hz l Hl.
  destruct (extractionModel_spec archs bbs) as (s' & Hm' & Hfs & Hobj); [apply Hok|apply Hok|].
  rewrite Hm in Hm'. injection Hm' as -> ->.
  specialize (Hbest (selectCycle l) (proj2 (Hfs _) (cycle_is_solution _ _ _ Hok Hl))). rewrite !Hobj in Hbest.
  pose proof (cycle_objective _ _ _ Hok Hl). pose proof (no_execution _ _ _ (proj1 (Hfs _) Hf) Hz). lra.
Qed.

(** * The circuits of a function *)

Lemma blocksOf_spec archs : NoDup (blocksOf archs) ∧ ∀ a, a ∈ archs → srcBB a ∈ blocksOf archs ∧ dstBB a ∈ blocksOf archs.
Proof.
  unfold blocksOf.
  assert (∀ l, NoDup l → NoDup (foldl (λ bbs a, setInsert (dstBB a) (setInsert (srcBB a) bbs)) l archs) ∧
    (∀ b, b ∈ l → b ∈ foldl (λ bbs a, setInsert (dstBB a) (setInsert (srcBB a) bbs)) l archs) ∧
    ∀ a, a ∈ archs → srcBB a ∈ foldl (λ bbs a, setInsert (dstBB a) (setInsert (srcBB a) bbs)) l archs ∧
      dstBB a ∈ foldl (λ bbs a, setInsert (dstBB a) (setInsert (srcBB a) bbs)) l archs) as H.
  { assert (∀ (x : nat) l, NoDup l → NoDup (setInsert x l)) as Hins.
    { intros x l Hl. unfold setInsert. case_decide; [done|]. apply list.NoDup_app. split; [done|]. split; [|apply NoDup_singleton].
      intros y Hy ->%list_elem_of_singleton. done. }
    induction archs as [|a archs IH]; intros l Hl; simpl; [split; [done|split; [done|by intros ? ?%elem_of_nil]]|].
    destruct (IH (setInsert (dstBB a) (setInsert (srcBB a) l))) as (H1 & H2 & H3); [by apply Hins, Hins|].
    split; [done|]. split; [intros b Hb; apply H2; rewrite !setInsert_elem; tauto|].
    intros b [-> |Hb]%elem_of_cons; [|by apply H3]. split; apply H2; rewrite !setInsert_elem; tauto. }
  destruct (H [] (NoDup_nil_2)) as (H1 & _ & H3). done.
Qed.

Lemma archsOk_blocks archs : distinctArchs archs → (∀ a, a ∈ archs → 0 ≤ numTrans a < 2 ^ 32) → archsOk archs (blocksOf archs).
Proof. intros Hd Hr. destruct (blocksOf_spec archs) as [Hb He]. by split. Qed.

(** The channels that [getCFDFCs] hands to the constructor. *)
Definition backwardOf (ftd : bool) (backward : gset nat) : option (gset nat) :=
  if ftd && negb (bool_decide (backward = ∅)) then Some backward else None.

(** C6.  With the programs that the Gurobi back-end builds and the files that the CBC back-end
    writes, and a solver that calls optimal only exact solutions of what it is given, the extraction
    of circuits ends after at most one more round than the backedges have transitions, and no assertion
    fails: the archs of every solution form one cycle of blocks, with one backedge, and the circuit has
    the operations of these blocks and exactly the channels that go along the cycle.  No arch is used in
    more executions than it has transitions, so that no count wraps around; no circuit is given more
    than 10000 executions.  The archs are between distinct pairs of blocks and every cycle of them has a
    backedge; every channel has one user, and whether it is a backedge is decided within the fuel.  With CBC one
    arch at least is a backedge, and every count is below a million: above, the file has other
    coefficients than the program, and counts do wrap around. *)
Theorem getCFDFCs_cycles f fuel gurobi cbc kind firstCFDFC ftd backward rounds archs :
  channelsKnown f fuel = true → gurobiExact gurobi → cbcExact cbc →
  distinctArchs archs → (∀ a, a ∈ archs → 0 ≤ numTrans a < 2 ^ 32) → (kind = CBC → fewTransitions archs) →
  backedgesCut archs → backTrans archs < Z.of_nat rounds →
  ∃ r, getCFDFCs f fuel (optimize gurobi cbc kind) firstCFDFC ftd backward rounds archs = Ok r ∧
    ∀ l, r = Some l → Forall (goodCircuit f fuel (backwardOf ftd backward) archs) l ∧ ∀ a, a ∈ archs → 0 ≤ spentOn l a ≤ numTrans a.
Proof.
  intros Hk Hgurobi Hcbc Hd Hr Hfew Hcut Hrounds. pose proof (archsOk_blocks archs Hd Hr) as Hok.
  set (inScope := λ archs, kind = CBC → fewTransitions archs).
  assert (sound (blocksOf archs) (optimize gurobi cbc kind) inScope) as Hs.
  { intros archs' vars s Hscope Hm Hst. apply optimize_feasible; [done|done| |done]. intros Hkind.
    eapply extractionModel_exact; [by apply Hscope|apply Hok|exact Hm]. }
  destruct (extractLoop_spec f fuel (backwardOf ftd backward) (blocksOf archs) _ Hk inScope firstCFDFC Hs
    (fewTransitions_kept _ _) rounds archs [] Hfew Hok Hcut Hrounds) as (r & Hrun & Hspec).
  exists (fst <$> r). unfold getCFDFCs. fold (backwardOf ftd backward). rewrite Hrun. split; [done|].
  intros l Hl. destruct r as [[l' archs']|]; [|done]. injection Hl as ->.
  destruct (Hspec _ _ eq_refl) as (new & -> & Hgood & -> & Hok' & _). simpl. split; [done|]. intros a Ha.
  assert (leftOf new a ∈ map (leftOf new) archs) as Hin by (apply list_elem_of_fmap; eauto).
  pose proof (archs_range _ _ Hok' _ Hin) as Hra. simpl in Hra. split; [|lia].
  unfold spentOn. clear - Hgood. induction Hgood as [|cf new (S & _ & _ & _ & Hn & _) _ IH]; simpl; [done|].
  destruct (consecutive (cycle cf) (srcBB a) (dstBB a)); lia.
Qed.

(** C7.  When the solver is optimal and all circuits are asked for, the extraction leaves no cycle: once
    the executions of the circuits are taken off the archs, every simple cycle of archs with a single
    backedge has an arch without transitions. *)
Theorem getCFDFCs_complete f fuel solve ftd backward rounds archs l :
  channelsKnown f fuel = true → distinctArchs archs → (∀ a, a ∈ archs → 0 ≤ numTrans a < 2 ^ 32) →
  (∀ archs' vars s, extractionModel archs' (blocksOf archs) = Ok (vars, s) → fst (solve s) = OPTIMAL → optimal s (snd (solve s))) →
  backedgesCut archs → backTrans archs < Z.of_nat rounds →
  getCFDFCs f fuel solve false ftd backward rounds archs = Ok (Some l) →
  ∀ cyc, ¬ executedCycle (map (leftOf l) archs) cyc.
Proof.
  intros Hk Hd Hr Hopt Hcut Hrounds Hrun. pose proof (archsOk_blocks archs Hd Hr) as Hok.
  assert (sound (blocksOf archs) solve (λ _, True)) as Hs by (intros archs' vars s _ Hm Hst; by apply (Hopt archs' vars s)).
  destruct (extractLoop_spec f fuel (backwardOf ftd backward) (blocksOf archs) solve Hk (λ _, True) false Hs
    (λ _ _ _ _ _ _, I) rounds archs [] I Hok Hcut Hrounds)
    as (r & Hloop & Hspec).
  unfold getCFDFCs in Hrun. fold (backwardOf ftd backward) in Hrun. rewrite Hloop in Hrun. cbn [bind] in Hrun.
  destruct r as [[l' archs']|]; [|done]. injection Hrun as ->.
  destruct (Hspec _ _ eq_refl) as (new & -> & _ & -> & Hok' & _ & Hlast). simpl.
  destruct (Hlast eq_refl) as (vars & s & Hm & Hst & Hz). eapply nothing_left; try done. by eapply Hopt.
Qed.
