(* ===== verification/DisjointSets.v ===== *)
(** The unions of choice-free circuits (CFDFC.cpp, [getDisjointBlockUnions]): the disjoint-set
    structure, with path halving and union by rank, computes the classes of the circuits
    that are connected by shared blocks. *)

From stdpp Require Import list sets relations.
From S2P Require Import CFDFC Prelude.

(** * The structure *)

(** A parent has a greater rank, unless it is the element itself. *)
Definition wf (sets : DisjointSets) : Prop :=
  ∀ i s, sets !! i = Some s → ∃ p, sets !! parent s = Some p ∧ (parent s = i ∨ (rank s < rank p)%nat).

Definition ranked (m : nat) (sets : DisjointSets) : Prop := ∀ i s, sets !! i = Some s → (rank s ≤ m)%nat.

Inductive rootOf (sets : DisjointSets) : nat → nat → Prop :=
| root_self i s : sets !! i = Some s → parent s = i → rootOf sets i i
| root_step i s r : sets !! i = Some s → parent s ≠ i → rootOf sets (parent s) r → rootOf sets i r.

Definition sameClass (sets : DisjointSets) (i j : nat) : Prop := ∃ r, rootOf sets i r ∧ rootOf sets j r.

Lemma rootOf_det sets i r r' : rootOf sets i r → rootOf sets i r' → r = r'.
Proof.
  intros H. revert r'. induction H as [i s Hi Hp|i s r Hi Hp _ IH]; intros r' H'; inversion H'; subst; simplify_eq; auto.
Qed.

Lemma rootOf_root sets i r : rootOf sets i r → ∃ s, sets !! r = Some s ∧ parent s = r.
Proof. induction 1; eauto. Qed.

Lemma rootOf_total m sets i : wf sets → ranked m sets → (i < length sets)%nat → ∃ r, rootOf sets i r.
Proof.
  intros Hw Hm Hi. apply lookup_lt_is_Some in Hi as [s Hs]. remember (m - rank s)%nat as d eqn:Hd.
  revert i s Hs Hd. induction (lt_wf d) as [d _ IH]. intros i s Hs Hd. destruct (Hw i s Hs) as (p & Hp & [He|Hlt]).
  - exists i. by eapply root_self.
  - pose proof (Hm _ _ Hp). destruct (IH (m - rank p)%nat ltac:(lia) (parent s) p Hp eq_refl) as [r Hr].
    destruct (decide (parent s = i)) as [He|Hne]; [exists i; by eapply root_self|]. exists r. by eapply root_step.
Qed.

(** Every root has the class of the elements that lead to it. *)
Definition sameRoots (sets sets' : DisjointSets) : Prop :=
  length sets' = length sets ∧ (∀ i, rank <$> sets' !! i = rank <$> sets !! i) ∧ ∀ i r, rootOf sets' i r ↔ rootOf sets i r.

Lemma sameRoots_refl sets : sameRoots sets sets.
Proof. done. Qed.

Lemma sameRoots_trans a b c : sameRoots a b → sameRoots b c → sameRoots a c.
Proof. intros (H1 & H2 & H3) (H4 & H5 & H6). split; [congruence|]. split; [intros i; by rewrite H5|intros i r; by rewrite H6]. Qed.

Lemma sameRoots_ranked m a b : sameRoots a b → ranked m a → ranked m b.
Proof.
  intros (_ & H & _) Hm i s Hs. specialize (H i). rewrite Hs in H. destruct (a !! i) as [t|] eqn:E; [|done].
  simpl in H. injection H as ->. by eapply Hm.
Qed.

Lemma setParent_lookup i p sets k : setParent i p sets !! k =
  if decide (k = i) then (λ s, mkDisjointSetInfo p (rank s)) <$> sets !! k else sets !! k.
Proof. unfold setParent. case_decide as H; [by subst; rewrite list_lookup_alter_eq|by rewrite list_lookup_alter_ne]. Qed.

(** A link that skips the parent. *)
Lemma halve_sameRoots sets i s p : wf sets → sets !! i = Some s → parent s ≠ i → sets !! parent s = Some p →
  wf (setParent i (parent p) sets) ∧ sameRoots sets (setParent i (parent p) sets).
Proof.
  intros Hw Hi Hne Hp. destruct (Hw i s Hi) as (p' & Hp' & [?|Hlt]); [done|]. assert (p' = p) as -> by congruence.
  destruct (Hw _ _ Hp) as (g & Hg & Hgp).
  assert ((rank s < rank g)%nat) as Hsg by (destruct Hgp as [He|]; [rewrite He in Hg; assert (g = p) as -> by congruence; lia|lia]).
  assert (parent p ≠ i) as Hpi by (intros He; rewrite He in Hg; assert (g = s) as -> by congruence; lia).
  set (sets' := setParent i (parent p) sets).
  assert (∀ k t, k ≠ i → sets !! k = Some t → sets' !! k = Some t) as Hother by (intros k t Hk Ht; unfold sets'; rewrite setParent_lookup, decide_False by done; done).
  assert (sets' !! i = Some (mkDisjointSetInfo (parent p) (rank s))) as Hi' by (unfold sets'; rewrite setParent_lookup, decide_True, Hi by done; done).
  assert (∀ k, rank <$> sets' !! k = rank <$> sets !! k) as Hranks.
  { intros k. unfold sets'. rewrite setParent_lookup. case_decide as Hk; [|done]. subst k. by rewrite Hi. }
  split; [|split; [unfold sets', setParent; apply length_alter|split; [exact Hranks|]]].
  - intros k t Hk. destruct (decide (k = i)) as [->|Hki].
    + rewrite Hi' in Hk. injection Hk as <-. exists g. simpl. split; [by apply Hother|by right].
    + unfold sets' in Hk. rewrite setParent_lookup, decide_False in Hk by done. destruct (Hw k t Hk) as (q & Hq & Hlt').
      specialize (Hranks (parent t)). rewrite Hq in Hranks. destruct (sets' !! parent t) as [q'|] eqn:Eq; [|done].
      simpl in Hranks. injection Hranks as Hr. exists q'. split; [done|]. rewrite Hr. done.
  - intros k r. split.
    + induction 1 as [k t Hk Hself|k t r Hk Hn _ IH].
      * destruct (decide (k = i)) as [->|Hki]; [rewrite Hi' in Hk; injection Hk as <-; simpl in Hself; congruence|].
        unfold sets' in Hk. rewrite setParent_lookup, decide_False in Hk by done. by eapply root_self.
      * destruct (decide (k = i)) as [->|Hki].
        -- rewrite Hi' in Hk. injection Hk as <-. simpl in IH. eapply root_step; [exact Hi|done|].
           destruct (decide (parent p = parent s)) as [He|Hps]; [|by eapply root_step].
           rewrite He in IH. done.
        -- unfold sets' in Hk. rewrite setParent_lookup, decide_False in Hk by done. by eapply root_step.
    + induction 1 as [k t Hk Hself|k t r Hk Hn _ IH].
      * eapply root_self; [apply Hother; [|exact Hk]|done]. intros ->. congruence.
      * destruct (decide (k = i)) as [->|Hki]; [|eapply root_step; [by apply Hother|done|done]].
        assert (t = s) as -> by congruence. eapply root_step; [exact Hi'|done|]. simpl.
        destruct (decide (parent p = parent s)) as [->|Hps]; [done|].
        assert (sets' !! parent s = Some p) as Hp'' by (by apply Hother).
        inversion IH as [? t' Ht' Hself'|? t' ? Ht' Hn' Hr']; subst; simplify_eq; congruence.
Qed.

Lemma find_spec m : ∀ steps i sets, wf sets → ranked m sets → (i < length sets)%nat →
  (∀ s, sets !! i = Some s → (m - rank s < steps)%nat) →
  ∃ r sets', CFDFC.find steps i sets = Ok (r, sets') ∧ rootOf sets i r ∧ wf sets' ∧ sameRoots sets sets'.
Proof.
  induction steps as [|steps IH]; intros i sets Hw Hm Hi Hsteps.
  { apply lookup_lt_is_Some in Hi as [s Hs]. specialize (Hsteps s Hs). lia. }
  apply lookup_lt_is_Some in Hi as [s Hs]. specialize (Hsteps s Hs). cbn [CFDFC.find]. unfold at_. rewrite Hs. cbn [of_option bind].
  destruct (Nat.eqb_spec (parent s) i) as [He|Hne].
  { exists i, sets. split; [done|]. split; [by eapply root_self|]. split; [done|apply sameRoots_refl]. }
  destruct (Hw i s Hs) as (p & Hp & [?|Hlt]); [done|]. rewrite Hp. cbn [of_option bind].
  destruct (halve_sameRoots sets i s p Hw Hs Hne Hp) as [Hw' Hsame].
  destruct (Hw _ _ Hp) as (g & Hg & Hgp).
  assert (rank s < rank g)%nat as Hsg by (destruct Hgp as [He|]; [rewrite He in Hg; assert (g = p) as -> by congruence; lia|lia]).
  destruct (IH (parent p) (setParent i (parent p) sets)) as (r & sets' & Hf & Hr & Hw'' & Hsame'); [done|by eapply sameRoots_ranked| | |].
  - rewrite (proj1 Hsame). by eapply lookup_lt_Some.
  - intros g' Hg'. destruct Hsame as (_ & Hk & _). specialize (Hk (parent p)). rewrite Hg, Hg' in Hk. injection Hk as ->.
    pose proof (Hm _ _ Hg). lia.
  - exists r, sets'. split; [exact Hf|]. split; [|split; [done|by eapply sameRoots_trans]].
    apply (proj2 (proj2 Hsame)) in Hr. eapply root_step; [exact Hs|done|].
    destruct (decide (parent p = parent s)) as [He|Hps]; [by rewrite He in Hr|]. by eapply root_step.
Qed.

(** * Two classes become one *)

(** The root [i] takes in the class of the root [j]. *)
Lemma link_roots sets sets' i j si sj : sets !! i = Some si → parent si = i → sets !! j = Some sj → parent sj = j → i ≠ j →
  (∀ k, parent <$> sets' !! k = if decide (k = j) then Some i else parent <$> sets !! k) →
  ∀ k r, rootOf sets' k r ↔ (rootOf sets k r ∧ r ≠ j) ∨ (rootOf sets k j ∧ r = i).
Proof.
  intros Hi Hpi Hj Hpj Hne Hlink k r.
  assert (rootOf sets' i i) as Hii.
  { pose proof (Hlink i) as H. rewrite decide_False, Hi in H by done. destruct (sets' !! i) as [s|] eqn:Es; [|done].
    simpl in H. injection H as H. eapply root_self; [exact Es|congruence]. }
  split.
  - induction 1 as [k s Hk Hself|k s r Hk Hn _ IH]; pose proof (Hlink k) as H; rewrite Hk in H; simpl in H; case_decide as Hkj.
    + injection H as H. congruence.
    + destruct (sets !! k) as [t|] eqn:Et; [|done]. simpl in H. injection H as H. left. split; [|done]. eapply root_self; [exact Et|congruence].
    + injection H as H. rewrite H in IH. right. split; [rewrite Hkj; by eapply root_self|].
      destruct IH as [[IH _]|[IH ?]]; [|done]. eapply rootOf_det; [exact IH|by eapply root_self].
    + destruct (sets !! k) as [t|] eqn:Et; [|done]. simpl in H. injection H as H. rewrite H in Hn, IH.
      destruct IH as [[IH ?]|[IH ?]]; [left|right]; (split; [by eapply root_step|done]).
  - intros [[H Hr]|[H ->]].
    + induction H as [k s Hk Hself|k s r Hk Hn H IH].
      * pose proof (Hlink k) as Hl. rewrite decide_False, Hk in Hl by done. destruct (sets' !! k) as [t|] eqn:Et; [|done].
        simpl in Hl. injection Hl as Hl. eapply root_self; [exact Et|congruence].
      * assert (k ≠ j) by congruence. pose proof (Hlink k) as Hl. rewrite decide_False, Hk in Hl by done.
        destruct (sets' !! k) as [t|] eqn:Et; [|done]. simpl in Hl. injection Hl as Hl.
        eapply root_step; [exact Et|congruence|]. rewrite Hl. by apply IH.
    + remember j as j' eqn:Ej in H. induction H as [k s Hk Hself|k s r Hk Hn H IH]; [|subst r].
      * rewrite Ej in *. pose proof (Hlink j) as Hl. rewrite decide_True in Hl by done. destruct (sets' !! j) as [t|] eqn:Et; [|done].
        simpl in Hl. injection Hl as Hl. eapply root_step; [exact Et|congruence|]. by rewrite Hl.
      * assert (k ≠ j) by congruence. pose proof (Hlink k) as Hl. rewrite decide_False, Hk in Hl by done.
        destruct (sets' !! k) as [t|] eqn:Et; [|done]. simpl in Hl. injection Hl as Hl.
        eapply root_step; [exact Et|congruence|]. rewrite Hl. by apply IH.
Qed.

Lemma sameClass_sets sets sets' i j : sameRoots sets sets' → sameClass sets' i j ↔ sameClass sets i j.
Proof. intros (_ & _ & H). unfold sameClass. by setoid_rewrite H. Qed.

(** The classes after a union. *)
Definition joined (C : nat → nat → Prop) (i j a b : nat) : Prop := C a b ∨ (C a i ∧ C j b) ∨ (C a j ∧ C i b).

Lemma setUnion_spec m steps i j sets : wf sets → ranked m sets → (i < length sets)%nat → (j < length sets)%nat → (m < steps)%nat →
  ∃ sets', setUnion steps i j sets = Ok sets' ∧ wf sets' ∧ ranked (S m) sets' ∧ length sets' = length sets ∧
    ∀ a b, (a < length sets)%nat → (b < length sets)%nat → sameClass sets' a b ↔ joined (sameClass sets) i j a b.
Proof.
  intros Hw Hm Hi Hj Hsteps. unfold setUnion.
  destruct (find_spec m steps i sets) as (ri & s1 & -> & Hri & Hw1 & Hs1); [done..|intros; lia|]. cbn [bind].
  destruct (find_spec m steps j s1) as (rj & s2 & -> & Hrj & Hw2 & Hs2); [done|by eapply sameRoots_ranked|by rewrite (proj1 Hs1)|intros; lia|].
  cbn [bind]. pose proof (sameRoots_trans _ _ _ Hs1 Hs2) as Hs. pose proof (sameRoots_ranked _ _ _ Hs Hm) as Hm2.
  apply (proj2 (proj2 Hs1)) in Hrj. assert (rootOf s2 ri ri ∧ rootOf s2 rj rj) as [Hrri Hrrj].
  { split; apply (proj2 (proj2 Hs)); [destruct (rootOf_root _ _ _ Hri) as (? & ? & ?)|destruct (rootOf_root _ _ _ Hrj) as (? & ? & ?)]; by eapply root_self. }
  assert (∀ a b, (a < length sets)%nat → (b < length sets)%nat → sameClass sets a b ↔ ∃ r r', rootOf sets a r ∧ rootOf sets b r' ∧ r = r') as _ by (unfold sameClass; naive_solver).
  destruct (Nat.eqb_spec ri rj) as [<-|Hne].
  { exists s2. split; [done|]. split; [done|]. split; [intros k s Hk; pose proof (Hm2 k s Hk); lia|]. split; [apply Hs|].
    intros a b _ _. rewrite (sameClass_sets _ _ a b Hs). unfold joined, sameClass. split; [by left|].
    intros [H|[[(r & Ha & Hr) (r' & Hr' & Hb)]|[(r & Ha & Hr) (r' & Hr' & Hb)]]]; [done| |]; exists ri.
    - rewrite (rootOf_det _ _ _ _ Hri Hr). split; [done|]. rewrite <-(rootOf_det _ _ _ _ Hri Hr), (rootOf_det _ _ _ _ Hrj Hr'). done.
    - rewrite (rootOf_det _ _ _ _ Hrj Hr). split; [done|]. rewrite <-(rootOf_det _ _ _ _ Hrj Hr), (rootOf_det _ _ _ _ Hri Hr'). done. }
  destruct (rootOf_root _ _ _ Hrri) as (si & Hsi & Hpi). destruct (rootOf_root _ _ _ Hrrj) as (sj & Hsj & Hpj).
  unfold at_. rewrite Hsi, Hsj. cbn [of_option bind].
  set (eqr := (rank si =? rank sj)%nat).
  assert (∃ top sub st ss, (if (rank si <? rank sj)%nat then (rj, ri) else (ri, rj)) = (top, sub) ∧ s2 !! top = Some st ∧ parent st = top ∧
    s2 !! sub = Some ss ∧ parent ss = sub ∧ top ≠ sub ∧
    (if eqr then top = ri ∧ rank ss = rank st else (rank ss < rank st)%nat) ∧
    ((top = ri ∧ sub = rj) ∨ (top = rj ∧ sub = ri))) as (top & sub & st & ss & -> & Ht & Hpt & Hss & Hps & Hts & Hrank & Hwhich).
  { unfold eqr. destruct (Nat.ltb_spec (rank si) (rank sj)); [exists rj, ri, sj, si|exists ri, rj, si, sj]; repeat split; auto;
      destruct (Nat.eqb_spec (rank si) (rank sj)); (lia || done). }
  set (s3 := setParent sub top s2). set (s4 := if eqr then setRank ri (S (rank si)) s3 else s3).
  assert (∀ k, s4 !! k = (λ u, mkDisjointSetInfo (if decide (k = sub) then top else parent u)
      (if eqr then if decide (k = ri) then S (rank si) else rank u else rank u)) <$> s2 !! k) as Hs4.
  { intros k. assert (s3 !! k = (λ u, mkDisjointSetInfo (if decide (k = sub) then top else parent u) (rank u)) <$> s2 !! k) as Hs3.
    { unfold s3. rewrite setParent_lookup. case_decide; [done|]. by destruct (s2 !! k) as [[]|]. }
    unfold s4. destruct eqr; [|done]. unfold setRank. destruct (decide (k = ri)) as [->|];
      [rewrite list_lookup_alter_eq|rewrite list_lookup_alter_ne by done]; rewrite Hs3; by destruct (s2 !! _) as [[]|]. }
  assert (∀ k, parent <$> s4 !! k = if decide (k = sub) then Some top else parent <$> s2 !! k) as Hlink.
  { intros k. rewrite Hs4. case_decide as Hk; [subst k; by rewrite Hss|by destruct (s2 !! k)]. }
  pose proof (link_roots s2 s4 top sub st ss Ht Hpt Hss Hps Hts Hlink) as Hroots.
  assert (length s4 = length sets) as Hlen.
  { rewrite <-(proj1 Hs). unfold s4, s3, setRank, setParent. destruct eqr; by rewrite !length_alter. }
  exists s4. split; [done|]. split; [|split; [|split; [done|]]].
  - intros k t Hk. rewrite Hs4 in Hk. destruct (s2 !! k) as [u|] eqn:Eu; [|done]. simpl in Hk. injection Hk as <-. simpl.
    destruct (decide (k = sub)) as [->|Hks].
    + rewrite Hs4, Ht. eexists. split; [done|]. right. simpl. assert (u = ss) as -> by congruence.
      destruct eqr eqn:Ee; [|done]. destruct Hrank as [-> Hr]. rewrite decide_False by done. rewrite decide_True by done.
      assert (st = si) as -> by congruence. lia.
    + destruct (Hw2 k u Eu) as (p & Hp & Hpu). rewrite Hs4, Hp. eexists. split; [done|]. destruct Hpu as [Hpu|Hlt]; [by left|]. right. simpl.
      assert (∀ q x, s2 !! q = Some x → rank x ≤ (if eqr then if decide (q = ri) then S (rank si) else rank x else rank x))%nat as Hge.
      { intros q x Hx. destruct eqr; [|lia]. case_decide as Hq; [|lia]. subst q. assert (x = si) as -> by congruence. lia. }
      specialize (Hge _ _ Hp). assert (k ≠ ri) as Hkri.
      { intros ->. assert (u = si) as -> by congruence. rewrite Hpi in Hp. assert (p = si) as -> by congruence. lia. }
      rewrite decide_False by done. destruct eqr; lia.
  - intros k t Hk. rewrite Hs4 in Hk. destruct (s2 !! k) as [u|] eqn:Eu; [|done]. simpl in Hk. injection Hk as <-. simpl.
    pose proof (Hm2 _ _ Eu). pose proof (Hm2 _ _ Hsi). destruct eqr; [case_decide|]; lia.
  - intros a b Ha Hb. destruct (rootOf_total m s2 a Hw2 Hm2) as [ra Hra]; [by rewrite (proj1 Hs)|].
    destruct (rootOf_total m s2 b Hw2 Hm2) as [rb Hrb]; [by rewrite (proj1 Hs)|].
    assert (∀ x rx y ry, rootOf s2 x rx → rootOf s2 y ry → sameClass sets x y ↔ rx = ry) as Hclass.
    { intros x rx y ry Hx Hy. rewrite <-(sameClass_sets _ _ x y Hs). split; [|intros ->; by exists ry].
      intros (r & H1 & H2). rewrite (rootOf_det _ _ _ _ Hx H1). by rewrite (rootOf_det _ _ _ _ Hy H2). }
    assert (rootOf s2 i ri ∧ rootOf s2 j rj) as [Hi2 Hj2] by (split; by apply Hs).
    unfold joined. rewrite (Hclass a ra b rb), (Hclass a ra i ri), (Hclass j rj b rb), (Hclass a ra j rj), (Hclass i ri b rb) by done.
    assert (∀ x rx, rootOf s2 x rx → ∀ r, rootOf s4 x r ↔ r = if decide (rx = sub) then top else rx) as H4.
    { intros x rx Hx r. rewrite Hroots. case_decide as Hsub.
      - subst rx. split; [|intros ->; by right]. intros [[H1 H2]|[_ ?]]; [|done]. by destruct H2; eapply rootOf_det.
      - split; [|intros ->; by left]. intros [[H1 _]|[H1 _]]; [by eapply rootOf_det|]. destruct Hsub. by eapply rootOf_det. }
    unfold sameClass. setoid_rewrite (H4 a ra Hra). setoid_rewrite (H4 b rb Hrb).
    assert ((∃ r, r = (if decide (ra = sub) then top else ra) ∧ r = if decide (rb = sub) then top else rb) ↔
      (if decide (ra = sub) then top else ra) = if decide (rb = sub) then top else rb) as -> by naive_solver.
    repeat case_decide; destruct Hwhich as [[-> ->]|[-> ->]]; naive_solver.
Qed.

(** * The classes of a relation that is joined pair by pair *)

Lemma rtsc_sym {A} (R : A → A → Prop) x y : rtsc R x y → rtsc R y x.
Proof. intros H. by symmetry. Qed.

Lemma rtsc_join {A} (R R' : A → A → Prop) i j : (∀ x y, R' x y ↔ R x y ∨ (x = i ∧ y = j)) →
  ∀ a b, rtsc R' a b ↔ rtsc R a b ∨ (rtsc R a i ∧ rtsc R j b) ∨ (rtsc R a j ∧ rtsc R i b).
Proof.
  intros HR a b.
  assert (∀ x y, rtsc R x y → rtsc R' x y) as Hmono.
  { intros x y. apply rtc_subrel. intros u v [H|H]; [left|right]; apply HR; by left. }
  assert (rtsc R' i j) as Hij by (apply rtc_once; left; apply HR; by right). split.
  - intros H. induction H as [a|a c b Hac Hcb IH]; [by left|].
    assert (sc R a c ∨ (a = i ∧ c = j) ∨ (a = j ∧ c = i)) as [Hs|[[-> ->]|[-> ->]]].
    { destruct Hac as [H|H]; apply HR in H as [H|[-> ->]]; [by left; left|by right; left|by left; right|by right; right]. }
    + destruct IH as [H|[[H1 H2]|[H1 H2]]]; [left|right; left|right; right]; try split; try done; by eapply rtc_l.
    + destruct IH as [H|[[H1 H2]|[H1 H2]]]; [right; left; done|right; left; by split|].
      left. done.
    + destruct IH as [H|[[H1 H2]|[H1 H2]]]; [right; right; done|left; done|right; right; by split].
  - intros [H|[[H1 H2]|[H1 H2]]]; [by apply Hmono| |].
    + etrans; [by apply Hmono|]. etrans; [exact Hij|by apply Hmono].
    + etrans; [by apply Hmono|]. etrans; [apply rtsc_sym, Hij|by apply Hmono].
Qed.

(** Two circuits share a block. *)
Definition share (l : list CFDFC) (i j : nat) : Prop :=
  ∃ ci cj, l !! i = Some ci ∧ l !! j = Some cj ∧ shareBlock ci cj = true.

Section Unions.
Context (l : list CFDFC).
Notation n := (length l).

(** The pairs that were looked at: those below [i], and those of [i] below [j]. *)
Definition seen (i j a b : nat) : Prop := share l a b ∧ (b < a)%nat ∧ ((a < i)%nat ∨ a = i ∧ (b < j)%nat).

Record partition (i j m : nat) (sets : DisjointSets) : Prop := {
  part_wf : wf sets; part_ranked : ranked m sets; part_length : length sets = n;
  part_classes : ∀ a b, (a < n)%nat → (b < n)%nat → sameClass sets a b ↔ rtsc (seen i j) a b }.

Lemma rtsc_iff {A} (R R' : A → A → Prop) : (∀ x y, R x y ↔ R' x y) → ∀ x y, rtsc R x y ↔ rtsc R' x y.
Proof.
  intros H x y. split; apply rtc_subrel; intros u v [Hs|Hs]; [left|right|left|right]; by apply H.
Qed.

Lemma initial_partition : partition 0 0 0 (map (λ idx, mkDisjointSetInfo idx 0) (seq 0 n)).
Proof using Type.
  assert (∀ i s, map (λ idx, mkDisjointSetInfo idx 0) (seq 0 n) !! i = Some s → s = mkDisjointSetInfo i 0 ∧ (i < n)%nat) as Hl.
  { intros i s. rewrite list_lookup_fmap. intros H. destruct (seq 0 n !! i) as [k|] eqn:E; [|done]. apply lookup_seq in E as [-> Hi].
    simpl in H. by injection H as <-. }
  assert (∀ i, (i < n)%nat → map (λ idx, mkDisjointSetInfo idx 0) (seq 0 n) !! i = Some (mkDisjointSetInfo i 0)) as Hl'.
  { intros i Hi. by rewrite list_lookup_fmap, lookup_seq_lt by done. }
  split.
  - intros i s Hi. apply Hl in Hi as [-> Hi]. exists (mkDisjointSetInfo i 0). simpl. split; [by apply Hl'|by left].
  - intros i s Hi. apply Hl in Hi as [-> _]. done.
  - by rewrite length_map, length_seq.
  - intros a b Ha Hb. assert (∀ k, (k < n)%nat → rootOf (map (λ idx, mkDisjointSetInfo idx 0) (seq 0 n)) k k) as Hself.
    { intros k Hk. eapply root_self; [by apply Hl'|done]. }
    split.
    + intros (r & H1 & H2). rewrite (rootOf_det _ _ _ _ (Hself a Ha) H1), (rootOf_det _ _ _ _ (Hself b Hb) H2). done.
    + intros H. assert (a = b) as <-; [|exists a; split; by apply Hself].
      induction H as [|x y z [(_ & _ & H)|(_ & _ & H)] _ IH]; [done|lia|lia].
Qed.

(** One pair. *)
Lemma pair_step steps i j m sets ci cj : (i < n)%nat → (j < i)%nat → (m < steps)%nat → l !! i = Some ci → l !! j = Some cj →
  partition i j m sets →
  ∃ sets', (if shareBlock ci cj then setUnion steps i j sets else Ok sets) = Ok sets' ∧ partition i (S j) (S m) sets'.
Proof using Type.
  intros Hi Hj Hm Hci Hcj [Hw Hr Hlen Hcl].
  assert (∀ x y, seen i (S j) x y ↔ seen i j x y ∨ (share l i j ∧ x = i ∧ y = j)) as Hseen.
  { intros x y. unfold seen. split.
    - intros (H1 & H2 & [H3|[-> H3]]); [by left; split; [|split; [|left]]|].
      destruct (decide (y = j)) as [->|Hne]; [by right|]. left. split; [done|]. split; [done|]. right. split; [done|lia].
    - intros [(H1 & H2 & [H3|[-> H3]])|(H1 & -> & ->)]; (split; [done|]; split; [done|]); [by left|right; lia|right; lia]. }
  destruct (shareBlock ci cj) eqn:Eshare.
  - destruct (setUnion_spec m steps i j sets) as (sets' & -> & Hw' & Hr' & Hlen' & Hcl'); [done|done|lia|lia|done|].
    exists sets'. split; [done|]. split; [done|done|congruence|]. intros a b Ha Hb. rewrite Hcl' by lia. unfold joined.
    rewrite (Hcl a b), (Hcl a i), (Hcl j b), (Hcl a j), (Hcl i b) by lia. symmetry. apply rtsc_join. intros x y. rewrite Hseen.
    assert (share l i j) by (by exists ci, cj). tauto.
  - exists sets. split; [done|]. split; [done| |done|].
    + intros k s Hk. specialize (Hr k s Hk). lia.
    + intros a b Ha Hb. rewrite Hcl by done. apply rtsc_iff. intros x y. rewrite Hseen.
      assert (¬ share l i j); [|tauto]. intros (? & ? & H1 & H2 & H3). congruence.
Qed.

Definition pairsStep (steps i : nat) (sets : DisjointSets) (j : nat) : res DisjointSets :=
  let* ci := at_ l i in let* cj := at_ l j in if shareBlock ci cj then setUnion steps i j sets else Ok sets.

Lemma row_step steps i : (i < n)%nat → ∀ k j m sets, (j + k = i)%nat → (m + k < steps)%nat → partition i j m sets →
  ∃ sets', foldM (pairsStep steps i) sets (seq j k) = Ok sets' ∧ partition i i (m + k) sets'.
Proof using Type.
  intros Hi. induction k as [|k IH]; intros j m sets Hjk Hm Hp; simpl.
  { exists sets. split; [done|]. by replace i with j at 2 by lia; rewrite Nat.add_0_r. }
  destruct (lookup_lt_is_Some_2 l i Hi) as [ci Hci]. destruct (lookup_lt_is_Some_2 l j) as [cj Hcj]; [lia|].
  destruct (pair_step steps i j m sets ci cj) as (s1 & H1 & P1); [done|lia|lia|done|done|done|].
  unfold pairsStep at 1. unfold at_. rewrite Hci, Hcj. cbn [of_option bind]. rewrite H1. cbn [bind].
  destruct (IH (S j) (S m) s1) as (s2 & H2 & P2); [lia|lia|done|]. exists s2. split; [done|]. by replace (m + S k)%nat with (S m + k)%nat by lia.
Qed.

Lemma next_row i m sets : partition i i m sets → partition (S i) 0 m sets.
Proof using Type.
  intros [Hw Hr Hlen Hcl]. split; [done..|]. intros a b Ha Hb. rewrite Hcl by done. apply rtsc_iff. intros x y. unfold seen.
  split; intros (H1 & H2 & H3); (split; [done|]; split; [done|]); lia.
Qed.

Lemma all_pairs steps : ∀ k i m sets, (i + k = n)%nat → (m + k * n < steps)%nat → partition i 0 m sets →
  ∃ sets' m', foldM (λ sets i, foldM (pairsStep steps i) sets (seq 0 i)) sets (seq i k) = Ok sets' ∧ partition n 0 m' sets' ∧
    (m' ≤ m + k * n)%nat.
Proof using Type.
  induction k as [|k IH]; intros i m sets Hik Hm Hp; simpl.
  { exists sets, m. split; [done|]. split; [|lia]. by replace n with i by lia. }
  destruct (row_step steps i) with (k := i) (j := 0%nat) (m := m) (sets := sets) as (s1 & -> & P1); [lia|lia|simpl in Hm; lia|done|].
  cbn [bind]. apply next_row in P1. destruct (IH (S i) (m + i)%nat s1) as (s2 & m' & H2 & P2 & Hm'); [lia|simpl in Hm; lia|done|].
  exists s2, m'. split; [exact H2|]. split; [done|]. lia.
Qed.

Lemma shareBlock_sym ci cj : shareBlock ci cj = true → shareBlock cj ci = true.
Proof using Type.
  clear. unfold shareBlock. rewrite !existsb_exists. intros (b & Hb & H). apply bool_decide_eq_true in H. exists b.
  split; [by apply list_elem_of_In|]. apply bool_decide_eq_true. by apply list_elem_of_In.
Qed.

(** All pairs were looked at. *)
Lemma seen_all a b : rtsc (seen n 0) a b ↔ rtc (share l) a b.
Proof using Type.
  assert (∀ x y, share l x y → share l y x) as Hsym.
  { intros x y (ci & cj & H1 & H2 & H3). exists cj, ci. split; [done|]. split; [done|]. by apply shareBlock_sym. }
  split.
  - apply rtc_subrel. intros x y [(H & _)|(H & _)]; [done|by apply Hsym].
  - intros H. induction H as [|x y z Hxy _ IH]; [done|]. etrans; [|exact IH].
    destruct (Nat.lt_trichotomy x y) as [Hlt|[->|Hlt]]; [|done|]; apply rtc_once; [right|left];
      (split; [auto|]; split; [done|]; left); [destruct Hxy as (? & ? & _ & H & _)|destruct Hxy as (? & ? & H & _)]; by eapply lookup_lt_Some.
Qed.

End Unions.

(** * The unions *)

Lemma insertSorted_elem i l x : x ∈ insertSorted i l ↔ x = i ∨ x ∈ l.
Proof.
  induction l as [|j l IH]; simpl; [by rewrite list_elem_of_singleton; split; [left|intros [|?%elem_of_nil]]|].
  destruct (i <? j)%nat; [by rewrite elem_of_cons|]. destruct (Nat.eqb_spec i j); [subst; rewrite elem_of_cons; tauto|].
  rewrite !elem_of_cons, IH. tauto.
Qed.

(** In increasing order. *)
Fixpoint increasing (l : list nat) : Prop :=
  match l with [] => True | x :: l => Forall (lt x) l ∧ increasing l end.

Lemma insertSorted_increasing i l : increasing l → increasing (insertSorted i l).
Proof.
  induction l as [|j l IH]; simpl; [done|]. intros [Hj Hl]. destruct (Nat.ltb_spec i j).
  - simpl. split; [|by split]. constructor; [done|]. eapply List.Forall_impl; [|exact Hj]. intros k; simpl. lia.
  - destruct (Nat.eqb_spec i j); [by split|]. simpl. split; [|by apply IH]. apply Forall_elem.
    intros x [->|Hx]%insertSorted_elem; [lia|]. by apply (proj1 (Forall_elem _ _) Hj).
Qed.

Lemma increasing_NoDup l : increasing l → NoDup l.
Proof.
  induction l as [|x l IH]; simpl; [constructor|]. intros [Hx Hl]. constructor; [|by apply IH].
  intros Hin. pose proof (proj1 (Forall_elem _ _) Hx x Hin). lia.
Qed.

Section Collect.
Context (steps m : nat) (sets : DisjointSets) (n : nat).
Context (Hw : wf sets) (Hm : ranked m sets) (Hn : length sets = n) (Hsteps : (m < steps)%nat).

Definition rootAt (a : nat) : nat := match CFDFC.find steps a sets with Ok (r, _) => r | Bad _ => 0%nat end.

Lemma rootAt_root a : (a < n)%nat → rootOf sets a (rootAt a).
Proof using Hw Hm Hn Hsteps.
  intros Ha. destruct (find_spec m steps a sets) as (r & s & H & Hr & _); [done|done|lia|intros; lia|]. unfold rootAt. by rewrite H.
Qed.

Definition kept (sets' : DisjointSets) : Prop := wf sets' ∧ sameRoots sets sets'.

Lemma find_kept a sets' : kept sets' → (a < n)%nat → ∃ sets'', CFDFC.find steps a sets' = Ok (rootAt a, sets'') ∧ kept sets''.
Proof using Hw Hm Hn Hsteps.
  intros [Hw' Hs] Ha. destruct (find_spec m steps a sets') as (r & s & -> & Hr & Hw'' & Hs'); [done|by eapply sameRoots_ranked|by rewrite (proj1 Hs), Hn|intros; lia|].
  exists s. assert (r = rootAt a) as <-; [|split; [done|split; [done|by eapply sameRoots_trans]]].
  apply Hs in Hr. eapply rootOf_det; [exact Hr|by apply rootAt_root].
Qed.

Lemma collect_roots l : (∀ a, a ∈ l → (a < n)%nat) → ∀ acc sets', kept sets' → ∃ sets'',
  foldM (λ '(setIndices, sets) idx, let* (r, sets) := CFDFC.find steps idx sets in Ok (insertSorted r setIndices, sets)) (acc, sets') l =
    Ok (foldl (λ acc a, insertSorted (rootAt a) acc) acc l, sets'') ∧ kept sets''.
Proof using Hw Hm Hn Hsteps.
  induction l as [|a l IH]; intros Hl acc sets' Hk; simpl; [by exists sets'|].
  destruct (find_kept a sets' Hk) as (s1 & -> & Hk1); [apply Hl; left|]. cbn [bind]. apply IH; [|done]. intros b Hb. apply Hl. by right.
Qed.

Lemma collect_class setIdx l : (∀ a, a ∈ l → (a < n)%nat) → ∀ acc sets', kept sets' → ∃ sets'',
  foldM (λ '(cfUnion, sets) idx, let* (r, sets) := CFDFC.find steps idx sets in
    Ok (if (r =? setIdx)%nat then cfUnion ++ [idx] else cfUnion, sets)) (acc, sets') l =
    Ok (acc ++ filter (λ a, rootAt a = setIdx) l, sets'') ∧ kept sets''.
Proof using Hw Hm Hn Hsteps.
  induction l as [|a l IH]; intros Hl acc sets' Hk; simpl; [exists sets'; by rewrite app_nil_r|].
  destruct (find_kept a sets' Hk) as (s1 & -> & Hk1); [apply Hl; left|]. cbn [bind].
  destruct (IH ltac:(intros b Hb; apply Hl; by right) (if (rootAt a =? setIdx)%nat then acc ++ [a] else acc) s1 Hk1) as (s2 & H2 & Hk2).
  exists s2. rewrite H2. split; [|done]. rewrite filter_cons. destruct (Nat.eqb_spec (rootAt a) setIdx).
  - rewrite decide_True by done. by rewrite <-app_assoc.
  - by rewrite decide_False by done.
Qed.

Lemma collect_unions roots : ∀ acc sets', kept sets' → ∃ sets'',
  foldM (λ '(unions, sets) setIdx,
    let* (cfUnion, sets) := foldM (λ '(cfUnion, sets) idx, let* (r, sets) := CFDFC.find steps idx sets in
      Ok (if (r =? setIdx)%nat then cfUnion ++ [idx] else cfUnion, sets)) ([], sets) (seq 0 n) in
    Ok (unions ++ [cfUnion], sets)) (acc, sets') roots =
    Ok (acc ++ map (λ r, filter (λ a, rootAt a = r) (seq 0 n)) roots, sets'') ∧ kept sets''.
Proof using Hw Hm Hn Hsteps.
  induction roots as [|r roots IH]; intros acc sets' Hk; simpl; [exists sets'; by rewrite app_nil_r|].
  destruct (collect_class r (seq 0 n)) with (acc := @nil nat) (sets' := sets') as (s1 & -> & Hk1); [intros a Ha%elem_of_seq; lia|done|].
  cbn [bind]. destruct (IH (acc ++ [[] ++ filter (λ a, rootAt a = r) (seq 0 n)]) s1 Hk1) as (s2 & -> & Hk2).
  exists s2. by rewrite <-app_assoc.
Qed.

Definition roots : list nat := foldl (λ acc a, insertSorted (rootAt a) acc) [] (seq 0 n).

Lemma roots_spec : NoDup roots ∧ ∀ r, r ∈ roots ↔ ∃ a, (a < n)%nat ∧ rootAt a = r.
Proof using Type.
  clear. assert (∀ l acc, increasing acc → increasing (foldl (λ acc a, insertSorted (rootAt a) acc) acc l) ∧
    ∀ r, r ∈ foldl (λ acc a, insertSorted (rootAt a) acc) acc l ↔ r ∈ acc ∨ ∃ a, a ∈ l ∧ rootAt a = r) as H.
  { induction l as [|a l IH]; intros acc Hacc; simpl.
    - split; [done|]. intros r. split; [by left|]. intros [|(a & ?%elem_of_nil & _)]; done.
    - destruct (IH (insertSorted (rootAt a) acc) (insertSorted_increasing _ _ Hacc)) as [H1 H2]. split; [done|].
      intros r. rewrite H2, insertSorted_elem. setoid_rewrite elem_of_cons. naive_solver. }
  destruct (H (seq 0 n) [] I) as [H1 H2]. split; [by apply increasing_NoDup|]. intros r. unfold roots. rewrite H2.
  setoid_rewrite elem_of_seq. split; [intros [?%elem_of_nil|(a & Ha & ?)]; [done|exists a; split; [lia|done]]|].
  intros (a & Ha & ?). right. exists a. split; [lia|done].
Qed.

End Collect.

(** The classes of a list of numbers by a function. *)
Lemma classes_perm (h : nat → nat) (l rs : list nat) : NoDup rs → (∀ a, a ∈ l → h a ∈ rs) →
  concat (map (λ r, filter (λ a, h a = r) l) rs) ≡ₚ l.
Proof.
  revert l. induction rs as [|r rs IH]; intros l Hnd Hl; simpl.
  - destruct l as [|a l]; [done|]. exfalso. specialize (Hl a ltac:(left)). by apply elem_of_nil in Hl.
  - apply list.NoDup_cons in Hnd as [Hr Hnd]. rewrite <-(filter_app_complement (λ a, h a = r) l) at 2. f_equiv.
    rewrite <-(IH (filter (λ a, ¬ h a = r) l)); [|done|].
    + enough (map (λ r0, filter (λ a, h a = r0) l) rs = map (λ r0, filter (λ a, h a = r0) (filter (λ a, ¬ h a = r) l)) rs) as -> by done.
      apply map_ext_in. intros r' Hr'%list_elem_of_In. rewrite list_filter_filter. apply list_filter_iff. intros a. split; [|tauto].
      intros <-. split; [done|]. intros He. rewrite He in Hr'. done.
    + intros a [Hne Ha]%list_elem_of_filter. specialize (Hl a Ha). apply elem_of_cons in Hl as [|]; done.
Qed.

(** The positions of the circuits of the unions: the classes of the circuits connected by shared blocks. *)
Record unionsOf (l : list CFDFC) (unions : list (list nat)) : Prop := {
  unions_cover : concat unions ≡ₚ seq 0 (length l);
  unions_nonempty : ∀ u, u ∈ unions → u ≠ [];
  unions_classes : ∀ u i, u ∈ unions → i ∈ u → ∀ j, j ∈ u ↔ rtc (share l) i j }.

Lemma share_range l i j : (i < length l)%nat → rtc (share l) i j → (j < length l)%nat.
Proof. intros Hi H. induction H as [|x y z (cx & cy & _ & Hy & _) _ IH]; [done|]. apply IH. by eapply lookup_lt_Some. Qed.

Lemma disjointIndices_spec steps l : (length l * length l < steps)%nat → ∃ unions, disjointIndices steps l = Ok unions ∧ unionsOf l unions.
Proof.
  intros Hsteps. unfold disjointIndices.
  destruct (all_pairs l steps (length l) 0 0 _ ltac:(lia) ltac:(lia) (initial_partition l)) as (sets & m & H & [Hw Hr Hlen Hcl] & Hm).
  change (foldM (λ sets i, foldM (λ sets j, let* ci := at_ l i in let* cj := at_ l j in
    if shareBlock ci cj then setUnion steps i j sets else Ok sets) sets (seq 0 i))) with
    (foldM (λ sets i, foldM (pairsStep l steps i) sets (seq 0 i))). rewrite H. cbn [bind].
  assert (kept sets sets) as Hk by done. assert (m < steps)%nat as Hms by lia.
  destruct (collect_roots steps m sets (length l) Hw Hr Hlen Hms (seq 0 (length l)) ltac:(intros a Ha%elem_of_seq; lia) [] sets Hk) as (s1 & -> & Hk1).
  cbn [bind]. fold (roots steps sets (length l)).
  destruct (collect_unions steps m sets (length l) Hw Hr Hlen Hms (roots steps sets (length l)) [] s1 Hk1) as (s2 & -> & _).
  cbn [bind]. eexists. split; [done|]. destruct (roots_spec steps sets (length l)) as [Hnd Hin].
  set (h := rootAt steps sets) in *.
  assert (∀ a b, (a < length l)%nat → (b < length l)%nat → h a = h b ↔ rtc (share l) a b) as Hclass.
  { intros a b Ha Hb. rewrite <-seen_all, <-Hcl by done.
    pose proof (rootAt_root steps m sets (length l) Hw Hr Hlen Hms a Ha) as Hra. pose proof (rootAt_root steps m sets (length l) Hw Hr Hlen Hms b Hb) as Hrb.
    split; [intros He; exists (h a); split; [done|rewrite He; exact Hrb]|]. intros (r & H1 & H2).
    trans r; [exact (rootOf_det _ _ _ _ Hra H1)|symmetry; exact (rootOf_det _ _ _ _ Hrb H2)]. }
  split.
  - simpl. apply classes_perm; [done|]. intros a Ha%elem_of_seq. apply Hin. exists a. split; [lia|done].
  - intros u (r & -> & Hr')%list_elem_of_fmap. apply Hin in Hr' as (a & Ha & <-). intros He.
    assert (a ∈ filter (λ a0, h a0 = h a) (seq 0 (length l))) as Hf by (apply list_elem_of_filter; split; [done|apply elem_of_seq; lia]).
    rewrite He in Hf. by apply elem_of_nil in Hf.
  - intros u i (r & -> & Hr')%list_elem_of_fmap [Hi Hil%elem_of_seq]%list_elem_of_filter j.
    rewrite list_elem_of_filter, elem_of_seq, <-Hi. split.
    + intros [Hj Hjl]. apply Hclass; [lia|lia|done].
    + intros Hij. pose proof (share_range l i j ltac:(lia) Hij). split; [symmetry; apply Hclass; [lia|lia|done]|lia].
Qed.

(** * What a union holds *)

Lemma setInsertAll_elem {A} `{EqDecision A} (xs l : list A) x : x ∈ setInsertAll xs l ↔ x ∈ xs ∨ x ∈ l.
Proof.
  unfold setInsertAll. revert l. induction xs as [|y xs IH]; intros l; simpl; [split; [by right|intros [?%elem_of_nil|]; done]|].
  rewrite IH, elem_of_cons. unfold setInsert. case_decide; [|rewrite elem_of_app, list_elem_of_singleton]; naive_solver.
Qed.

Record unionHolds (l : list CFDFC) (u : CFDFCUnion) : Prop := {
  holds_cfdfcs : cfdfcs u = l;
  holds_blocks : ∀ x, x ∈ uBlocks u ↔ ∃ cf, cf ∈ l ∧ x ∈ cycle cf;
  holds_units : ∀ x, x ∈ uUnits u ↔ ∃ cf, cf ∈ l ∧ x ∈ units cf;
  holds_channels : ∀ x, x ∈ uChannels u ↔ ∃ cf, cf ∈ l ∧ x ∈ channels cf;
  holds_backedges : ∀ x, x ∈ uBackedges u ↔ ∃ cf, cf ∈ l ∧ x ∈ backedges cf }.

Lemma CFDFCUnion_new_holds l : unionHolds l (CFDFCUnion_new l).
Proof.
  unfold CFDFCUnion_new. assert (∀ pre u, unionHolds pre u → unionHolds (pre ++ l)
    (foldl (λ u cf, mkCFDFCUnion (cfdfcs u ++ [cf]) (setInsertAll (cycle cf) (uBlocks u)) (setInsertAll (units cf) (uUnits u))
      (setInsertAll (channels cf) (uChannels u)) (setInsertAll (backedges cf) (uBackedges u))) u l)) as H.
  { induction l as [|cf l IH]; intros pre u Hu; simpl; [by rewrite app_nil_r|].
    replace (pre ++ cf :: l) with ((pre ++ [cf]) ++ l) by (by rewrite <-app_assoc). apply IH. destruct Hu as [H1 H2 H3 H4 H5].
    split; simpl; [by rewrite H1|..]; intros x; rewrite setInsertAll_elem; rewrite ?H2, ?H3, ?H4, ?H5;
      setoid_rewrite elem_of_app; setoid_rewrite list_elem_of_singleton; naive_solver. }
  apply (H [] (mkCFDFCUnion [] [] [] [] [])). split; [done|..]; simpl; intros x; (split; [intros ?%elem_of_nil; done|intros (? & ?%elem_of_nil & _); done]).
Qed.

Lemma concat_disjoint {A} (ll : list (list A)) p q a b x : NoDup (concat ll) → ll !! p = Some a → ll !! q = Some b → p ≠ q → x ∈ a → x ∉ b.
Proof.
  revert p q. induction ll as [|c ll IH]; intros p q Hn Hp Hq Hpq Hx; [done|]. simpl in Hn. apply list.NoDup_app in Hn as (_ & Hd & Hn).
  assert (∀ k d y, ll !! k = Some d → y ∈ d → y ∈ concat ll) as Hc.
  { intros k d y Hk Hy. apply list_elem_of_In, in_concat. exists d. split; apply list_elem_of_In; [by eapply list_elem_of_lookup_2|done]. }
  destruct p as [|p], q as [|q]; simpl in Hp, Hq; [done| | |].
  - injection Hp as <-. intros Hb. eapply Hd; [exact Hx|by eapply Hc].
  - injection Hq as <-. intros Hb. eapply Hd; [exact Hb|by eapply Hc].
  - eapply IH; [done|exact Hp|exact Hq|congruence|done].
Qed.

(** C8.  The unions of choice-free circuits are the classes of the circuits that are connected by
    shared blocks: every circuit is in exactly one union, two circuits are in the same union exactly
    if a chain of circuits, each sharing a block with the next, leads from one to the other, and no
    block is in two unions. *)
Theorem getDisjointBlockUnions_correct steps l : (length l * length l < steps)%nat →
  ∃ unions, getDisjointBlockUnions steps l = Ok (map (λ idxs, CFDFCUnion_new (omap (l !!.) idxs)) unions) ∧ unionsOf l unions ∧
    ∀ p q idxs idxs', unions !! p = Some idxs → unions !! q = Some idxs' → p ≠ q →
      ∀ bb, bb ∈ uBlocks (CFDFCUnion_new (omap (l !!.) idxs)) → bb ∉ uBlocks (CFDFCUnion_new (omap (l !!.) idxs')).
Proof.
  intros Hsteps. destruct (disjointIndices_spec steps l Hsteps) as (unions & Hrun & Hu). exists unions.
  unfold getDisjointBlockUnions. rewrite Hrun. cbn [bind]. split; [done|]. split; [done|].
  intros p q idxs idxs' Hp Hq Hpq bb Hbb Hbb'. destruct Hu as [Hcover _ Hclasses].
  apply (holds_blocks _ _ (CFDFCUnion_new_holds _)) in Hbb as (cf & (i & Hi & Hcf)%list_elem_of_omap & Hb).
  apply (holds_blocks _ _ (CFDFCUnion_new_holds _)) in Hbb' as (cf' & (j & Hj & Hcf')%list_elem_of_omap & Hb').
  assert (j ∈ idxs) as Hji.
  { apply (Hclasses idxs i); [by eapply list_elem_of_lookup_2|done|]. apply rtc_once. exists cf, cf'. split; [done|]. split; [done|].
    apply existsb_exists. exists bb. split; [by apply list_elem_of_In|by apply bool_decide_eq_true]. }
  eapply (concat_disjoint unions p q idxs idxs' j); try done. rewrite Hcover. apply NoDup_seq.
Qed.

Definition cycleOnly (c : list nat) : CFDFC := mkCFDFC c [] [] [] 1 ∅ ∅.

Lemma getDisjointBlockUnions_correct_witness :
  (let l := [cycleOnly [1; 2]; cycleOnly [5]; cycleOnly [2; 3]]%nat in length l * length l < 10)%nat ∧
  ∃ unions, getDisjointBlockUnions 10 [cycleOnly [1; 2]; cycleOnly [5]; cycleOnly [2; 3]]%nat =
    Ok (map (λ idxs, CFDFCUnion_new (omap ([cycleOnly [1; 2]; cycleOnly [5]; cycleOnly [2; 3]]%nat !!.) idxs)) unions) ∧
    unionsOf [cycleOnly [1; 2]; cycleOnly [5]; cycleOnly [2; 3]]%nat unions.
Proof.
  split; [simpl; lia|].
  destruct (getDisjointBlockUnions_correct 10 [cycleOnly [1; 2]; cycleOnly [5]; cycleOnly [2; 3]]%nat ltac:(simpl; lia)) as (u & H1 & H2 & _).
  by exists u.
Defined.

(** The first and the last circuit share block 2. *)
Example two_unions : disjointIndices 10 [cycleOnly [1; 2]; cycleOnly [5]; cycleOnly [2; 3]]%nat = Ok [[1]; [0; 2]]%nat.
Proof. reflexivity. Qed.
