(* ===== verification/CFDFCExamples.v ===== *)
(** The extraction of choice-free circuits on a loop of one block that is executed 12000 times,
    with a solver that answers its three programs; two loops with counts that the file
    written for CBC rounds. *)

From stdpp Require Import strings gmap pretty.
From Stdlib Require Import QArith Lqa.
From S2P Require Import CircuitIR CFG LSQGraph CFDFC LinearPrograms LpFormat CFDFCModel CFDFCFiles BlockCycles CFDFCThms Prelude.

(** A value goes around the loop of block 1: argument, merge, buffer, branch, end; the condition is
    another argument. *)
Definition loopCircuit : FuncOp := mkFuncOp [0; 6]%nat [
  mkOperation "br" BranchOp [0]%nat [1]%nat (Some 0%nat);
  mkOperation "merge" MergeOp [1; 5]%nat [2]%nat (Some 1%nat);
  mkOperation "buffer" (BufferOp true 1) [2]%nat [3]%nat (Some 1%nat);
  mkOperation "cond_br" ConditionalBranchOp [6; 3]%nat [5; 4]%nat (Some 1%nat);
  mkOperation "end" OtherOp [4]%nat [] (Some 2%nat)].

Definition loopArchs (n : Z) : list ArchBB := [mkArchBB 0 1 1 false; mkArchBB 1 1 n true; mkArchBB 1 2 1 false].

Definition program (archs : list ArchBB) : CPSolver :=
  match extractionModel archs (blocksOf archs) with Ok (_, s) => s | Bad _ => CPSolver_new end.

(** The solution with [n] executions of the loop. *)
Definition loopValue (n : Z) (s : string) : Q :=
  if decide (s = "varMaxExecs" ∨ s = "numExec_times_sArc_1_1") then inject_Z n
  else if decide (s = "sArc_1_1" ∨ s = "sBB_1") then 1%Q else 0%Q.

Definition loopSolver : Solver := λ s,
  if decide (s = program (loopArchs 12000)) then (OPTIMAL, loopValue 10000)
  else if decide (s = program (loopArchs 2000)) then (OPTIMAL, loopValue 2000)
  else if decide (s = program (loopArchs 0)) then (OPTIMAL, loopValue 0)
  else (INFEASIBLE, λ _, 0%Q).


(** * The solver is right *)

Notation a01 := (mkArchBB 0 1 1 false).
Notation a11 n := (mkArchBB 1 1 n true).
Notation a12 := (mkArchBB 1 2 1 false).

Lemma loop_distinct n : distinctArchs (loopArchs n).
Proof. unfold distinctArchs. simpl. repeat (constructor; [set_solver|]). constructor. Qed.

Lemma loop_program n : extractionModel (loopArchs n) [0; 1; 2]%nat = Ok (theVars (loopArchs n) [0; 1; 2]%nat, program (loopArchs n)) ∧
  (∀ value, feasible value (program (loopArchs n)) ↔ solution (loopArchs n) [0; 1; 2]%nat value) ∧
  ∀ value, (evalLin value (maxObjective (program (loopArchs n))) == sumQ (λ a, value (timesName (archName a))) (loopArchs n))%Q.
Proof.
  destruct (extractionModel_spec (loopArchs n) [0; 1; 2]%nat) as (s & Hm & H); [apply loop_distinct| |].
  { repeat (constructor; [set_solver|]). constructor. }
  assert (program (loopArchs n) = s) as ->; [|exact (conj Hm H)].
  unfold program. change (blocksOf (loopArchs n)) with [0; 1; 2]%nat. rewrite Hm. reflexivity.
Qed.

(** No solution has a better objective. *)
Lemma loop_bound n value : solution (loopArchs n) [0; 1; 2]%nat value →
  (sumQ (λ a, value (timesName (archName a))) (loopArchs n) <= inject_Z (Z.min 10000 n))%Q.
Proof.
  intros [_ _ _ Ht Hlim Hback Hbal].
  destruct (Hbal 0%nat ltac:(set_solver)) as [H0 H0']. destruct (Hbal 2%nat ltac:(set_solver)) as [H2 H2'].
  destruct (Ht a01 ltac:(set_solver)) as [_ (_ & _ & T01)]. destruct (Ht (a11 n) ltac:(set_solver)) as [_ (T11 & _ & T11')].
  destruct (Ht a12 ltac:(set_solver)) as [_ (_ & _ & T12)]. pose proof (Hlim (a11 n) ltac:(set_solver)) as L11.
  unfold limited in L11. unfold weightIf in *. cbn [loopArchs sumQ foldr isBackEdge srcBB dstBB Nat.eqb numTrans] in *.
  cbv zeta in T01, T11, T11', T12. unfold bigM in *.
  set (v01 := value (archName a01)) in *. set (v11 := value (archName (a11 n))) in *. set (v12 := value (archName a12)) in *.
  set (t01 := value (timesName (archName a01))) in *. set (t11 := value (timesName (archName (a11 n)))) in *.
  set (t12 := value (timesName (archName a12))) in *. clearbody v01 v11 v12 t01 t11 t12.
  assert (v11 == 1)%Q as E11 by lra. rewrite E11 in L11, T11'.
  assert (t11 <= inject_Z n)%Q by lra. assert (t11 <= 10000)%Q by lra.
  assert (t11 <= inject_Z (Z.min 10000 n))%Q by (destruct (Z.min_spec 10000 n) as [[_ ->]|[_ ->]]; done).
  lra.
Qed.

Lemma loopValue_solution n k : 0 ≤ k ≤ 10000 → k ≤ n → solution (loopArchs n) [0; 1; 2]%nat (loopValue k).
Proof.
  intros Hk Hn.
  assert (0 <= inject_Z k ∧ inject_Z k <= 10000 ∧ inject_Z k <= inject_Z n)%Q as (H0 & H1 & H2).
  { change 10000%Q with (inject_Z 10000). change 0%Q with (inject_Z 0). rewrite !inject_le. lia. }
  assert (inject_Z k <= inject_Z (maxNumTrans (loopArchs n)))%Q as H3.
  { apply inject_le. pose proof (proj2 (maxNumTrans_ge (loopArchs n) 0) (a11 n) ltac:(set_solver)) as H. unfold maxNumTrans. simpl in *. lia. }
  assert (∀ s ub (q : Q), loopValue k s = q → (q = 0 ∨ q = 1)%Q → (∀ u, ub = Some u → (q <= u)%Q) → wellTyped (mkCPVar s BOOLEAN (Some 0%Q) ub) (loopValue k)) as Hbit.
  { intros s ub q Hq Hb Hu. unfold wellTyped, inBounds, ofType. simpl. rewrite Hq. split; [split; [intros ? [= <-]; destruct Hb as [-> | ->]; lra|done]|].
    destruct Hb as [-> | ->]; [left|right]; reflexivity. }
  split.
  - intros bb Hb. rewrite !elem_of_cons in Hb.
    destruct Hb as [-> |[-> |[-> |?%elem_of_nil]]]; try done;
      first [apply (Hbit _ _ 0%Q); [reflexivity|auto|intros ? [= <-]; lra]|apply (Hbit _ _ 1%Q); [reflexivity|auto|intros ? [= <-]; lra]].
  - intros a Ha. unfold loopArchs in Ha. rewrite !elem_of_cons in Ha.
    destruct Ha as [-> |[-> |[-> |?%elem_of_nil]]]; try done;
      first [apply (Hbit _ _ 0%Q); [reflexivity|auto|intros ? [= <-]; lra]|apply (Hbit _ _ 1%Q); [reflexivity|auto|intros ? [= <-]; lra]].
  - split; [split; simpl; intros ? [= <-]; [exact H0|exact H3]|by exists k].
  - intros a Ha. unfold loopArchs in Ha. rewrite !elem_of_cons in Ha. unfold bigM.
    assert (∀ s q, loopValue k s = inject_Z q → 0 ≤ q → wellTyped (mkCPVar s INTEGER (Some 0%Q) None) (loopValue k)) as Hint.
    { intros s q Hq H. split; [split; simpl; [intros ? [= <-]; rewrite Hq; by apply (inject_le 0)|done]|exists q; simpl; by rewrite Hq]. }
    destruct Ha as [-> |[-> |[-> |?%elem_of_nil]]]; [| | |done]; (split; [eapply Hint; [reflexivity|lia]|]); unfold linked, bigM.
    + change (loopValue k (archName a01)) with 0%Q. change (loopValue k (timesName (archName a01))) with 0%Q.
      change (loopValue k "varMaxExecs") with (inject_Z k). repeat split; lra.
    + change (loopValue k (archName (a11 n))) with 1%Q. change (loopValue k (timesName (archName (a11 n)))) with (inject_Z k).
      change (loopValue k "varMaxExecs") with (inject_Z k). repeat split; lra.
    + change (loopValue k (archName a12)) with 0%Q. change (loopValue k (timesName (archName a12))) with 0%Q.
      change (loopValue k "varMaxExecs") with (inject_Z k). repeat split; lra.
  - intros a Ha. unfold loopArchs in Ha. rewrite !elem_of_cons in Ha. unfold limited. change (loopValue k "varMaxExecs") with (inject_Z k).
    destruct Ha as [-> |[-> |[-> |?%elem_of_nil]]]; [| | |done]; simpl numTrans.
    + change (loopValue k (archName a01)) with 0%Q. lra.
    + change (loopValue k (archName (a11 n))) with 1%Q. lra.
    + change (loopValue k (archName a12)) with 0%Q. lra.
  - reflexivity.
  - intros bb Hb. rewrite !elem_of_cons in Hb. destruct Hb as [-> |[-> |[-> |?%elem_of_nil]]]; [| | |done]; split; reflexivity.
Qed.

Lemma loop_optimal n k : 0 ≤ k → k = Z.min 10000 n → optimal (program (loopArchs n)) (loopValue k).
Proof.
  intros Hk Hn. destruct (loop_program n) as (_ & Hf & Ho). split; [apply Hf, loopValue_solution; lia|].
  intros other Hother. rewrite !Ho. apply Hf, loop_bound in Hother. rewrite <-Hn in Hother.
  assert (sumQ (λ a, loopValue k (timesName (archName a))) (loopArchs n) == inject_Z k)%Q as ->; [|done].
  cbn [sumQ foldr loopArchs]. change (loopValue k (timesName (archName a01))) with 0%Q. change (loopValue k (timesName (archName a12))) with 0%Q.
  change (loopValue k (timesName (archName (a11 n)))) with (inject_Z k). ring.
Qed.

Lemma loopSolver_optimal s : fst (loopSolver s) = OPTIMAL → optimal s (snd (loopSolver s)).
Proof.
  unfold loopSolver. destruct (decide (s = program (loopArchs 12000))) as [->|_]; [intros _; by apply loop_optimal|].
  destruct (decide (s = program (loopArchs 2000))) as [->|_]; [intros _; by apply loop_optimal|].
  destruct (decide (s = program (loopArchs 0))) as [->|_]; [intros _; by apply loop_optimal|]. done.
Qed.

(** The loop is the only cycle of the archs. *)
Lemma loop_cut n : backedgesCut (loopArchs n).
Proof.
  intros l [Hne Hl] Hin. destruct l as [|a l]; [done|]. clear Hne.
  assert (∀ x, x ∈ a :: l → srcBB x = 1%nat → dstBB x = 1%nat → isBackEdge x = true) as Hback.
  { intros x Hx Hs Hd. destruct (Hin x Hx) as (b & Hb & H1 & H2 & H3). unfold loopArchs in Hb. rewrite !elem_of_cons in Hb.
    destruct Hb as [-> |[-> |[-> |?%elem_of_nil]]]; simpl in *; (done || congruence). }
  assert (∀ x, x ∈ a :: l → (srcBB x = 0 ∧ dstBB x = 1) ∨ (srcBB x = 1 ∧ dstBB x = 1) ∨ (srcBB x = 1 ∧ dstBB x = 2))%nat as Hends.
  { intros x Hx. destruct (Hin x Hx) as (b & Hb & H1 & H2 & H3). unfold loopArchs in Hb. rewrite !elem_of_cons in Hb.
    destruct Hb as [-> |[-> |[-> |?%elem_of_nil]]]; simpl in *; (done || lia). }
  assert (∀ x, x ∈ a :: l → ∃ y, y ∈ a :: l ∧ dstBB x = srcBB y) as Hnext.
  { intros x [i Hi]%list_elem_of_lookup. destruct (Hl i x Hi) as (y & Hy & H). exists y. split; [by eapply list_elem_of_lookup_2|done]. }
  destruct (Hends a ltac:(left)) as [[_ Ha]|[[Hs Hd]|[_ Ha]]].
  - destruct (Hnext a ltac:(left)) as (y & Hy & Hay). destruct (Hends y Hy) as [[H1 H2]|[[H1 H2]|[H1 H2]]]; [lia|exists y; auto|].
    destruct (Hnext y Hy) as (z & Hz & Hyz). destruct (Hends z Hz); lia.
  - exists a. split; [left|by apply Hback; [left|..]].
  - destruct (Hnext a ltac:(left)) as (y & Hy & Hay). destruct (Hends y Hy); lia.
Qed.

(** * The extraction *)

Lemma loop_range n : 0 ≤ n < 2 ^ 32 → ∀ a, a ∈ loopArchs n → 0 ≤ numTrans a < 2 ^ 32.
Proof.
  intros Hn a Ha. unfold loopArchs in Ha. rewrite !elem_of_cons in Ha. destruct Ha as [-> |[-> |[-> |?%elem_of_nil]]]; simpl; (done || lia).
Qed.

(** The files and their solutions: CBC lists the variables that are not 0. *)
Definition loopSolution (n : Z) : SolFile :=
  mkSolFile "Optimal - objective value 1.00000000"
    [("varMaxExecs", inject_Z n); ("numExec_times_sArc_1_1", inject_Z n); ("sArc_1_1", 1%Q); ("sBB_1", 1%Q)].

Definition loopCbc (file : LpFile) : SolFile :=
  if decide (file = writeLp (program (loopArchs 12000))) then loopSolution 10000
  else if decide (file = writeLp (program (loopArchs 2000))) then loopSolution 2000
  else if decide (file = writeLp (program (loopArchs 0))) then loopSolution 0
  else mkSolFile "Infeasible - objective value 0.00000000" [].

Lemma loopCbc_exact : cbcExact loopCbc.
Proof.
  intros file _ Hst. unfold loopCbc in *.
  destruct (decide (file = writeLp (program (loopArchs 12000)))) as [->|_]; [vm_compute; reflexivity|].
  destruct (decide (file = writeLp (program (loopArchs 2000)))) as [->|_]; [vm_compute; reflexivity|].
  destruct (decide (file = writeLp (program (loopArchs 0)))) as [->|_]; [vm_compute; reflexivity|]. done.
Qed.

(** Gurobi is not there. *)
Definition noGurobi (_ : CPSolver) : GRBStatus * nat * (string → Q) := (GRB_OTHER, 0%nat, λ _, 0%Q).

Lemma loop_few : fewTransitions (loopArchs 12000).
Proof.
  split; [apply loop_distinct|]. split; [|exists (a11 12000); split; [right; left|done]].
  intros a Ha. unfold loopArchs in Ha. rewrite !elem_of_cons in Ha. destruct Ha as [-> |[-> |[-> |?%elem_of_nil]]]; simpl; (done || lia).
Qed.

Lemma getCFDFCs_cycles_witness :
  channelsKnown loopCircuit 30 = true ∧
  ∃ r, getCFDFCs loopCircuit 30 (optimize noGurobi loopCbc CBC) false false ∅ 12001 (loopArchs 12000) = Ok r ∧
    ∀ l, r = Some l → Forall (goodCircuit loopCircuit 30 None (loopArchs 12000)) l ∧ spentOn l (a11 12000) ≤ 12000.
Proof.
  split; [reflexivity|].
  destruct (getCFDFCs_cycles loopCircuit 30 noGurobi loopCbc CBC false false ∅ 12001 (loopArchs 12000)) as (r & Hr & H);
    [reflexivity|by intros ???|exact loopCbc_exact|apply loop_distinct|apply loop_range; lia|intros _; exact loop_few|
     apply loop_cut|reflexivity|].
  exists r. split; [exact Hr|]. intros l Hl. destruct (H l Hl) as [H1 H2]. split; [exact H1|].
  apply (H2 (a11 12000)). right. left.
Defined.

(** The extraction with these files finds the circuits. *)
Lemma loop_split_cbc :
  match getCFDFCs loopCircuit 30 (optimize noGurobi loopCbc CBC) false false ∅ 12001 (loopArchs 12000) with
  | Ok (Some l) => map (λ cf, (cycle cf, numExecs cf)) l = [([1%nat], 10000); ([1%nat], 2000)]
  | _ => False
  end.
Proof. vm_compute. reflexivity. Qed.

(** * A count that wraps around *)

(** Blocks 1 and 2 in a loop of 9998 executions around one of 1240000. *)
Definition nestArchs : list ArchBB :=
  [mkArchBB 1 2 9998 false; mkArchBB 2 1 9998 true; mkArchBB 2 2 1240000 true].

Definition nestCbc (file : LpFile) : SolFile :=
  if decide (file = writeLp (program nestArchs)) then
    mkSolFile "Optimal - objective value 20000.00000000"
      [("sBB_1", 1%Q); ("sBB_2", 1%Q); ("sArc_1_2", 1%Q); ("sArc_2_1", 1%Q); ("varMaxExecs", 10000%Q);
       ("numExec_times_sArc_1_2", 10000%Q); ("numExec_times_sArc_2_1", 10000%Q)]
  else mkSolFile "Infeasible - objective value 0.00000000" [].

(** The answer is a solution of the file, which has the coefficient 1230000 for 1230002. *)
Lemma nest_answer :
  let (status, results) := parseSolverOutput (nestCbc (writeLp (program nestArchs))) in
  status = OPTIMAL ∧ lpFeasible (getValue results) (writeLp (program nestArchs)) = true.
Proof. vm_compute. split; reflexivity. Qed.

Lemma nest_wraps : extractCFDFC (optimize noGurobi nestCbc CBC) nestArchs (blocksOf nestArchs) =
  Ok (Some ([0; 1]%nat, 10000, [mkArchBB 1 2 4294967294 false; mkArchBB 2 1 4294967294 true; mkArchBB 2 2 1240000 true])).
Proof. vm_compute. reflexivity. Qed.

(** Two circuits of the same cycle: 12000 executions are more than one circuit can have. *)
Lemma loop_split : ∃ l, getCFDFCs loopCircuit 30 loopSolver false false ∅ 12001 (loopArchs 12000) = Ok (Some l) ∧
  map (λ cf, (cycle cf, units cf, channels cf, numExecs cf)) l =
    [([1], [1; 2; 3], [2; 3; 5], 10000%Z); ([1], [1; 2; 3], [2; 3; 5], 2000%Z)]%nat.
Proof. eexists. split; [vm_compute; reflexivity|reflexivity]. Qed.

Lemma getCFDFCs_complete_witness : ∃ l, getCFDFCs loopCircuit 30 loopSolver false false ∅ 12001 (loopArchs 12000) = Ok (Some l) ∧
  ∀ cyc, ¬ executedCycle (map (leftOf l) (loopArchs 12000)) cyc.
Proof.
  destruct loop_split as (l & Hl & _). exists l. split; [exact Hl|].
  apply (getCFDFCs_complete loopCircuit 30 loopSolver false ∅ 12001 (loopArchs 12000) l);
    [reflexivity|apply loop_distinct|apply loop_range; lia|intros archs vars s _; apply loopSolver_optimal|apply loop_cut|reflexivity|exact Hl].
Defined.
